(* ===== verification/_CoqProject ===== *)
-Q . S2P
Prelude.v
KVServer.v
KvModel.v
KVClerk.v
Linearizability.v
ClerkProg.v
KVLock.v
KVTest.v
KVTestPuts.v
KVSpawn.v
Annotation.v
KVLog.v
ShardCfg.v
Raft.v
RaftCluster.v
RaftElection.v
RaftProgress.v
MapReduce.v
MRWorker.v
MRApps.v
MRRoundtrip.v
Coordinator.v
MRSystem.v
MRTestApps.v
MRMain.v
Labgob.v
Random.v
Labrpc.v
RpcCall.v
KVNet.v
KVNetApps.v
KVNetTests.v
KVLate.v
TesterGroup.v
RaftTest.v
RaftChecks.v
TesterClnts.v
TesterConfig.v
TesterSystem.v
RaftSetup.v
RSM.v
ShardTest.v
ShardCtl.v
ShardConcur.v
ShardPartition.v
ShardShutdown.v
KVSetup.v
KVRaft.v
ShardKV.v
Programs.v
