(* ===== verification/Prelude.v ===== *)
(** * The 6.5840 labs: a verification library

    This library models the programs of the repository, the labs of MIT's
    distributed-systems course 6.5840, in Rocq and proves what makes them
    correct.  The Go sources are under [src/src/].  The repository has a
    MapReduce system (lab 1), a key/value server with versioned puts, its
    clerk and a lock built on the clerk (lab 2), the election part of Raft
    (lab 3A), the configurations of a sharded store ([shardcfg], complete) with
    stubs for the rest of labs 4 and 5 and the tests that drive them, and a
    test framework: a simulated network, groups of servers, clients, and
    checkers.

    ** How Go is modelled

    Pure code is a Rocq function.  Code that can stop the process ([panic],
    [log.Fatalf], a nil dereference, an index out of range) returns in
    [GoRes].  Integers are [Z], with [u64], [u32] and [int64] written out
    where the code's arithmetic can wrap.  Go maps are [gmap]s; where the code
    iterates over a map or sorts, the order is either fixed by the code or
    shown not to matter.  Pointers that are shared or compared are positions
    in a heap that is part of the state.  Goroutines, RPC handlers, locks and
    channels are steps of a transition system: one step for each stretch of
    code that runs under a lock or touches shared state once; random numbers,
    clock readings and scheduling are arguments or labels.  Code outside the
    repository is a parameter with its documented behaviour as the laws of a
    class ([Sorter], [Json], [SnapCodec], [Marshal], [Codec], [Gob],
    [WireCodec], [ConfigJson], [Plugins]); each has an instance.

    ** Files

    Claims of the manifest are numbered in the order of importance.

    - [Prelude]: outcomes of Go code, machine integers, FNV-1a, decimal
      strings, shared lemmas on lists, sums and strings, tactics and the hint
      database [labs].

    The key/value store (lab 2):
    - [KVServer] ([kvsrv1/server.go], [kvsrv1/rpc/rpc.go]): the server.
      [Module KVServer] has the two maps, [Get] and [Put]; the class [VStore]
      is what clients rely on, and the server is an instance.  C1 refines the
      server to one map from keys to (value, version).
    - [KvModel] ([models1/kv.go]): the sequential model the porcupine checker
      uses: [Init], [Step], [Partition], [DescribeOperation].
    - [KVClerk] ([kvsrv1/client.go]): the retry loops of [Get] and [Put] over a
      network that drops requests and replies.  C9: a put takes effect at most
      once and its answer tells whether it did.
    - [Linearizability] (with [kvtest1/porcupine.go]): many clerks and the
      server as a transition system over any [VStore].  C2: every history is
      accepted by the model in some order that respects real time.
    - [ClerkProg]: programs that call a clerk, and any number of clients that
      run such programs in loops; [ClerkInv] collects what has to be shown of a
      client's program for an invariant of the whole system.
    - [KVLock] ([kvsrv1/lock/lock.go]): [Acquire] and [Release] as such
      programs.  C5: mutual exclusion; C33: a free lock can be obtained from
      every reachable state.

    The store over the simulated network:
    - [KVNet] (with the goroutine and [Cleanup] of [labrpc/labrpc.go]): clients
      whose clerk calls go through [ClientEnd.Call], the network goroutine,
      [processReq] and the dispatch of the server's methods, and back.
      [Clients] is what is needed of a client; an abstract transport drops,
      delays and loses.  [KVNetApps]: C3, the network refines the transport for
      all clients, so what was proved of clerks, locks and tests holds over it:
      C4 linearizability, C6 the lock.  [KVNetTests]: the tests below over the
      network, with the test's goroutine, its channels, the clients, the
      network and the server as one system; C15: the append test passes.
      [KVLate]: C36, the condition of C4 that puts use versions the server has
      reached is needed.

    The tests of the store:
    - [KVTest] and [KVTestPuts] ([kvtest1/kvtest.go]): the clients that append
      to and put to shared keys and the checks of what they leave.  C16: a
      correct store passes the put tests under every schedule.
    - [KVSpawn] (the same file): [SpawnClientsAndWait] and [runClient] with
      their channels, for clients of any kind ([Runner], with the laws
      [RunnerLaws]).  C18: it returns the clients' results and does not get
      stuck.
    - [KVLog] ([kvtest1/porcupine.go]): the log of operations with their times
      and [checkPorcupine].  C17: the histories of C2 pass.
    - [KVSetup] ([kvtest1/kvtest.go], [kvsrv1/test.go]): making tests, clients
      and clerks.
    - [Annotation] ([tester1/annotation.go]): the record of what happened in a
      test.  C40: the fault intervals with a description show at every moment
      exactly the fault then in force; the blank ones are told apart.

    The replicated and the sharded store (labs 4 and 5):
    - [RSM] ([kvraft1/rsm]): the interface of a replicated state machine, the
      tester's counter as an instance, its servers and loops.
    - [KVRaft] ([kvraft1]): the placeholders of server and clerk and the set-up
      of the tests, whose clerks reach exactly the servers asked for.
    - [ShardCfg] ([shardkv1/shardcfg/shardcfg.go]): configurations, [Join],
      [Leave], [Rebalance], their JSON and the checker [CheckConfig].  C10: the
      rebalancing loop ends and balances; C34: the checker accepts the results
      of [JoinBalance] and [LeaveBalance]; C35: how few shards move.
    - [ShardTest] ([shardkv1/test.go], [shardctrler]): groups that join and
      leave through a controller, [Ctrler] with the laws [CtrlerSpec]; the
      placeholder and a controller that keeps the configuration in a key/value
      server are instances.  C11: a whole session of joins and leaves ends with
      exactly the right groups running and configured.
    - [ShardCtl]: what the comments of [shardctrler.go] ask of a controller
      whose calls are interleaved with those of others: the class [Stepped]
      with the laws [SteppedSpec]; a controller that keeps two configurations
      in a key/value server is an instance.
    - [ShardConcur], [ShardPartition], [ShardShutdown] (the concurrent parts of
      [shardkv1/test.go], the first two over any such controller).  C12:
      controllers that run at the same time keep the configuration right and
      shut down no group that is in use; C19: what the test concludes from a
      controller that is cut off, and when it blames a correct one.
      [ShardShutdown]: when the check of a group that is down passes.
    - [ShardKV] ([shardkv1]): the placeholders of the shard groups and clerks.

    Raft (lab 3A):
    - [Raft] ([raft1/raft.go]): the state, the RPC handlers, timers and the
      bodies of the goroutines.  [RaftCluster]: the peers, their tickers, the
      goroutines and messages in flight as a transition system, with the
      invariants of timers and votes.  [RaftElection]: election safety outside
      three unguarded situations (C7) and that each of them breaks it (C30).
      [RaftProgress]: from every reachable state each peer of a larger cluster
      can be elected, and a peer alone never (C29).
    - [RaftTest] and [RaftChecks] ([raft1/server.go], [raft1/test.go]): the
      tester of Raft.  C26: the logs its apply loops accept agree; C27: a Raft
      that conforms to one log is never rejected, with and without snapshots;
      C28: the elections of [RaftElection] pass the leader check.
      [RaftSetup]: making, restarting and cleaning up.  C24: a restarted server
      has its persisted state back, in snapshot tests the log and the applied
      index of its snapshot, is a new object, and everybody is connected.

    MapReduce (lab 1):
    - [MapReduce] ([mr/worker.go], [main/mrsequential.go]): pairs, hashing,
      grouping, the sequential program; [MRWorker]: the map and reduce tasks as
      programs over files, run by any number of workers that may crash;
      [MRApps] ([mrapps/wc.go], [mrapps/indexer.go]): JSON streams, the
      applications, and the properties of jobs: a job can complete, word counts;
      C39: a file under its final name is complete, whoever crashed.
      [MRRoundtrip]: C37, the pairs that the map tasks encode into the bucket
      files are, in order, those the reduce tasks decode from them.
    - [Coordinator] ([mr/coordinator.go]): phases, the task channel, the monitor
      and the RPC handlers with their locks.  C31: no task is lost; C32: runs
      in which the coordinator finishes without its reduce tasks, panics on a
      nil task, and deadlocks.
    - [MRSystem] (the loop of [Worker] in [mr/worker.go]): workers, coordinator
      and files as one system.  C13: it refines the jobs of [MRWorker], so what
      holds of those holds of it.
    - [MRMain] ([main/mrcoordinator.go], [main/mrworker.go],
      [main/mrsequential.go], [mr/rpc.go]): command lines, loading a plugin,
      the sockets and the loop of the coordinator's process.  C8: when it has
      come back from [MakeCoordinator] and no map task was reported twice, the
      output is that of the sequential program on the same command line, for
      input files that exist and are not called [mr-...], a directory without
      such files, pairs that survive JSON and a reduce function that does not
      depend on the order of its values.
    - [MRTestApps] (the other [mrapps]): applications that crash, wait or count.
      C20: the crash test passes: the job with [crash.go] gives the lines of
      [mrsequential] with [nocrash.go]; what the job counter and the
      parallelism test measure.

    The test framework:
    - [Labgob] ([labgob/labgob.go]): the checks on types and variables around
      [encoding/gob], and the package's functions, which share one count of
      complaints.  C38: every type reachable from a value is checked, once, every
      complaint is counted in 64 bits, and when the check of a variable panics
      on an unexported field.
    - [Labrpc] ([labrpc/labrpc.go]): the simulated network.  C14: a handler runs
      at most once for a request and the reply is its.  [RpcCall]: typed calls,
      from [ClientEnd.Call] through the network to a method and back.
    - [Random] ([tester1/config.go]): random strings, and when two are equal.
    - [TesterGroup] ([tester1/group.go], [srv.go], [persister.go]): groups of
      servers, partitions, restarts.  C25: partitions; C23: a restarted server
      does not see writes of the old instance.
    - [TesterClnts] ([tester1/clnts.go]): the clients' ends, and which servers
      each operation leaves a client able to reach.
    - [TesterConfig] ([tester1/config.go], the table of [group.go]): the
      configuration that groups and clients share, and which ends belong to
      whom.  [TesterSystem]: all operations of a test.  C21: components do not
      interfere; C22: the configuration stays well-formed and can be cleaned
      up within the two minutes a test may take, which kills the services in
      the tables of its groups; after two minutes [Cleanup] stops the test.

    Other programs:
    - [Programs] ([main/diskvd.go], [lockc.go], [lockd.go], [pbc.go], [pbd.go],
      [viewd.go]): what they make of their arguments; their services are not in
      the repository.  The options of [diskvd] round-trip, and it starts only
      servers in range.

    ** Interfaces

    The clerk, the lock, the test clients and the linearizability proof use the
    key/value server through [VStore]; the clients' programs meet the
    obligations of [ClerkInv], and clients of the network are instances of
    [Clients], with the encoding of arguments and replies in [WireCodec].  The
    MapReduce theorems use sorting, JSON and reduce functions through [Sorter],
    [Json] and [OrderFree]; the Raft tester uses the snapshot encoding through
    [SnapCodec], the store's tests JSON through [Marshal], configurations
    through [ConfigJson], typed calls the encoding through [Codec], labgob's
    decoder gob through [Gob].  A replicated service is a [StateMachine], a
    shard controller a [Ctrler], controllers that run at the same time are
    [Stepped], what [SpawnClientsAndWait] starts a [Runner].
    The MapReduce programs find their functions through [Plugins].
    [TesterGroup] and [TesterClnts] run on the network of [Labrpc], [TesterConfig] on both, [ShardTest], [KVSetup] and
    [RaftSetup] on [TesterConfig], [RaftChecks] reads clusters of
    [RaftCluster], and [MRSystem] joins [Coordinator] with [MRWorker].

    ** Bounds and fuel

    [ShardCfg.balance] has fuel [S (NShards * NShards)]: each turn lowers the
    sum of squared loads, which is at most that; C10 proves that the loop returns.
    [MRWorker.decode_loop] has the length of the input plus one, as each
    decoded value consumes a character.  [Labgob.checkType] recurses at most
    once for each type; C38 shows that fuel beyond their number is enough.
    [RSM.onePartition] takes the number of rounds its ten seconds allow.  Other
    recursion is structural, and runs are finite lists of labels of any length.
    Lemmas on runs that count versions, terms, entries or list lengths assume
    the counters below 2^62, 2^63 or 2^64 where the code would wrap.

    ** Not modelled

    The porcupine checker, [encoding/gob], [encoding/json] and Go's [plugin]
    are libraries and parameters, and so are the services [diskv],
    [lockservice], [pbservice] and [viewservice], which are not in the
    repository.  Left out: debug printing ([DPrintf]), the creation of gob's
    encoders and decoders, the sleeps and disconnections by which
    [partitionCtrler] chooses the moment at which it cuts a controller off
    (here any moment), and accessors that only pass a call on.  The bodies of
    [kvraft1], of the shard groups and of the shard controller are placeholders
    in the repository and are modelled as such; where the tests of the shard
    controller need more, it is a parameter with laws.  Requests of a
    controller that was cut off which are performed later are left out.
    Raft's log is modelled as far
    as the code goes: [Start] is a placeholder, [AppendEntries] is the
    heartbeat, persistence is empty. *)

From stdpp Require Export base functions gmap strings list sorting numbers option pretty relations.
From Stdlib Require Export ZArith Lia.

#[global] Set Default Goal Selector "!".

(** ** Outcomes of Go code

    A Go function either returns or stops the process: [panic], a run-time
    error such as an index out of range or a nil dereference, and
    [log.Fatalf] all end the run.  [Abort] carries the message. *)
Inductive GoRes (A : Type) : Type :=
| Ret (a : A)
| Abort (msg : string).
Arguments Ret {A} a.
Arguments Abort {A} msg.

Definition go_bind {A B : Type} (m : GoRes A) (k : A → GoRes B) : GoRes B :=
  match m with
  | Ret a => k a
  | Abort msg => Abort msg
  end.

Declare Scope go_scope.
Delimit Scope go_scope with go.
Notation "'let*' x ':=' m 'in' k" := (go_bind m (fun x => k))
  (at level 10, x pattern, m at level 100, k at level 200) : go_scope.

Definition returns {A : Type} (m : GoRes A) : Prop := ∃ a, m = Ret a.

#[export] Instance GoRes_eq_dec {A : Type} `{EqDecision A} : EqDecision (GoRes A).
Proof. solve_decision. Defined.

(** A nil-dereference or out-of-range access: the run-time panic. *)
Definition deref {A : Type} (o : option A) (msg : string) : GoRes A :=
  match o with
  | Some a => Ret a
  | None => Abort msg
  end.

Lemma go_bind_Ret_inv {A B : Type} (m : GoRes A) (k : A → GoRes B) b :
  go_bind m k = Ret b → ∃ a, m = Ret a ∧ k a = Ret b.
Proof. destruct m; simpl; [eauto | discriminate]. Qed.

Lemma deref_Ret_inv {A : Type} (o : option A) msg a :
  deref o msg = Ret a → o = Some a.
Proof. destruct o; simpl; congruence. Qed.

(** ** Machine integers *)

Definition two32 : Z := 4294967296.
Definition two63 : Z := 9223372036854775808.
Definition two64 : Z := 18446744073709551616.

(** [uint32] and [uint64] arithmetic wraps modulo the width. *)
Definition u32 (z : Z) : Z := z `mod` two32.
Definition u64 (z : Z) : Z := z `mod` two64.

(** [int] is 64 bits wide and signed: the representative in [-2^63, 2^63). *)
Definition int64 (z : Z) : Z := (z + two63) `mod` two64 - two63.

Lemma u64_small z : (0 ≤ z < two64)%Z → u64 z = z.
Proof. intros. unfold u64. by rewrite Z.mod_small. Qed.

Lemma u64_range z : (0 ≤ u64 z < two64)%Z.
Proof. unfold u64. apply Z.mod_pos_bound. unfold two64. lia. Qed.

Lemma u32_range z : (0 ≤ u32 z < two32)%Z.
Proof. unfold u32. apply Z.mod_pos_bound. unfold two32. lia. Qed.

Lemma u64_add_idemp a b : u64 (u64 a + b) = u64 (a + b).
Proof. unfold u64. by rewrite Zplus_mod_idemp_l. Qed.

Lemma int64_small z : (- two63 ≤ z < two63)%Z → int64 z = z.
Proof.
  intros. unfold int64. rewrite Z.mod_small; [lia |].
  unfold two63, two64 in *. lia.
Qed.

Lemma int64_range z : (- two63 ≤ int64 z < two63)%Z.
Proof.
  unfold int64. pose proof (Z.mod_pos_bound (z + two63) two64).
  unfold two63, two64 in *. lia.
Qed.

Lemma int64_idemp z : int64 (int64 z) = int64 z.
Proof. apply int64_small, int64_range. Qed.

Lemma int64_add_l a b : int64 (int64 a + b)%Z = int64 (a + b)%Z.
Proof.
  unfold int64. f_equal. replace ((a + two63) `mod` two64 - two63 + b + two63)%Z with ((a + two63) `mod` two64 + b)%Z by lia.
  rewrite Zplus_mod_idemp_l. f_equal. lia.
Qed.

(** ** Go maps: reading an absent key gives the zero value *)

Definition map_int {K : Type} `{Countable K} (m : gmap K Z) (k : K) : Z :=
  default 0%Z (m !! k).

(** ** FNV-1a, 32 bits ([hash/fnv]'s [New32a], [Write], [Sum32]) *)

Definition fnv_offset32 : Z := 2166136261.
Definition fnv_prime32 : Z := 16777619.

Definition fnv1a_step (h : Z) (b : Z) : Z := u32 (Z.lxor h b * fnv_prime32).

Definition bytes_of_string (s : string) : list Z :=
  (λ c, Z.of_nat (Ascii.nat_of_ascii c)) <$> String.list_ascii_of_string s.

Definition fnv32a (s : string) : Z :=
  foldl fnv1a_step fnv_offset32 (bytes_of_string s).

Lemma fnv32a_range s : (0 ≤ fnv32a s < two32)%Z.
Proof.
  unfold fnv32a. generalize (bytes_of_string s) as l. intros l.
  assert (0 ≤ fnv_offset32 < two32)%Z as Hh by (unfold fnv_offset32, two32; lia).
  revert Hh. generalize fnv_offset32 as h.
  induction l as [|b l IH]; intros h Hh; simpl; [done |].
  apply IH. apply u32_range.
Qed.

(** ** Strings: [strconv.Itoa] and the bytewise order *)

Definition Itoa (z : Z) : string := pretty z.

#[export] Instance Itoa_inj : Inj (=) (=) Itoa.
Proof. intros a b. apply (inj pretty). Qed.

Lemma string_app_cons c (s1 s2 : string) : String c s1 +:+ s2 = String c (s1 +:+ s2).
Proof. reflexivity. Qed.

Lemma string_app_nil_r (s : string) : s +:+ "" = s.
Proof. induction s as [|c s IH]; [done |]. by rewrite string_app_cons, IH. Qed.

Lemma string_app_assoc (s1 s2 s3 : string) : s1 +:+ (s2 +:+ s3) = (s1 +:+ s2) +:+ s3.
Proof. induction s1 as [|c s1 IH]; [done |]. by rewrite !string_app_cons, IH. Qed.

Lemma string_length_app (s1 s2 : string) : String.length (s1 +:+ s2) = String.length s1 + String.length s2.
Proof. induction s1 as [|c s1 IH]; [done |]. rewrite string_app_cons. simpl. by rewrite IH. Qed.

(** *** Decimal digits *)

Fixpoint digits (s : string) : Prop :=
  match s with
  | EmptyString => True
  | String c s => (48 ≤ Ascii.nat_of_ascii c ≤ 57)%nat ∧ digits s
  end.

Lemma pretty_N_char_digit x : (x < 10)%N → (48 ≤ Ascii.nat_of_ascii (pretty_N_char x) ≤ 57)%nat.
Proof.
  intros Hx. assert (x = 0 ∨ x = 1 ∨ x = 2 ∨ x = 3 ∨ x = 4 ∨ x = 5 ∨ x = 6 ∨ x = 7 ∨ x = 8 ∨ x = 9)%N as Hc by lia.
  destruct_or! Hc; subst; vm_compute; lia.
Qed.

Lemma pretty_N_go_digits x s : digits s → digits (pretty_N_go x s).
Proof.
  revert s. induction (N.lt_wf_0 x) as [x _ IH]; intros s Hs.
  destruct (decide (x = 0)%N) as [->|Hx]; [by rewrite pretty_N_go_0 |].
  rewrite pretty_N_go_step by lia. apply IH; [apply N.div_lt; lia |].
  simpl. split; [| done]. apply pretty_N_char_digit. apply N.mod_lt. lia.
Qed.

Lemma Itoa_digits z : (0 ≤ z)%Z → digits (Itoa z).
Proof.
  intros Hz. unfold Itoa. destruct z as [|p|p]; [vm_compute; auto with lia | | lia].
  change (pretty (Z.pos p)) with (pretty (N.pos p)).
  unfold pretty, pretty_N. rewrite decide_False by done. by apply pretty_N_go_digits.
Qed.

(** The value of a decimal digit. *)
Definition digit (a : Ascii.ascii) : option Z :=
  let n := Ascii.nat_of_ascii a in if decide (48 ≤ n ≤ 57)%nat then Some (Z.of_nat n - 48)%Z else None.

Lemma digit_pretty x : (x < 10)%N → digit (pretty_N_char x) = Some (Z.of_N x).
Proof.
  intros Hx. assert (x = 0 ∨ x = 1 ∨ x = 2 ∨ x = 3 ∨ x = 4 ∨ x = 5 ∨ x = 6 ∨ x = 7 ∨ x = 8 ∨ x = 9)%N as Hc by lia.
  destruct_or! Hc; subst; reflexivity.
Qed.

(** Splitting at the first dash. *)
Lemma digits_dash a b a' b' :
  digits a → digits a' → a +:+ "-" +:+ b = a' +:+ "-" +:+ b' → a = a' ∧ b = b'.
Proof.
  revert a'. induction a as [|c a IH]; intros [|c' a'] Ha Ha' E; simpl in *; simplify_eq.
  - done.
  - destruct Ha' as [Hc _]. vm_compute in Hc. lia.
  - destruct Ha as [Hc _]. vm_compute in Hc. lia.
  - destruct Ha as [_ Ha], Ha' as [_ Ha']. destruct (IH a') as [-> ->]; auto.
Qed.

(** Splitting at the last dash. *)
Lemma digits_no_dash a b : ¬ digits (a +:+ "-" +:+ b).
Proof. induction a as [|c a IH]; simpl; [intros [Hc _]; vm_compute in Hc; lia | by intros [_ ?]]. Qed.

Lemma dash_digits a b a' b' :
  digits b → digits b' → a +:+ "-" +:+ b = a' +:+ "-" +:+ b' → a = a' ∧ b = b'.
Proof.
  intros Hb Hb'. revert a'. induction a as [|c a IH]; intros [|c' a'] E; simpl in E; simplify_eq; [done | | |].
  - exfalso. apply (digits_no_dash a' b'). by match goal with H : _ = a' +:+ _ |- _ => rewrite <- H end.
  - exfalso. apply (digits_no_dash a b). by match goal with H : a +:+ _ = _ |- _ => rewrite H end.
  - by destruct (IH a') as [-> ->].
Qed.

(** *** A string for every number: its bits *)

Fixpoint bits (p : positive) : string :=
  match p with
  | xH => ""
  | xO p => String Ascii.zero (bits p)
  | xI p => String Ascii.one (bits p)
  end.

Fixpoint unbits (s : string) : positive :=
  match s with
  | EmptyString => xH
  | String a s => if bool_decide (a = Ascii.zero) then xO (unbits s) else xI (unbits s)
  end.

Lemma unbits_bits p : unbits (bits p) = p.
Proof. induction p as [p IH|p IH|]; simpl; by rewrite ?IH. Qed.

(** [strings.Join(l, "")] and writing the pieces one after the other. *)
Lemma string_concat_cons x (l : list string) : String.concat "" (x :: l) = x +:+ String.concat "" l.
Proof. destruct l; simpl; [by rewrite string_app_nil_r | done]. Qed.

(** ** List lemmas shared by the components *)

Section list_lemmas.
Context {A : Type}.
Implicit Types l : list A.

Lemma filter_disjoint_nil (P Q : A → Prop) `{!∀ x, Decision (P x)} `{!∀ x, Decision (Q x)} l :
  (∀ x, P x → ¬ Q x) → filter P (filter Q l) = [].
Proof.
  intros HPQ. rewrite list_filter_filter. induction l as [|x l IH]; [done |].
  rewrite filter_cons_False; [done | naive_solver].
Qed.

Lemma filter_none (P : A → Prop) `{!∀ x, Decision (P x)} l :
  (∀ x, x ∈ l → ¬ P x) → filter P l = [].
Proof.
  induction l as [|x l IH]; intros Hl; [done |].
  rewrite filter_cons_False; [apply IH; set_solver | set_solver].
Qed.

Lemma filter_all (P : A → Prop) `{!∀ x, Decision (P x)} l :
  (∀ x, x ∈ l → P x) → filter P l = l.
Proof.
  induction l as [|x l IH]; intros Hl; [done |].
  rewrite filter_cons_True; [f_equal; apply IH; set_solver | set_solver].
Qed.

(** Exchanging two elements keeps the elements. *)
Lemma list_swap_perm l i j x y : l !! i = Some x → l !! j = Some y → <[j := x]> (<[i := y]> l) ≡ₚ l.
Proof.
  intros Hi Hj. apply Permutation_inj. rewrite !length_insert. split; [done |].
  exists (λ k, if decide (k = i) then j else if decide (k = j) then i else k). split.
  - intros a b. repeat case_decide; congruence.
  - intros k. pose proof (lookup_lt_Some _ _ _ Hi). pose proof (lookup_lt_Some _ _ _ Hj).
    repeat case_decide; subst; rewrite ?list_lookup_insert_eq by (rewrite ?length_insert; lia).
    + destruct (decide (i = j)) as [->|Hne]; [rewrite list_lookup_insert_eq by (rewrite length_insert; lia); congruence |].
      rewrite list_lookup_insert_ne, list_lookup_insert_eq by (done || lia). done.
    + done.
    + by rewrite !list_lookup_insert_ne by congruence.
Qed.

Lemma list_alter_insert (f : A → A) l i x :
  l !! i = Some x → alter f i l = <[i := f x]> l.
Proof.
  revert i. induction l as [|y l IH]; intros [|i] ?; simplify_eq/=; [done |].
  f_equal. by apply IH.
Qed.
(** Splitting a list by a classifier [f] whose values lie in [ks] loses
    nothing. *)
Lemma concat_classes {B : Type} `{EqDecision B} (f : A → B) (ks : list B) l :
  NoDup ks → (∀ x, x ∈ l → f x ∈ ks) →
  concat ((λ k, filter (λ x, f x = k) l) <$> ks) ≡ₚ l.
Proof.
  intros Hnd. revert l. induction Hnd as [|k ks Hk Hnd IH]; intros l Hin; simpl.
  - destruct l as [|x l]; [done |]. exfalso. eapply not_elem_of_nil, Hin. left.
  - transitivity (filter (λ x, f x = k) l ++ filter (λ x, f x ≠ k) l);
      [| apply filter_app_complement].
    apply Permutation_app_head.
    rewrite <- (IH (filter (λ x, f x ≠ k) l)).
    + apply reflexive_eq. f_equal. apply list_fmap_ext. intros i k' Hk'.
      rewrite list_filter_filter. apply list_filter_iff. intros x.
      apply list_elem_of_lookup_2 in Hk'. naive_solver.
    + intros x [Hne Hx]%list_elem_of_filter. apply Hin in Hx. set_solver.
Qed.

(** In a list of lists without repetitions an element has one place. *)
Lemma concat_lookup_inj (ls : list (list A)) i i' l l' j j' x :
  NoDup (concat ls) → ls !! i = Some l → ls !! i' = Some l' → l !! j = Some x → l' !! j' = Some x →
  i = i' ∧ j = j'.
Proof.
  revert i i'. induction ls as [|l0 ls IH]; intros i i' Hnd Hi Hi' Hj Hj'; [done |].
  simpl in Hnd. apply NoDup_app in Hnd as (Hnd0 & Hdis & Hnd).
  assert (∀ k m, ls !! k = Some m → x ∈ m → x ∈ concat ls) as Hin.
  { intros k m Hk Hm. rewrite list_elem_of_In, in_concat. exists m. rewrite <- !list_elem_of_In.
    split; [by eapply list_elem_of_lookup_2 | done]. }
  apply list_elem_of_lookup_2 in Hj as Hxl. apply list_elem_of_lookup_2 in Hj' as Hxl'.
  destruct i as [|i], i' as [|i']; simplify_eq/=.
  - split; [done |]. by apply (NoDup_lookup l j j' x).
  - by destruct (Hdis x Hxl (Hin _ _ Hi' Hxl')).
  - by destruct (Hdis x Hxl' (Hin _ _ Hi Hxl)).
  - destruct (IH i i' Hnd Hi Hi' Hj Hj'). by subst.
Qed.

End list_lemmas.

(** Sums of integers over a list. *)
Definition zsum {A : Type} (f : A → Z) (l : list A) : Z := foldr (λ x n, (f x + n)%Z) 0%Z l.

Lemma zsum_app {A : Type} (f : A → Z) l l' : zsum f (l ++ l') = (zsum f l + zsum f l')%Z.
Proof. induction l as [|x l IH]; simpl; [done | unfold zsum in *; simpl; lia]. Qed.

Lemma zsum_ext {A : Type} (f g : A → Z) l : (∀ x, x ∈ l → f x = g x) → zsum f l = zsum g l.
Proof.
  induction l as [|x l IH]; intros Hl; simpl; [done |].
  rewrite (Hl x), IH; [done | set_solver | set_solver].
Qed.

Lemma zsum_le {A : Type} (f g : A → Z) l : (∀ x, x ∈ l → (f x ≤ g x)%Z) → (zsum f l ≤ zsum g l)%Z.
Proof.
  induction l as [|x l IH]; intros Hl; simpl; [done |].
  specialize (IH ltac:(set_solver)). specialize (Hl x ltac:(set_solver)). lia.
Qed.

Lemma zsum_elem {A : Type} (f : A → Z) l x :
  (∀ y, y ∈ l → (0 ≤ f y)%Z) → x ∈ l → (f x ≤ zsum f l)%Z.
Proof.
  intros H0 Hx. induction l as [|y l IH]; [by apply not_elem_of_nil in Hx |]. simpl.
  assert (0 ≤ zsum f l)%Z as Hl.
  { transitivity (zsum (λ _, 0%Z) l); [| apply zsum_le; set_solver]. clear. induction l; simpl; lia. }
  apply elem_of_cons in Hx as [->|Hx]; [lia |].
  specialize (IH ltac:(set_solver) Hx). specialize (H0 y ltac:(set_solver)). lia.
Qed.

(** Changing the value at one element of the list. *)
Lemma zsum_update {A : Type} (f g : A → Z) l x :
  NoDup l → x ∈ l → (∀ y, y ∈ l → y ≠ x → g y = f y) → (zsum g l = zsum f l + (g x - f x))%Z.
Proof.
  induction 1 as [|y l Hy Hl IH]; intros Hx Hg; [by apply not_elem_of_nil in Hx |]. simpl.
  apply elem_of_cons in Hx as [->|Hx].
  - rewrite (zsum_ext g f l); [lia |]. set_solver.
  - rewrite IH; [| done | intros z ? ?; apply Hg; [by right | done]].
    rewrite (Hg y); [lia | by left | by intros ->].
Qed.

#[export] Instance zsum_Permutation {A : Type} (f : A → Z) : Proper ((≡ₚ) ==> (=)) (zsum f).
Proof. intros l l' Hl. induction Hl; simpl; lia. Qed.

Lemma zsum_fmap {A B : Type} (h : A → B) (f : B → Z) l : zsum f (h <$> l) = zsum (f ∘ h) l.
Proof.
  induction l as [|x l IH]; [done |]. rewrite fmap_cons.
  change (zsum f (h x :: (h <$> l))) with (f (h x) + zsum f (h <$> l))%Z. by rewrite IH.
Qed.

Lemma zsum_lookup {A : Type} (f : A → Z) l :
  zsum (λ i, from_option f 0%Z (l !! i)) (seq 0 (length l)) = zsum f l.
Proof.
  induction l as [|x l IH]; [done |].
  change (zsum f (x :: l)) with (f x + zsum f l)%Z. rewrite <- IH. simpl length.
  rewrite <- cons_seq, <- fmap_S_seq. simpl. f_equal. apply (zsum_fmap S).
Qed.

(** Function update (a store of per-client or per-server states). *)
Lemma fn_insert_id {A B : Type} `{EqDecision A} (f : A → B) a b : <[a := f a]> f b = f b.
Proof.
  destruct (decide (a = b)) as [->|?]; [apply fn_lookup_insert | by apply fn_lookup_insert_ne].
Qed.

(** ** Automation

    [go_cases] splits on every [match] and decision the goal or a hypothesis
    is stuck on; [labs] is the hint database of the components' invariants
    and simple rewriting facts. *)
Create HintDb labs.
Create Rewrite HintDb labs.
#[export] Hint Resolve u64_range u32_range int64_range fnv32a_range : labs.
#[export] Hint Rewrite @u64_add_idemp : labs.

Ltac go_cases :=
  repeat (case_match || case_decide || case_bool_decide); simplify_eq/=.

Ltac unwrap_go :=
  repeat match goal with
  | H : go_bind _ _ = Ret _ |- _ =>
      apply go_bind_Ret_inv in H; destruct H as (? & ? & ?)
  | H : deref _ _ = Ret _ |- _ => apply deref_Ret_inv in H
  end.
