(* ===== verification/KVServer.v ===== *)
(** * The single-server key/value service: [kvsrv1/rpc] and [kvsrv1/server.go]

    The RPC argument and reply types, the server state (two Go maps) and the
    two handlers [Get] and [Put], with the server's invariant, its refinement
    of an abstract versioned store, and the meaning of version numbers over
    any sequence of requests. *)

From S2P Require Import Prelude.
#[local] Open Scope Z_scope.

(** ** [kvsrv1/rpc/rpc.go] *)

(** [Err] is a Go string; the zero value of a reply has the empty string,
    here [ErrNone].  The other constructors are the constants of the file. *)
Inductive Err : Type :=
| ErrNone
| OK
| ErrNoKey
| ErrVersion
| ErrMaybe
| ErrWrongLeader
| ErrWrongGroup.

#[export] Instance Err_eq_dec : EqDecision Err.
Proof. solve_decision. Defined.

(** [type Tversion uint64]: an integer in [0, 2^64). *)
Abbreviation Tversion := Z (only parsing).

Record PutArgs := mkPutArgs { PutArgs_Key : string; PutArgs_Value : string; PutArgs_Version : Tversion }.
Record PutReply := mkPutReply { PutReply_Err : Err }.
Record GetArgs := mkGetArgs { GetArgs_Key : string }.
Record GetReply := mkGetReply { GetReply_Value : string; GetReply_Version : Tversion; GetReply_Err : Err }.

#[export] Instance PutArgs_eq_dec : EqDecision PutArgs.
Proof. solve_decision. Defined.
#[export] Instance GetReply_eq_dec : EqDecision GetReply.
Proof. solve_decision. Defined.
#[export] Instance PutReply_eq_dec : EqDecision PutReply.
Proof. solve_decision. Defined.

(** Zero values, what [rpc.GetReply{}] and [rpc.PutReply{}] build. *)
Definition GetReply_zero : GetReply := mkGetReply "" 0 ErrNone.
Definition PutReply_zero : PutReply := mkPutReply ErrNone.

Module KVServer.

(** ** [kvsrv1/server.go] *)

Record KVServer := mkKVServer {
  KV : gmap string string;
  VersionMap : gmap string Tversion
}.

Definition MakeKVServer : KVServer := mkKVServer ∅ ∅.

(** [StartKVServer] ignores its arguments and wraps the one service. *)
Definition StartKVServer : list KVServer := [MakeKVServer].

(** [Get(args, reply)]: the reply the handler was given, updated.  On an
    absent key only [Err] is assigned. *)
Definition Get (kv : KVServer) (args : GetArgs) (reply : GetReply) : GetReply :=
  match KV kv !! GetArgs_Key args with
  | None => mkGetReply (GetReply_Value reply) (GetReply_Version reply) ErrNoKey
  | Some value => mkGetReply value (map_int (VersionMap kv) (GetArgs_Key args)) OK
  end.

(** [Put(args, reply)]: the new server state and the reply. *)
Definition Put (kv : KVServer) (args : PutArgs) (reply : PutReply) : KVServer * PutReply :=
  let key := PutArgs_Key args in
  let value := PutArgs_Value args in
  let version := PutArgs_Version args in
  let install :=
    mkKVServer (<[key := value]> (KV kv)) (<[key := u64 (version + 1)]> (VersionMap kv)) in
  match VersionMap kv !! key with
  | None =>
      if decide (version = 0%Z) then (install, mkPutReply OK)
      else (kv, mkPutReply ErrNoKey)
  | Some server_version =>
      if decide (version = server_version) then (install, mkPutReply OK)
      else (kv, mkPutReply ErrVersion)
  end.

(** [Kill()] has an empty body. *)
Definition Kill (kv : KVServer) : KVServer := kv.

(** ** The server invariant

    Both maps have the same keys, and every version is a [uint64]. *)
Record wf (kv : KVServer) : Prop := mk_wf {
  wf_dom : dom (KV kv) = dom (VersionMap kv);
  wf_range : ∀ k v, VersionMap kv !! k = Some v → (0 ≤ v < two64)%Z
}.

(** ** The abstract store: each key holds a value and a version *)

Definition abs (kv : KVServer) : gmap string (string * Tversion) := map_zip (KV kv) (VersionMap kv).

Definition spec_get (s : gmap string (string * Tversion)) (k : string) : GetReply :=
  match s !! k with
  | None => mkGetReply "" 0 ErrNoKey
  | Some (v, n) => mkGetReply v n OK
  end.

Definition spec_put (s : gmap string (string * Tversion)) (k v : string) (n : Tversion) :
    gmap string (string * Tversion) * Err :=
  match s !! k with
  | None => if decide (n = 0%Z) then (<[k := (v, 1%Z)]> s, OK) else (s, ErrNoKey)
  | Some (_, m) => if decide (n = m) then (<[k := (v, u64 (m + 1))]> s, OK) else (s, ErrVersion)
  end.

(** ** Sequences of requests *)

Inductive Op : Type :=
| OpGet (a : GetArgs)
| OpPut (a : PutArgs).

Definition exec (kv : KVServer) (o : Op) : KVServer :=
  match o with
  | OpGet _ => kv
  | OpPut a => (Put kv a PutReply_zero).1
  end.

Definition run (kv : KVServer) (os : list Op) : KVServer := foldl exec kv os.

(** The number of Puts to [k] that the server accepts along a run. *)
Fixpoint accepted (kv : KVServer) (k : string) (os : list Op) : Z :=
  match os with
  | [] => 0
  | o :: os =>
      let n :=
        match o with
        | OpPut a =>
            if decide (PutArgs_Key a = k ∧ (Put kv a PutReply_zero).2 = mkPutReply OK)
            then 1%Z else 0%Z
        | OpGet _ => 0%Z
        end in
      (n + accepted (exec kv o) k os)%Z
  end.

(** ** Lemmas on the handlers *)

Lemma abs_lookup kv k v n :
  abs kv !! k = Some (v, n) ↔ KV kv !! k = Some v ∧ VersionMap kv !! k = Some n.
Proof. unfold abs. apply map_lookup_zip_Some. Qed.

Lemma abs_lookup_None kv k :
  wf kv → abs kv !! k = None ↔ VersionMap kv !! k = None.
Proof.
  intros [Hdom _]. unfold abs. rewrite map_lookup_zip_with_None.
  rewrite <- !not_elem_of_dom. rewrite Hdom. naive_solver.
Qed.

Lemma wf_lookup kv k n :
  wf kv → VersionMap kv !! k = Some n → ∃ v, KV kv !! k = Some v.
Proof.
  intros [Hdom _] Hn. apply elem_of_dom. rewrite Hdom. by apply elem_of_dom_2 in Hn.
Qed.

Lemma wf_KV_None kv k :
  wf kv → VersionMap kv !! k = None ↔ KV kv !! k = None.
Proof. intros [Hdom _]. by rewrite <- !not_elem_of_dom, Hdom. Qed.

Lemma MakeKVServer_wf : wf MakeKVServer.
Proof. split; simpl; [by rewrite !dom_empty_L | set_solver]. Qed.

Lemma install_wf kv k v n :
  wf kv → wf (mkKVServer (<[k := v]> (KV kv)) (<[k := u64 n]> (VersionMap kv))).
Proof.
  intros [Hdom Hr]. split; simpl.
  - by rewrite !dom_insert_L, Hdom.
  - intros k' v'. rewrite lookup_insert. case_decide; [intros; simplify_eq; apply u64_range | eauto].
Qed.

Lemma Put_wf kv a r : wf kv → wf (Put kv a r).1.
Proof. intros. unfold Put. go_cases; auto using install_wf. Qed.

#[export] Hint Resolve MakeKVServer_wf Put_wf install_wf : labs.

Lemma exec_wf kv o : wf kv → wf (exec kv o).
Proof. destruct o; simpl; auto with labs. Qed.

Lemma run_wf kv os : wf kv → wf (run kv os).
Proof. revert kv. induction os; simpl; eauto using exec_wf. Qed.

(** The handler's two outcomes: it installs the value with the next version,
    or it leaves the state alone. *)
Lemma Put_cases kv a r :
  let k := PutArgs_Key a in
  (Put kv a r = (mkKVServer (<[k := PutArgs_Value a]> (KV kv))
                   (<[k := u64 (PutArgs_Version a + 1)]> (VersionMap kv)), mkPutReply OK)
   ∧ map_int (VersionMap kv) k = PutArgs_Version a)
  ∨ ((Put kv a r).1 = kv ∧ (Put kv a r).2 ≠ mkPutReply OK).
Proof.
  unfold Put, map_int. simpl. go_cases; auto.
Qed.

Lemma Put_OK_iff kv a r :
  (Put kv a r).2 = mkPutReply OK ↔
  map_int (VersionMap kv) (PutArgs_Key a) = PutArgs_Version a.
Proof. unfold Put, map_int. go_cases; split; intros; simplify_eq/=; congruence. Qed.

Lemma Put_reply_irrel kv a r r' : Put kv a r = Put kv a r'.
Proof. reflexivity. Qed.

Lemma Put_version_other kv a r k :
  k ≠ PutArgs_Key a → VersionMap (Put kv a r).1 !! k = VersionMap kv !! k ∧ KV (Put kv a r).1 !! k = KV kv !! k.
Proof. intros. unfold Put. go_cases; by rewrite ?lookup_insert_ne. Qed.

Lemma Get_spec kv k : wf kv → Get kv (mkGetArgs k) GetReply_zero = spec_get (abs kv) k.
Proof.
  intros Hwf. unfold Get, spec_get. simpl.
  destruct (abs kv !! k) as [[v n]|] eqn:E.
  - apply abs_lookup in E as [-> Hn]. unfold map_int. by rewrite Hn.
  - apply abs_lookup_None in E; [| done]. apply wf_KV_None in E; [| done]. by rewrite E.
Qed.

Lemma abs_insert kv k v m :
  abs (mkKVServer (<[k := v]> (KV kv)) (<[k := m]> (VersionMap kv))) = <[k := (v, m)]> (abs kv).
Proof. unfold abs. symmetry. apply (map_insert_zip_with pair). Qed.

Lemma Put_spec kv k v n :
  wf kv →
  let r := Put kv (mkPutArgs k v n) PutReply_zero in
  (abs r.1, PutReply_Err r.2) = spec_put (abs kv) k v n.
Proof.
  intros Hwf. unfold Put, spec_put. simpl.
  destruct (VersionMap kv !! k) as [m|] eqn:E.
  - destruct (wf_lookup _ _ _ Hwf E) as [w Hw].
    rewrite (proj2 (abs_lookup kv k w m)) by done.
    case_decide; simplify_eq/=; [by rewrite abs_insert | done].
  - rewrite (proj2 (abs_lookup_None _ _ Hwf)) by done.
    case_decide; simplify_eq/=; [by rewrite abs_insert | done].
Qed.

(** ** Properties *)

(** C1: the server refines the abstract versioned store.  In a state that
    satisfies the invariant, [Get] into a fresh reply answers what the store
    holds, and [Put] changes the store and answers exactly as the abstract
    put does, on the accepting branch, on a version mismatch and on a
    missing key; the invariant is kept. *)
Theorem KVServer_refines_store (kv : KVServer) (Hwf : wf kv) :
  (∀ k, Get kv (mkGetArgs k) GetReply_zero = spec_get (abs kv) k) ∧
  (∀ k v n,
     let r := Put kv (mkPutArgs k v n) PutReply_zero in
     (abs r.1, PutReply_Err r.2) = spec_put (abs kv) k v n ∧ wf r.1).
Proof.
  split; [intros; by apply Get_spec |].
  intros k v n r. split; [by apply Put_spec | subst r; auto with labs].
Qed.

Lemma KVServer_refines_store_witness :
  let r := Put MakeKVServer (mkPutArgs "x" "a" 0) PutReply_zero in
  abs r.1 = {[ "x" := ("a", 1%Z) ]}.
Proof.
  pose proof (KVServer_refines_store MakeKVServer MakeKVServer_wf) as [_ H].
  specialize (H "x" "a" 0%Z) as [H _].
  simpl in *. exact (f_equal fst H).
Defined.

(** Version numbers count accepted Puts.  From a fresh server, after any
    sequence of requests, the version recorded for a key is the number of
    Puts to it that were answered [OK], modulo [2^64] (0 for an absent key,
    which is what an accepted first Put must present). *)
Theorem version_counts_accepted_puts (os : list Op) (k : string) :
  map_int (VersionMap (run MakeKVServer os)) k = u64 (accepted MakeKVServer k os).
Proof.
  assert (∀ kv, wf kv → map_int (VersionMap (run kv os)) k =
            u64 (map_int (VersionMap kv) k + accepted kv k os)) as H.
  { induction os as [|o os IH]; intros kv Hwf; simpl.
    - rewrite Z.add_0_r. symmetry. apply u64_small. unfold map_int.
      destruct (VersionMap kv !! k) eqn:E; simpl; [by eapply wf_range | unfold two64; lia].
    - rewrite IH; [| by apply exec_wf]. destruct o as [a|a]; simpl; [done |].
      destruct (Put_cases kv a PutReply_zero) as [[Heq Hv]|[Heq Hr]].
      + rewrite Heq. simpl. case_decide as Hd.
        * destruct Hd as [<- _]. unfold map_int at 1. rewrite lookup_insert_eq. simpl.
          rewrite Hv. rewrite u64_add_idemp. f_equal. lia.
        * unfold map_int at 1. rewrite lookup_insert_ne by naive_solver.
          by fold (map_int (VersionMap kv) k).
      + rewrite Heq. by rewrite decide_False by naive_solver. }
  rewrite H by apply MakeKVServer_wf. done.
Qed.

End KVServer.

(** ** What a versioned store promises its clients

    The clerk, the lock and the linearizability proof use a server only
    through this interface: handlers [Get] and [Put], an invariant, and the
    abstract store the handlers refine. *)
Class VStore (S : Type) := {
  vs_ok : S → Prop;
  vs_Get : S → GetArgs → GetReply → GetReply;
  vs_Put : S → PutArgs → PutReply → S * PutReply;
  vs_abs : S → gmap string (string * Tversion);
  vs_Get_spec : ∀ s k, vs_ok s →
    vs_Get s (mkGetArgs k) GetReply_zero = KVServer.spec_get (vs_abs s) k;
  vs_Put_spec : ∀ s k v n, vs_ok s →
    let r := vs_Put s (mkPutArgs k v n) PutReply_zero in
    (vs_abs r.1, PutReply_Err r.2) = KVServer.spec_put (vs_abs s) k v n;
  vs_Put_ok : ∀ s a, vs_ok s → vs_ok (vs_Put s a PutReply_zero).1
}.

#[export] Instance KVServer_VStore : VStore KVServer.KVServer := {|
  vs_ok := KVServer.wf;
  vs_Get := KVServer.Get;
  vs_Put := KVServer.Put;
  vs_abs := KVServer.abs;
  vs_Get_spec := KVServer.Get_spec;
  vs_Put_spec := KVServer.Put_spec;
  vs_Put_ok s a := KVServer.Put_wf s a PutReply_zero
|}.

(** The version a store holds for a key, 0 when the key is absent. *)
Definition ver_of (m : gmap string (string * Tversion)) (k : string) : Tversion :=
  match m !! k with Some (_, n) => n | None => 0 end.

(** The value, the empty string when the key is absent. *)
Definition val_of (m : gmap string (string * Tversion)) (k : string) : string :=
  match m !! k with Some (v, _) => v | None => "" end.

Section vstore.
Context {S : Type} `{VStore S}.
Implicit Types s : S.

(** The three ways a Put ends, in terms of the abstract store. *)
Lemma vs_Put_cases s k v n :
  vs_ok s →
  let r := vs_Put s (mkPutArgs k v n) PutReply_zero in
  vs_ok r.1 ∧
  ((ver_of (vs_abs s) k = n ∧ PutReply_Err r.2 = OK ∧
      vs_abs r.1 = <[k := (v, u64 (n + 1))]> (vs_abs s))
   ∨ (ver_of (vs_abs s) k ≠ n ∧ vs_abs r.1 = vs_abs s ∧
      PutReply_Err r.2 = match vs_abs s !! k with Some _ => ErrVersion | None => ErrNoKey end)).
Proof.
  intros Hok r. split; [by apply vs_Put_ok |].
  pose proof (vs_Put_spec s k v n Hok) as Hsp. fold r in Hsp. cbv zeta in Hsp.
  unfold KVServer.spec_put, ver_of in *.
  destruct (vs_abs s !! k) as [[w m]|]; case_decide; simplify_eq; auto.
Qed.

End vstore.
