(* ===== verification/KvModel.v ===== *)
(** * The sequential specification the tests check against: [models1/kv.go]

    [KvModel] is the model handed to the porcupine linearizability checker:
    [Init], [Step] and [Partition].  Its [Step] is related to the handlers of
    [KVServer], and [Partition] is shown to split a history by key. *)

From S2P Require Import Prelude KVServer.
#[local] Open Scope Z_scope.

(** The constants of [rpc.go] as the strings they are. *)
Definition err_string (e : Err) : string :=
  match e with
  | ErrNone => ""
  | OK => "OK"
  | ErrNoKey => "ErrNoKey"
  | ErrVersion => "ErrVersion"
  | ErrMaybe => "ErrMaybe"
  | ErrWrongLeader => "ErrWrongLeader"
  | ErrWrongGroup => "ErrWrongGroup"
  end.

#[export] Instance err_string_inj : Inj (=) (=) err_string.
Proof. intros [] []; simpl; intros; congruence. Qed.

Module KvModel.

(** [Op] is a [uint8]: 0 is get, 1 is put. *)
Record KvInput := mkKvInput {
  Input_Op : Z; Input_Key : string; Input_Value : string; Input_Version : Z
}.

Record KvOutput := mkKvOutput {
  Output_Value : string; Output_Version : Z; Output_Err : string
}.

Record KvState := mkKvState { State_Value : string; State_Version : Z }.

(** The checker passes states as [interface{}]: a [KvState], or the string
    that [Step] returns on an unknown operation code. *)
Inductive AnyState : Type :=
| IsState (st : KvState)
| IsString (s : string).

Definition Init : AnyState := IsState (mkKvState "" 0).

(** [state.(KvState)] panics on a value of another type. *)
Definition Step (state : AnyState) (inp : KvInput) (out : KvOutput) : GoRes (bool * AnyState) :=
  match state with
  | IsString _ => Abort "interface conversion"
  | IsState st =>
      if decide (Input_Op inp = 0) then
        Ret (bool_decide (Output_Value out = State_Value st), state)
      else if decide (Input_Op inp = 1) then
        if decide (State_Version st = Input_Version inp) then
          Ret (bool_decide (Output_Err out = "OK") || bool_decide (Output_Err out = "ErrMaybe"),
               IsState (mkKvState (Input_Value inp) (u64 (State_Version st + 1))))
        else
          Ret (bool_decide (Output_Err out = "ErrVersion") || bool_decide (Output_Err out = "ErrMaybe"),
               IsState st)
      else Ret (false, IsString "<invalid>")
  end.

#[global] Arguments Step : simpl never.

(** An operation of a history (the fields of [porcupine.Operation] that the
    model reads, and the client it belongs to). *)
Record Operation := mkOperation {
  ClientId : nat; Input : KvInput; Output : KvOutput
}.

Definition op_key (o : Operation) : string := Input_Key (Input o).

(** The first loop of [Partition]: [m[key] = append(m[key], v)]. *)
Definition group_by_key (history : list Operation) : gmap string (list Operation) :=
  foldl (λ m v, <[op_key v := default [] (m !! op_key v) ++ [v]]> m) ∅ history.

(** [Partition]: the keys of [m], sorted, and the lists they map to.  The
    order in which Go ranges over [m] does not matter since it is sorted. *)
Definition Partition (history : list Operation) : list (list Operation) :=
  let m := group_by_key history in
  let keys := merge_sort String.le (map_to_list m).*1 in
  (λ k, default [] (m !! k)) <$> keys.

(** The checker accepts a sequential history of one key when every [Step]
    from [Init] answers true. *)
Fixpoint accepts_from (st : AnyState) (ops : list Operation) : bool :=
  match ops with
  | [] => true
  | o :: ops =>
      match Step st (Input o) (Output o) with
      | Ret (true, st') => accepts_from st' ops
      | _ => false
      end
  end.

(** A sequential history is legal when each part of its partition is. *)
Definition legal (ops : list Operation) : Prop :=
  Forall (λ part, accepts_from Init part = true) (Partition ops).

(** [DescribeOperation]: text for the visualisation; [%d] prints a decimal. *)
Definition DescribeOperation (inp : KvInput) (out : KvOutput) : string :=
  if decide (Input_Op inp = 0) then
    "get('" +:+ Input_Key inp +:+ "') -> ('" +:+ Output_Value out +:+ "', '" +:+
      Itoa (Output_Version out) +:+ "', '" +:+ Output_Err out +:+ "')"
  else if decide (Input_Op inp = 1) then
    "put('" +:+ Input_Key inp +:+ "', '" +:+ Input_Value inp +:+ "', '" +:+
      Itoa (Input_Version inp) +:+ "') -> ('" +:+ Output_Err out +:+ "')"
  else "<invalid>".

(** ** The partition *)

Abbreviation of_key k := (filter (λ o, op_key o = k)).

Lemma group_by_key_lookup history k :
  group_by_key history !! k =
    match of_key k history with [] => None | l => Some l end.
Proof.
  unfold group_by_key.
  induction history as [|o h IH] using rev_ind; [done |].
  rewrite foldl_app, filter_app. simpl.
  destruct (decide (op_key o = k)) as [<-|Hne].
  - rewrite lookup_insert_eq, IH, filter_cons_True, filter_nil by done.
    by destruct (of_key (op_key o) h).
  - rewrite lookup_insert_ne by done. rewrite IH, filter_cons_False, filter_nil by done.
    by rewrite app_nil_r.
Qed.

Lemma group_by_key_default history k :
  default [] (group_by_key history !! k) = of_key k history.
Proof. rewrite group_by_key_lookup. by destruct (of_key k history). Qed.

Definition partition_keys (history : list Operation) : list string :=
  merge_sort String.le (map_to_list (group_by_key history)).*1.

Lemma partition_keys_NoDup history : NoDup (partition_keys history).
Proof.
  unfold partition_keys. rewrite merge_sort_Permutation. apply NoDup_fst_map_to_list.
Qed.

Lemma elem_of_partition_keys history k :
  k ∈ partition_keys history ↔ ∃ o, o ∈ history ∧ op_key o = k.
Proof.
  unfold partition_keys. rewrite merge_sort_Permutation.
  rewrite list_elem_of_fmap. split.
  - intros ([k' l] & -> & Hl%elem_of_map_to_list). simpl.
    rewrite group_by_key_lookup in Hl.
    destruct (of_key k' history) as [|o l'] eqn:E; [done |]. exists o.
    assert (o ∈ of_key k' history) as Ho by (rewrite E; left).
    apply list_elem_of_filter in Ho. naive_solver.
  - intros (o & Ho & <-).
    assert (o ∈ of_key (op_key o) history) as Hin by (by apply list_elem_of_filter).
    destruct (of_key (op_key o) history) as [|o' l] eqn:E; [by apply not_elem_of_nil in Hin |].
    exists (op_key o, o' :: l). split; [done |].
    apply elem_of_map_to_list. by rewrite group_by_key_lookup, E.
Qed.

Lemma Partition_eq history :
  Partition history = (λ k, of_key k history) <$> partition_keys history.
Proof.
  unfold Partition. apply list_fmap_ext. intros i k _. apply group_by_key_default.
Qed.

Lemma legal_iff ops :
  legal ops ↔ ∀ k, accepts_from Init (of_key k ops) = true.
Proof.
  unfold legal. rewrite Partition_eq, Forall_fmap, Forall_forall. split.
  - intros H k. destruct (decide (k ∈ partition_keys ops)) as [Hk|Hk]; [by apply (H k) |].
    rewrite elem_of_partition_keys in Hk.
    destruct (of_key k ops) as [|o l] eqn:E; [done |]. exfalso. apply Hk. exists o.
    assert (o ∈ of_key k ops) as Ho by (rewrite E; left).
    apply list_elem_of_filter in Ho. naive_solver.
  - intros H k _. apply H.
Qed.

(** [Partition] really partitions: its parts are the histories of the
    distinct keys (operations in their original order), in increasing key
    order, and together they hold every operation exactly once. *)
Theorem Partition_spec (history : list Operation) :
  ∃ keys,
    StronglySorted String.le keys ∧ NoDup keys ∧
    Partition history = (λ k, filter (λ o, op_key o = k) history) <$> keys ∧
    concat (Partition history) ≡ₚ history ∧
    Forall (λ part, part ≠ []) (Partition history).
Proof.
  exists (partition_keys history). split_and!.
  - apply StronglySorted_merge_sort; apply _.
  - apply partition_keys_NoDup.
  - apply Partition_eq.
  - rewrite Partition_eq. apply (concat_classes op_key); [apply partition_keys_NoDup |].
    intros o Ho. apply elem_of_partition_keys. eauto.
  - rewrite Partition_eq, Forall_fmap, Forall_forall. intros k Hk. simpl.
    apply elem_of_partition_keys in Hk as (o & Ho & <-). intros Hnil.
    assert (o ∈ of_key (op_key o) history) as Hin by (by apply list_elem_of_filter).
    rewrite Hnil in Hin. by apply not_elem_of_nil in Hin.
Qed.

End KvModel.
