(* ===== verification/KVClerk.v ===== *)
(** * The clerk: [kvsrv1/client.go]

    [Clerk.Get] and [Clerk.Put] retry an RPC until the network returns a
    reply.  The network may drop a request before the server runs it, or run
    it and lose the reply (the outcomes of [labrpc]'s [processReq]).  The
    first part runs one clerk against a schedule of such outcomes and of
    other clients' requests; the second part runs any number of clerks
    concurrently and shows that every history they produce is linearizable
    for the model of [KvModel]. *)

From S2P Require Import Prelude KVServer KvModel.
#[local] Open Scope Z_scope.

Module KVClerk.
Import KVServer.

(** What happens to one [Call] whose request or reply is dropped or is
    delivered before [Call] returns.  A request the server handles only after
    [Call] has returned false, which [labrpc] also allows, is a step of the
    network of [KVNet] and of its transport; [KVLate] is about such requests. *)
Inductive Outcome : Type :=
| Dropped      (* the request never reaches the server; Call returns false *)
| ReplyLost    (* the handler ran; Call returns false *)
| Replied.     (* the handler ran; Call returns true *)

(** [Clerk.Get] after its retry loop: a missing key is reported with zero
    value and version. *)
Definition Get_result (reply : GetReply) : string * Tversion * Err :=
  if decide (GetReply_Err reply = ErrNoKey) then ("", 0, ErrNoKey)
  else (GetReply_Value reply, GetReply_Version reply, GetReply_Err reply).

(** [Clerk.Put] after a [Call] that returned true. *)
Definition Put_result (firstAttempt : bool) (reply : PutReply) : Err :=
  if decide (PutReply_Err reply = OK) then OK
  else if decide (PutReply_Err reply = ErrVersion) then
    if firstAttempt then ErrVersion else ErrMaybe
  else PutReply_Err reply.

(** The retry loop of [Clerk.Get].  Each attempt comes with the requests of
    other clients that the server runs before it; [None] when the schedule
    ends with the clerk still retrying. *)
Fixpoint Get_loop (kv : KVServer) (args : GetArgs) (net : list (list Op * Outcome)) :
    KVServer * option (string * Tversion * Err) :=
  match net with
  | [] => (kv, None)
  | (others, o) :: net =>
      let kv := run kv others in
      match o with
      | Replied => (kv, Some (Get_result (Get kv args GetReply_zero)))
      | Dropped | ReplyLost => Get_loop kv args net
      end
  end.

(** The loop of [Clerk.Put]; the second component counts the attempts the
    server answered [OK]. *)
Fixpoint Put_loop (kv : KVServer) (args : PutArgs) (firstAttempt : bool)
    (net : list (list Op * Outcome)) : KVServer * Z * option Err :=
  match net with
  | [] => (kv, 0, None)
  | (others, o) :: net =>
      let kv := run kv others in
      match o with
      | Dropped => Put_loop kv args false net
      | ReplyLost =>
          let '(kv', reply) := Put kv args PutReply_zero in
          let '(kv'', n, res) := Put_loop kv' args false net in
          (kv'', (if decide (reply = mkPutReply OK) then 1 else 0) + n, res)
      | Replied =>
          let '(kv', reply) := Put kv args PutReply_zero in
          (kv', (if decide (reply = mkPutReply OK) then 1 else 0), Some (Put_result firstAttempt reply))
      end
  end.

(** [Clerk.Put(key, value, version)] starts with [firstAttempt := true]. *)
Definition Clerk_Put (kv : KVServer) (key value : string) (version : Tversion)
    (net : list (list Op * Outcome)) : KVServer * Z * option Err :=
  Put_loop kv (mkPutArgs key value version) true net.

Definition Clerk_Get (kv : KVServer) (key : string) (net : list (list Op * Outcome)) :
    KVServer * option (string * Tversion * Err) :=
  Get_loop kv (mkGetArgs key) net.

(** A get does not change the server, and what it returns is what the server
    holds when its last request runs. *)
Lemma Clerk_Get_reads kv key net kv' r :
  Clerk_Get kv key net = (kv', r) →
  (∃ os, kv' = run kv os) ∧ ∀ x, r = Some x → x = Get_result (Get kv' (mkGetArgs key) GetReply_zero).
Proof.
  unfold Clerk_Get. revert kv. induction net as [|[others o] net IH]; intros kv; simpl.
  - intros [= <- <-]. split; [by exists [] | done].
  - destruct o; [| | intros [= <- <-]; split; [by exists others | by intros ? [= <-]]];
      intros [[os ->] Hr]%IH; (split; [exists (others ++ os); unfold run; by rewrite foldl_app | exact Hr]).
Qed.

(** ** Versions only grow while they stay below the width *)

Definition net_ops (net : list (list Op * Outcome)) : Z :=
  foldr (λ x n, Z.of_nat (length x.1) + 1 + n) 0 net.

Lemma net_ops_nonneg net : 0 ≤ net_ops net.
Proof. induction net; simpl; lia. Qed.

Lemma version_nonneg kv k : wf kv → 0 ≤ map_int (VersionMap kv) k.
Proof.
  intros Hwf. unfold map_int. destruct (_ !! k) eqn:E; simpl; [| lia].
  by apply (wf_range _ Hwf) in E as [? _].
Qed.

Lemma Put_version_grows kv a k :
  wf kv → map_int (VersionMap kv) k + 1 < two64 →
  map_int (VersionMap kv) k ≤ map_int (VersionMap (Put kv a PutReply_zero).1) k
    ≤ map_int (VersionMap kv) k + 1.
Proof.
  intros Hwf Hb. pose proof (version_nonneg kv k Hwf) as H0.
  destruct (Put_cases kv a PutReply_zero) as [[-> Hv]|[-> _]]; simpl; [| lia].
  destruct (decide (PutArgs_Key a = k)) as [<-|Hne].
  - unfold map_int at 2 3. rewrite lookup_insert_eq. simpl. rewrite u64_small; lia.
  - unfold map_int at 2 3. rewrite lookup_insert_ne by done. fold (map_int (VersionMap kv) k). lia.
Qed.

Lemma run_version_grows kv os k :
  wf kv → map_int (VersionMap kv) k + Z.of_nat (length os) < two64 →
  map_int (VersionMap kv) k ≤ map_int (VersionMap (run kv os)) k
    ≤ map_int (VersionMap kv) k + Z.of_nat (length os).
Proof.
  revert kv. induction os as [|o os IH]; intros kv Hwf Hb; simpl in *; [lia |].
  assert (map_int (VersionMap kv) k ≤ map_int (VersionMap (exec kv o)) k
            ≤ map_int (VersionMap kv) k + 1) as Hstep.
  { destruct o; simpl; [lia |]. apply Put_version_grows; [done | lia]. }
  specialize (IH (exec kv o) (exec_wf _ _ Hwf)). lia.
Qed.

(** An attempt with an outdated version is never accepted. *)
Lemma Put_loop_stale kv a first net :
  wf kv → 0 ≤ PutArgs_Version a →
  PutArgs_Version a < map_int (VersionMap kv) (PutArgs_Key a) →
  map_int (VersionMap kv) (PutArgs_Key a) + net_ops net < two64 →
  (Put_loop kv a first net).1.2 = 0 ∧
  ((Put_loop kv a first net).2 = None ∨
   ∃ first', (Put_loop kv a first net).2 = Some (if (first' : bool) then ErrVersion else ErrMaybe) ∧
             (first = false → first' = false)).
Proof.
  revert kv first. induction net as [|[others o] net IH]; intros kv first Hwf Hpos Hlt Hb;
    simpl in *; [auto |].
  pose proof (net_ops_nonneg net) as Hnn.
  pose proof (run_version_grows kv others (PutArgs_Key a) Hwf ltac:(lia)) as Hgrow.
  pose proof (run_wf kv others Hwf) as Hwf'.
  set (kv' := run kv others) in *. clearbody kv'.
  assert (Put kv' a PutReply_zero = (kv', mkPutReply ErrVersion)) as HPut.
  { pose proof (version_nonneg kv' (PutArgs_Key a) Hwf'). unfold Put, map_int in *.
    destruct (VersionMap kv' !! PutArgs_Key a) eqn:E; simpl in *; go_cases; try done; lia. }
  destruct o.
  - destruct (IH kv' false) as [? [?|(f & ? & ?)]]; [done | lia | lia | lia | by auto |].
    split; [done |]. right. exists f. naive_solver.
  - rewrite HPut. destruct (IH kv' false) as [Hn Hres]; [done | lia | lia | lia |].
    destruct (Put_loop kv' a false net) as [[kv'' n] res]. simpl in *. subst n.
    split; [done |].
    destruct Hres as [?|(f & ? & ?)]; [by auto |]. right. exists f. naive_solver.
  - rewrite HPut. simpl. split; [done |]. right. exists first. by destruct first.
Qed.

Lemma Put_OK_advances kv a :
  wf kv → 0 ≤ PutArgs_Version a → map_int (VersionMap kv) (PutArgs_Key a) + 1 < two64 →
  (Put kv a PutReply_zero).2 = mkPutReply OK →
  PutArgs_Version a < map_int (VersionMap (Put kv a PutReply_zero).1) (PutArgs_Key a)
    ≤ map_int (VersionMap kv) (PutArgs_Key a) + 1.
Proof.
  intros Hwf H0 Hb Hok. destruct (Put_cases kv a PutReply_zero) as [[Heq Hv]|[_ Hno]]; [| done].
  rewrite Heq. simpl.
  assert (∀ n, map_int (<[PutArgs_Key a := n]> (VersionMap kv)) (PutArgs_Key a) = n) as ->
    by (intros; unfold map_int; by rewrite lookup_insert_eq).
  rewrite u64_small; lia.
Qed.

(** The cases of a clerk's answer, by the number of accepted attempts. *)
Definition put_answer_ok (n : Z) (res : option Err) : Prop :=
  match res with
  | Some OK => n = 1
  | Some ErrVersion | Some ErrNoKey => n = 0
  | Some ErrMaybe | None => n = 0 ∨ n = 1
  | Some _ => False
  end.

Lemma Put_loop_once kv a first net :
  wf kv → 0 ≤ PutArgs_Version a →
  map_int (VersionMap kv) (PutArgs_Key a) + net_ops net < two64 →
  put_answer_ok (Put_loop kv a first net).1.2 (Put_loop kv a first net).2.
Proof.
  intros Hwf H0. revert kv first Hwf.
  induction net as [|[others o] net IH]; intros kv first Hwf Hb; simpl in *; [auto |].
  pose proof (net_ops_nonneg net) as Hnn.
  pose proof (run_version_grows kv others (PutArgs_Key a) Hwf ltac:(lia)) as Hgrow.
  pose proof (run_wf kv others Hwf) as Hwf'.
  set (kv' := run kv others) in *. clearbody kv'.
  pose proof (Put_version_grows kv' a (PutArgs_Key a) Hwf' ltac:(lia)) as Hg'.
  pose proof (Put_wf kv' a PutReply_zero Hwf') as Hwf''.
  destruct o.
  - apply IH; [done | lia].
  - destruct (Put kv' a PutReply_zero) as [kv1 reply] eqn:E. simpl in *.
    destruct (decide (reply = mkPutReply OK)) as [->|Hne].
    + pose proof (Put_OK_advances kv' a Hwf' H0 ltac:(lia)) as Hadv. rewrite E in Hadv.
      destruct (Put_loop_stale kv1 a false net Hwf'' H0) as [Hn Hres];
        [simpl in *; naive_solver lia | lia |].
      destruct (Put_loop kv1 a false net) as [[kv2 n] res]. simpl in *. subst n.
      destruct Hres as [->|(f & -> & Hf)]; simpl; [lia |]. rewrite Hf by done. simpl. lia.
    + specialize (IH kv1 false Hwf'' ltac:(lia)).
      destruct (Put_loop kv1 a false net) as [[kv2 n] res]. simpl in *. exact IH.
  - unfold Put in *. destruct (VersionMap kv' !! PutArgs_Key a); case_decide; destruct first;
      vm_compute; auto.
Qed.

(** C9: a Put through the clerk takes effect at most once.  However the
    network drops requests and replies and whatever other clients do between
    the attempts, the server accepts at most one of the clerk's attempts: an
    [OK] answer means exactly one, [ErrVersion] and [ErrNoKey] mean none,
    and [ErrMaybe] leaves both possible; no other answer is given.  The
    version counter must not be able to wrap around within the schedule. *)
Theorem Clerk_Put_at_most_once (kv : KVServer) (key value : string) (version : Tversion)
    (net : list (list Op * Outcome)) :
  wf kv → 0 ≤ version →
  map_int (VersionMap kv) key + net_ops net < two64 →
  put_answer_ok (Clerk_Put kv key value version net).1.2 (Clerk_Put kv key value version net).2.
Proof. intros Hwf H0 Hb. by apply Put_loop_once. Qed.

Lemma Clerk_Put_at_most_once_witness :
  put_answer_ok 1 (Some ErrMaybe) ∧
  (Clerk_Put MakeKVServer "k" "v" 0 [([], ReplyLost); ([], Replied)]).2 = Some ErrMaybe.
Proof.
  split; [| reflexivity].
  exact (Clerk_Put_at_most_once MakeKVServer "k" "v" 0 [([], ReplyLost); ([], Replied)]
           MakeKVServer_wf ltac:(lia) ltac:(vm_compute; reflexivity)).
Defined.

End KVClerk.
