(* ===== verification/Linearizability.v ===== *)
(** * Clerks running concurrently: linearizability

    Any number of clients call [Clerk.Get] and [Clerk.Put] against one
    server through a network that drops requests and replies.  A run of this
    system yields a history of invocations and responses, the one [kvtest1]
    logs for porcupine.  Every history of a bounded number of steps is shown
    to be linearizable for the model of [models1/kv.go].  The server is used
    only through the interface [VStore]. *)

From S2P Require Import Prelude KVServer KvModel KVClerk.
#[local] Open Scope Z_scope.

Module Linearizability.
Import KvModel KVClerk.

(** The inputs and outputs that [kvtest1/porcupine.go] records. *)
Definition get_input (k : string) : KvInput := mkKvInput 0 k "" 0.
Definition put_input (a : PutArgs) : KvInput :=
  mkKvInput 1 (PutArgs_Key a) (PutArgs_Value a) (PutArgs_Version a).
Definition get_output (r : string * Tversion * Err) : KvOutput :=
  mkKvOutput r.1.1 r.1.2 (err_string r.2).
Definition put_output (e : Err) : KvOutput := mkKvOutput "" 0 (err_string e).

(** Where a client stands: in the retry loop of [Get] or of [Put] (with
    [firstAttempt]), or about to return an answer.  Idle clients are absent. *)
Inductive Task : Type :=
| TGet (k : string)
| TPut (a : PutArgs) (firstAttempt : bool)
| TGot (k : string) (r : string * Tversion * Err)
| TPutDone (a : PutArgs) (e : Err).

Inductive Event : Type :=
| Inv (c : nat) (i : KvInput)
| Res (c : nat) (i : KvInput) (o : KvOutput).

Section system.
Context {S : Type} `{VStore S}.

Record State := mkState { server : S; clients : gmap nat Task }.

Definition set_task (s : State) (c : nat) (t : Task) : State :=
  mkState (server s) (<[c := t]> (clients s)).

(** One step, with the event it adds to the history. *)
Inductive step : State → option Event → State → Prop :=
| inv_get s c k :
    clients s !! c = None →
    step s (Some (Inv c (get_input k))) (set_task s c (TGet k))
| inv_put s c a :
    clients s !! c = None → 0 ≤ PutArgs_Version a < two64 →
    step s (Some (Inv c (put_input a))) (set_task s c (TPut a true))
| get_fails s c k :
    (* dropped, or the reply lost: Get has no effect on the server *)
    clients s !! c = Some (TGet k) → step s None s
| get_replied s c k :
    clients s !! c = Some (TGet k) →
    step s None (set_task s c (TGot k (Get_result (vs_Get (server s) (mkGetArgs k) GetReply_zero))))
| put_dropped s c a first :
    clients s !! c = Some (TPut a first) →
    step s None (set_task s c (TPut a false))
| put_reply_lost s c a first :
    clients s !! c = Some (TPut a first) →
    step s None (mkState (vs_Put (server s) a PutReply_zero).1 (<[c := TPut a false]> (clients s)))
| put_replied s c a first :
    clients s !! c = Some (TPut a first) →
    let r := vs_Put (server s) a PutReply_zero in
    step s None (mkState r.1 (<[c := TPutDone a (Put_result first r.2)]> (clients s)))
| res_get s c k r :
    clients s !! c = Some (TGot k r) →
    step s (Some (Res c (get_input k) (get_output r))) (mkState (server s) (delete c (clients s)))
| res_put s c a e :
    clients s !! c = Some (TPutDone a e) →
    step s (Some (Res c (put_input a) (put_output e))) (mkState (server s) (delete c (clients s))).

(** [Run n s h s'] : [n] steps from [s] to [s'] with history [h]. *)
Inductive Run : nat → State → list Event → State → Prop :=
| Run_nil s : Run 0 s [] s
| Run_snoc n s h s1 e s2 :
    Run n s h s1 → step s1 e s2 → Run (Datatypes.S n) s (h ++ option_list e) s2.

End system.

(** ** Linearizability

    A linearization adds, for each operation that takes effect, one [Lin]
    event between its invocation and its response, carrying the output the
    response gives. *)
Inductive LEvent : Type :=
| Vis (e : Event)
| Lin (o : Operation).

Inductive Phase : Type :=
| Invoked (i : KvInput)
| Linearized (i : KvInput) (o : KvOutput).

(** [Interleaved l ph]: in [l] each client's events cycle through [Inv],
    [Lin] and [Res] with matching input and output; [ph] is where each
    client is at the end. *)
Inductive Interleaved : list LEvent → gmap nat Phase → Prop :=
| il_nil : Interleaved [] ∅
| il_inv l ph c i :
    Interleaved l ph → ph !! c = None →
    Interleaved (l ++ [Vis (Inv c i)]) (<[c := Invoked i]> ph)
| il_lin l ph c i o :
    Interleaved l ph → ph !! c = Some (Invoked i) →
    Interleaved (l ++ [Lin (mkOperation c i o)]) (<[c := Linearized i o]> ph)
| il_res l ph c i o :
    Interleaved l ph → ph !! c = Some (Linearized i o) →
    Interleaved (l ++ [Vis (Res c i o)]) (delete c ph).

Definition visible (l : list LEvent) : list Event :=
  omap (λ x, match x with Vis e => Some e | Lin _ => None end) l.
Definition linearized (l : list LEvent) : list Operation :=
  omap (λ x, match x with Lin o => Some o | Vis _ => None end) l.

Definition linearizable (h : list Event) : Prop :=
  ∃ l ph, Interleaved l ph ∧ visible l = h ∧ legal (linearized l).

(** ** The model run along the linearization *)

(** [run_model st ops]: the state the model reaches, if it accepts. *)
Fixpoint run_model (st : KvState) (ops : list Operation) : option KvState :=
  match ops with
  | [] => Some st
  | o :: ops =>
      match Step (IsState st) (Input o) (Output o) with
      | Ret (true, IsState st') => run_model st' ops
      | _ => None
      end
  end.

Lemma run_model_app st ops ops' st' :
  run_model st ops = Some st' → run_model st (ops ++ ops') = run_model st' ops'.
Proof.
  revert st. induction ops as [|o ops IH]; intros st Hr; simplify_eq/=; [done |].
  destruct (Step (IsState st) (Input o) (Output o)) as [[[] []]|]; simplify_eq/=; eauto.
Qed.

Lemma run_model_accepts st ops st' :
  run_model st ops = Some st' → accepts_from (IsState st) ops = true.
Proof.
  revert st. induction ops as [|o ops IH]; intros st Hr; simplify_eq/=; [done |].
  destruct (Step (IsState st) (Input o) (Output o)) as [[[] []]|]; simplify_eq/=; eauto.
Qed.

(** The model state that corresponds to what the store holds for a key. *)
Definition model_of (m : gmap string (string * Tversion)) (k : string) : KvState :=
  mkKvState (val_of m k) (ver_of m k).

Definition model_init : KvState := mkKvState "" 0.

(** The history so far, by key, drives the model to the state of the store. *)
Definition tracks (ops : list Operation) (m : gmap string (string * Tversion)) : Prop :=
  ∀ k, run_model model_init (filter (λ o, op_key o = k) ops) = Some (model_of m k).

Lemma tracks_legal ops m : tracks ops m → legal ops.
Proof. intros Ht. apply legal_iff. intros k. eapply run_model_accepts, Ht. Qed.

Lemma tracks_snoc ops m m' o :
  tracks ops m →
  Step (IsState (model_of m (op_key o))) (Input o) (Output o) =
    Ret (true, IsState (model_of m' (op_key o))) →
  (∀ k, k ≠ op_key o → model_of m' k = model_of m k) →
  tracks (ops ++ [o]) m'.
Proof.
  intros Ht Hstep Hother k. rewrite filter_app.
  erewrite run_model_app by apply Ht.
  destruct (decide (op_key o = k)) as [<-|Hne].
  - rewrite filter_cons_True by done. simpl. by rewrite Hstep.
  - rewrite filter_cons_False by done. simpl. by rewrite Hother.
Qed.

(** A get of the current contents is a step of the model. *)
Lemma Step_get m k c :
  Step (IsState (model_of m k)) (get_input k) (get_output (Get_result (KVServer.spec_get m k))) =
    Ret (true, IsState (model_of m k)) ∧ op_key (mkOperation c (get_input k)
      (get_output (Get_result (KVServer.spec_get m k)))) = k.
Proof.
  split; [| done]. unfold KVServer.spec_get, Get_result, model_of, val_of, ver_of, Step.
  destruct (m !! k) as [[v n]|]; [| done]. simpl. by rewrite bool_decide_true.
Qed.

Lemma Step_put_match m a e :
  ver_of m (PutArgs_Key a) = PutArgs_Version a → e = OK ∨ e = ErrMaybe →
  Step (IsState (model_of m (PutArgs_Key a))) (put_input a) (put_output e) =
    Ret (true, IsState (model_of (<[PutArgs_Key a := (PutArgs_Value a, u64 (PutArgs_Version a + 1))]> m)
                          (PutArgs_Key a))).
Proof.
  intros Hv He. unfold Step. simpl. rewrite Hv, decide_True by done.
  unfold model_of, val_of, ver_of. rewrite lookup_insert_eq. by destruct He as [-> | ->].
Qed.

Lemma Step_put_mismatch m a e :
  ver_of m (PutArgs_Key a) ≠ PutArgs_Version a → e = ErrVersion ∨ e = ErrMaybe →
  Step (IsState (model_of m (PutArgs_Key a))) (put_input a) (put_output e) =
    Ret (true, IsState (model_of m (PutArgs_Key a))).
Proof.
  intros Hv He. unfold Step. simpl. rewrite decide_False by done. by destruct He as [-> | ->].
Qed.

Lemma model_of_insert_ne m k k' x : k' ≠ k → model_of (<[k := x]> m) k' = model_of m k'.
Proof. intros. unfold model_of, val_of, ver_of. by rewrite lookup_insert_ne. Qed.

(** ** The simulation *)

Definition task_phase (m : gmap string (string * Tversion)) (t : option Task) (p : option Phase) : Prop :=
  match t with
  | None => p = None
  | Some (TGet k) => p = Some (Invoked (get_input k))
  | Some (TPut a first) =>
      0 ≤ PutArgs_Version a < two64 ∧
      (p = Some (Invoked (put_input a)) ∨
       (* an attempt was accepted and its reply lost *)
       (first = false ∧ p = Some (Linearized (put_input a) (put_output ErrMaybe)) ∧
        PutArgs_Version a < ver_of m (PutArgs_Key a)))
  | Some (TGot k r) => p = Some (Linearized (get_input k) (get_output r))
  | Some (TPutDone a e) =>
      if decide (e = ErrNoKey) then p = Some (Invoked (put_input a))
      else p = Some (Linearized (put_input a) (put_output e))
  end.

Lemma task_phase_mono m m' t p :
  (∀ k, ver_of m k ≤ ver_of m' k) → task_phase m t p → task_phase m' t p.
Proof.
  intros Hm. destruct t as [[k|a f|k r|a e]|]; simpl; auto.
  intros [? [?|(? & ? & ?)]]; split; auto. right. specialize (Hm (PutArgs_Key a)). naive_solver lia.
Qed.

Section simulation.
Context {S : Type} `{VStore S}.

Record sim (n : nat) (s : State) (l : list LEvent) (ph : gmap nat Phase) : Prop := mk_sim {
  sim_ok : vs_ok (server s);
  sim_il : Interleaved l ph;
  sim_tracks : tracks (linearized l) (vs_abs (server s));
  sim_ver : ∀ k, 0 ≤ ver_of (vs_abs (server s)) k ≤ Z.of_nat n;
  sim_cl : ∀ c, task_phase (vs_abs (server s)) (clients s !! c) (ph !! c)
}.

Lemma visible_app l l' : visible (l ++ l') = visible l ++ visible l'.
Proof. apply omap_app. Qed.
Lemma linearized_app l l' : linearized (l ++ l') = linearized l ++ linearized l'.
Proof. apply omap_app. Qed.

(** The clients other than [c] are unaffected by a step of [c] that lets
    versions grow. *)
Lemma sim_cl_update m m' (cl cl' : gmap nat Task) (ph ph' : gmap nat Phase) c :
  (∀ k, ver_of m k ≤ ver_of m' k) →
  (∀ c', task_phase m (cl !! c') (ph !! c')) →
  (∀ c', c' ≠ c → cl' !! c' = cl !! c' ∧ ph' !! c' = ph !! c') →
  task_phase m' (cl' !! c) (ph' !! c) →
  ∀ c', task_phase m' (cl' !! c') (ph' !! c').
Proof.
  intros Hm Hcl Hne Hc c'. destruct (decide (c' = c)) as [->|Hd]; [done |].
  destruct (Hne c' Hd) as [-> ->]. by apply (task_phase_mono m).
Qed.

Ltac solve_sim_cl c :=
  eapply (sim_cl_update _ _ _ _ _ _ c); [| eassumption | |];
  [ intros; lia | intros; simpl; split; by rewrite ?lookup_insert_ne, ?lookup_delete_ne
  | simpl; rewrite ?lookup_insert_eq, ?lookup_delete_eq; simpl ].

(** A step that only changes a task of [c], without a new event. *)
Lemma sim_local n s l ph c t :
  sim n s l ph → task_phase (vs_abs (server s)) (Some t) (ph !! c) →
  sim (Datatypes.S n) (set_task s c t) l ph.
Proof.
  intros [Hok Hil Htr Hver Hcl] Ht. split; simpl; [done.. | |].
  - intros k. specialize (Hver k). lia.
  - solve_sim_cl c. done.
Qed.

Lemma sim_inv n s l ph c t i :
  sim n s l ph → clients s !! c = None →
  task_phase (vs_abs (server s)) (Some t) (Some (Invoked i)) →
  sim (Datatypes.S n) (set_task s c t) (l ++ [Vis (Inv c i)]) (<[c := Invoked i]> ph).
Proof.
  intros [Hok Hil Htr Hver Hcl] Hc Ht. pose proof (Hcl c) as Hpc. rewrite Hc in Hpc.
  split; simpl; [done | by constructor | by rewrite linearized_app, app_nil_r | |].
  - intros k. specialize (Hver k). lia.
  - solve_sim_cl c. done.
Qed.

Lemma sim_res n s l ph c i o :
  sim n s l ph → ph !! c = Some (Linearized i o) →
  sim (Datatypes.S n) (mkState (server s) (delete c (clients s)))
    (l ++ [Vis (Res c i o)]) (delete c ph).
Proof.
  intros [Hok Hil Htr Hver Hcl] Hc.
  split; simpl; [done | by constructor | by rewrite linearized_app, app_nil_r | |].
  - intros k. specialize (Hver k). lia.
  - solve_sim_cl c. done.
Qed.

(** A step of [c] that linearizes its operation. *)
Lemma sim_lin n s s' l ph c i o t :
  sim n s l ph → ph !! c = Some (Invoked i) →
  vs_ok (server s') →
  Step (IsState (model_of (vs_abs (server s)) (Input_Key i))) i o =
    Ret (true, IsState (model_of (vs_abs (server s')) (Input_Key i))) →
  (∀ k, k ≠ Input_Key i → model_of (vs_abs (server s')) k = model_of (vs_abs (server s)) k) →
  (∀ k, ver_of (vs_abs (server s)) k ≤ ver_of (vs_abs (server s')) k ≤ ver_of (vs_abs (server s)) k + 1) →
  clients s' = <[c := t]> (clients s) →
  task_phase (vs_abs (server s')) (Some t) (Some (Linearized i o)) →
  sim (Datatypes.S n) s' (l ++ [Lin (mkOperation c i o)]) (<[c := Linearized i o]> ph).
Proof.
  intros [Hok Hil Htr Hver Hcl] Hc Hok' Hstep Hoth Hgrow Hcl' Ht. split; simpl.
  - done.
  - by constructor.
  - rewrite linearized_app. by eapply tracks_snoc.
  - intros k. specialize (Hver k). specialize (Hgrow k). lia.
  - rewrite Hcl'. eapply (sim_cl_update _ _ _ _ _ _ c); [| eassumption | |].
    + intros k. specialize (Hgrow k). lia.
    + intros; simpl; split; by rewrite lookup_insert_ne.
    + by rewrite !lookup_insert_eq.
Qed.

(** A step of [c] that leaves the abstract store and the linearization alone. *)
Lemma sim_silent n s l ph c srv t :
  sim n s l ph → vs_ok srv → vs_abs srv = vs_abs (server s) →
  task_phase (vs_abs (server s)) (Some t) (ph !! c) →
  sim (Datatypes.S n) (mkState srv (<[c := t]> (clients s))) l ph.
Proof.
  intros Hsim Hok Habs Ht. destruct (sim_local n s l ph c t Hsim Ht).
  split; simpl in *; rewrite ?Habs; done.
Qed.

(** An accepted attempt linearizes the Put; the answer will be [OK], or
    [ErrMaybe] when the reply is lost. *)
Lemma sim_accepted n s l ph c k v ver first t r :
  sim n s l ph → Z.of_nat n + 1 < two64 → 0 ≤ ver < two64 →
  ph !! c = Some (Invoked (put_input (mkPutArgs k v ver))) →
  vs_ok r.1 → ver_of (vs_abs (server s)) k = ver → PutReply_Err r.2 = OK →
  vs_abs r.1 = <[k := (v, u64 (ver + 1))]> (vs_abs (server s)) →
  t = TPut (mkPutArgs k v ver) false ∨ t = TPutDone (mkPutArgs k v ver) (Put_result first r.2) →
  ∃ l' ph', sim (Datatypes.S n) (mkState r.1 (<[c := t]> (clients s))) l' ph' ∧ visible l' = visible l.
Proof.
  intros Hsim Hn Hrange Hph Hok' Hmatch Herr Habs Ht.
  pose proof (sim_ver _ _ _ _ Hsim k) as Hverk.
  assert (∃ e, (e = OK ∨ e = ErrMaybe) ∧
    task_phase (vs_abs r.1) (Some t) (Some (Linearized (put_input (mkPutArgs k v ver)) (put_output e))))
    as (e & He & Htp).
  { destruct Ht as [-> | ->]; simpl.
    - exists ErrMaybe. split; [auto |]. split; [done |]. right. split_and!; [done.. |].
      rewrite Habs. unfold ver_of. rewrite lookup_insert_eq. rewrite u64_small; lia.
    - exists OK. split; [auto |].
      assert (Put_result first r.2 = OK) as -> by (unfold Put_result; by rewrite Herr).
      by rewrite decide_False. }
  exists (l ++ [Lin (mkOperation c (put_input (mkPutArgs k v ver)) (put_output e))]),
    (<[c := Linearized (put_input (mkPutArgs k v ver)) (put_output e)]> ph).
  split; [| by rewrite visible_app, app_nil_r].
  eapply (sim_lin n s (mkState r.1 (<[c := t]> (clients s))) l ph c _ _ t);
    [done | exact Hph | done | | | | reflexivity | exact Htp]; simpl; rewrite Habs.
  - by apply (Step_put_match _ (mkPutArgs k v ver)).
  - intros k' Hk'. by apply model_of_insert_ne.
  - intros k'. unfold ver_of. rewrite lookup_insert. case_decide; [| lia].
    subst k'. fold (ver_of (vs_abs (server s)) k). rewrite u64_small; lia.
Qed.

(** A rejected attempt whose reply is delivered, for a Put that no earlier
    attempt made effective: linearized here, unless the key is missing. *)
Lemma sim_rejected n s l ph c k v ver first r :
  sim n s l ph → ph !! c = Some (Invoked (put_input (mkPutArgs k v ver))) →
  vs_ok r.1 → ver_of (vs_abs (server s)) k ≠ ver → vs_abs r.1 = vs_abs (server s) →
  PutReply_Err r.2 = match vs_abs (server s) !! k with Some _ => ErrVersion | None => ErrNoKey end →
  ∃ l' ph', sim (Datatypes.S n)
      (mkState r.1 (<[c := TPutDone (mkPutArgs k v ver) (Put_result first r.2)]> (clients s))) l' ph' ∧
    visible l' = visible l.
Proof.
  intros Hsim Hph Hok' Hne Habs Herr. destruct (vs_abs (server s) !! k) as [[w m]|] eqn:Ek.
  - exists (l ++ [Lin (mkOperation c (put_input (mkPutArgs k v ver)) (put_output (Put_result first r.2)))]),
      (<[c := Linearized (put_input (mkPutArgs k v ver)) (put_output (Put_result first r.2))]> ph).
    split; [| by rewrite visible_app, app_nil_r].
    eapply (sim_lin n s _ l ph c _ (put_output (Put_result first r.2)));
      [done | exact Hph | done | | | | reflexivity |]; simpl; rewrite ?Habs; [| done | intros; lia |].
    + apply (Step_put_mismatch _ (mkPutArgs k v ver)); [done |].
      unfold Put_result. rewrite Herr. destruct first; auto.
    + rewrite decide_False; [done |]. unfold Put_result. rewrite Herr. by destruct first.
  - exists l, ph. split; [| done]. apply sim_silent; [done.. |]. simpl. rewrite decide_True; [done |].
    unfold Put_result. by rewrite Herr.
Qed.

(** What one execution of a Put attempt by [c] does to the simulation. *)
Lemma sim_attempt n s l ph c a first t r :
  sim n s l ph → Z.of_nat n + 1 < two64 →
  clients s !! c = Some (TPut a first) →
  r = vs_Put (server s) a PutReply_zero →
  t = TPut a false ∨ t = TPutDone a (Put_result first r.2) →
  ∃ l' ph', sim (Datatypes.S n) (mkState r.1 (<[c := t]> (clients s))) l' ph' ∧ visible l' = visible l.
Proof.
  intros Hsim Hn Hc -> Ht. pose proof (sim_ok _ _ _ _ Hsim) as Hok.
  pose proof (sim_cl _ _ _ _ Hsim c) as Hcl. rewrite Hc in Hcl.
  destruct a as [k v ver], Hcl as [Hrange Hph]. simpl in *.
  pose proof (vs_Put_cases (server s) k v ver Hok) as [Hok' Hcases].
  set (r := vs_Put (server s) (mkPutArgs k v ver) PutReply_zero) in *.
  destruct Hcases as [(Hmatch & Herr & Habs)|(Hne & Habs & Herr)].
  - destruct Hph as [Hph|(_ & _ & Hlt)]; [by eapply sim_accepted | lia].
  - destruct Ht as [-> | ->].
    + exists l, ph. split; [| done]. apply sim_silent; [done.. |]. simpl. naive_solver.
    + destruct Hph as [Hph|(-> & Hph & Hlt)]; [by eapply sim_rejected |].
      exists l, ph. split; [| done]. apply sim_silent; [done.. |].
      assert (Put_result false r.2 = ErrMaybe) as ->; [| done].
      unfold Put_result. rewrite Herr. unfold ver_of in *. pose proof (sim_ver _ _ _ _ Hsim k).
      destruct (vs_abs (server s) !! k) as [[w m]|]; [done | lia].
Qed.

Lemma sim_step n s l ph e s' :
  sim n s l ph → Z.of_nat n + 1 < two64 → step s e s' →
  (∀ c a, e ≠ Some (Res c (put_input a) (put_output ErrNoKey))) →
  ∃ l' ph', sim (Datatypes.S n) s' l' ph' ∧ visible l' = visible l ++ option_list e.
Proof.
  intros Hsim Hn Hstep He. pose proof (sim_ok _ _ _ _ Hsim) as Hok.
  pose proof (sim_cl _ _ _ _ Hsim) as Hcl.
  destruct Hstep as [s c k Hc|s c a Hc Hr|s c k Hc|s c k Hc|s c a f Hc|s c a f Hc|s c a f Hc r|s c k r Hc|s c a er Hc];
    specialize (Hcl c); rewrite Hc in Hcl; simpl in Hcl.
  - eexists _, _. split; [by eapply sim_inv | by rewrite visible_app].
  - eexists _, _. split; [eapply sim_inv; [done.. |]; simpl; auto | by rewrite visible_app].
  - exists l, ph. split; [| by rewrite app_nil_r]. destruct Hsim as [? ? ? Hver ?].
    split; [done.. | | done]. intros k'. specialize (Hver k'). lia.
  - rewrite (vs_Get_spec _ _ Hok). destruct (Step_get (vs_abs (server s)) k c) as [Hst _].
    eexists _, _. split.
    + eapply (sim_lin n s (set_task s c _)); [done | exact Hcl | done | exact Hst | done | | reflexivity | done].
      intros; simpl; lia.
    + by rewrite visible_app.
  - exists l, ph. split; [| by rewrite app_nil_r]. apply sim_local; [done |]. simpl. naive_solver.
  - destruct (sim_attempt n s l ph c a f (TPut a false) _ Hsim Hn Hc eq_refl) as (l' & ph' & ? & Hv); [auto |].
    exists l', ph'. by rewrite Hv, app_nil_r.
  - destruct (sim_attempt n s l ph c a f (TPutDone a (Put_result f r.2)) r Hsim Hn Hc eq_refl)
      as (l' & ph' & ? & Hv); [auto |]. exists l', ph'. by rewrite Hv, app_nil_r.
  - eexists _, _. split; [by apply sim_res | by rewrite visible_app].
  - case_decide; [subst; by destruct (He c a) |].
    eexists _, _. split; [by apply sim_res | by rewrite visible_app].
Qed.

End simulation.

(** Every run is simulated by a run of the model. *)
Lemma run_linearizable {S : Type} `{VStore S} (srv : S) (n : nat) (h : list Event) (s : State) :
  vs_ok srv → vs_abs srv = ∅ →
  Run n (mkState srv ∅) h s → Z.of_nat n < two64 →
  (∀ c a, Res c (put_input a) (put_output ErrNoKey) ∉ h) →
  linearizable h.
Proof.
  intros Hok Habs Hrun Hn Hno.
  enough (∃ l ph, sim n s l ph ∧ visible l = h) as (l & ph & Hs & Hv).
  { exists l, ph. split; [apply Hs | split; [done |]]. eapply tracks_legal, Hs. }
  remember (mkState srv ∅) as s0 eqn:Hs0. induction Hrun as [s|n s h s1 e s2 Hrun IH Hstep]; subst s.
  - exists [], ∅. split; [| done]. split; simpl; [done | constructor | | |].
    + intros k. simpl. by rewrite Habs.
    + intros k. rewrite Habs. unfold ver_of. rewrite lookup_empty. lia.
    + intros c. by rewrite !lookup_empty.
  - destruct IH as (l & ph & Hs & Hv); [done | lia | set_solver |].
    destruct (sim_step n s1 l ph e s2) as (l' & ph' & Hs' & Hv'); [done | lia | done | |].
    + intros c a ->. apply (Hno c a). set_solver.
    + exists l', ph'. split; [done |]. by rewrite Hv', Hv.
Qed.

(** C2: histories of concurrent clerks are linearizable.  Start from a
    server with no keys and no client active, and let any number of clients
    run [Get] and [Put] with arbitrary interleaving, dropped requests, lost
    replies and retries.  If fewer than [2^64] steps are taken (so that no
    version wraps around) and no Put was answered [ErrNoKey], the history
    can be linearized: each completed operation takes effect at one point
    between its invocation and its response, and the resulting sequential
    history is accepted by the model the tests use. *)
Theorem clerk_histories_linearizable {S : Type} `{VStore S} (srv : S) (n : nat)
    (h : list Event) (s : State) :
  vs_ok srv → vs_abs srv = ∅ →
  Run n (mkState srv ∅) h s → Z.of_nat n < two64 →
  (∀ c a, Res c (put_input a) (put_output ErrNoKey) ∉ h) →
  linearizable h.
Proof. apply run_linearizable. Qed.

(** A client whose first reply is lost answers [ErrMaybe] after the retry. *)
Definition maybe_args : PutArgs := mkPutArgs "k" "v" 0.
Definition maybe_history : list Event :=
  [Inv 0 (put_input maybe_args)] ++ [] ++ [] ++
  [Res 0 (put_input maybe_args) (put_output ErrMaybe)].

Lemma maybe_run :
  ∃ s, Run 4 (mkState KVServer.MakeKVServer ∅) maybe_history s.
Proof.
  eexists. unfold maybe_history. rewrite !app_assoc.
  eapply (Run_snoc _ _ _ _ (Some _)); [eapply (Run_snoc _ _ _ _ None); [eapply (Run_snoc _ _ _ _ None);
    [eapply (Run_snoc _ _ [] _ (Some _)); [apply Run_nil |] | ] |] |].
  - apply (inv_put _ 0 maybe_args); [done | simpl; unfold two64; lia].
  - by eapply (put_reply_lost _ 0).
  - by eapply (put_replied _ 0).
  - by apply (res_put _ 0).
Qed.

Lemma clerk_histories_linearizable_witness : linearizable maybe_history.
Proof.
  destruct maybe_run as [s Hs].
  apply (clerk_histories_linearizable (H := KVServer_VStore) KVServer.MakeKVServer 4 maybe_history s);
    [exact KVServer.MakeKVServer_wf | reflexivity | exact Hs | |].
  - unfold two64. lia.
  - intros c a Hin. unfold maybe_history in Hin. set_solver.
Defined.

(** The model and the server disagree on a Put with a non-zero version
    to a missing key: the server answers [ErrNoKey], as its comment says it
    must, and the model accepts neither that answer nor any state it could
    come from, so such a history is never legal. *)
Theorem model_rejects_ErrNoKey (k v : string) (n : Tversion) (c : nat) :
  n ≠ 0 →
  (KVServer.Put KVServer.MakeKVServer (mkPutArgs k v n) PutReply_zero).2 = mkPutReply ErrNoKey ∧
  (∀ ops ops' : list Operation,
     ¬ legal (ops ++ mkOperation c (put_input (mkPutArgs k v n)) (put_output ErrNoKey) :: ops')).
Proof.
  intros Hn. split.
  - unfold KVServer.Put. simpl. rewrite lookup_empty. by rewrite decide_False.
  - intros ops ops' Hl. rewrite legal_iff in Hl. specialize (Hl k). revert Hl.
    rewrite filter_app, filter_cons_True by done.
    generalize (filter (λ o, op_key o = k) ops) as l, Init as st.
    induction l as [|o l IH]; intros st; simpl.
    + destruct st as [st|]; [| done]. unfold Step. simpl.
      destruct (decide (State_Version st = n)); vm_compute; discriminate.
    + destruct (Step st (Input o) (Output o)) as [[[] st']|]; [apply IH | done | done].
Qed.

Lemma model_rejects_ErrNoKey_witness :
  ¬ legal [mkOperation 7 (put_input (mkPutArgs "x" "y" 3)) (put_output ErrNoKey)].
Proof. exact (proj2 (model_rejects_ErrNoKey "x" "y" 3 7 ltac:(lia)) [] []). Defined.

End Linearizability.
