(* ===== verification/ClerkProg.v ===== *)
(** * Programs over the clerk

    The lock ([kvsrv1/lock/lock.go]) and the test drivers
    ([kvtest1/kvtest.go]) are Go functions that call [Clerk.Get] and
    [Clerk.Put] in loops.  [Prog] is the body of such a loop as a tree of
    clerk calls; [prog_step] is one attempt of the current call over a
    network that may drop requests, lose replies and run abandoned requests
    late.  The second half runs any number of clients, each with its own
    loop, against one store, and gives the rule by which an invariant of the
    store and the clients is proved: a request that runs late is either
    outdated or the one its client is still attempting, so the rule asks
    only about the clients' current calls. *)

From S2P Require Import Prelude KVServer KVClerk.
#[local] Open Scope Z_scope.

Module ClerkProg.
Import KVClerk.

(** The body of a [for] loop that calls the clerk.  [Done a] ends the
    iteration with the result [a]; [Fatal] is a call of [ts.Fatalf]. *)
Inductive Prog (A : Type) : Type :=
| Done (a : A)
| Fatal
| ClerkGet (key : string) (k : string * Tversion * Err → Prog A)
| ClerkPut (key value : string) (version : Tversion) (k : Err → Prog A).
Arguments Done {A} a.
Arguments Fatal {A}.
Arguments ClerkGet {A} key k.
Arguments ClerkPut {A} key value version k.

(** Sequencing of statements. *)
Fixpoint bind {A B : Type} (p : Prog A) (k : A → Prog B) : Prog B :=
  match p with
  | Done a => k a
  | Fatal => Fatal
  | ClerkGet key f => ClerkGet key (λ r, bind (f r) k)
  | ClerkPut key value version f => ClerkPut key value version (λ e, bind (f e) k)
  end.

Section steps.
Context {S : Type} `{VStore S} {A : Type}.

(** One attempt of the current call of client [c].  The boolean beside the
    program is the clerk's [firstAttempt]; the list holds the abandoned
    requests still in flight.  A reliable network only replies. *)
Inductive prog_step (reliable : bool) (c : nat) : S * list (nat * PutArgs) → Prog A * bool →
    S * list (nat * PutArgs) → Prog A * bool → Prop :=
| get_no_reply s z k f first :
    reliable = false →
    prog_step reliable c (s, z) (ClerkGet k f, first) (s, z) (ClerkGet k f, first)
| get_replied s z k f first :
    prog_step reliable c (s, z) (ClerkGet k f, first)
      (s, z) (f (Get_result (vs_Get s (mkGetArgs k) GetReply_zero)), true)
| put_dropped s z k v n f first :
    reliable = false →
    prog_step reliable c (s, z) (ClerkPut k v n f, first) (s, z) (ClerkPut k v n f, false)
| put_abandoned s z k v n f first :
    reliable = false →
    prog_step reliable c (s, z) (ClerkPut k v n f, first)
      (s, (c, mkPutArgs k v n) :: z) (ClerkPut k v n f, false)
| put_reply_lost s z k v n f first :
    reliable = false →
    prog_step reliable c (s, z) (ClerkPut k v n f, first)
      ((vs_Put s (mkPutArgs k v n) PutReply_zero).1, z) (ClerkPut k v n f, false)
| put_replied s z k v n f first :
    prog_step reliable c (s, z) (ClerkPut k v n f, first)
      ((vs_Put s (mkPutArgs k v n) PutReply_zero).1, z)
      (f (Put_result first (vs_Put s (mkPutArgs k v n) PutReply_zero).2), true).

End steps.

(** What [Get] tells the program that called it. *)
Lemma Get_result_val {S : Type} `{VStore S} (l : string) (srv : S) :
  vs_ok srv →
  let r := Get_result (vs_Get srv (mkGetArgs l) GetReply_zero) in
  r.1 = (val_of (vs_abs srv) l, ver_of (vs_abs srv) l) ∧
  (r.2 = ErrNoKey → val_of (vs_abs srv) l = "" ∧ ver_of (vs_abs srv) l = 0).
Proof.
  intros Hok. rewrite (vs_Get_spec _ _ Hok). unfold KVServer.spec_get, val_of, ver_of, Get_result.
  by destruct (vs_abs srv !! l) as [[v n]|].
Qed.

(** ** Clients that run loops

    Client [c] repeats: from the locals [a] it runs [body c rnd a], where
    [rnd] stands for the random numbers of the iteration; before an iteration
    it may find the [done] channel ready and return [stop a]. *)

Inductive Client (A R : Type) : Type :=
| Running (p : Prog A) (firstAttempt : bool)
| Finished (r : R).
Arguments Running {A R} p firstAttempt.
Arguments Finished {A R} r.

(** The Put a client is attempting; the one that may still be in flight
    because an attempt of it was abandoned; the client after a failed
    attempt. *)
Definition attempting {A R : Type} (cl : Client A R) : option PutArgs :=
  match cl with Running (ClerkPut k v n _) _ => Some (mkPutArgs k v n) | _ => None end.
Definition pending {A R : Type} (cl : Client A R) : option PutArgs :=
  match cl with Running (ClerkPut k v n _) false => Some (mkPutArgs k v n) | _ => None end.
Definition retry {A R : Type} (cl : Client A R) : Client A R :=
  match cl with Running p _ => Running p false | cl => cl end.

Section system.
Context {S : Type} `{VStore S} {A R : Type}.
Context (reliable : bool) (body : nat → Z → A → Prog A) (stop : A → option R).

Record State := mkState {
  server : S;
  late : list (nat * PutArgs);
  client : nat → Client A R
}.

Inductive step : State → State → Prop :=
| client_call s c p first srv z p' first' :
    client s c = Running p first →
    prog_step reliable c (server s, late s) (p, first) (srv, z) (p', first') →
    step s (mkState srv z (<[c := Running p' first']> (client s)))
| client_loop s c a first rnd :
    client s c = Running (Done a) first →
    step s (mkState (server s) (late s) (<[c := Running (body c rnd a) true]> (client s)))
| client_stop s c a first r :
    client s c = Running (Done a) first → stop a = Some r →
    step s (mkState (server s) (late s) (<[c := Finished r]> (client s)))
| late_put s z1 c a z2 :
    late s = z1 ++ (c, a) :: z2 →
    step s (mkState (vs_Put (server s) a PutReply_zero).1 (z1 ++ z2) (client s)).

End system.
Arguments State S A R : clear implicits.

(** ** The rule for invariants *)

(** What a Get returns to the program. *)
Definition got (m : gmap string (string * Tversion)) (k : string) : string * Tversion * Err :=
  match m !! k with Some (v, n) => (v, n, OK) | None => ("", 0, ErrNoKey) end.

Lemma Get_result_got {S : Type} `{VStore S} (srv : S) k :
  vs_ok srv → Get_result (vs_Get srv (mkGetArgs k) GetReply_zero) = got (vs_abs srv) k.
Proof.
  intros Hok. rewrite (vs_Get_spec _ _ Hok). unfold KVServer.spec_get, got, Get_result.
  by destruct (vs_abs srv !! k) as [[v n]|].
Qed.

(** The obligations on [G], a property of the store and the clients: one for
    each thing that can happen to a client's current call. *)
Record ClerkInv {A R : Type} (reliable : bool) (body : nat → Z → A → Prog A) (stop : A → option R)
    (W G : gmap string (string * Tversion) → (nat → Client A R) → Prop) : Prop := {
  ci_ext : ∀ m cl cl', (∀ c, cl c = cl' c) → G m cl → G m cl';
  ci_attempt : ∀ m cl c a, G m cl → attempting (cl c) = Some a →
    0 ≤ PutArgs_Version a ≤ ver_of m (PutArgs_Key a);
  ci_retry : ∀ m cl c a, reliable = false → G m cl → attempting (cl c) = Some a →
    G m (<[c := retry (cl c)]> cl);
  ci_lost : ∀ m cl c k v f first, reliable = false → W m cl → G m cl →
    cl c = Running (ClerkPut k v (ver_of m k) f) first →
    G (<[k := (v, ver_of m k + 1)]> m) (<[c := retry (cl c)]> cl);
  ci_accept : ∀ m cl c k v f first, W m cl → G m cl →
    cl c = Running (ClerkPut k v (ver_of m k) f) first →
    G (<[k := (v, ver_of m k + 1)]> m) (<[c := Running (f OK) true]> cl);
  ci_reject : ∀ m cl c k v n f first, W m cl → G m cl →
    cl c = Running (ClerkPut k v n f) first → n < ver_of m k → (reliable = true → first = true) →
    G m (<[c := Running (f (if first then ErrVersion else ErrMaybe)) true]> cl);
  ci_get : ∀ m cl c k f first, W m cl → G m cl →
    cl c = Running (ClerkGet k f) first → G m (<[c := Running (f (got m k)) true]> cl);
  ci_loop : ∀ m cl c a first rnd, W m cl → G m cl →
    cl c = Running (Done a) first → G m (<[c := Running (body c rnd a) true]> cl);
  ci_stop : ∀ m cl c a first r, W m cl → G m cl →
    cl c = Running (Done a) first → stop a = Some r → G m (<[c := Finished r]> cl);
}.

Lemma pending_attempting {A R : Type} (cl : Client A R) a :
  pending cl = Some a → attempting cl = Some a ∧ retry cl = cl.
Proof. destruct cl as [[] []|]; simpl; naive_solver. Qed.

Lemma pending_retry {A R : Type} (cl : Client A R) : pending (retry cl) = attempting cl.
Proof. by destruct cl as [[]|]. Qed.

Section rule.
Context {S : Type} `{VStore S} {A R : Type}.
Context (reliable : bool) (body : nat → Z → A → Prog A) (stop : A → option R).
Context (W G : gmap string (string * Tversion) → (nat → Client A R) → Prop).
Context (HG : ClerkInv reliable body stop W G).
Implicit Types s : State S A R.

(** Runs along which no version wraps around and [W] holds. *)
Definition step_nw s s' : Prop :=
  step reliable body stop s s' ∧
  (∀ k, ver_of (vs_abs (server s)) k + 1 < two64) ∧ W (vs_abs (server s)) (client s).

(** Requests in flight are outdated or still attempted by their client. *)
Record sys_inv s : Prop := {
  si_ok : vs_ok (server s);
  si_G : G (vs_abs (server s)) (client s);
  si_first : reliable = true → late s = [] ∧ ∀ c p first, client s c = Running p first → first = true;
  si_late : ∀ c a, (c, a) ∈ late s →
    0 ≤ PutArgs_Version a < ver_of (vs_abs (server s)) (PutArgs_Key a) ∨ pending (client s c) = Some a;
}.

Lemma ver_of_insert m k v n k' :
  n = ver_of m k → ver_of m k' ≤ ver_of (<[k := (v, n + 1)]> m) k' ∧ ver_of (<[k := (v, n + 1)]> m) k = n + 1.
Proof.
  intros ->. unfold ver_of at 2 4. rewrite lookup_insert_eq. split; [| done].
  destruct (decide (k = k')) as [<-|Hne]; [rewrite lookup_insert_eq; lia |].
  rewrite lookup_insert_ne by done. unfold ver_of. lia.
Qed.

(** A step of client [c], which becomes [cl]; the requests [z] remain. *)
Lemma sys_change s srv' c cl z :
  sys_inv s → vs_ok srv' → G (vs_abs srv') (<[c := cl]> (client s)) →
  (∀ k, ver_of (vs_abs (server s)) k ≤ ver_of (vs_abs srv') k) →
  (∀ x, x ∈ z → x ∈ late s ∨ ∃ a, x = (c, a) ∧ pending cl = Some a) →
  (∀ a, pending (client s c) = Some a → pending cl = Some a ∨
     0 ≤ PutArgs_Version a < ver_of (vs_abs srv') (PutArgs_Key a)) →
  (reliable = true → z = [] ∧ ∀ p f, cl = Running p f → f = true) →
  sys_inv (mkState srv' z (<[c := cl]> (client s))).
Proof.
  intros [Hok Hg Hf Hl] Hok' Hg' Hmono Hz Hp Hr. split; simpl; [done | done | |].
  - intros Hre. destruct (Hr Hre) as [-> Hcl]. split; [done |]. intros c' p f Hc'.
    destruct (decide (c' = c)) as [->|Hne]; [rewrite fn_lookup_insert in Hc'; by eapply Hcl |].
    rewrite fn_lookup_insert_ne in Hc' by done. by eapply Hf.
  - intros c' a Hin. destruct (Hz _ Hin) as [Hin'|(? & [= -> ->] & Hpd)]; [| right; by rewrite fn_lookup_insert].
    destruct (Hl _ _ Hin') as [?|Hpd]; [left; specialize (Hmono (PutArgs_Key a)); lia |].
    destruct (decide (c' = c)) as [->|Hne]; [rewrite fn_lookup_insert | rewrite fn_lookup_insert_ne by done; by right].
    destruct (Hp a Hpd); auto.
Qed.

Lemma late_reliable s z : sys_inv s → (∀ x, x ∈ z → x ∈ late s) → reliable = true → z = [].
Proof.
  intros Hi Hz Hre. destruct (si_first _ Hi Hre) as [Hl _]. rewrite Hl in Hz.
  destruct z as [|x z]; [done |]. exfalso. eapply not_elem_of_nil, Hz. left.
Qed.

(** A step that does not touch the store, of a client with no Put in flight. *)
Lemma sys_local s c p cl :
  sys_inv s → client s c = p → attempting p = None → G (vs_abs (server s)) (<[c := cl]> (client s)) →
  (reliable = true → ∀ p f, cl = Running p f → f = true) →
  sys_inv (mkState (server s) (late s) (<[c := cl]> (client s))).
Proof.
  intros Hi Hc Ha Hg Hf. apply sys_change; [done | apply Hi | done | lia | by auto | |].
  - intros a Hp. rewrite Hc in Hp. apply pending_attempting in Hp as [Hp _]. congruence.
  - intros Hre. split; [by apply (late_reliable s) | by apply Hf].
Qed.

(** Running the Put that [c] is attempting: it is accepted or rejected. *)
Lemma sys_put s c k v n f first :
  sys_inv s → (∀ k, ver_of (vs_abs (server s)) k + 1 < two64) → W (vs_abs (server s)) (client s) →
  client s c = Running (ClerkPut k v n f) first →
  let r := vs_Put (server s) (mkPutArgs k v n) PutReply_zero in
  vs_ok r.1 ∧ (∀ k', ver_of (vs_abs (server s)) k' ≤ ver_of (vs_abs r.1) k') ∧ 0 ≤ n < ver_of (vs_abs r.1) k ∧
  (reliable = false → G (vs_abs r.1) (<[c := retry (client s c)]> (client s))) ∧
  G (vs_abs r.1) (<[c := Running (f (Put_result first r.2)) true]> (client s)).
Proof.
  intros [Hok Hg Hf Hl] Hnw Hw Hc r.
  destruct (ci_attempt _ _ _ _ _ HG _ _ c (mkPutArgs k v n) Hg) as [Hn0 Hn]; [by rewrite Hc |]. simpl in Hn0, Hn.
  destruct (vs_Put_cases (server s) k v n Hok) as [Hok' [(Hm & He & Habs)|(Hm & Habs & He)]];
    fold r in Hok', Habs, He; (split; [done |]); rewrite Habs; unfold Put_result; rewrite He.
  - specialize (Hnw k). rewrite u64_small by lia. subst n.
    split; [intros k'; by apply ver_of_insert |].
    split; [destruct (ver_of_insert (vs_abs (server s)) k v _ k eq_refl) as [_ ->]; lia |]. split.
    + intros Hre. by eapply (ci_lost _ _ _ _ _ HG).
    + by eapply (ci_accept _ _ _ _ _ HG).
  - assert (∃ x, vs_abs (server s) !! k = Some x) as [x Hx].
    { destruct (vs_abs (server s) !! k) eqn:E; [eauto |]. unfold ver_of in Hm, Hn. rewrite E in Hm, Hn. lia. }
    rewrite Hx. simpl. split; [lia |]. split; [lia |]. split.
    + intros Hre. eapply (ci_retry _ _ _ _ _ HG); [done.. | by rewrite Hc].
    + eapply (ci_reject _ _ _ _ _ HG); [done.. | lia | intros Hre; by eapply Hf].
Qed.

Lemma sys_prog_step s c p first srv z p' first' :
  sys_inv s → (∀ k, ver_of (vs_abs (server s)) k + 1 < two64) → W (vs_abs (server s)) (client s) →
  client s c = Running p first →
  prog_step reliable c (server s, late s) (p, first) (srv, z) (p', first') →
  sys_inv (mkState srv z (<[c := Running p' first']> (client s))).
Proof.
  intros Hi Hnw Hw Hc Hst. pose proof Hi as [Hok Hg Hf Hl].
  assert (∀ z', (∀ x, x ∈ z' → x ∈ late s) → reliable = true → z' = []) as Hlr by eauto using late_reliable.
  inversion Hst; subst; clear Hst.
  - eapply (sys_local s c); [done.. | | congruence].
    eapply (ci_ext _ _ _ _ _ HG); [| exact Hg]. intros c'. rewrite <- Hc. by rewrite fn_insert_id.
  - eapply (sys_local s c); [done.. | | by intros _ ? ? [= _ <-]].
    rewrite Get_result_got by done. by eapply (ci_get _ _ _ _ _ HG).
  - apply sys_change; [done.. | | lia | by auto | | congruence].
    + change (Running (ClerkPut k v n f) false) with (retry (R := R) (Running (ClerkPut k v n f) first)).
      rewrite <- Hc. eapply (ci_retry _ _ _ _ _ HG); [done.. | by rewrite Hc].
    + intros a. rewrite Hc. destruct first; simpl; [done | by auto].
  - apply sys_change; [done.. | | lia | | | congruence].
    + change (Running (ClerkPut k v n f) false) with (retry (R := R) (Running (ClerkPut k v n f) first)).
      rewrite <- Hc. eapply (ci_retry _ _ _ _ _ HG); [done.. | by rewrite Hc].
    + intros x [->|?]%elem_of_cons; [right; eauto | by left].
    + intros a. rewrite Hc. destruct first; simpl; [done | by auto].
  - destruct (sys_put s c k v n f first Hi Hnw Hw Hc) as (Hok' & Hmono & Hn & Hlost & _).
    apply sys_change; [done.. | | done | by auto | | congruence].
    + rewrite Hc in Hlost. by apply Hlost.
    + intros a. rewrite Hc. destruct first; simpl; [done | by auto].
  - destruct (sys_put s c k v n f first Hi Hnw Hw Hc) as (Hok' & Hmono & Hn & _ & Hrep).
    apply sys_change; [done.. | by auto | |].
    + intros a. rewrite Hc. destruct first; simpl; [done |]. intros [= <-]. by right.
    + intros Hre. split; [by apply Hlr | by intros ? ? [= _ <-]].
Qed.

Lemma sys_late_put s z1 c a z2 :
  sys_inv s → (∀ k, ver_of (vs_abs (server s)) k + 1 < two64) → W (vs_abs (server s)) (client s) →
  late s = z1 ++ (c, a) :: z2 →
  sys_inv (mkState (vs_Put (server s) a PutReply_zero).1 (z1 ++ z2) (client s)).
Proof.
  intros Hi Hnw Hw Hz. pose proof Hi as [Hok Hg Hf Hl].
  assert (reliable = false) as Hre.
  { destruct reliable; [| done]. destruct (Hf eq_refl) as [Hnil _]. rewrite Hz in Hnil. by destruct z1. }
  assert (∀ x, x ∈ z1 ++ z2 → x ∈ late s) as Hsub by (rewrite Hz; set_solver).
  destruct (Hl c a) as [Hst|Hp]; [rewrite Hz; set_solver | |].
  - destruct a as [k v n]. simpl in Hst.
    destruct (vs_Put_cases (server s) k v n Hok) as [Hok' [(Hm & _)|(_ & Habs & _)]]; [lia |].
    split; simpl; rewrite ?Habs; [done | done | congruence | by auto].
  - destruct (pending_attempting _ _ Hp) as [Hatt Hret].
    destruct (client s c) as [[| | |k v n f] first|] eqn:Hc; try done. injection Hatt as <-.
    destruct (sys_put s c _ _ _ _ _ Hi Hnw Hw Hc) as (Hok' & Hmono & Hn & Hlost & _).
    specialize (Hlost Hre). rewrite Hc, Hret, <- Hc in Hlost.
    split; simpl; [done | | congruence |].
    + eapply (ci_ext _ _ _ _ _ HG); [| exact Hlost]. intros c'. apply fn_insert_id.
    + intros c' a' Hin. destruct (Hl c' a' (Hsub _ Hin)) as [?|?]; [left | by right].
      specialize (Hmono (PutArgs_Key a')). lia.
Qed.

(** The rule: an invariant that meets the obligations holds in every state
    reachable without wrap-around. *)
Lemma sys_inv_step s s' : sys_inv s → step_nw s s' → sys_inv s'.
Proof.
  intros Hi (Hst & Hnw & Hw). pose proof (si_G _ Hi) as Hg.
  destruct Hst as [s c p first srv z p' first' Hc Hst|s c a first rnd Hc|s c a first r Hc Hr|s z1 c a z2 Hz].
  - by eapply sys_prog_step.
  - eapply (sys_local s c); [done.. | | by intros _ ? ? [= _ <-]]. by eapply (ci_loop _ _ _ _ _ HG).
  - eapply (sys_local s c); [done.. | | done]. by eapply (ci_stop _ _ _ _ _ HG).
  - by eapply sys_late_put.
Qed.

Lemma clerk_invariant s0 s : sys_inv s0 → rtc step_nw s0 s → sys_inv s.
Proof. intros Hi Hr. induction Hr; eauto using sys_inv_step. Qed.

Lemma sys_inv_init srv cls :
  vs_ok srv → G (vs_abs srv) cls → (∀ c p f, cls c = Running p f → f = true) →
  sys_inv (mkState srv [] cls).
Proof. intros Hok Hg Hf. split; simpl; [done | done | done | by intros ? ? ?%not_elem_of_nil]. Qed.

End rule.

End ClerkProg.
