(* ===== verification/KVLock.v ===== *)
(** * The lock built on the key/value service: [kvsrv1/lock/lock.go]

    [Acquire] and [Release] as programs over the clerk's [Get] and [Put],
    one loop iteration at a time, and any number of clients running them
    concurrently over a network that drops requests, loses replies and runs
    abandoned requests late.  Mutual exclusion is proved against the store
    interface [VStore]. *)

From S2P Require Import Prelude KVServer KVClerk ClerkProg.
#[local] Open Scope Z_scope.

Module KVLock.
Import KVClerk ClerkProg.

(** ** [lock.go] *)

(** The clerk [ck] is the capability to make clerk calls. *)
Record Lock := mkLock { lockName : string; clientID : string }.

(** [nrand()]: the clock plus a random number, added as [int64]. *)
Definition nrand (unixNano rand30 : Z) : Z := int64 (unixNano + rand30).

(** [MakeLock(ck, l)]: the client id is the decimal form of [nrand()]. *)
Definition MakeLock (l : string) (unixNano rand30 : Z) : Lock :=
  mkLock l (Itoa (nrand unixNano rand30)).

(** The body of each [for] loop: [Done true] returns from the function;
    [Done false] goes round the loop again. *)
Abbreviation Prog := (ClerkProg.Prog bool).

(** The second Get of [Acquire], after an [ErrMaybe]. *)
Definition acquire_check (lk : Lock) (r : string * Tversion * Err) : Prog :=
  Done (bool_decide (r.1.1 = clientID lk)).

(** [switch lockErr] after either Put of [Acquire]. *)
Definition acquire_after_put (lk : Lock) (lockErr : Err) : Prog :=
  match lockErr with
  | OK => Done true
  | ErrVersion => Done false
  | ErrMaybe => ClerkGet (lockName lk) (acquire_check lk)
  | _ => Done false
  end.

(** After the Get at the head of [Acquire]'s loop. *)
Definition acquire_after_get (lk : Lock) (r : string * Tversion * Err) : Prog :=
  let '(locker, ver, err) := r in
  if decide (err = ErrNoKey) then
    ClerkPut (lockName lk) (clientID lk) 0 (acquire_after_put lk)
  else if decide (locker = clientID lk) then Done true
  else if decide (locker = "") then
    ClerkPut (lockName lk) (clientID lk) ver (acquire_after_put lk)
  else Done false.

(** One iteration of [Acquire]; the random sleep has no effect on the state. *)
Definition Acquire_body (lk : Lock) : Prog :=
  ClerkGet (lockName lk) (acquire_after_get lk).

Definition release_after_put (lockErr : Err) : Prog :=
  match lockErr with
  | OK => Done true
  | _ => Done false
  end.

Definition release_after_get (lk : Lock) (r : string * Tversion * Err) : Prog :=
  let '(locker, ver, err) := r in
  if decide (err = ErrNoKey) then Done true
  else if decide (locker ≠ clientID lk) then Done true
  else ClerkPut (lockName lk) "" ver release_after_put.

(** One iteration of [Release]. *)
Definition Release_body (lk : Lock) : Prog :=
  ClerkGet (lockName lk) (release_after_get lk).

(** Where a client is.  The boolean is the clerk's [firstAttempt] for the
    call in progress. *)
Inductive Client : Type :=
| Idle
| Acquiring (p : Prog) (firstAttempt : bool)
| Holding
| Releasing (p : Prog) (firstAttempt : bool).

(** A Put attempt whose [Call] has returned false may still be running. *)
Definition pending (cl : Client) : option PutArgs :=
  match cl with
  | Acquiring (ClerkPut k v n _) false | Releasing (ClerkPut k v n _) false => Some (mkPutArgs k v n)
  | _ => None
  end.

Section system.
Context {S : Type} `{VStore S}.
Context (l : string) (id : nat → string).

Definition lk (c : nat) : Lock := mkLock l (id c).

Record State := mkState {
  server : S;
  late : list (nat * PutArgs);     (* abandoned requests still in flight *)
  client : nat → Client
}.

Inductive step : State → State → Prop :=
| start_acquire s c :
    client s c = Idle →
    step s (mkState (server s) (late s) (<[c := Acquiring (Acquire_body (lk c)) true]> (client s)))
| start_release s c :
    client s c = Holding ∨ client s c = Idle →
    step s (mkState (server s) (late s) (<[c := Releasing (Release_body (lk c)) true]> (client s)))
| acquire_step s c p first srv z p' first' :
    client s c = Acquiring p first →
    prog_step false c (server s, late s) (p, first) (srv, z) (p', first') →
    step s (mkState srv z (<[c := Acquiring p' first']> (client s)))
| release_step s c p first srv z p' first' :
    client s c = Releasing p first →
    prog_step false c (server s, late s) (p, first) (srv, z) (p', first') →
    step s (mkState srv z (<[c := Releasing p' first']> (client s)))
| acquire_returns s c first :
    client s c = Acquiring (Done true) first →
    step s (mkState (server s) (late s) (<[c := Holding]> (client s)))
| acquire_loops s c first :
    client s c = Acquiring (Done false) first →
    step s (mkState (server s) (late s) (<[c := Acquiring (Acquire_body (lk c)) true]> (client s)))
| release_returns s c first :
    client s c = Releasing (Done true) first →
    step s (mkState (server s) (late s) (<[c := Idle]> (client s)))
| release_loops s c first :
    client s c = Releasing (Done false) first →
    step s (mkState (server s) (late s) (<[c := Releasing (Release_body (lk c)) true]> (client s)))
| late_put s z1 c a z2 :
    (* an abandoned request is executed after all *)
    late s = z1 ++ (c, a) :: z2 →
    step s (mkState (vs_Put (server s) a PutReply_zero).1 (z1 ++ z2) (client s))
| other_key s a :
    (* the store is shared with clients of other keys *)
    PutArgs_Key a ≠ l → 
    step s (mkState (vs_Put (server s) a PutReply_zero).1 (late s) (client s)).

Definition value (s : State) : string := val_of (vs_abs (server s)) l.
Definition version (s : State) : Tversion := ver_of (vs_abs (server s)) l.

(** Runs along which the lock's version counter does not wrap around. *)
Definition step_nw (s s' : State) : Prop := step s s' ∧ version s + 1 < two64.

(** ** The invariant, in terms of the lock's current value and version *)

Definition client_inv (val : string) (ver : Z) (c : nat) (cl : Client) : Prop :=
  match cl with
  | Idle => val ≠ id c
  | Holding => val = id c
  | Acquiring p first =>
      (p = Acquire_body (lk c) ∧ val ≠ id c) ∨
      (∃ v, p = ClerkPut l (id c) v (acquire_after_put (lk c)) ∧ 0 ≤ v ≤ ver ∧
            (v = ver → val = "") ∧ (first = true → val ≠ id c)) ∨
      p = ClerkGet l (acquire_check (lk c)) ∨
      (p = Done true ∧ val = id c) ∨ (p = Done false ∧ val ≠ id c)
  | Releasing p first =>
      p = Release_body (lk c) ∨
      (∃ v, p = ClerkPut l "" v release_after_put ∧ 0 ≤ v ≤ ver ∧ (v = ver → val = id c)) ∨
      (p = Done true ∧ val ≠ id c) ∨ p = Done false
  end.

Record inv (s : State) : Prop := mk_inv {
  inv_ok : vs_ok (server s);
  inv_ver : 0 ≤ version s;
  inv_value : value s = "" ∨ ∃ c, value s = id c;
  inv_clients : ∀ c, client_inv (value s) (version s) c (client s c);
  inv_late : ∀ c a, (c, a) ∈ late s →
    PutArgs_Key a = l ∧ (0 ≤ PutArgs_Version a < version s ∨ pending (client s c) = Some a)
}.

End system.

(** The Put a client is attempting, and the client after a failed attempt. *)
Definition attempting (cl : Client) : option PutArgs :=
  match cl with
  | Acquiring (ClerkPut k v n _) _ | Releasing (ClerkPut k v n _) _ => Some (mkPutArgs k v n)
  | _ => None
  end.

Definition retry (cl : Client) : Client :=
  match cl with
  | Acquiring p _ => Acquiring p false
  | Releasing p _ => Releasing p false
  | cl => cl
  end.

Lemma lock_pending_attempting cl a : pending cl = Some a → attempting cl = Some a ∧ retry cl = cl.
Proof. destruct cl as [|[] []| |[] []]; simpl; naive_solver. Qed.

Lemma lock_pending_retry cl : pending (retry cl) = attempting cl.
Proof. by destruct cl as [|[]| |[]]. Qed.

Section proofs.
Context {S : Type} `{VStore S}.
Context (l : string) (id : nat → string) `{Hinj : !Inj (=) (=) id} (Hne : ∀ c, id c ≠ "").

Abbreviation value := (value l).
Abbreviation version := (version l).
Abbreviation client_inv := (client_inv l id).
Abbreviation inv := (inv l id).

(** How the lock can change under a Put by client [c]: not at all, taken by
    [c], or given up by [c]. *)
Definition flip (c : nat) (val : string) (ver : Z) (val' : string) (ver' : Z) : Prop :=
  (val' = val ∧ ver' = ver) ∨
  (ver' = ver + 1 ∧ ((val = "" ∧ val' = id c) ∨ (val = id c ∧ val' = ""))).

Lemma flip_grows c val ver val' ver' : flip c val ver val' ver' → ver ≤ ver'.
Proof. intros [[_ ->]|[-> _]]; lia. Qed.

(** Nobody else's knowledge about the lock is invalidated by it. *)
Lemma others_stable c c' val ver val' ver' cl :
  flip c val ver val' ver' → c' ≠ c →
  client_inv val ver c' cl → client_inv val' ver' c' cl.
Proof.
  intros [[-> ->]|[-> Hv]] Hcc; [done |].
  assert (val ≠ id c') as Hnv by (destruct Hv as [[-> _]|[-> _]]; [auto | by intros ?%(inj id)]).
  assert (val' ≠ id c') as Hnv' by (destruct Hv as [[_ ->]|[_ ->]]; [by intros ?%(inj id) | auto]).
  destruct cl as [|p f| |p f]; simpl; [done | | done |].
  - intros [[-> _]|[(v & -> & Hr & Hz & Hf)|[->|[[-> ?]|[-> ?]]]]]; [by auto | | by auto | done | by auto 10].
    right; left. exists v. split_and!; auto; lia.
  - intros [->|[(v & -> & Hr & Hz)|[[-> ?]| ->]]]; [by auto | | by auto | by auto].
    right; left. exists v. split_and!; auto; lia.
Qed.

(** Executing the Put that client [c] is attempting. *)
Lemma exec_attempt (srv : S) c cl a :
  let m := vs_abs srv in
  let r := vs_Put srv a PutReply_zero in
  let m' := vs_abs r.1 in
  vs_ok srv → ver_of m l + 1 < two64 → attempting cl = Some a →
  client_inv (val_of m l) (ver_of m l) c cl →
  vs_ok r.1 ∧ flip c (val_of m l) (ver_of m l) (val_of m' l) (ver_of m' l) ∧
  client_inv (val_of m' l) (ver_of m' l) c (retry cl) ∧
  PutArgs_Key a = l ∧ 0 ≤ PutArgs_Version a < ver_of m' l ∧
  ((PutReply_Err r.2 = OK ∧ val_of m' l = PutArgs_Value a) ∨
   (PutReply_Err r.2 = ErrVersion ∧ val_of m' l = val_of m l)).
Proof.
  intros m r m' Hok Hnw Hatt Hcl.
  assert (∃ v n, a = mkPutArgs l v n ∧ 0 ≤ n ≤ ver_of m l ∧
            (n = ver_of m l → (val_of m l = "" ∧ v = id c) ∨ (val_of m l = id c ∧ v = "")))
    as (v & n & -> & Hr & Hn).
  { destruct cl as [|[]| |[]]; simplify_eq/=; naive_solver. }
  destruct (vs_Put_cases srv l v n Hok) as [Hok' Hc]. fold m r in Hok', Hc.
  split; [done |]. destruct Hc as [(Hm & Herr & Habs)|(Hm & Habs & Herr)].
  - specialize (Hn (eq_sym Hm)). subst m'. rewrite Habs, u64_small by lia.
    assert (val_of (<[l := (v, n + 1)]> m) l = v) as -> by (unfold val_of; by rewrite lookup_insert_eq).
    assert (ver_of (<[l := (v, n + 1)]> m) l = n + 1) as -> by (unfold ver_of; by rewrite lookup_insert_eq).
    split_and!; [| | done | simpl; lia | simpl; lia | simpl; auto].
    + right. split; [lia |]. naive_solver.
    + destruct cl as [|[]| |[]]; simplify_eq/=; naive_solver lia.
  - subst m'. rewrite Habs. fold m.
    split_and!; [by left | | done | simpl; lia | simpl; lia |].
    + destruct cl as [|[]| |[]]; simplify_eq/=; naive_solver.
    + right. split; [| done]. rewrite Herr. fold m. unfold ver_of in Hm, Hr.
      destruct (m !! l) as [[? ?]|]; [done | lia].
Qed.

Lemma other_put (srv : S) a :
  vs_ok srv → PutArgs_Key a ≠ l →
  let r := vs_Put srv a PutReply_zero in
  vs_ok r.1 ∧ val_of (vs_abs r.1) l = val_of (vs_abs srv) l ∧
  ver_of (vs_abs r.1) l = ver_of (vs_abs srv) l.
Proof.
  intros Hok Hk. destruct a as [k v n]. simpl in *.
  destruct (vs_Put_cases srv k v n Hok) as [Hok' [(_ & _ & ->)|(_ & -> & _)]]; [| done].
  split; [done |]. unfold val_of, ver_of. by rewrite lookup_insert_ne.
Qed.

Lemma lock_inv_init (srv : S) :
  vs_ok srv → vs_abs srv !! l = None → inv (mkState srv [] (λ _, Idle)).
Proof.
  intros Hok Hl. unfold KVLock.value, KVLock.version.
  split; simpl; [done | | | | by intros ? ? ?%not_elem_of_nil].
  - unfold KVLock.version, ver_of. simpl. by rewrite Hl.
  - left. unfold KVLock.value, val_of. simpl. by rewrite Hl.
  - intros c. unfold KVLock.value, val_of. simpl. rewrite Hl. intros E. by destruct (Hne c).
Qed.

(** A step of client [c] that does not touch the server. *)
Lemma inv_local s c cl :
  inv s → client_inv (value s) (version s) c cl →
  (∀ a, pending (client s c) = Some a → pending cl = Some a ∨ 0 ≤ PutArgs_Version a < version s) →
  inv (mkState (server s) (late s) (<[c := cl]> (client s))).
Proof.
  intros [Hok Hver Hval Hcl Hlate] Hc Hp. split; simpl; [done | done | done | |].
  - intros c'. destruct (decide (c' = c)) as [->|Hd].
    + by rewrite fn_lookup_insert.
    + rewrite fn_lookup_insert_ne by done. apply Hcl.
  - intros c' a Hin. destruct (Hlate c' a Hin) as [Hk Hd]. split; [done |].
    destruct (decide (c' = c)) as [->|Hcc].
    + rewrite fn_lookup_insert. destruct Hd as [Hd|Hd]; [by left |].
      destruct (Hp a Hd); auto.
    + by rewrite fn_lookup_insert_ne.
Qed.

(** Executing the Put that [c] is attempting, after which [c] continues as
    [cl] and the requests [z] remain in flight. *)
Lemma inv_exec s c a cl z :
  inv s → version s + 1 < two64 → attempting (client s c) = Some a →
  let srv' := (vs_Put (server s) a PutReply_zero).1 in
  let m' := vs_abs srv' in
  client_inv (val_of m' l) (ver_of m' l) c cl →
  (∀ x, x ∈ z → x ∈ late s) →
  inv (mkState srv' z (<[c := cl]> (client s))).
Proof.
  intros [Hok Hver Hval Hcl Hlate] Hnw Hatt srv' m' Hc Hz.
  destruct (exec_attempt (server s) c (client s c) a) as (Hok' & Hflip & _ & Hkey & Hlt & _); auto.
  fold srv' m' in Hok', Hflip, Hlt. pose proof (flip_grows _ _ _ _ _ Hflip) as Hg.
  split; unfold KVLock.value, KVLock.version in *; simpl.
  - done.
  - fold m'. lia.
  - fold m'. destruct Hflip as [[-> _]|[_ [[_ ->]|[_ ->]]]]; [done | by eauto | by auto].
  - intros c'. destruct (decide (c' = c)) as [->|Hd].
    + by rewrite fn_lookup_insert.
    + rewrite fn_lookup_insert_ne by done. eapply others_stable; [exact Hflip | done | apply Hcl].
  - intros c' a' Hin. destruct (Hlate c' a' (Hz _ Hin)) as [Hk Hd]. split; [done |]. fold m'.
    destruct Hd as [Hd|Hd]; [left; lia |]. destruct (decide (c' = c)) as [->|Hcc].
    + apply lock_pending_attempting in Hd as [Hd _]. rewrite Hatt in Hd. simplify_eq. by left.
    + right. by rewrite fn_lookup_insert_ne.
Qed.

(** [Acquire]'s decisions preserve what the client knows. *)
Lemma acquire_get_inv (srv : S) c :
  let m := vs_abs srv in
  vs_ok srv → 0 ≤ ver_of m l →
  let r := Get_result (vs_Get srv (mkGetArgs l) GetReply_zero) in
  client_inv (val_of m l) (ver_of m l) c (Acquiring (acquire_check (lk l id c) r) true) ∧
  (val_of m l ≠ id c →
   client_inv (val_of m l) (ver_of m l) c (Acquiring (acquire_after_get (lk l id c) r) true)).
Proof.
  intros m Hok Hver r. destruct (Get_result_val l srv Hok) as [Hr Hnk]. fold m r in Hr, Hnk.
  destruct r as [[v n] e]. simplify_eq/=. split.
  - unfold acquire_check. simpl. case_bool_decide; auto 10.
  - intros Hv. case_decide as He.
    + destruct (Hnk He) as [E0 E1]. right; left. exists 0. split_and!; auto; lia.
    + rewrite decide_False by done. case_decide as Hv0; [| by auto 10].
      right; left. exists (ver_of m l). split_and!; auto; lia.
Qed.

Lemma release_get_inv (srv : S) c :
  let m := vs_abs srv in
  vs_ok srv → 0 ≤ ver_of m l →
  let r := Get_result (vs_Get srv (mkGetArgs l) GetReply_zero) in
  client_inv (val_of m l) (ver_of m l) c (Releasing (release_after_get (lk l id c) r) true).
Proof.
  intros m Hok Hver r. destruct (Get_result_val l srv Hok) as [Hr Hnk]. fold m r in Hr, Hnk.
  destruct r as [[v n] e]. simplify_eq/=. case_decide as He.
  - destruct (Hnk He) as [E0 _]. right; right; left. split; [done |]. rewrite E0.
    intros E. by destruct (Hne c).
  - case_decide as Hv; [by auto |].
    right; left. exists (ver_of m l). split_and!; auto; lia.
Qed.

(** A failed attempt: dropped, or abandoned but still in flight. *)
Lemma inv_retry s c a :
  inv s → attempting (client s c) = Some a →
  inv (mkState (server s) (late s) (<[c := retry (client s c)]> (client s))) ∧
  inv (mkState (server s) ((c, a) :: late s) (<[c := retry (client s c)]> (client s))).
Proof.
  intros Hinv Hatt. pose proof (inv_clients _ _ _ Hinv c) as Hcl.
  assert (PutArgs_Key a = l ∧ client_inv (value s) (version s) c (retry (client s c))) as [Hk Hr].
  { destruct (client s c) as [|[]| |[]]; simplify_eq/=; naive_solver. }
  assert (inv (mkState (server s) (late s) (<[c := retry (client s c)]> (client s)))) as Hi.
  { apply inv_local; [done | done |]. intros a' Ha'. left.
    apply lock_pending_attempting in Ha' as [Ha' _]. by rewrite lock_pending_retry, Ha'. }
  split; [done |]. destruct Hi as [Hok Hver Hval Hcls Hlate]. split; simpl in *; [done | done | done | done |].
  intros c' a' [Heq|Hin]%elem_of_cons; [| by apply Hlate].
  simplify_eq. split; [done |]. right. by rewrite fn_lookup_insert, lock_pending_retry.
Qed.

(** A delivered reply to [Acquire]'s Put: it has the lock, or it checks, or
    it goes round again without it. *)
Lemma acquire_put_inv (srv : S) c v first :
  let m := vs_abs srv in
  let cl := Acquiring (ClerkPut l (id c) v (acquire_after_put (lk l id c))) first in
  vs_ok srv → ver_of m l + 1 < two64 → client_inv (val_of m l) (ver_of m l) c cl →
  let r := vs_Put srv (mkPutArgs l (id c) v) PutReply_zero in
  let m' := vs_abs r.1 in
  client_inv (val_of m' l) (ver_of m' l) c
    (Acquiring (acquire_after_put (lk l id c) (Put_result first r.2)) true).
Proof.
  intros m cl Hok Hnw Hcl r m'.
  destruct (exec_attempt srv c cl (mkPutArgs l (id c) v)) as (_ & _ & _ & _ & _ & Hres); [done.. |].
  fold r m' in Hres. simpl in Hcl, Hres. unfold Put_result.
  destruct Hres as [[-> Hv]|[-> Hv]]; [by simpl; auto 10 |]. destruct first; simpl; [| by auto].
  right; right; right; right. split; [done |]. rewrite Hv. naive_solver.
Qed.

Lemma release_put_inv (srv : S) c v first :
  let m := vs_abs srv in
  let cl := Releasing (ClerkPut l "" v release_after_put) first in
  vs_ok srv → ver_of m l + 1 < two64 → client_inv (val_of m l) (ver_of m l) c cl →
  let r := vs_Put srv (mkPutArgs l "" v) PutReply_zero in
  let m' := vs_abs r.1 in
  client_inv (val_of m' l) (ver_of m' l) c (Releasing (release_after_put (Put_result first r.2)) true).
Proof.
  intros m cl Hok Hnw Hcl r m'.
  destruct (exec_attempt srv c cl (mkPutArgs l "" v)) as (_ & _ & _ & _ & _ & Hres); [done.. |].
  fold r m' in Hres. simpl in Hres. unfold Put_result.
  destruct Hres as [[-> Hv]|[-> Hv]]; simpl.
  - right; right; left. split; [done |]. rewrite Hv. intros E. by destruct (Hne c).
  - by destruct first; simpl; auto.
Qed.

Lemma inv_prog_step s c first p srv z p' first' (acq : bool) :
  let wrap := λ p f, if acq then Acquiring p f else Releasing p f in
  inv s → version s + 1 < two64 → client s c = wrap p first →
  prog_step false c (server s, late s) (p, first) (srv, z) (p', first') →
  inv (mkState srv z (<[c := wrap p' first']> (client s))).
Proof.
  intros wrap Hinv Hnw Hc Hstep. pose proof Hinv as [Hok Hver Hval Hcl Hlate].
  specialize (Hcl c). rewrite Hc in Hcl. unfold KVLock.value, KVLock.version in *.
  inversion Hstep; subst; clear Hstep.
  - apply inv_local; [done | done |]. rewrite Hc. intros a. by destruct acq.
  - apply inv_local; [done | | rewrite Hc; intros a; by destruct acq].
    destruct acq; simpl in Hcl.
    + destruct Hcl as [[[= -> ->] Hv]|[(? & [=] & _)|[[= -> ->]|[[[=] _]|[[=] _]]]]];
        by apply (acquire_get_inv (server s) c Hok Hver).
    + destruct Hcl as [[= -> ->]|[(? & [=] & _)|[[[=] _]|[=]]]].
      by apply (release_get_inv (server s) c Hok Hver).
  - apply (inv_retry s c (mkPutArgs k v n)) in Hinv as [Hi _]; rewrite Hc in *; by destruct acq.
  - apply (inv_retry s c (mkPutArgs k v n)) in Hinv as [_ Hi]; rewrite Hc in *; by destruct acq.
  - apply (inv_exec s c (mkPutArgs k v n)); [done | done | rewrite Hc; by destruct acq | | done].
    destruct (exec_attempt (server s) c (client s c) (mkPutArgs k v n)) as (_ & _ & Hr & _);
      rewrite ?Hc; [done.. | by destruct acq | done |].
    rewrite Hc in Hr. by destruct acq.
  - apply (inv_exec s c (mkPutArgs k v n)); [done | done | rewrite Hc; by destruct acq | | done].
    destruct acq; simpl in Hcl.
    + destruct Hcl as [[[=] _]|[(? & [= -> -> -> ->] & Hrest)|[[=]|[[[=] _]|[[=] _]]]]].
      apply (acquire_put_inv (server s) c _ first Hok Hnw). simpl. eauto 10.
    + destruct Hcl as [[=]|[(? & [= -> -> -> ->] & Hrest)|[[[=] _]|[=]]]].
      apply (release_put_inv (server s) c _ first Hok Hnw). simpl. eauto 10.
Qed.

Lemma inv_late_put s z1 c a z2 :
  inv s → version s + 1 < two64 → late s = z1 ++ (c, a) :: z2 →
  inv (mkState (vs_Put (server s) a PutReply_zero).1 (z1 ++ z2) (client s)).
Proof.
  intros Hinv Hnw Hz. pose proof Hinv as [Hok Hver Hval Hcl Hlate].
  assert (∀ x, x ∈ z1 ++ z2 → x ∈ late s) as Hsub by (rewrite Hz; set_solver).
  destruct (Hlate c a) as [Hk Hd]; [rewrite Hz; set_solver |].
  destruct Hd as [Hd|Hd].
  - destruct a as [k v n]. simpl in Hk, Hd. subst k.
    destruct (vs_Put_cases (server s) l v n Hok) as [Hok' [(Hm & _)|(_ & Habs & _)]];
      [unfold KVLock.version in *; lia |].
    split; unfold KVLock.value, KVLock.version in *; simpl; rewrite ?Habs; auto.
  - destruct (lock_pending_attempting _ _ Hd) as [Hatt Hret].
    destruct (exec_attempt (server s) c (client s c) a) as (_ & _ & Hc & _); [done.. | apply Hcl |].
    rewrite Hret in Hc.
    destruct (inv_exec s c a (client s c) (z1 ++ z2)) as [? ? ? Hcl' Hl']; [done.. |].
    split; simpl in *; [done | done | done | |].
    + intros c'. specialize (Hcl' c'). by rewrite fn_insert_id in Hcl'.
    + intros c' a'. specialize (Hl' c' a'). by rewrite fn_insert_id in Hl'.
Qed.

Lemma lock_inv_step s s' : inv s → version s + 1 < two64 → step l id s s' → inv s'.
Proof.
  intros Hinv Hnw Hstep. pose proof (inv_clients _ _ _ Hinv) as Hcl.
  destruct Hstep as [s c Hc|s c Hc|s c p f srv z p' f' Hc Hp|s c p f srv z p' f' Hc Hp|s c f Hc|s c f Hc
                    |s c f Hc|s c f Hc|s z1 c a z2 Hz|s a Hk].
  3: by apply (inv_prog_step s c f p srv z p' f' true).
  3: by apply (inv_prog_step s c f p srv z p' f' false).
  7: by eapply inv_late_put.
  7: { destruct Hinv as [Hok Hver Hval Hcls Hl]. destruct (other_put (server s) a Hok Hk) as (? & Hv & Hn).
       split; unfold KVLock.value, KVLock.version in *; simpl in *; rewrite ?Hv, ?Hn; done. }
  all: specialize (Hcl c); apply inv_local; [done | |].
  all: try (destruct Hc as [Hc|Hc]); rewrite Hc in *; simpl in *; try naive_solver.
Qed.

Lemma lock_reachable_inv s0 s : inv s0 → rtc (step_nw l id) s0 s → inv s.
Proof. intros Hi Hr. induction Hr as [|s s' s'' [Hs Hw] _ IH]; eauto using lock_inv_step. Qed.

End proofs.

(** ** Progress: the lock can always be obtained

    The continuations below let one client run alone over a network that
    delivers; they are what a client's loop does when left undisturbed. *)
Section progress.
Context {S : Type} `{VStore S}.
Context (l : string) (id : nat → string) `{Hinj : !Inj (=) (=) id} (Hne : ∀ c, id c ≠ "").

Abbreviation value := (value l).
Abbreviation version := (version l).
Abbreviation inv := (inv l id).
Abbreviation step := (step l id).

(** [goes s c s' v n]: a continuation in which only [c] moves, ending with
    the lock's value [v] and at most [n] new versions. *)
Definition goes (s : State) (c : nat) (s' : State) (cl : Client) (v : string) (n : Z) : Prop :=
  rtc step s s' ∧ inv s' ∧ client s' c = cl ∧ value s' = v ∧
  version s ≤ version s' ≤ version s + n ∧ ∀ c', c' ≠ c → client s' c' = client s c'.

Lemma goes_step s c s1 s' cl v n k :
  step s s1 → inv s → version s + 1 < two64 → version s ≤ version s1 ≤ version s + k →
  (∀ c', c' ≠ c → client s1 c' = client s c') →
  (inv s1 → goes s1 c s' cl v n) → goes s c s' cl v (n + k).
Proof.
  intros Hst Hi Hw Hv Ho Hg. destruct Hg as (? & ? & ? & ? & ? & Ho'); [by eapply (lock_inv_step l id Hne) |].
  split_and!; [by eapply rtc_l | done | done | done | lia | lia |].
  intros c' Hc'. by rewrite Ho', Ho.
Qed.

(** A step of [c] alone that leaves the server as it is. *)
Lemma goes_local s c cl1 s' cl v n :
  inv s → version s + 1 < two64 →
  step s (mkState (server s) (late s) (<[c := cl1]> (client s))) →
  (inv (mkState (server s) (late s) (<[c := cl1]> (client s))) →
   goes (mkState (server s) (late s) (<[c := cl1]> (client s))) c s' cl v n) →
  goes s c s' cl v n.
Proof.
  intros Hi Hw Hst Hg. rewrite <- (Z.add_0_r n). eapply goes_step; [done | done | done | | | done].
  - unfold KVLock.version. simpl. lia.
  - intros. simpl. by rewrite fn_lookup_insert_ne.
Qed.

Lemma goes_refl s c cl v n :
  inv s → client s c = cl → value s = v → 0 ≤ n → goes s c s cl v n.
Proof. intros. split_and!; try done; lia. Qed.

Definition can (s : State) (c : nat) (cl : Client) (v : string) (n : Z) : Prop :=
  ∃ s', goes s c s' cl v n.

Lemma can_local s c cl1 cl v n :
  inv s → version s + 1 < two64 →
  step s (mkState (server s) (late s) (<[c := cl1]> (client s))) →
  (∀ s1, inv s1 → server s1 = server s → client s1 c = cl1 → can s1 c cl v n) →
  can s c cl v n.
Proof.
  intros Hi Hw Hst Hk.
  assert (inv (mkState (server s) (late s) (<[c := cl1]> (client s)))) as Hi1
    by (by eapply (lock_inv_step l id Hne)).
  destruct (Hk _ Hi1) as [s' Hs']; [done | simpl; by rewrite fn_lookup_insert |].
  exists s'. by eapply goes_local.
Qed.

(** A delivered Put by [c] whose version is current is accepted. *)
Lemma can_put s c f v k (wrap : Prog → bool → Client) cl v' :
  inv s → version s + 2 < two64 →
  wrap = Acquiring ∨ wrap = Releasing →
  client s c = wrap (ClerkPut l v (version s) k) f →
  (∀ s1, inv s1 → value s1 = v → version s1 = version s + 1 → client s1 c = wrap (k OK) true →
     can s1 c cl v' 0) →
  can s c cl v' 1.
Proof.
  intros Hi Hw Hwrap Hc Hk. pose proof Hi as [Hok Hver _ _ _].
  unfold KVLock.value, KVLock.version in *.
  destruct (vs_Put_cases (server s) l v (ver_of (vs_abs (server s)) l) Hok)
    as [_ [(_ & Herr & Habs)|(? & _)]]; [| done].
  set (r := vs_Put (server s) (mkPutArgs l v (ver_of (vs_abs (server s)) l)) PutReply_zero) in *.
  set (s1 := mkState r.1 (late s) (<[c := wrap (k OK) true]> (client s))).
  assert (Put_result f r.2 = OK) as Hres by (unfold Put_result; by rewrite Herr).
  assert (step s s1) as Hst.
  { unfold s1. rewrite <- Hres.
    destruct Hwrap as [-> | ->]; [eapply acquire_step | eapply release_step]; try done; apply put_replied. }
  assert (inv s1) as Hi1 by (eapply (lock_inv_step l id Hne); [exact Hi | unfold KVLock.version; lia | done]).
  assert (ver_of (vs_abs r.1) l = ver_of (vs_abs (server s)) l + 1) as Hv1.
  { rewrite Habs. unfold ver_of at 1. rewrite lookup_insert_eq. rewrite u64_small; lia. }
  destruct (Hk s1 Hi1) as [s' Hs'].
  - unfold s1. simpl. rewrite Habs. unfold val_of. by rewrite lookup_insert_eq.
  - exact Hv1.
  - simpl. by rewrite fn_lookup_insert.
  - exists s'. change 1 with (0 + 1). eapply (goes_step s c s1); [done | done | | | | done].
    + unfold KVLock.version. lia.
    + unfold KVLock.version, s1. simpl. lia.
    + intros c' Hc'. simpl. by rewrite fn_lookup_insert_ne.
Qed.

(** A delivered Put by [c] with an old version changes nothing. *)
Lemma can_rejected s c f v n k (wrap : Prog → bool → Client) cl v' b :
  inv s → version s + 1 < two64 →
  wrap = Acquiring ∨ wrap = Releasing →
  client s c = wrap (ClerkPut l v n k) f → 0 ≤ n ≤ version s → n ≠ version s →
  (∀ s1, inv s1 → value s1 = value s → version s1 = version s →
     client s1 c = wrap (k (if f then ErrVersion else ErrMaybe)) true → can s1 c cl v' b) →
  can s c cl v' b.
Proof.
  intros Hi Hw Hwrap Hc Hr Hn Hk. pose proof Hi as [Hok Hver _ _ _].
  unfold KVLock.value, KVLock.version in *.
  destruct (vs_Put_cases (server s) l v n Hok) as [_ [(? & _)|(_ & Habs & Herr)]]; [congruence |].
  set (r := vs_Put (server s) (mkPutArgs l v n) PutReply_zero) in *.
  assert (Put_result f r.2 = if f then ErrVersion else ErrMaybe) as Hres.
  { unfold Put_result. rewrite Herr. unfold ver_of in *.
    destruct (vs_abs (server s) !! l) as [[? ?]|]; [done | lia]. }
  set (s1 := mkState r.1 (late s) (<[c := wrap (k (if f then ErrVersion else ErrMaybe)) true]> (client s))).
  assert (step s s1) as Hst.
  { unfold s1. rewrite <- Hres.
    destruct Hwrap as [-> | ->]; [eapply acquire_step | eapply release_step]; try done; apply put_replied. }
  assert (inv s1) as Hi1 by (eapply (lock_inv_step l id Hne); [exact Hi | unfold KVLock.version; lia | done]).
  destruct (Hk s1 Hi1) as [s' Hs']; [by simpl; rewrite Habs.. | simpl; by rewrite fn_lookup_insert |].
  exists s'. rewrite <- (Z.add_0_r b). eapply (goes_step s c s1); [done | done | | | | done].
  - unfold KVLock.version. lia.
  - unfold KVLock.version. simpl. rewrite Habs. lia.
  - intros c' Hc'. simpl. by rewrite fn_lookup_insert_ne.
Qed.

Ltac current := unfold KVLock.value, KVLock.version in *; simpl in *; try congruence; try lia.

Lemma can_weaken s c cl v n n' : can s c cl v n → n ≤ n' → can s c cl v n'.
Proof. intros [s' (? & ? & ? & ? & ? & ?)] ?. exists s'. split_and!; try done; lia. Qed.

Lemma acquired s c f :
  inv s → version s + 1 < two64 → client s c = Acquiring (Done true) f → can s c Holding (id c) 0.
Proof.
  intros Hi Hw Hc. pose proof (inv_clients _ _ _ Hi c) as Hcl. rewrite Hc in Hcl. simpl in Hcl.
  apply (can_local s c Holding); [done | lia | by eapply acquire_returns |].
  intros s1 Hi1 Hsrv Hc1. exists s1. apply goes_refl; [done | done | current | lia].
  pose proof (inv_clients _ _ _ Hi1 c) as Hc2. by rewrite Hc1 in Hc2.
Qed.

(** Alone at the head of its loop with the lock free, [Acquire] returns
    within one iteration. *)
Lemma acquire_free s c f :
  inv s → version s + 2 < two64 → value s = "" →
  client s c = Acquiring (Acquire_body (lk l id c)) f → can s c Holding (id c) 1.
Proof.
  intros Hi Hw Hv Hc. pose proof Hi as [Hok Hver _ _ _].
  destruct (Get_result_val l (server s) Hok) as [Hr Hnk].
  set (r := Get_result (vs_Get (server s) (mkGetArgs l) GetReply_zero)) in *.
  assert (acquire_after_get (lk l id c) r =
          ClerkPut l (id c) (version s) (acquire_after_put (lk l id c))) as Hp.
  { destruct r as [[v n] e]. simplify_eq/=. unfold KVLock.value in Hv. rewrite Hv.
    case_decide as He; [destruct (Hnk He) as [_ Hz]; unfold KVLock.version; by rewrite Hz |].
    rewrite decide_False by (intros E; by destruct (Hne c)). by rewrite decide_True. }
  apply (can_local s c (Acquiring (acquire_after_get (lk l id c) r) true));
    [done | lia | by eapply acquire_step; [exact Hc | apply get_replied] |].
  intros s1 Hi1 Hsrv Hc1. rewrite Hp in Hc1.
  assert (version s1 = version s) as Hvs by (unfold KVLock.version; by rewrite Hsrv).
  rewrite <- Hvs in Hw, Hc1.
  apply (can_put s1 c _ _ _ Acquiring _ _ Hi1 Hw (or_introl eq_refl) Hc1).
  intros s2 Hi2 _ Hv2 Hc2. apply (acquired s2 c true Hi2); [lia | exact Hc2].
Qed.

Lemma acquire_again s c f :
  inv s → version s + 2 < two64 → value s = "" →
  client s c = Acquiring (Done false) f → can s c Holding (id c) 1.
Proof.
  intros Hi Hw Hv Hc.
  eapply can_local; [done | lia | by eapply acquire_loops |].
  intros s1 Hi1 Hsrv Hc1. eapply acquire_free; [done | | | exact Hc1]; unfold KVLock.version, KVLock.value in *;
    by rewrite Hsrv.
Qed.

Lemma acquire_checks s c f :
  inv s → version s + 2 < two64 → value s = "" ∨ value s = id c →
  client s c = Acquiring (ClerkGet l (acquire_check (lk l id c))) f → can s c Holding (id c) 1.
Proof.
  intros Hi Hw Hv Hc. pose proof Hi as [Hok Hver _ _ _].
  destruct (Get_result_val l (server s) Hok) as [Hr _].
  set (r := Get_result (vs_Get (server s) (mkGetArgs l) GetReply_zero)) in *.
  apply (can_local s c (Acquiring (acquire_check (lk l id c) r) true));
    [done | lia | by eapply acquire_step; [exact Hc | apply get_replied] |].
  intros s1 Hi1 Hsrv Hc1. unfold acquire_check in Hc1. rewrite Hr in Hc1. simpl in Hc1.
  assert (version s1 + 2 < two64) as Hw1 by (unfold KVLock.version in *; by rewrite Hsrv).
  case_bool_decide as Hd.
  - eapply can_weaken; [eapply acquired; [done | lia | exact Hc1] | lia].
  - eapply acquire_again; [done | done | | exact Hc1].
    unfold KVLock.value in *. rewrite Hsrv. naive_solver.
Qed.

(** Whatever point of [Acquire] a client is at, if the lock is free or
    already carries its id it can finish. *)
Lemma acquire_finishes s c p f :
  inv s → version s + 2 < two64 → value s = "" ∨ value s = id c →
  client s c = Acquiring p f → can s c Holding (id c) 1.
Proof.
  intros Hi Hw Hv Hc. pose proof Hi as [Hok Hver _ Hcl _]. specialize (Hcl c). rewrite Hc in Hcl.
  destruct Hcl as [[-> Hn]|[(v & -> & Hr & Hz & Hf)|[->|[[-> _]|[-> Hn]]]]].
  - eapply acquire_free; [done.. | naive_solver | exact Hc].
  - destruct (decide (v = version s)) as [->|Hvn].
    + apply (can_put s c _ _ _ Acquiring _ _ Hi Hw (or_introl eq_refl) Hc).
      intros s2 Hi2 _ Hv2 Hc2. apply (acquired s2 c true Hi2); [lia | exact Hc2].
    + apply (can_rejected s c _ _ _ _ Acquiring _ _ _ Hi ltac:(lia) (or_introl eq_refl) Hc Hr Hvn).
      intros s1 Hi1 Hv1 Hn1 Hc1. rewrite <- Hv1 in *. rewrite <- Hn1 in *. destruct f.
      * eapply acquire_again; [done.. | naive_solver | exact Hc1].
      * by eapply acquire_checks.
  - by eapply acquire_checks.
  - eapply can_weaken; [eapply acquired; [done | lia | exact Hc] | lia].
  - eapply acquire_again; [done.. | naive_solver | exact Hc].
Qed.

Lemma released s c f :
  inv s → version s + 1 < two64 → value s = "" →
  client s c = Releasing (Done true) f → can s c Idle "" 0.
Proof.
  intros Hi Hw Hv Hc. apply (can_local s c Idle); [done | lia | by eapply release_returns |].
  intros s1 Hi1 Hsrv Hc1. exists s1. apply goes_refl; [done | done | | lia].
  unfold KVLock.value in *. by rewrite Hsrv.
Qed.

Lemma release_held s c f :
  inv s → version s + 2 < two64 → value s = id c →
  client s c = Releasing (Release_body (lk l id c)) f → can s c Idle "" 1.
Proof.
  intros Hi Hw Hv Hc. pose proof Hi as [Hok Hver _ _ _].
  destruct (Get_result_val l (server s) Hok) as [Hr Hnk].
  set (r := Get_result (vs_Get (server s) (mkGetArgs l) GetReply_zero)) in *.
  assert (release_after_get (lk l id c) r = ClerkPut l "" (version s) release_after_put) as Hp.
  { destruct r as [[v n] e]. simplify_eq/=. unfold KVLock.value in Hv. rewrite Hv in *.
    rewrite decide_False by (intros E; destruct (Hne c); naive_solver).
    rewrite decide_False; [done | naive_solver]. }
  apply (can_local s c (Releasing (release_after_get (lk l id c) r) true));
    [done | lia | by eapply release_step; [exact Hc | apply get_replied] |].
  intros s1 Hi1 Hsrv Hc1. rewrite Hp in Hc1.
  assert (version s1 = version s) as Hvs by (unfold KVLock.version; by rewrite Hsrv).
  rewrite <- Hvs in Hw, Hc1.
  apply (can_put s1 c _ _ _ Releasing _ _ Hi1 Hw (or_intror eq_refl) Hc1).
  intros s2 Hi2 Hv2 Hn2 Hc2. apply (released s2 c true Hi2); [lia | done | exact Hc2].
Qed.

(** A client whose id is in the lock can always finish a release. *)
Lemma release_finishes s c p f :
  inv s → version s + 2 < two64 → value s = id c →
  client s c = Releasing p f → can s c Idle "" 1.
Proof.
  intros Hi Hw Hv Hc. pose proof Hi as [Hok Hver _ Hcl _]. specialize (Hcl c). rewrite Hc in Hcl.
  assert (∀ s1 f1, inv s1 → value s1 = id c → version s1 = version s →
            client s1 c = Releasing (Done false) f1 → can s1 c Idle "" 1) as Hagain.
  { intros s1 f1 Hi1 Hv1 Hn1 Hc1. eapply can_local; [done | lia | by eapply release_loops |].
    intros s2 Hi2 Hsrv Hc2. eapply release_held; [done | | | exact Hc2];
      unfold KVLock.version, KVLock.value in *; rewrite Hsrv; [lia | done]. }
  destruct Hcl as [->|[(v & -> & Hr & Hz)|[[-> Hn]| ->]]]; [by eapply release_held | | done | by eapply Hagain].
  destruct (decide (v = version s)) as [->|Hvn].
  - apply (can_put s c _ _ _ Releasing _ _ Hi Hw (or_intror eq_refl) Hc).
    intros s2 Hi2 Hv2 Hn2 Hc2. apply (released s2 c true Hi2); [lia | done | exact Hc2].
  - apply (can_rejected s c _ _ _ _ Releasing _ _ _ Hi ltac:(lia) (or_intror eq_refl) Hc Hr Hvn).
    intros s1 Hi1 Hv1 Hn1 Hc1. eapply Hagain; [done | congruence | done |]. by destruct f.
Qed.

(** The client whose id is in the lock can be driven to give it up. *)
Lemma lock_freed s c :
  inv s → version s + 4 < two64 → value s = id c → ∃ cl, can s c cl "" 2.
Proof.
  intros Hi Hw Hv. pose proof (inv_clients _ _ _ Hi c) as Hcl.
  assert (∀ s1, inv s1 → version s1 + 2 < two64 → value s1 = id c → client s1 c = Holding →
            can s1 c Idle "" 1) as Hhold.
  { intros s1 Hi1 Hw1 Hv1 Hc1. eapply can_local; [done | lia | eapply start_release; by left |].
    intros s2 Hi2 Hsrv Hc2. eapply release_held; [done | | | exact Hc2];
      unfold KVLock.version, KVLock.value in *; rewrite Hsrv; done. }
  exists Idle. destruct (client s c) as [|p f| |p f] eqn:Hc; simpl in Hcl.
  - done.
  - destruct (acquire_finishes s c p f Hi ltac:(lia) (or_intror Hv) Hc) as [s1 (Hr1 & Hi1 & Hc1 & Hv1 & Hn1 & Ho1)].
    destruct (Hhold s1 Hi1 ltac:(lia) Hv1 Hc1) as [s2 (Hr2 & Hi2 & Hc2 & Hv2 & Hn2 & Ho2)].
    exists s2. split_and!; [by etrans | done | done | done | lia | lia |].
    intros c' Hc'. by rewrite Ho2, Ho1.
  - eapply can_weaken; [eapply Hhold; [done | lia | done | done] | lia].
  - eapply can_weaken; [eapply release_finishes; [done | lia | done | exact Hc] | lia].
Qed.

End progress.

(** C5: mutual exclusion.  Clients with distinct, non-empty ids share one
    lock name.  Start with the key absent, nobody active and nothing in
    flight; let the clients call [Acquire] and [Release] concurrently while
    the network drops requests, loses replies and executes abandoned
    requests late, and while other clients write other keys.  In every
    reachable state at most one client is between the return of its
    [Acquire] and its call of [Release], the server's value for the lock is
    that client's id, and no idle client's id is ever in the lock.  (Runs in
    which the lock's [uint64] version does not wrap around.) *)
Theorem lock_mutual_exclusion {S : Type} `{VStore S} (l : string) (id : nat → string)
    `{Hinj : !Inj (=) (=) id} (Hne : ∀ c, id c ≠ "") (srv : S) (s : State) :
  vs_ok srv → vs_abs srv !! l = None →
  rtc (step_nw l id) (mkState srv [] (λ _, Idle)) s →
  (∀ c1 c2, client s c1 = Holding → client s c2 = Holding → c1 = c2) ∧
  (∀ c, client s c = Holding → value l s = id c) ∧
  (∀ c, client s c = Idle → value l s ≠ id c).
Proof.
  intros Hok Hl Hr. apply (lock_reachable_inv l id Hne) in Hr as [_ _ _ Hcl _]; [| by apply lock_inv_init].
  split_and!.
  - intros c1 c2 H1 H2. pose proof (Hcl c1) as Hc1. pose proof (Hcl c2) as Hc2.
    rewrite H1 in Hc1. rewrite H2 in Hc2. simpl in *. apply (inj id). congruence.
  - intros c Hc. specialize (Hcl c). by rewrite Hc in Hcl.
  - intros c Hc. specialize (Hcl c). by rewrite Hc in Hcl.
Qed.

(** A concrete run: client 0 acquires the lock [l] of a fresh server. *)
Definition ex_id (c : nat) : string := "client-" +:+ pretty c.

#[export] Instance ex_id_inj : Inj (=) (=) ex_id.
Proof. intros a b Hab. apply (inj (String.append "client-")) in Hab. by apply (inj pretty). Qed.

Lemma ex_id_ne c : ex_id c ≠ "".
Proof. done. Qed.

Definition ex_init : State := mkState KVServer.MakeKVServer [] (λ _, Idle).

Lemma ex_acquiring :
  ∃ s, rtc (step_nw "l" ex_id) ex_init s ∧
       client s 0%nat = Acquiring (Acquire_body (lk "l" ex_id 0)) true ∧ version "l" s = 0.
Proof.
  eexists. split; [apply rtc_once; split; [by apply (start_acquire _ _ _ 0%nat) | vm_compute; reflexivity] |].
  simpl. by rewrite fn_lookup_insert.
Qed.

Lemma ex_holding :
  ∃ s, rtc (step_nw "l" ex_id) ex_init s ∧ client s 0%nat = Holding.
Proof.
  eexists. split.
  - eapply rtc_l; [split; [by apply (start_acquire _ _ _ 0%nat) | vm_compute; reflexivity] |].
    eapply rtc_l; [split; [eapply (acquire_step _ _ _ 0%nat); [simpl; by rewrite fn_lookup_insert | apply get_replied]
                          | vm_compute; reflexivity] |].
    eapply rtc_l; [split; [eapply (acquire_step _ _ _ 0%nat); [simpl; by rewrite fn_lookup_insert | apply put_replied]
                          | vm_compute; reflexivity] |].
    apply rtc_once. split; [eapply (acquire_returns _ _ _ 0%nat); simpl; by rewrite fn_lookup_insert
                           | vm_compute; reflexivity].
  - simpl. by rewrite fn_lookup_insert.
Qed.

Lemma lock_mutual_exclusion_witness :
  ∃ s : State, client s 0%nat = Holding ∧ value "l" s = "client-0" ∧
    ∀ c, client s c = Holding → c = 0%nat.
Proof.
  destruct ex_holding as (s & Hr & Hc). exists s.
  destruct (lock_mutual_exclusion (H := KVServer_VStore) "l" ex_id ex_id_ne KVServer.MakeKVServer s
              KVServer.MakeKVServer_wf eq_refl Hr) as (Hex & Hval & _).
  split; [exact Hc | split; [exact (Hval 0%nat Hc) |]]. intros c Hc'. exact (Hex c 0%nat Hc' Hc).
Defined.

(** C33: the lock never gets stuck.  From every state reachable as in C5, in
    which the version counter is not about to wrap, every client that is
    inside [Acquire] has a continuation of the run that makes it the holder:
    lost replies, abandoned requests and [ErrMaybe] answers never leave the
    lock in a state from which nobody can take it. *)
Theorem lock_obtainable {S : Type} `{VStore S} (l : string) (id : nat → string)
    `{Hinj : !Inj (=) (=) id} (Hne : ∀ c, id c ≠ "") (srv : S) (s : State) (c : nat) (p : Prog) (f : bool) :
  vs_ok srv → vs_abs srv !! l = None →
  rtc (step_nw l id) (mkState srv [] (λ _, Idle)) s →
  version l s + 4 < two64 → client s c = Acquiring p f →
  ∃ s', rtc (step l id) s s' ∧ client s' c = Holding ∧ value l s' = id c.
Proof.
  intros Hok Hl Hr Hw Hc. apply (lock_reachable_inv l id Hne) in Hr as Hi; [| by apply lock_inv_init].
  destruct (decide (value l s = "" ∨ value l s = id c)) as [Hv|Hv].
  - destruct (acquire_finishes l id Hne s c p f Hi ltac:(lia) Hv Hc) as [s' (? & _ & ? & ? & _)]. eauto.
  - destruct (inv_value _ _ _ Hi) as [?|[c0 Hv0]]; [naive_solver |].
    destruct (lock_freed l id Hne s c0 Hi Hw Hv0) as [cl [s1 (Hr1 & Hi1 & _ & Hv1 & Hn1 & Ho1)]].
    assert (client s1 c = Acquiring p f) as Hc1 by (rewrite Ho1; [done | naive_solver]).
    destruct (acquire_finishes l id Hne s1 c p f Hi1 ltac:(lia) (or_introl Hv1) Hc1) as [s' (? & _ & ? & ? & _)].
    exists s'. split; [by etrans | done].
Qed.

Lemma lock_obtainable_witness :
  ∃ s' : State, client s' 0%nat = Holding ∧ value "l" s' = "client-0".
Proof.
  destruct ex_acquiring as (s & Hr & Hc & Hv).
  destruct (lock_obtainable (H := KVServer_VStore) "l" ex_id ex_id_ne KVServer.MakeKVServer s 0 _ _
              KVServer.MakeKVServer_wf eq_refl Hr ltac:(rewrite Hv; vm_compute; reflexivity) Hc)
    as (s' & _ & Hs'). exists s'. exact Hs'.
Defined.

End KVLock.
