(* ===== verification/KVTest.v ===== *)
(** * The drivers and checks of the key/value tests: [kvtest1/kvtest.go]

    Clients that append to or overwrite a shared key through the clerk while
    the network loses messages, and the checks made on the result.  The
    drivers are programs over clerk calls ([ClerkProg]); the theorems run any
    number of them against any [VStore] and show that the checks pass: the
    tests accept every correct store. *)

From S2P Require Import Prelude KVServer KVClerk ClerkProg.
#[local] Open Scope Z_scope.

Module KVTest.
Import KVClerk ClerkProg.

(** [encoding/json] for the values the drivers store: marshalling an
    integer struct or a slice of them succeeds and is undone by
    unmarshalling. *)
Class Marshal (A : Type) := {
  marshal : A → option string;
  unmarshal : string → option A;
  unmarshal_marshal : ∀ a, ∃ b, marshal a = Some b ∧ unmarshal b = Some a;
}.

(** An instance: the bits of the code of a countable type. *)
Definition Countable_Marshal (A : Type) `{Countable A} : Marshal A := {|
  marshal a := Some (bits (encode a));
  unmarshal s := decode (unbits s);
  unmarshal_marshal a := ex_intro _ (bits (encode a))
    (conj eq_refl (eq_trans (f_equal decode (unbits_bits (encode a))) (decode_encode a)));
|}.

(** ** Data *)

Record ClntRes := mkClntRes { Nok : Z; Nmaybe : Z }.

Record EntryV := mkEntryV { EV_Id : Z; EV_V : Tversion }.

(** [entry] of the appending clients; [EntryN] of the check has the same
    fields. *)
Record entry := mkEntry { Id : Z; N : Z }.

#[export] Instance entry_eq_dec : EqDecision entry.
Proof. solve_decision. Defined.
#[export] Instance EntryV_eq_dec : EqDecision EntryV.
Proof. solve_decision. Defined.

#[export] Instance entry_countable : Countable entry.
Proof. by apply (inj_countable' (λ e, (Id e, N e)) (λ p, mkEntry p.1 p.2)); intros []. Defined.
#[export] Instance EntryV_countable : Countable EntryV.
Proof. by apply (inj_countable' (λ e, (EV_Id e, EV_V e)) (λ p, mkEntryV p.1 p.2)); intros []. Defined.

(** [Tversion(x)] for an [int]. *)
Definition Tversion_of (x : Z) : Tversion := u64 x.

(** ** Random values *)

Definition letterBytes : string := "abcdefghijklmnopqrstuvwxyzABCDEFGHIJKLMNOPQRSTUVWXYZ".

(** [RandValue(n)], given the [n] results of [rand.Int63]. *)
Definition RandValue (rnds : list Z) : string :=
  String.string_of_list_ascii
    ((λ r, default Ascii.zero (String.get (Z.to_nat (r `mod` Z.of_nat (String.length letterBytes))) letterBytes)) <$> rnds).

Definition MakeKeys (n : nat) : list string := (λ i, "k" +:+ Itoa (Z.of_nat i)) <$> seq 0 n.

(** ** Single calls *)

(** The body of the loop of [PutAtLeastOnce]; the result is the version and
    whether the loop ends. *)
Definition PutAtLeastOnce_body (key value : string) (ver : Tversion) : Prog (Tversion * bool) :=
  ClerkPut key value ver (λ err,
    if decide (err = OK) then Done (u64 (ver + 1), true)
    else if decide (err = ErrMaybe ∨ err = ErrVersion) then Done (u64 (ver + 1), false)
    else if decide (ver ≠ 0) then Fatal else Done (ver, false)).

Definition CheckGet (key value : string) (version : Tversion) : Prog () :=
  ClerkGet key (λ '(val, ver, err),
    if decide (err ≠ OK) then Fatal
    else if decide (val ≠ value ∨ ver ≠ version) then Fatal
    else Done ()).

Section json.
Context {V : Type} `{Marshal V}.

Definition GetJson (key : string) : Prog (V * Tversion) :=
  ClerkGet key (λ '(val, ver, err),
    if decide (err = OK) then
      match unmarshal val with Some v => Done (v, ver) | None => Fatal end
    else Fatal).

Definition PutJson (key : string) (v : V) (ver : Tversion) : Prog Err :=
  match marshal v with
  | None => Fatal
  | Some b => ClerkPut key b ver Done
  end.

(** The body of the loop of [PutAtLeastOnceJson]: the version put is 0
    whatever [ver] is. *)
Definition PutAtLeastOnceJson_body (key : string) (value : V) (ver : Tversion) : Prog (Tversion * bool) :=
  bind (PutJson key value 0) (λ err,
    if decide (err ≠ ErrMaybe) then Done (ver, true) else Done (u64 (ver + 1), false)).

End json.

(** [SpreadPutsSize]: the values are random strings; the errors of the puts
    are ignored. *)
Fixpoint spread_puts (kvs : list (string * string)) : Prog () :=
  match kvs with
  | [] => Done ()
  | (k, v) :: kvs' => ClerkPut k v 0 (λ _, spread_puts kvs')
  end.

Fixpoint spread_checks (kvs : list (string * string)) : Prog () :=
  match kvs with
  | [] => Done ()
  | (k, v) :: kvs' => bind (CheckGet k v 1) (λ _, spread_checks kvs')
  end.

Definition SpreadPutsSize (va : list string) : Prog (list string * list string) :=
  let ka := MakeKeys (length va) in
  bind (spread_puts (zip ka va)) (λ _,
  bind (spread_checks (zip ka va)) (λ _, Done (ka, va))).

(** ** Clients that put to shared keys *)

(** One iteration of the loop of [OnePut]: the version for the next
    iteration and, if the function returns, whether the put was [OK]. *)
Definition OnePut_check (me ver : Z) (err : Err) (r : EntryV * Tversion) : Prog (Tversion * option bool) :=
  let '(e, ver0) := r in
  if decide (err = OK ∧ ver0 = u64 (ver + 1) ∧ EV_Id e ≠ me ∧ EV_V e ≠ ver) then Fatal
  else if decide (err = OK ∨ err = ErrMaybe) then Done (ver0, Some (bool_decide (err = OK)))
  else Done (ver0, None).

Definition OnePut_after `{Marshal EntryV} (me : Z) (key : string) (ver : Tversion) (err : Err) : Prog (Tversion * option bool) :=
  if decide (¬ (err = OK ∨ err = ErrVersion ∨ err = ErrMaybe)) then Fatal
  else bind (GetJson key) (OnePut_check me ver err).

Definition OnePut_body `{Marshal EntryV} (me : Z) (key : string) (ver : Tversion) : Prog (Tversion * option bool) :=
  bind (PutJson key (mkEntryV me ver) ver) (OnePut_after me key ver).

(** The locals of [OneClientPut]; [p_cur] is the key and version of the
    [OnePut] in progress. *)
Record PutLocals := mkPutLocals {
  p_verm : gmap string Tversion;
  p_res : ClntRes;
  p_cur : option (string * Tversion);
}.

Definition OneClientPut_init (ka : list string) : PutLocals :=
  mkPutLocals (foldl (λ m k, <[k := 0]> m) ∅ ka) (mkClntRes 0 0) None.

Definition choose_key (randomkeys : bool) (ka : list string) (rnd : Z) : option string :=
  if randomkeys then ka !! Z.to_nat (rnd `mod` Z.of_nat (length ka)) else ka !! 0%nat.

(** What [OneClientPut] does with the result of [OnePut]. *)
Definition settle (l : PutLocals) (k : string) (r : Tversion * option bool) : Prog PutLocals :=
  let '(ver0, ok) := r in
  match ok with
  | None => Done (mkPutLocals (p_verm l) (p_res l) (Some (k, ver0)))
  | Some ok =>
      let res := p_res l in
      Done (mkPutLocals (<[k := ver0]> (p_verm l))
              (if ok then mkClntRes (int64 (Nok res + 1)) (Nmaybe res)
               else mkClntRes (Nok res) (int64 (Nmaybe res + 1))) None)
  end.

Definition OneClientPut_put `{Marshal EntryV} (cli : Z) (l : PutLocals) (k : string) (ver : Tversion) : Prog PutLocals :=
  bind (OnePut_body cli k ver) (settle l k).

Definition OneClientPut_body `{Marshal EntryV} (randomkeys : bool) (ka : list string) (c : nat) (rnd : Z)
    (l : PutLocals) : Prog PutLocals :=
  match p_cur l with
  | Some (k, ver) => OneClientPut_put (Z.of_nat c) l k ver
  | None =>
      match choose_key randomkeys ka rnd with
      | None => Fatal
      | Some k => OneClientPut_put (Z.of_nat c) l k (map_int (p_verm l) k)
      end
  end.

Definition OneClientPut_stop (l : PutLocals) : option ClntRes :=
  match p_cur l with None => Some (p_res l) | Some _ => None end.

(** [CheckPutConcurrent]: [ver0] is the version [GetJson] returns. *)
Definition sum_res (rs : list ClntRes) (res : ClntRes) : ClntRes :=
  foldl (λ r x, mkClntRes (int64 (Nok r + Nok x)) (int64 (Nmaybe r + Nmaybe x))) res rs.

Definition CheckPutConcurrent `{Marshal EntryV} (key : string) (rs : list ClntRes) (res : ClntRes) (reliable : bool) : Prog ClntRes :=
  bind (GetJson (V := EntryV) key) (λ '(_, ver0),
  let res := sum_res rs res in
  if reliable then
    if decide (ver0 ≠ Tversion_of (Nok res)) then Fatal else Done res
  else if decide (Tversion_of (int64 (Nok res + Nmaybe res)) < ver0) then Fatal else Done res).

(** ** Clients that append to a shared key *)

(** The locals of [OneClientAppend]; [a_top] is false inside the loop that
    repeats the current append. *)
Record AppLocals := mkAppLocals { a_i : Z; a_nok : Z; a_nmay : Z; a_top : bool }.

Definition after_append (l : AppLocals) (err : Err) : Prog AppLocals :=
  if decide (err = OK) then Done (mkAppLocals (int64 (a_i l + 1)) (int64 (a_nok l + 1)) (a_nmay l) true)
  else if decide (err = ErrMaybe) then Done (mkAppLocals (int64 (a_i l + 1)) (a_nok l) (int64 (a_nmay l + 1)) true)
  else Done (mkAppLocals (a_i l) (a_nok l) (a_nmay l) false).

Definition OneClientAppend_body `{Marshal (list entry)} (c : nat) (rnd : Z) (l : AppLocals) : Prog AppLocals :=
  bind (GetJson "k") (λ '(es, ver),
  bind (PutJson "k" (es ++ [mkEntry (Z.of_nat c) (a_i l)]) ver) (after_append l)).

Definition OneClientAppend_stop (l : AppLocals) : option ClntRes :=
  if a_top l then Some (mkClntRes (a_nok l) (a_nmay l)) else None.

(** The loop of [CheckAppends] over the entries. *)
Fixpoint check_entries (es : list entry) (expect skipped : gmap Z Z) : GoRes (gmap Z Z * gmap Z Z) :=
  match es with
  | [] => Ret (expect, skipped)
  | e :: es' =>
      let x := map_int expect (Id e) in
      if decide (N e < x) then Abort "wrong expecting"
      else if decide (x = N e) then check_entries es' (<[Id e := int64 (x + 1)]> expect) skipped
      else
        let s := int64 (N e - x) in
        check_entries es' (<[Id e := int64 (N e + 1)]> expect)
          (<[Id e := int64 (map_int skipped (Id e) + s)]> skipped)
  end.

(** The second loop, over the pairs of [expect] in the order of the map. *)
Fixpoint check_clients (pairs : list (Z * Z)) (skipped : gmap Z Z) (rs : list ClntRes) : GoRes () :=
  match pairs with
  | [] => Ret ()
  | (c, n) :: pairs' =>
      if decide (c < 0) then Abort "index out of range" else
      (let* r := deref (rs !! Z.to_nat c) "index out of range" in
       if decide (Nmaybe r < map_int skipped c) then Abort "skipped puts"
       else if decide (int64 (Nok r + Nmaybe r) < n) then Abort "puts on server > ok+maybe"
       else check_clients pairs' skipped rs)%go
  end.

(** [CheckAppends]; [order] is the order in which [expect] is iterated. *)
Definition CheckAppends (order : gmap Z Z → list (Z * Z)) (es : list entry) (nclnt : nat) (rs : list ClntRes)
    (ver : Tversion) : GoRes () :=
  let zeros := foldl (λ m i, <[Z.of_nat i := 0]> m) ∅ (seq 0 nclnt) in
  (let* (expect, skipped) := check_entries es zeros zeros in
   if decide (int64 (Z.of_nat (length es) + 1) ≠ int64 ver) then Abort "appends in val != puts on server"
   else check_clients (order expect) skipped rs)%go.

(** ** What [CheckAppends] establishes *)

(** The numbers client [c] appended, in the order of the value. *)
Definition mine (c : Z) (es : list entry) : list Z := N <$> filter (λ e, Id e = c) es.

(** [ns] is increasing and starts at [x] or later; [end_of x ns] is the
    number that would follow it. *)
Fixpoint increasing (x : Z) (ns : list Z) : Prop :=
  match ns with
  | [] => True
  | n :: ns' => x ≤ n ∧ increasing (n + 1) ns'
  end.
Definition end_of (x : Z) (ns : list Z) : Z := foldl (λ _ n, n + 1) x ns.

Lemma mine_cons c e es : mine c (e :: es) = if decide (Id e = c) then N e :: mine c es else mine c es.
Proof. unfold mine. rewrite filter_cons. by case_decide. Qed.

Lemma mine_snoc c es e :
  mine c (es ++ [e]) = if decide (Id e = c) then mine c es ++ [N e] else mine c es.
Proof.
  unfold mine. rewrite filter_app, fmap_app, filter_cons. case_decide; simpl; [done | by rewrite app_nil_r].
Qed.

Lemma end_of_ge x ns : increasing x ns → x + Z.of_nat (length ns) ≤ end_of x ns.
Proof.
  revert x. induction ns as [|n ns IH]; intros x; simpl; [unfold end_of; simpl; lia |].
  intros [Hx Hi]. specialize (IH _ Hi). unfold end_of in *. simpl. lia.
Qed.

Lemma end_of_le x ns b : increasing x ns → x ≤ b → Forall (λ n, n < b) ns → end_of x ns ≤ b.
Proof.
  revert x. induction ns as [|n ns IH]; intros x; simpl; [unfold end_of; simpl; lia |].
  intros [Hx Hi] Hb [Hn Hns]%Forall_cons. unfold end_of in *. simpl. apply IH; [done | lia | done].
Qed.

Lemma increasing_snoc x ns n :
  increasing x (ns ++ [n]) ↔ increasing x ns ∧ end_of x ns ≤ n.
Proof.
  revert x. induction ns as [|m ns IH]; intros x; simpl; unfold end_of in *; simpl; [tauto |].
  rewrite IH. tauto.
Qed.

Lemma end_of_snoc x ns n : end_of x (ns ++ [n]) = n + 1.
Proof. unfold end_of. by rewrite foldl_app. Qed.

(** Entries whose numbers are far from the width of an [int]. *)
Definition two62 : Z := 4611686018427387904.
Definition small (es : list entry) : Prop := Forall (λ e, 0 ≤ N e < two62) es.

Lemma map_int_insert (m : gmap Z Z) k x k' :
  map_int (<[k := x]> m) k' = if decide (k = k') then x else map_int m k'.
Proof.
  unfold map_int. case_decide as Hk; [subst; by rewrite lookup_insert_eq | by rewrite lookup_insert_ne].
Qed.

(** The first loop finds the entries of some client out of order, or counts
    for every client where its numbers end and how many are missing. *)
Lemma check_entries_spec es ex sk :
  small es → (∀ c, 0 ≤ map_int sk c ≤ map_int ex c ∧ map_int ex c ≤ two62) →
  ((¬ ∀ c, increasing (map_int ex c) (mine c es)) ∧ ∃ msg, check_entries es ex sk = Abort msg) ∨
  ((∀ c, increasing (map_int ex c) (mine c es)) ∧
   ∃ ex' sk', check_entries es ex sk = Ret (ex', sk') ∧
     (∀ c, map_int ex' c = end_of (map_int ex c) (mine c es) ∧
           map_int sk' c = map_int sk c + (map_int ex' c - map_int ex c) - Z.of_nat (length (mine c es))) ∧
     (∀ c, is_Some (ex' !! c) ↔ is_Some (ex !! c) ∨ ∃ e, e ∈ es ∧ Id e = c)).
Proof.
  revert ex sk. induction es as [|e es IH]; intros ex sk Hs Hb; simpl.
  { right. split; [done |]. exists ex, sk. split_and!; [done | |].
    2: { intros c. split; [by left |]. intros [?|(? & ?%not_elem_of_nil & _)]; done. }
    intros c. unfold end_of. simpl. lia. }
  apply Forall_cons in Hs as [He Hs]. pose proof (Hb (Id e)) as Hbe.
  case_decide as Hlt.
  { left. split; [| eauto]. intros Hall. specialize (Hall (Id e)). rewrite mine_cons, decide_True in Hall by done.
    simpl in Hall. lia. }
  set (ex1 := <[Id e := N e + 1]> ex).
  set (sk1 := <[Id e := map_int sk (Id e) + (N e - map_int ex (Id e))]> sk).
  assert (∃ sk2, (∀ c, map_int sk2 c = map_int sk1 c) ∧
    (if decide (map_int ex (Id e) = N e) then check_entries es (<[Id e := int64 (map_int ex (Id e) + 1)]> ex) sk
     else check_entries es (<[Id e := int64 (N e + 1)]> ex) (<[Id e := int64 (map_int sk (Id e) + int64 (N e - map_int ex (Id e)))]> sk))
    = check_entries es ex1 sk2) as (sk2 & Hsk2 & ->).
  { unfold ex1, sk1, two62 in *. case_decide as Heq.
    - exists sk. split; [| rewrite int64_small by (unfold two63; lia); by rewrite Heq].
      intros c. rewrite map_int_insert. case_decide; [subst c; lia | done].
    - eexists. split; [intros c; reflexivity |]. by rewrite !int64_small by (rewrite ?int64_small; unfold two63; lia). }
  assert (∀ c, increasing (map_int ex c) (mine c (e :: es)) ↔ increasing (map_int ex1 c) (mine c es)) as Hinc.
  { intros c. unfold ex1. rewrite mine_cons, map_int_insert. case_decide as Hc; [| done]. subst c. simpl. split; [tauto |].
    intros ?. split; [lia | done]. }
  destruct (IH ex1 sk2 Hs) as [[Hno Hab]|(Hall & ex' & sk' & Hr & Hc & Hd)].
  { intros c. rewrite Hsk2. unfold ex1, sk1. rewrite !map_int_insert. specialize (Hb c). case_decide; [subst c |]; unfold two62 in *; lia. }
  - left. split; [| done]. intros Hall. apply Hno. intros c. by apply Hinc.
  - right. split; [intros c; by apply Hinc |]. exists ex', sk'. split_and!; [done | |].
    + intros c. destruct (Hc c) as [-> ->]. rewrite Hsk2. unfold ex1, sk1. rewrite mine_cons, !map_int_insert.
      case_decide as Hce; [subst c; simpl; unfold end_of; simpl; split; [done | lia] | split; [done | lia]].
    + intros c. rewrite Hd. unfold ex1. rewrite lookup_insert_is_Some. setoid_rewrite elem_of_cons.
      destruct (decide (Id e = c)); naive_solver.
Qed.

Lemma check_clients_spec pairs sk rs :
  Forall (λ r, 0 ≤ Nok r ∧ 0 ≤ Nmaybe r ∧ Nok r + Nmaybe r < two63) rs →
  returns (check_clients pairs sk rs) ↔
  ∀ c n, (c, n) ∈ pairs → 0 ≤ c ∧ ∃ r, rs !! Z.to_nat c = Some r ∧ map_int sk c ≤ Nmaybe r ∧ n ≤ Nok r + Nmaybe r.
Proof.
  intros Hrs. induction pairs as [|[c n] pairs IH]; simpl.
  { split; [intros _ ? ? ?%not_elem_of_nil; done | by exists ()]. }
  assert ((∀ c' n', (c', n') ∈ (c, n) :: pairs → 0 ≤ c' ∧ ∃ r, rs !! Z.to_nat c' = Some r ∧ map_int sk c' ≤ Nmaybe r ∧ n' ≤ Nok r + Nmaybe r) ↔
    (0 ≤ c ∧ ∃ r, rs !! Z.to_nat c = Some r ∧ map_int sk c ≤ Nmaybe r ∧ n ≤ Nok r + Nmaybe r) ∧ returns (check_clients pairs sk rs)) as ->.
  { rewrite IH. setoid_rewrite elem_of_cons. naive_solver. }
  case_decide as Hc; [split; [by intros [? ?] | lia] |].
  destruct (rs !! Z.to_nat c) as [r|] eqn:Hr; simpl; [| split; [by intros [? ?] | naive_solver]].
  assert (int64 (Nok r + Nmaybe r) = Nok r + Nmaybe r) as ->.
  { rewrite Forall_forall in Hrs. specialize (Hrs r (list_elem_of_lookup_2 _ _ _ Hr)).
    apply int64_small. unfold two62, two63 in *. lia. }
  repeat case_decide; (split; [| intros [(_ & r' & [= <-] & ?) ?]; try lia; try done]).
  1, 2: by intros [? ?].
  intros ?. split; [| done]. split; [lia |]. exists r. split_and!; [done | lia | lia].
Qed.

(** The value a test of concurrent appends may end with. *)
Definition appends_ok (es : list entry) (rs : list ClntRes) (ver : Tversion) : Prop :=
  (∀ c, increasing 0 (mine c es)) ∧
  (∀ e, e ∈ es → 0 ≤ Id e < Z.of_nat (length rs)) ∧
  Z.of_nat (length es) + 1 = ver ∧
  ∀ (c : nat) r, rs !! c = Some r →
    let ns := mine (Z.of_nat c) es in
    end_of 0 ns - Z.of_nat (length ns) ≤ Nmaybe r ∧ end_of 0 ns ≤ Nok r + Nmaybe r.

Lemma zeros_spec n (m := foldl (λ m i, <[Z.of_nat i := 0]> m) (∅ : gmap Z Z) (seq 0 n)) :
  (∀ c, map_int m c = 0) ∧ ∀ c, is_Some (m !! c) ↔ 0 ≤ c < Z.of_nat n.
Proof.
  subst m. induction n as [|n [IH1 IH2]].
  { split; [done |]. intros c. simpl. rewrite lookup_empty. split; [by intros [? ?] | lia]. }
  rewrite seq_S, foldl_app. simpl. split; intros c.
  - rewrite map_int_insert, IH1. by case_decide.
  - rewrite lookup_insert_is_Some, IH2. lia.
Qed.

Lemma CheckAppends_returns order es rs ver :
  (∀ m, order m ≡ₚ map_to_list m) → small es → Z.of_nat (length es) < two62 → 0 ≤ ver < two64 →
  Forall (λ r, 0 ≤ Nok r ∧ 0 ≤ Nmaybe r ∧ Nok r + Nmaybe r < two63) rs →
  returns (CheckAppends order es (length rs) rs ver) ↔ appends_ok es rs ver.
Proof.
  intros Hord Hs Hl Hv Hrs. unfold CheckAppends, appends_ok.
  destruct (zeros_spec (length rs)) as [Hz Hzd]. set (m := foldl _ _ _) in *.
  destruct (check_entries_spec es m m Hs) as [[Hno [msg Hab]]|(Hall & ex & sk & Hr & Hc & Hd)].
  { intros c. rewrite Hz. unfold two62. lia. }
  { rewrite Hab. simpl. split; [by intros [? ?] |]. intros [Hall _]. destruct Hno. intros c. rewrite Hz. apply Hall. }
  rewrite Hr. simpl. setoid_rewrite Hz in Hall.
  assert (int64 (Z.of_nat (length es) + 1) = Z.of_nat (length es) + 1) as -> by (apply int64_small; unfold two62, two63 in *; lia).
  assert (Z.of_nat (length es) + 1 = int64 ver ↔ Z.of_nat (length es) + 1 = ver) as Hver.
  { destruct (decide (ver < two63)); [by rewrite int64_small by (unfold two63 in *; lia) |].
    assert (int64 ver < 0); [| unfold two62, two63 in *; lia]. unfold int64.
    assert ((ver + two63) `mod` two64 = ver + two63 - two64) as ->; [| unfold two63, two64 in *; lia].
    symmetry. apply (Z.mod_unique_pos _ _ 1); unfold two63, two64 in *; lia. }
  case_decide as Hlen; [split; [by intros [? ?] | naive_solver] |]. rewrite Hver in Hlen.
  rewrite check_clients_spec by done. setoid_rewrite (Hord ex). setoid_rewrite elem_of_map_to_list.
  assert (∀ c n, ex !! c = Some n → n = end_of 0 (mine c es) ∧ map_int sk c = n - Z.of_nat (length (mine c es))) as Hval.
  { intros c n Hn. destruct (Hc c) as [H1 H2]. rewrite Hz in H1, H2.
    assert (map_int ex c = n) as Hex by (unfold map_int; by rewrite Hn). rewrite Hex in H1, H2. split; [done | lia]. }
  split.
  - intros Hp. split_and!; [done | | done |].
    + intros e He. destruct (proj2 (Hd (Id e))) as [n Hn]; [eauto |].
      destruct (Hp _ _ Hn) as (H0 & r & Hr' & _). apply lookup_lt_Some in Hr'. lia.
    + intros c r Hr'. destruct (proj2 (Hd (Z.of_nat c))) as [n Hn].
      { left. apply Hzd. apply lookup_lt_Some in Hr'. lia. }
      destruct (Hp _ _ Hn) as (_ & r' & Hr'' & Hsk & Hok). rewrite Nat2Z.id in Hr''. simplify_eq.
      destruct (Hval _ _ Hn) as [-> Heq]. lia.
  - intros (_ & Hids & _ & Hres) c n Hn.
    assert (0 ≤ c < Z.of_nat (length rs)) as Hcr.
    { apply mk_is_Some, Hd in Hn as [Hn%Hzd|(e & He & <-)]; [done | by apply Hids]. }
    split; [lia |]. destruct (lookup_lt_is_Some_2 rs (Z.to_nat c)) as [r Hr']; [lia |]. exists r.
    specialize (Hres _ _ Hr'). simpl in Hres. rewrite Z2Nat.id in Hres by lia.
    destruct (Hval _ _ Hn) as [-> Heq]. split_and!; [done | lia | lia].
Qed.

(** ** Concurrent appends *)

Section appends.
Context `{Marshal (list entry)} (n : nat).
Implicit Types (es : list entry) (l : AppLocals) (m : gmap string (string * Tversion)).

Abbreviation AClient := (Client AppLocals ClntRes).

(** The counters of client [c] against its entries in the value. *)
Definition tally es (c : nat) (i nok nmay : Z) : Prop :=
  increasing 0 (mine (Z.of_nat c) es) ∧ end_of 0 (mine (Z.of_nat c) es) ≤ i ∧
  i = nok + nmay ∧ 0 ≤ nmay ∧ 0 ≤ nok ≤ Z.of_nat (length (mine (Z.of_nat c) es)).

(** A put of [esr] and the client's next entry, with the version of [esr]:
    not executed so far, or executed without the client knowing. *)
Definition putting es (c : nat) l (first : bool) (esr : list entry) : Prop :=
  (tally es c (a_i l) (a_nok l) (a_nmay l) ∧ (length esr ≤ length es)%nat ∧ (length esr = length es → esr = es)) ∨
  (first = false ∧ tally es c (a_i l + 1) (a_nok l + 1) (a_nmay l) ∧ (length esr < length es)%nat ∧ 0 ≤ a_nok l).

Definition append_inv es (c : nat) (cl : AClient) : Prop :=
  match cl with
  | Finished r => ∃ i, i ≤ two62 ∧ tally es c i (Nok r) (Nmaybe r)
  | Running p first => ∃ l,
      (p = Done l ∧ a_i l ≤ two62 ∧ tally es c (a_i l) (a_nok l) (a_nmay l)) ∨
      (p = OneClientAppend_body c 0 l ∧ a_i l < two62 ∧ tally es c (a_i l) (a_nok l) (a_nmay l)) ∨
      (∃ b esr, p = ClerkPut "k" b (Z.of_nat (length esr) + 1) (after_append l) ∧ a_i l < two62 ∧
         unmarshal b = Some (esr ++ [mkEntry (Z.of_nat c) (a_i l)]) ∧ putting es c l first esr)
  end.

Record appends_at m (cl : nat → AClient) es : Prop := {
  ai_store : ∃ b, m !! "k" = Some (b, Z.of_nat (length es) + 1) ∧ unmarshal b = Some es;
  ai_ids : Forall (λ e, 0 ≤ Id e < Z.of_nat n ∧ 0 ≤ N e < two62) es;
  ai_clients : ∀ c, append_inv es c (cl c);
  ai_idle : ∀ c, (n ≤ c)%nat → cl c = Finished (mkClntRes 0 0);
}.

Definition appends_inv m (cl : nat → AClient) : Prop := ∃ es, appends_at m cl es.

(** Before an iteration no client has made 2^62 appends. *)
Definition appends_small m (cl : nat → AClient) : Prop :=
  ∀ c l f, cl c = Running (Done l) f → a_i l < two62.

Lemma appends_ver m cl es : appends_at m cl es → ver_of m "k" = Z.of_nat (length es) + 1.
Proof. intros [(b & Hb & _) _ _ _]. unfold ver_of. by rewrite Hb. Qed.

(** An entry of another client does not matter to a client. *)
Lemma append_inv_other es c c' i cl :
  c' ≠ c → append_inv es c' cl → append_inv (es ++ [mkEntry (Z.of_nat c) i]) c' cl.
Proof.
  intros Hne. assert (mine (Z.of_nat c') (es ++ [mkEntry (Z.of_nat c) i]) = mine (Z.of_nat c') es) as Hm.
  { rewrite mine_snoc. simpl. rewrite decide_False by lia. done. }
  unfold append_inv, putting, tally. rewrite Hm, length_app. simpl.
  destruct cl as [p first|r]; [| done]. intros (l & Hl). exists l.
  destruct Hl as [?|[?|(b & esr & Hp & Hi & Hu & Hput)]]; [by left | by right; left |].
  right; right. exists b, esr. split_and!; [done.. |].
  destruct Hput as [(Ht & Hle & _)|(Hf & Ht & Hlt & H0)]; [left | right].
  all: split_and!; try tauto; lia.
Qed.

Lemma appends_update m cl es c cl' p first :
  appends_at m cl es → cl c = Running p first → append_inv es c cl' → appends_at m (<[c := cl']> cl) es.
Proof.
  intros [Hst Hids Hcl Hidle] Hc Hc'. split; [done | done | |].
  - intros c1. destruct (decide (c1 = c)) as [->|Hne]; [by rewrite fn_lookup_insert | by rewrite fn_lookup_insert_ne].
  - intros c1 Hn. rewrite fn_lookup_insert_ne; [by apply Hidle |]. intros ->. rewrite Hidle in Hc; done.
Qed.

(** The put of client [c] is accepted: its entry is appended. *)
Lemma appends_accept m cl es c k v f first :
  appends_at m cl es → cl c = Running (ClerkPut k v (ver_of m k) f) first →
  ∃ l, f = after_append l ∧ k = "k" ∧ 0 ≤ a_i l < two62 ∧
    tally es c (a_i l) (a_nok l) (a_nmay l) ∧
    let es' := es ++ [mkEntry (Z.of_nat c) (a_i l)] in
    tally es' c (a_i l + 1) (a_nok l + 1) (a_nmay l) ∧
    append_inv es' c (Running (ClerkPut k v (ver_of m k) f) false) ∧
    ∀ cl', append_inv es' c cl' → appends_at (<[k := (v, ver_of m k + 1)]> m) (<[c := cl']> cl) es'.
Proof.
  intros Hat Hc. pose proof Hat as [(b & Hb & Hub) Hids Hcl Hidle]. pose proof (Hcl c) as Hcc. rewrite Hc in Hcc.
  destruct Hcc as (l & [(? & _)|[(? & _)|(b' & esr & Heq & Hi & Hu & Hput)]]); [done.. |].
  injection Heq as -> -> Hver ->. rewrite (appends_ver _ _ _ Hat) in Hver |- *.
  destruct Hput as [(Ht & _ & Hsame)|(_ & _ & Hlt & _)]; [| lia]. rewrite Hsame in * by lia. clear esr Hsame Hver.
  pose proof Ht as (Hinc & Hend & Hsum & Hmay & Hok).
  assert (0 ≤ a_i l) as H0 by (pose proof (end_of_ge 0 _ Hinc); lia).
  set (es' := es ++ [mkEntry (Z.of_nat c) (a_i l)]).
  assert (mine (Z.of_nat c) es' = mine (Z.of_nat c) es ++ [a_i l]) as Hm.
  { unfold es'. rewrite mine_snoc. simpl. by rewrite decide_True. }
  assert (tally es' c (a_i l + 1) (a_nok l + 1) (a_nmay l)) as Ht'.
  { unfold tally. rewrite Hm, increasing_snoc, end_of_snoc, length_app. simpl. split_and!; try done; lia. }
  exists l. split; [done |]. split; [done |]. split; [lia |]. split; [done |]. split; [done |]. split.
  - exists l. right; right. exists b', es. split_and!; [done.. |]. right. unfold es'. rewrite length_app. simpl.
    split; [done |]. split; [done |]. lia.
  - intros cl' Hcl'. split.
    + exists b'. rewrite lookup_insert_eq. unfold es'. rewrite length_app. simpl. split; [| done]. do 2 f_equal. lia.
    + apply Forall_app. split; [done |]. apply Forall_singleton. simpl. split; [| lia].
      destruct (decide (c < n)%nat); [lia |]. rewrite Hidle in Hc by lia. done.
    + intros c1. destruct (decide (c1 = c)) as [->|Hne]; [by rewrite fn_lookup_insert |].
      rewrite fn_lookup_insert_ne by done. by apply append_inv_other.
    + intros c1 Hn. rewrite fn_lookup_insert_ne; [by apply Hidle |]. intros ->. rewrite Hidle in Hc; done.
Qed.

Lemma after_append_OK es c l :
  0 ≤ a_i l < two62 → tally es c (a_i l + 1) (a_nok l + 1) (a_nmay l) →
  append_inv es c (Running (after_append l OK) true).
Proof.
  intros Hi Ht. unfold after_append. simpl. eexists. left. split; [done |]. simpl.
  pose proof Ht as (_ & _ & Hs & Hm & Hn). rewrite !int64_small by (unfold two62, two63 in *; lia). split; [lia | done].
Qed.

(** The answer to a put that the server rejects. *)
Lemma after_append_reject es c l first esr :
  a_i l < two62 → putting es c l first esr →
  append_inv es c (Running (after_append l (if first then ErrVersion else ErrMaybe)) true).
Proof.
  intros Hi Hput. destruct first; unfold after_append; simpl.
  - destruct Hput as [(Ht & _)|(? & _)]; [| done]. eexists. left. split; [done |]. simpl. split; [lia | done].
  - assert (tally es c (a_i l + 1) (a_nok l) (a_nmay l + 1)) as Ht.
    { unfold putting, tally in *. destruct Hput as [(Ht & _)|(_ & Ht & _ & ?)];
        destruct Ht as (? & ? & ? & ? & ? & ?); split_and!; tauto || lia. }
    pose proof Ht as (Hinc & Hend & Hs & Hm & Hn). pose proof (end_of_ge 0 _ Hinc).
    eexists. left. split; [done |]. simpl. rewrite !int64_small by (unfold two62, two63 in *; lia). split; [lia | done].
Qed.

(** A client whose program is a clerk call is in the corresponding place. *)
Lemma append_putting m cl es c k v x f first :
  appends_at m cl es → cl c = Running (ClerkPut k v x f) first →
  ∃ l esr, f = after_append l ∧ k = "k" ∧ x = Z.of_nat (length esr) + 1 ∧ a_i l < two62 ∧
    (length esr ≤ length es)%nat ∧
    unmarshal v = Some (esr ++ [mkEntry (Z.of_nat c) (a_i l)]) ∧ putting es c l first esr.
Proof.
  intros [_ _ Hcl _] Hc. specialize (Hcl c). rewrite Hc in Hcl.
  destruct Hcl as (l & [(? & _)|[(? & _)|(b' & esr & Heq & Hi & Hu & Hput)]]); [done.. |].
  simplify_eq. exists l, esr. split_and!; try done. destruct Hput as [(_ & ? & _)|(_ & _ & ? & _)]; lia.
Qed.

Lemma append_retry m cl es c k v x f first :
  appends_at m cl es → cl c = Running (ClerkPut k v x f) first →
  append_inv es c (Running (ClerkPut k v x f) false).
Proof.
  intros Hat Hc. destruct (append_putting _ _ _ _ _ _ _ _ _ Hat Hc) as (l & esr & -> & -> & -> & Hi & _ & Hu & Hput).
  exists l. right; right. exists v, esr. split_and!; try done. unfold putting in *. tauto.
Qed.

Lemma append_got m cl es c l :
  appends_at m cl es → a_i l < two62 → tally es c (a_i l) (a_nok l) (a_nmay l) →
  ∃ F, OneClientAppend_body c 0 l = ClerkGet "k" F ∧ append_inv es c (Running (F (got m "k")) true).
Proof.
  intros [(b & Hb & Hu) _ _ _] Hi Ht. eexists. split; [reflexivity |].
  unfold got. rewrite Hb. simpl. rewrite Hu. simpl. unfold PutJson.
  destruct (unmarshal_marshal (es ++ [mkEntry (Z.of_nat c) (a_i l)])) as (b' & -> & Hu'). simpl.
  exists l. right; right. exists b', es. split_and!; [done.. |]. left. split; [done |]. split; [lia | done].
Qed.

Lemma appends_ClerkInv reliable :
  ClerkInv reliable OneClientAppend_body OneClientAppend_stop appends_small appends_inv.
Proof.
  split.
  - intros m cl cl' Heq (es & [Hst Hids Hcl Hidle]). exists es. split; [done.. | |]; intros c; rewrite <- Heq; auto.
  - intros m cl c a (es & Hat) Ha. destruct (cl c) as [[| | |k v x f] first|] eqn:Hc; try done. injection Ha as <-.
    destruct (append_putting _ _ _ _ _ _ _ _ _ Hat Hc) as (l & esr & _ & -> & -> & _ & Hle & _). simpl.
    rewrite (appends_ver _ _ _ Hat). lia.
  - intros m cl c a _ (es & Hat) Ha. destruct (cl c) as [[| | |k v x f] first|] eqn:Hc; try done. exists es.
    eapply appends_update; [done.. |]. by eapply append_retry.
  - intros m cl c k v f first _ _ (es & Hat) Hc.
    destruct (appends_accept _ _ _ _ _ _ _ _ Hat Hc) as (l & _ & _ & _ & _ & _ & Hr & Hup).
    eexists. rewrite Hc. by apply Hup.
  - intros m cl c k v f first _ (es & Hat) Hc.
    destruct (appends_accept _ _ _ _ _ _ _ _ Hat Hc) as (l & -> & _ & Hi & _ & Ht & _ & Hup).
    eexists. apply Hup. by apply after_append_OK.
  - intros m cl c k v x f first _ (es & Hat) Hc _ _.
    destruct (append_putting _ _ _ _ _ _ _ _ _ Hat Hc) as (l & esr & -> & _ & _ & Hi & _ & _ & Hput).
    exists es. eapply appends_update; [done.. |]. by eapply after_append_reject.
  - intros m cl c k f first _ (es & Hat) Hc. exists es. eapply appends_update; [done.. |].
    pose proof (ai_clients _ _ _ Hat c) as Hcc. rewrite Hc in Hcc.
    destruct Hcc as (l & [(? & _)|[(Hp & Hi & Ht)|(? & ? & ? & _)]]); [done | | done].
    destruct (append_got m cl es c l Hat Hi Ht) as (F & HF & Hinv). rewrite <- Hp in HF. by simplify_eq.
  - intros m cl c l first rnd Hs (es & Hat) Hc. exists es. eapply appends_update; [done.. |].
    pose proof (ai_clients _ _ _ Hat c) as Hcc. rewrite Hc in Hcc.
    destruct Hcc as (l' & [(Hp & Hi & Ht)|[(? & _)|(? & ? & ? & _)]]); [| done..]. injection Hp as <-.
    exists l. right; left. split; [done |]. split; [by eapply Hs | done].
  - intros m cl c l first r _ (es & Hat) Hc Hr. exists es. eapply appends_update; [done.. |].
    pose proof (ai_clients _ _ _ Hat c) as Hcc. rewrite Hc in Hcc.
    destruct Hcc as (l' & [(Hp & Hi & Ht)|[(? & _)|(? & ? & ? & _)]]); [| done..]. injection Hp as <-.
    unfold OneClientAppend_stop in Hr. destruct (a_top l); simplify_eq. by exists (a_i l).
Qed.

Lemma mine_increasing es (cl : nat → AClient) c :
  Forall (λ e, 0 ≤ Id e < Z.of_nat n ∧ 0 ≤ N e < two62) es → (∀ c, append_inv es c (cl c)) → increasing 0 (mine c es).
Proof.
  intros Hids Hcl. destruct (decide (c < 0)) as [Hc|Hc].
  - unfold mine. rewrite filter_none; [done |]. intros e He <-. rewrite Forall_forall in Hids.
    destruct (Hids e He). lia.
  - specialize (Hcl (Z.to_nat c)). rewrite <- (Z2Nat.id c) by lia. unfold append_inv, putting, tally in Hcl.
    destruct (cl (Z.to_nat c)); naive_solver.
Qed.

End appends.

(** The clients before their first iteration. *)
Definition append_start (n : nat) (c : nat) : Client AppLocals ClntRes :=
  if decide (c < n)%nat then Running (Done (mkAppLocals 0 0 0 true)) true else Finished (mkClntRes 0 0).

Lemma append_start_inv `{Marshal (list entry)} n m b :
  m !! "k" = Some (b, 1) → unmarshal b = Some [] → appends_inv n m (append_start n).
Proof.
  intros Hm Hu. exists []. split; [by exists b | done | |].
  - intros c. unfold append_start. case_decide.
    + eexists. left. split; [done |]. simpl. unfold tally, two62. simpl. unfold end_of. simpl. lia.
    + exists 0. unfold tally, two62. simpl. unfold end_of. simpl. lia.
  - intros c Hc. unfold append_start. by rewrite decide_False by lia.
Qed.

(** [SpawnClientsAndWait] collects the results in the order of the clients. *)
Definition results {S A : Type} (s : State S A ClntRes) (n : nat) (rs : list ClntRes) : Prop :=
  length rs = n ∧ ∀ c r, rs !! c = Some r → client s c = Finished r.

(** What the append test leaves, under every schedule. *)
Lemma appends_outcome {S : Type} `{VStore S} `{Marshal (list entry)} (reliable : bool) (n : nat) (srv : S) (b : string)
    (s : State S AppLocals ClntRes) :
  vs_ok srv → vs_abs srv !! "k" = Some (b, 1) → unmarshal b = Some [] →
  rtc (step_nw reliable OneClientAppend_body OneClientAppend_stop appends_small)
    (mkState srv [] (append_start n)) s →
  (∀ c f, client s c ≠ Running Fatal f) ∧
  ∀ rs order, results s n rs → ver_of (vs_abs (server s)) "k" < two62 → (∀ m, order m ≡ₚ map_to_list m) →
    ∃ es ver F, GetJson (V := list entry) "k" = ClerkGet "k" F ∧
      F (got (vs_abs (server s)) "k") = Done (es, ver) ∧ CheckAppends order es n rs ver = Ret ().
Proof.
  intros Hok Hb Hu Hr.
  assert (sys_inv reliable (appends_inv n) (mkState srv [] (append_start n))) as Hinit.
  { apply sys_inv_init; [done | by eapply append_start_inv |].
    intros c p f. unfold append_start. case_decide; by intros [= _ <-]. }
  destruct (clerk_invariant _ _ _ _ _ (appends_ClerkInv n reliable) _ _ Hinit Hr) as [_ (es & Hat) _ _].
  split.
  - intros c f Hc. pose proof (ai_clients _ _ _ _ Hat c) as Hcc. rewrite Hc in Hcc.
    destruct Hcc as (l & [(? & _)|[(? & _)|(? & ? & ? & _)]]); done.
  - intros rs order [Hlen Hres] Hsmall Hord. pose proof (appends_ver _ _ _ _ Hat) as Hver.
    destruct Hat as [(b' & Hb' & Hu') Hids Hcl Hidle].
    eexists es, _, _. split; [reflexivity |]. unfold got. rewrite Hb'. simpl. rewrite Hu'. split; [done |].
    assert (∀ (c : nat) r, rs !! c = Some r → ∃ i, i ≤ two62 ∧ tally es c i (Nok r) (Nmaybe r)) as Ht.
    { intros c r Hcr. specialize (Hcl c). by rewrite (Hres c r Hcr) in Hcl. }
    rewrite <- Hlen. edestruct (CheckAppends_returns order es rs) as [_ [[] Hc]]; [done | | | | | | exact Hc].
    + eapply Forall_impl; [exact Hids |]. naive_solver.
    + lia.
    + unfold two62, two64 in *. lia.
    + apply Forall_lookup. intros c r Hcr. destruct (Ht c r Hcr) as (i & Hi & _ & _ & -> & ? & ? & ?).
      unfold two62, two63 in *. lia.
    + split_and!; [| | done |].
      * intros c. by apply (mine_increasing n es (client s)).
      * intros e He. rewrite Hlen. rewrite Forall_forall in Hids. by apply Hids.
      * intros c r Hcr. destruct (Ht c r Hcr) as (i & Hi & Hinc & Hend & Hsum & ? & ? & ?). cbv zeta. lia.
Qed.

(** The append test accepts every correct store.  [n] clients run
    [OneClientAppend] on a key that holds the empty list at version 1, over
    any store that meets [VStore], while the network drops requests, loses
    replies and runs abandoned requests late.  No client ever reaches
    [Fatalf], and once all have returned [CheckAppends] accepts the value and
    version in the store with the clients' counts, in whatever order it
    iterates its map: each client's entries are increasing, gaps are covered
    by its [ErrMaybe]s, and none of its [OK] puts is missing.  (Runs in which
    neither versions nor counters reach 2^62.) *)
Theorem appends_pass {S : Type} `{VStore S} `{Marshal (list entry)} (reliable : bool) (n : nat) (srv : S) (b : string)
    (s : State S AppLocals ClntRes) :
  vs_ok srv → vs_abs srv !! "k" = Some (b, 1) → unmarshal b = Some [] →
  rtc (step_nw reliable OneClientAppend_body OneClientAppend_stop appends_small)
    (mkState srv [] (append_start n)) s →
  (∀ c f, client s c ≠ Running Fatal f) ∧
  ∀ rs order, results s n rs → ver_of (vs_abs (server s)) "k" < two62 → (∀ m, order m ≡ₚ map_to_list m) →
    ∃ es ver F, GetJson (V := list entry) "k" = ClerkGet "k" F ∧
      F (got (vs_abs (server s)) "k") = Done (es, ver) ∧ CheckAppends order es n rs ver = Ret ().
Proof. apply appends_outcome. Qed.

Lemma ver_of_bound (m : gmap string (string * Tversion)) b :
  0 < b → map_Forall (λ _ x, x.2 < b) m → ∀ k, ver_of m k < b.
Proof.
  intros H0 Hm k. unfold ver_of. destruct (m !! k) as [[v x]|] eqn:E; [| done]. by apply (Hm k (v, x)).
Qed.

(** A run of one client whose reply is lost. *)
#[local] Instance ex_marshal : Marshal (list entry) := Countable_Marshal (list entry).

Definition ex_empty : string := bits (encode ([] : list entry)).
Definition ex_store : KVServer.KVServer :=
  (KVServer.Put KVServer.MakeKVServer (mkPutArgs "k" ex_empty 0) PutReply_zero).1.

Ltac ex_step tac :=
  eapply rtc_l; [split; [tac | split; [
    intros k; apply Z.lt_add_lt_sub_r; apply ver_of_bound; [vm_compute; reflexivity |];
      apply (bool_decide_unpack _); vm_compute; exact I
  | intros [|c] l f Hcl; match type of Hcl with ?a = ?b => let x := eval hnf in a in change (x = b) in Hcl end;
      [first [discriminate Hcl | injection Hcl as <- _; reflexivity] | discriminate Hcl] ]] |].

Lemma ex_append_run :
  ∃ s, rtc (step_nw false OneClientAppend_body OneClientAppend_stop appends_small)
         (mkState ex_store [] (append_start 1)) s ∧
       results s 1 [mkClntRes 0 1] ∧ ver_of (vs_abs (server s)) "k" = 2.
Proof.
  eexists. split.
  - ex_step ltac:(eapply (client_loop false OneClientAppend_body OneClientAppend_stop _ 0%nat _ true 0); reflexivity).
    ex_step ltac:(eapply (client_call false OneClientAppend_body OneClientAppend_stop _ 0%nat); [reflexivity | apply get_replied]).
    ex_step ltac:(eapply (client_call false OneClientAppend_body OneClientAppend_stop _ 0%nat); [reflexivity | by apply put_reply_lost]).
    ex_step ltac:(eapply (client_call false OneClientAppend_body OneClientAppend_stop _ 0%nat); [reflexivity | apply put_replied]).
    ex_step ltac:(eapply (client_stop false OneClientAppend_body OneClientAppend_stop _ 0%nat); reflexivity).
    apply rtc_refl.
  - split; [| reflexivity]. split; [done |]. intros [|[|c]] r; simpl; intros [= <-]. reflexivity.
Qed.

Lemma appends_pass_witness :
  ∃ (s : State KVServer.KVServer AppLocals ClntRes) es ver,
    CheckAppends (λ m, map_to_list m) es 1 [mkClntRes 0 1] ver = Ret ().
Proof.
  destruct ex_append_run as (s & Hr & Hres & Hver). exists s.
  destruct (appends_pass (H := KVServer_VStore) (H0 := ex_marshal) false 1 ex_store ex_empty s
              (KVServer.Put_wf _ _ _ KVServer.MakeKVServer_wf) eq_refl ltac:(vm_compute; reflexivity) Hr) as [_ Hp].
  destruct (Hp [mkClntRes 0 1] (λ m, map_to_list m) Hres ltac:(rewrite Hver; vm_compute; reflexivity) ltac:(done))
    as (es & ver & _ & _ & _ & Hc).
  exists es, ver. exact Hc.
Defined.

End KVTest.
