(* ===== verification/KVTestPuts.v ===== *)
(** * Clients that overwrite shared keys: [OneClientPut] of [kvtest1/kvtest.go]

    The proof that the test of concurrent puts accepts every correct store:
    the versions in the store add up to the puts that took effect, of which
    each client has counted its own as [OK] or [ErrMaybe]. *)

From S2P Require Import Prelude KVServer KVClerk ClerkProg KVTest.
#[local] Open Scope Z_scope.

Module KVTestPuts.
Import KVClerk ClerkProg KVTest.

Section puts.
Context `{Marshal EntryV} (reliable randomkeys : bool) (n : nat) (ka : list string).
Context (Hnd : NoDup ka) (Hne : ka ≠ []).
Implicit Types (l : PutLocals) (m : gmap string (string * Tversion)) (w : Z) (r : ClntRes).

Abbreviation PClient := (Client PutLocals ClntRes).

(** Of the [w] puts of a client that took effect, its counters account for
    all but [dok], give or take the [ErrMaybe]s and [dmay]. *)
Definition counts w r (dok dmay : Z) : Prop :=
  0 ≤ Nok r ∧ 0 ≤ Nmaybe r ∧ Nok r + dok ≤ w ≤ Nok r + dok + Nmaybe r + dmay ∧
  (reliable = true → Nmaybe r = 0).

Definition bounded r (b : Z) : Prop := Nok r ≤ b ∧ Nmaybe r ≤ b.

(** The versions a client remembers are not ahead of the store. *)
Definition known m l : Prop :=
  (∀ k, k ∈ ka → 0 ≤ map_int (p_verm l) k ≤ ver_of m k) ∧
  (∀ k ver, p_cur l = Some (k, ver) → k ∈ ka ∧ 0 ≤ ver ≤ ver_of m k).

(** The client at a Put of [OnePut], and at the Get that follows it. *)
Definition at_put m w (c : nat) l k ver (p : Prog PutLocals) (first : bool) : Prop :=
  ∃ b, p = ClerkPut k b ver (λ e, bind (OnePut_after (Z.of_nat c) k ver e) (settle l k)) ∧
    unmarshal b = Some (mkEntryV (Z.of_nat c) ver) ∧
    (counts w (p_res l) 0 0 ∨ (first = false ∧ counts w (p_res l) 1 0 ∧ ver < ver_of m k)).

Definition at_get m w (c : nat) l k ver (p : Prog PutLocals) : Prop :=
  ∃ err, p = bind (bind (GetJson k) (OnePut_check (Z.of_nat c) ver err)) (settle l k) ∧ is_Some (m !! k) ∧
    ((err = OK ∧ counts w (p_res l) 1 0 ∧ ver < ver_of m k) ∨
     (err = ErrVersion ∧ counts w (p_res l) 0 0) ∨
     (err = ErrMaybe ∧ reliable = false ∧ counts w (p_res l) 0 1)).

Definition put_inv m w (c : nat) (cl : PClient) : Prop :=
  match cl with
  | Finished r => counts w r 0 0 ∧ bounded r two62
  | Running p first => ∃ l, known m l ∧
      ((p = Done l ∧ counts w (p_res l) 0 0 ∧ bounded (p_res l) two62) ∨
       (bounded (p_res l) (two62 - 1) ∧ ∃ k ver, k ∈ ka ∧ 0 ≤ ver ≤ ver_of m k ∧
          (at_put m w c l k ver p first ∨ at_get m w c l k ver p)))
  end.

(** The value at version [x] was put with version [x - 1]. *)
Definition store_ok m : Prop :=
  ∀ k v x, k ∈ ka → m !! k = Some (v, x) → 1 ≤ x ∧ ∃ e, unmarshal v = Some e ∧ EV_V e + 1 = x.

Record puts_at m (cl : nat → PClient) (w : nat → Z) : Prop := {
  pi_store : store_ok m;
  pi_sum : zsum (ver_of m) ka = zsum w (seq 0 n);
  pi_clients : ∀ c, put_inv m (w c) c (cl c);
  pi_idle : ∀ c, (n ≤ c)%nat → cl c = Finished (mkClntRes 0 0);
}.

Definition puts_inv m (cl : nat → PClient) : Prop := ∃ w : nat → Z, puts_at m cl w.

Definition puts_small m (cl : nat → PClient) : Prop :=
  (∀ k, ver_of m k < two62) ∧
  ∀ c l f, cl c = Running (Done l) f → bounded (p_res l) (two62 - 1).

Lemma ver_nonneg m k : store_ok m → k ∈ ka → 0 ≤ ver_of m k.
Proof.
  intros Hs Hk. unfold ver_of. destruct (m !! k) as [[v x]|] eqn:E; [| done].
  destruct (Hs k v x Hk E). lia.
Qed.

(** Accepted puts of others leave a client's knowledge true. *)
Lemma put_inv_mono m m' w c cl :
  (∀ k, ver_of m k ≤ ver_of m' k) → (∀ k, is_Some (m !! k) → is_Some (m' !! k)) →
  put_inv m w c cl → put_inv m' w c cl.
Proof.
  intros Hv Hd. assert (∀ k x, x ≤ ver_of m k → x ≤ ver_of m' k) as Hle by (intros k x ?; specialize (Hv k); lia).
  assert (∀ k x, x < ver_of m k → x < ver_of m' k) as Hlt by (intros k x ?; specialize (Hv k); lia).
  destruct cl as [p first|r]; simpl; [| done]. intros (l & [Hk1 Hk2] & Hrest). exists l. split.
  - split; [intros k Hk; specialize (Hk1 k Hk) | intros k ver Hk; specialize (Hk2 k ver Hk)]; naive_solver.
  - destruct Hrest as [?|(Hb & k & ver & Hk & Hver & Hp)]; [by left | right]. split; [done |]. exists k, ver.
    split; [done |]. split; [split; [lia | naive_solver] |]. unfold at_put, at_get in *. naive_solver.
Qed.

Lemma puts_update m cl (w : nat → Z) c cl' p first :
  puts_at m cl w → cl c = Running p first → put_inv m (w c) c cl' → puts_at m (<[c := cl']> cl) w.
Proof.
  intros [Hst Hsum Hcl Hidle] Hc Hc'. split; [done | done | |].
  - intros c1. destruct (decide (c1 = c)) as [->|Hd]; [by rewrite fn_lookup_insert | by rewrite fn_lookup_insert_ne].
  - intros c1 Hn. rewrite fn_lookup_insert_ne; [by apply Hidle |]. intros ->. rewrite Hidle in Hc; done.
Qed.

(** A client at a Put, or at a Get. *)
Lemma put_inv_put m w c k v x f first :
  put_inv m w c (Running (ClerkPut k v x f) first) →
  ∃ l, known m l ∧ bounded (p_res l) (two62 - 1) ∧ k ∈ ka ∧ 0 ≤ x ≤ ver_of m k ∧
    at_put m w c l k x (ClerkPut k v x f) first.
Proof.
  intros (l & Hkn & [(? & _)|(Hb & k' & ver & Hk & Hver & [Hp|(err & Hp & _)])]); [done | | done].
  pose proof Hp as (b & Heq & _). injection Heq as -> _ -> _. by exists l.
Qed.

Lemma put_inv_get m w c k f first :
  put_inv m w c (Running (ClerkGet k f) first) →
  ∃ l ver, known m l ∧ bounded (p_res l) (two62 - 1) ∧ k ∈ ka ∧ 0 ≤ ver ≤ ver_of m k ∧
    at_get m w c l k ver (ClerkGet k f).
Proof.
  intros (l & Hkn & [(? & _)|(Hb & k' & ver & Hk & Hver & [(b & ? & _)|Hp])]); [done | done |].
  pose proof Hp as (err & Heq & _). simpl in Heq. injection Heq as -> _. by exists l, ver.
Qed.

Lemma insert_grows m k v :
  let m' := <[k := (v, ver_of m k + 1)]> m in
  (∀ k', ver_of m k' ≤ ver_of m' k') ∧ (∀ k', is_Some (m !! k') → is_Some (m' !! k')) ∧
  (∀ k', k' ≠ k → ver_of m' k' = ver_of m k') ∧ ver_of m' k = ver_of m k + 1.
Proof.
  intros m'. split_and!.
  - intros k'. by apply ver_of_insert.
  - intros k' Hk. apply lookup_insert_is_Some. destruct (decide (k = k')); auto.
  - intros k' Hk. unfold m', ver_of at 1. by rewrite lookup_insert_ne.
  - by apply (ver_of_insert m k v _ k).
Qed.

(** The put of client [c] is accepted. *)
Lemma puts_accept m cl (w : nat → Z) c k v f first (m' := <[k := (v, ver_of m k + 1)]> m) :
  puts_at m cl w → cl c = Running (ClerkPut k v (ver_of m k) f) first →
  ∃ l, known m' l ∧ bounded (p_res l) (two62 - 1) ∧ k ∈ ka ∧ 0 ≤ ver_of m k ∧
    f = (λ e, bind (OnePut_after (Z.of_nat c) k (ver_of m k) e) (settle l k)) ∧
    unmarshal v = Some (mkEntryV (Z.of_nat c) (ver_of m k)) ∧ counts (w c + 1) (p_res l) 1 0 ∧
    ∀ cl', put_inv m' (w c + 1) c cl' → puts_at m' (<[c := cl']> cl) (<[c := w c + 1]> w).
Proof.
  intros Hat Hc. pose proof Hat as [Hst Hsum Hcl Hidle]. pose proof (Hcl c) as Hcc. rewrite Hc in Hcc.
  destruct (put_inv_put _ _ _ _ _ _ _ _ Hcc) as (l & Hkn & Hb & Hk & Hver & (b & Heq & Hu & Hcnt)).
  injection Heq as <- ->. destruct Hcnt as [Hcnt|(_ & _ & ?)]; [| lia].
  destruct (insert_grows m k v) as (Hmono & Hdom & Hoth & Hnew). fold m' in Hmono, Hdom, Hoth, Hnew.
  assert (c < n)%nat as Hcn by (destruct (decide (c < n)%nat); [done |]; rewrite Hidle in Hc by lia; done).
  exists l. split; [| split; [done | split; [done | split; [lia | split; [done | split; [done | split]]]]]].
  - destruct Hkn as [Hk1 Hk2]. split.
    + intros k1 Hk1'. specialize (Hk1 _ Hk1'). specialize (Hmono k1). lia.
    + intros k1 ver Hcur. specialize (Hk2 _ _ Hcur). specialize (Hmono k1). naive_solver lia.
  - unfold counts in *. destruct Hcnt as (? & ? & ? & ?). split_and!; try done; lia.
  - intros cl' Hcl'. split.
    + intros k1 v1 x1 Hk1 Hl. unfold m' in Hl. apply lookup_insert_Some in Hl as [[<- [= <- <-]]|[_ Hl]]; [| by apply (Hst k1 v1 x1)].
      split; [lia |]. eauto.
    + rewrite (zsum_update (ver_of m) (ver_of m') ka k); [| done.. | auto].
      rewrite (zsum_update w (<[c := w c + 1]> w) (seq 0 n) c).
      * rewrite fn_lookup_insert. lia.
      * apply NoDup_seq.
      * apply elem_of_seq. lia.
      * intros c1 _ Hc1. by rewrite fn_lookup_insert_ne.
    + intros c1. destruct (decide (c1 = c)) as [->|Hd]; [by rewrite !fn_lookup_insert |].
      rewrite !fn_lookup_insert_ne by done. by eapply put_inv_mono.
    + intros c1 Hn. rewrite fn_lookup_insert_ne; [by apply Hidle |]. lia.
Qed.

Lemma put_inv_retry m w c k v x f first :
  put_inv m w c (Running (ClerkPut k v x f) first) → put_inv m w c (Running (ClerkPut k v x f) false).
Proof.
  intros Hi. destruct (put_inv_put _ _ _ _ _ _ _ _ Hi) as (l & Hkn & Hb & Hk & Hver & (b & Heq & Hu & Hcnt)).
  exists l. split; [done |]. right. split; [done |]. exists k, x. split; [done |]. split; [done |]. left.
  exists b. split; [done |]. split; [done |]. naive_solver.
Qed.

(** The answer to a put that the server rejects. *)
Lemma put_inv_reject m w c k v x f first :
  put_inv m w c (Running (ClerkPut k v x f) first) → x < ver_of m k → 0 ≤ ver_of m k → (reliable = true → first = true) →
  put_inv m w c (Running (f (if first then ErrVersion else ErrMaybe)) true).
Proof.
  intros Hi Hlt H0 Hre. destruct (put_inv_put _ _ _ _ _ _ _ _ Hi) as (l & Hkn & Hb & Hk & Hver & (b & Heq & Hu & Hcnt)).
  injection Heq as <- ->. exists l. split; [done |]. right. split; [done |]. exists k, x. split; [done |]. split; [done |]. right.
  exists (if first then ErrVersion else ErrMaybe). split; [by destruct first |]. split.
  - unfold ver_of in Hlt. destruct (m !! k) as [[? ?]|]; [by eexists | lia].
  - destruct first.
    + right; left. split; [done |]. naive_solver.
    + right; right. split; [done |]. destruct reliable; [by specialize (Hre eq_refl) |]. split; [done |].
      unfold counts in *. destruct Hcnt as [Hcnt|(_ & Hcnt & _)]; destruct Hcnt as (? & ? & ? & ?); split_and!; try done; lia.
Qed.

(** The Get of [OnePut] succeeds and its check passes. *)
Lemma put_inv_got m w c k f first :
  store_ok m → ver_of m k < two62 → put_inv m w c (Running (ClerkGet k f) first) →
  put_inv m w c (Running (f (got m k)) true).
Proof.
  intros Hst Hsm Hi. destruct (put_inv_get _ _ _ _ _ _ Hi) as (l & ver & [Hk1 Hk2] & Hb & Hk & Hver & (err & Heq & [[v x] Hx] & Hcnt)).
  injection Heq as ->. destruct (Hst k v x Hk Hx) as (Hx1 & e & Hu & He).
  unfold got. rewrite Hx. simpl. rewrite Hu. simpl. unfold ver_of in Hver, Hsm. rewrite Hx in Hver, Hsm.
  assert (ver_of m k = x) as Hvx by (unfold ver_of; by rewrite Hx).
  rewrite decide_False.
  2: { intros (_ & Hx' & _ & Hne'). rewrite u64_small in Hx' by (unfold two62, two64 in *; lia). lia. }
  destruct Hb as [Hb1 Hb2].
  destruct Hcnt as [(-> & Hcnt & Hlt)|[(-> & Hcnt)|(-> & Hre & Hcnt)]]; simpl;
    pose proof Hcnt as (H1 & H2 & H3 & H4); (eexists; split; [| left; split; [done |]]).
  - split; simpl; [| done]. intros k' Hk'. unfold map_int. destruct (decide (k' = k)) as [->|Hd];
      [rewrite lookup_insert_eq; simpl; lia | rewrite lookup_insert_ne by done; by apply Hk1].
  - simpl. unfold counts, bounded. simpl. rewrite int64_small by (unfold two62, two63 in *; lia). split_and!; try done; lia.
  - split; simpl; [done |]. intros k' ver' [= <- <-]. split; [done | lia].
  - simpl. split; [done |]. split; lia.
  - split; simpl; [| done]. intros k' Hk'. unfold map_int. destruct (decide (k' = k)) as [->|Hd];
      [rewrite lookup_insert_eq; simpl; lia | rewrite lookup_insert_ne by done; by apply Hk1].
  - simpl. unfold counts, bounded. simpl. rewrite int64_small by (unfold two62, two63 in *; lia).
    split_and!; try done; try lia. congruence.
Qed.

Lemma choose_key_in rnd : ∃ k, choose_key randomkeys ka rnd = Some k ∧ k ∈ ka.
Proof.
  assert (0 < length ka)%nat by (destruct ka; [done | simpl; lia]).
  assert (∃ i, (i < length ka)%nat ∧ choose_key randomkeys ka rnd = ka !! i) as (i & Hi & ->).
  { unfold choose_key. destruct randomkeys; [| by exists 0%nat].
    pose proof (Z.mod_pos_bound rnd (Z.of_nat (length ka))). eexists. split; [| done]. lia. }
  destruct (lookup_lt_is_Some_2 ka i Hi) as [k Hk]. exists k. split; [done |]. by eapply list_elem_of_lookup_2.
Qed.

(** Starting an iteration brings the client to the Put of [OnePut]. *)
Lemma put_inv_body m w c l rnd :
  known m l → counts w (p_res l) 0 0 → bounded (p_res l) (two62 - 1) →
  put_inv m w c (Running (OneClientPut_body randomkeys ka c rnd l) true).
Proof.
  intros Hkn Hcnt Hb. exists l. split; [done |]. right. split; [done |]. destruct Hkn as [Hk1 Hk2].
  assert (∃ k ver, k ∈ ka ∧ 0 ≤ ver ≤ ver_of m k ∧
    OneClientPut_body randomkeys ka c rnd l = OneClientPut_put (Z.of_nat c) l k ver) as (k & ver & Hk & Hver & ->).
  { unfold OneClientPut_body. destruct (p_cur l) as [[k ver]|] eqn:Hcur; [exists k, ver; naive_solver |].
    destruct (choose_key_in rnd) as (k & -> & Hk). exists k, (map_int (p_verm l) k). split_and!; [done | | | done]; by apply Hk1. }
  exists k, ver. split; [done |]. split; [done |]. left.
  destruct (unmarshal_marshal (mkEntryV (Z.of_nat c) ver)) as (b & Hm & Hu). exists b.
  split; [| split; [done | by left]].
  unfold OneClientPut_put, OnePut_body, PutJson. by rewrite Hm.
Qed.

Lemma puts_ClerkInv :
  ClerkInv reliable (OneClientPut_body randomkeys ka) OneClientPut_stop puts_small puts_inv.
Proof.
  split.
  - intros m cl cl' Heq (w & [Hst Hsum Hcl Hidle]). exists w. split; [done.. | |]; intros c; rewrite <- Heq; auto.
  - intros m cl c a (w & Hat) Ha. destruct (cl c) as [[| | |k v x f] first|] eqn:Hc; try done. injection Ha as <-.
    pose proof (pi_clients _ _ _ Hat c) as Hcc. rewrite Hc in Hcc.
    by destruct (put_inv_put _ _ _ _ _ _ _ _ Hcc) as (l & _ & _ & _ & Hver & _).
  - intros m cl c a _ (w & Hat) Ha. destruct (cl c) as [[| | |k v x f] first|] eqn:Hc; try done. exists w.
    eapply puts_update; [done.. |]. pose proof (pi_clients _ _ _ Hat c) as Hcc. rewrite Hc in Hcc. by eapply put_inv_retry.
  - intros m cl c k v f first _ _ (w & Hat) Hc.
    destruct (puts_accept _ _ _ _ _ _ _ _ Hat Hc) as (l & Hkn & Hb & Hk & Hver & Hf & Hu & Hcnt & Hup).
    destruct (insert_grows m k v) as (_ & _ & _ & Hnew).
    eexists. rewrite Hc. apply Hup. exists l. split; [done |]. right. split; [done |]. exists k, (ver_of m k).
    split; [done |]. split; [lia |]. left. exists v. split; [by rewrite Hf |]. split; [done |]. right.
    split; [done |]. split; [done | lia].
  - intros m cl c k v f first _ (w & Hat) Hc.
    destruct (puts_accept _ _ _ _ _ _ _ _ Hat Hc) as (l & Hkn & Hb & Hk & Hver & Hf & Hu & Hcnt & Hup).
    destruct (insert_grows m k v) as (_ & _ & _ & Hnew).
    eexists. apply Hup. exists l. split; [done |]. right. split; [done |]. exists k, (ver_of m k).
    split; [done |]. split; [lia |]. right. exists OK. split; [by rewrite Hf |]. rewrite lookup_insert_eq.
    split; [by eexists |]. left. split; [done |]. split; [done | lia].
  - intros m cl c k v x f first _ (w & Hat) Hc Hlt Hre. exists w. eapply puts_update; [done.. |].
    pose proof (pi_clients _ _ _ Hat c) as Hcc. rewrite Hc in Hcc.
    destruct (put_inv_put _ _ _ _ _ _ _ _ Hcc) as (_ & _ & _ & Hk & _).
    eapply put_inv_reject; [done.. | by apply ver_nonneg; [apply Hat |] | done].
  - intros m cl c k f first [Hsm _] (w & Hat) Hc. exists w. eapply puts_update; [done.. |].
    pose proof (pi_clients _ _ _ Hat c) as Hcc. rewrite Hc in Hcc. eapply put_inv_got; [apply Hat | done | done].
  - intros m cl c l first rnd [_ Hs] (w & Hat) Hc. exists w. eapply puts_update; [done.. |].
    pose proof (pi_clients _ _ _ Hat c) as Hcc. rewrite Hc in Hcc.
    destruct Hcc as (l' & Hkn & [(Hp & Hcnt & Hb)|(_ & ? & ? & _ & _ & [(? & ? & _)|(? & ? & _)])]); [| done..].
    injection Hp as <-. apply put_inv_body; [done | done | by eapply Hs].
  - intros m cl c l first r _ (w & Hat) Hc Hr. exists w. eapply puts_update; [done.. |].
    pose proof (pi_clients _ _ _ Hat c) as Hcc. rewrite Hc in Hcc.
    destruct Hcc as (l' & Hkn & [(Hp & Hcnt & Hb)|(_ & ? & ? & _ & _ & [(? & ? & _)|(? & ? & _)])]); [| done..].
    injection Hp as <-. unfold OneClientPut_stop in Hr. destruct (p_cur l); simplify_eq. done.
Qed.

Definition put_start (c : nat) : PClient :=
  if decide (c < n)%nat then Running (Done (OneClientPut_init ka)) true else Finished (mkClntRes 0 0).

Lemma init_zero k : map_int (p_verm (OneClientPut_init ka)) k = 0.
Proof.
  unfold OneClientPut_init. simpl. clear Hnd Hne.
  assert (∀ z : gmap string Z, map_int z k = 0 → map_int (foldl (λ y k, <[k := 0]> y) z ka) k = 0) as Hf; [| by apply Hf].
  induction ka as [|k0 ka' IH]; intros z Hz; simpl; [done |]. apply IH. unfold map_int.
  destruct (decide (k0 = k)) as [->|Hd]; [by rewrite lookup_insert_eq | by rewrite lookup_insert_ne].
Qed.

Lemma put_start_inv m : (∀ k, k ∈ ka → m !! k = None) → puts_inv m put_start.
Proof.
  intros Hm. assert (∀ k, k ∈ ka → ver_of m k = 0) as Hv by (intros k Hk; unfold ver_of; by rewrite (Hm k Hk)).
  exists (λ _, 0). split.
  - intros k v x Hk Hx. by rewrite (Hm k Hk) in Hx.
  - rewrite (zsum_ext _ (λ _, 0) ka) by done.
    assert (∀ (A : Type) (l : list A), zsum (λ _, 0) l = 0) as Hz by (intros A l; induction l; simpl; lia). by rewrite !Hz.
  - intros c. unfold put_start. case_decide.
    + eexists. split; [| left; split; [done |]; simpl; unfold counts, bounded, two62; simpl; split_and!; try done; lia].
      split; simpl; [| done]. intros k Hk. rewrite init_zero, Hv by done. lia.
    + simpl. unfold counts, bounded, two62. simpl. split_and!; try done; lia.
  - intros c Hc. unfold put_start. by rewrite decide_False by lia.
Qed.

End puts.

(** The sums of the results, without wrap-around. *)
Lemma sum_res_spec rs r :
  Forall (λ x, 0 ≤ Nok x ∧ 0 ≤ Nmaybe x) rs → 0 ≤ Nok r → 0 ≤ Nmaybe r →
  Nok r + zsum Nok rs < two63 → Nmaybe r + zsum Nmaybe rs < two63 →
  sum_res rs r = mkClntRes (Nok r + zsum Nok rs) (Nmaybe r + zsum Nmaybe rs).
Proof.
  revert r. induction rs as [|x rs IH]; intros r Hrs H0 H1 Hok Hmay; simpl in *.
  { rewrite !Z.add_0_r. by destruct r. }
  apply Forall_cons in Hrs as [[Hx1 Hx2] Hrs].
  assert (0 ≤ zsum Nok rs ∧ 0 ≤ zsum Nmaybe rs) as [? ?].
  { clear -Hrs. induction Hrs as [|y ys [? ?] _ IH]; simpl; lia. }
  unfold sum_res in *. simpl. rewrite IH; simpl; rewrite ?int64_small by (unfold two63 in *; lia); [f_equal; lia | done | lia..].
Qed.

Lemma puts_outcome {S : Type} `{VStore S} `{Marshal EntryV} (reliable randomkeys : bool) (n : nat) (ka : list string)
    (srv : S) (s : State S PutLocals ClntRes) :
  NoDup ka → ka ≠ [] → vs_ok srv → (∀ k, k ∈ ka → vs_abs srv !! k = None) →
  rtc (step_nw reliable (OneClientPut_body randomkeys ka) OneClientPut_stop puts_small)
    (mkState srv [] (put_start n ka)) s →
  (∀ c f, client s c ≠ Running Fatal f) ∧
  ∀ rs key mode, results s n rs → zsum Nok rs + zsum Nmaybe rs < two62 →
    key ∈ ka → is_Some (vs_abs (server s) !! key) → (mode = true → reliable = true ∧ ka = [key]) →
    ∃ F res, CheckPutConcurrent key rs (mkClntRes 0 0) mode = ClerkGet key F ∧
      F (got (vs_abs (server s)) key) = Done res.
Proof.
  intros Hnd Hne Hok Hfresh Hr.
  assert (sys_inv reliable (puts_inv reliable n ka) (mkState srv [] (put_start n ka))) as Hinit.
  { apply sys_inv_init; [done | by apply put_start_inv |].
    intros c p f. unfold put_start. case_decide; by intros [= _ <-]. }
  destruct (clerk_invariant _ _ _ _ _ (puts_ClerkInv reliable randomkeys n ka Hnd Hne) _ _ Hinit Hr) as [_ (w & Hat) _ _].
  split.
  - intros c f Hc. pose proof (pi_clients _ _ _ _ _ _ Hat c) as Hcc. rewrite Hc in Hcc.
    by destruct Hcc as (l' & Hkn & [(? & _)|(_ & ? & ? & _ & _ & [(? & ? & _)|(? & ? & _)])]).
  - intros rs key mode [Hlen Hres] Hsmall Hkey [[v x] Hx] Hmode. destruct Hat as [Hst Hsum Hcl _].
    assert (∀ (c : nat) r, rs !! c = Some r → counts reliable (w c) r 0 0) as Hcnt.
    { intros c r Hcr. specialize (Hcl c). rewrite (Hres c r Hcr) in Hcl. by destruct Hcl. }
    assert (Forall (λ r, 0 ≤ Nok r ∧ 0 ≤ Nmaybe r) rs) as Hpos.
    { apply Forall_lookup. intros c r Hcr. destruct (Hcnt c r Hcr) as (? & ? & _). done. }
    assert (0 ≤ zsum Nok rs ∧ 0 ≤ zsum Nmaybe rs) as [Hs1 Hs2].
    { clear -Hpos. induction Hpos as [|y ys [? ?] _ IH]; simpl; lia. }
    assert (zsum Nok rs ≤ zsum (ver_of (vs_abs (server s))) ka ≤ zsum (λ r, Nok r + Nmaybe r) rs) as [Hlo Hhi].
    { rewrite Hsum, <- Hlen, <- (zsum_lookup Nok rs), <- (zsum_lookup (λ r, Nok r + Nmaybe r) rs). split; apply zsum_le; intros c Hc%elem_of_seq;
        (destruct (lookup_lt_is_Some_2 rs c) as [r Hcr]; [lia |]); rewrite Hcr; simpl;
        destruct (Hcnt c r Hcr) as (_ & _ & ? & _); lia. }
    destruct (Hst key v x Hkey Hx) as (Hx1 & e & Hu & _).
    assert (ver_of (vs_abs (server s)) key = x) as Hvx by (unfold ver_of; by rewrite Hx).
    assert (zsum (λ r, Nok r + Nmaybe r) rs = zsum Nok rs + zsum Nmaybe rs) as Hadd.
    { clear. induction rs as [|r rs IH]; simpl; lia. }
    eexists. unfold CheckPutConcurrent. 
    rewrite sum_res_spec by (simpl; unfold two62, two63 in *; done || lia). simpl.
    rewrite !Z.add_0_l.
    unfold got. rewrite Hx. simpl. eexists. split; [reflexivity |]. simpl. rewrite Hu. simpl.
    unfold Tversion_of. destruct mode.
    + destruct (Hmode eq_refl) as [Hre Hka].
      assert (zsum Nmaybe rs = 0) as Hz.
      { clear -Hcnt Hre. assert (∀ r, r ∈ rs → Nmaybe r = 0) as Hr.
        { intros r [c Hc]%list_elem_of_lookup. destruct (Hcnt c r Hc) as (_ & _ & _ & Hr). auto. }
        clear Hcnt. induction rs as [|r rs IH]; simpl; [done |]. rewrite (Hr r), IH by set_solver. done. }
      rewrite Hka, Hadd, Hz in Hhi. rewrite Hka in Hlo.
      change (zsum (ver_of (vs_abs (server s))) [key]) with (ver_of (vs_abs (server s)) key + 0) in Hlo, Hhi.
      rewrite u64_small by (unfold two62, two64 in *; lia). rewrite decide_False by lia. done.
    + assert (x ≤ zsum (ver_of (vs_abs (server s))) ka) as Hle.
      { rewrite <- Hvx. apply zsum_elem; [| done]. intros k Hk. by apply (ver_nonneg ka). }
      rewrite int64_small by (unfold two62, two63 in *; lia).
      rewrite u64_small by (unfold two62, two64 in *; lia). rewrite decide_False by lia. done.
Qed.

(** C16: the test of concurrent puts accepts every correct store.  [n]
    clients run [OneClientPut] on the fresh keys [ka] over any store that
    meets [VStore] while the network drops requests, loses replies and runs
    abandoned requests late.  No client reaches [Fatalf]: its gets succeed
    and the value it finds after its own put has the version it put.  Once
    all have returned, [CheckPutConcurrent] on a key that was written accepts
    their counts: in unreliable mode for each key, and in reliable mode, over
    a network that loses nothing and with a single key.  (Runs in which
    neither versions nor counters reach 2^62.) *)
Theorem puts_pass {S : Type} `{VStore S} `{Marshal EntryV} (reliable randomkeys : bool) (n : nat) (ka : list string)
    (srv : S) (s : State S PutLocals ClntRes) :
  NoDup ka → ka ≠ [] → vs_ok srv → (∀ k, k ∈ ka → vs_abs srv !! k = None) →
  rtc (step_nw reliable (OneClientPut_body randomkeys ka) OneClientPut_stop puts_small)
    (mkState srv [] (put_start n ka)) s →
  (∀ c f, client s c ≠ Running Fatal f) ∧
  ∀ rs key mode, results s n rs → zsum Nok rs + zsum Nmaybe rs < two62 →
    key ∈ ka → is_Some (vs_abs (server s) !! key) → (mode = true → reliable = true ∧ ka = [key]) →
    ∃ F res, CheckPutConcurrent key rs (mkClntRes 0 0) mode = ClerkGet key F ∧
      F (got (vs_abs (server s)) key) = Done res.
Proof. apply puts_outcome. Qed.

(** A run of one client that puts once over a reliable network. *)
#[local] Instance ex_marshalV : Marshal EntryV := Countable_Marshal EntryV.

Ltac ex_versions :=
  apply ver_of_bound; [vm_compute; reflexivity |]; apply (bool_decide_unpack _); vm_compute; exact I.

Ltac ex_put_step tac :=
  eapply rtc_l; [split; [tac | split; [
    intros k; apply Z.lt_add_lt_sub_r; ex_versions
  | split; [intros k; ex_versions |];
    intros [|c] l f Hcl; match type of Hcl with ?a = ?b => let x := eval hnf in a in change (x = b) in Hcl end;
      [first [discriminate Hcl | injection Hcl as <- _; split; vm_compute; discriminate] | discriminate Hcl] ]] |].

Lemma ex_put_run :
  ∃ s, rtc (step_nw true (OneClientPut_body false ["k"]) OneClientPut_stop puts_small)
         (mkState KVServer.MakeKVServer [] (put_start 1 ["k"])) s ∧
       results s 1 [mkClntRes 1 0] ∧ is_Some (vs_abs (server s) !! "k").
Proof.
  eexists. split.
  - ex_put_step ltac:(eapply (client_loop true (OneClientPut_body false ["k"]) OneClientPut_stop _ 0%nat _ true 0); reflexivity).
    ex_put_step ltac:(eapply (client_call true (OneClientPut_body false ["k"]) OneClientPut_stop _ 0%nat); [reflexivity | apply put_replied]).
    ex_put_step ltac:(eapply (client_call true (OneClientPut_body false ["k"]) OneClientPut_stop _ 0%nat); [reflexivity | apply get_replied]).
    ex_put_step ltac:(eapply (client_stop true (OneClientPut_body false ["k"]) OneClientPut_stop _ 0%nat); reflexivity).
    apply rtc_refl.
  - split; [| vm_compute; eauto]. split; [done |]. intros [|[|c]] r; simpl; intros [= <-]. vm_compute. reflexivity.
Qed.

Lemma puts_pass_witness :
  ∃ F res, CheckPutConcurrent "k" [mkClntRes 1 0] (mkClntRes 0 0) true = ClerkGet "k" F ∧ ∃ x, F x = Done res.
Proof.
  destruct ex_put_run as (s & Hr & Hres & Hk).
  destruct (puts_pass (H := KVServer_VStore) (H0 := ex_marshalV) true false 1 ["k"] KVServer.MakeKVServer s
              ltac:(apply NoDup_singleton) ltac:(done) KVServer.MakeKVServer_wf ltac:(done) Hr) as [_ Hp].
  destruct (Hp [mkClntRes 1 0] "k" true Hres ltac:(vm_compute; reflexivity) ltac:(by left) Hk ltac:(done))
    as (F & res & HF & Hd).
  exists F, res. split; [exact HF | eexists; exact Hd].
Defined.

End KVTestPuts.
