(* ===== verification/KVSpawn.v ===== *)
(** * Spawning the clients of a test: [runClient] and [SpawnClientsAndWait] of [kvtest1/kvtest.go]

    The test's goroutine starts the clients, sleeps, hands out one [done]
    token per client over an unbuffered channel, and collects the results,
    each over a channel of its own.  At the head of a round a client takes a
    token if one is offered.  What the clients do between is a parameter
    ([Runner]): the loops of [ClerkProg] are an instance here, and the same
    loops over the simulated network in [KVNetTests].  Shown: the call returns
    the results of the clients in their order, all of which have finished; it
    never waits for a client that will not come; and what the clients do is a
    run of their system. *)

From S2P Require Import Prelude KVServer KVClerk ClerkProg KVTest.
#[local] Open Scope Z_scope.

Module KVSpawn.
Import KVClerk.

(** ** The clients' system *)

(** What the test's goroutine meets of the system [Y] in which the clients
    run.  [result]: what the function of client [c] has returned, if it has;
    [env]: steps that are not a client's; [work c]: steps of client [c]
    inside a round of its loop; [round c b]: it starts a round, after a
    [select] on [done] if [b]; [take c r]: it receives from [done] and returns
    [r]. *)
Record Runner (Y R : Type) := mkRunner {
  result : Y → nat → option R;
  env : Y → Y → Prop;
  work : nat → Y → Y → Prop;
  round : nat → bool → Y → Y → Prop;
  take : nat → R → Y → Y → Prop
}.
Arguments result {Y R} _ _ _.
Arguments env {Y R} _ _ _.
Arguments work {Y R} _ _ _ _.
Arguments round {Y R} _ _ _ _ _.
Arguments take {Y R} _ _ _ _ _.

(** Results come from [take] alone. *)
Class RunnerLaws {Y R : Type} (M : Runner Y R) : Prop := {
  env_result : ∀ y y' c, env M y y' → result M y' c = result M y c;
  work_result : ∀ y y' k c, work M k y y' → result M y' c = result M y c;
  round_result : ∀ y y' k b c, round M k b y y' → result M y' c = result M y c;
  take_result : ∀ y y' c r, take M c r y y' → result M y' c = Some r ∧ ∀ k, k ≠ c → result M y' k = result M y k;
}.

(** The steps of the system, whoever takes them. *)
Inductive moves {Y R : Type} (M : Runner Y R) (y y' : Y) : Prop :=
| mv_env : env M y y' → moves M y y'
| mv_work c : work M c y y' → moves M y y'
| mv_round c b : round M c b y y' → moves M y y'
| mv_take c r : take M c r y y' → moves M y y'.

Section spawn.
Context {Y R : Type} (M : Runner Y R).
Context (nclnt : nat).

(** [runClient]: before [MakeClerk]; in [fn]; at [ca <- v]; before
    [DeleteClerk]; at its end. *)
Inductive CPc : Type :=
| CNew
| CRun
| CSend (r : R)
| CDelete
| CExit.

(** [SpawnClientsAndWait]: starting client [i]; sleeping; about to send the
    [i]-th token; blocked sending it; receiving, with the results so far. *)
Inductive MPc : Type :=
| MSpawn (i : nat)
| MSleep
| MSignal (i : nat)
| MBlocked (i : nat)
| MCollect (rs : list R)
| MReturn (rs : list R).

(** [pc c] is [None] before client [c] is started; [clerks]: the clients whose
    clerk exists. *)
Record State := mkState {
  sys : Y;
  pc : nat → option CPc;
  clerks : gset nat;
  main : MPc
}.

Definition set_main (s : State) (m : MPc) : State := mkState (sys s) (pc s) (clerks s) m.

Inductive step : State → State → Prop :=
| m_spawn s i :
    main s = MSpawn i → (i < nclnt)%nat →
    step s (mkState (sys s) (<[i := Some CNew]> (pc s)) (clerks s) (MSpawn (i + 1)))
| m_spawned s : main s = MSpawn nclnt → step s (set_main s MSleep)
| m_slept s : main s = MSleep → step s (set_main s (MSignal 0))
| m_send s i : main s = MSignal i → (i < nclnt)%nat → step s (set_main s (MBlocked i))
| m_signalled s : main s = MSignal nclnt → step s (set_main s (MCollect []))
| token s i c r y :
    (* [case <-done] of a client's [select] while a token is offered *)
    main s = MBlocked i → pc s c = Some CRun → take M c r (sys s) y →
    step s (mkState y (<[c := Some (CSend r)]> (pc s)) (clerks s) (MSignal (i + 1)))
| m_receive s rs r :
    main s = MCollect rs → (length rs < nclnt)%nat → pc s (length rs) = Some (CSend r) →
    step s (mkState (sys s) (<[length rs := Some CDelete]> (pc s)) (clerks s) (MCollect (rs ++ [r])))
| m_return s rs : main s = MCollect rs → length rs = nclnt → step s (set_main s (MReturn rs))
| c_make s c :
    pc s c = Some CNew → step s (mkState (sys s) (<[c := Some CRun]> (pc s)) ({[c]} ∪ clerks s) (main s))
| c_round s c b y :
    (* the next round: no [select] here, or its [default] *)
    pc s c = Some CRun → round M c b (sys s) y → (b = false ∨ ∀ i, main s ≠ MBlocked i) →
    step s (mkState y (pc s) (clerks s) (main s))
| c_work s c y :
    pc s c = Some CRun → work M c (sys s) y → step s (mkState y (pc s) (clerks s) (main s))
| others s y :
    env M (sys s) y → step s (mkState y (pc s) (clerks s) (main s))
| c_delete s c :
    pc s c = Some CDelete → step s (mkState (sys s) (<[c := Some CExit]> (pc s)) (clerks s ∖ {[c]}) (main s)).

Definition init (sy : Y) : State := mkState sy (λ _, None) ∅ (MSpawn 0).

(** ** The invariant *)

(** Client [c] has taken its token. *)
Definition gone (s : State) (c : nat) : bool :=
  match pc s c with Some (CSend _) | Some CDelete | Some CExit => true | _ => false end.
Definition ngone (s : State) : nat := length (filter (λ c, gone s c = true) (seq 0 nclnt)).

Definition client_ok (s : State) (c : nat) : Prop :=
  match pc s c with
  | Some (CSend r) => result M (sys s) c = Some r
  | Some CDelete | Some CExit => is_Some (result M (sys s) c)
  | _ => True
  end.

Definition main_ok (s : State) : Prop :=
  match main s with
  | MSpawn i => (i ≤ nclnt)%nat ∧ ngone s = 0%nat ∧ ∀ c, pc s c = None ↔ (i ≤ c)%nat
  | MSleep => ngone s = 0%nat ∧ ∀ c, pc s c = None ↔ (nclnt ≤ c)%nat
  | MSignal i => (i ≤ nclnt)%nat ∧ ngone s = i ∧ ∀ c, pc s c = None ↔ (nclnt ≤ c)%nat
  | MBlocked i => (i < nclnt)%nat ∧ ngone s = i ∧ ∀ c, pc s c = None ↔ (nclnt ≤ c)%nat
  | MCollect rs | MReturn rs =>
      (length rs ≤ nclnt)%nat ∧ (∀ c, pc s c = None ↔ (nclnt ≤ c)%nat) ∧
      (∀ c, (c < length rs)%nat → (pc s c = Some CDelete ∨ pc s c = Some CExit) ∧
         ∃ r, rs !! c = Some r ∧ result M (sys s) c = Some r) ∧
      (∀ c, (length rs ≤ c < nclnt)%nat → ∃ r, pc s c = Some (CSend r)) ∧
      (∀ rs', main s = MReturn rs' → length rs = nclnt)
  end.

(** Results are taken only by the loop that collects them. *)
Definition early_ok (s : State) : Prop :=
  match main s with
  | MCollect _ | MReturn _ => True
  | _ => ∀ c, pc s c ≠ Some CDelete ∧ pc s c ≠ Some CExit
  end.

Record inv (s : State) : Prop := {
  in_clients : ∀ c, client_ok s c;
  in_main : main_ok s;
  in_early : early_ok s;
  in_clerks : ∀ c, c ∈ clerks s ↔ ∃ p, pc s c = Some p ∧ p ≠ CNew ∧ p ≠ CExit;
}.

Lemma ngone_ext s s' : (∀ c, gone s' c = gone s c) → ngone s' = ngone s.
Proof. intros E. unfold ngone. f_equal. apply list_filter_iff. intros c. by rewrite E. Qed.

Lemma count_flip (f g : nat → bool) l c :
  NoDup l → c ∈ l → f c = false → g c = true → (∀ k, k ≠ c → g k = f k) →
  length (filter (λ k, g k = true) l) = Datatypes.S (length (filter (λ k, f k = true) l)).
Proof.
  intros Hnd Hin Hf Hg Hne. induction Hnd as [|k l Hk Hnd IH]; [by apply not_elem_of_nil in Hin |].
  destruct (decide (k = c)) as [->|Hkc].
  - rewrite filter_cons_True, filter_cons_False by (rewrite ?Hf; done). simpl. f_equal. f_equal.
    clear -Hk Hne. induction l as [|k l IH]; [done |]. apply not_elem_of_cons in Hk as [Hk1 Hk2].
    rewrite !filter_cons, (Hne k) by done. by rewrite IH.
  - apply elem_of_cons in Hin as [->|Hin]; [done |]. rewrite !filter_cons, (Hne k) by done.
    destruct (decide (f k = true)); simpl; by rewrite IH.
Qed.

Lemma ngone_token s c r sy cl m :
  (c < nclnt)%nat → gone s c = false → ngone (mkState sy (<[c := Some (CSend r)]> (pc s)) cl m) = Datatypes.S (ngone s).
Proof.
  intros Hc Hg. unfold ngone. apply (count_flip (gone s) _ _ c); [apply NoDup_seq | apply elem_of_seq; lia | done | |].
  - unfold gone. simpl. by rewrite fn_lookup_insert.
  - intros k Hk. unfold gone. simpl. by rewrite fn_lookup_insert_ne.
Qed.

(** Clients that have all gone. *)
Lemma all_gone s c : ngone s = nclnt → (c < nclnt)%nat → gone s c = true.
Proof.
  intros Hn Hc. destruct (gone s c) eqn:E; [done |]. exfalso.
  assert (length (filter (λ k, gone s k = true) (seq 0 nclnt)) < length (seq 0 nclnt))%nat as Hlt.
  { apply (length_filter_lt _ _ c); [apply elem_of_seq; lia | by rewrite E]. }
  unfold ngone in Hn. rewrite length_seq in Hlt. lia.
Qed.

(** Somebody is still in its loop. *)
Lemma some_left s : (ngone s < nclnt)%nat → ∃ c, (c < nclnt)%nat ∧ gone s c = false.
Proof.
  intros Hn. destruct (decide (Exists (λ c, gone s c = false) (seq 0 nclnt))) as [He|He].
  - apply Exists_exists in He as (c & Hc & Hg). apply elem_of_seq in Hc. exists c. split; [lia | done].
  - exfalso. unfold ngone in Hn. rewrite filter_all in Hn; [rewrite length_seq in Hn; lia |].
    intros c Hc. destruct (gone s c) eqn:E; [done |]. exfalso. apply He. apply Exists_exists. by exists c.
Qed.

(** *** What the clients do meanwhile does not concern the channels *)

Context `{!RunnerLaws M}.

Lemma inv_sys s sy :
  inv s → (∀ c, result M sy c = result M (sys s) c) → inv (mkState sy (pc s) (clerks s) (main s)).
Proof.
  intros [Hc Hm He Hk] Hsy. split; [| | done | done].
  - intros c. specialize (Hc c). unfold client_ok in *. simpl. by rewrite Hsy.
  - unfold main_ok in *. simpl. destruct (main s); try done; by setoid_rewrite Hsy.
Qed.

Lemma inv_client s c p' cl :
  inv s → (pc s c = Some CNew ∧ p' = CRun ∧ cl = {[c]} ∪ clerks s) ∨ (pc s c = Some CDelete ∧ p' = CExit ∧ cl = clerks s ∖ {[c]}) →
  inv (mkState (sys s) (<[c := Some p']> (pc s)) cl (main s)).
Proof.
  intros [Hc Hm He Hk] Hp.
  assert (∀ c', gone (mkState (sys s) (<[c := Some p']> (pc s)) cl (main s)) c' = gone s c') as Hg.
  { intros c'. unfold gone. simpl. destruct (decide (c = c')) as [<-|Hne]; [rewrite fn_lookup_insert | by rewrite fn_lookup_insert_ne].
    by destruct Hp as [(-> & -> & _)|(-> & -> & _)]. }
  assert (∀ c', <[c := Some p']> (pc s) c' = None ↔ pc s c' = None) as Hn.
  { intros c'. destruct (decide (c = c')) as [<-|Hne]; [rewrite fn_lookup_insert | by rewrite fn_lookup_insert_ne].
    split; [done |]. intros E. rewrite E in Hp. naive_solver. }
  split.
  - intros c'. specialize (Hc c'). unfold client_ok in *. simpl. destruct (decide (c = c')) as [<-|Hne];
      [rewrite fn_lookup_insert | by rewrite fn_lookup_insert_ne]. by destruct Hp as [(Ep & -> & Hcl)|(Ep & -> & Hcl)]; rewrite Ep in Hc.
  - unfold main_ok in *. simpl. destruct (main s) as [i| |i|i|rs|rs]; rewrite ?(ngone_ext _ _ Hg); try (by setoid_rewrite Hn);
      destruct Hm as (H1' & H2' & H3' & H4' & H5'); (split_and!; [done | by setoid_rewrite Hn | | | done]).
    all: try (intros c' Hlt; destruct (H3' c' Hlt) as [Hd Hr]; split; [| done];
      destruct (decide (c = c')) as [<-|Hne]; [rewrite fn_lookup_insert | by rewrite fn_lookup_insert_ne];
      destruct Hp as [(Ep & -> & Hcl)|(Ep & -> & Hcl)]; rewrite Ep in Hd; [naive_solver | by right]).
    all: intros c' Hlt; destruct (H4' c' Hlt) as [r Hd]; exists r;
      destruct (decide (c = c')) as [<-|Hne]; [rewrite Hd in Hp; naive_solver | by rewrite fn_lookup_insert_ne].
  - unfold early_ok in *. simpl. destruct (main s); try done; intros c'; specialize (He c') as [H1' H2'];
      (destruct (decide (c = c')) as [<-|Hne]; [rewrite fn_lookup_insert | by rewrite fn_lookup_insert_ne]);
      destruct Hp as [(Ep & -> & Hcl)|(Ep & -> & Hcl)]; done.
  - intros c'. simpl. destruct (decide (c = c')) as [<-|Hne].
    + rewrite fn_lookup_insert. destruct Hp as [(Ep & -> & Hcl)|(Ep & -> & Hcl)]; subst cl; simpl; [split; [eauto | set_solver] | split; [set_solver | naive_solver]].
    + rewrite fn_lookup_insert_ne by done. rewrite <- Hk. destruct Hp as [(_ & _ & ->)|(_ & _ & ->)]; set_solver.
Qed.

(** A step of the test's goroutine alone. *)
Lemma inv_main s m : inv s → main_ok (set_main s m) → early_ok (set_main s m) → inv (set_main s m).
Proof. intros [Hc Hm He Hk] Hm' He'. by split. Qed.

Lemma inv_spawn s i : inv s → main s = MSpawn i → (i < nclnt)%nat →
  inv (mkState (sys s) (<[i := Some CNew]> (pc s)) (clerks s) (MSpawn (i + 1))).
Proof.
  intros [Hc Hm He Hk] Em Hi. unfold main_ok in Hm. rewrite Em in Hm. destruct Hm as (_ & Hg & Hn).
  assert (pc s i = None) as Hi0 by (apply Hn; lia). split.
  - intros c. specialize (Hc c). unfold client_ok in *. simpl. destruct (decide (i = c)) as [<-|Hne];
      [by rewrite fn_lookup_insert | by rewrite fn_lookup_insert_ne].
  - split; [lia |]. split.
    + rewrite <- Hg. apply ngone_ext. intros c. unfold gone. simpl. destruct (decide (i = c)) as [<-|Hne];
        [by rewrite fn_lookup_insert, Hi0 | by rewrite fn_lookup_insert_ne].
    + intros c. simpl. destruct (decide (i = c)) as [<-|Hne]; [rewrite fn_lookup_insert; split; [done | lia] |].
      rewrite fn_lookup_insert_ne, Hn by done. lia.
  - unfold early_ok in *. rewrite Em in He. simpl. intros c. destruct (decide (i = c)) as [<-|Hne];
      [by rewrite fn_lookup_insert | by rewrite fn_lookup_insert_ne].
  - intros c. simpl. rewrite Hk. destruct (decide (i = c)) as [<-|Hne]; [| by rewrite fn_lookup_insert_ne].
    rewrite fn_lookup_insert, Hi0. naive_solver.
Qed.

Lemma inv_token s i c r y :
  inv s → main s = MBlocked i → pc s c = Some CRun → take M c r (sys s) y →
  inv (mkState y (<[c := Some (CSend r)]> (pc s)) (clerks s) (MSignal (i + 1))).
Proof.
  intros [Hc Hm He Hk] Em Hp [Hr Hoth]%take_result. unfold main_ok in Hm. rewrite Em in Hm. destruct Hm as (Hi & Hg & Hn).
  assert (c < nclnt)%nat as Hlt. { destruct (decide (c < nclnt)%nat) as [?|Hge]; [done |]. specialize (Hn c). rewrite Hp in Hn. destruct Hn as [_ Hn]. discriminate Hn. lia. }
  split.
  - intros c'. specialize (Hc c'). unfold client_ok in *. simpl. destruct (decide (c = c')) as [<-|Hne];
      [by rewrite fn_lookup_insert | by rewrite fn_lookup_insert_ne, Hoth].
  - split; [lia |]. split.
    + rewrite ngone_token; [lia | done |]. unfold gone. by rewrite Hp.
    + intros c'. simpl. rewrite <- Hn. destruct (decide (c = c')) as [<-|Hne]; [rewrite fn_lookup_insert, Hp; naive_solver | by rewrite fn_lookup_insert_ne].
  - unfold early_ok in *. rewrite Em in He. simpl. intros c'. destruct (decide (c = c')) as [<-|Hne];
      [by rewrite fn_lookup_insert | by rewrite fn_lookup_insert_ne].
  - intros c'. simpl. rewrite Hk. destruct (decide (c = c')) as [<-|Hne]; [| by rewrite fn_lookup_insert_ne].
    rewrite fn_lookup_insert, Hp. naive_solver.
Qed.

Lemma inv_receive s rs r :
  inv s → main s = MCollect rs → (length rs < nclnt)%nat → pc s (length rs) = Some (CSend r) →
  inv (mkState (sys s) (<[length rs := Some CDelete]> (pc s)) (clerks s) (MCollect (rs ++ [r]))).
Proof.
  intros [Hc Hm He Hk] Em Hi Hp. unfold main_ok in Hm. rewrite Em in Hm. destruct Hm as (_ & Hn & Hd & Hs & _).
  set (k := length rs) in *. pose proof (Hc k) as Hck. unfold client_ok in Hck. rewrite Hp in Hck. split.
  - intros c. specialize (Hc c). unfold client_ok in *. simpl. destruct (decide (k = c)) as [<-|Hne];
      [rewrite fn_lookup_insert; eauto | by rewrite fn_lookup_insert_ne].
  - unfold main_ok. simpl. rewrite length_app. simpl. fold k. split_and!; [lia | | | | done].
    + intros c. rewrite <- Hn. destruct (decide (k = c)) as [<-|Hne]; [rewrite fn_lookup_insert, Hp; naive_solver | by rewrite fn_lookup_insert_ne].
    + intros c Hlt. destruct (decide (k = c)) as [<-|Hne].
      * rewrite fn_lookup_insert. split; [by left |]. exists r. split; [| done]. rewrite lookup_app_r by (fold k; lia). fold k. by rewrite Nat.sub_diag.
      * rewrite fn_lookup_insert_ne by done. destruct (Hd c) as [? (r' & Hr' & ?)]; [lia |]. split; [done |]. exists r'. split; [by apply lookup_app_l_Some | done].
    + intros c Hlt. rewrite fn_lookup_insert_ne by lia. apply Hs. lia.
  - done.
  - intros c. simpl. rewrite Hk. destruct (decide (k = c)) as [<-|Hne]; [| by rewrite fn_lookup_insert_ne].
    rewrite fn_lookup_insert, Hp. naive_solver.
Qed.

Lemma spawn_inv_step s s' : inv s → step s s' → inv s'.
Proof.
  intros Hi Hs. pose proof (in_main _ Hi) as Hm. pose proof (in_early _ Hi) as He. unfold main_ok in Hm. unfold early_ok in He.
  destruct Hs as [s i Em Hlt|s Em|s Em|s i Em Hlt|s Em|s i c r y Em Hp Ht|s rs r Em Hlt Hp|s rs Em Hlen|s c Hp
    |s c b y Hp Hr Hd|s c y Hp Hw|s y He'|s c Hp]; try rewrite Em in Hm, He.
  - by apply inv_spawn.
  - apply inv_main; [done | | exact He]. exact (conj (proj1 (proj2 Hm)) (proj2 (proj2 Hm))).
  - apply inv_main; [done | | exact He]. split; [lia | exact Hm].
  - apply inv_main; [done | | exact He]. split; [done | exact (proj2 Hm)].
  - apply inv_main; [done | | done]. destruct Hm as (_ & Hg & Hn). unfold main_ok. simpl. split_and!; [lia | done | lia | | done].
    intros c Hlt. pose proof (all_gone s c Hg (proj2 Hlt)) as Hgc. destruct (He c) as [H1' H2'].
    unfold gone in Hgc. destruct (pc s c) as [[| |r| |]|]; try done. by exists r.
  - by eapply inv_token.
  - by apply inv_receive.
  - apply inv_main; [done | | done]. destruct Hm as (H1' & H2' & H3' & H4' & _). unfold main_ok. simpl. split_and!; try done.
  - apply inv_client; [done | by left].
  - apply inv_sys; [done |]. intros c'. by eapply round_result.
  - apply inv_sys; [done |]. intros c'. by eapply work_result.
  - apply inv_sys; [done |]. intros c'. by eapply env_result.
  - apply inv_client; [done | by right].
Qed.

Lemma spawn_inv_init sy : inv (init sy).
Proof.
  split; try done.
  - split; [lia |]. split; [| simpl; split; [lia | done]]. unfold ngone. rewrite filter_none; [done |]. intros c _. done.
  - intros c. simpl. split; [set_solver | by intros (? & ? & _)].
Qed.

Lemma spawn_reachable_inv sy s : rtc step (init sy) s → inv s.
Proof. intros Hs. generalize (spawn_inv_init sy). induction Hs; eauto using spawn_inv_step. Qed.

(** The clients' system sees a run of its own. *)
Lemma spawn_moves (P : Y → Prop) s0 s :
  rtc (λ s s', step s s' ∧ P (sys s)) s0 s → rtc (λ x y, moves M x y ∧ P x) (sys s0) (sys s).
Proof.
  intros Hs. induction Hs as [|s0 s1 s2 [H1' HP] _ IH]; [done |]. etransitivity; [| exact IH]. clear IH.
  destruct H1'; simpl; try done; (apply rtc_once; split; [| done]); eauto using moves.
Qed.

(** The results that are returned. *)
Lemma spawn_results sy s rs : rtc step (init sy) s → main s = MReturn rs →
  length rs = nclnt ∧ ∀ c r, rs !! c = Some r → result M (sys s) c = Some r.
Proof.
  intros Hs Em. pose proof (in_main _ (spawn_reachable_inv _ _ Hs)) as Hm. unfold main_ok in Hm. rewrite Em in Hm.
  destruct Hm as (_ & _ & Hd & _ & Hlen). specialize (Hlen rs eq_refl). split; [done |].
  intros c r Hc. destruct (Hd c) as [_ (r' & Hr' & Hf)]; [by eapply lookup_lt_Some |]. by simplify_eq.
Qed.

(** Once all tokens are handed out the test's goroutine returns on its own. *)
Lemma collect_returns k : ∀ s rs, inv s → main s = MCollect rs → (length rs + k = nclnt)%nat →
  ∃ s' rs', rtc step s s' ∧ main s' = MReturn rs' ∧ sys s' = sys s.
Proof.
  induction k as [|k IH]; intros s rs Hi Em Hk.
  - eexists _, rs. split; [apply rtc_once; apply (m_return s rs Em); lia | done].
  - pose proof (in_main _ Hi) as Hm. unfold main_ok in Hm. rewrite Em in Hm. destruct Hm as (_ & _ & _ & Hs & _).
    destruct (Hs (length rs)) as [r Hp]; [lia |].
    pose proof (m_receive s rs r Em ltac:(lia) Hp) as Hst.
    destruct (IH _ (rs ++ [r]) (spawn_inv_step _ _ Hi Hst) eq_refl) as (s' & rs' & Hr & Em' & Hsy).
    { rewrite length_app. simpl. lia. }
    exists s', rs'. split; [by eapply rtc_l | done].
Qed.

End spawn.
Arguments State Y R : clear implicits.

(** ** Clients that run [ClerkProg] loops *)

Section clerk.
Context {S : Type} `{VStore S} {A R : Type}.
Context (reliable : bool) (body : nat → Z → A → ClerkProg.Prog A) (stop : A → option R).

Definition clerk_result (y : ClerkProg.State S A R) (c : nat) : option R :=
  match ClerkProg.client y c with ClerkProg.Finished r => Some r | _ => None end.

Definition set_client (y : ClerkProg.State S A R) (c : nat) (x : ClerkProg.Client A R) : ClerkProg.State S A R :=
  ClerkProg.mkState (ClerkProg.server y) (ClerkProg.late y) (<[c := x]> (ClerkProg.client y)).

Inductive clerk_env : ClerkProg.State S A R → ClerkProg.State S A R → Prop :=
| ce_late y z1 c a z2 :
    ClerkProg.late y = z1 ++ (c, a) :: z2 →
    clerk_env y (ClerkProg.mkState (vs_Put (ClerkProg.server y) a PutReply_zero).1 (z1 ++ z2) (ClerkProg.client y)).
Inductive clerk_work (c : nat) : ClerkProg.State S A R → ClerkProg.State S A R → Prop :=
| cw_call y p first srv z p' first' :
    ClerkProg.client y c = ClerkProg.Running p first →
    ClerkProg.prog_step reliable c (ClerkProg.server y, ClerkProg.late y) (p, first) (srv, z) (p', first') →
    clerk_work c y (ClerkProg.mkState srv z (<[c := ClerkProg.Running p' first']> (ClerkProg.client y))).
Inductive clerk_round (c : nat) : bool → ClerkProg.State S A R → ClerkProg.State S A R → Prop :=
| cr_round y a first rnd :
    ClerkProg.client y c = ClerkProg.Running (ClerkProg.Done a) first →
    clerk_round c (bool_decide (is_Some (stop a))) y (set_client y c (ClerkProg.Running (body c rnd a) true)).
Inductive clerk_take (c : nat) (r : R) : ClerkProg.State S A R → ClerkProg.State S A R → Prop :=
| ct_take y a first :
    ClerkProg.client y c = ClerkProg.Running (ClerkProg.Done a) first → stop a = Some r →
    clerk_take c r y (set_client y c (ClerkProg.Finished r)).

Definition clerk_runner : Runner (ClerkProg.State S A R) R :=
  mkRunner _ _ clerk_result clerk_env clerk_work clerk_round clerk_take.

#[export] Instance clerk_runner_laws : RunnerLaws clerk_runner.
Proof.
  assert (∀ (cl : nat → ClerkProg.Client A R) c k p p' f f' srv srv' z z', cl c = ClerkProg.Running p f →
    clerk_result (ClerkProg.mkState srv z (<[c := ClerkProg.Running p' f']> cl)) k = clerk_result (ClerkProg.mkState srv' z' cl) k) as Hrun.
  { intros cl c k p p' f f' srv srv' z z' E. unfold clerk_result. simpl. destruct (decide (c = k)) as [<-|Hne];
      [by rewrite fn_lookup_insert, E | by rewrite fn_lookup_insert_ne]. }
  split; simpl.
  - by intros y y' c [].
  - intros y y' k c [[srv0 z0 cl0] p f srv z p' f' Hc Hp]. by eapply Hrun.
  - intros y y' k b c [[srv0 z0 cl0] a f rnd Hc]. by eapply Hrun.
  - intros y y' c r [y0 a f Hc Hst]. unfold clerk_result. simpl. split; [by rewrite fn_lookup_insert |].
    intros k Hk. by rewrite fn_lookup_insert_ne.
Qed.

Lemma clerk_moves y y' : moves clerk_runner y y' → ClerkProg.step reliable body stop y y'.
Proof.
  intros [[] |c [] |c b []|c r []].
  - by eapply ClerkProg.late_put.
  - by eapply ClerkProg.client_call.
  - by eapply ClerkProg.client_loop.
  - by eapply ClerkProg.client_stop.
Qed.

End clerk.

(** ** The properties *)

(** C18: [SpawnClientsAndWait] waits for its clients and for nothing else.
    Whatever the clients do in their loops and the schedule of the test's
    goroutine and the clients, if it returns, it returns one result per
    client, in the clients' order, each the value the client's function
    returned after taking one token; the clients' system has made a run of
    its own steps.  While it is blocked handing out a token, some client has
    not taken one yet and is on its way to; and once all tokens are handed
    out, every result is being offered and it returns without anybody else
    moving. *)
Theorem spawn_waits {Y R : Type} (M : Runner Y R) `{!RunnerLaws M} (nclnt : nat) (sy : Y) (s : State Y R)
    (Hs : rtc (step M nclnt) (init sy) s) :
  (∀ rs, main s = MReturn rs →
     length rs = nclnt ∧ (∀ c r, rs !! c = Some r → result M (sys s) c = Some r) ∧ rtc (moves M) sy (sys s)) ∧
  (∀ i, main s = MBlocked i → ∃ c, (c < nclnt)%nat ∧ (pc s c = Some CNew ∨ pc s c = Some CRun)) ∧
  (∀ rs, main s = MCollect rs → ∃ s' rs', rtc (step M nclnt) s s' ∧ main s' = MReturn rs' ∧ sys s' = sys s).
Proof.
  pose proof (spawn_reachable_inv _ _ _ _ Hs) as Hi. pose proof (in_main _ _ _ Hi) as Hm. unfold main_ok in Hm.
  split_and!.
  - intros rs Em. destruct (spawn_results M nclnt sy s rs Hs Em) as [Hlen Hres]. split_and!; [done | done |].
    eapply (rtc_subrel (λ x y, moves M x y ∧ True)); [by intros ? ? [] |].
    apply (spawn_moves M nclnt (λ _, True) (init sy) s). by eapply rtc_subrel; [| exact Hs].
  - intros i Em. rewrite Em in Hm. destruct Hm as (Hlt & Hg & Hn). destruct (some_left nclnt s) as (c & Hc & Hgc); [lia |].
    exists c. split; [done |]. unfold gone in Hgc. destruct (pc s c) as [[| |r| |]|] eqn:E; try done; auto.
    exfalso. apply Hn in E. lia.
  - intros rs Em. pose proof Hm as Hm'. rewrite Em in Hm'. destruct Hm' as (Hle & _).
    apply (collect_returns M nclnt (nclnt - length rs) s rs Hi Em). lia.
Qed.

(** The append test as a whole.  [SpawnClientsAndWait] of [n] clients that
    run [OneClientAppend] over any store that meets [VStore], while the
    network drops requests, loses replies and runs abandoned requests late:
    if it returns [rs], then reading key ["k"] gives entries and a version
    that [CheckAppends] accepts with [rs].  (Runs in which neither versions
    nor counters reach 2^62.) *)
Theorem append_test_passes {S : Type} `{VStore S} `{KVTest.Marshal (list KVTest.entry)} (reliable : bool) (n : nat)
    (srv : S) (b : string) (s : State (ClerkProg.State S KVTest.AppLocals KVTest.ClntRes) KVTest.ClntRes)
    (rs : list KVTest.ClntRes) order :
  vs_ok srv → vs_abs srv !! "k" = Some (b, 1) → KVTest.unmarshal b = Some [] →
  rtc (λ s s', step (clerk_runner reliable KVTest.OneClientAppend_body KVTest.OneClientAppend_stop) n s s' ∧
         (∀ k, ver_of (vs_abs (ClerkProg.server (sys s))) k + 1 < two64) ∧
         KVTest.appends_small (vs_abs (ClerkProg.server (sys s))) (ClerkProg.client (sys s)))
    (init (ClerkProg.mkState srv [] (KVTest.append_start n))) s →
  main s = MReturn rs → ver_of (vs_abs (ClerkProg.server (sys s))) "k" < KVTest.two62 → (∀ m, order m ≡ₚ map_to_list m) →
  ∃ es ver F, KVTest.GetJson (V := list KVTest.entry) "k" = ClerkProg.ClerkGet "k" F ∧
    F (ClerkProg.got (vs_abs (ClerkProg.server (sys s))) "k") = ClerkProg.Done (es, ver) ∧
    KVTest.CheckAppends order es n rs ver = Ret ().
Proof.
  intros Hok Hb Hu Hs Em Hv Hord.
  destruct (spawn_results (clerk_runner reliable KVTest.OneClientAppend_body KVTest.OneClientAppend_stop) n
    (ClerkProg.mkState srv [] (KVTest.append_start n)) s rs) as [Hlen Hres]; [| done |].
  { eapply rtc_subrel; [| exact Hs]. by intros ? ? []. }
  apply (spawn_moves _ n
    (λ x, (∀ k, ver_of (vs_abs (ClerkProg.server x)) k + 1 < two64) ∧ KVTest.appends_small (vs_abs (ClerkProg.server x)) (ClerkProg.client x))) in Hs.
  apply (rtc_subrel _ (ClerkProg.step_nw reliable KVTest.OneClientAppend_body KVTest.OneClientAppend_stop KVTest.appends_small)) in Hs;
    [| intros x y [Hm Hx]; split; [by eapply clerk_moves | done]].
  destruct (KVTest.appends_outcome reliable n srv b (sys s) Hok Hb Hu Hs) as [_ Hc]. apply Hc; [| done | done].
  split; [done |]. intros c r Hr. specialize (Hres c r Hr). simpl in Hres. unfold clerk_result in Hres.
  destruct (ClerkProg.client (sys s) c); by simplify_eq.
Qed.

(** *** Witness: one client, which appends once before it takes its token *)

Abbreviation ex_body := (KVTest.OneClientAppend_body (H := KVTest.ex_marshal)).

Ltac ex_step tac :=
  eapply rtc_l; [split; [tac | split; [
    intros k; apply Z.lt_add_lt_sub_r; apply KVTest.ver_of_bound; [vm_compute; reflexivity |];
      apply (bool_decide_unpack _); vm_compute; exact I
  | intros [|c] l f Hcl; match type of Hcl with ?a = ?b => let x := eval hnf in a in change (x = b) in Hcl end;
      [first [discriminate Hcl | injection Hcl as <- _; reflexivity] | discriminate Hcl] ]] |];
  unfold set_main, set_client; cbn [sys pc clerks main ClerkProg.server ClerkProg.late ClerkProg.client].

Lemma ex_spawn_run :
  ∃ s, rtc (λ s s', step (clerk_runner false ex_body KVTest.OneClientAppend_stop) 1 s s' ∧
         (∀ k, ver_of (vs_abs (ClerkProg.server (sys s))) k + 1 < two64) ∧
         KVTest.appends_small (vs_abs (ClerkProg.server (sys s))) (ClerkProg.client (sys s)))
    (init (ClerkProg.mkState KVTest.ex_store [] (KVTest.append_start 1))) s ∧
  main s = MReturn [KVTest.mkClntRes 1 0] ∧ ver_of (vs_abs (ClerkProg.server (sys s))) "k" = 2.
Proof.
  eexists. split.
  - ex_step ltac:(eapply (m_spawn _ _ _ 0%nat); [reflexivity | lia]).
    ex_step ltac:(eapply (c_make _ _ _ 0%nat); reflexivity).
    ex_step ltac:(eapply m_spawned; reflexivity).
    ex_step ltac:(eapply (c_round _ _ _ 0%nat); [reflexivity | eapply cr_round with (rnd := 0); reflexivity | right; discriminate]).
    ex_step ltac:(eapply (c_work _ _ _ 0%nat); [reflexivity | eapply cw_call; [reflexivity | apply ClerkProg.get_replied]]).
    ex_step ltac:(eapply m_slept; reflexivity).
    ex_step ltac:(eapply (m_send _ _ _ 0%nat); [reflexivity | lia]).
    ex_step ltac:(eapply (c_work _ _ _ 0%nat); [reflexivity | eapply cw_call; [reflexivity | apply ClerkProg.put_replied]]).
    ex_step ltac:(eapply (token _ _ _ 0%nat 0%nat); [reflexivity | reflexivity | eapply ct_take; reflexivity]).
    ex_step ltac:(eapply m_signalled; reflexivity).
    ex_step ltac:(eapply (m_receive _ _ _ []); [reflexivity | simpl; lia | reflexivity]).
    ex_step ltac:(eapply m_return; reflexivity).
    apply rtc_refl.
  - split; reflexivity.
Qed.

Lemma spawn_waits_witness :
  ∃ s : State (ClerkProg.State KVServer.KVServer KVTest.AppLocals KVTest.ClntRes) KVTest.ClntRes,
    main s = MReturn [KVTest.mkClntRes 1 0] ∧
    result (clerk_runner false ex_body KVTest.OneClientAppend_stop) (sys s) 0%nat = Some (KVTest.mkClntRes 1 0).
Proof.
  destruct ex_spawn_run as (s & Hr & Em & _). exists s. split; [exact Em |].
  destruct (spawn_waits (clerk_runner false ex_body KVTest.OneClientAppend_stop) 1 (ClerkProg.mkState KVTest.ex_store [] (KVTest.append_start 1)) s) as [Hres _].
  - eapply rtc_subrel; [| exact Hr]. intros ? ? [H1 _]. exact H1.
  - exact (proj1 (proj2 (Hres _ Em)) 0%nat _ eq_refl).
Defined.

Lemma append_test_passes_witness :
  ∃ es ver, KVTest.CheckAppends (λ m, map_to_list m) es 1 [KVTest.mkClntRes 1 0] ver = Ret ().
Proof.
  destruct ex_spawn_run as (s & Hr & Em & Hver).
  destruct (append_test_passes (H := KVServer_VStore) (H0 := KVTest.ex_marshal) false 1 KVTest.ex_store KVTest.ex_empty s [KVTest.mkClntRes 1 0]
    (λ m, map_to_list m) (KVServer.Put_wf _ _ _ KVServer.MakeKVServer_wf) eq_refl ltac:(vm_compute; reflexivity) Hr Em
    ltac:(rewrite Hver; vm_compute; reflexivity) ltac:(done)) as (es & ver & _ & _ & _ & Hc).
  exists es, ver. exact Hc.
Defined.

End KVSpawn.
