(* ===== verification/Annotation.v ===== *)
(** * Annotations of test runs: [tester1/annotation.go]

    The visualiser shows, beside the operations of a test, what the test
    framework did: points, intervals, and "continuous" annotations that last
    until the next one of the same tag.  [Module Annotation] models the store
    of annotations, the framework's record of crashed and disconnected
    servers, and every function that changes them; the clock is an argument
    of the operations.  The theorems compare the intervals tagged
    [TAG_PARTITION] with the history of faults they are meant to show. *)

From S2P Require Import Prelude.

Module Annotation.

Local Open Scope string_scope.
Local Open Scope list_scope.
Local Open Scope Z_scope.

(** ** Data *)

(** [porcupine.Annotation], the fields the tester sets.  [End] is zero for a
    point in time. *)
Record Annot := mkAnnot {
  Tag : string;
  Start : Z;
  End_ : Z;
  Description : string;
  Details : string;
  BackgroundColor : string;
}.

Record Continuous := mkContinuous {
  start : Z;
  desp : string;
  details : string;
  bgcolor : string;
}.

(** The value a Go map returns for an absent key. *)
Definition Continuous_zero : Continuous := mkContinuous 0 "" "" "".

Record Annotation := mkAn {
  annotations : list Annot;
  continuous : gmap string Continuous;
  finalized : bool;
}.

Record CheckerBegin := mkCheckerBegin { ts : Z; ck_details : string }.

Record FrameworkInfo := mkFinfo {
  nservers : nat;
  connected : list bool;
  crashed : list bool;
  ckbegin : CheckerBegin;
}.

(** The package's variables [annotation] and [finfo]; [finfo] is nil until
    the first [AnnotateTest]. *)
Record Global := mkGlobal { annotation : Annotation; finfo : option FrameworkInfo }.

Definition COLOR_INFO : string := "#FAFAFA".
Definition COLOR_NEUTRAL : string := "#FFECB3".
Definition COLOR_SUCCESS : string := "#C8E6C9".
Definition COLOR_FAILURE : string := "#FFCDD2".
Definition COLOR_FAULT : string := "#B3E5FC".
Definition COLOR_USER : string := "#FFF176".

Definition TAG_CHECKER : string := "$ Checker".
Definition TAG_PARTITION : string := "$ Failure".
Definition TAG_INFO : string := "$ Test Info".

#[export] Instance Annot_eq_dec : EqDecision Annot.
Proof. solve_decision. Defined.
#[export] Instance Continuous_eq_dec : EqDecision Continuous.
Proof. solve_decision. Defined.

(** ** The store of annotations *)

Definition mkAnnotation : Annotation := mkAn [] ∅ false.

Definition append_annot (an : Annotation) (a : Annot) : Annotation :=
  mkAn (annotations an ++ [a]) (continuous an) (finalized an).

Definition annotatePointColor (t : Z) (an : Annotation) (tag desp details bgcolor : string) : Annotation :=
  append_annot an (mkAnnot tag t 0 desp details bgcolor).

Definition annotateIntervalColor (t : Z) (an : Annotation) (tag : string) (start : Z)
    (desp details bgcolor : string) : Annotation :=
  append_annot an (mkAnnot tag start t desp details bgcolor).

(** A continuous annotation of [tag] that ends at [t]. *)
Definition concretize (tag : string) (cont : Continuous) (t : Z) : Annot :=
  mkAnnot tag (start cont) t (desp cont) (details cont) (bgcolor cont).

Definition annotateContinuousColor (t : Z) (an : Annotation) (tag desp details bgcolor : string) : Annotation :=
  match continuous an !! tag with
  | None => mkAn (annotations an) (<[tag := mkContinuous t desp details bgcolor]> (continuous an)) (finalized an)
  | Some cont =>
      mkAn (annotations an ++ [concretize tag cont t])
        (<[tag := mkContinuous t desp details bgcolor]> (continuous an)) (finalized an)
  end.

(** The code tests whether an annotation is going on but does not return
    when there is none: it then appends the zero value. *)
Definition annotateContinuousEnd (t : Z) (an : Annotation) (tag : string) : Annotation :=
  let cont := default Continuous_zero (continuous an !! tag) in
  mkAn (annotations an ++ [concretize tag cont t]) (delete tag (continuous an)) (finalized an).

(** [finalize]: [order] is the order in which the map is iterated. *)
Definition finalize (t : Z) (order : list string) (an : Annotation) : list Annot * Annotation :=
  (annotations an ++ omap (λ tag, (λ cont, concretize tag cont t) <$> continuous an !! tag) order,
   mkAn (annotations an) (continuous an) true).

Definition clear (an : Annotation) : Annotation := mkAn [] ∅ false.

Definition isFinalized (an : Annotation) : bool := finalized an.

(** The closing point annotation of [FinalizeAnnotations] and [cleanup]. *)
Definition end_annot (t : Z) (end_ : string) : Annot := mkAnnot TAG_INFO t 0 end_ end_ COLOR_INFO.

(** [cleanup]: [enabled] is the environment variable [VIS_ENABLE], [opened]
    whether the output file could be created, [t1] and [t2] the two readings
    of the clock.  The second component is what is written to the file. *)
Definition cleanup (t1 t2 : Z) (enabled : string) (opened : bool) (order : list string)
    (an : Annotation) (failed : bool) (end_ : string) : Annotation * option (list Annot) :=
  if bool_decide (enabled = "never") || (negb failed && negb (bool_decide (enabled = "always"))) || isFinalized an
  then (clear an, None)
  else
    let '(anns, an') := finalize t1 order an in
    match anns with
    | [] => (an', None)
    | _ => if opened then (an', Some (anns ++ [end_annot t2 end_])) else (an', None)
    end.

(** The goroutine of [captureSignal], when the process is interrupted; it
    exits after that. *)
Definition on_interrupt (t1 t2 : Z) (enabled : string) (opened : bool) (order : list string) (g : Global) :
    Annotation * option (list Annot) :=
  cleanup t1 t2 enabled opened order (annotation g) true "interrupted".

(** An interrupted test is visualized unless that is switched off, it was
    finalized before, there is nothing to show, or the file cannot be made. *)
Lemma on_interrupt_writes t1 t2 enabled order g :
  enabled ≠ "never" → isFinalized (annotation g) = false → (finalize t1 order (annotation g)).1 ≠ [] →
  (on_interrupt t1 t2 enabled true order g).2 =
    Some ((finalize t1 order (annotation g)).1 ++ [end_annot t2 "interrupted"]).
Proof.
  intros He Hf Hne. unfold on_interrupt, cleanup. rewrite bool_decide_false, Hf by done. cbn [orb negb andb].
  revert Hne. by destruct (finalize t1 order (annotation g)) as [[|a l] an'].
Qed.

(** ** The public interface: the functions on the package's variables *)

Definition on_annotation (f : Annotation → Annotation) (g : Global) : Global :=
  mkGlobal (f (annotation g)) (finfo g).

Definition FinalizeAnnotations (t1 t2 : Z) (order : list string) (g : Global) (end_ : string) : list Annot * Global :=
  let '(anns, an') := finalize t1 order (annotation g) in
  (anns ++ [end_annot t2 end_], mkGlobal an' (finfo g)).

Definition AnnotatePointColor (t : Z) (tag desp details bgcolor : string) (g : Global) : Global :=
  on_annotation (λ an, annotatePointColor t an tag desp details bgcolor) g.

Definition AnnotateIntervalColor (t : Z) (tag : string) (start : Z) (desp details bgcolor : string) (g : Global) : Global :=
  on_annotation (λ an, annotateIntervalColor t an tag start desp details bgcolor) g.

Definition AnnotateContinuousColor (t : Z) (tag desp details bgcolor : string) (g : Global) : Global :=
  on_annotation (λ an, annotateContinuousColor t an tag desp details bgcolor) g.

Definition AnnotateContinuousEnd (t : Z) (tag : string) (g : Global) : Global :=
  on_annotation (λ an, annotateContinuousEnd t an tag) g.

Definition Annotate (t : Z) (tag desp details : string) (g : Global) : Global :=
  AnnotatePointColor t tag desp details COLOR_USER g.

Definition AnnotateInterval (t : Z) (tag : string) (start : Z) (desp details : string) (g : Global) : Global :=
  AnnotateIntervalColor t tag start desp details COLOR_USER g.

Definition AnnotateContinuous (t : Z) (tag desp details : string) (g : Global) : Global :=
  AnnotateContinuousColor t tag desp details COLOR_USER g.

Definition AnnotateInfo (t : Z) (desp details : string) (g : Global) : Global :=
  AnnotatePointColor t TAG_INFO desp details COLOR_INFO g.

Definition AnnotateInfoInterval (t : Z) (start : Z) (desp details : string) (g : Global) : Global :=
  AnnotateIntervalColor t TAG_INFO start desp details COLOR_INFO g.

Definition SetAnnotationFinalized (g : Global) : Global :=
  on_annotation (λ an, mkAn (annotations an) (continuous an) true) g.

Definition GetAnnotationFinalized (g : Global) : bool := isFinalized (annotation g).

Definition nil_finfo : string := "nil pointer dereference".
Definition out_of_range : string := "index out of range".

(** [make([]bool, nservers)] panics for a negative length. *)
Definition mkFrameworkInfo (nservers : Z) : GoRes FrameworkInfo :=
  if bool_decide (nservers < 0) then Abort "makeslice: len out of range"
  else let n := Z.to_nat nservers in
       Ret (mkFinfo n (replicate n true) (replicate n false) (mkCheckerBegin 0 "")).

Definition AnnotateTest (t : Z) (desp : string) (nservers : Z) (g : Global) : GoRes Global :=
  let details := desp +:+ " (" +:+ Itoa nservers +:+ " servers)" in
  (let* fi := mkFrameworkInfo nservers in
   let g' := mkGlobal (clear (annotation g)) (Some fi) in
   Ret (AnnotateInfo t details details g'))%go.

Definition AnnotateCheckerBegin (t : Z) (details : string) (g : Global) : GoRes Global :=
  (let* fi := deref (finfo g) nil_finfo in
   Ret (mkGlobal (annotation g)
          (Some (mkFinfo (nservers fi) (connected fi) (crashed fi) (mkCheckerBegin t details)))))%go.

(** [ckbegin.ts = 0] at the end assigns to the local copy. *)
Definition AnnotateCheckerEnd (t : Z) (desp details color : string) (g : Global) : GoRes Global :=
  (let* fi := deref (finfo g) nil_finfo in
   let ck := ckbegin fi in
   if bool_decide (ts ck = 0) then Ret (AnnotatePointColor t TAG_CHECKER desp details color g)
   else
     let d := ck_details ck +:+ ": " +:+ details in
     Ret (AnnotateIntervalColor t TAG_CHECKER (ts ck) desp d color g))%go.

Definition AnnotateCheckerSuccess (t : Z) (desp details : string) (g : Global) : GoRes Global :=
  AnnotateCheckerEnd t desp details COLOR_SUCCESS g.

Definition AnnotateCheckerFailure (t : Z) (desp details : string) (g : Global) : GoRes Global :=
  AnnotateCheckerEnd t desp details COLOR_FAILURE g.

Definition AnnotateCheckerNeutral (t : Z) (desp details : string) (g : Global) : GoRes Global :=
  AnnotateCheckerEnd t desp details COLOR_NEUTRAL g.

Definition AnnotateCheckerFailureBeforeExit (t t1 t2 : Z) (enabled : string) (opened : bool) (order : list string)
    (desp details : string) (g : Global) : GoRes (Global * option (list Annot)) :=
  (let* g' := AnnotateCheckerFailure t desp details g in
   let '(an', out) := cleanup t1 t2 enabled opened order (annotation g') true "test failed" in
   Ret (mkGlobal an' (finfo g'), out))%go.

(** ** Faults: crashed and disconnected servers *)

(** [fmt.Sprintf("%v", ids)] for a slice of ints. *)
Definition Sprint_ints (ids : list Z) : string := "[" +:+ String.concat " " (Itoa <$> ids) +:+ "]".

(** [copy(dst, src)] *)
Definition go_copy {A : Type} (dst src : list A) : list A :=
  take (length dst) src ++ drop (length src) dst.

(** The loop of [annotateFault] over [finfo.connected]; the accumulators are
    the builder, [conn] and [crashes]. *)
Fixpoint fault_loop (crashed : list bool) (id : nat) (conns : list bool)
    (builder : string) (conn crashes : list Z) : GoRes (string * list Z * list Z) :=
  match conns with
  | [] => Ret (builder, conn, crashes)
  | c :: conns' =>
      (let* cr := deref (A := bool) (crashed !! id) out_of_range in
       if cr then fault_loop crashed (S id) conns' builder conn (crashes ++ [Z.of_nat id])
       else if c then fault_loop crashed (S id) conns' builder (conn ++ [Z.of_nat id]) crashes
       else fault_loop crashed (S id) conns' (builder +:+ "[" +:+ Itoa (Z.of_nat id) +:+ "] ") conn crashes)%go
  end.

Definition fault_text (fi : FrameworkInfo) : GoRes string :=
  (let* (b, conn, crashes) := fault_loop (crashed fi) 0 (connected fi) "partition = " [] [] in
   let b := if decide (0 < length conn)%nat then b +:+ Sprint_ints conn else b in
   Ret (if decide (0 < length crashes)%nat then b +:+ " / crash = " +:+ Sprint_ints crashes else b))%go.

Definition annotateFault (t : Z) (g : Global) : GoRes Global :=
  (let* fi := deref (finfo g) nil_finfo in
   if bool_decide (replicate (nservers fi) true = connected fi) &&
      bool_decide (replicate (nservers fi) false = crashed fi)
   then Ret (AnnotateContinuousEnd t TAG_PARTITION g)
   else
     let* text := fault_text fi in
     Ret (AnnotateContinuousColor t TAG_PARTITION text text COLOR_FAULT g))%go.

Definition set_connected (g : Global) (fi : FrameworkInfo) (c : list bool) : Global :=
  mkGlobal (annotation g) (Some (mkFinfo (nservers fi) c (crashed fi) (ckbegin fi))).
Definition set_crashed (g : Global) (fi : FrameworkInfo) (c : list bool) : Global :=
  mkGlobal (annotation g) (Some (mkFinfo (nservers fi) (connected fi) c (ckbegin fi))).

Definition AnnotateConnection (t : Z) (connection : list bool) (g : Global) : GoRes Global :=
  (let* fi := deref (finfo g) nil_finfo in
   if bool_decide (connected fi = connection) then Ret g
   else annotateFault t (set_connected g fi (go_copy (connected fi) connection)))%go.

Definition AnnotateTwoPartitions (t : Z) (p1 p2 : list Z) (g : Global) : Global :=
  let text := "partition = " +:+ Sprint_ints p1 +:+ " " +:+ Sprint_ints p2 in
  AnnotateContinuousColor t TAG_PARTITION text text COLOR_FAULT g.

Definition AnnotateClearFailure (t : Z) (g : Global) : GoRes Global :=
  (let* fi := deref (finfo g) nil_finfo in
   let fi' := mkFinfo (nservers fi) ((λ _, true) <$> connected fi) ((λ _, false) <$> crashed fi) (ckbegin fi) in
   Ret (AnnotateContinuousEnd t TAG_PARTITION (mkGlobal (annotation g) (Some fi'))))%go.

(** The loop that sets [crashed[id]] to [b] for every id and remembers whether
    one of them had the other value. *)
Fixpoint mark_crashed (b : bool) (servers : list Z) (crashed : list bool) (changed : bool) : GoRes (list bool * bool) :=
  match servers with
  | [] => Ret (crashed, changed)
  | id :: servers' =>
      if bool_decide (id < 0) then Abort out_of_range else
      (let* old := deref (A := bool) (crashed !! Z.to_nat id) out_of_range in
       mark_crashed b servers' (<[Z.to_nat id := b]> crashed) (changed || negb (eqb old b)))%go
  end.

Definition AnnotateShutdown (t : Z) (servers : list Z) (g : Global) : GoRes Global :=
  (let* fi := deref (finfo g) nil_finfo in
   let* (crashed', changed) := mark_crashed true servers (crashed fi) false in
   let g' := set_crashed g fi crashed' in
   if negb changed then Ret g' else annotateFault t g')%go.

Definition all_servers (n : nat) : list Z := Z.of_nat <$> seq 0 n.

Definition AnnotateShutdownAll (t : Z) (g : Global) : GoRes Global :=
  (let* fi := deref (finfo g) nil_finfo in AnnotateShutdown t (all_servers (nservers fi)) g)%go.

Definition AnnotateRestart (t : Z) (servers : list Z) (g : Global) : GoRes Global :=
  (let* fi := deref (finfo g) nil_finfo in
   let* (crashed', changed) := mark_crashed false servers (crashed fi) false in
   let g' := set_crashed g fi crashed' in
   if negb changed then Ret g' else annotateFault t g')%go.

Definition AnnotateRestartAll (t : Z) (g : Global) : GoRes Global :=
  (let* fi := deref (finfo g) nil_finfo in AnnotateRestart t (all_servers (nservers fi)) g)%go.

(** ** Runs: the calls a test makes after [AnnotateTest] *)

Inductive Call :=
| CConnection (connection : list bool)
| CShutdown (servers : list Z)
| CShutdownAll
| CRestart (servers : list Z)
| CRestartAll
| CClearFailure
| CTwoPartitions (p1 p2 : list Z)
| CCheckerBegin (details : string)
| CCheckerEnd (desp details color : string)
| CPoint (tag desp details bgcolor : string)
| CInterval (tag : string) (start : Z) (desp details bgcolor : string)
| CContinuous (tag desp details bgcolor : string)
| CContinuousEnd (tag : string).

Definition call (t : Z) (c : Call) (g : Global) : GoRes Global :=
  match c with
  | CConnection connection => AnnotateConnection t connection g
  | CShutdown servers => AnnotateShutdown t servers g
  | CShutdownAll => AnnotateShutdownAll t g
  | CRestart servers => AnnotateRestart t servers g
  | CRestartAll => AnnotateRestartAll t g
  | CClearFailure => AnnotateClearFailure t g
  | CTwoPartitions p1 p2 => Ret (AnnotateTwoPartitions t p1 p2 g)
  | CCheckerBegin details => AnnotateCheckerBegin t details g
  | CCheckerEnd desp details color => AnnotateCheckerEnd t desp details color g
  | CPoint tag desp details bgcolor => Ret (AnnotatePointColor t tag desp details bgcolor g)
  | CInterval tag start desp details bgcolor => Ret (AnnotateIntervalColor t tag start desp details bgcolor g)
  | CContinuous tag desp details bgcolor => Ret (AnnotateContinuousColor t tag desp details bgcolor g)
  | CContinuousEnd tag => Ret (AnnotateContinuousEnd t tag g)
  end.

Fixpoint calls (cs : list (Z * Call)) (g : Global) : GoRes Global :=
  match cs with
  | [] => Ret g
  | (t, c) :: cs' => (let* g' := call t c g in calls cs' g')%go
  end.

(** ** What the fault annotations should show *)

(** The servers among [0 .. nservers-1] that are up and cut off, up and
    connected, and down. *)
Definition isolated_ids (fi : FrameworkInfo) : list nat :=
  filter (λ i, crashed fi !! i = Some false ∧ connected fi !! i = Some false) (seq 0 (nservers fi)).
Definition conn_ids (fi : FrameworkInfo) : list nat :=
  filter (λ i, crashed fi !! i = Some false ∧ connected fi !! i = Some true) (seq 0 (nservers fi)).
Definition crash_ids (fi : FrameworkInfo) : list nat :=
  filter (λ i, crashed fi !! i = Some true) (seq 0 (nservers fi)).

Definition bracket (i : nat) : string := "[" +:+ Itoa (Z.of_nat i) +:+ "] ".

(** The description of the faults: [None] without one. *)
Definition describe (fi : FrameworkInfo) : option string :=
  if decide (connected fi = replicate (nservers fi) true ∧ crashed fi = replicate (nservers fi) false) then None
  else Some ("partition = " +:+ String.concat "" (bracket <$> isolated_ids fi) +:+
             (if decide (conn_ids fi = []) then "" else Sprint_ints (Z.of_nat <$> conn_ids fi)) +:+
             (if decide (crash_ids fi = []) then "" else " / crash = " +:+ Sprint_ints (Z.of_nat <$> crash_ids fi))).

(** The fault intervals that contain the time [τ]. *)
Definition covers (τ : Z) (a : Annot) : Prop := Tag a = TAG_PARTITION ∧ Start a ≤ τ < End_ a.

#[export] Instance covers_dec τ a : Decision (covers τ a).
Proof. unfold covers. apply _. Defined.

(** Those of them that have a text, among the finished ones, and the one that
    is still going on; [finalized_shown] says what else there is. *)
Definition at_time (τ : Z) (a : Annot) : Prop :=
  Tag a = TAG_PARTITION ∧ Start a ≤ τ < End_ a ∧ Description a ≠ "".

#[export] Instance at_time_dec τ a : Decision (at_time τ a).
Proof. unfold at_time. apply _. Defined.

Definition ongoing (τ : Z) (an : Annotation) : list string :=
  match continuous an !! TAG_PARTITION with
  | Some c => if decide (start c ≤ τ) then [desp c] else []
  | None => []
  end.

Definition shown (τ : Z) (an : Annotation) : list string :=
  (Description <$> filter (at_time τ) (annotations an)) ++ ongoing τ an.

(** Calls about servers that exist and, for the free annotations, with
    another tag.  [AnnotateTwoPartitions] is documented not to go together
    with the record of connections. *)
Definition call_ok (n : nat) (c : Call) : Prop :=
  match c with
  | CShutdown servers | CRestart servers => Forall (λ i, 0 ≤ i < Z.of_nat n) servers
  | CConnection connection => length connection = n
  | CTwoPartitions _ _ => False
  | CPoint tag _ _ _ | CInterval tag _ _ _ _ | CContinuous tag _ _ _ | CContinuousEnd tag => tag ≠ TAG_PARTITION
  | _ => True
  end.

(** The blank intervals: [TAG_PARTITION] without a description. *)
Definition blank (a : Annot) : Prop := Tag a = TAG_PARTITION ∧ Description a = "".
Definition blank_until (t : Z) : Annot := mkAnnot TAG_PARTITION 0 t "" "" "".

#[export] Instance blank_dec a : Decision (blank a).
Proof. unfold blank. apply _. Defined.

(** ** The invariant *)

Record finfo_wf (fi : FrameworkInfo) : Prop := {
  wf_connected : length (connected fi) = nservers fi;
  wf_crashed : length (crashed fi) = nservers fi;
}.

(** After a call at time [now]: the finished intervals lie in the past and
    the current one describes the current faults. *)
Record timeline (n : nat) (now : Z) (g : Global) (fi : FrameworkInfo) : Prop := {
  tl_finfo : finfo g = Some fi;
  tl_n : nservers fi = n;
  tl_wf : finfo_wf fi;
  tl_past : ∀ a, a ∈ annotations (annotation g) → Tag a = TAG_PARTITION → Description a ≠ "" → End_ a ≤ now;
  tl_now : match continuous (annotation g) !! TAG_PARTITION, describe fi with
           | None, None => True
           | Some c, Some d => desp c = d ∧ start c ≤ now
           | _, _ => False
           end;
}.

(** *** The text *)

Section text.
Context (fi : FrameworkInfo).

Lemma fault_loop_spec conns id b cn cr :
  drop id (connected fi) = conns → length (crashed fi) = length (connected fi) → (id ≤ length (connected fi))%nat →
  fault_loop (crashed fi) id conns b cn cr =
    Ret (b +:+ String.concat "" (bracket <$>
           filter (λ i, crashed fi !! i = Some false ∧ connected fi !! i = Some false) (seq id (length conns))),
         cn ++ (Z.of_nat <$> filter (λ i, crashed fi !! i = Some false ∧ connected fi !! i = Some true) (seq id (length conns))),
         cr ++ (Z.of_nat <$> filter (λ i, crashed fi !! i = Some true) (seq id (length conns)))).
Proof.
  revert id b cn cr. induction conns as [|c conns IH]; intros id b cn cr Hd Hl Hid; simpl.
  { by rewrite string_app_nil_r, !app_nil_r. }
  assert (connected fi !! id = Some c) as Hc.
  { rewrite <- (Nat.add_0_r id), <- lookup_drop, Hd. done. }
  assert (is_Some (crashed fi !! id)) as [x Hx].
  { apply lookup_lt_is_Some. rewrite Hl. by eapply lookup_lt_Some. }
  assert (drop (S id) (connected fi) = conns) as Hd'.
  { replace (S id) with (id + 1)%nat by lia. by rewrite <- drop_drop, Hd. }
  assert (S id ≤ length (connected fi))%nat by (apply lookup_lt_Some in Hc; lia).
  rewrite Hx. simpl.
  destruct x, c; rewrite IH by (done || lia); rewrite ?filter_cons, ?Hx, ?Hc;
    repeat (rewrite decide_True by done || rewrite decide_False by naive_solver);
    rewrite ?fmap_cons, ?string_concat_cons, <- ?app_assoc; try done.
  unfold bracket at 2. by rewrite !string_app_assoc.
Qed.

Lemma fmap_of_nat_nil (l : list nat) :
  (0 < length (Z.of_nat <$> l))%nat ↔ l ≠ [].
Proof. rewrite length_fmap. destruct l; simpl; naive_solver lia. Qed.

(** The loop writes the reference description. *)
Lemma fault_text_spec :
  finfo_wf fi →
  (describe fi = None ∧ connected fi = replicate (nservers fi) true ∧ crashed fi = replicate (nservers fi) false) ∨
  (∃ d, describe fi = Some d ∧ d ≠ "" ∧ fault_text fi = Ret d ∧
        ¬ (connected fi = replicate (nservers fi) true ∧ crashed fi = replicate (nservers fi) false)).
Proof.
  intros [Hc Hr]. unfold describe. case_decide as Hn; [by left | right].
  eexists. split_and!; [done | done | | done].
  unfold fault_text. rewrite (fault_loop_spec (connected fi)) by (done || lia). simpl go_bind.
  rewrite ?app_nil_l, Hc. fold (isolated_ids fi) (conn_ids fi) (crash_ids fi). f_equal.
  repeat case_decide; rewrite ?fmap_of_nat_nil in *; try done; try tauto;
    by rewrite ?string_app_nil_r, ?string_app_assoc, ?string_app_nil_r.
Qed.

Lemma describe_None :
  describe fi = None → connected fi = replicate (nservers fi) true ∧ crashed fi = replicate (nservers fi) false.
Proof. unfold describe. by case_decide. Qed.

Lemma describe_crashed i : crashed fi !! i = Some true → describe fi ≠ None.
Proof.
  intros Hi [_ Hn]%describe_None. rewrite Hn in Hi. by apply lookup_replicate in Hi as [? _].
Qed.

End text.

Lemma mark_crashed_spec b servers cr ch :
  Forall (λ i, 0 ≤ i < Z.of_nat (length cr)) servers →
  ∃ cr' ch', mark_crashed b servers cr ch = Ret (cr', ch') ∧ length cr' = length cr ∧
    ((ch' = ch ∧ cr' = cr) ∨
     (ch' = true ∧ ∃ i, cr !! i = Some (negb b) ∧ cr' !! i = Some b)).
Proof.
  revert cr ch. induction servers as [|id servers IH]; intros cr ch Hs; [eauto 10 |].
  apply Forall_cons in Hs as [Hid Hs]. simpl. rewrite bool_decide_false by lia.
  assert (is_Some (cr !! Z.to_nat id)) as [old Hold] by (apply lookup_lt_is_Some; lia).
  rewrite Hold. simpl.
  destruct (IH (<[Z.to_nat id := b]> cr) (ch || negb (eqb old b))) as (cr' & ch' & Hm & Hl & Hcase).
  { by rewrite length_insert. }
  rewrite length_insert in Hl. exists cr', ch'. split_and!; [done.. |].
  destruct (eqb old b) eqn:Heq.
  - apply eqb_prop in Heq as ->. rewrite list_insert_id in Hcase by done. by rewrite orb_false_r in Hcase.
  - assert (old = negb b) as -> by (by destruct old, b). right.
    destruct Hcase as [[-> ->]|(-> & i & Hi & Hi')].
    + split; [apply orb_true_r |]. exists (Z.to_nat id). split; [done |].
      apply list_lookup_insert_eq. lia.
    + split; [done |]. exists i. split; [| done].
      destruct (decide (i = Z.to_nat id)) as [->|Hne]; [| by rewrite list_lookup_insert_ne in Hi by done].
      rewrite list_lookup_insert_eq in Hi by lia. by destruct b.
Qed.

(** *** One call *)

Lemma timeline_shown n now g fi τ :
  timeline n now g fi → now ≤ τ → shown τ (annotation g) = option_list (describe fi).
Proof.
  intros [_ _ _ Hp Hn] Hτ. unfold shown, ongoing.
  replace (filter (at_time τ) (annotations (annotation g))) with (@nil Annot).
  { destruct (continuous (annotation g) !! TAG_PARTITION) as [c|], (describe fi); simpl; try done.
    destruct Hn as [-> Hs]. by rewrite decide_True by lia. }
  symmetry. apply filter_none. intros a Ha (Ht & Hr & Hd). specialize (Hp a Ha Ht Hd). lia.
Qed.

(** What a call at time [t] does to the fault annotations: the past stays,
    the present is the present fault, and [k] blank intervals appear. *)
Record advances (n : nat) (t : Z) (k : nat) (g g' : Global) (fi' : FrameworkInfo) : Prop := {
  adv_timeline : timeline n t g' fi';
  adv_past : ∀ τ, τ < t → shown τ (annotation g') = shown τ (annotation g);
  adv_blank : filter blank (annotations (annotation g')) =
              filter blank (annotations (annotation g)) ++ (blank_until <$> replicate k t);
}.

Definition closed (t : Z) (o : option Continuous) : list Annot :=
  match o with Some c => [concretize TAG_PARTITION c t] | None => [] end.

(** Ending the current interval at [t] changes nothing before [t]. *)
Lemma shown_close t τ an an' :
  τ < t → annotations an' = annotations an ++ closed t (continuous an !! TAG_PARTITION) →
  (∀ c, continuous an !! TAG_PARTITION = Some c → desp c ≠ "") →
  ongoing τ an' = [] → shown τ an' = shown τ an.
Proof.
  intros Hτ Ha Hd Ho. unfold shown. rewrite Ho, Ha, app_nil_r, filter_app, fmap_app. f_equal.
  unfold ongoing. destruct (continuous an !! TAG_PARTITION) as [c|] eqn:Hc; [| done]. simpl.
  specialize (Hd c eq_refl). destruct (decide (start c ≤ τ)) as [Hs|Hs].
  - rewrite filter_cons_True by (repeat split; simpl; lia || done). done.
  - rewrite filter_cons_False by (intros (_ & ? & _); simpl in *; lia). done.
Qed.

(** A call that does not touch the tag of the faults. *)
Lemma advances_quiet n now t g g' fi fi' l :
  timeline n now g fi → now ≤ t →
  finfo g' = Some fi' → nservers fi' = n → finfo_wf fi' → describe fi' = describe fi →
  annotations (annotation g') = annotations (annotation g) ++ l → Forall (λ a, Tag a ≠ TAG_PARTITION) l →
  continuous (annotation g') !! TAG_PARTITION = continuous (annotation g) !! TAG_PARTITION →
  advances n t 0 g g' fi'.
Proof.
  intros [Hf Hn Hwf Hp Hnow] Ht Hf' Hn' Hwf' Hd Ha Hl Hc. rewrite Forall_forall in Hl. split.
  - split; [done.. | |].
    + intros a Hin Htag Hne. rewrite Ha in Hin. apply elem_of_app in Hin as [Hin|Hin].
      * specialize (Hp a Hin Htag Hne). lia.
      * by specialize (Hl a Hin).
    + rewrite Hc, Hd. repeat case_match; try done. split; [naive_solver | lia].
  - intros τ _. unfold shown, ongoing. rewrite Hc, Ha, filter_app, (filter_none _ l), app_nil_r; [done |].
    intros a Hin [Htag _]. by eapply Hl.
  - rewrite Ha, filter_app, (filter_none _ l); [done |]. intros a Hin [Htag _]. by eapply Hl.
Qed.

Lemma advances_same n now t g fi : timeline n now g fi → now ≤ t → advances n t 0 g g fi.
Proof.
  intros Htl Ht. pose proof Htl as [Hf Hn Hwf _ _].
  eapply (advances_quiet n now t g g fi fi []); try done. by rewrite app_nil_r.
Qed.

(** A call that ends the current interval, if there is one, at [t] and
    leaves the state [o'] for the tag. *)
Lemma advances_switch n now t g g' fi fi' :
  timeline n now g fi → now ≤ t →
  finfo g' = Some fi' → nservers fi' = n → finfo_wf fi' →
  annotations (annotation g') =
    annotations (annotation g) ++ closed t (continuous (annotation g) !! TAG_PARTITION) →
  match continuous (annotation g') !! TAG_PARTITION, describe fi' with
  | None, None => True
  | Some c, Some d => desp c = d ∧ start c = t
  | _, _ => False
  end →
  advances n t 0 g g' fi'.
Proof.
  intros [Hf Hn Hwf Hp Hnow] Ht Hf' Hn' Hwf' Ha Hc'.
  assert (∀ c, continuous (annotation g) !! TAG_PARTITION = Some c → desp c ≠ "") as Hd.
  { intros c Hc. rewrite Hc in Hnow.
    destruct (fault_text_spec fi Hwf) as [(Hd & _)|(d & Hd & Hne & _)]; rewrite Hd in Hnow; [done |].
    by destruct Hnow as [-> _]. }
  split.
  - split; [done.. | |].
    + intros a Hin Htag Hne. rewrite Ha in Hin. apply elem_of_app in Hin as [Hin|Hin].
      * specialize (Hp a Hin Htag Hne). lia.
      * destruct (continuous (annotation g) !! TAG_PARTITION); simpl in Hin; [| set_solver].
        apply list_elem_of_singleton in Hin as ->. simpl. lia.
    + destruct (continuous (annotation g') !! TAG_PARTITION), (describe fi'); naive_solver lia.
  - intros τ Hτ. apply (shown_close t); [done.. |]. unfold ongoing.
    destruct (continuous (annotation g') !! TAG_PARTITION), (describe fi'); try done.
    rewrite decide_False; [done | naive_solver lia].
  - rewrite Ha, filter_app, (filter_none _ (closed _ _)); [done |].
    intros a Hin (_ & Hb). destruct (continuous (annotation g) !! TAG_PARTITION) as [c|]; simpl in Hin; [| set_solver].
    apply list_elem_of_singleton in Hin as ->. by apply (Hd c).
Qed.

(** [annotateFault] after the record of faults has changed to [fi']. *)
Lemma annotateFault_spec n now t g fi fi' :
  timeline n now g fi → now ≤ t → finfo_wf fi' → nservers fi' = n →
  (describe fi' = None → describe fi ≠ None) →
  ∃ g', annotateFault t (mkGlobal (annotation g) (Some fi')) = Ret g' ∧ advances n t 0 g g' fi'.
Proof.
  intros Htl Ht Hwf' Hn' Hch. pose proof Htl as [Hf Hn Hwf Hp Hnow]. unfold annotateFault. simpl.
  destruct (fault_text_spec fi' Hwf') as [(Hd & Hc & Hr)|(d & Hd & Hne & Htxt & Hno)].
  - rewrite Hc, Hr, !bool_decide_true by done. eexists. split; [done |].
    eapply advances_switch; try done.
    + simpl. destruct (continuous (annotation g) !! TAG_PARTITION) as [c|]; [done |].
      destruct (describe fi) eqn:E; [done | by destruct (Hch Hd)].
    + simpl. by rewrite lookup_delete_eq, Hd.
  - assert ((bool_decide (replicate (nservers fi') true = connected fi') &&
             bool_decide (replicate (nservers fi') false = crashed fi'))%bool = false) as ->.
    { apply andb_false_iff. rewrite !bool_decide_eq_false.
      destruct (decide (connected fi' = replicate (nservers fi') true)); [right | left]; naive_solver. }
    rewrite Htxt. simpl. eexists. split; [done |].
    eapply advances_switch; try done;
      simpl; unfold annotateContinuousColor;
      destruct (continuous (annotation g) !! TAG_PARTITION); simpl; rewrite ?app_nil_r, ?lookup_insert_eq, ?Hd; done.
Qed.

Lemma all_servers_ok n : Forall (λ i, 0 ≤ i < Z.of_nat n) (all_servers n).
Proof.
  apply Forall_forall. intros i (j & -> & Hj)%list_elem_of_fmap. apply elem_of_seq in Hj. lia.
Qed.

(** The two loops over [servers] followed by [annotateFault]. *)
Lemma mark_spec b n now t servers g fi :
  timeline n now g fi → now ≤ t → Forall (λ i, 0 ≤ i < Z.of_nat n) servers →
  ∃ g' fi', (let* (cr, ch) := mark_crashed b servers (crashed fi) false in
             let g' := set_crashed g fi cr in
             if negb ch then Ret g' else annotateFault t g')%go = Ret g' ∧ advances n t 0 g g' fi'.
Proof.
  intros Htl Ht Hs. pose proof Htl as [Hf Hn [Hwc Hwr] _ _].
  destruct (mark_crashed_spec b servers (crashed fi) false) as (cr & ch & Hm & Hl & Hcase).
  { by rewrite Hwr, Hn. }
  rewrite Hm. simpl. destruct Hcase as [[-> ->]|(-> & i & Hi & Hi')]; simpl.
  - exists g, fi. split; [| by eapply advances_same]. f_equal. unfold set_crashed.
    destruct g, fi; simpl in *. by rewrite Hf.
  - set (fi' := mkFinfo (nservers fi) (connected fi) cr (ckbegin fi)).
    destruct (annotateFault_spec n now t g fi fi' Htl Ht) as (g' & Hg & Hadv); [| done | | by eauto].
    { split; simpl; lia. }
    intros Hd. destruct b; simpl in *; [by destruct (describe_crashed fi' i) | by eapply describe_crashed].
Qed.

Definition all_clear (fi : FrameworkInfo) : FrameworkInfo :=
  mkFinfo (nservers fi) ((λ _, true) <$> connected fi) ((λ _, false) <$> crashed fi) (ckbegin fi).

Lemma all_clear_spec fi : finfo_wf fi → finfo_wf (all_clear fi) ∧ describe (all_clear fi) = None.
Proof.
  intros [Hc Hr]. split; [split; simpl; by rewrite length_fmap |].
  unfold describe. simpl. rewrite decide_True; [done |].
  by erewrite !const_fmap, Hc, Hr by done.
Qed.

Definition blanks (c : Call) (fi : FrameworkInfo) : nat :=
  match c, describe fi with CClearFailure, None => 1 | _, _ => 0 end.

Lemma clear_spec n now t g fi :
  timeline n now g fi → now ≤ t →
  ∃ g', AnnotateClearFailure t g = Ret g' ∧ advances n t (blanks CClearFailure fi) g g' (all_clear fi).
Proof.
  intros Htl Ht. pose proof Htl as [Hf Hn Hwf Hp Hnow].
  destruct (all_clear_spec fi Hwf) as [Hwf' Hd']. unfold AnnotateClearFailure. rewrite Hf. simpl.
  eexists. split; [done |]. unfold blanks. destruct (describe fi) as [d|] eqn:Hd.
  - eapply advances_switch; [done.. | simpl |].
    + by destruct (continuous (annotation g) !! TAG_PARTITION).
    + simpl. rewrite lookup_delete_eq. by fold (all_clear fi); rewrite Hd'.
  - destruct (continuous (annotation g) !! TAG_PARTITION) as [c|] eqn:Hc; [done |].
    split; simpl; rewrite ?Hc; simpl.
    + split; simpl; try done.
      * intros a Hin Htag Hne. rewrite Hc in Hin. apply elem_of_app in Hin as [Hin|Hin].
        -- specialize (Hp a Hin Htag Hne). lia.
        -- apply list_elem_of_singleton in Hin as ->. done.
      * rewrite lookup_delete_eq. by fold (all_clear fi); rewrite Hd'.
    + intros τ Hτ. unfold shown, ongoing. simpl. rewrite lookup_delete_eq, Hc, filter_app, (filter_none _ [_]), !app_nil_r; [done |].
      intros a ->%list_elem_of_singleton (_ & _ & Hne). by destruct Hne.
    + rewrite filter_app, filter_cons_True by done. done.
Qed.

Lemma call_spec n now t c g fi :
  timeline n now g fi → now ≤ t → call_ok n c →
  ∃ g' fi', call t c g = Ret g' ∧ advances n t (blanks c fi) g g' fi'.
Proof.
  intros Htl Ht Hok. pose proof Htl as [Hf Hn Hwf Hp Hnow].
  destruct c; simpl in Hok |- *; unfold AnnotateConnection, AnnotateShutdownAll, AnnotateRestartAll, AnnotateShutdown, AnnotateRestart,
    AnnotateCheckerBegin, AnnotateCheckerEnd; rewrite ?Hf; simpl; rewrite ?Hf; simpl.
  - case_bool_decide; [by eauto using advances_same |].
    set (fi' := mkFinfo (nservers fi) (go_copy (connected fi) connection) (crashed fi) (ckbegin fi)).
    assert (go_copy (connected fi) connection = connection) as Hcp.
    { unfold go_copy. rewrite (wf_connected _ Hwf), Hn, take_ge, drop_ge, app_nil_r; [done | |]; 
        rewrite ?(wf_connected _ Hwf); lia. }
    destruct (annotateFault_spec n now t g fi fi' Htl Ht) as (g' & ? & ?); [| done | | by eauto].
    { destruct Hwf. split; simpl; rewrite ?Hcp; lia. }
    intros [Hc' _]%describe_None [Hc _]%describe_None. simpl in Hc'. congruence.
  - by apply (mark_spec true n now).
  - apply (mark_spec true n now); [done.. |]. rewrite Hn. apply all_servers_ok.
  - by apply (mark_spec false n now).
  - apply (mark_spec false n now); [done.. |]. rewrite Hn. apply all_servers_ok.
  - destruct (clear_spec n now t g fi Htl Ht) as (g' & ? & ?). eauto.
  - done.
  - eexists _, _. split; [done |]. eapply (advances_quiet n now t g _ fi _ []); try done.
    + destruct Hwf. by split.
    + by rewrite app_nil_r.
  - case_bool_decide; eexists _, _; (split; [done |]); eapply (advances_quiet n now t g _ fi fi [_]); done || by repeat constructor.
  - eexists _, _; (split; [done |]); eapply (advances_quiet n now t g _ fi fi [_]); done || by repeat constructor.
  - eexists _, _; (split; [done |]); eapply (advances_quiet n now t g _ fi fi [_]); done || by repeat constructor.
  - eexists _, _. split; [done |].
    eapply (advances_quiet n now t g _ fi fi (match continuous (annotation g) !! tag with
              | Some cont => [concretize tag cont t] | None => [] end)); try done.
    + simpl. unfold annotateContinuousColor. destruct (continuous (annotation g) !! tag); [done | by rewrite app_nil_r].
    + destruct (continuous (annotation g) !! tag); by repeat constructor.
    + simpl. unfold annotateContinuousColor.
      destruct (continuous (annotation g) !! tag); simpl; by rewrite lookup_insert_ne.
  - eexists _, _. split; [done |].
    eapply (advances_quiet n now t g _ fi fi [_]); try done.
    + by repeat constructor.
    + simpl. by rewrite lookup_delete_ne.
Qed.

(** *** Runs *)

(** The times of the calls of [AnnotateClearFailure] made while there is no
    fault. *)
Fixpoint idle_clears (cs : list (Z * Call)) (g : Global) : list Z :=
  match cs with
  | [] => []
  | (t, c) :: cs' =>
      replicate (from_option (blanks c) 0%nat (finfo g)) t ++
      match call t c g with Ret g' => idle_clears cs' g' | Abort _ => [] end
  end.

Lemma calls_snoc cs t c g g' : calls cs g = Ret g' → calls (cs ++ [(t, c)]) g = call t c g'.
Proof.
  revert g. induction cs as [|[t1 c1] cs IH]; intros g; simpl.
  - intros [= ->]. by destruct (call t c g').
  - destruct (call t1 c1 g); simpl; [apply IH | done].
Qed.

Lemma idle_clears_snoc cs t c g g' fi g'' :
  calls cs g = Ret g' → finfo g' = Some fi → call t c g' = Ret g'' →
  idle_clears (cs ++ [(t, c)]) g = idle_clears cs g ++ replicate (blanks c fi) t.
Proof.
  revert g. induction cs as [|[t1 c1] cs IH]; intros g; simpl.
  - intros [= ->] -> ->. simpl. by rewrite app_nil_r.
  - destruct (call t1 c1 g) as [g1|]; simpl; [| done]. intros Hc Hf Hl. by rewrite (IH g1), app_assoc by done.
Qed.

Lemma calls_timeline n t0 g fi cs :
  timeline n t0 g fi → StronglySorted Z.le (t0 :: cs.*1) → Forall (call_ok n) cs.*2 →
  ∃ g' fi' now, calls cs g = Ret g' ∧ now ∈ t0 :: cs.*1 ∧ timeline n now g' fi' ∧
    filter blank (annotations (annotation g')) =
      filter blank (annotations (annotation g)) ++ (blank_until <$> idle_clears cs g) ∧
    ∀ τ, t0 ≤ τ → ∃ gτ fiτ, calls (filter (λ p, p.1 ≤ τ) cs) g = Ret gτ ∧ finfo gτ = Some fiτ ∧
      shown τ (annotation g') = option_list (describe fiτ).
Proof.
  intros Htl. induction cs as [|[t c] cs IH] using rev_ind; intros Hs Hok.
  - exists g, fi, t0. split_and!; [done | by left | done | by rewrite app_nil_r |].
    intros τ Hτ. exists g, fi. split_and!; [done | by apply (tl_finfo _ _ _ _ Htl) |]. by eapply timeline_shown.
  - rewrite fmap_app in Hs. rewrite fmap_app in Hok. apply Forall_app in Hok as [Hok Hc]. apply Forall_inv in Hc.
    assert (∀ t', t' ∈ t0 :: cs.*1 → t' ≤ t) as Hle.
    { intros t' Ht'. apply (StronglySorted_app_1_elem_of Z.le (t0 :: cs.*1) [t]); [done | done | by left]. }
    destruct (IH (StronglySorted_app_1_l _ (t0 :: cs.*1) _ Hs) Hok) as (g1 & fi1 & now & Hrun & Hnow & Htl1 & Hb & Hsh).
    destruct (call_spec n now t c g1 fi1 Htl1 (Hle now Hnow) Hc) as (g2 & fi2 & Hcall & [Htl2 Hpast Hbl]).
    exists g2, fi2, t. split_and!; [by erewrite calls_snoc | set_solver | done | |].
    + erewrite idle_clears_snoc; [| done | apply (tl_finfo _ _ _ _ Htl1) | done]. by rewrite Hbl, Hb, fmap_app, app_assoc.
    + intros τ Hτ. rewrite filter_app, filter_cons, filter_nil. destruct (decide (t ≤ τ)) as [Hτt|Hτt]; simpl.
      * exists g2, fi2. rewrite decide_True by done. rewrite filter_all.
        -- split_and!; [by erewrite calls_snoc | by apply (tl_finfo _ _ _ _ Htl2) | by eapply timeline_shown].
        -- intros p Hp. transitivity t; [apply Hle | done]. right. by apply list_elem_of_fmap_2.
      * rewrite decide_False by done. rewrite app_nil_r, Hpast by lia. by apply Hsh.
Qed.

Lemma AnnotateTest_timeline t0 d n g0 :
  0 ≤ n → ∃ g fi, AnnotateTest t0 d n g0 = Ret g ∧ timeline (Z.to_nat n) t0 g fi ∧
    filter blank (annotations (annotation g)) = [].
Proof.
  intros Hn. unfold AnnotateTest, mkFrameworkInfo. rewrite bool_decide_false by lia. simpl.
  eexists _, _. split_and!; [done | split; simpl; try done | done].
  - split; simpl; by rewrite length_replicate.
  - intros a ->%list_elem_of_singleton. done.
  - unfold describe. simpl. by rewrite decide_True.
Qed.

(** *** Finalizing *)

(** Finalizing keeps what was recorded and adds one interval up to now for
    each annotation that is going on, whatever the order of the map. *)
Lemma finalize_spec t order an :
  order ≡ₚ (map_to_list (continuous an)).*1 →
  ∃ l, (finalize t order an).1 = annotations an ++ l ∧
       l ≡ₚ (λ p, concretize p.1 p.2 t) <$> map_to_list (continuous an) ∧
       finalized (finalize t order an).2 = true.
Proof.
  intros Ho. eexists. split_and!; [done | | done]. rewrite Ho.
  assert (∀ p, p ∈ map_to_list (continuous an) → continuous an !! p.1 = Some p.2) as Hl.
  { intros [tag c] Hp. by apply elem_of_map_to_list in Hp. }
  revert Hl. generalize (map_to_list (continuous an)). intros l Hl.
  induction l as [|p l IH]; [done |]. rewrite !fmap_cons. simpl. rewrite (Hl p) by set_solver.
  simpl. rewrite IH by set_solver. done.
Qed.

(** A visualization is written at most once between two [clear]s. *)
Lemma cleanup_once t1 t2 enabled opened order an failed e t1' t2' enabled' opened' order' failed' e' an' l :
  cleanup t1 t2 enabled opened order an failed e = (an', Some l) →
  cleanup t1' t2' enabled' opened' order' an' failed' e' = (clear an', None).
Proof.
  unfold cleanup. intros H. repeat case_match; simplify_eq; try done.
  all: unfold finalize in *; simplify_eq/=; rewrite orb_true_r in *; done.
Qed.

(** The intervals of the finalized list that contain [τ]: the ones shown, and
    the blank ones. *)
Lemma finalized_shown n now T order g fi ts τ :
  timeline n now g fi → order ≡ₚ (map_to_list (continuous (annotation g))).*1 → 0 ≤ τ < T →
  filter blank (annotations (annotation g)) = blank_until <$> ts →
  Description <$> filter (covers τ) (finalize T order (annotation g)).1 ≡ₚ
    shown τ (annotation g) ++ ((λ _, "") <$> filter (λ t, τ < t) ts).
Proof.
  intros Htl Ho Hτ Hb. set (an := annotation g) in *. destruct (finalize_spec T order an Ho) as (l & -> & Hl & _).
  rewrite filter_app, fmap_app, Hl. unfold shown. rewrite <- app_assoc, (Permutation_app_comm (ongoing τ an)), app_assoc.
  apply Permutation_app.
  - clear Ho Hl. assert (∀ anns, Description <$> filter (covers τ) anns ≡ₚ
      (Description <$> filter (at_time τ) anns) ++ (Description <$> filter (covers τ) (filter blank anns))) as Hsplit.
    { induction anns as [|a anns IH]; [done |]. rewrite !filter_cons.
      destruct (decide (covers τ a)) as [Hc|Hc], (decide (Description a = "")) as [Hd|Hd].
      - rewrite (decide_False (P := at_time τ a)), (decide_True (P := blank a)) by (unfold at_time, blank, covers in *; naive_solver).
        rewrite filter_cons_True by done. rewrite !fmap_cons, IH. apply Permutation_middle.
      - rewrite (decide_True (P := at_time τ a)), (decide_False (P := blank a)) by (unfold at_time, blank, covers in *; naive_solver).
        rewrite !fmap_cons, IH. done.
      - rewrite (decide_False (P := at_time τ a)) by (unfold at_time, covers in *; naive_solver).
        destruct (decide (blank a)); [by rewrite filter_cons_False | done].
      - rewrite (decide_False (P := at_time τ a)) by (unfold at_time, covers in *; naive_solver).
        destruct (decide (blank a)); [by rewrite filter_cons_False | done]. }
    rewrite Hsplit, Hb. apply Permutation_app; [done |]. eapply (reflexive_eq (R := (≡ₚ))). clear Hsplit Hb.
    induction ts as [|t ts IH]; [done |]. rewrite fmap_cons, !filter_cons. unfold covers at 1. simpl.
    destruct (decide (τ < t)) as [Hlt|Hlt]; case_decide as Hc; try (exfalso; naive_solver lia); [| exact IH].
    by rewrite !fmap_cons, IH.
  - clear Hl. unfold ongoing. destruct (continuous an !! TAG_PARTITION) as [c|] eqn:Hc.
    + rewrite <- (insert_delete_id _ _ _ Hc) at 1. rewrite map_to_list_insert by apply lookup_delete_eq.
      rewrite fmap_cons, filter_cons, filter_none.
      * unfold covers. simpl. case_decide as H1; destruct (decide (start c ≤ τ)) as [H2|H2]; try done; exfalso; naive_solver lia.
      * intros a ([tag c'] & -> & Hin)%list_elem_of_fmap [Htag _]. simpl in Htag. subst tag.
        apply elem_of_map_to_list in Hin. by rewrite lookup_delete_eq in Hin.
    + rewrite filter_none; [done |]. intros a ([tag c'] & -> & Hin)%list_elem_of_fmap [Htag _]. simpl in Htag. subst tag.
      apply elem_of_map_to_list in Hin. by rewrite Hc in Hin.
Qed.

(** C40: the fault intervals show the faults.  After [AnnotateTest] at a time
    [t0] that is not negative, let the test report connections, crashes,
    restarts and repairs (and make other annotations under other tags, but
    not call [AnnotateTwoPartitions]) at times that do not decrease, naming
    servers that exist.  No call panics.  Of the list that [finalize] returns
    at a time [T], whatever the order in which it goes through its map, the
    intervals tagged [TAG_PARTITION] that contain a time [τ] with
    [t0 ≤ τ < T] are exactly these: one whose text lists the servers cut off,
    connected and crashed at [τ], unless the calls made up to [τ] left every
    server up and connected; and one without text for each call of
    [AnnotateClearFailure] that was made after [τ] while there was no fault
    (the code records an interval from time 0 to the call there). *)
Theorem fault_timeline (t0 n : Z) (d : string) (g0 g : Global) (cs : list (Z * Call)) :
  AnnotateTest t0 d n g0 = Ret g → 0 ≤ t0 →
  StronglySorted Z.le (t0 :: cs.*1) → Forall (call_ok (Z.to_nat n)) cs.*2 →
  ∃ g', calls cs g = Ret g' ∧
    ∀ τ T order, t0 ≤ τ < T → order ≡ₚ (map_to_list (continuous (annotation g'))).*1 →
      ∃ gτ fi, calls (filter (λ p, p.1 ≤ τ) cs) g = Ret gτ ∧ finfo gτ = Some fi ∧
        Description <$> filter (covers τ) (finalize T order (annotation g')).1 ≡ₚ
          option_list (describe fi) ++ ((λ _, "") <$> filter (λ t, τ < t) (idle_clears cs g)).
Proof.
  intros Ht H0 Hs Hok. destruct (decide (n < 0)) as [Hn|Hn].
  { unfold AnnotateTest, mkFrameworkInfo in Ht. by rewrite bool_decide_true in Ht. }
  destruct (AnnotateTest_timeline t0 d n g0) as (g1 & fi & Ht1 & Htl & Hb0); [lia |].
  rewrite Ht in Ht1. injection Ht1 as <-.
  destruct (calls_timeline _ _ _ _ _ Htl Hs Hok) as (g' & fi' & now & Hr & _ & Htl' & Hb & Hsh).
  exists g'. split; [done |]. intros τ T order Hτ Ho. destruct (Hsh τ ltac:(lia)) as (gτ & fiτ & Hrun & Hfi & Hshown).
  exists gτ, fiτ. split; [done |]. split; [done |]. rewrite <- Hshown. eapply finalized_shown; [done | done | lia |]. by rewrite Hb, Hb0.
Qed.

Definition ex_g0 : Global := mkGlobal mkAnnotation None.
Definition ex_calls : list (Z * Call) :=
  [(10, CCheckerBegin "leader"); (20, CShutdown [1]); (20, CCheckerEnd "ok" "s" COLOR_SUCCESS);
   (30, CConnection [true; true; false]); (40, CRestart [1]); (50, CClearFailure); (60, CClearFailure);
   (70, CShutdown [2])].

Definition ex_shown (τ : Z) (g : Global) : list string :=
  Description <$> filter (covers τ) (finalize 90 [TAG_PARTITION] (annotation g)).1.

(** The second [CClearFailure], at 60, leaves a blank interval that covers
    every time before. *)
Lemma fault_timeline_witness :
  ∃ g g', AnnotateTest 5 "t" 3 ex_g0 = Ret g ∧ calls ex_calls g = Ret g' ∧
    ex_shown 15 g' ≡ₚ [""] ∧ ex_shown 25 g' ≡ₚ ["partition = [0 2] / crash = [1]"; ""] ∧
    ex_shown 35 g' ≡ₚ ["partition = [2] [0] / crash = [1]"; ""] ∧
    ex_shown 45 g' ≡ₚ ["partition = [2] [0 1]"; ""] ∧ ex_shown 65 g' ≡ₚ [] ∧
    ex_shown 80 g' ≡ₚ ["partition = [0 1] / crash = [2]"].
Proof.
  destruct (AnnotateTest 5 "t" 3 ex_g0) as [g|] eqn:Hg; [| vm_compute in Hg; discriminate].
  assert (StronglySorted Z.le (5 :: ex_calls.*1)) as Hs by (repeat constructor; vm_compute; discriminate).
  assert (Forall (call_ok (Z.to_nat 3)) ex_calls.*2) as Hok.
  { repeat (apply Forall_cons; split; [simpl; repeat constructor; lia |]). constructor. }
  destruct (fault_timeline 5 3 "t" ex_g0 g ex_calls Hg ltac:(lia) Hs Hok) as (g' & Hr & Hsh).
  exists g, g'. vm_compute in Hg. injection Hg as <-.
  split; [reflexivity | split; [exact Hr |]].
  assert ([TAG_PARTITION] ≡ₚ (map_to_list (continuous (annotation g'))).*1) as Ho.
  { clear Hsh. vm_compute in Hr. injection Hr as <-. vm_compute. reflexivity. }
  repeat split; unfold ex_shown;
    match goal with |- context [covers ?t] => destruct (Hsh t 90 [TAG_PARTITION] ltac:(lia) Ho) as (gt & fi & Hgt & Hfi & ->) end;
    vm_compute in Hgt; injection Hgt as <-; injection Hfi as <-; vm_compute; reflexivity.
Defined.

(** *** Two intervals that start too early *)

Definition is_begin (c : Call) : bool := match c with CCheckerBegin _ => true | _ => false end.

Lemma annotateFault_finfo t g g' : annotateFault t g = Ret g' → finfo g' = finfo g.
Proof. unfold annotateFault. intros H. unwrap_go. case_match; [by simplify_eq/= |]. unwrap_go. by simplify_eq/=. Qed.

(** Only [AnnotateCheckerBegin] writes [finfo.ckbegin]. *)
Lemma call_ckbegin t c g g' fi :
  call t c g = Ret g' → is_begin c = false → finfo g = Some fi →
  ∃ fi', finfo g' = Some fi' ∧ ckbegin fi' = ckbegin fi.
Proof.
  intros Hc Hb Hf.
  destruct c; simpl in Hb, Hc; try done; unfold AnnotateConnection, AnnotateShutdownAll, AnnotateRestartAll,
    AnnotateShutdown, AnnotateRestart, AnnotateClearFailure, AnnotateCheckerEnd in Hc; rewrite ?Hf in Hc; simpl in Hc;
    rewrite ?Hf in Hc; simpl in Hc; unwrap_go; repeat case_match; simplify_eq/=;
    repeat match goal with H : annotateFault _ _ = Ret _ |- _ => apply annotateFault_finfo in H end; simpl in *; eauto.
Qed.

Lemma calls_ckbegin cs g g' fi :
  calls cs g = Ret g' → forallb (negb ∘ is_begin) cs.*2 = true → finfo g = Some fi →
  ∃ fi', finfo g' = Some fi' ∧ ckbegin fi' = ckbegin fi.
Proof.
  revert g fi. induction cs as [|[t c] cs IH]; intros g fi; simpl; [naive_solver |].
  intros (g1 & Hc & Hcs)%go_bind_Ret_inv [Hb Hbs]%andb_true_iff Hf. apply negb_true_iff in Hb.
  destruct (call_ckbegin _ _ _ _ _ Hc Hb Hf) as (fi1 & Hf1 & Hk1).
  destruct (IH g1 fi1 Hcs Hbs Hf1) as (fi' & ? & ?). exists fi'. split; [done | congruence].
Qed.

Lemma calls_app_inv cs1 cs2 g g' :
  calls (cs1 ++ cs2) g = Ret g' → ∃ g1, calls cs1 g = Ret g1 ∧ calls cs2 g1 = Ret g'.
Proof.
  revert g. induction cs1 as [|[t c] cs1 IH]; intros g; simpl; [eauto |].
  intros (g1 & -> & H)%go_bind_Ret_inv. simpl. eauto.
Qed.

(** Two kinds of interval start too early.  In a run as in C40, (1) each
    [AnnotateClearFailure] made while no fault is going on adds an interval
    without text that starts at time 0, and nothing else adds one: the branch
    "nothing to end" falls through; (2) after [AnnotateCheckerBegin] every
    later checker result, not only the first, is an interval that starts at
    that begin with its text: the reset writes to a copy. *)
Theorem stale_intervals (t0 n : Z) (d : string) (g0 g g' : Global) (cs : list (Z * Call)) :
  AnnotateTest t0 d n g0 = Ret g →
  StronglySorted Z.le (t0 :: cs.*1) → Forall (call_ok (Z.to_nat n)) cs.*2 → calls cs g = Ret g' →
  filter blank (annotations (annotation g')) = blank_until <$> idle_clears cs g ∧
  ∀ cs1 cs2 t s, cs = cs1 ++ (t, CCheckerBegin s) :: cs2 → t ≠ 0 → forallb (negb ∘ is_begin) cs2.*2 = true →
    ∀ t2 desp details color, ∃ g'', AnnotateCheckerEnd t2 desp details color g' = Ret g'' ∧
      annotations (annotation g'') =
        annotations (annotation g') ++ [mkAnnot TAG_CHECKER t t2 desp (s +:+ ": " +:+ details) color] ∧
      finfo g'' = finfo g'.
Proof.
  intros Ht Hs Hok Hrun. destruct (decide (n < 0)) as [Hn|Hn].
  { unfold AnnotateTest, mkFrameworkInfo in Ht. by rewrite bool_decide_true in Ht. }
  destruct (AnnotateTest_timeline t0 d n g0) as (g1 & fi & Ht1 & Htl & Hb0); [lia |].
  rewrite Ht in Ht1. injection Ht1 as <-.
  destruct (calls_timeline _ _ _ _ _ Htl Hs Hok) as (g1 & _ & _ & Hr & _ & _ & Hb & _).
  rewrite Hrun in Hr. injection Hr as <-. split; [rewrite Hb, Hb0; done |].
  intros cs1 cs2 t s -> Hne Hnb t2 ds dt col.
  apply calls_app_inv in Hrun as (g2 & _ & Hrun). simpl in Hrun.
  apply go_bind_Ret_inv in Hrun as (g3 & Hbg & Hrun). unfold AnnotateCheckerBegin in Hbg. unwrap_go. simplify_eq/=.
  destruct (calls_ckbegin _ _ _ _ Hrun Hnb eq_refl) as (fi' & Hf' & Hk). simpl in Hk.
  unfold AnnotateCheckerEnd. rewrite Hf'. simpl. rewrite Hk, bool_decide_false by done. eauto.
Qed.

Lemma stale_intervals_witness :
  ∃ g g', AnnotateTest 5 "t" 3 ex_g0 = Ret g ∧ calls ex_calls g = Ret g' ∧
    filter blank (annotations (annotation g')) = [mkAnnot TAG_PARTITION 0 60 "" "" ""] ∧
    filter blank (annotations (annotation g')) = blank_until <$> idle_clears ex_calls g.
Proof.
  destruct (AnnotateTest 5 "t" 3 ex_g0) as [g|] eqn:Hg; [| vm_compute in Hg; discriminate].
  destruct (calls ex_calls g) as [g'|] eqn:Hr; [| vm_compute in Hg; injection Hg as <-; vm_compute in Hr; discriminate].
  assert (StronglySorted Z.le (5 :: ex_calls.*1)) as Hs by (repeat constructor; vm_compute; discriminate).
  assert (Forall (call_ok (Z.to_nat 3)) ex_calls.*2) as Hok.
  { repeat (apply Forall_cons; split; [simpl; repeat constructor; lia |]). constructor. }
  destruct (stale_intervals 5 3 "t" ex_g0 g g' ex_calls Hg Hs Hok Hr) as (Hb & _).
  exists g, g'. split; [reflexivity | split; [exact Hr | split; [| exact Hb]]].
  vm_compute in Hg. injection Hg as <-. vm_compute in Hr. injection Hr as <-. vm_compute. reflexivity.
Defined.

End Annotation.
