(* ===== verification/KVLog.v ===== *)
(** * The operation log and the porcupine check: [kvtest1/porcupine.go]

    Every [Get] and [Put] of a test is logged with the times of its call and
    of its return; at the end the log is handed to porcupine.  The theorem
    joins the parts of the key/value tests: what the clerks and the server
    do ([Linearizability]), what is logged of it, the model porcupine runs
    ([KvModel]) and the annotations ([Annotation]). *)

From S2P Require Import Prelude KVServer KvModel KVClerk Linearizability Annotation.
#[local] Open Scope Z_scope.

Module KVLog.
Import KvModel Linearizability.

(** ** The log *)

(** [porcupine.Operation]: the operation of the model with its times. *)
Record POp := mkPOp { op : Operation; Call : Z; Return : Z }.

(** [OpLog] *)
Definition OpLog : Type := list POp.
Definition Len (log : OpLog) : Z := Z.of_nat (length log).
Definition Append (log : OpLog) (o : POp) : OpLog := log ++ [o].
Definition Read (log : OpLog) : list POp := log.

(** [ts.oplog] may be nil; [ops] is the counter of [Config.Op], an [int32]. *)
Record Test := mkTest { oplog : option OpLog; ops : Z }.

Definition int32 (z : Z) : Z := (z + 2147483648) `mod` two32 - 2147483648.

Definition Op (ts : Test) : Test := mkTest (oplog ts) (int32 (ops ts + 1)).

(** [Test.Get] and [Test.Put] after the clerk has answered; [start] and
    [end_] are the two readings of the clock. *)
Definition Test_Get (ts : Test) (key : string) (cli : nat) (start end_ : Z) (r : string * Tversion * Err) : Test :=
  let ts := Op ts in
  mkTest ((λ log, Append log (mkPOp (mkOperation cli (get_input key) (get_output r)) start end_)) <$> oplog ts) (ops ts).

Definition Test_Put (ts : Test) (a : PutArgs) (cli : nat) (start end_ : Z) (err : Err) : Test :=
  let ts := Op ts in
  mkTest ((λ log, Append log (mkPOp (mkOperation cli (put_input a) (put_output err)) start end_)) <$> oplog ts) (ops ts).

(** The log of a history: each client reads the clock when it invokes an
    operation and when it gets the response. *)
Definition log_event (st : gmap nat Z * OpLog) (e : Z * Event) : gmap nat Z * OpLog :=
  match e.2 with
  | Inv c _ => (<[c := e.1]> st.1, st.2)
  | Res c i o => (delete c st.1, Append st.2 (mkPOp (mkOperation c i o) (default 0 (st.1 !! c)) e.1))
  end.

Definition log_of (h : list (Z * Event)) : gmap nat Z * OpLog := foldl log_event (∅, []) h.

(** ** The check *)

Inductive CheckResult := Ok | Illegal | Unknown.

(** What porcupine looks for: an order of the operations that is legal for
    the model and in which no operation comes before one that had returned
    before it was called. *)
Definition porcupine_legal (l : list POp) : Prop :=
  ∃ q, q ≡ₚ l ∧ legal (op <$> q) ∧
    ∀ i j a b, (i < j)%nat → q !! i = Some a → q !! j = Some b → ¬ Return b < Call a.

(** [checkPorcupine]: [check] is [porcupine.CheckOperationsVerbose], [enabled]
    the variable [VIS_ENABLE], [opened] whether the file could be created,
    [t1] and [t2] the clock in [FinalizeAnnotations].  The result has the
    annotations written to the file, if any, and whether the test fails. *)
Definition checkPorcupine (t1 t2 : Z) (order : list string) (check : list POp → CheckResult) (enabled : string)
    (opened : bool) (log : OpLog) (g : Annotation.Global) :
    Annotation.Global * option (list Annotation.Annot) * bool :=
  match check (Read log) with
  | Illegal =>
      if opened && negb (bool_decide (enabled = "never")) then
        let '(anns, g') := Annotation.FinalizeAnnotations t1 t2 order g "test failed" in (g', Some anns, true)
      else (g, None, true)
  | _ =>
      if bool_decide (enabled = "always") && Annotation.GetAnnotationFinalized g then
        if opened then
          let '(anns, g') := Annotation.FinalizeAnnotations t1 t2 order g "test passed" in (g', Some anns, false)
        else (g, None, false)
      else (g, None, false)
  end.

(** ** The log of a linearizable history *)

(** An operation that has taken effect, its call and, once it has returned,
    its return. *)
Abbreviation Entry := (Operation * Z * option Z)%type.

Definition finish (e : Entry) : option POp := mkPOp e.1.1 e.1.2 <$> e.2.

(** The operations in the order in which they take effect, against the
    phases and the log. *)
Record logged (ph : gmap nat Phase) (pend : gmap nat Z) (log : OpLog) (now : Z) (q : list Entry) : Prop := {
  lg_done : omap finish q ≡ₚ log;
  lg_pend : ∀ c, is_Some (ph !! c) → is_Some (pend !! c);
  lg_now : ∀ c t, pend !! c = Some t → t ≤ now;
  lg_calls : ∀ o t r, (o, t, r) ∈ q → t ≤ now;
  lg_open : ∀ k o t, q !! k = Some (o, t, None) →
    ph !! ClientId o = Some (Linearized (Input o) (Output o)) ∧ pend !! ClientId o = Some t;
  lg_lin : ∀ c i o, ph !! c = Some (Linearized i o) → ∃ k t, q !! k = Some (mkOperation c i o, t, None);
  lg_one : ∀ k1 k2 o1 o2 t1 t2, q !! k1 = Some (o1, t1, None) → q !! k2 = Some (o2, t2, None) →
    ClientId o1 = ClientId o2 → k1 = k2;
  lg_order : ∀ i j o1 t1 r1 o2 t2 r2, (i < j)%nat → q !! i = Some (o1, t1, r1) → q !! j = Some (o2, t2, Some r2) → t1 ≤ r2;
}.

Lemma logged_inv ph pend log now q c i t :
  logged ph pend log now q → ph !! c = None → now ≤ t →
  logged (<[c := Invoked i]> ph) (<[c := t]> pend) log t q.
Proof.
  intros [Hd Hp Hn Hc Ho Hl H1 Hord] Hc0 Ht. split; [done | | | | | | done | done].
  - intros c'. rewrite !lookup_insert_is_Some. naive_solver.
  - intros c' t' [[_ <-]|[_ Hp']]%lookup_insert_Some; [lia |]. specialize (Hn _ _ Hp'). lia.
  - intros o t' r Hin. specialize (Hc _ _ _ Hin). lia.
  - intros k o t' Hk. destruct (Ho _ _ _ Hk) as [Hph Hpd].
    assert (c ≠ ClientId o) by congruence. by rewrite !lookup_insert_ne.
  - intros c' i' o' [[_ ?]|[_ Hph]]%lookup_insert_Some; [done | by apply Hl].
Qed.

Lemma logged_lin ph pend log now q c i o :
  logged ph pend log now q → ph !! c = Some (Invoked i) →
  ∃ t, logged (<[c := Linearized i o]> ph) pend log now (q ++ [(mkOperation c i o, t, None)]).
Proof.
  intros [Hd Hp Hn Hc Ho Hl H1 Hord] Hc0. destruct (Hp c) as [t Ht]; [by eexists |]. exists t.
  assert (∀ k o' t', q !! k = Some (o', t', None) → ClientId o' ≠ c) as Hfresh.
  { intros k o' t' Hk <-. destruct (Ho _ _ _ Hk) as [Hph _]. congruence. }
  split.
  - by rewrite omap_app, app_nil_r.
  - intros c' Hc'. apply Hp. apply lookup_insert_is_Some in Hc' as [<-|[_ ?]]; [by eexists | done].
  - done.
  - intros o' t' r [Hin|Hin]%elem_of_app; [by eapply Hc |]. apply list_elem_of_singleton in Hin. simplify_eq. by eapply Hn.
  - intros k o' t' [[_ Hk]|[_ Hk]]%lookup_snoc_Some.
    + pose proof (Hfresh _ _ _ Hk). destruct (Ho _ _ _ Hk). by rewrite lookup_insert_ne.
    + simplify_eq. simpl. by rewrite lookup_insert_eq.
  - intros c' i' o' [[<- [= <- <-]]|[Hne Hph]]%lookup_insert_Some.
    + exists (length q), t. by rewrite lookup_app_r, Nat.sub_diag.
    + destruct (Hl _ _ _ Hph) as (k & t' & Hk). exists k, t'. by apply lookup_app_l_Some.
  - intros k1 k2 o1 o2 t1 t2 [[_ Hk1]|[-> Hk1]]%lookup_snoc_Some [[_ Hk2]|[-> Hk2]]%lookup_snoc_Some Heq; [by eapply H1 | | | done].
    + simplify_eq. by destruct (Hfresh _ _ _ Hk1).
    + simplify_eq. by destruct (Hfresh _ _ _ Hk2).
  - intros k1 k2 o1 t1 r1 o2 t2 r2 Hlt Hk1 [[Hk2' Hk2]|[_ Hk2]]%lookup_snoc_Some; [| done].
    apply lookup_snoc_Some in Hk1 as [[_ Hk1]|[-> _]]; [by eapply (Hord k1 k2) | lia].
Qed.

Lemma omap_finish_insert q k o t r :
  q !! k = Some (o, t, None) → omap finish (<[k := (o, t, Some r)]> q) ≡ₚ omap finish q ++ [mkPOp o t r].
Proof.
  intros Hk. rewrite <- (take_drop_middle q k (o, t, None)) at 2 by done.
  rewrite insert_take_drop by (by eapply lookup_lt_Some). rewrite !omap_app. simpl.
  rewrite <- (Permutation_middle _ (list_omap _ _ _ _)). by rewrite <- Permutation_cons_append.
Qed.

Lemma logged_res ph pend log now q c i o t :
  logged ph pend log now q → ph !! c = Some (Linearized i o) → now ≤ t →
  ∃ q', q'.*1.*1 = q.*1.*1 ∧
    logged (delete c ph) (delete c pend) (Append log (mkPOp (mkOperation c i o) (default 0 (pend !! c)) t)) t q'.
Proof.
  intros [Hd Hp Hn Hc Ho Hl H1 Hord] Hc0 Ht. destruct (Hl _ _ _ Hc0) as (k & t0 & Hk).
  destruct (Ho _ _ _ Hk) as [_ Hpd]. simpl in Hpd. rewrite Hpd. simpl.
  assert (∀ k' o' t', <[k := (mkOperation c i o, t0, Some t)]> q !! k' = Some (o', t', None) →
            q !! k' = Some (o', t', None) ∧ ClientId o' ≠ c) as Hopen.
  { intros k' o' t' [(-> & [=] & _)|[Hne Hk']]%list_lookup_insert_Some. split; [done |]. intros Heq.
    by specialize (H1 _ _ _ _ _ _ Hk Hk' (eq_sym Heq)). }
  exists (<[k := (mkOperation c i o, t0, Some t)]> q). split; [| split].
  - rewrite !list_fmap_insert. apply list_insert_id. rewrite !list_lookup_fmap. rewrite Hk. done.
  - rewrite omap_finish_insert by done. unfold Append. by rewrite Hd.
  - intros c' Hc'. apply lookup_delete_is_Some in Hc' as [Hne Hc']. apply lookup_delete_is_Some. auto.
  - intros c' t' [_ Hp']%lookup_delete_Some. specialize (Hn _ _ Hp'). lia.
  - intros o' t' r' (k' & Hk')%list_elem_of_lookup. apply list_lookup_insert_Some in Hk' as [(-> & [= <- <- <-] & _)|[_ Hk']].
    + specialize (Hn _ _ Hpd). lia.
    + apply list_elem_of_lookup_2 in Hk'. specialize (Hc _ _ _ Hk'). lia.
  - intros k' o' t' [Hk' Hne]%Hopen. destruct (Ho _ _ _ Hk'). by rewrite !lookup_delete_ne.
  - intros c' i' o' [Hne Hph]%lookup_delete_Some. destruct (Hl _ _ _ Hph) as (k' & t' & Hk'). exists k', t'.
    rewrite list_lookup_insert_ne; [done |]. intros ->. rewrite Hk in Hk'. by simplify_eq.
  - intros k1 k2 o1 o2 t1 t2 [Hk1 _]%Hopen [Hk2 _]%Hopen. by eapply H1.
  - intros k1 k2 o1 t1 r1 o2 t2 r2 Hlt Hk1 Hk2.
    assert (∃ r, q !! k1 = Some (o1, t1, r)) as [r Hk1'].
    { apply list_lookup_insert_Some in Hk1 as [(-> & [= <- <- <-] & _)|[_ Hk1]]; eauto. }
    apply list_lookup_insert_Some in Hk2 as [(-> & [= <- <- <-] & _)|[_ Hk2]]; [| by eapply (Hord k1 k2)].
    apply list_elem_of_lookup_2 in Hk1'. specialize (Hc _ _ _ Hk1'). lia.
Qed.

Lemma log_of_snoc ht e : log_of (ht ++ [e]) = log_event (log_of ht) e.
Proof. unfold log_of. by rewrite foldl_app. Qed.

Lemma visible_snoc l x : visible (l ++ [x]) = visible l ++ match x with Vis e => [e] | Lin _ => [] end.
Proof. unfold visible. rewrite omap_app. by destruct x. Qed.

Lemma linearized_snoc l x : linearized (l ++ [x]) = linearized l ++ match x with Lin o => [o] | Vis _ => [] end.
Proof. unfold linearized. rewrite omap_app. by destruct x. Qed.

(** A timed history whose last event is [e]. *)
Lemma timed_snoc (t0 : Z) (ht : list (Z * Event)) (h : list Event) e :
  ht.*2 = h ++ [e] → StronglySorted Z.le (t0 :: ht.*1) →
  ∃ ht' t, ht = ht' ++ [(t, e)] ∧ ht'.*2 = h ∧ StronglySorted Z.le (t0 :: ht'.*1) ∧ ∀ t', t' ∈ t0 :: ht'.*1 → t' ≤ t.
Proof.
  intros Heq Hs. destruct ht as [|[t e'] ht' _] using rev_ind; [by destruct h |].
  rewrite fmap_app in Heq. apply app_inj_tail in Heq as [Heq [= ->]].
  rewrite fmap_app in Hs. exists ht', t. split_and!; [done | done | by apply (StronglySorted_app_1_l _ (t0 :: _)) in Hs |].
  intros t' Ht'. apply (StronglySorted_app_1_elem_of Z.le (t0 :: ht'.*1) [t]); [done | done | by left].
Qed.

Lemma interleaved_logged l ph t0 ht :
  Interleaved l ph → ht.*2 = visible l → StronglySorted Z.le (t0 :: ht.*1) →
  ∃ q now, now ∈ t0 :: ht.*1 ∧ logged ph (log_of ht).1 (log_of ht).2 now q ∧ q.*1.*1 = linearized l.
Proof.
  intros Hil. revert ht. induction Hil as [|l ph c i Hil IH Hc|l ph c i o Hil IH Hc|l ph c i o Hil IH Hc]; intros ht Hv Hs.
  - exists [], t0. destruct ht; [| done]. split_and!; [by left | | done].
    split; try done; try (by intros ? ? ? ?%not_elem_of_nil).
    all: intros ?; rewrite lookup_empty; done.
  - rewrite visible_snoc in Hv. destruct (timed_snoc _ _ _ _ Hv Hs) as (ht' & t & -> & Hv' & Hs' & Hle).
    destruct (IH _ Hv' Hs') as (q & now & Hnow & Hlg & Hq). exists q, t.
    rewrite log_of_snoc, linearized_snoc, app_nil_r. split_and!; [rewrite fmap_app; set_solver | | done].
    eapply logged_inv; eauto.
  - rewrite visible_snoc, app_nil_r in Hv. destruct (IH _ Hv Hs) as (q & now & Hnow & Hlg & Hq).
    destruct (logged_lin _ _ _ _ _ _ _ o Hlg Hc) as [t Hlg']. eexists _, now. split_and!; [done | done |].
    by rewrite linearized_snoc, !fmap_app, Hq.
  - rewrite visible_snoc in Hv. destruct (timed_snoc _ _ _ _ Hv Hs) as (ht' & t & -> & Hv' & Hs' & Hle).
    destruct (IH _ Hv' Hs') as (q & now & Hnow & Hlg & Hq).
    destruct (logged_res _ _ _ _ _ _ _ _ t Hlg Hc) as (q' & Hq' & Hlg'); [by apply Hle |]. exists q', t.
    rewrite log_of_snoc, linearized_snoc, app_nil_r. split_and!; [rewrite fmap_app; set_solver | done | congruence].
Qed.

(** When all operations have returned the log is legal for porcupine. *)
Lemma logged_legal pend log now q :
  logged ∅ pend log now q → legal q.*1.*1 → porcupine_legal log.
Proof.
  intros [Hd _ _ _ Ho _ _ Hord] Hleg. exists (omap finish q). split; [done |].
  assert (q = (λ p, (op p, Call p, Some (Return p))) <$> omap finish q) as Heq.
  { clear Hd Hord Hleg. assert (∀ e, e ∈ q → is_Some e.2) as Hq.
    { intros [[o t] [r|]] [k Hk]%list_elem_of_lookup; [by eexists |]. destruct (Ho _ _ _ Hk) as [Hph _]. by rewrite lookup_empty in Hph. }
    clear Ho. induction q as [|[[o t] r] q IH]; [done |]. destruct (Hq (o, t, r)) as [r' Hr]; [by left |].
    simpl in Hr. subst r. simpl. f_equal. apply IH. intros e He. apply Hq. by right. }
  split.
  - rewrite Heq in Hleg. rewrite <- !list_fmap_compose in Hleg. exact Hleg.
  - intros i j a b Hij Hi Hj.
    assert (∀ k x, omap finish q !! k = Some x → q !! k = Some (op x, Call x, Some (Return x))) as Hk.
    { intros k x Hx. rewrite Heq, list_lookup_fmap, Hx. done. }
    specialize (Hord _ _ _ _ _ _ _ _ Hij (Hk _ _ Hi) (Hk _ _ Hj)). lia.
Qed.

Lemma linearizable_log t0 ht :
  linearizable ht.*2 → StronglySorted Z.le (t0 :: ht.*1) → (log_of ht).1 = ∅ → porcupine_legal (log_of ht).2.
Proof.
  intros (l & ph & Hil & Hv & Hleg) Hs Hcl.
  destruct (interleaved_logged l ph t0 ht Hil (eq_sym Hv) Hs) as (q & now & _ & Hlg & Hq).
  assert (ph = ∅) as ->.
  { apply map_empty. intros c. destruct (ph !! c) eqn:Hc; [| done].
    destruct (lg_pend _ _ _ _ _ Hlg c) as [t Ht]; [by eexists |]. by rewrite Hcl, lookup_empty in Ht. }
  eapply logged_legal; [done | by rewrite Hq].
Qed.

Lemma porcupine_legal_perm l l' : l ≡ₚ l' → porcupine_legal l → porcupine_legal l'.
Proof. intros Hp (q & Hq & Hrest). exists q. by rewrite <- Hp. Qed.

(** What [Test.Get] and [Test.Put] append is the entry of the response. *)
Lemma Test_Get_event ts log key c start t r pend :
  oplog ts = Some log → pend !! c = Some start →
  oplog (Test_Get ts key c start t r) = Some (log_event (pend, log) (t, Res c (get_input key) (get_output r))).2.
Proof. intros Hl Hp. unfold Test_Get, log_event. simpl. by rewrite Hl, Hp. Qed.

Lemma Test_Put_event ts log a c start t err pend :
  oplog ts = Some log → pend !! c = Some start →
  oplog (Test_Put ts a c start t err) = Some (log_event (pend, log) (t, Res c (put_input a) (put_output err))).2.
Proof. intros Hl Hp. unfold Test_Put, log_event. simpl. by rewrite Hl, Hp. Qed.

(** C17: the porcupine check passes.  Let clerks run as in C2, their
    operations logged with the clock at call and return, until every call
    has returned.  If porcupine says [Illegal] only of logs that have no
    legal order respecting the times, [checkPorcupine] does not fail the
    test, in whatever order the log was filled.  It then also writes no
    visualization, even with [VIS_ENABLE=always], unless the annotations were
    finalized before. *)
Theorem porcupine_passes {S : Type} `{VStore S} (srv : S) (n : nat) (t0 : Z) (ht : list (Z * Event)) (s : State)
    (check : list POp → CheckResult) (log : OpLog) :
  vs_ok srv → vs_abs srv = ∅ →
  Run n (mkState srv ∅) ht.*2 s → Z.of_nat n < two64 →
  (∀ c a, Res c (put_input a) (put_output ErrNoKey) ∉ ht.*2) →
  StronglySorted Z.le (t0 :: ht.*1) → (log_of ht).1 = ∅ → log ≡ₚ (log_of ht).2 →
  (∀ l, check l = Illegal → ¬ porcupine_legal l) →
  ∀ t1 t2 order enabled opened g,
    (checkPorcupine t1 t2 order check enabled opened log g).2 = false ∧
    (Annotation.GetAnnotationFinalized g = false →
     checkPorcupine t1 t2 order check enabled opened log g = (g, None, false)).
Proof.
  intros Hok Habs Hrun Hn Hno Hs Hcl Hlog Hcheck t1 t2 order enabled opened g.
  assert (check log ≠ Illegal) as Hlegal.
  { intros Hill. apply (Hcheck _ Hill). eapply porcupine_legal_perm; [symmetry; exact Hlog |].
    eapply linearizable_log; [by eapply run_linearizable | done..]. }
  unfold checkPorcupine, Read. split.
  - destruct (check log); [| done |]; destruct (_ && _)%bool, opened; done.
  - intros ->. rewrite andb_false_r. by destruct (check log).
Qed.

(** A checker for logs of at most one operation. *)
Definition ex_check (l : list POp) : CheckResult :=
  match l with
  | [p] => if decide (Forall (λ part, accepts_from Init part = true) (Partition [op p])) then Ok else Illegal
  | _ => Unknown
  end.

Lemma ex_check_ok l : ex_check l = Illegal → ¬ porcupine_legal l.
Proof.
  destruct l as [|p [|? ?]]; simpl; [done | | done]. case_decide as Hd; [done |].
  intros _ (q & Hq & Hl & _). apply Permutation_singleton_r in Hq as ->. done.
Qed.

Definition ex_timed : list (Z * Event) := zip [10; 20] maybe_history.

Lemma porcupine_passes_witness :
  ∃ g, checkPorcupine 0 0 [] ex_check "always" true (log_of ex_timed).2 g = (g, None, false).
Proof.
  exists (Annotation.mkGlobal Annotation.mkAnnotation None).
  destruct maybe_run as [s Hs].
  refine (proj2 (porcupine_passes (H := KVServer_VStore) KVServer.MakeKVServer 4 0 ex_timed s ex_check _
            KVServer.MakeKVServer_wf eq_refl Hs _ _ _ _ _ ex_check_ok 0 0 [] "always" true
            (Annotation.mkGlobal Annotation.mkAnnotation None)) eq_refl).
  - vm_compute. reflexivity.
  - intros c a Hin. simpl in Hin. set_solver.
  - repeat constructor; vm_compute; discriminate.
  - vm_compute. reflexivity.
  - reflexivity.
Defined.

End KVLog.
