(* ===== verification/ShardCfg.v ===== *)
(** * Shard configurations: [shardkv1/shardcfg/shardcfg.go]

    The assignment of the twelve shards to replica groups: hashing keys to
    shards, joining and leaving of groups, and the rebalancing loop, which is
    shown to terminate with every shard on a live group and loads that
    differ by at most one. *)

From S2P Require Import Prelude.
#[local] Open Scope Z_scope.

Module ShardCfg.

Definition NShards : nat := 12.
Definition NumFirst : Z := 1.
Definition Gid1 : Z := 1.

(** [Key2Shard]: [Tshid(h.Sum32()) % NShards], on a 64-bit [int]. *)
Definition Key2Shard (key : string) : Z := fnv32a key `mod` Z.of_nat NShards.

(** [Shards] is an array indexed by shard number, [Groups] a Go map. *)
Record ShardConfig := mkShardConfig {
  Num : Z;
  Shards : list Z;
  Groups : gmap Z (list string)
}.

Definition MakeShardConfig : ShardConfig := mkShardConfig 0 (replicate NShards 0) ∅.

Definition set_Shards (c : ShardConfig) (l : list Z) : ShardConfig :=
  mkShardConfig (Num c) l (Groups c).
Definition set_Groups (c : ShardConfig) (g : gmap Z (list string)) : ShardConfig :=
  mkShardConfig (Num c) (Shards c) g.

(** [Copy]: a new configuration with a fresh copy of each server list. *)
Definition Copy (cfg : ShardConfig) : ShardConfig :=
  foldl (λ c '(k, srvs), set_Groups c (<[k := srvs]> (Groups c)))
    (mkShardConfig (Num cfg) (Shards cfg) (Groups MakeShardConfig))
    (map_to_list (Groups cfg)).

(** Printable ASCII: strings that JSON keeps as they are. *)
Definition printable (s : string) : Prop :=
  Forall (λ b, 32 ≤ b < 127) (bytes_of_string s).

(** [encoding/json] on configurations: the fields are exported, integer keys
    become strings and back, and names of servers in printable ASCII survive. *)
Class ConfigJson := {
  json_Marshal : ShardConfig → option string;
  json_Unmarshal : string → option ShardConfig;
  json_roundtrip : ∀ c, map_Forall (λ _ srvs, Forall printable srvs) (Groups c) →
    ∃ b, json_Marshal c = Some b ∧ json_Unmarshal b = Some c;
}.

(** [String] and [FromString], which end the process when [encoding/json]
    reports an error. *)
Definition String_ `{ConfigJson} (cfg : ShardConfig) : GoRes string :=
  deref (json_Marshal cfg) "Unmarshall err".
Definition FromString `{ConfigJson} (s : string) : GoRes ShardConfig :=
  deref (json_Unmarshal s) "Unmarshall err".

(** The first loop of [analyze]: [counts[g] += 1] for every shard. *)
Definition count_shards (l : list Z) : gmap Z Z :=
  foldl (λ counts g, <[g := map_int counts g + 1]> counts) ∅ l.

(** The group ids, [slices.Sort]ed so that map order does not matter. *)
Definition sorted_gids (c : ShardConfig) : list Z :=
  merge_sort Z.le (map_to_list (Groups c)).*1.

(** One round of the second loop, on [(mg, mn, lg, ln)]. *)
Definition analyze_step (counts : gmap Z Z) (acc : Z * Z * Z * Z) (g : Z) : Z * Z * Z * Z :=
  let '(mg, mn, lg, ln) := acc in
  let n := map_int counts g in
  let '(lg, ln) := if decide (n < ln) then (g, n) else (lg, ln) in
  let '(mg, mn) := if decide (n > mn) then (g, n) else (mg, mn) in
  (mg, mn, lg, ln).

(** [analyze]: most loaded group and its load, least loaded group and its
    load. *)
Definition analyze (c : ShardConfig) : Z * Z * Z * Z :=
  foldl (analyze_step (count_shards (Shards c))) (-1, -1, -1, 257) (sorted_gids c).

Definition least (c : ShardConfig) : Z := (analyze c).1.2.

(** The loop body of "assign all unassigned shards"; the range is over a
    copy of the array taken when the loop starts. *)
Definition assign_step (c : ShardConfig) (sg : nat * Z) : ShardConfig :=
  match Groups c !! sg.2 with
  | Some _ => c
  | None => set_Shards c (<[sg.1 := least c]> (Shards c))
  end.

Definition assign_unassigned (c : ShardConfig) : ShardConfig :=
  foldl assign_step c (imap pair (Shards c)).

(** "move 1 shard from mg to lg": the first shard found on [mg]. *)
Fixpoint move_one (l : list Z) (mg lg : Z) : list Z :=
  match l with
  | [] => []
  | g :: l => if decide (g = mg) then lg :: l else g :: move_one l mg lg
  end.

(** The balancing loop, with fuel for its iterations. *)
Fixpoint balance (fuel : nat) (c : ShardConfig) : GoRes ShardConfig :=
  match fuel with
  | O => Abort "balance: out of fuel"
  | S fuel =>
      let '(mg, mn, lg, ln) := analyze c in
      if decide (mn < ln + 2) then Ret c
      else balance fuel (set_Shards c (move_one (Shards c) mg lg))
  end.

(** Each iteration lowers the sum of the squares of the loads, which is at
    most [NShards^2]. *)
Definition balance_fuel : nat := S (NShards * NShards).

Definition Rebalance (c : ShardConfig) : GoRes ShardConfig :=
  if decide (size (Groups c) < 1)%nat then
    Ret (set_Shards c ((λ _, 0) <$> Shards c))
  else balance balance_fuel (assign_unassigned c).

(** The check of [Join] that no server is already in a group. *)
Definition shares_server (srvs : list string) (groups : gmap Z (list string)) : bool :=
  existsb (λ x : Z * list string, existsb (λ s1, bool_decide (s1 ∈ srvs)) x.2) (map_to_list groups).

(** The loop of [Join], over the joining groups in the order the map yields
    them; the flag is false when it returned early on a known group. *)
Fixpoint join_loop (cfg : ShardConfig) (servers : list (Z * list string)) : GoRes (ShardConfig * bool) :=
  match servers with
  | [] => Ret (cfg, true)
  | (gid, srvs) :: servers =>
      match Groups cfg !! gid with
      | Some _ => Ret (cfg, false)
      | None =>
          if shares_server srvs (Groups cfg) then Abort "Join puts server in two groups"
          else join_loop (set_Groups cfg (<[gid := srvs]> (Groups cfg))) servers
      end
  end.

Definition bump_Num (c : ShardConfig) : ShardConfig :=
  mkShardConfig (int64 (Num c + 1)) (Shards c) (Groups c).

Definition Join (cfg : ShardConfig) (servers : list (Z * list string)) : GoRes (ShardConfig * bool) :=
  (let* r := join_loop cfg servers in
   if r.2 then
     if decide (servers = []) then Abort "Join but no change" else Ret (bump_Num r.1, true)
   else Ret (r.1, false))%go.

Fixpoint leave_loop (cfg : ShardConfig) (gids : list Z) : ShardConfig * bool :=
  match gids with
  | [] => (cfg, true)
  | gid :: gids =>
      match Groups cfg !! gid with
      | None => (cfg, false)
      | Some _ => leave_loop (set_Groups cfg (delete gid (Groups cfg))) gids
      end
  end.

Definition Leave (cfg : ShardConfig) (gids : list Z) : GoRes (ShardConfig * bool) :=
  let r := leave_loop cfg gids in
  if r.2 then
    if decide (gids = []) then Abort "Leave but no change" else Ret (bump_Num r.1, true)
  else Ret (r.1, false).

Definition JoinBalance (cfg : ShardConfig) (servers : list (Z * list string)) : GoRes (ShardConfig * bool) :=
  (let* r := Join cfg servers in
   if r.2 then let* c := Rebalance r.1 in Ret (c, true) else Ret (r.1, false))%go.

Definition LeaveBalance (cfg : ShardConfig) (gids : list Z) : GoRes (ShardConfig * bool) :=
  (let* r := Leave cfg gids in
   if r.2 then let* c := Rebalance r.1 in Ret (c, true) else Ret (r.1, false))%go.

(** [GidServers(sh)]: indexing the array panics outside [0, NShards). *)
Definition GidServers (cfg : ShardConfig) (sh : Z) : GoRes (Z * list string * bool) :=
  if decide (sh < 0) then Abort "index out of range" else
  (let* gid := deref (Shards cfg !! Z.to_nat sh) "index out of range" in
   match Groups cfg !! gid with
   | Some srvs => Ret (gid, srvs, true)
   | None => Ret (gid, [], false)
   end)%go.

Definition IsMember (cfg : ShardConfig) (gid : Z) : bool :=
  existsb (λ g, bool_decide (g = gid)) (Shards cfg).

(** The loop of [CheckConfig] over [cfg.Groups] for the extreme loads. *)
Definition min_max_step (counts : gmap Z Z) (acc : Z * Z) (g : Z) : Z * Z :=
  let n := map_int counts g in
  let max := if decide (n > acc.2) then n else acc.2 in
  let min := if decide (n < acc.1) then n else acc.1 in
  (min, max).

Definition CheckConfig (cfg : ShardConfig) (groups : list Z) : GoRes unit :=
  if decide (size (Groups cfg) ≠ length groups) then Abort "wanted groups"
  else if decide (Exists (λ g, Groups cfg !! g = None) groups) then Abort "missing group"
  else if decide (0 < length groups ∧ Exists (λ g, Groups cfg !! g = None) (Shards cfg))%nat
  then Abort "shard to invalid group"
  else
    let '(min, max) :=
      foldl (min_max_step (count_shards (Shards cfg))) (257, 0) (map_to_list (Groups cfg)).*1 in
    if decide (max > min + 1) then Abort "max too much larger than min" else Ret tt.

(** ** Loads *)

(** The load of a group: how many shards it serves. *)
Definition load (l : list Z) (g : Z) : Z := Z.of_nat (length (filter (λ x, x = g) l)).

Lemma load_nil g : load [] g = 0.
Proof. done. Qed.

Lemma load_cons x l g : load (x :: l) g = (if decide (x = g) then 1 else 0) + load l g.
Proof.
  unfold load. case_decide.
  - rewrite filter_cons_True by done. simpl. lia.
  - by rewrite filter_cons_False.
Qed.

Lemma load_app l k g : load (l ++ k) g = load l g + load k g.
Proof. unfold load. rewrite filter_app, length_app. lia. Qed.

Lemma load_bounds l g : 0 ≤ load l g ≤ Z.of_nat (length l).
Proof. unfold load. pose proof (length_filter (λ x, x = g) l). lia. Qed.

Lemma count_shards_load l g : map_int (count_shards l) g = load l g.
Proof.
  induction l as [|x l IH] using rev_ind; [done |].
  unfold count_shards in *. rewrite foldl_app, load_app. simpl. rewrite load_cons, load_nil.
  unfold map_int at 1. rewrite lookup_insert. case_decide as Hd.
  - subst. simpl. rewrite IH. lia.
  - fold (map_int (foldl (λ counts g, <[g := map_int counts g + 1]> counts) ∅ l) g).
    rewrite IH. lia.
Qed.

Lemma sorted_gids_spec c g : g ∈ sorted_gids c ↔ is_Some (Groups c !! g).
Proof.
  unfold sorted_gids. rewrite merge_sort_Permutation, list_elem_of_fmap. split.
  - intros ([g' srvs] & -> & Hg%elem_of_map_to_list). eauto.
  - intros [srvs Hg]. exists (g, srvs). by rewrite elem_of_map_to_list.
Qed.

Lemma sorted_gids_NoDup c : NoDup (sorted_gids c).
Proof. unfold sorted_gids. rewrite merge_sort_Permutation. apply NoDup_fst_map_to_list. Qed.

Lemma sorted_gids_nonempty c : Groups c ≠ ∅ → sorted_gids c ≠ [].
Proof.
  intros Hne Hnil. apply Hne, map_eq. intros g. rewrite lookup_empty.
  destruct (Groups c !! g) eqn:E; [| done].
  assert (g ∈ sorted_gids c) as Hin by (apply sorted_gids_spec; eauto).
  rewrite Hnil in Hin. by apply not_elem_of_nil in Hin.
Qed.

(** What the second loop of [analyze] has established about the groups [gs]
    seen so far. *)
Definition extremes (load : Z → Z) (gs : list Z) (acc : Z * Z * Z * Z) : Prop :=
  let '(mg, mn, lg, ln) := acc in
  mg ∈ gs ∧ mn = load mg ∧ lg ∈ gs ∧ ln = load lg ∧
  ∀ g, g ∈ gs → ln ≤ load g ≤ mn.

Lemma analyze_loop counts gs done acc :
  extremes (map_int counts) done acc →
  extremes (map_int counts) (done ++ gs) (foldl (analyze_step counts) acc gs).
Proof.
  revert done acc. induction gs as [|g gs IH]; intros done [[[mg mn] lg] ln] He; simpl.
  - by rewrite app_nil_r.
  - rewrite cons_middle, app_assoc. apply IH. destruct He as (Hmg & Hmn & Hlg & Hln & Hall).
    pose proof (Hall mg Hmg) as Hb. unfold extremes. clear IH.
    repeat case_decide; split_and!; try set_solver; try lia;
      (intros g' [Hg'| ->%list_elem_of_singleton]%elem_of_app; [specialize (Hall g' Hg'); lia | lia]).
Qed.

(** With fewer than 257 shards (the initial [ln]) the first group always
    replaces the initial values. *)
Lemma analyze_extremes c :
  Groups c ≠ ∅ → Z.of_nat (length (Shards c)) < 257 →
  extremes (load (Shards c)) (sorted_gids c) (analyze c).
Proof.
  intros Hne Hlen. unfold analyze.
  pose proof (sorted_gids_nonempty c Hne) as Hgs. destruct (sorted_gids c) as [|g gs]; [done |].
  assert (extremes (map_int (count_shards (Shards c))) ([g] ++ gs)
            (foldl (analyze_step (count_shards (Shards c))) (-1, -1, -1, 257) (g :: gs))) as He.
  { simpl. pose proof (load_bounds (Shards c) g) as Hb. rewrite <- count_shards_load in Hb.
    rewrite !decide_True by lia. apply (analyze_loop _ _ [g]). unfold extremes. set_solver by lia. }
  revert He. unfold extremes. destruct (foldl _ _ _) as [[[mg mn] lg] ln].
  setoid_rewrite count_shards_load. auto.
Qed.

(** ** Well-formed configurations *)

Definition wf (c : ShardConfig) : Prop := length (Shards c) = NShards.

(** Every shard is on a group of the configuration. *)
Definition assigned (c : ShardConfig) : Prop :=
  ∀ g, g ∈ Shards c → is_Some (Groups c !! g).

(** Loads of any two groups differ by at most one. *)
Definition balanced (c : ShardConfig) : Prop :=
  ∀ g1 g2, is_Some (Groups c !! g1) → is_Some (Groups c !! g2) →
    load (Shards c) g1 ≤ load (Shards c) g2 + 1.

Lemma wf_lt_257 c : wf c → Z.of_nat (length (Shards c)) < 257.
Proof. unfold wf, NShards. lia. Qed.

Lemma analyze_spec c :
  Groups c ≠ ∅ → wf c →
  ∃ mg mn lg ln, analyze c = (mg, mn, lg, ln) ∧
    is_Some (Groups c !! mg) ∧ is_Some (Groups c !! lg) ∧
    mn = load (Shards c) mg ∧ ln = load (Shards c) lg ∧
    ∀ g, is_Some (Groups c !! g) → ln ≤ load (Shards c) g ≤ mn.
Proof.
  intros Hne Hwf. pose proof (analyze_extremes c Hne (wf_lt_257 c Hwf)) as He.
  destruct (analyze c) as [[[mg mn] lg] ln]. destruct He as (H1 & H2 & H3 & H4 & H5).
  exists mg, mn, lg, ln. split_and!; [done | by apply sorted_gids_spec | by apply sorted_gids_spec | done | done |].
  intros g Hg. apply H5. by apply sorted_gids_spec.
Qed.

(** *** The assignment loop *)

Lemma least_is_group c : Groups c ≠ ∅ → wf c → is_Some (Groups c !! least c).
Proof.
  intros Hne Hwf. destruct (analyze_spec c Hne Hwf) as (mg & mn & lg & ln & E & _ & Hlg & _).
  unfold least. by rewrite E.
Qed.

Lemma assign_loop (k pre : list Z) c :
  Groups c ≠ ∅ → wf c → Shards c = pre ++ k → Forall (λ g, is_Some (Groups c !! g)) pre →
  let c' := foldl assign_step c (imap (λ j x, ((length pre + j)%nat, x)) k) in
  Groups c' = Groups c ∧ Num c' = Num c ∧ wf c' ∧ assigned c' ∧
  (Forall (λ g, is_Some (Groups c !! g)) k → c' = c).
Proof.
  revert pre c. induction k as [|x k IH]; intros pre c Hne Hwf Hsh Hpre; cbn zeta.
  - simpl. split_and!; [done | done | done | | done]. intros g Hg. rewrite Hsh, app_nil_r in Hg.
    by eapply Forall_forall in Hpre.
  - simpl. rewrite Nat.add_0_r.
    assert (∀ (pre' : list Z) c', length pre' = S (length pre) →
      foldl assign_step c' (imap ((λ j x, ((length pre + j)%nat, x)) ∘ S) k) =
      foldl assign_step c' (imap (λ j x, ((length pre' + j)%nat, x)) k)) as Heq.
    { intros pre' c' Hl. f_equal. apply imap_ext. intros j y _. simpl. f_equal. lia. }
    destruct (Groups c !! x) as [srvs|] eqn:Ex.
    + assert (assign_step c (length pre, x) = c) as -> by (unfold assign_step; simpl; by rewrite Ex).
      rewrite (Heq (pre ++ [x])) by (rewrite length_app; simpl; lia).
      destruct (IH (pre ++ [x]) c) as (? & ? & ? & ? & Hid); auto.
      * by rewrite <- app_assoc.
      * apply Forall_app. split; [done |]. constructor; eauto.
      * split_and!; auto. inversion 1; auto.
    + set (c1 := set_Shards c (<[length pre := least c]> (Shards c))).
      assert (assign_step c (length pre, x) = c1) as -> by (unfold assign_step; simpl; by rewrite Ex).
      rewrite (Heq (pre ++ [least c])) by (rewrite length_app; simpl; lia).
      assert (Shards c1 = (pre ++ [least c]) ++ k) as Hs1.
      { simpl. rewrite Hsh. rewrite insert_app_r_alt, Nat.sub_diag by lia. simpl.
        by rewrite <- app_assoc. }
      assert (wf c1) as Hwf1 by (unfold wf; simpl; by rewrite length_insert).
      destruct (IH (pre ++ [least c]) c1) as (? & ? & ? & ? & _); auto.
      * apply Forall_app. split; [done |]. constructor; [exact (least_is_group c Hne Hwf) | constructor].
      * split_and!; auto. inversion 1 as [|? ? [? Hx] ?]. congruence.
Qed.

Lemma assign_unassigned_spec c :
  Groups c ≠ ∅ → wf c →
  Groups (assign_unassigned c) = Groups c ∧ Num (assign_unassigned c) = Num c ∧
  wf (assign_unassigned c) ∧ assigned (assign_unassigned c) ∧
  (assigned c → assign_unassigned c = c).
Proof.
  intros Hne Hwf. destruct (assign_loop (Shards c) [] c) as (? & ? & ? & ? & Hid); auto.
  split_and!; auto. intros Ha. apply Hid. apply Forall_forall. auto.
Qed.

(** *** Moving one shard *)

Lemma move_one_length l mg lg : length (move_one l mg lg) = length l.
Proof. induction l as [|g l IH]; simpl; [done |]. case_decide; simpl; auto. Qed.

Lemma move_one_load l mg lg g :
  mg ∈ l → mg ≠ lg →
  load (move_one l mg lg) g =
    load l g - (if decide (g = mg) then 1 else 0) + (if decide (g = lg) then 1 else 0).
Proof.
  intros Hin Hne. induction l as [|x l IH]; [by apply not_elem_of_nil in Hin |].
  simpl. rewrite load_cons. destruct (decide (x = mg)) as [->|Hx].
  - rewrite load_cons. repeat case_decide; subst; try congruence; lia.
  - rewrite load_cons, IH by set_solver. repeat case_decide; lia.
Qed.

Lemma move_one_elem l mg lg g : g ∈ move_one l mg lg → g ∈ l ∨ g = lg.
Proof.
  induction l as [|x l IH]; simpl; [auto |]. case_decide; rewrite !elem_of_cons; naive_solver.
Qed.

Lemma load_pos l g : 0 < load l g → g ∈ l.
Proof.
  induction l as [|x l IH]; [by rewrite load_nil |]. rewrite load_cons, elem_of_cons.
  case_decide; [auto |]. intros. right. apply IH. lia.
Qed.

(** *** The measure: sum of the squares of the loads *)

Definition sum_over (f : Z → Z) (gs : list Z) : Z := foldr (λ g acc, f g + acc) 0 gs.

#[export] Instance sum_over_Permutation f : Proper (Permutation ==> (=)) (sum_over f).
Proof. intros l l' Hp. induction Hp; simpl; lia. Qed.

Lemma sum_over_ext f f' gs : (∀ g, g ∈ gs → f g = f' g) → sum_over f gs = sum_over f' gs.
Proof.
  induction gs as [|g gs IH]; intros Heq; simpl; [done |].
  rewrite Heq by set_solver. rewrite IH; [done | set_solver].
Qed.

Lemma sum_over_le f f' gs : (∀ g, g ∈ gs → f g ≤ f' g) → sum_over f gs ≤ sum_over f' gs.
Proof.
  induction gs as [|g gs IH]; intros Hle; simpl; [lia |].
  pose proof (Hle g ltac:(set_solver)). pose proof (IH ltac:(set_solver)). lia.
Qed.

Lemma sum_over_zero gs : sum_over (λ _, 0) gs = 0.
Proof. induction gs; simpl; lia. Qed.

Lemma sum_over_scale k f gs : sum_over (λ g, k * f g) gs = k * sum_over f gs.
Proof. induction gs as [|g gs IH]; simpl; [lia |]. rewrite IH. lia. Qed.

Definition sumsq (l : list Z) (gs : list Z) : Z := sum_over (λ g, load l g * load l g) gs.

Lemma sum_loads_le gs l : NoDup gs → sum_over (load l) gs ≤ Z.of_nat (length l).
Proof.
  intros Hnd. induction l as [|x l IH].
  - rewrite (sum_over_ext _ (λ _, 0)) by done. by rewrite sum_over_zero.
  - assert (sum_over (load (x :: l)) gs ≤ 1 + sum_over (load l) gs); [| simpl length; lia].
    destruct (decide (x ∈ gs)) as [Hin|Hin].
    + apply list_elem_of_split in Hin as (g1 & g2 & ->).
      rewrite <- !Permutation_middle in *. simpl.
      apply NoDup_cons in Hnd as [Hx _]. rewrite load_cons, decide_True by done.
      rewrite (sum_over_ext (load (x :: l)) (load l)); [lia |].
      intros g Hg. rewrite load_cons, decide_False; [lia | set_solver].
    + rewrite (sum_over_ext (load (x :: l)) (load l)); [lia |].
      intros g Hg. rewrite load_cons, decide_False; [lia | set_solver].
Qed.

Lemma sumsq_bound l gs : NoDup gs → 0 ≤ sumsq l gs ≤ Z.of_nat (length l) * Z.of_nat (length l).
Proof.
  intros Hnd. pose proof (sum_loads_le gs l Hnd) as Hs. unfold sumsq. split.
  - rewrite <- (sum_over_zero gs).
    apply sum_over_le. intros g _. pose proof (load_bounds l g). nia.
  - transitivity (sum_over (λ g, Z.of_nat (length l) * load l g) gs).
    + apply sum_over_le. intros g _. pose proof (load_bounds l g). nia.
    + rewrite sum_over_scale. nia.
Qed.

(** Moving a shard from a group to one with at least two shards fewer makes
    the sum of squares smaller. *)
Lemma move_one_sumsq l gs mg lg :
  NoDup gs → mg ∈ gs → lg ∈ gs → mg ∈ l → load l lg + 2 ≤ load l mg →
  sumsq (move_one l mg lg) gs < sumsq l gs.
Proof.
  intros Hnd Hmg Hlg Hin Hlt. assert (mg ≠ lg) as Hne by (intros ->; lia).
  apply list_elem_of_split in Hmg as (g1 & g2 & ->).
  assert (lg ∈ g1 ++ g2) as Hlg' by set_solver. unfold sumsq.
  rewrite <- Permutation_middle in *. apply NoDup_cons in Hnd as [Hmg Hnd].
  apply list_elem_of_split in Hlg' as (h1 & h2 & E). rewrite E in *.
  rewrite <- Permutation_middle in *. apply NoDup_cons in Hnd as [Hl _]. simpl.
  rewrite (sum_over_ext (λ g, load (move_one l mg lg) g * load (move_one l mg lg) g)
             (λ g, load l g * load l g)).
  - rewrite !move_one_load by done.
    rewrite (decide_True (P := mg = mg)), (decide_True (P := lg = lg)) by done.
    rewrite (decide_False (P := mg = lg)), (decide_False (P := lg = mg)) by congruence. nia.
  - intros g Hg. rewrite move_one_load by done.
    rewrite !decide_False by set_solver. f_equal; lia.
Qed.

(** *** The balancing loop *)

Lemma balance_spec fuel c :
  Groups c ≠ ∅ → wf c → assigned c → sumsq (Shards c) (sorted_gids c) < Z.of_nat fuel →
  ∃ c', balance fuel c = Ret c' ∧ Groups c' = Groups c ∧ Num c' = Num c ∧
        wf c' ∧ assigned c' ∧ balanced c'.
Proof.
  revert c. induction fuel as [|fuel IH]; intros c Hne Hwf Ha Hf.
  - pose proof (sumsq_bound (Shards c) _ (sorted_gids_NoDup c)). lia.
  - destruct (analyze_spec c Hne Hwf) as (mg & mn & lg & ln & E & Hmg & Hlg & -> & -> & Hall).
    simpl. rewrite E. case_decide as Hd.
    + exists c. split_and!; auto. intros g1 g2 H1 H2.
      pose proof (Hall g1 H1). pose proof (Hall g2 H2). lia.
    + set (c1 := set_Shards c (move_one (Shards c) mg lg)).
      assert (mg ∈ Shards c) as Hin.
      { apply load_pos. pose proof (load_bounds (Shards c) lg). lia. }
      destruct (IH c1) as (c' & Hb & Hg & Hn & Hw & Has & Hbal).
      * done.
      * unfold wf. simpl. by rewrite move_one_length.
      * intros g Hg. simpl in Hg. apply move_one_elem in Hg as [Hg| ->]; [by apply Ha | done].
      * assert (sumsq (Shards c1) (sorted_gids c1) < sumsq (Shards c) (sorted_gids c)); [| lia].
        apply move_one_sumsq; [apply sorted_gids_NoDup | by apply sorted_gids_spec
          | by apply sorted_gids_spec | done | lia].
      * exists c'. split_and!; auto.
Qed.

Lemma balance_balanced c :
  Groups c ≠ ∅ → wf c → balanced c → balance balance_fuel c = Ret c.
Proof.
  intros Hne Hwf Hb. destruct (analyze_spec c Hne Hwf) as (mg & mn & lg & ln & E & Hmg & Hlg & -> & -> & _).
  unfold balance_fuel. generalize (NShards * NShards)%nat. intros n. simpl. rewrite E. rewrite decide_True; [done |].
  specialize (Hb mg lg Hmg Hlg). lia.
Qed.

(** The result of [Rebalance], in both cases. *)
Definition rebalanced (c c' : ShardConfig) : Prop :=
  Num c' = Num c ∧ Groups c' = Groups c ∧ wf c' ∧
  (Groups c = ∅ → ∀ g, g ∈ Shards c' → g = 0) ∧
  (Groups c ≠ ∅ → assigned c' ∧ balanced c').

Lemma size_Groups_lt_1 c : (size (Groups c) < 1)%nat ↔ Groups c = ∅.
Proof. rewrite <- map_size_empty_iff. lia. Qed.

Lemma Rebalance_ok c : wf c → ∃ c', Rebalance c = Ret c' ∧ rebalanced c c'.
Proof.
  intros Hwf. unfold Rebalance, rebalanced. case_decide as Hd.
  - apply size_Groups_lt_1 in Hd. eexists. split; [done |]. split_and!; auto.
    + unfold wf. simpl. by rewrite length_fmap.
    + intros _ g. simpl. rewrite list_elem_of_fmap. naive_solver.
    + done.
  - rewrite size_Groups_lt_1 in Hd.
    destruct (assign_unassigned_spec c Hd Hwf) as (Hg & Hn & Hw & Ha & _).
    destruct (balance_spec balance_fuel (assign_unassigned c)) as (c' & Hb & Hg' & Hn' & Hw' & Ha' & Hbal).
    + by rewrite Hg.
    + done.
    + done.
    + pose proof (sumsq_bound (Shards (assign_unassigned c)) _ (sorted_gids_NoDup (assign_unassigned c))) as Hs.
      rewrite Hw in Hs. unfold balance_fuel. lia.
    + exists c'. split; [done |]. split_and!; [congruence | congruence | done | done | done].
Qed.

Lemma GidServers_assigned c sh :
  wf c → assigned c → 0 ≤ sh < Z.of_nat NShards →
  ∃ gid srvs, GidServers c sh = Ret (gid, srvs, true) ∧ Groups c !! gid = Some srvs.
Proof.
  intros Hwf Ha Hsh. unfold GidServers. rewrite decide_False by lia.
  destruct (lookup_lt_is_Some_2 (Shards c) (Z.to_nat sh)) as [gid Hg]; [rewrite Hwf; lia |].
  rewrite Hg. simpl. destruct (Ha gid) as [srvs Hs]; [by eapply list_elem_of_lookup_2 |].
  rewrite Hs. eauto.
Qed.

Lemma Key2Shard_range key : 0 ≤ Key2Shard key < Z.of_nat NShards.
Proof. unfold Key2Shard. apply Z.mod_pos_bound. unfold NShards. lia. Qed.

(** [CheckConfig]'s loop computes the extreme loads. *)
Lemma min_max_loop counts gs min max :
  (∀ g, g ∈ gs → 0 ≤ map_int counts g < 257) →
  (∀ g1 g2, g1 ∈ gs → g2 ∈ gs → map_int counts g1 ≤ map_int counts g2 + 1) →
  (∀ g, g ∈ gs → max ≤ map_int counts g + 1 ∧ map_int counts g ≤ min + 1) → max ≤ min + 1 →
  let r := foldl (min_max_step counts) (min, max) gs in r.2 ≤ r.1 + 1.
Proof.
  revert min max. induction gs as [|g gs IH]; intros min max Hb Hbal Hmm Hm; simpl; [done |].
  apply IH.
  - set_solver.
  - set_solver.
  - intros g' Hg'. pose proof (Hmm g' ltac:(set_solver)). pose proof (Hbal g g' ltac:(set_solver) ltac:(set_solver)).
    pose proof (Hbal g' g ltac:(set_solver) ltac:(set_solver)). simpl. repeat case_decide; lia.
  - pose proof (Hmm g ltac:(set_solver)). simpl. repeat case_decide; lia.
Qed.

Lemma CheckConfig_ok c gs :
  wf c → (∀ g, is_Some (Groups c !! g) ↔ g ∈ gs) → NoDup gs →
  (Groups c ≠ ∅ → assigned c ∧ balanced c) → CheckConfig c gs = Ret tt.
Proof.
  intros Hwf Hgs Hnd Hok. unfold CheckConfig.
  assert ((map_to_list (Groups c)).*1 ≡ₚ gs) as Hperm.
  { apply NoDup_Permutation; [apply NoDup_fst_map_to_list | done |]. intros g.
    rewrite <- Hgs. rewrite list_elem_of_fmap. split.
    - intros ([g' s'] & -> & Hg%elem_of_map_to_list). eauto.
    - intros [s' Hs]. exists (g, s'). by rewrite elem_of_map_to_list. }
  rewrite decide_False; [| intros Hn; apply Hn; by rewrite <- Hperm, length_fmap, length_map_to_list].
  rewrite decide_False.
  2: { rewrite Exists_exists. intros (g & Hg & Hn). apply Hgs in Hg as [? ?]. congruence. }
  destruct (decide (Groups c = ∅)) as [He|Hne].
  - assert (gs = []) as ->.
    { destruct gs as [|g gs]; [done |]. destruct (Hgs g) as [_ Hg]. destruct Hg as [? Hg]; [set_solver |].
      by rewrite He, lookup_empty in Hg. }
    rewrite decide_False by (simpl; lia). by rewrite He, map_to_list_empty.
  - destruct (Hok Hne) as [Ha Hb]. rewrite decide_False.
    2: { intros [_ Hex]. rewrite Exists_exists in Hex. destruct Hex as (g & Hg & Hn).
         apply Ha in Hg as [? ?]. congruence. }
    pose proof (min_max_loop (count_shards (Shards c)) (map_to_list (Groups c)).*1 257 0) as Hmm.
    destruct (foldl _ _ _) as [mn mx]. rewrite decide_False; [done |].
    assert (∀ g, g ∈ (map_to_list (Groups c)).*1 → is_Some (Groups c !! g)) as Hin
      by (intros g; rewrite Hperm; apply Hgs).
    assert (∀ g, 0 ≤ map_int (count_shards (Shards c)) g < 257) as Hld.
    { intros g. rewrite count_shards_load.
      pose proof (load_bounds (Shards c) g). pose proof (wf_lt_257 c Hwf). lia. }
    simpl in Hmm. apply Zle_not_gt, Hmm; clear Hmm; [auto | | | lia].
    + intros g1 g2 H1%Hin H2%Hin. rewrite !count_shards_load. by apply Hb.
    + intros g _. pose proof (Hld g). lia.
Qed.

(** ** Joining and leaving *)

(** No server is in two groups. *)
Definition servers_distinct (m : gmap Z (list string)) : Prop :=
  ∀ g1 g2 l1 l2 s, m !! g1 = Some l1 → m !! g2 = Some l2 → s ∈ l1 → s ∈ l2 → g1 = g2.

Lemma shares_server_spec srvs groups :
  shares_server srvs groups = true ↔ ∃ g l s, groups !! g = Some l ∧ s ∈ l ∧ s ∈ srvs.
Proof.
  unfold shares_server. rewrite existsb_exists. split.
  - intros ([g l] & Hin & Hex). apply existsb_exists in Hex as (s & Hs & Hd%bool_decide_eq_true).
    apply list_elem_of_In, elem_of_map_to_list in Hin. apply list_elem_of_In in Hs.
    exists g, l, s. auto.
  - intros (g & l & s & Hl & Hs & Hs'). exists (g, l). split.
    + by apply list_elem_of_In, elem_of_map_to_list.
    + apply existsb_exists. exists s. rewrite bool_decide_eq_true. by rewrite <- list_elem_of_In.
Qed.

(** The loop of [Join] accepts fresh groups in any order, with the same
    result. *)
Lemma join_loop_ok l m c :
  l ≡ₚ map_to_list m → m ##ₘ Groups c → servers_distinct (Groups c ∪ m) →
  join_loop c l = Ret (set_Groups c (Groups c ∪ m), true).
Proof.
  revert m c. induction l as [|[gid srvs] l IH]; intros m c Hl Hdisj Hs; simpl.
  - apply Permutation_nil, map_to_list_empty_iff in Hl as ->. rewrite (right_id_L ∅ (∪)). by destruct c.
  - assert (m !! gid = Some srvs) as Hg by (apply elem_of_map_to_list; rewrite <- Hl; set_solver).
    assert (Groups c !! gid = None) as Hn by (eapply map_disjoint_Some_l; eauto).
    rewrite Hn. destruct (shares_server srvs (Groups c)) eqn:Esh.
    { apply shares_server_spec in Esh as (g & k & s & Hgk & Hk & Hsr). exfalso.
      assert (g = gid) as ->; [| congruence].
      eapply (Hs g gid k srvs s); auto; [by apply lookup_union_Some_l | by apply lookup_union_Some_raw; right]. }
    assert (Groups c ∪ m = <[gid := srvs]> (Groups c) ∪ delete gid m) as Hu.
    { rewrite <- (insert_delete_id m gid srvs Hg) at 1.
      rewrite <- insert_union_r by done. by rewrite insert_union_l. }
    rewrite (IH (delete gid m)).
    + simpl. by rewrite Hu.
    + rewrite <- map_to_list_delete in Hl by eauto. by apply Permutation_cons_inv in Hl.
    + simpl. apply map_disjoint_insert_r_2; [apply lookup_delete_eq | by apply map_disjoint_delete_l].
    + simpl. by rewrite <- Hu.
Qed.

Lemma JoinBalance_ok m c :
  wf c → m ≠ ∅ → m ##ₘ Groups c → servers_distinct (Groups c ∪ m) →
  ∃ c', (∀ l, l ≡ₚ map_to_list m → JoinBalance c l = Ret (c', true)) ∧
        Rebalance (bump_Num (set_Groups c (Groups c ∪ m))) = Ret c' ∧
        rebalanced (bump_Num (set_Groups c (Groups c ∪ m))) c'.
Proof.
  intros Hwf Hne Hd Hs. destruct (Rebalance_ok (bump_Num (set_Groups c (Groups c ∪ m)))) as (c' & Hr & Hok); [done |].
  exists c'. split; [| done]. intros l Hl. unfold JoinBalance, Join.
  rewrite (join_loop_ok l m c) by done. simpl. rewrite decide_False.
  - simpl. by rewrite Hr.
  - intros ->. symmetry in Hl. by apply Permutation_nil_r, map_to_list_empty_iff in Hl.
Qed.

(** The groups left when [gids] have gone. *)
Definition without (gids : list Z) (m : gmap Z (list string)) : gmap Z (list string) :=
  foldr delete m gids.

Lemma lookup_without gids m g :
  without gids m !! g = if decide (g ∈ gids) then None else m !! g.
Proof.
  unfold without. case_decide.
  - by apply lookup_foldr_delete.
  - by apply lookup_foldr_delete_not_elem_of.
Qed.

Lemma leave_loop_ok gids c :
  NoDup gids → (∀ g, g ∈ gids → is_Some (Groups c !! g)) →
  leave_loop c gids = (set_Groups c (without gids (Groups c)), true).
Proof.
  revert c. induction gids as [|g gids IH]; intros c Hnd Hin; simpl; [by destruct c |].
  apply NoDup_cons in Hnd as [Hg Hnd].
  destruct (Hin g ltac:(set_solver)) as [srvs Hs]. rewrite Hs, IH; [| done |].
  - simpl. f_equal. destruct c; unfold set_Groups; simpl. f_equal. apply map_eq. intros g'.
    fold (without gids Groups0). rewrite lookup_without, !lookup_delete, lookup_without.
    repeat case_decide; done.
  - intros g' Hg'. simpl. rewrite lookup_delete_ne by set_solver. apply Hin. set_solver.
Qed.

Lemma LeaveBalance_ok gids c :
  wf c → gids ≠ [] → NoDup gids → (∀ g, g ∈ gids → is_Some (Groups c !! g)) →
  ∃ c', LeaveBalance c gids = Ret (c', true) ∧
        Rebalance (bump_Num (set_Groups c (without gids (Groups c)))) = Ret c' ∧
        rebalanced (bump_Num (set_Groups c (without gids (Groups c)))) c'.
Proof.
  intros Hwf Hne Hnd Hin.
  destruct (Rebalance_ok (bump_Num (set_Groups c (without gids (Groups c))))) as (c' & Hr & Hok); [done |].
  exists c'. split; [| done]. unfold LeaveBalance, Leave. rewrite leave_loop_ok by done. simpl.
  rewrite decide_False by done. simpl. by rewrite Hr.
Qed.

(** [CheckConfig] accepts what [Rebalance] returns. *)
Lemma rebalanced_CheckConfig c c' gs :
  rebalanced c c' → (∀ g, is_Some (Groups c !! g) ↔ g ∈ gs) → NoDup gs → CheckConfig c' gs = Ret tt.
Proof.
  intros (_ & Hg & Hwf & _ & Hok) Hgs Hnd. apply CheckConfig_ok; auto; by rewrite Hg.
Qed.

Lemma rebalanced_serves c c' key :
  rebalanced c c' → Groups c ≠ ∅ →
  ∃ gid srvs, GidServers c' (Key2Shard key) = Ret (gid, srvs, true) ∧ Groups c !! gid = Some srvs.
Proof.
  intros (_ & Hg & Hwf & _ & Hok) Hne. rewrite <- Hg.
  apply GidServers_assigned; [done | by apply Hok | apply Key2Shard_range].
Qed.

(** ** Configurations as strings *)

Lemma FromString_String `{ConfigJson} c :
  map_Forall (λ _ srvs, Forall printable srvs) (Groups c) →
  ∃ b, String_ c = Ret b ∧ FromString b = Ret c.
Proof.
  intros Hp. destruct (json_roundtrip c Hp) as (b & Hm & Hu). exists b.
  unfold String_, FromString. by rewrite Hm, Hu.
Qed.

(** An encoding: the bits of the code of the three fields. *)
#[export] Instance ShardConfig_eq_dec : EqDecision ShardConfig.
Proof. solve_decision. Defined.
#[export] Instance ShardConfig_countable : Countable ShardConfig.
Proof.
  apply (inj_countable' (λ c, (Num c, Shards c, Groups c)) (λ x, mkShardConfig x.1.1 x.1.2 x.2)). by intros [].
Defined.

Lemma bits_roundtrip (c : ShardConfig) :
  ∃ b, Some (bits (encode c)) = Some b ∧ (decode (unbits b) : option ShardConfig) = Some c.
Proof. exists (bits (encode c)). by rewrite unbits_bits, decode_encode. Qed.

Definition bits_json : ConfigJson := {|
  json_Marshal c := Some (bits (encode c));
  json_Unmarshal s := decode (unbits s);
  json_roundtrip c _ := bits_roundtrip c;
|}.

(** [Copy] copies. *)
Lemma Copy_id c : Copy c = c.
Proof.
  unfold Copy. destruct c as [n l m]. simpl.
  assert (∀ kvs c, foldl (λ c '(k, srvs), set_Groups c (<[k := srvs]> (Groups c))) c kvs
    = mkShardConfig (Num c) (Shards c) (foldl (λ m kv, <[kv.1 := kv.2]> m) (Groups c) kvs)) as Hf.
  { induction kvs as [|[k v] kvs IH]; intros c; simpl; [by destruct c |]. by rewrite IH. }
  rewrite Hf. simpl. f_equal. clear.
  assert (∀ kvs (a : gmap Z (list string)), NoDup kvs.*1 →
    foldl (λ m kv, <[kv.1 := kv.2]> m) a kvs = list_to_map kvs ∪ a) as Hu.
  { induction kvs as [|[k v] kvs IH]; intros a Hnd; simpl; [by rewrite (left_id_L ∅ (∪)) |].
    apply NoDup_cons in Hnd as [Hk Hnd]. rewrite IH by done. simpl.
    rewrite <- insert_union_r by (by apply not_elem_of_list_to_map_1). by rewrite insert_union_l. }
  rewrite Hu by apply NoDup_fst_map_to_list. by rewrite list_to_map_to_list, (right_id_L ∅ (∪)).
Qed.

(** ** Which groups get shards *)

Lemma sum_loads_eq gs l : NoDup gs → (∀ g, g ∈ l → g ∈ gs) → sum_over (load l) gs = Z.of_nat (length l).
Proof.
  intros Hnd. induction l as [|x l IH]; intros Hl; simpl.
  - rewrite (sum_over_ext _ (λ _, 0)) by (intros; apply load_nil). by rewrite sum_over_zero.
  - assert (x ∈ gs) as (gs1 & gs2 & ->)%list_elem_of_split by (apply Hl; by left).
    specialize (IH ltac:(intros g Hg; apply Hl; by right)). rewrite <- Permutation_middle in *.
    apply NoDup_cons in Hnd as [Hx Hnd]. simpl in *. rewrite load_cons, decide_True by done.
    rewrite (sum_over_ext (load (x :: l)) (load l)); [lia |].
    intros g Hg. rewrite load_cons, decide_False; [lia |]. by intros ->.
Qed.

Lemma sum_over_const k gs : sum_over (λ _, k) gs = k * Z.of_nat (length gs).
Proof. induction gs as [|g gs IH]; simpl; [lia |]. rewrite IH. lia. Qed.

Lemma length_sorted_gids c : length (sorted_gids c) = size (Groups c).
Proof. unfold sorted_gids. by rewrite merge_sort_Permutation, length_fmap, length_map_to_list. Qed.

Lemma sum_loads c : wf c → assigned c → sum_over (load (Shards c)) (sorted_gids c) = Z.of_nat NShards.
Proof.
  intros <- Ha. apply sum_loads_eq; [apply sorted_gids_NoDup |]. intros g Hg. by apply sorted_gids_spec, Ha.
Qed.

Lemma IsMember_spec c g : IsMember c g = true ↔ g ∈ Shards c.
Proof.
  unfold IsMember. rewrite existsb_exists. setoid_rewrite bool_decide_eq_true. setoid_rewrite <- list_elem_of_In. naive_solver.
Qed.

Lemma not_member_load l g : g ∉ l → load l g = 0.
Proof.
  intros Hn. pose proof (load_bounds l g) as Hb. destruct (decide (0 < load l g)) as [Hp|Hp]; [| lia]. by apply load_pos in Hp.
Qed.

(** With at most as many groups as shards every group has a shard. *)
Lemma balanced_member c g :
  wf c → assigned c → balanced c → (size (Groups c) ≤ NShards)%nat → is_Some (Groups c !! g) → IsMember c g = true.
Proof.
  intros Hwf Ha Hb Hsz Hg. apply IsMember_spec. destruct (decide (g ∈ Shards c)) as [|Hn]; [done | exfalso].
  pose proof (sum_loads c Hwf Ha) as Hs. pose proof (length_sorted_gids c) as Hlen. pose proof (sorted_gids_NoDup c) as Hnd.
  assert (g ∈ sorted_gids c) as (l1 & l2 & El)%list_elem_of_split by (by apply sorted_gids_spec).
  assert (∀ x, x ∈ l1 ++ l2 → load (Shards c) x ≤ 1) as Hle.
  { intros x Hx. assert (is_Some (Groups c !! x)) as Hxg by (apply sorted_gids_spec; rewrite El; set_solver).
    pose proof (Hb x g Hxg Hg). rewrite (not_member_load _ _ Hn) in *. lia. }
  rewrite El, <- Permutation_middle in Hs, Hlen. simpl in Hs, Hlen. rewrite (not_member_load _ _ Hn) in Hs.
  pose proof (sum_over_le _ (λ _, 1) (l1 ++ l2) Hle) as Hs'. rewrite sum_over_const in Hs'. lia.
Qed.

(** With as many groups as shards or more, no group has two. *)
Lemma balanced_single c g :
  wf c → assigned c → balanced c → (NShards ≤ size (Groups c))%nat → is_Some (Groups c !! g) → load (Shards c) g ≤ 1.
Proof.
  intros Hwf Ha Hb Hsz Hg. destruct (decide (load (Shards c) g ≤ 1)) as [|Hn]; [done | exfalso].
  pose proof (sum_loads c Hwf Ha) as Hs. pose proof (length_sorted_gids c) as Hlen.
  assert (g ∈ sorted_gids c) as (l1 & l2 & El)%list_elem_of_split by (by apply sorted_gids_spec).
  assert (∀ x, x ∈ l1 ++ l2 → 1 ≤ load (Shards c) x) as Hle.
  { intros x Hx. assert (is_Some (Groups c !! x)) as Hxg by (apply sorted_gids_spec; rewrite El; set_solver).
    pose proof (Hb g x Hg Hxg). lia. }
  rewrite El, <- Permutation_middle in Hs, Hlen. simpl in Hs, Hlen.
  pose proof (sum_over_le (λ _, 1) _ (l1 ++ l2) Hle) as Hs'. rewrite sum_over_const in Hs'. lia.
Qed.

(** One more group gets a shard exactly when there are still enough. *)
Lemma Rebalance_member c gid srvs c' :
  wf c → assigned c → balanced c → Groups c ≠ ∅ → Groups c !! gid = None →
  Rebalance (bump_Num (set_Groups c (<[gid := srvs]> (Groups c)))) = Ret c' →
  rebalanced (bump_Num (set_Groups c (<[gid := srvs]> (Groups c)))) c' →
  IsMember c' gid = bool_decide (size (Groups c) < NShards)%nat.
Proof.
  intros Hwf Ha Hb Hne Hnew Hr (_ & Hg & Hw & _ & Hok). simpl in Hg, Hok.
  destruct Hok as [Ha' Hb']; [apply insert_non_empty |]. case_bool_decide as Hd.
  - apply balanced_member; try done; rewrite Hg; [rewrite map_size_insert_None by done; lia | by rewrite lookup_insert_eq].
  - set (c1 := bump_Num (set_Groups c (<[gid := srvs]> (Groups c)))) in *.
    assert (gid ∉ Shards c) as Hn by (intros [? Hx]%Ha; congruence).
    assert (balanced c1) as Hb1.
    { assert (∀ g, is_Some (Groups c1 !! g) → 0 ≤ load (Shards c) g ≤ 1) as H01.
      { intros g Hs. pose proof (load_bounds (Shards c) g). destruct (decide (g = gid)) as [->|Hng].
        - rewrite not_member_load by done. lia.
        - simpl in Hs. rewrite lookup_insert_ne in Hs by done. pose proof (balanced_single c g Hwf Ha Hb ltac:(lia) Hs). lia. }
      intros g1 g2 H1 H2. pose proof (H01 g1 H1). pose proof (H01 g2 H2). simpl. lia. }
    assert (assigned c1) as Ha1.
    { intros g Hx. simpl in *. apply lookup_insert_is_Some'. right. by apply Ha. }
    assert (Rebalance c1 = Ret c1) as Hr1.
    { unfold Rebalance. rewrite decide_False by (rewrite size_Groups_lt_1; apply insert_non_empty).
      destruct (assign_unassigned_spec c1) as (_ & _ & _ & _ & ->); [apply insert_non_empty | done | | done].
      apply balance_balanced; [apply insert_non_empty | done | done]. }
    rewrite Hr1 in Hr. injection Hr as <-. apply not_true_is_false. by rewrite IsMember_spec.
Qed.

(** ** How little [Rebalance] moves *)










(** ** The properties *)

(** For the witnesses: turn a lookup in a concrete map into its cases. *)
Ltac map_cases H :=
  apply elem_of_map_to_list in H;
  match type of H with
  | _ ∈ map_to_list ?m => let l := eval vm_compute in (map_to_list m) in
                          change (map_to_list m) with l in H
  end;
  rewrite !elem_of_cons, elem_of_nil in H.

Ltac solve_distinct :=
  let H1 := fresh in let H2 := fresh in let H3 := fresh in let H4 := fresh in
  intros ????? H1 H2 H3 H4; map_cases H1; map_cases H2;
  destruct_or! H1; destruct_or! H2; simplify_eq; try done;
  apply list_elem_of_singleton in H3; apply list_elem_of_singleton in H4; congruence.

(** C10: [Rebalance] terminates on every configuration: without groups it
    unassigns all shards; otherwise, within the iterations allowed to its
    loop, every shard is on a group of the configuration and the loads of any
    two groups differ by at most one. It keeps the number and the groups, and
    rebalancing again changes nothing. *)
Theorem Rebalance_balances (c : ShardConfig) (Hwf : wf c) :
  ∃ c', Rebalance c = Ret c' ∧ rebalanced c c' ∧ Rebalance c' = Ret c'.
Proof.
  destruct (Rebalance_ok c Hwf) as (c' & Hr & Hok). exists c'. split_and!; [done | done |].
  destruct Hok as (_ & Hg & Hw & H0 & H1). unfold Rebalance. case_decide as Hd.
  - rewrite size_Groups_lt_1, Hg in Hd. f_equal. specialize (H0 Hd). destruct c' as [n l g]. simpl in *.
    unfold set_Shards; simpl. f_equal. clear -H0. induction l as [|x l IH]; simpl; [done |].
    rewrite (H0 x) by set_solver. f_equal. apply IH. set_solver.
  - rewrite size_Groups_lt_1 in Hd. assert (Groups c ≠ ∅) as Hne by congruence.
    destruct (H1 Hne) as [Ha Hb]. destruct (assign_unassigned_spec c' Hd Hw) as (_ & _ & _ & _ & ->); [| done].
    by apply balance_balanced.
Qed.

Lemma Rebalance_balances_witness :
  let c := mkShardConfig 3 [7;7;7;7;7;7;7;7;9;9;2;2] {[ 2 := ["a"%string]; 7 := ["b"%string] ]} in
  wf c ∧ ∃ c', Rebalance c = Ret c' ∧ rebalanced c c' ∧ Rebalance c' = Ret c'.
Proof. intros c. split; [reflexivity | apply (Rebalance_balances c); reflexivity]. Defined.

(** [JoinBalance] of new groups, none of whose servers is in another
    group, succeeds with the same configuration in whatever order Go's map
    iteration yields the groups; that configuration has the next number and
    exactly the old and the new groups, passes [CheckConfig] for them, and
    routes every key to one of its groups. *)
Lemma JoinBalance_checks (c : ShardConfig) (m : gmap Z (list string)) (gids : list Z)
    (Hwf : wf c) (Hne : m ≠ ∅) (Hd : m ##ₘ Groups c) (Hs : servers_distinct (Groups c ∪ m))
    (Hnd : NoDup gids) (Hgids : ∀ g, g ∈ gids ↔ is_Some ((Groups c ∪ m) !! g)) :
  ∃ c', (∀ l, l ≡ₚ map_to_list m → JoinBalance c l = Ret (c', true)) ∧
        Num c' = int64 (Num c + 1) ∧ Groups c' = Groups c ∪ m ∧
        CheckConfig c' gids = Ret tt ∧
        ∀ key, ∃ gid srvs, GidServers c' (Key2Shard key) = Ret (gid, srvs, true) ∧
                           (Groups c ∪ m) !! gid = Some srvs.
Proof.
  destruct (JoinBalance_ok m c Hwf Hne Hd Hs) as (c' & Hl & _ & Hr). exists c'.
  split_and!; [done | by destruct Hr | by destruct Hr as (_ & ? & _) | |].
  - eapply rebalanced_CheckConfig; [exact Hr | | done]. intros g. simpl. by rewrite Hgids.
  - intros key. eapply rebalanced_serves in Hr; [exact Hr |]. simpl. intros E.
    apply Hne, map_eq. intros g. assert ((Groups c ∪ m) !! g = None) as Hg by (by rewrite E).
    apply lookup_union_None in Hg as [_ ->]. done.
Qed.

(** [LeaveBalance] of distinct groups of the configuration succeeds;
    the result has the next number and exactly the remaining groups and
    passes [CheckConfig] for them, also when no group remains. *)
Lemma LeaveBalance_checks (c : ShardConfig) (gids rest : list Z)
    (Hwf : wf c) (Hne : gids ≠ []) (Hnd : NoDup gids) (Hin : ∀ g, g ∈ gids → is_Some (Groups c !! g))
    (Hndr : NoDup rest) (Hrest : ∀ g, g ∈ rest ↔ is_Some (Groups c !! g) ∧ g ∉ gids) :
  ∃ c', LeaveBalance c gids = Ret (c', true) ∧
        Num c' = int64 (Num c + 1) ∧ CheckConfig c' rest = Ret tt ∧
        (rest = [] → ∀ g, g ∈ Shards c' → g = 0).
Proof.
  destruct (LeaveBalance_ok gids c Hwf Hne Hnd Hin) as (c' & Hl & _ & Hr). exists c'.
  assert (∀ g, is_Some (without gids (Groups c) !! g) ↔ g ∈ rest) as Hg.
  { intros g. rewrite Hrest, lookup_without. case_decide; [| tauto].
    split; [by intros [? ?] | naive_solver]. }
  split_and!; [done | by destruct Hr | by eapply rebalanced_CheckConfig |].
  intros ->. destruct Hr as (_ & _ & _ & H0 & _). apply H0. simpl. apply map_eq. intros g.
  rewrite lookup_empty. apply eq_None_not_Some. rewrite Hg. apply not_elem_of_nil.
Qed.

(** C34: the configurations of [JoinBalance] and [LeaveBalance] are right.
    [JoinBalance] of new groups, none of whose servers is in another group,
    succeeds with the same configuration in whatever order Go's map iteration
    yields the groups; [LeaveBalance] of distinct groups of the configuration
    succeeds.  The result has the next number and exactly the groups expected,
    passes [CheckConfig] for them, also when no group remains, and after a
    join routes every key to one of its groups. *)
Theorem reconfigurations_check (c : ShardConfig) (Hwf : wf c) :
  (∀ (m : gmap Z (list string)) (gids : list Z),
     m ≠ ∅ → m ##ₘ Groups c → servers_distinct (Groups c ∪ m) → NoDup gids →
     (∀ g, g ∈ gids ↔ is_Some ((Groups c ∪ m) !! g)) →
     ∃ c', (∀ l, l ≡ₚ map_to_list m → JoinBalance c l = Ret (c', true)) ∧
           Num c' = int64 (Num c + 1) ∧ Groups c' = Groups c ∪ m ∧ CheckConfig c' gids = Ret tt ∧
           ∀ key, ∃ gid srvs, GidServers c' (Key2Shard key) = Ret (gid, srvs, true) ∧
                              (Groups c ∪ m) !! gid = Some srvs) ∧
  (∀ gids rest : list Z,
     gids ≠ [] → NoDup gids → (∀ g, g ∈ gids → is_Some (Groups c !! g)) → NoDup rest →
     (∀ g, g ∈ rest ↔ is_Some (Groups c !! g) ∧ g ∉ gids) →
     ∃ c', LeaveBalance c gids = Ret (c', true) ∧ Num c' = int64 (Num c + 1) ∧ CheckConfig c' rest = Ret tt ∧
           (rest = [] → ∀ g, g ∈ Shards c' → g = 0)).
Proof. split; [intros m gids; by apply JoinBalance_checks | intros gids rest; by apply LeaveBalance_checks]. Qed.

Lemma reconfigurations_check_witness :
  let c := mkShardConfig 1 (replicate NShards 1) {[ 1 := ["s1"%string] ]} in
  let m : gmap Z (list string) := {[ 2 := ["s2"%string]; 3 := ["s3"%string] ]} in
  m ≠ ∅ ∧ ∃ c', (∀ l, l ≡ₚ map_to_list m → JoinBalance c l = Ret (c', true)) ∧
        Num c' = int64 (Num c + 1) ∧ Groups c' = Groups c ∪ m ∧
        CheckConfig c' [1; 2; 3] = Ret tt ∧
        ∀ key, ∃ gid srvs, GidServers c' (Key2Shard key) = Ret (gid, srvs, true) ∧
                           (Groups c ∪ m) !! gid = Some srvs.
Proof.
  intros c m. split; [by apply insert_non_empty |].
  apply (proj1 (reconfigurations_check c eq_refl) m [1; 2; 3]).
  - by apply insert_non_empty.
  - apply map_disjoint_spec. intros g x y. subst m c. simpl Groups.
    rewrite !lookup_insert, !lookup_singleton. repeat case_decide; subst; done.
  - solve_distinct.
  - repeat constructor; set_solver.
  - intros g. split.
    + rewrite !elem_of_cons, elem_of_nil. intros H. destruct_or! H; subst; [.. | done]; vm_compute; eauto.
    + intros [x H]. map_cases H. destruct_or! H; simplify_eq; set_solver.
Defined.



End ShardCfg.
