(* ===== verification/Raft.v ===== *)
(** * One Raft peer: [raft1/raft.go]

    The state of a peer, its timers, the RPC handlers, the processing of RPC
    replies and the cases of the ticker, each as a function on the peer's
    state under [rf.mu].  Random numbers ([rand.Int63]) are arguments.  The
    peers running together are in [RaftCluster]. *)

From S2P Require Import Prelude.
#[local] Open Scope Z_scope.

Module Raft.

(** ** Timers

    A [time.Timer]: [armed] while it is running, with its duration;
    [fired] while its one-slot channel holds an expiration. *)
Record Timer := mkTimer { armed : option Z; fired : bool }.

Definition NewTimer (d : Z) : Timer := mkTimer (Some d) false.

(** [Stop] reports whether it stopped a running timer; it does not drain
    the channel. *)
Definition Stop (t : Timer) : Timer * bool :=
  (mkTimer None (fired t), bool_decide (is_Some (armed t))).
(** The [select] with a [default] case: drain the channel if it is full. *)
Definition drain (t : Timer) : Timer := mkTimer (armed t) false.
Definition Reset (t : Timer) (d : Z) : Timer := mkTimer (Some d) (fired t).

Definition resetTimer (timer : Timer) (d : Z) : Timer :=
  let (timer, stopped) := Stop timer in
  let timer := if stopped then timer else drain timer in
  Reset timer d.

Definition Millisecond : Z := 1000000.

(** [r] is the value of [rand.Int63()]. *)
Definition getRandomElectionTimeout (r : Z) : Z := (250 + Z.rem r 250) * Millisecond.

(** ** Peers *)

Definition Leader : Z := 2.
Definition Candidate : Z := 1.
Definition Follower : Z := 0.

(** Commands are [interface{}] values: the tests use integers and strings. *)
Inductive Any : Type :=
| any_nil
| any_int (z : Z)
| any_string (s : string).

Record logEntry := mkLogEntry { Term : Z; Command : Any }.

Record Raft := mkRaft {
  peers : nat;                (** [len(rf.peers)] *)
  me : Z;
  dead : Z;
  currTerm : Z;
  voteFor : Z;
  log : list logEntry;
  commitIndex : Z;
  lastApplied : Z;
  state : Z;
  electionTimer : Timer;
  heartbeatTimer : Timer;
  voteCount : Z
}.

Definition set_currTerm (rf : Raft) (x : Z) : Raft :=
  mkRaft (peers rf) (me rf) (dead rf) x (voteFor rf) (log rf) (commitIndex rf) (lastApplied rf)
    (state rf) (electionTimer rf) (heartbeatTimer rf) (voteCount rf).
Definition set_voteFor (rf : Raft) (x : Z) : Raft :=
  mkRaft (peers rf) (me rf) (dead rf) (currTerm rf) x (log rf) (commitIndex rf) (lastApplied rf)
    (state rf) (electionTimer rf) (heartbeatTimer rf) (voteCount rf).
Definition set_state (rf : Raft) (x : Z) : Raft :=
  mkRaft (peers rf) (me rf) (dead rf) (currTerm rf) (voteFor rf) (log rf) (commitIndex rf) (lastApplied rf)
    x (electionTimer rf) (heartbeatTimer rf) (voteCount rf).
Definition set_voteCount (rf : Raft) (x : Z) : Raft :=
  mkRaft (peers rf) (me rf) (dead rf) (currTerm rf) (voteFor rf) (log rf) (commitIndex rf) (lastApplied rf)
    (state rf) (electionTimer rf) (heartbeatTimer rf) x.
Definition set_electionTimer (rf : Raft) (x : Timer) : Raft :=
  mkRaft (peers rf) (me rf) (dead rf) (currTerm rf) (voteFor rf) (log rf) (commitIndex rf) (lastApplied rf)
    (state rf) x (heartbeatTimer rf) (voteCount rf).
Definition set_heartbeatTimer (rf : Raft) (x : Timer) : Raft :=
  mkRaft (peers rf) (me rf) (dead rf) (currTerm rf) (voteFor rf) (log rf) (commitIndex rf) (lastApplied rf)
    (state rf) (electionTimer rf) x (voteCount rf).
Definition set_dead (rf : Raft) (x : Z) : Raft :=
  mkRaft (peers rf) (me rf) x (currTerm rf) (voteFor rf) (log rf) (commitIndex rf) (lastApplied rf)
    (state rf) (electionTimer rf) (heartbeatTimer rf) (voteCount rf).

Definition reset_election (rf : Raft) (r : Z) : Raft :=
  set_electionTimer rf (resetTimer (electionTimer rf) (getRandomElectionTimeout r)).
Definition reset_heartbeat (rf : Raft) : Raft :=
  set_heartbeatTimer rf (resetTimer (heartbeatTimer rf) (100 * Millisecond)).

(** [readPersist] returns at once on empty data and is otherwise not
    written yet: it leaves the peer alone. *)
Definition readPersist (rf : Raft) (data : list Z) : Raft := rf.
(** [persist] is not written yet: nothing is saved. *)
Definition persist (rf : Raft) (saved : list Z) : list Z := saved.

(** [Make], with [r] the random number for the first election timeout. *)
Definition Make (npeers : nat) (me : Z) (raftstate : list Z) (r : Z) : Raft :=
  let rf := mkRaft npeers me 0 0 (-1) [] 0 0 Follower
              (NewTimer (getRandomElectionTimeout r)) (NewTimer (100 * Millisecond)) 0 in
  readPersist rf raftstate.

Definition GetState (rf : Raft) : Z * bool := (currTerm rf, bool_decide (state rf = Leader)).

(** [Start] is a stub in this version of the code. *)
Definition Start (rf : Raft) (command : Any) : Z * Z * bool :=
  let index := -1 in
  let term := -1 in
  let isLeader := true in
  (index, term, isLeader).

Definition Kill (rf : Raft) : Raft := set_dead rf 1.
Definition killed (rf : Raft) : bool := bool_decide (dead rf = 1).

(** ** RPC arguments and replies *)

Record RequestVoteArgs := mkRequestVoteArgs { rv_Term : Z; rv_CandidateId : Z }.
Record RequestVoteReply := mkRequestVoteReply { rvr_Term : Z; rvr_VoteGranted : bool }.
Definition RequestVoteReply_zero : RequestVoteReply := mkRequestVoteReply 0 false.

Record AppendEntriesArgs := mkAppendEntriesArgs {
  ae_Term : Z;
  ae_LeaderId : Z;
  ae_PrevLogIndex : Z;
  ae_PrevLogTerm : Z;
  ae_Entries : list logEntry;
  ae_LeaderCommit : Z
}.
Record AppendEntriesReply := mkAppendEntriesReply { aer_Term : Z; aer_Success : bool }.
Definition AppendEntriesReply_zero : AppendEntriesReply := mkAppendEntriesReply 0 false.

(** ** Handlers *)

Definition RequestVote (rf : Raft) (args : RequestVoteArgs) (reply : RequestVoteReply) (r : Z)
    : Raft * RequestVoteReply :=
  let term := rv_Term args in
  let reply := mkRequestVoteReply (rvr_Term reply) false in
  if decide (term < currTerm rf) then (rf, mkRequestVoteReply (currTerm rf) (rvr_VoteGranted reply))
  else
    let rf :=
      if decide (term > currTerm rf) then
        set_voteCount (set_voteFor (set_state (set_currTerm rf term) Follower) (-1)) 0
      else rf in
    if decide (term = currTerm rf) then
      let reply := mkRequestVoteReply (currTerm rf) (rvr_VoteGranted reply) in
      if decide (voteFor rf = -1 ∨ voteFor rf = rv_CandidateId args) then
        (reset_election (set_voteFor rf (rv_CandidateId args)) r, mkRequestVoteReply (rvr_Term reply) true)
      else (rf, reply)
    else (rf, reply).

Definition AppendEntries (rf : Raft) (args : AppendEntriesArgs) (reply : AppendEntriesReply) (r : Z)
    : Raft * AppendEntriesReply :=
  let term := ae_Term args in
  if decide (term < currTerm rf) then (rf, mkAppendEntriesReply (currTerm rf) false)
  else if decide (term >= currTerm rf) then
    let rf := set_voteCount (set_state (set_currTerm rf term) Follower) 0 in
    let rf := reset_election rf r in
    (rf, mkAppendEntriesReply (currTerm rf) true)
  else (rf, reply).

(** Goroutines a handler starts. *)
Inductive Spawn : Type :=
| GoBroadcast                 (** [go rf.broadcastHeartbeat()] *)
| GoRequestVote (i : nat)     (** the goroutine of [startElection] for peer [i] *)
| GoAppendEntries (i : nat).  (** the goroutine of [broadcastHeartbeat] for peer [i] *)

Definition becomeLeader (rf : Raft) : Raft * list Spawn :=
  let rf := set_voteFor (set_voteCount (set_state rf Leader) 0) (-1) in
  (reset_heartbeat rf, [GoBroadcast]).

(** A higher term in a reply makes the peer a follower. *)
Definition step_down (rf : Raft) (term : Z) (r : Z) : Raft :=
  reset_election (set_voteFor (set_voteCount (set_state (set_currTerm rf term) Follower) 0) (-1)) r.

(** [sendRequestVote]: [call] is the reply, or [None] when [Call] returned
    false. *)
Definition sendRequestVote (rf : Raft) (call : option RequestVoteReply) (r : Z)
    : Raft * bool * list Spawn :=
  match call with
  | None => (rf, false, [])
  | Some reply =>
      if rvr_VoteGranted reply then
        let rf := set_voteCount rf (int64 (voteCount rf + 1)) in
        if decide (state rf = Follower) then (rf, true, [])
        else if decide (state rf = Candidate ∧ voteCount rf > Z.of_nat (peers rf) / 2) then
          let (rf, go) := becomeLeader rf in (rf, true, go)
        else (rf, true, [])
      else if decide (rvr_Term reply > currTerm rf) then (step_down rf (rvr_Term reply) r, true, [])
      else (rf, true, [])
  end.

Definition sendAppendEntries (rf : Raft) (call : option AppendEntriesReply) (r : Z) : Raft :=
  match call with
  | None => rf
  | Some reply =>
      if aer_Success reply then rf
      else if decide (aer_Term reply > currTerm rf) then step_down rf (aer_Term reply) r
      else rf
  end.

(** The peers other than [me], in the order of the loop. *)
Definition others (rf : Raft) : list nat := filter (λ i : nat, Z.of_nat i ≠ me rf) (seq 0 (peers rf)).

Definition startElection (rf : Raft) (r : Z) : Raft * list Spawn :=
  let rf := set_currTerm rf (int64 (currTerm rf + 1)) in
  let rf := set_state (set_voteCount (set_voteFor rf (me rf)) 1) Candidate in
  let rf := reset_election rf r in
  (rf, GoRequestVote <$> others rf).

Definition broadcastHeartbeat (rf : Raft) : list Spawn := GoAppendEntries <$> others rf.

(** The two cases of the [select] in [ticker], after the channel receive. *)
Definition ticker_election (rf : Raft) (r1 r2 : Z) : Raft * list Spawn :=
  if decide (state rf ≠ Leader) then
    let (rf, go) := startElection rf r1 in (reset_election rf r2, go)
  else (rf, []).

Definition ticker_heartbeat (rf : Raft) : Raft * list Spawn :=
  if decide (state rf = Leader) then (reset_heartbeat rf, broadcastHeartbeat rf)
  else (rf, []).

(** The arguments the goroutines evaluate, when they come to run. *)
Definition vote_args (rf : Raft) : RequestVoteArgs := mkRequestVoteArgs (currTerm rf) (me rf).
Definition append_args (rf : Raft) : AppendEntriesArgs := mkAppendEntriesArgs (currTerm rf) (me rf) 0 0 [] 0.

End Raft.
