(* ===== verification/RaftCluster.v ===== *)
(** * Raft peers running together

    The peers of [Raft] with their goroutines, tickers and RPCs, as an
    executable step function.  Goroutines interleave freely: each step is one
    critical section of [rf.mu], one unlocked read, or one action of the
    network or of a timer. *)

From S2P Require Import Prelude Raft.
#[local] Open Scope Z_scope.

Module RaftCluster.
Import Raft.

(** Where the goroutine of [ticker] stands: at the head of its loop, blocked
    in [select], holding a received expiration and waiting for [rf.mu], or
    gone. *)
Inductive Tick : Type := TickLoop | TickWait | TickElection | TickHeartbeat | TickExit.

Record Node := mkNode { rf : Raft; tick : Tick }.

(** The other goroutines and their RPCs.  [i] is the owner, [j] the peer
    called.  [T] records the owner's term when [startElection] or
    [becomeLeader]/[ticker] started the goroutine; no step depends on it. *)
Inductive Proc : Type :=
| PVote (i j : nat) (T : Z)
| PVoteCall (i j : nat) (T : Z) (args : RequestVoteArgs)
| PVoteReply (i j : nat) (T : Z) (args : RequestVoteArgs) (reply : RequestVoteReply)
| PBroadcast (i : nat) (T : Z)
| PAppend (i j : nat) (T : Z)
| PAppendCall (i j : nat) (T : Z) (args : AppendEntriesArgs)
| PAppendReply (i j : nat) (T : Z) (args : AppendEntriesArgs) (reply : AppendEntriesReply).

Record State := mkState { nodes : list Node; procs : list Proc }.

Inductive Label : Type :=
| LFireElection (i : nat)               (** the election timer expires *)
| LFireHeartbeat (i : nat)
| LLoop (i : nat)                       (** [for rf.killed() == false] *)
| LRecvElection (i : nat)               (** [<-rf.electionTimer.C] *)
| LRecvHeartbeat (i : nat)
| LTick (i : nat) (r1 r2 : Z)           (** the locked part of the case *)
| LKill (i : nat)
| LRun (p : nat)                        (** goroutine [p] evaluates its arguments *)
| LDeliver (p : nat) (r : Z)            (** the server runs the handler *)
| LLose (p : nat)                       (** [Call] returns false *)
| LReply (p : nat) (r : Z).             (** [Call] returns true *)

Definition init (n : nat) (r : Z) : State :=
  mkState ((λ i : nat, mkNode (Make n (Z.of_nat i) [] r) TickLoop) <$> seq 0 n) [].

Definition fire (t : Timer) : option Timer :=
  match armed t with
  | Some _ => Some (mkTimer None true)
  | None => None
  end.

Definition receive (t : Timer) : option Timer :=
  if fired t then Some (drain t) else None.

(** The goroutines [i] starts become processes. *)
Definition start_one (i : nat) (T : Z) (g : Spawn) : Proc :=
  match g with
  | GoBroadcast => PBroadcast i T
  | GoRequestVote j => PVote i j T
  | GoAppendEntries j => PAppend i j T
  end.
Definition start (i : nat) (T : Z) (gos : list Spawn) : list Proc := start_one i T <$> gos.

(** Replace node [i] and add processes. *)
Definition upd (s : State) (i : nat) (nd : Node) (ps : list Proc) : State :=
  mkState (<[i := nd]> (nodes s)) (ps ++ procs s).

(** The step of node [i] alone, with the goroutines it starts. *)
Definition exec_tick (l : Label) (nd : Node) : option (Node * list Spawn) :=
  match l with
  | LFireElection _ =>
      t ← fire (electionTimer (rf nd)); Some (mkNode (set_electionTimer (rf nd) t) (tick nd), [])
  | LFireHeartbeat _ =>
      t ← fire (heartbeatTimer (rf nd)); Some (mkNode (set_heartbeatTimer (rf nd) t) (tick nd), [])
  | LLoop _ =>
      match tick nd with
      | TickLoop => Some (mkNode (rf nd) (if killed (rf nd) then TickExit else TickWait), [])
      | _ => None
      end
  | LRecvElection _ =>
      match tick nd with
      | TickWait => t ← receive (electionTimer (rf nd));
                    Some (mkNode (set_electionTimer (rf nd) t) TickElection, [])
      | _ => None
      end
  | LRecvHeartbeat _ =>
      match tick nd with
      | TickWait => t ← receive (heartbeatTimer (rf nd));
                    Some (mkNode (set_heartbeatTimer (rf nd) t) TickHeartbeat, [])
      | _ => None
      end
  | LTick _ r1 r2 =>
      match tick nd with
      | TickElection => let (rf', gos) := ticker_election (rf nd) r1 r2 in Some (mkNode rf' TickLoop, gos)
      | TickHeartbeat => let (rf', gos) := ticker_heartbeat (rf nd) in Some (mkNode rf' TickLoop, gos)
      | _ => None
      end
  | LKill _ => Some (mkNode (Kill (rf nd)) (tick nd), [])
  | _ => None
  end.

Definition exec_node (l : Label) (i : nat) (s : State) : option State :=
  nd ← nodes s !! i;
  '(nd', gos) ← exec_tick l nd;
  Some (upd s i nd' (start i (currTerm (rf nd')) gos)).

(** The step of process [p], already taken out of [s]. *)
Definition exec_proc (l : Label) (q : Proc) (s : State) : option State :=
  match l, q with
  | LRun _, PVote i j T =>
      nd ← nodes s !! i; Some (mkState (nodes s) (PVoteCall i j T (vote_args (rf nd)) :: procs s))
  | LRun _, PAppend i j T =>
      nd ← nodes s !! i; Some (mkState (nodes s) (PAppendCall i j T (append_args (rf nd)) :: procs s))
  | LRun _, PBroadcast i T =>
      nd ← nodes s !! i; Some (upd s i nd (start i T (broadcastHeartbeat (rf nd))))
  | LDeliver _ r, PVoteCall i j T args =>
      nd ← nodes s !! j;
      let (rf', reply) := RequestVote (rf nd) args RequestVoteReply_zero r in
      Some (upd s j (mkNode rf' (tick nd)) [PVoteReply i j T args reply])
  | LDeliver _ r, PAppendCall i j T args =>
      nd ← nodes s !! j;
      let (rf', reply) := AppendEntries (rf nd) args AppendEntriesReply_zero r in
      Some (upd s j (mkNode rf' (tick nd)) [PAppendReply i j T args reply])
  | LLose _, (PVoteCall i _ _ _ | PVoteReply i _ _ _ _) =>
      nd ← nodes s !! i;
      let '(rf', _, gos) := sendRequestVote (rf nd) None 0 in
      Some (upd s i (mkNode rf' (tick nd)) (start i (currTerm rf') gos))
  | LLose _, (PAppendCall i _ _ _ | PAppendReply i _ _ _ _) =>
      nd ← nodes s !! i;
      Some (upd s i (mkNode (sendAppendEntries (rf nd) None 0) (tick nd)) [])
  | LReply _ r, PVoteReply i j T args reply =>
      nd ← nodes s !! i;
      let '(rf', _, gos) := sendRequestVote (rf nd) (Some reply) r in
      Some (upd s i (mkNode rf' (tick nd)) (start i (currTerm rf') gos))
  | LReply _ r, PAppendReply i j T args reply =>
      nd ← nodes s !! i;
      Some (upd s i (mkNode (sendAppendEntries (rf nd) (Some reply) r) (tick nd)) [])
  | _, _ => None
  end.

Definition exec (l : Label) (s : State) : option State :=
  match l with
  | LFireElection i | LFireHeartbeat i | LLoop i | LRecvElection i | LRecvHeartbeat i
  | LTick i _ _ | LKill i => exec_node l i s
  | LRun p | LDeliver p _ | LLose p | LReply p _ =>
      q ← procs s !! p; exec_proc l q (mkState (nodes s) (delete p (procs s)))
  end.

Fixpoint run (ls : list Label) (s : State) : option State :=
  match ls with
  | [] => Some s
  | l :: ls => s' ← exec l s; run ls s'
  end.

Definition reachable (n : nat) (s : State) : Prop := ∃ r ls, run ls (init n r) = Some s.

(** [i] is leader of term [T]. *)
Definition leads (s : State) (i : nat) (T : Z) : Prop :=
  ∃ nd, nodes s !! i = Some nd ∧ GetState (rf nd) = (T, true).

(** ** The three unguarded situations of the code

    Each is a race the code does not exclude; [safe_label s l] says that the
    step [l] is none of them (and does not overflow a term). *)

(** A goroutine reads [rf.currTerm] after the term it was started for has
    passed. *)
Definition reads_late (s : State) (l : Label) : bool :=
  match l with
  | LRun p =>
      match procs s !! p with
      | Some (PVote i _ T | PAppend i _ T) =>
          match nodes s !! i with Some nd => bool_decide (currTerm (rf nd) ≠ T) | None => false end
      | _ => false
      end
  | _ => false
  end.

(** A candidate counts a vote it asked for in another term. *)
Definition counts_stale_vote (s : State) (l : Label) : bool :=
  match l with
  | LReply p _ =>
      match procs s !! p with
      | Some (PVoteReply i _ _ args reply) =>
          match nodes s !! i with
          | Some nd => rvr_VoteGranted reply && bool_decide (state (rf nd) = Candidate) &&
                       bool_decide (rv_Term args ≠ currTerm (rf nd))
          | None => false
          end
      | _ => false
      end
  | _ => false
  end.

(** A leader is asked for its vote in its own term. *)
Definition leader_asked (s : State) (l : Label) : bool :=
  match l with
  | LDeliver p _ =>
      match procs s !! p with
      | Some (PVoteCall _ j _ args) =>
          match nodes s !! j with
          | Some nd => bool_decide (state (rf nd) = Leader) && bool_decide (rv_Term args = currTerm (rf nd))
          | None => false
          end
      | _ => false
      end
  | _ => false
  end.

Definition overflows (s : State) (l : Label) : bool :=
  match l with
  | LTick i _ _ =>
      match nodes s !! i with Some nd => bool_decide (two63 ≤ currTerm (rf nd) + 1) | None => false end
  | _ => false
  end.

Definition safe_label (s : State) (l : Label) : bool :=
  negb (reads_late s l) && negb (counts_stale_vote s l) && negb (leader_asked s l) && negb (overflows s l).

(** [run_if ok ls s]: the run, stopped at the first step that is not [ok]. *)
Fixpoint run_if (ok : State → Label → bool) (ls : list Label) (s : State) : option State :=
  match ls with
  | [] => Some s
  | l :: ls => if ok s l then s' ← exec l s; run_if ok ls s' else None
  end.

(** A whole election timeout of peer [i], and one vote request of process
    [p] carried through, in schedules. *)
Definition timeout (i : nat) : list Label :=
  [LLoop i; LFireElection i; LRecvElection i; LTick i 0 0].
Definition request (p : nat) : list Label := [LRun p; LDeliver 0 0; LReply 0 0].

Definition two_leaders (s : State) (T : Z) : Prop :=
  ∃ i j, i ≠ j ∧ leads s i T ∧ leads s j T.

(** Candidates 0 and 1 in term 1; 2 votes for 0, which becomes leader and
    clears [voteFor]; then 0 itself votes for 1. *)
Definition leader_votes_run : list Label := timeout 0 ++ timeout 1 ++ request 3 ++ request 1.

(** 1's vote for 0 in term 1 is counted in term 2; 2 votes for 1 in term 2. *)
Definition stale_vote_run : list Label :=
  timeout 0 ++ [LRun 0; LDeliver 0 0] ++ timeout 0 ++ [LReply 2 0] ++ timeout 1 ++ request 1.

(** Of five peers, 0 asks 1 twice in term 2, once from a goroutine started
    in term 1, and counts both votes; 3 and 4 vote for 2. *)
Definition late_read_run : list Label :=
  timeout 0 ++ timeout 0 ++ request 0 ++ request 3 ++
  timeout 2 ++ timeout 2 ++ request 2 ++ request 2.

(** ** One node's steps *)

(** What a step can do to one node. *)
Inductive node_step : Node → Node → Prop :=
| ns_none nd : node_step nd nd
| ns_tick l nd nd' gos : exec_tick l nd = Some (nd', gos) → node_step nd nd'
| ns_RequestVote nd args reply r :
    node_step nd (mkNode (RequestVote (rf nd) args reply r).1 (tick nd))
| ns_AppendEntries nd args reply r :
    node_step nd (mkNode (AppendEntries (rf nd) args reply r).1 (tick nd))
| ns_sendRequestVote nd call r :
    node_step nd (mkNode (sendRequestVote (rf nd) call r).1.1 (tick nd))
| ns_sendAppendEntries nd call r :
    node_step nd (mkNode (sendAppendEntries (rf nd) call r) (tick nd)).

Lemma node_eta nd : mkNode (rf nd) (tick nd) = nd.
Proof. by destruct nd. Qed.

(** The steps as rules. *)
Definition label_node (l : Label) : option nat :=
  match l with
  | LFireElection i | LFireHeartbeat i | LLoop i | LRecvElection i | LRecvHeartbeat i
  | LTick i _ _ | LKill i => Some i
  | _ => None
  end.

Inductive step : Label → State → State → Prop :=
| st_node l s i nd nd' gos :
    label_node l = Some i → nodes s !! i = Some nd → exec_tick l nd = Some (nd', gos) →
    step l s (upd s i nd' (start i (currTerm (rf nd')) gos))
| st_run_vote s p i j T nd :
    procs s !! p = Some (PVote i j T) → nodes s !! i = Some nd →
    step (LRun p) s (mkState (nodes s) (PVoteCall i j T (vote_args (rf nd)) :: delete p (procs s)))
| st_run_append s p i j T nd :
    procs s !! p = Some (PAppend i j T) → nodes s !! i = Some nd →
    step (LRun p) s (mkState (nodes s) (PAppendCall i j T (append_args (rf nd)) :: delete p (procs s)))
| st_run_broadcast s p i T nd :
    procs s !! p = Some (PBroadcast i T) → nodes s !! i = Some nd →
    step (LRun p) s (mkState (nodes s) (start i T (broadcastHeartbeat (rf nd)) ++ delete p (procs s)))
| st_deliver_vote s p r i j T args nd :
    procs s !! p = Some (PVoteCall i j T args) → nodes s !! j = Some nd →
    let h := RequestVote (rf nd) args RequestVoteReply_zero r in
    step (LDeliver p r) s
      (mkState (<[j := mkNode h.1 (tick nd)]> (nodes s)) (PVoteReply i j T args h.2 :: delete p (procs s)))
| st_deliver_append s p r i j T args nd :
    procs s !! p = Some (PAppendCall i j T args) → nodes s !! j = Some nd →
    let h := AppendEntries (rf nd) args AppendEntriesReply_zero r in
    step (LDeliver p r) s
      (mkState (<[j := mkNode h.1 (tick nd)]> (nodes s)) (PAppendReply i j T args h.2 :: delete p (procs s)))
| st_lose s p q :
    procs s !! p = Some q → (∀ i j T, q ≠ PVote i j T) →
    step (LLose p) s (mkState (nodes s) (delete p (procs s)))
| st_reply_vote s p r i j T args reply nd :
    procs s !! p = Some (PVoteReply i j T args reply) → nodes s !! i = Some nd →
    let h := sendRequestVote (rf nd) (Some reply) r in
    step (LReply p r) s
      (mkState (<[i := mkNode h.1.1 (tick nd)]> (nodes s)) (start i (currTerm h.1.1) h.2 ++ delete p (procs s)))
| st_reply_append s p r i j T args reply nd :
    procs s !! p = Some (PAppendReply i j T args reply) → nodes s !! i = Some nd →
    step (LReply p r) s
      (mkState (<[i := mkNode (sendAppendEntries (rf nd) (Some reply) r) (tick nd)]> (nodes s))
         (delete p (procs s))).

Lemma exec_node_inv l i s s' :
  label_node l = Some i → exec_node l i s = Some s' → step l s s'.
Proof.
  intros Hl H. unfold exec_node in H. apply bind_Some in H as (nd & Hnd & H).
  apply bind_Some in H as ([nd' gos] & Ht & [= <-]). by econstructor.
Qed.

(** Writing a node back unchanged. *)
Lemma nodes_same (s : State) i nd ps :
  nodes s !! i = Some nd → mkState (<[i := nd]> (nodes s)) ps = mkState (nodes s) ps.
Proof. intros Hi. f_equal. by apply list_insert_id. Qed.

#[local] Arguments sendRequestVote : simpl never.

Lemma exec_proc_inv l q p s s' :
  procs s !! p = Some q →
  match l with LRun p' | LDeliver p' _ | LLose p' | LReply p' _ => p' = p | _ => False end →
  exec_proc l q (mkState (nodes s) (delete p (procs s))) = Some s' → step l s s'.
Proof.
  intros Hq Hl H. destruct l; try done; subst; destruct q; simpl in H; try done;
    apply bind_Some in H as (nd & Hnd & H).
  - simplify_eq. by apply st_run_vote.
  - simplify_eq. unfold upd. simpl. erewrite nodes_same by done. by apply st_run_broadcast.
  - simplify_eq. by apply st_run_append.
  - destruct (RequestVote _ _ _ _) as [rf' reply] eqn:E. simplify_eq.
    pose proof (st_deliver_vote s p r i j T args nd Hq Hnd) as Hs. simpl in Hs. by rewrite E in Hs.
  - destruct (AppendEntries _ _ _ _) as [rf' reply] eqn:E. simplify_eq.
    pose proof (st_deliver_append s p r i j T args nd Hq Hnd) as Hs. simpl in Hs. by rewrite E in Hs.
  - unfold sendRequestVote in H. simplify_eq/=. unfold upd. simpl. rewrite node_eta. erewrite nodes_same by done. by eapply st_lose.
  - unfold sendRequestVote in H. simplify_eq/=. unfold upd. simpl. rewrite node_eta. erewrite nodes_same by done. by eapply st_lose.
  - simplify_eq/=. unfold upd. simpl. rewrite node_eta. erewrite nodes_same by done. by eapply st_lose.
  - simplify_eq/=. unfold upd. simpl. rewrite node_eta. erewrite nodes_same by done. by eapply st_lose.
  - pose proof (st_reply_vote s p r i j T args reply nd Hq Hnd) as Hs. cbv zeta in Hs.
    destruct (sendRequestVote _ _ _) as [[rf' b] gos]. simplify_eq. exact Hs.
  - simplify_eq/=. pose proof (st_reply_append s p r i j T args reply nd Hq Hnd) as Hs. exact Hs.
Qed.

Lemma exec_step l s s' : exec l s = Some s' → step l s s'.
Proof.
  destruct l; simpl; try (by apply exec_node_inv);
    intros (q & Hq & H)%bind_Some; by eapply exec_proc_inv.
Qed.

(** Every step of the cluster is a step of one node. *)
Lemma step_node l s s' :
  step l s s' →
  nodes s' = nodes s ∨
  ∃ i nd nd', nodes s !! i = Some nd ∧ nodes s' = <[i := nd']> (nodes s) ∧ node_step nd nd'.
Proof.
  destruct 1; auto; right; eexists _, _, _; (split_and!; [eassumption | reflexivity | by econstructor]).
Qed.

(** ** Invariants of a node *)

(** A timer that will deliver an expiration. *)
Definition live (t : Timer) : Prop := is_Some (armed t) ∨ fired t = true.
(** A timer is never running with an old expiration still in its channel. *)
Definition timer_ok (t : Timer) : Prop := ¬ (is_Some (armed t) ∧ fired t = true).

Lemma resetTimer_spec t d : timer_ok t → resetTimer t d = mkTimer (Some d) false.
Proof.
  unfold timer_ok, resetTimer, Stop. destruct t as [[a|] []]; simpl; intros Hok; try done.
  destruct Hok. eauto.
Qed.

Record node_ok (n : nat) (i : nat) (nd : Node) : Prop := {
  ok_me : me (rf nd) = Z.of_nat i;
  ok_peers : peers (rf nd) = n;
  ok_state : state (rf nd) = Follower ∨ state (rf nd) = Candidate ∨ state (rf nd) = Leader;
  ok_candidate : state (rf nd) = Candidate → voteFor (rf nd) = me (rf nd);
  ok_election : timer_ok (electionTimer (rf nd));
  ok_heartbeat : timer_ok (heartbeatTimer (rf nd));
  ok_live_election : state (rf nd) ≠ Leader → tick nd ≠ TickExit →
    live (electionTimer (rf nd)) ∨ tick nd = TickElection;
  ok_live_heartbeat : state (rf nd) = Leader → tick nd ≠ TickExit →
    live (heartbeatTimer (rf nd)) ∨ tick nd = TickHeartbeat;
  ok_exit : tick nd = TickExit → dead (rf nd) = 1;
  ok_term : - two63 ≤ currTerm (rf nd)
}.

Lemma live_armed d b : live (mkTimer (Some d) b).
Proof. left. eauto. Qed.
Lemma timer_ok_armed d : timer_ok (mkTimer (Some d) false).
Proof. by intros [_ ?]. Qed.
Lemma timer_ok_stopped b : timer_ok (mkTimer None b).
Proof. by intros [[? ?] _]. Qed.
#[local] Hint Resolve live_armed timer_ok_armed timer_ok_stopped : labs.

Lemma resetTimer_ok t d : timer_ok t → timer_ok (resetTimer t d).
Proof. intros Hok. rewrite resetTimer_spec by done. auto with labs. Qed.
Lemma resetTimer_live t d : live (resetTimer t d).
Proof. unfold resetTimer, Stop. simpl. case_bool_decide; apply live_armed. Qed.
#[local] Hint Resolve resetTimer_ok resetTimer_live : labs.

Lemma fire_inv t t' : fire t = Some t' → t' = mkTimer None true.
Proof. unfold fire. by destruct (armed t); intros; simplify_eq. Qed.

Lemma receive_inv t t' : receive t = Some t' → t' = mkTimer (armed t) false.
Proof. unfold receive. by destruct (fired t); intros; simplify_eq. Qed.

Lemma live_fired : live (mkTimer None true).
Proof. by right. Qed.
Lemma timer_ok_drained o : timer_ok (mkTimer o false).
Proof. by intros [_ ?]. Qed.
#[local] Hint Resolve live_fired timer_ok_drained : labs.

(** The fields of [node_ok] for a node given by its updates. *)
Ltac node_fields :=
  split; simpl in *; unfold Leader, Candidate, Follower in *; intros;
  try first [done | lia | by apply int64_range | by auto with labs | by destruct_or!; congruence
    | match goal with
      | H : _ → _ → live _ ∨ _ |- _ => by destruct H; auto with labs
      | H : _ → voteFor _ = me _ |- _ => rewrite H in *; destruct_or?; lia
      end].

Lemma node_ok_tick n i l nd nd' gos :
  node_ok n i nd → exec_tick l nd = Some (nd', gos) → node_ok n i nd'.
Proof.
  intros [] H. destruct nd as [rf0 t]. destruct l; simpl in H; try done.
  - apply bind_Some in H as (? & ->%fire_inv & H). simplify_eq. node_fields.
  - apply bind_Some in H as (? & ->%fire_inv & H). simplify_eq. node_fields.
  - destruct t; try done. simplify_eq. unfold killed. case_bool_decide; node_fields.
  - destruct t; try done. apply bind_Some in H as (? & ->%receive_inv & H). simplify_eq. node_fields.
  - destruct t; try done. apply bind_Some in H as (? & ->%receive_inv & H). simplify_eq. node_fields.
  - unfold ticker_election, startElection, ticker_heartbeat in H.
    destruct t; try done; case_decide; simplify_eq; node_fields.
  - simplify_eq. node_fields.
Qed.

Lemma node_ok_step n i nd nd' : node_ok n i nd → node_step nd nd' → node_ok n i nd'.
Proof.
  intros Hok Hs. destruct Hs; [done | by eapply node_ok_tick | ..]; destruct Hok; destruct nd as [rf0 t]; simpl in *.
  - unfold RequestVote. repeat case_decide; simpl in *; node_fields.
  - unfold AppendEntries. repeat case_decide; simpl in *; node_fields.
  - unfold sendRequestVote, step_down. destruct call as [reply|]; [| node_fields].
    destruct (rvr_VoteGranted reply); repeat case_decide; simpl in *; node_fields.
  - unfold sendAppendEntries, step_down. destruct call as [reply|]; [| node_fields].
    destruct (aer_Success reply); repeat case_decide; simpl in *; node_fields.
Qed.

(** ** Invariants of runs *)

Lemma run_invariant (P : State → Prop) ls s s' :
  (∀ l s s', P s → step l s s' → P s') → P s → run ls s = Some s' → P s'.
Proof.
  intros Hstep. revert s. induction ls as [|l ls IH]; intros s Hs Hr; simplify_eq/=; [done |].
  apply bind_Some in Hr as (s1 & H1 & Hr). eapply IH; [| done]. eapply Hstep; [done | by apply exec_step].
Qed.

Definition nodes_ok (n : nat) (s : State) : Prop :=
  length (nodes s) = n ∧ ∀ i nd, nodes s !! i = Some nd → node_ok n i nd.

Lemma nodes_ok_init n r : nodes_ok n (init n r).
Proof.
  split; [simpl; by rewrite length_fmap, length_seq |]. intros i nd Hi. simpl in Hi.
  apply list_lookup_fmap_Some in Hi as (j & -> & Hj). apply lookup_seq in Hj as [-> ?].
  split; simpl; auto; try done.
  all: first [apply timer_ok_armed | intros; left; apply live_armed].
Qed.

Lemma nodes_ok_step n l s s' : nodes_ok n s → step l s s' → nodes_ok n s'.
Proof.
  intros [Hl Hn] Hs. apply step_node in Hs as [Hs | (i & nd & nd' & Hi & Hs & Hns)].
  - unfold nodes_ok. by rewrite Hs.
  - split; rewrite Hs; [by rewrite length_insert |]. intros k ndk.
    rewrite list_lookup_insert. case_decide as Hd; [| apply Hn].
    destruct Hd as [<- _]. intros [= <-]. by eapply node_ok_step; [apply Hn |].
Qed.

Lemma nodes_ok_run n ls s s' : nodes_ok n s → run ls s = Some s' → nodes_ok n s'.
Proof. intros Hok. apply run_invariant; [| done]. intros. by eapply nodes_ok_step. Qed.

Lemma reachable_ok n s : reachable n s → nodes_ok n s.
Proof. intros (r & ls & Hr). eapply nodes_ok_run; [| done]. apply nodes_ok_init. Qed.

(** One step of a node and its term and vote. *)
Lemma node_step_term nd nd' :
  (0 ≤ me (rf nd)) → (state (rf nd) = Candidate → voteFor (rf nd) = me (rf nd)) →
  currTerm (rf nd) + 1 < two63 → - two63 ≤ currTerm (rf nd) → node_step nd nd' →
  currTerm (rf nd) ≤ currTerm (rf nd') ∧
  (currTerm (rf nd') = currTerm (rf nd) → voteFor (rf nd) ≠ -1 →
   voteFor (rf nd') = voteFor (rf nd) ∨
   (state (rf nd) = Candidate ∧ state (rf nd') = Leader ∧ voteFor (rf nd') = -1)).
Proof.
  intros Hme Hc Hb Hb' Hs.
  destruct Hs as [ [rf0 t] | l [rf0 t] nd' gos H | [rf0 t] args reply r | [rf0 t] args reply r
    | [rf0 t] [reply|] r | [rf0 t] [reply|] r ]; simpl in *; [by split; [lia | auto] | ..].
  - destruct l; simpl in H; try done.
    1-2: apply bind_Some in H as (? & ? & H); simplify_eq/=; by split; [lia | auto].
    1-3: destruct t; try done; try (apply bind_Some in H as (? & ? & H)); simplify_eq/=; by split; [lia | auto].
    2: simplify_eq/=; by split; [lia | auto].
    unfold ticker_election, ticker_heartbeat in H. destruct t; try done; case_decide; simplify_eq/=.
    1: rewrite int64_small by (unfold two63 in *; lia).
    all: split; [lia | auto with lia].
  - unfold RequestVote. repeat case_decide; simpl in *; split; try lia; auto.
  - unfold AppendEntries. repeat case_decide; simpl in *; split; try lia; auto.
  - unfold sendRequestVote, step_down.
    destruct (rvr_VoteGranted reply); repeat case_decide; simpl in *; split; try lia; auto.
  - split; [lia | auto].
  - unfold sendAppendEntries, step_down.
    destruct (aer_Success reply); repeat case_decide; simpl in *; split; try lia; auto.
  - split; [lia | auto].
Qed.

(** ** The properties of the peers *)

(** In every reachable state a peer whose ticker has not exited will
    run it again: unless it is leader, its election timer is running, holds
    an expiration, or the ticker is about to handle one; if it is leader, the
    same holds of its heartbeat timer.  A running timer never has a stale
    expiration in its channel. *)
Theorem peers_stay_awake (n : nat) (s : State) (i : nat) (nd : Node)
    (Hr : reachable n s) (Hi : nodes s !! i = Some nd) (Ht : tick nd ≠ TickExit) :
  (if decide (state (rf nd) = Leader)
   then live (heartbeatTimer (rf nd)) ∨ tick nd = TickHeartbeat
   else live (electionTimer (rf nd)) ∨ tick nd = TickElection) ∧
  timer_ok (electionTimer (rf nd)) ∧ timer_ok (heartbeatTimer (rf nd)).
Proof.
  destruct (proj2 (reachable_ok n s Hr) i nd Hi). split_and!; [| done | done]. case_decide; auto.
Qed.

Lemma peers_stay_awake_witness :
  ∃ s nd, run (timeout 0 ++ request 0) (init 3 17) = Some s ∧ nodes s !! 0%nat = Some nd ∧
    (if decide (state (rf nd) = Leader)
     then live (heartbeatTimer (rf nd)) ∨ tick nd = TickHeartbeat
     else live (electionTimer (rf nd)) ∨ tick nd = TickElection) ∧
    timer_ok (electionTimer (rf nd)) ∧ timer_ok (heartbeatTimer (rf nd)).
Proof.
  eexists _, _. split; [vm_compute; reflexivity |]. split; [reflexivity |].
  eapply (peers_stay_awake 3 _ 0%nat);
    [exists 17, (timeout 0 ++ request 0); vm_compute; reflexivity | reflexivity | discriminate].
Defined.

(** A step never lowers the term of a peer, and within a term it does
    not replace a vote: the vote of a peer stays, or is cleared because the
    candidate becomes leader. *)
Theorem one_vote_per_term (n : nat) (s s' : State) (l : Label) (i : nat) (nd nd' : Node)
    (Hr : reachable n s) (Hs : exec l s = Some s')
    (Hi : nodes s !! i = Some nd) (Hi' : nodes s' !! i = Some nd')
    (Hb : currTerm (rf nd) + 1 < two63) :
  currTerm (rf nd) ≤ currTerm (rf nd') ∧
  (currTerm (rf nd') = currTerm (rf nd) → voteFor (rf nd) ≠ -1 →
   voteFor (rf nd') = voteFor (rf nd) ∨
   (state (rf nd) = Candidate ∧ state (rf nd') = Leader ∧ voteFor (rf nd') = -1)).
Proof.
  destruct (proj2 (reachable_ok n s Hr) i nd Hi).
  apply exec_step, step_node in Hs as [Hs | (k & ndk & ndk' & Hk & Hs & Hns)]; rewrite Hs in Hi'.
  - rewrite Hi in Hi'. simplify_eq. split; [lia | auto].
  - rewrite list_lookup_insert in Hi'. case_decide as Hd.
    + destruct Hd as [-> _]. simplify_eq. apply node_step_term; auto. lia.
    + rewrite Hi in Hi'. simplify_eq. split; [lia | auto].
Qed.

Lemma one_vote_per_term_witness :
  ∃ s s' nd nd', run (timeout 0 ++ [LRun 0; LDeliver 0 0]) (init 3 0) = Some s ∧
    exec (LReply 0 0) s = Some s' ∧ nodes s !! 0%nat = Some nd ∧ nodes s' !! 0%nat = Some nd' ∧
    currTerm (rf nd) ≤ currTerm (rf nd') ∧
    (currTerm (rf nd') = currTerm (rf nd) → voteFor (rf nd) ≠ -1 →
     voteFor (rf nd') = voteFor (rf nd) ∨
     (state (rf nd) = Candidate ∧ state (rf nd') = Leader ∧ voteFor (rf nd') = -1)).
Proof.
  eexists _, _, _, _. split; [vm_compute; reflexivity |]. split; [vm_compute; reflexivity |].
  split; [reflexivity |]. split; [reflexivity |].
  eapply (one_vote_per_term 3 _ _ (LReply 0 0) 0%nat);
    [exists 0, (timeout 0 ++ [LRun 0; LDeliver 0 0]); vm_compute; reflexivity
    | vm_compute; reflexivity | reflexivity | reflexivity | reflexivity].
Defined.

End RaftCluster.
