(* ===== verification/RaftElection.v ===== *)
(** * Raft elections: safety, its failures, and progress

    A run of the cluster that never goes through one of the three unguarded
    situations of [RaftCluster] has at most one leader per term; each of the
    three by itself lets two leaders coexist; and every live peer can be
    elected from every reachable state. *)

From S2P Require Import Prelude Raft RaftCluster.
#[local] Open Scope Z_scope.

Module RaftElection.
Import Raft RaftCluster.

(** ** History variables of the safety proof *)

Record Ghost := mkGhost {
  votes : Z → nat → option nat;     (** term, voter: the candidate voted for *)
  counted : nat → Z → gset nat;     (** candidate, term: the votes counted *)
  leaders : Z → nat → Prop          (** term, peer: it has been leader *)
}.

Definition add_vote (g : Ghost) (T : Z) (v c : nat) : Ghost :=
  mkGhost (λ T' v', if decide (T' = T ∧ v' = v) then Some c else votes g T' v') (counted g) (leaders g).
Definition add_counted (g : Ghost) (i : nat) (T : Z) (j : nat) : Ghost :=
  mkGhost (votes g) (λ i' T', if decide (i' = i ∧ T' = T) then {[j]} ∪ counted g i' T' else counted g i' T')
    (leaders g).
Definition add_leader (g : Ghost) (T : Z) (i : nat) : Ghost :=
  mkGhost (votes g) (counted g) (λ T' i', leaders g T' i' ∨ (T' = T ∧ i' = i)).

#[local] Arguments add_vote : simpl never.
#[local] Arguments add_counted : simpl never.
#[local] Arguments add_leader : simpl never.

(** The later history knows all that the earlier one does. *)
Definition ext (g g' : Ghost) : Prop :=
  (∀ T v c, votes g T v = Some c → votes g' T v = Some c) ∧
  (∀ T i, leaders g T i → leaders g' T i).

#[export] Instance ext_preorder : PreOrder ext.
Proof. split; [by intros g; split |]. intros g1 g2 g3 [] []. split; auto. Qed.

(** What the history says of the node [i]. *)
Record node_inv (g : Ghost) (i : nat) (nd : Node) : Prop := {
  ni_term : 0 ≤ currTerm (rf nd);
  ni_self : state (rf nd) = Candidate → votes g (currTerm (rf nd)) i = Some i;
  ni_votes : ∀ T c, votes g T i = Some c →
             T ≤ currTerm (rf nd) ∧
             (T = currTerm (rf nd) → voteFor (rf nd) = Z.of_nat c ∨ state (rf nd) = Leader);
  ni_count : state (rf nd) = Candidate →
             voteCount (rf nd) = 1 + Z.of_nat (size (counted g i (currTerm (rf nd))));
  ni_leader : state (rf nd) = Leader → leaders g (currTerm (rf nd)) i
}.

(** The goroutine of [startElection] a process belongs to. *)
Definition vkey (q : Proc) : option (nat * nat * Z) :=
  match q with
  | PVote i j T | PVoteCall i j T _ | PVoteReply i j T _ _ => Some (i, j, T)
  | _ => None
  end.

Definition proc_ok (g : Ghost) (q : Proc) : Prop :=
  match vkey q with
  | Some (i, j, T) => i ≠ j ∧ votes g T i = Some i ∧ j ∉ counted g i T
  | None => True
  end ∧
  match q with
  | PVote _ _ _ => True
  | PVoteCall i j T args => args = mkRequestVoteArgs T (Z.of_nat i)
  | PVoteReply i j T args reply =>
      args = mkRequestVoteArgs T (Z.of_nat i) ∧ (rvr_VoteGranted reply = true → votes g T j = Some i)
  | PBroadcast i T => leaders g T i
  | PAppend i j T => leaders g T i ∧ i ≠ j
  | PAppendCall i j T args => leaders g T i ∧ i ≠ j ∧ ae_Term args = T
  | PAppendReply i j T args reply => True
  end.

Definition procs_ok (g : Ghost) (ps : list Proc) : Prop :=
  Forall (proc_ok g) ps ∧ NoDup (omap vkey ps).

Record ghost_ok (n : nat) (g : Ghost) : Prop := {
  go_voter : ∀ T v c, votes g T v = Some c → (v < n)%nat;
  go_counted : ∀ i T j, j ∈ counted g i T → votes g T j = Some i ∧ j ≠ i ∧ votes g T i = Some i;
  go_leader : ∀ T i, leaders g T i →
    ∃ Q : gset nat, (∀ v, v ∈ Q → votes g T v = Some i) ∧ (n < 2 * size Q)%nat
}.

Record inv (n : nat) (s : State) (g : Ghost) : Prop := {
  inv_nodes_ok : nodes_ok n s;
  inv_ghost : ghost_ok n g;
  inv_nodes : ∀ i nd, nodes s !! i = Some nd → node_inv g i nd;
  inv_procs : procs_ok g (procs s)
}.

(** ** Quorums *)

Lemma quorum_meet (n : nat) (Q1 Q2 : gset nat) :
  (∀ v, v ∈ Q1 → (v < n)%nat) → (∀ v, v ∈ Q2 → (v < n)%nat) →
  (n < 2 * size Q1)%nat → (n < 2 * size Q2)%nat → ∃ v, v ∈ Q1 ∧ v ∈ Q2.
Proof.
  intros H1 H2 Hs1 Hs2. destruct (decide (Q1 ## Q2)) as [Hd|Hd].
  - pose proof (size_union Q1 Q2 Hd) as Hu.
    assert (size (Q1 ∪ Q2) ≤ size (set_seq (C := gset nat) 0 n))%nat as Hle.
    { apply subseteq_size. intros v [Hv|Hv]%elem_of_union; apply elem_of_set_seq; [apply H1 in Hv | apply H2 in Hv]; lia. }
    rewrite size_set_seq in Hle. lia.
  - apply dec_stable. intros Hn. apply Hd. intros v ??. apply Hn. eauto.
Qed.

(** At most one leader per term. *)
Lemma leaders_unique n g T i j : ghost_ok n g → leaders g T i → leaders g T j → i = j.
Proof.
  intros [Hv _ Hl] Hi Hj. destruct (Hl T i Hi) as (Q1 & H1 & Hs1), (Hl T j Hj) as (Q2 & H2 & Hs2).
  destruct (quorum_meet n Q1 Q2) as (v & Hv1 & Hv2); [eauto | eauto | done | done |].
  apply H1 in Hv1. apply H2 in Hv2. congruence.
Qed.

(** ** Processes and the history *)

Lemma proc_ok_ext g g' q :
  ext g g' → (∀ i j T, vkey q = Some (i, j, T) → j ∉ counted g i T → j ∉ counted g' i T) →
  proc_ok g q → proc_ok g' q.
Proof.
  intros [Hv Hl] Hc [H1 H2]. split.
  - destruct (vkey q) as [[[i j] T]|]; [| done]. destruct H1 as (? & ? & ?). split_and!; auto.
  - destruct q; naive_solver.
Qed.

Lemma procs_ok_ext g g' ps :
  ext g g' → (∀ i j T, (i, j, T) ∈ omap vkey ps → j ∉ counted g i T → j ∉ counted g' i T) →
  procs_ok g ps → procs_ok g' ps.
Proof.
  intros He Hc [HF Hnd]. split; [| done]. rewrite Forall_forall in *. intros q Hq.
  eapply proc_ok_ext; [done | | by apply HF]. intros i j T Hk. apply Hc.
  apply list_elem_of_omap. eauto.
Qed.

(** Taking one process out. *)
Lemma procs_ok_take g ps p q :
  ps !! p = Some q → procs_ok g ps →
  proc_ok g q ∧ procs_ok g (delete p ps) ∧ ∀ k, vkey q = Some k → k ∉ omap vkey (delete p ps).
Proof.
  intros Hq [HF Hnd]. apply delete_Permutation in Hq. rewrite Hq in HF, Hnd.
  apply Forall_cons in HF as [? ?]. simpl in Hnd. split_and!; [done | |].
  - split; [done |]. destruct (vkey q); [by apply NoDup_cons in Hnd as [_ ?] | done].
  - intros k Hk. rewrite Hk in Hnd. by apply NoDup_cons in Hnd as [? _].
Qed.

Lemma procs_ok_app g ps ps' :
  Forall (proc_ok g) ps' → omap vkey ps' = [] → procs_ok g ps → procs_ok g (ps' ++ ps).
Proof.
  intros HF Hk [HF' Hnd]. split; [by apply Forall_app |]. by rewrite omap_app, Hk.
Qed.

(** ** Nodes and the history *)

Lemma node_inv_same g i nd nd' :
  currTerm (rf nd') = currTerm (rf nd) → voteFor (rf nd') = voteFor (rf nd) →
  state (rf nd') = state (rf nd) → voteCount (rf nd') = voteCount (rf nd) →
  node_inv g i nd → node_inv g i nd'.
Proof. intros Ht Hv Hs Hc []. split; rewrite ?Ht, ?Hv, ?Hs, ?Hc; auto. Qed.

(** [g'] adds to [g] only what concerns the node [j]. *)
Definition only_at (j : nat) (g g' : Ghost) : Prop :=
  ext g g' ∧ (∀ T v, v ≠ j → votes g' T v = votes g T v) ∧
  (∀ i T, i ≠ j → counted g' i T = counted g i T).

Lemma node_inv_other j g g' k nd :
  only_at j g g' → k ≠ j → node_inv g k nd → node_inv g' k nd.
Proof.
  intros ([_ Hl] & Hv & Hc) Hk []. split; auto; intros; rewrite ?Hv, ?Hc by done; auto.
  rewrite Hv in * by done. eauto.
Qed.

(** Entering a higher term as a follower. *)
Lemma node_inv_new_term g i nd nd' :
  currTerm (rf nd) < currTerm (rf nd') → state (rf nd') = Follower →
  node_inv g i nd → node_inv g i nd'.
Proof.
  intros Ht Hs []. split; rewrite ?Hs; try done; [lia |].
  intros T c Hv. apply ni_votes0 in Hv as [Hv _]. lia.
Qed.

Lemma votes_add g T v c T' v' :
  votes (add_vote g T v c) T' v' = if decide (T' = T ∧ v' = v) then Some c else votes g T' v'.
Proof. done. Qed.

(** A vote added where none, or the same one, was. *)
Lemma add_vote_ok n g T v c :
  ghost_ok n g → (v < n)%nat → (∀ c', votes g T v = Some c' → c' = c) →
  ghost_ok n (add_vote g T v c) ∧ only_at v g (add_vote g T v c).
Proof.
  intros [] Hn Hc.
  assert (ext g (add_vote g T v c)) as He.
  { split; [| done]. intros T' v' c' Hv. rewrite votes_add. case_decide as Hd; [| done].
    destruct Hd as [-> ->]. by rewrite (Hc c'). }
  split; [split | split_and!; [done | | done]].
  - intros T' v' c'. rewrite votes_add. case_decide as Hd; [naive_solver | eauto].
  - intros i T' j Hj. apply go_counted0 in Hj as (? & ? & ?). split_and!; [by apply He | done | by apply He].
  - intros T' i Hi. apply go_leader0 in Hi as (Q & HQ & Hs). exists Q. split; [| done].
    intros v' Hv'. apply He; auto.
  - intros T' v' Hv'. rewrite votes_add, decide_False; [done | naive_solver].
Qed.

Lemma counted_none n g i nd T :
  ghost_ok n g → node_inv g i nd → currTerm (rf nd) < T → counted g i T = ∅.
Proof.
  intros Hg Hn Ht. apply leibniz_equiv, elem_of_equiv_empty. intros j Hj.
  apply (go_counted _ _ Hg) in Hj as (_ & _ & Hv). apply (ni_votes _ _ _ Hn) in Hv. lia.
Qed.

(** [startElection], in the ticker. *)
Lemma election_inv n g i nd r1 r2 gos rf' :
  ghost_ok n g → node_inv g i nd → (i < n)%nat → me (rf nd) = Z.of_nat i → state (rf nd) ≠ Leader →
  currTerm (rf nd) + 1 < two63 → ticker_election (rf nd) r1 r2 = (rf', gos) →
  let T := currTerm (rf nd) + 1 in
  let g' := add_vote g T i i in
  currTerm rf' = T ∧ ghost_ok n g' ∧ only_at i g g' ∧ node_inv g' i (mkNode rf' TickLoop).
Proof.
  intros Hg Hn Hi Hme Hs Hb He T g'. unfold ticker_election in He. rewrite decide_True in He by done.
  simplify_eq/=. pose proof (ni_term _ _ _ Hn) as H0.
  assert (int64 (currTerm (rf nd) + 1) = T) as HT by (apply int64_small; unfold two63 in *; lia).
  destruct (add_vote_ok n g T i i Hg Hi) as [Hg' Ho].
  { intros c Hv. apply (ni_votes _ _ _ Hn) in Hv. lia. }
  split_and!; [done | done | done |]. split; simpl; rewrite HT, ?Hme; try done; [lia | | |].
  - intros _. by rewrite decide_True.
  - intros T' c. case_decide as Hd; [naive_solver lia |].
    intros Hv. apply (ni_votes _ _ _ Hn) in Hv as [Hv _]. lia.
  - intros _. by rewrite (counted_none n g i nd T) by (done || lia).
Qed.

(** [RequestVote] at [j], for a candidate [i], outside the leader's own
    term. *)
Lemma RequestVote_inv n g i j nd T r h :
  ghost_ok n g → node_inv g j nd → (j < n)%nat →
  ¬ (state (rf nd) = Leader ∧ T = currTerm (rf nd)) →
  RequestVote (rf nd) (mkRequestVoteArgs T (Z.of_nat i)) RequestVoteReply_zero r = h →
  ∃ g', ghost_ok n g' ∧ only_at j g g' ∧ (∀ i T, counted g' i T = counted g i T) ∧
        node_inv g' j (mkNode h.1 (tick nd)) ∧ (rvr_VoteGranted h.2 = true → votes g' T j = Some i).
Proof.
  intros Hg Hn Hj Hl <-. unfold RequestVote. simpl.
  assert (only_at j g g) as Hrefl by (by split_and!).
  destruct (decide (T < currTerm (rf nd))); [exists g; simpl; rewrite node_eta; by split_and! |].
  destruct (decide (T > currTerm (rf nd))) as [Hgt|Hgt]; simpl.
  - rewrite !decide_True by auto. simpl.
    destruct (add_vote_ok n g T j i) as [Hg' Ho]; [done | done | |].
    { intros c Hv. apply (ni_votes _ _ _ Hn) in Hv. lia. }
    exists (add_vote g T j i). split_and!; auto; [| by rewrite votes_add, decide_True].
    pose proof (ni_term _ _ _ Hn). split; simpl; try done; [lia |]. intros T' c.
    case_decide as Hd; [naive_solver lia |]. intros Hv. apply (ni_votes _ _ _ Hn) in Hv. lia.
  - assert (T = currTerm (rf nd)) as HT by lia. rewrite decide_True by done.
    destruct (decide (voteFor (rf nd) = -1 ∨ voteFor (rf nd) = Z.of_nat i)) as [Hd|Hd]; simpl.
    2: { exists g. rewrite node_eta. by split_and!. }
    assert (∀ c', votes g T j = Some c' → c' = i) as Hc.
    { intros c Hv. apply (ni_votes _ _ _ Hn) in Hv as [_ Hv]. specialize (Hv HT). naive_solver lia. }
    destruct (add_vote_ok n g T j i) as [Hg' Ho]; [done | done | done |].
    exists (add_vote g T j i). split_and!; auto; [| by rewrite votes_add, decide_True].
    destruct Hn. split; simpl; auto.
    + intros Hcand. apply Ho. auto.
    + intros T' c. case_decide as Hd'; [naive_solver lia |].
      intros Hv. apply ni_votes0 in Hv as [? Hv]. split; [done |]. intros ->. destruct Hd'. done.
Qed.

(** [AppendEntries] at [j] from a leader [i] of the term [T]. *)
Lemma AppendEntries_inv n g i j nd args r :
  ghost_ok n g → node_inv g j nd → leaders g (ae_Term args) i → i ≠ j →
  node_inv g j (mkNode (AppendEntries (rf nd) args AppendEntriesReply_zero r).1 (tick nd)).
Proof.
  intros Hg Hn Hl Hij. unfold AppendEntries.
  destruct (decide (ae_Term args < currTerm (rf nd))); [by simpl; rewrite node_eta |].
  rewrite decide_True by lia. simpl.
  destruct (decide (currTerm (rf nd) < ae_Term args)); [by eapply node_inv_new_term |].
  assert (ae_Term args = currTerm (rf nd)) as HT by lia. destruct Hn. split; simpl; rewrite ?HT; try done.
  intros T c Hv. apply ni_votes0 in Hv as [? Hv]. split; [done |]. intros ->.
  destruct Hv as [Hv|Hv]; [done | auto | ]. apply ni_leader0 in Hv. rewrite HT in Hl.
  destruct Hij. by eapply leaders_unique.
Qed.

Lemma step_down_inv g i nd T r :
  currTerm (rf nd) < T → node_inv g i nd → node_inv g i (mkNode (step_down (rf nd) T r) (tick nd)).
Proof. intros. by eapply node_inv_new_term. Qed.

Lemma sendAppendEntries_inv g i nd call r :
  node_inv g i nd → node_inv g i (mkNode (sendAppendEntries (rf nd) call r) (tick nd)).
Proof.
  intros Hn. unfold sendAppendEntries. destruct call as [reply|]; [| by rewrite node_eta].
  destruct (aer_Success reply); [by rewrite node_eta |].
  case_decide; [apply step_down_inv; [lia | done] | by rewrite node_eta].
Qed.

(** Counting a vote: the counted voters and the candidate are distinct
    peers that voted for it. *)
Lemma counted_quorum n g i T j :
  ghost_ok n g → votes g T i = Some i → votes g T j = Some i → j ≠ i → j ∉ counted g i T →
  ∃ Q : gset nat, (∀ v, v ∈ Q → votes g T v = Some i) ∧ size Q = S (S (size (counted g i T))) ∧ (size Q ≤ n)%nat.
Proof.
  intros Hg Hi Hj Hne Hn. exists ({[i]} ∪ ({[j]} ∪ counted g i T)).
  assert (∀ v, v ∈ ({[i]} ∪ ({[j]} ∪ counted g i T) : gset nat) → votes g T v = Some i) as HQ.
  { intros v [->%elem_of_singleton|[->%elem_of_singleton|Hv]%elem_of_union]%elem_of_union; auto.
    by apply (go_counted _ _ Hg) in Hv as [? _]. }
  split_and!; [done | |].
  - rewrite !size_union, !size_singleton; [done | set_solver |].
    intros v ->%elem_of_singleton [?%elem_of_singleton|Hv]%elem_of_union; [done |].
    by apply (go_counted _ _ Hg) in Hv as (_ & ? & _).
  - rewrite <- (size_set_seq (C := gset nat) 0 n). apply subseteq_size. intros v Hv.
    apply HQ, (go_voter _ _ Hg) in Hv. apply elem_of_set_seq. lia.
Qed.

Lemma add_counted_ok n g i T j :
  ghost_ok n g → votes g T i = Some i → votes g T j = Some i → j ≠ i →
  ghost_ok n (add_counted g i T j) ∧ only_at i g (add_counted g i T j).
Proof.
  intros [] Hi Hj Hne. split; [split; [done | | done] |].
  - intros i' T' j'. simpl. case_decide as Hd; [| by apply go_counted0].
    destruct Hd as [-> ->]. intros [->%elem_of_singleton|?]%elem_of_union; [done | by apply go_counted0].
  - split_and!; [done | done |]. intros i' T' Hi'. simpl. rewrite decide_False; [done | naive_solver].
Qed.

Lemma add_leader_ok n g i T :
  ghost_ok n g → (∃ Q : gset nat, (∀ v, v ∈ Q → votes g T v = Some i) ∧ (n < 2 * size Q)%nat) →
  ghost_ok n (add_leader g T i) ∧ only_at i g (add_leader g T i).
Proof.
  intros [] HQ. split; [split; try done | split_and!; try done].
  - intros T' i' [?|[-> ->]]; [by apply go_leader0 | done].
  - split; simpl; auto.
Qed.

Lemma only_at_trans i g1 g2 g3 : only_at i g1 g2 → only_at i g2 g3 → only_at i g1 g3.
Proof.
  intros (? & Hv & Hc) (? & Hv' & Hc'). split_and!; [by transitivity g2 | |]; intros;
    rewrite ?Hv', ?Hc' by done; auto.
Qed.

Lemma node_inv_count g i nd T j :
  node_inv g i nd → (state (rf nd) ≠ Candidate ∨ T ≠ currTerm (rf nd)) →
  node_inv (add_counted g i T j) i nd.
Proof.
  intros [] Hd. split; auto. intros Hc. simpl. rewrite decide_False by naive_solver. auto.
Qed.

(** The processing of a vote reply at [i], when a candidate gets the answer
    in the term of its question. *)
Lemma sendRequestVote_inv n g i j nd T reply r :
  Z.of_nat n < two63 → ghost_ok n g → node_inv g i nd → peers (rf nd) = n →
  votes g T i = Some i → j ≠ i → j ∉ counted g i T →
  (rvr_VoteGranted reply = true → votes g T j = Some i) →
  (rvr_VoteGranted reply = true → state (rf nd) = Candidate → T = currTerm (rf nd)) →
  let h := sendRequestVote (rf nd) (Some reply) r in
  ∃ g', ghost_ok n g' ∧ only_at i g g' ∧ node_inv g' i (mkNode h.1.1 (tick nd)) ∧
        (∀ T', counted g' i T' = counted g i T' ∨ (T' = T ∧ counted g' i T' = {[j]} ∪ counted g i T')) ∧
        (h.2 = [] ∨ h.2 = [GoBroadcast] ∧ leaders g' (currTerm h.1.1) i).
Proof.
  intros Hn63 Hg Hn Hp Hvi Hji Hjc Hgr Hstale h. subst h. unfold sendRequestVote.
  destruct (rvr_VoteGranted reply).
  2: { exists g. split_and!; auto; [by split_and! | | case_decide; auto].
       case_decide; simpl; [apply step_down_inv; [lia | done] | by rewrite node_eta]. }
  destruct (counted_quorum n g i T j) as (Q & HQ & HsQ & HleQ); auto.
  destruct (add_counted_ok n g i T j) as [Hg' Ho]; auto.
  assert (∀ T', counted (add_counted g i T j) i T' = counted g i T' ∨
            (T' = T ∧ counted (add_counted g i T j) i T' = {[j]} ∪ counted g i T')) as Hcnt.
  { intros T'. simpl. case_decide; naive_solver. }
  cbv zeta. simpl. destruct (decide (state (rf nd) = Follower)) as [Hf|Hf]; simpl.
  { exists (add_counted g i T j). split_and!; auto.
    apply (node_inv_count _ _ _ T j) in Hn; [| rewrite Hf; auto]. destruct Hn. split; simpl; auto.
    rewrite Hf. done. }
  destruct (decide (state (rf nd) = Candidate)) as [Hc|Hc].
  - pose proof (Hstale eq_refl Hc) as ->.
    assert (int64 (voteCount (rf nd) + 1) = Z.of_nat (size Q)) as Hvc.
    { rewrite (ni_count _ _ _ Hn Hc). rewrite int64_small; lia. }
    rewrite Hvc, Hp. case_decide as Hmaj; simpl.
    + destruct (add_leader_ok n (add_counted g i (currTerm (rf nd)) j) i (currTerm (rf nd))) as [Hg2 Ho2]; [done | |].
      { exists Q. split; [done |]. destruct Hmaj as [_ Hmaj].
        pose proof (Z.div_mod (Z.of_nat n) 2 ltac:(lia)).
        pose proof (Z.mod_pos_bound (Z.of_nat n) 2 ltac:(lia)). lia. }
      exists (add_leader (add_counted g i (currTerm (rf nd)) j) (currTerm (rf nd)) i).
      split_and!; auto; [by eapply only_at_trans | | right; split; [done | by right]].
      destruct Hn. split; simpl; auto; try done.
      intros T c Hv. apply ni_votes0 in Hv as [? ?]. auto.
    + exists (add_counted g i (currTerm (rf nd)) j). split_and!; auto.
      destruct Hn. split; simpl; auto. intros _. rewrite decide_True by done.
      rewrite size_union by set_solver. rewrite size_singleton. rewrite HsQ. lia.
  - exists (add_counted g i T j). rewrite decide_False by tauto. split_and!; auto. simpl.
    apply (node_inv_count _ _ _ T j) in Hn; [| auto]. destruct Hn. split; simpl; auto. done.
Qed.

(** ** Steps of the cluster *)

Lemma nodes_inv_upd s g g' i nd' :
  (∀ k nd, nodes s !! k = Some nd → node_inv g k nd) → only_at i g g' → node_inv g' i nd' →
  ∀ k nd, <[i := nd']> (nodes s) !! k = Some nd → node_inv g' k nd.
Proof.
  intros Hn Ho Hi k nd. rewrite list_lookup_insert. case_decide as Hd.
  - destruct Hd as [<- _]. by intros [= <-].
  - intros Hk. destruct (decide (k = i)) as [->|Hne].
    + destruct Hd. split; [done |]. by eapply lookup_lt_Some.
    + eapply node_inv_other; [done | done |]. auto.
Qed.

Lemma only_at_refl i g : only_at i g g.
Proof. by split_and!. Qed.
#[local] Hint Resolve only_at_refl : core.

Lemma node_lt n s i nd : nodes_ok n s → nodes s !! i = Some nd → (i < n)%nat.
Proof. intros [<- _] Hi. by eapply lookup_lt_Some. Qed.

(** New vote goroutines of an election have new keys. *)
Lemma start_votes_ok n g g' i nd T ps :
  ghost_ok n g' → node_inv g i nd → me (rf nd) = Z.of_nat i → currTerm (rf nd) < T →
  votes g' T i = Some i → ext g g' → (∀ i T, counted g' i T = counted g i T) →
  procs_ok g ps → ghost_ok n g → procs_ok g' (start i T (GoRequestVote <$> others (rf nd)) ++ ps).
Proof.
  intros Hg' Hn Hme Ht Hv He Hc Hps Hg.
  assert (omap vkey (start i T (GoRequestVote <$> others (rf nd))) = (λ j, (i, j, T)) <$> others (rf nd)) as Hk.
  { unfold start. rewrite <- list_fmap_compose. induction (others (rf nd)); simpl; [done | by f_equal]. }
  split.
  - apply Forall_app. split; [| apply (procs_ok_ext g g'); [done | by intros; rewrite Hc | done]].
    apply Forall_forall. unfold start. intros q (? & -> & (j & -> & Hj)%list_elem_of_fmap)%list_elem_of_fmap.
    unfold others in Hj. apply list_elem_of_filter in Hj as [Hj _]. split; [simpl | done].
    split_and!; [intros ->; by rewrite Hme in Hj | done |].
    rewrite Hc, (counted_none n g i nd T) by done. set_solver.
  - rewrite omap_app, Hk. apply NoDup_app. split_and!.
    + apply NoDup_fmap; [by intros ? ? [=] | apply NoDup_filter, NoDup_seq].
    + intros k (j & -> & _)%list_elem_of_fmap (q & Hq & Hkq)%list_elem_of_omap.
      destruct Hps as [HF _]. rewrite Forall_forall in HF. apply HF in Hq as [Hq _]. rewrite Hkq in Hq.
      destruct Hq as (_ & Hq & _). apply (ni_votes _ _ _ Hn) in Hq. lia.
    + apply Hps.
Qed.

Lemma start_appends_ok g i T rf ps :
  leaders g T i → me rf = Z.of_nat i → procs_ok g ps → procs_ok g (start i T (broadcastHeartbeat rf) ++ ps).
Proof.
  intros Hl Hme. apply procs_ok_app.
  - apply Forall_forall. unfold start, broadcastHeartbeat.
    intros q (? & -> & (j & -> & Hj)%list_elem_of_fmap)%list_elem_of_fmap.
    apply list_elem_of_filter in Hj as [Hj _]. split; [done |]. split; [done |]. intros ->. by rewrite Hme in Hj.
  - unfold start, broadcastHeartbeat. rewrite <- list_fmap_compose. by induction (others rf).
Qed.

Lemma inv_node n s g l i nd nd' gos :
  inv n s g → safe_label s l = true → label_node l = Some i →
  nodes s !! i = Some nd → exec_tick l nd = Some (nd', gos) →
  ∃ g', ext g g' ∧ inv n (upd s i nd' (start i (currTerm (rf nd')) gos)) g'.
Proof.
  intros Hinv Hsafe Hl Hi Ht. pose proof Hinv as [Hok Hg Hn Hp].
  assert (nodes_ok n (upd s i nd' (start i (currTerm (rf nd')) gos))) as Hok'
    by (by eapply nodes_ok_step; [done | eapply st_node]).
  pose proof (Hn _ _ Hi) as Hni. pose proof (proj2 Hok _ _ Hi) as Hnok.
  (* steps that keep term, vote and role, and start nothing *)
  assert (gos = [] → currTerm (rf nd') = currTerm (rf nd) → voteFor (rf nd') = voteFor (rf nd) →
    state (rf nd') = state (rf nd) → voteCount (rf nd') = voteCount (rf nd) →
    ∃ g', ext g g' ∧ inv n (upd s i nd' (start i (currTerm (rf nd')) gos)) g') as Hsame.
  { intros -> ????. exists g. split; [done |]. split; simpl; [done | done | | done].
    eapply nodes_inv_upd; [done | done |]. by eapply node_inv_same. }
  destruct nd as [rf0 t]. destruct l; simpl in Hl, Ht; simplify_eq/=.
  1-2: apply bind_Some in Ht as (? & ? & ?); simplify_eq/=; by apply Hsame.
  1-3: destruct t; try done; try (apply bind_Some in Ht as (? & ? & ?)); simplify_eq/=; by apply Hsame.
  2: by apply Hsame.
  destruct t; try done.
  - destruct (ticker_election rf0 r1 r2) as [rf' gos'] eqn:E. simplify_eq/=.
    destruct (decide (state rf0 = Leader)) as [Hld|Hld].
    { unfold ticker_election in E. rewrite decide_False in E by naive_solver. simplify_eq. by apply Hsame. }
    assert (currTerm rf0 + 1 < two63) as Hb.
    { unfold safe_label, overflows in Hsafe. rewrite Hi in Hsafe. simpl in Hsafe.
      rewrite negb_true_iff, bool_decide_eq_false in Hsafe. lia. }
    destruct (election_inv n g i (mkNode rf0 TickElection) r1 r2 gos rf') as (HT & Hg' & Ho & Hni'); auto.
    { by apply (node_lt n s i _ Hok Hi). } { apply Hnok. }
    eexists. split; [apply Ho |]. split; [done | exact Hg' | by eapply nodes_inv_upd |]. simpl.
    unfold ticker_election, startElection in E. rewrite decide_True in E by done. simplify_eq/=. rewrite HT.
    apply (start_votes_ok n g _ i (mkNode rf0 TickElection)); auto; simpl;
      [apply Hnok | lia | by rewrite decide_True | apply Ho].
  - unfold ticker_heartbeat in Ht. case_decide as Hld; simplify_eq/=; [| by apply Hsame].
    exists g. split; [done |]. split; simpl; [done | done | | ].
    + eapply nodes_inv_upd; [done | done |]. by apply (node_inv_same g i (mkNode rf0 TickHeartbeat)).
    + apply start_appends_ok; [by apply Hni | apply Hnok | done].
Qed.

Lemma procs_ok_cons g q q' ps :
  proc_ok g q' → vkey q' = vkey q → procs_ok g ps → (∀ k, vkey q = Some k → k ∉ omap vkey ps) →
  procs_ok g (q' :: ps).
Proof.
  intros Hq Hk [HF Hnd] Hnew. split; [by constructor |]. simpl. rewrite Hk.
  destruct (vkey q) eqn:E; [| done]. apply NoDup_cons. auto.
Qed.

(** A process step that changes one node. *)
Lemma inv_proc_upd n s s' g g' i nd' l :
  inv n s g → step l s s' → nodes s' = <[i := nd']> (nodes s) → ghost_ok n g' → only_at i g g' →
  node_inv g' i nd' → procs_ok g' (procs s') → ∃ g', ext g g' ∧ inv n s' g'.
Proof.
  intros [Hok Hg Hn Hp] Hs Hns Hg' Ho Hi Hp'. exists g'. split; [apply Ho |].
  split; [by eapply nodes_ok_step | done | | done]. rewrite Hns. by eapply nodes_inv_upd.
Qed.

Lemma inv_proc_same n s s' g l :
  inv n s g → step l s s' → nodes s' = nodes s → procs_ok g (procs s') → ∃ g', ext g g' ∧ inv n s' g'.
Proof.
  intros [Hok Hg Hn Hp] Hs Hns Hp'. exists g. split; [done |].
  split; [by eapply nodes_ok_step | done | by rewrite Hns | done].
Qed.

(** A vote reply, counted in the term it was asked in. *)
Lemma inv_vote_reply n s s' g p r i j T args reply nd :
  let h := sendRequestVote (rf nd) (Some reply) r in
  Z.of_nat n < two63 → inv n s g → procs s !! p = Some (PVoteReply i j T args reply) → nodes s !! i = Some nd →
  s' = mkState (<[i := mkNode h.1.1 (tick nd)]> (nodes s)) (start i (currTerm h.1.1) h.2 ++ delete p (procs s)) →
  (rvr_VoteGranted reply = true → state (rf nd) = Candidate → rv_Term args = currTerm (rf nd)) →
  ∃ g', ext g g' ∧ inv n s' g'.
Proof.
  intros h Hn63 Hinv Hq Hnd -> Hterm. pose proof Hinv as [Hok Hg Hn Hp].
  destruct (procs_ok_take g _ _ _ Hq Hp) as ([(Hij & Hvi & Hcnt) [-> Hgr]] & Hr & Hnew).
  destruct (sendRequestVote_inv n g i j nd T reply r) as (g' & Hg' & Ho & Hni & Hc & Hgos); auto.
  { apply (proj2 Hok _ _ Hnd). }
  fold h in Hni, Hgos. eapply inv_proc_upd; [done | by eapply st_reply_vote | done | done | done | done |]. simpl.
  assert (procs_ok g' (delete p (procs s))) as Hr'.
  { eapply procs_ok_ext; [apply Ho | | done]. intros i' j' T' Hin Hni'.
    destruct (decide (i' = i)) as [->|Hne]; [| destruct Ho as (_ & _ & ->); done].
    destruct (Hc T') as [->|[-> ->]]; [done |]. intros [->%elem_of_singleton|?]%elem_of_union; [| done].
    by eapply Hnew. }
  destruct Hgos as [->|[-> Hld]]; [done |]. apply procs_ok_app; [| done | done].
  by repeat constructor.
Qed.

Lemma inv_step n s g l s' :
  Z.of_nat n < two63 → inv n s g → safe_label s l = true → step l s s' → ∃ g', ext g g' ∧ inv n s' g'.
Proof.
  intros Hn63 Hinv Hsafe Hstep. pose proof Hinv as [Hok Hg Hn Hp].
  pose proof (λ i nd H, proj2 Hok i nd H) as Hnok.
  unfold safe_label in Hsafe. rewrite !andb_true_iff, !negb_true_iff in Hsafe.
  destruct Hsafe as [[[Hlate Hstale] Hasked] Hover]. inversion Hstep; subst.
  - eapply inv_node; eauto. unfold safe_label. by rewrite Hlate, Hstale, Hasked, Hover.
  - destruct (procs_ok_take g _ _ _ H Hp) as ([Hk _] & Hr & Hnew).
    simpl in Hlate. rewrite H, H0 in Hlate. apply bool_decide_eq_false in Hlate.
    eapply inv_proc_same; [done | done | done |]. simpl. eapply procs_ok_cons; [| | done | exact Hnew]; [| done].
    split; [done |]. unfold vote_args. rewrite (ok_me _ _ _ (Hnok _ _ H0)). f_equal. by apply dec_stable.
  - destruct (procs_ok_take g _ _ _ H Hp) as ([_ [Hld Hij]] & Hr & Hnew).
    simpl in Hlate. rewrite H, H0 in Hlate. apply bool_decide_eq_false in Hlate.
    eapply inv_proc_same; [done | done | done |]. simpl. eapply procs_ok_cons; [| | done | exact Hnew]; [| done].
    split; [done |]. split_and!; [done | done |]. simpl. by apply dec_stable.
  - destruct (procs_ok_take g _ _ _ H Hp) as ([_ Hld] & Hr & _).
    eapply inv_proc_same; [done | done | done |]. simpl.
    apply start_appends_ok; [done | apply (Hnok _ _ H0) | done].
  - destruct (procs_ok_take g _ _ _ H Hp) as ([Hk ->] & Hr & Hnew).
    simpl in Hasked. rewrite H, H0 in Hasked. simpl in Hasked.
    destruct (RequestVote_inv n g i j nd T r h) as (g' & Hg' & Ho & Hc & Hni & Hgr); auto.
    { by eapply node_lt. }
    { intros [Hl HT]. by rewrite !bool_decide_eq_true_2 in Hasked. }
    eapply inv_proc_upd; [done | done | done | done | done | done |]. simpl.
    eapply procs_ok_cons; [| | | exact Hnew]; [| done |].
    + split; [| done]. simpl. destruct Hk as (? & ? & ?). split_and!; [done | by apply Ho | by rewrite Hc].
    + eapply procs_ok_ext; [apply Ho | by intros; rewrite Hc | done].
  - destruct (procs_ok_take g _ _ _ H Hp) as ([_ (Hld & Hij & HT)] & Hr & Hnew).
    eapply inv_proc_upd; [done | done | done | done | done | |].
    + by eapply AppendEntries_inv; [done | auto | rewrite HT |].
    + simpl. by eapply procs_ok_cons.
  - destruct (procs_ok_take g _ _ _ H Hp) as (_ & Hr & _). by eapply inv_proc_same.
  - simpl in Hstale. rewrite H, H0 in Hstale. simpl in Hstale. eapply inv_vote_reply; [done..|].
    intros Hg1 Hcd. rewrite Hg1 in Hstale. rewrite bool_decide_eq_true_2 in Hstale by done.
    simpl in Hstale. apply bool_decide_eq_false in Hstale. by apply dec_stable.
  - destruct (procs_ok_take g _ _ _ H Hp) as (_ & Hr & _).
    eapply inv_proc_upd; [done | done | done | done | done | | done]. apply sendAppendEntries_inv. auto.
Qed.

Lemma inv_init n r : ∃ g, inv n (init n r) g.
Proof.
  exists (mkGhost (λ _ _, None) (λ _ _, ∅) (λ _ _, False)).
  split; [apply nodes_ok_init | | | by repeat constructor].
  - split; simpl; [done | set_solver | done].
  - intros i nd Hi. simpl in Hi. apply list_lookup_fmap_Some in Hi as (j & -> & _). by split.
Qed.

Lemma inv_run n ls s s' g :
  Z.of_nat n < two63 → inv n s g → run_if safe_label ls s = Some s' → ∃ g', ext g g' ∧ inv n s' g'.
Proof.
  intros Hn. revert s g. induction ls as [|l ls IH]; intros s g Hi Hr; simplify_eq/=; [by exists g |].
  destruct (safe_label s l) eqn:Hs; [| done]. apply bind_Some in Hr as (s1 & H1 & Hr).
  destruct (inv_step n s g l s1) as (g1 & He1 & Hi1); auto; [by apply exec_step |].
  destruct (IH s1 g1 Hi1 Hr) as (g2 & He2 & Hi2). exists g2. split; [by transitivity g1 | done].
Qed.

Lemma leads_ghost n s g i T : inv n s g → leads s i T → leaders g T i.
Proof.
  intros [_ _ Hn _] (nd & Hi & [= <- Hl%bool_decide_eq_true]). by apply (Hn _ _ Hi).
Qed.

(** ** The properties of elections *)

(** C7: election safety outside the unguarded situations.  Along a run in
    which no goroutine reads the term late, no candidate counts a vote of
    another term, no leader is asked for its vote in its own term and no term
    overflows, two leaders of the same term, at the same or at different
    times, are the same peer. *)
Theorem election_safety (n : nat) (r : Z) (ls1 ls2 : list Label) (s1 s2 : State) (i j : nat) (T : Z)
    (Hn : Z.of_nat n < two63)
    (H1 : run_if safe_label ls1 (init n r) = Some s1) (H2 : run_if safe_label ls2 s1 = Some s2)
    (Hi : leads s1 i T) (Hj : leads s2 j T) :
  i = j.
Proof.
  destruct (inv_init n r) as [g0 Hg0]. destruct (inv_run n ls1 _ s1 g0 Hn Hg0 H1) as (g1 & _ & Hi1).
  destruct (inv_run n ls2 _ s2 g1 Hn Hi1 H2) as (g2 & He & Hi2).
  apply (leaders_unique n g2 T); [apply Hi2 | | by eapply leads_ghost].
  apply He. by eapply leads_ghost.
Qed.

(** Elects 0 in term 1; the heartbeat reaches 2, and 1 asks 0 in term 2. *)
Definition elect_run : list Label := timeout 0 ++ request 0.
Definition beat_run : list Label := [LRun 0; LRun 1; LDeliver 0 0; LReply 0 0].

Lemma election_safety_witness :
  ∃ s1 s2, run_if safe_label elect_run (init 3 0) = Some s1 ∧ run_if safe_label beat_run s1 = Some s2 ∧
    leads s1 0 1 ∧ leads s2 0 1 ∧ ∀ j, leads s2 j 1 → 0%nat = j.
Proof.
  eexists _, _. split; [vm_compute; reflexivity |]. split; [vm_compute; reflexivity |].
  split; [eexists; split; vm_compute; reflexivity |]. split; [eexists; split; vm_compute; reflexivity |].
  intros j Hj. eapply (election_safety 3 0 elect_run beat_run _ _ 0 j 1); [reflexivity | vm_compute; reflexivity
    | vm_compute; reflexivity | eexists; split; vm_compute; reflexivity | exact Hj].
Defined.

(** C30: each of the three situations is a fault of its own.  With all
    steps but one kind kept out, two different peers are leaders of the same
    term in the same state: by a leader voting in its own term (it cleared
    [voteFor] when it won), by counting a vote of an earlier term (the reply's
    term is not compared), and by a goroutine that asks in a later term than
    its election (it reads [rf.currTerm] when it runs, without the lock). *)
Theorem each_situation_breaks_safety :
  (∃ s, run_if (λ s l, negb (reads_late s l) && negb (counts_stale_vote s l) && negb (overflows s l))
          leader_votes_run (init 3 0) = Some s ∧ two_leaders s 1) ∧
  (∃ s, run_if (λ s l, negb (reads_late s l) && negb (leader_asked s l) && negb (overflows s l))
          stale_vote_run (init 3 0) = Some s ∧ two_leaders s 2) ∧
  (∃ s, run_if (λ s l, negb (counts_stale_vote s l) && negb (leader_asked s l) && negb (overflows s l))
          late_read_run (init 5 0) = Some s ∧ two_leaders s 2).
Proof.
  split_and!; (eexists; split; [vm_compute; reflexivity |]).
  - exists 0%nat, 1%nat. split; [done |]. split; eexists; split; reflexivity.
  - exists 0%nat, 1%nat. split; [done |]. split; eexists; split; reflexivity.
  - exists 0%nat, 2%nat. split; [done |]. split; eexists; split; reflexivity.
Qed.

End RaftElection.
