(* ===== verification/RaftProgress.v ===== *)
(** * Raft elections: progress

    From every reachable state of at least two peers, every peer that is
    alive and not leader has a continuation of the run in which it becomes
    leader of a new term: its timer is live, its term overtakes the others by
    repeated timeouts, and the others then vote for it.  A cluster of one
    peer, in contrast, never has a leader. *)

From S2P Require Import Prelude Raft RaftCluster.
#[local] Open Scope Z_scope.

Module RaftProgress.
Import Raft RaftCluster.

(** Some continuation of the run leads from [s] to [s']. *)
Definition can (s s' : State) : Prop := ∃ ls, run ls s = Some s'.

Lemma run_app ls1 ls2 s : run (ls1 ++ ls2) s = s1 ← run ls1 s; run ls2 s1.
Proof.
  revert s. induction ls1 as [|l ls1 IH]; intros s; simpl; [done |].
  destruct (exec l s); simpl; auto.
Qed.

#[export] Instance can_preorder : PreOrder can.
Proof.
  split; [by exists [] |]. intros s1 s2 s3 [l1 H1] [l2 H2]. exists (l1 ++ l2). by rewrite run_app, H1.
Qed.

Lemma can_exec l s s' : exec l s = Some s' → can s s'.
Proof. intros He. exists [l]. simpl. by rewrite He. Qed.

Lemma can_ok n s s' : nodes_ok n s → can s s' → nodes_ok n s'.
Proof. intros Hok [ls Hr]. by eapply nodes_ok_run. Qed.

(** A node's own step. *)
Lemma can_tick l s i nd nd' gos :
  label_node l = Some i → nodes s !! i = Some nd → exec_tick l nd = Some (nd', gos) →
  can s (upd s i nd' (start i (currTerm (rf nd')) gos)).
Proof.
  intros Hl Hi Ht. apply (can_exec l).
  transitivity (exec_node l i s); [by destruct l; simplify_eq/= |].
  unfold exec_node. apply bind_Some. exists nd. split; [done |]. apply bind_Some. by exists (nd', gos).
Qed.

(** Same role and term, and alive. *)
Definition same_role (nd nd' : Node) : Prop :=
  currTerm (rf nd') = currTerm (rf nd) ∧ state (rf nd') = state (rf nd) ∧ dead (rf nd') = dead (rf nd).

Lemma upd_upd s i nd1 nd2 : upd (upd s i nd1 []) i nd2 [] = upd s i nd2 [].
Proof. unfold upd. simpl. by rewrite list_insert_insert_eq. Qed.

Lemma upd_lookup s i nd nd' ps : nodes s !! i = Some nd → nodes (upd s i nd' ps) !! i = Some nd'.
Proof. intros Hi. simpl. apply list_lookup_insert_eq. by eapply lookup_lt_Some. Qed.

(** One quiet step of the ticker, then the rest. *)
Lemma quiet_then l s i nd nd1 (P : Node → Prop) :
  label_node l = Some i → nodes s !! i = Some nd → exec_tick l nd = Some (nd1, []) →
  (∃ nd2, can (upd s i nd1 []) (upd (upd s i nd1 []) i nd2 []) ∧ P nd2) →
  ∃ nd2, can s (upd s i nd2 []) ∧ P nd2.
Proof.
  intros Hl Hi Ht (nd2 & Hc & HP). exists nd2. split; [| done]. rewrite upd_upd in Hc.
  etransitivity; [| exact Hc]. by apply (can_tick l s i nd nd1 []).
Qed.

(** [i] can come to hold an election timeout, with the role of [nd]. *)
Definition can_time_out (s : State) (i : nat) (nd : Node) : Prop :=
  ∃ nd', can s (upd s i nd' []) ∧ same_role nd nd' ∧ tick nd' = TickElection.

Lemma time_out_recv s i rf0 :
  nodes s !! i = Some (mkNode rf0 TickWait) → fired (electionTimer rf0) = true →
  can_time_out s i (mkNode rf0 TickWait).
Proof.
  intros Hi Hf. exists (mkNode (set_electionTimer rf0 (drain (electionTimer rf0))) TickElection).
  split_and!; [| done | done].
  apply (can_tick (LRecvElection i) s i (mkNode rf0 TickWait) _ []); [done | done |].
  simpl. unfold receive. by rewrite Hf.
Qed.

Lemma time_out_wait n s i rf0 :
  nodes_ok n s → nodes s !! i = Some (mkNode rf0 TickWait) → state rf0 ≠ Leader →
  can_time_out s i (mkNode rf0 TickWait).
Proof.
  intros Hok Hi Hs. pose proof (proj2 Hok i _ Hi) as Hn.
  destruct (ok_live_election _ _ _ Hn Hs ltac:(done)) as [[[d Ha]|Hf]|?]; [| by apply time_out_recv | done].
  eapply (quiet_then (LFireElection i)); [done | done | simpl; unfold fire; simpl in Ha; by rewrite Ha |].
  apply (time_out_recv _ i (set_electionTimer rf0 (mkTimer None true))); [by eapply upd_lookup | done].
Qed.

Lemma quiet_ok n l s i nd nd1 :
  nodes_ok n s → label_node l = Some i → nodes s !! i = Some nd → exec_tick l nd = Some (nd1, []) →
  nodes_ok n (upd s i nd1 []).
Proof. intros Hok Hl Hi Ht. eapply can_ok; [exact Hok |]. by apply (can_tick l s i nd nd1 []). Qed.

Lemma time_out_loop n s i rf0 :
  nodes_ok n s → nodes s !! i = Some (mkNode rf0 TickLoop) → dead rf0 ≠ 1 → state rf0 ≠ Leader →
  can_time_out s i (mkNode rf0 TickLoop).
Proof.
  intros Hok Hi Hd Hs.
  assert (exec_tick (LLoop i) (mkNode rf0 TickLoop) = Some (mkNode rf0 TickWait, [])) as Ht.
  { simpl. unfold killed. by rewrite bool_decide_eq_false_2. }
  eapply (quiet_then (LLoop i)); [done | done | done |].
  apply (time_out_wait n _ i rf0); [by eapply (quiet_ok n (LLoop i)) | by eapply upd_lookup | done].
Qed.

Lemma time_out_possible n s i nd :
  nodes_ok n s → nodes s !! i = Some nd → dead (rf nd) ≠ 1 → state (rf nd) ≠ Leader →
  can_time_out s i nd.
Proof.
  intros Hok Hi Hd Hs. pose proof (proj2 Hok i nd Hi) as Hn. destruct nd as [rf0 t]. simpl in *. destruct t.
  - by eapply time_out_loop.
  - by eapply time_out_wait.
  - exists (mkNode rf0 TickElection). split; [| done]. unfold upd. simpl. erewrite nodes_same by done.
    destruct s. reflexivity.
  - assert (exec_tick (LTick i 0 0) (mkNode rf0 TickHeartbeat) = Some (mkNode rf0 TickLoop, [])) as Ht.
    { simpl. unfold ticker_heartbeat. by rewrite decide_False. }
    eapply (quiet_then (LTick i 0 0)); [done | done | done |].
    apply (time_out_loop n _ i rf0); [by eapply (quiet_ok n (LTick i 0 0)) | by eapply upd_lookup | done | done].
  - by destruct (ok_exit _ _ _ Hn).
Qed.

(** [i] stands in an election of term [T], its vote requests not yet sent. *)
Definition standing (s0 s : State) (i : nat) (T : Z) : Prop :=
  ∃ nd ps, nodes s !! i = Some nd ∧ state (rf nd) = Candidate ∧ currTerm (rf nd) = T ∧
    voteCount (rf nd) = 1 ∧ dead (rf nd) ≠ 1 ∧
    procs s = start i T (GoRequestVote <$> others (rf nd)) ++ ps ∧
    (∀ j, j ≠ i → nodes s !! j = nodes s0 !! j).

Lemma stand n s i nd :
  nodes_ok n s → nodes s !! i = Some nd → dead (rf nd) ≠ 1 → state (rf nd) ≠ Leader →
  currTerm (rf nd) + 1 < two63 →
  ∃ s', can s s' ∧ standing s s' i (currTerm (rf nd) + 1).
Proof.
  intros Hok Hi Hd Hs Hb.
  destruct (time_out_possible n s i nd) as ([rf1 t] & Hc & (Ht & Hst & Hdd) & Htk); auto. simpl in *. subst t.
  pose proof (can_ok n _ _ Hok Hc) as Hok1.
  assert (int64 (currTerm rf1 + 1) = currTerm (rf nd) + 1) as HT.
  { rewrite Ht. pose proof (ok_term _ _ _ (proj2 Hok i nd Hi)). apply int64_small. unfold two63 in *. lia. }
  assert (nodes (upd s i (mkNode rf1 TickElection) []) !! i = Some (mkNode rf1 TickElection)) as Hi1
    by (by eapply upd_lookup).
  eexists. split.
  - etransitivity; [exact Hc |]. eapply (can_tick (LTick i 0 0)); [done | exact Hi1 |].
    simpl. unfold ticker_election. rewrite decide_True by congruence. reflexivity.
  - eexists _, _. split; [by eapply upd_lookup |]. simpl. rewrite HT.
    split_and!; try done; [congruence |]. intros j Hj. by rewrite !list_lookup_insert_ne by congruence.
Qed.

(** Repeated timeouts bring [i] to any higher term. *)
Lemma stand_at n s i nd T :
  nodes_ok n s → nodes s !! i = Some nd → dead (rf nd) ≠ 1 → state (rf nd) ≠ Leader →
  currTerm (rf nd) < T → T < two63 → ∃ s', can s s' ∧ standing s s' i T.
Proof.
  intros Hok Hi Hd Hs Hlt Hb. remember (Z.to_nat (T - currTerm (rf nd) - 1)) as k eqn:Hk.
  revert s nd Hok Hi Hd Hs Hlt Hk. induction k as [|k IH]; intros s nd Hok Hi Hd Hs Hlt Hk.
  - assert (T = currTerm (rf nd) + 1) as -> by lia. by apply stand with n.
  - destruct (stand n s i nd) as (s1 & Hc1 & nd1 & ps & Hi1 & Hs1 & Ht1 & _ & Hd1 & _ & Ho1); auto; [lia |].
    destruct (IH s1 nd1) as (s2 & Hc2 & nd2 & ps2 & Hi2 & Hs2 & Ht2 & Hv2 & Hd2 & Hp2 & Ho2); auto.
    + by eapply can_ok.
    + by rewrite Hs1.
    + lia.
    + lia.
    + exists s2. split; [by transitivity s1 |]. exists nd2, ps2. split_and!; auto.
      intros j Hj. rewrite Ho2, Ho1 by done. done.
Qed.

#[local] Arguments sendRequestVote : simpl never.
#[local] Arguments RequestVote : simpl never.

(** One vote request of a standing candidate, answered by a peer of a lower
    term. *)
Lemma request_granted s i j T nd ndj ps :
  nodes s !! i = Some nd → nodes s !! j = Some ndj → i ≠ j → currTerm (rf nd) = T →
  currTerm (rf ndj) < T → procs s = PVote i j T :: ps →
  ∃ ndj', can s (mkState (<[i := mkNode (sendRequestVote (rf nd) (Some (mkRequestVoteReply T true)) 0).1.1 (tick nd)]>
                           (<[j := ndj']> (nodes s)))
                  (start i (currTerm (sendRequestVote (rf nd) (Some (mkRequestVoteReply T true)) 0).1.1)
                     (sendRequestVote (rf nd) (Some (mkRequestVoteReply T true)) 0).2 ++ ps)).
Proof.
  intros Hi Hj Hij HT Hlt Hps.
  set (args := mkRequestVoteArgs T (me (rf nd))).
  set (h := RequestVote (rf ndj) args RequestVoteReply_zero 0).
  assert (h.2 = mkRequestVoteReply T true) as Hh.
  { unfold h, RequestVote. simpl. rewrite decide_False by lia. rewrite (decide_True (P := T > _)) by lia.
    simpl. rewrite !decide_True by auto. done. }
  exists (mkNode h.1 (tick ndj)). exists [LRun 0; LDeliver 0 0; LReply 0 0]. simpl.
  rewrite Hps. simpl. rewrite Hi. simpl. rewrite Hj. simpl.
  assert (vote_args (rf nd) = args) as -> by (unfold vote_args, args; by rewrite HT).
  fold h. destruct h as [rfj reply]. simpl in Hh. subst reply. simpl.
  rewrite list_lookup_insert_ne, Hi by done. simpl.
  destruct (sendRequestVote (rf nd) (Some (mkRequestVoteReply T true)) 0) as [[rf' b] gos]. done.
Qed.

(** With enough peers left to ask, the candidate wins. *)
Lemma gather n s i nd js T ps :
  nodes s !! i = Some nd → state (rf nd) = Candidate → currTerm (rf nd) = T → peers (rf nd) = n →
  Z.of_nat n < two63 → NoDup js → (∀ j, j ∈ js → j ≠ i ∧ ∃ ndj, nodes s !! j = Some ndj ∧ currTerm (rf ndj) < T) →
  procs s = ((λ j, PVote i j T) <$> js) ++ ps →
  0 ≤ voteCount (rf nd) ≤ Z.of_nat n / 2 → Z.of_nat n / 2 < voteCount (rf nd) + Z.of_nat (length js) →
  ∃ s', can s s' ∧ leads s' i T.
Proof.
  revert s nd. induction js as [|j js IH]; intros s nd Hi Hst HT Hp Hn63 Hnd Hjs Hps Hv Hlen.
  - simpl in Hlen. lia.
  - destruct (Hjs j) as (Hji & ndj & Hj & Hlt); [set_solver |].
    destruct (request_granted s i j T nd ndj (((λ j, PVote i j T) <$> js) ++ ps)) as (ndj' & Hc); auto.
    apply NoDup_cons in Hnd as [Hjn Hnd].
    pose proof (Z.mul_div_le (Z.of_nat n) 2 ltac:(lia)) as Hhalf.
    assert (int64 (voteCount (rf nd) + 1) = voteCount (rf nd) + 1) as Hvc.
    { apply int64_small. unfold two63 in *. lia. }
    assert ((i < length (<[j := ndj']> (nodes s)))%nat) as Hlt'
      by (rewrite length_insert; by eapply lookup_lt_Some).
    unfold sendRequestVote in Hc. simpl in Hc. rewrite Hvc, Hst, decide_False, Hp in Hc by done.
    case_decide as Hmaj; simpl in Hc.
    + eexists. split; [exact Hc |]. eexists. split; [by apply list_lookup_insert_eq |].
      unfold GetState. simpl. by rewrite HT.
    + match type of Hc with can s ?s1 => destruct (IH s1 (mkNode (set_voteCount (rf nd) (voteCount (rf nd) + 1)) (tick nd)))
        as (s' & Hc' & Hl) end; simpl; auto.
      * by apply list_lookup_insert_eq.
      * intros k Hk. destruct (Hjs k) as (Hki & ndk & Hk' & Hkl); [set_solver |]. split; [done |].
        exists ndk. split; [| done]. rewrite !list_lookup_insert_ne by set_solver. done.
      * assert (¬ voteCount (rf nd) + 1 > Z.of_nat n / 2) by tauto. lia.
      * simpl in Hlen. lia.
      * exists s'. split; [by etransitivity | done].
Qed.

Lemma others_spec n i rf :
  me rf = Z.of_nat i → peers rf = n → (i < n)%nat →
  NoDup (others rf) ∧ (∀ j, j ∈ others rf ↔ (j < n)%nat ∧ j ≠ i) ∧ length (others rf) = (n - 1)%nat.
Proof.
  intros Hme Hp Hi. unfold others. rewrite Hme, Hp.
  assert (NoDup (filter (λ j : nat, Z.of_nat j ≠ Z.of_nat i) (seq 0 n))) as Hnd by apply NoDup_filter, NoDup_seq.
  split; [done |]. split.
  - intros j. rewrite list_elem_of_filter, elem_of_seq. lia.
  - assert (i :: filter (λ j : nat, Z.of_nat j ≠ Z.of_nat i) (seq 0 n) ≡ₚ seq 0 n) as Hperm.
    { apply NoDup_Permutation; [| apply NoDup_seq |].
      - apply NoDup_cons. split; [| done]. rewrite list_elem_of_filter. naive_solver.
      - intros j. rewrite elem_of_cons, list_elem_of_filter, elem_of_seq. lia. }
    apply Permutation_length in Hperm. simpl in Hperm. rewrite length_seq in Hperm. lia.
Qed.

(** ** The properties *)

(** A peer that is not killed and not leader can be elected. *)
Lemma peer_electable (n : nat) (s : State) (i : nat) (nd : Node) (T : Z) :
  (2 ≤ n)%nat → Z.of_nat n < two63 → reachable n s → nodes s !! i = Some nd → killed (rf nd) = false →
  (GetState (rf nd)).2 = false → (∀ j ndj, nodes s !! j = Some ndj → currTerm (rf ndj) < T) → T < two63 →
  ∃ ls s', run ls s = Some s' ∧ leads s' i T.
Proof.
  intros Hn2 Hn Hr Hi Hal Hnl HT Hb.
  pose proof (reachable_ok n s Hr) as Hok. pose proof (proj2 Hok i nd Hi) as Hnok.
  apply bool_decide_eq_false in Hal. simpl in Hnl. apply bool_decide_eq_false in Hnl.
  destruct (stand_at n s i nd T) as (s1 & Hc & nd1 & ps & Hi1 & Hs1 & Ht1 & Hv1 & _ & Hp1 & Ho1); eauto.
  pose proof (can_ok n s s1 Hok Hc) as Hok1. destruct (proj2 Hok1 i nd1 Hi1) as [Hme1 Hpe1 _ _ _ _ _ _ _ _].
  assert (i < n)%nat as Hin by (destruct Hok as [<- _]; by eapply lookup_lt_Some).
  destruct (others_spec n i (rf nd1) Hme1 Hpe1 Hin) as (Hnd & Hoth & Hlen).
  pose proof (Z.mul_div_le (Z.of_nat n) 2 ltac:(lia)).
  pose proof (Z.mul_succ_div_gt (Z.of_nat n) 2 ltac:(lia)).
  destruct (gather n s1 i nd1 (others (rf nd1)) T ps) as (s2 & [ls Hc2] & Hl); auto.
  - intros j [Hj Hne]%Hoth. split; [done |]. rewrite Ho1 by done.
    destruct (lookup_lt_is_Some_2 (nodes s) j) as [ndj Hndj]; [by destruct Hok as [-> _] |]. eauto.
  - rewrite Hp1. unfold start. by rewrite <- list_fmap_compose.
  - lia.
  - rewrite Hlen. lia.
  - destruct Hc as [ls1 Hc]. exists (ls1 ++ ls), s2. split; [| done]. by rewrite run_app, Hc.
Qed.

(** A cluster of one peer starts no goroutines and stays without leader. *)
Lemma single_inv s : reachable 1 s → procs s = [] ∧ ∀ i nd, nodes s !! i = Some nd → state (rf nd) ≠ Leader.
Proof.
  intros (r & ls & Hr).
  cut (nodes_ok 1 s ∧ procs s = [] ∧ ∀ i nd, nodes s !! i = Some nd → state (rf nd) ≠ Leader); [tauto |].
  apply (run_invariant (λ s, nodes_ok 1 s ∧ procs s = [] ∧ ∀ i nd, nodes s !! i = Some nd → state (rf nd) ≠ Leader)
           ls (init 1 r)); [| | done].
  - intros l s1 s2 (Hok & Hp & Hn) Hs. split; [by eapply nodes_ok_step |].
    destruct Hs as [l s1 i nd nd' gos Hl Hi Ht| | | | | | | |]; try (by rewrite Hp in *).
    assert (i = 0%nat) as ->. { destruct Hok as [Hlen _]. apply lookup_lt_Some in Hi. lia. }
    pose proof (Hn _ _ Hi) as Hnl. destruct (proj2 Hok _ _ Hi) as [Hme Hpe _ _ _ _ _ _ _ _].
    assert (gos = [] ∧ state (rf nd') ≠ Leader) as [-> Hnl'].
    { destruct nd as [rf0 t]. simpl in *. destruct l; simpl in Ht; try done.
      1-2: apply bind_Some in Ht as (? & ? & ?); by simplify_eq/=.
      1-3: destruct t; try done; try (apply bind_Some in Ht as (? & ? & ?)); by simplify_eq/=.
      2: by simplify_eq/=.
      destruct t; try done.
      - unfold ticker_election in Ht. rewrite decide_True in Ht by done. simplify_eq/=. split; [| done].
        unfold others. simpl. rewrite Hpe, Hme. done.
      - unfold ticker_heartbeat in Ht. rewrite decide_False in Ht by done. by simplify_eq/=. }
    simpl. split; [done |]. intros k ndk. rewrite list_lookup_insert. case_decide; [naive_solver | apply Hn].
  - split; [apply nodes_ok_init |]. split; [done |]. intros i nd Hi. simpl in Hi.
    destruct i; simplify_eq/=. done.
Qed.

(** Votes are counted only when a reply to a vote request arrives, and a
    single peer sends none. *)
Lemma single_peer_never_leads (s : State) (i : nat) (T : Z) : reachable 1 s → ¬ leads s i T.
Proof.
  intros Hr (nd & Hi & [= _ Hl%bool_decide_eq_true]). destruct (single_inv s Hr) as [_ Hn]. by apply (Hn i nd).
Qed.

(** C29: from every reachable state of a cluster of at least two peers,
    every peer that is not killed and not leader can become leader: some
    continuation of the run makes it leader of any term above all current
    ones (short of the largest integer).  A cluster of one peer, in contrast,
    never has a leader. *)
Theorem every_peer_electable (n : nat) (s : State) (i : nat) (nd : Node) (T : Z)
    (Hn2 : (2 ≤ n)%nat) (Hn : Z.of_nat n < two63) (Hr : reachable n s)
    (Hi : nodes s !! i = Some nd) (Hal : killed (rf nd) = false) (Hnl : (GetState (rf nd)).2 = false)
    (HT : ∀ j ndj, nodes s !! j = Some ndj → currTerm (rf ndj) < T) (Hb : T < two63) :
  (∃ ls s', run ls s = Some s' ∧ leads s' i T) ∧ (∀ s1 i1 T1, reachable 1 s1 → ¬ leads s1 i1 T1).
Proof. split; [by eapply peer_electable | exact single_peer_never_leads]. Qed.

Lemma every_peer_electable_witness :
  ∃ s nd, run (timeout 0 ++ request 0) (init 3 0) = Some s ∧ nodes s !! 1%nat = Some nd ∧
    ∃ ls s', run ls s = Some s' ∧ leads s' 1 2.
Proof.
  eexists _, _. split; [vm_compute; reflexivity |]. split; [reflexivity |].
  eapply (every_peer_electable 3 _ 1%nat);
    [lia | reflexivity | exists 0, (timeout 0 ++ request 0); vm_compute; reflexivity | reflexivity
    | reflexivity | reflexivity | | reflexivity].
  intros [|[|[|j]]] ndj [= <-]; reflexivity.
Defined.

End RaftProgress.
