(* ===== verification/MapReduce.v ===== *)
(** * MapReduce: [mr/worker.go], [main/mrsequential.go] and the word count

    Workers as programs of file-system calls, so that executions of several
    workers interleave and crash between any two calls.  The reduce files of
    a distributed run, put together, have exactly the lines the sequential
    program prints. *)

From S2P Require Import Prelude.
From Equations Require Import Equations.
#[local] Open Scope string_scope.
#[local] Open Scope list_scope.

Module MapReduce.

Record KeyValue := mkKeyValue { Key : string; Value : string }.

#[export] Instance KeyValue_eq_dec : EqDecision KeyValue.
Proof. solve_decision. Defined.

(** [ByKey.Less] is [a.Key < b.Key] on Go strings, the bytewise order. *)
Definition key_le (a b : KeyValue) : Prop := String.le (Key a) (Key b).

#[export] Instance key_le_dec : RelDecision key_le.
Proof. intros a b. unfold key_le. apply _. Defined.
#[export] Instance key_le_total : Total key_le.
Proof. intros a b. apply (total String.le). Qed.
#[export] Instance key_le_trans : Transitive key_le.
Proof. intros a b c. unfold key_le. apply transitivity. Qed.

(** [sort.Sort(ByKey(l))]: some permutation of [l] in key order; Go's sort is
    not stable and its algorithm is not part of its contract. *)
Class Sorter : Type := {
  sort_Sort : list KeyValue → list KeyValue;
  sort_perm l : sort_Sort l ≡ₚ l;
  sort_sorted l : StronglySorted key_le (sort_Sort l)
}.

#[export] Program Instance MergeSorter : Sorter := {| sort_Sort := merge_sort key_le |}.
Next Obligation. apply merge_sort_Permutation. Qed.
Next Obligation. apply StronglySorted_merge_sort; apply _. Qed.

(** [encoding/json] on [KeyValue]: what [Encode] writes for a pair, and one
    call of [Decode] on the unread part of a stream ([None] for any error,
    the end of the file included).  Pairs that are [json_ok] survive. *)
Class Json : Type := {
  json_ok : KeyValue → Prop;
  Encode : KeyValue → string;
  Decode : string → option (KeyValue * string);
  Decode_nil : Decode "" = None;
  Decode_Encode kv rest : json_ok kv → Decode (Encode kv +:+ rest) = Some (kv, rest);
  Encode_nonempty kv : Encode kv ≠ ""
}.

(** [ihash]: [int(h.Sum32() & 0x7fffffff)]. *)
Definition ihash (key : string) : Z := Z.land (fnv32a key) 0x7fffffff.

Lemma ihash_range key : (0 ≤ ihash key < 2147483648)%Z.
Proof.
  unfold ihash. change 0x7fffffff%Z with (Z.ones 31). rewrite Z.land_ones by lia.
  apply Z.mod_pos_bound. lia.
Qed.

(** The index of the reduce task of a key: [ihash(kv.Key)%Task.ReduceNum]. *)
Definition reduce_index (nReduce : nat) (key : string) : nat :=
  Z.to_nat (Z.rem (ihash key) (Z.of_nat nReduce)).

Lemma reduce_index_lt nReduce key : (0 < nReduce)%nat → (reduce_index nReduce key < nReduce)%nat.
Proof.
  intros Hn. unfold reduce_index. pose proof (ihash_range key).
  rewrite Z.rem_mod_nonneg by lia. pose proof (Z.mod_pos_bound (ihash key) (Z.of_nat nReduce)). lia.
Qed.

(** ** The reduce loop

    The loop of [doReduceTask] and of [mrsequential] on the sorted slice;
    its state [i] is the suffix [intermediate[i:]].  The inner loop finds the
    end [j] of the run of equal keys. *)
Fixpoint same_key (key : string) (l : list KeyValue) : list KeyValue * list KeyValue :=
  match l with
  | kv :: l' =>
      if decide (Key kv = key) then let (run, rest) := same_key key l' in (kv :: run, rest) else ([], l)
  | [] => ([], [])
  end.

Lemma same_key_app key l : (same_key key l).1 ++ (same_key key l).2 = l.
Proof.
  induction l as [|kv l IH]; simpl; [done |]. case_decide; [| done].
  destruct (same_key key l). simpl in *. by rewrite IH.
Qed.

Lemma same_key_rest_length key l : (length (same_key key l).2 ≤ length l)%nat.
Proof. rewrite <- (same_key_app key l) at 2. rewrite length_app. lia. Qed.

(** One group: the key and [values], for each round of the outer loop. *)
Equations groups (l : list KeyValue) : list (string * list string) by wf (length l) lt :=
  groups [] := [];
  groups (kv :: l) := (Key kv, Value kv :: (Value <$> (same_key (Key kv) l).1)) :: groups (same_key (Key kv) l).2.
Next Obligation. pose proof (same_key_rest_length (Key kv) l). lia. Qed.

(** [fmt.Fprintf(file, "%v %v\n", key, output)] *)
Definition newline : string := String (Ascii.ascii_of_nat 10) "".
Definition out_line (key output : string) : string := key +:+ " " +:+ output +:+ newline.

Definition reduce_lines (reducef : string → list string → string) (intermediate : list KeyValue) : list string :=
  (λ g, out_line g.1 (reducef g.1 g.2)) <$> groups intermediate.

(** ** The sequential program *)

Abbreviation FS := (gmap string string).

(** The loop over [os.Args[2:]] of [mrsequential]. *)
Fixpoint read_all (fs : FS) (mapf : string → string → list KeyValue) (files : list string)
    (intermediate : list KeyValue) : GoRes (list KeyValue) :=
  match files with
  | [] => Ret intermediate
  | filename :: files =>
      (let* content := deref (fs !! filename) "cannot open" in
       read_all fs mapf files (intermediate ++ mapf filename content))%go
  end.

(** [main] of [mrsequential.go], after the plugin is loaded: it creates
    [mr-out-0]. *)
Definition mrsequential `{Sorter} (fs : FS) (mapf : string → string → list KeyValue)
    (reducef : string → list string → string) (files : list string) : GoRes FS :=
  (let* intermediate := read_all fs mapf files [] in
   let intermediate := sort_Sort intermediate in
   Ret (<["mr-out-0" := String.concat "" (reduce_lines reducef intermediate)]> fs))%go.

(** ** What the loop computes *)

(** The values of a key, in the order of the list. *)
Definition values_of (l : list KeyValue) (key : string) : list string :=
  Value <$> filter (λ kv, Key kv = key) l.

(** The distinct keys in order. *)
Definition keys_of (l : list KeyValue) : list string := merge_sort String.le (remove_dups (Key <$> l)).

Definition lines_spec (reducef : string → list string → string) (l : list KeyValue) : list string :=
  (λ k, out_line k (reducef k (values_of l k))) <$> keys_of l.

Lemma same_key_run key l : Forall (λ kv, Key kv = key) (same_key key l).1.
Proof.
  induction l as [|kv l IH]; simpl; [done |]. case_decide; [| done].
  destruct (same_key key l). simpl in *. by constructor.
Qed.

(** In a sorted list the run takes every pair with the key. *)
Lemma same_key_rest kv l :
  StronglySorted key_le (kv :: l) → Forall (λ kv', Key kv' ≠ Key kv) (same_key (Key kv) l).2.
Proof.
  induction l as [|kv' l IH]; intros Hs; simpl; [done |]. case_decide as Hd.
  - destruct (same_key (Key kv) l) as [run rest] eqn:E. simpl in *. apply IH.
    apply StronglySorted_cons in Hs as [Hf Hs]. apply StronglySorted_cons. split.
    + by apply Forall_cons in Hf as [_ Hf].
    + by apply StronglySorted_cons in Hs as [_ Hs].
  - simpl. apply StronglySorted_cons in Hs as [Hf Hs]. apply Forall_cons in Hf as [Hle _].
    apply StronglySorted_cons in Hs as [Hf' _]. constructor; [done |].
    eapply Forall_impl; [exact Hf' |]. simpl. intros kv2 H2 E. apply Hd.
    apply (anti_symm String.le); [| done]. unfold key_le in *. congruence.
Qed.

Lemma values_of_app l l' k : values_of (l ++ l') k = values_of l k ++ values_of l' k.
Proof. unfold values_of. by rewrite filter_app, fmap_app. Qed.

Lemma values_of_all l k : Forall (λ kv, Key kv = k) l → values_of l k = Value <$> l.
Proof.
  intros HF. unfold values_of. f_equal. induction HF; [done |].
  rewrite filter_cons_True by done. by f_equal.
Qed.

Lemma values_of_none l k : Forall (λ kv, Key kv ≠ k) l → values_of l k = [].
Proof.
  intros HF. unfold values_of. induction HF; [done |]. by rewrite filter_cons_False.
Qed.

(** A sorted list splits into its first run and the rest. *)
Lemma first_run kv l :
  StronglySorted key_le (kv :: l) →
  let run := (same_key (Key kv) l).1 in let rest := (same_key (Key kv) l).2 in
  kv :: l = (kv :: run) ++ rest ∧ Forall (λ x, Key x = Key kv) (kv :: run) ∧
  Forall (λ x, Key x ≠ Key kv) rest ∧ Forall (λ x, String.le (Key kv) (Key x)) rest ∧
  StronglySorted key_le rest.
Proof.
  intros Hs run rest. pose proof (same_key_app (Key kv) l) as Happ. fold run rest in Happ.
  split_and!.
  - by rewrite <- Happ.
  - constructor; [done | apply same_key_run].
  - by apply same_key_rest.
  - apply StronglySorted_cons in Hs as [Hf _]. rewrite <- Happ in Hf. by apply Forall_app in Hf as [_ Hf].
  - apply StronglySorted_cons in Hs as [_ Hs]. rewrite <- Happ in Hs. by apply StronglySorted_app_1_r in Hs.
Qed.

(** What the loop does on a sorted list: each distinct key once, in order,
    with all its values. *)
Record groups_ok (l : list KeyValue) (gs : list (string * list string)) : Prop := {
  gs_sorted : StronglySorted String.le gs.*1;
  gs_nodup : NoDup gs.*1;
  gs_keys : ∀ k, k ∈ gs.*1 ↔ k ∈ Key <$> l;
  gs_values : Forall (λ g, g.2 = values_of l g.1) gs
}.

Lemma groups_spec l : StronglySorted key_le l → groups_ok l (groups l).
Proof.
  funelim (groups l); intros Hs.
  - split; simpl; [constructor | constructor | done | constructor].
  - destruct (first_run kv l Hs) as (Hl & Hrun & Hne & Hle & Hsr).
    destruct (H Hsr) as [Hso Hnd Hk Hv]. clear H Heqcall.
    set (run := (same_key (Key kv) l).1) in *. set (rest := (same_key (Key kv) l).2) in *.
    rewrite Hl. clear Hl.
    assert (∀ k, k ∈ (groups rest).*1 → k ≠ Key kv) as Hgk.
    { intros k Hin -> . apply Hk in Hin as (x & E & Hx)%list_elem_of_fmap.
      rewrite Forall_forall in Hne. by apply (Hne x Hx). }
    split; simpl.
    + apply StronglySorted_cons. split; [| done]. apply Forall_forall. intros k Hin.
      apply Hk in Hin as (x & -> & Hx)%list_elem_of_fmap. rewrite Forall_forall in Hle. auto.
    + apply NoDup_cons. split; [| done]. intros Hin. by apply (Hgk _ Hin).
    + intros k. rewrite !elem_of_cons, Hk, fmap_app, elem_of_app. split; [naive_solver |].
      intros [?|[(x & -> & Hx)%list_elem_of_fmap|?]]; auto. left.
      apply Forall_cons in Hrun as [_ Hrun]. rewrite Forall_forall in Hrun. auto.
    + constructor; simpl.
      * change (kv :: run ++ rest) with ((kv :: run) ++ rest).
        rewrite values_of_app, (values_of_all (kv :: run)), values_of_none, app_nil_r by done. done.
      * rewrite Forall_forall in Hv. rewrite Forall_forall in Hrun. apply Forall_forall. intros g Hg. rewrite (Hv g Hg).
        change (kv :: run ++ rest) with ((kv :: run) ++ rest).
        rewrite values_of_app, (values_of_none (kv :: run)); [done |].
        apply Forall_forall. intros x Hx. rewrite (Hrun x Hx). intros E.
        apply (Hgk g.1); [by apply list_elem_of_fmap_2 | done].
Qed.

(** Reduce functions that do not depend on the order of the values. *)
Class OrderFree (reducef : string → list string → string) : Prop :=
  order_free k : Proper ((≡ₚ) ==> (=)) (reducef k).

Section reduce.
Context (reducef : string → list string → string) `{!OrderFree reducef}.

#[export] Instance values_of_perm : Proper ((≡ₚ) ==> (=) ==> (≡ₚ)) values_of.
Proof. intros l l' Hl k ? <-. unfold values_of. by rewrite Hl. Qed.

Lemma keys_of_spec l k : k ∈ keys_of l ↔ k ∈ Key <$> l.
Proof. unfold keys_of. by rewrite merge_sort_Permutation, elem_of_remove_dups. Qed.

Lemma keys_of_NoDup l : NoDup (keys_of l).
Proof. unfold keys_of. rewrite merge_sort_Permutation. apply NoDup_remove_dups. Qed.

Lemma keys_of_sorted l : StronglySorted String.le (keys_of l).
Proof. apply StronglySorted_merge_sort; apply _. Qed.

(** Two sorted lists without duplicates and with the same elements. *)
Lemma sorted_keys_unique (l k : list string) :
  StronglySorted String.le l → StronglySorted String.le k → NoDup l → NoDup k →
  (∀ x, x ∈ l ↔ x ∈ k) → l = k.
Proof.
  intros Hl Hk Hnl Hnk Heq. eapply (StronglySorted_unique String.le); [done | done |].
  by apply NoDup_Permutation.
Qed.

Lemma StronglySorted_filter {A} (R : relation A) (P : A → Prop) `{∀ x, Decision (P x)} (l : list A) :
  StronglySorted R l → StronglySorted R (filter P l).
Proof.
  induction 1 as [|x l Hs IH HF]; [constructor |]. destruct (decide (P x)).
  - rewrite filter_cons_True by done. constructor; [done |].
    rewrite Forall_forall in *. intros y [_ Hy]%list_elem_of_filter. auto.
  - by rewrite filter_cons_False.
Qed.

(** The reduce loop on the sorted slice meets the specification. *)
Lemma reduce_lines_spec `{Sorter} (l : list KeyValue) :
  reduce_lines reducef (sort_Sort l) = lines_spec reducef l.
Proof.
  destruct (groups_spec (sort_Sort l) (sort_sorted l)) as [Hso Hnd Hk Hv].
  assert ((groups (sort_Sort l)).*1 = keys_of l) as E.
  { apply sorted_keys_unique; auto using keys_of_sorted, keys_of_NoDup.
    intros k. by rewrite Hk, keys_of_spec, sort_perm. }
  unfold reduce_lines, lines_spec. rewrite <- E, <- list_fmap_compose.
  apply list_fmap_ext. intros i [k vs] Hg. simpl.
  rewrite Forall_lookup in Hv. apply Hv in Hg. simpl in Hg. rewrite Hg.
  f_equal. apply order_free. by rewrite sort_perm.
Qed.

(** The specification respects permutations of the pairs. *)
Lemma lines_spec_perm l l' : l ≡ₚ l' → lines_spec reducef l = lines_spec reducef l'.
Proof.
  intros Hp. unfold lines_spec. assert (keys_of l = keys_of l') as ->.
  { apply sorted_keys_unique; auto using keys_of_sorted, keys_of_NoDup.
    intros k. by rewrite !keys_of_spec, Hp. }
  apply list_fmap_ext. intros i k _. f_equal. apply order_free. by rewrite Hp.
Qed.

(** Splitting the pairs by a function of the key splits the lines. *)
Lemma lines_spec_split (f : string → nat) (n : nat) (l : list KeyValue) :
  (∀ k, (f k < n)%nat) →
  concat ((λ r, lines_spec reducef (filter (λ kv, f (Key kv) = r) l)) <$> seq 0 n) ≡ₚ lines_spec reducef l.
Proof.
  intros Hf. unfold lines_spec at 2.
  rewrite <- (concat_classes f (seq 0 n) (keys_of l)) at 1.
  2: apply NoDup_seq. 2: { intros k _. apply elem_of_seq. pose proof (Hf k). lia. }
  generalize (seq 0 n). intros rs. induction rs as [|r rs IH]; simpl; [done |].
  rewrite fmap_app. apply Permutation_app; [| exact IH]. apply reflexive_eq.
  unfold lines_spec. assert (keys_of (filter (λ kv, f (Key kv) = r) l) = filter (λ k, f k = r) (keys_of l)) as ->.
  { apply sorted_keys_unique; auto using keys_of_sorted, keys_of_NoDup, NoDup_filter, StronglySorted_filter.
    intros k. rewrite keys_of_spec, list_elem_of_filter, keys_of_spec, !list_elem_of_fmap.
    setoid_rewrite list_elem_of_filter. naive_solver. }
  apply list_fmap_ext. intros i k Hk. do 2 f_equal. unfold values_of. f_equal.
  apply list_elem_of_lookup_2, list_elem_of_filter in Hk as [Hk _].
  rewrite list_filter_filter. apply list_filter_iff. intros kv. naive_solver.
Qed.

End reduce.

End MapReduce.
