(* ===== verification/MRWorker.v ===== *)
(** * MapReduce workers and their files: [mr/worker.go]

    [doMapTask] and [doReduceTask] as programs of file-system calls, the
    system of workers that run, interleave and crash, and its output compared
    with that of the sequential program. *)

From S2P Require Import Prelude MapReduce.
#[local] Open Scope string_scope.
#[local] Open Scope list_scope.

Module MRWorker.
Import MapReduce.

(** ** Tasks ([mr/coordinator.go]) *)

Definition WaitingTask : Z := 0.
Definition MapPhase : Z := 1.
Definition ReducePhase : Z := 2.
Definition DoneTask : Z := 3.

(** Task numbers are loop indices: natural numbers. *)
Record Task := mkTask { Taskid : nat; Filename : string; TaskType : Z; ReduceNum : nat }.

#[export] Instance Task_eq_dec : EqDecision Task.
Proof. solve_decision. Defined.

Definition MakeMapTask (s : string) (i : nat) (nReduce : nat) : Task := mkTask i s MapPhase nReduce.
Definition MakeReduceTask (i : nat) (nReduce : nat) : Task := mkTask i "" ReducePhase nReduce.

(** ** Programs

    What a worker does to the world: [os.Open] with reading to the end,
    [os.CreateTemp], one write to a file, [os.Rename], and the RPC
    [Coordinator.MarkTaskDone]. *)
Inductive Prog : Type :=
| Return
| Fatal (msg : string)
| Open (name : string) (k : option string → Prog)
| CreateTemp (pattern : string) (k : string → Prog)
| Append (name data : string) (k : Prog)
| Rename (from to : string) (k : Prog)
| MarkTaskDone (taskid : nat) (k : Prog).

Definition itoa (n : nat) : string := Itoa (Z.of_nat n).
Definition bucket_file (i r : nat) : string := "mr-" +:+ itoa i +:+ "-" +:+ itoa r.
Definition out_file (r : nat) : string := "mr-out-" +:+ itoa r.

Definition reportTaskDone (task : Task) : Prog := MarkTaskDone (Taskid task) Return.

Section worker.
Context `{Json, Sorter}.

(** The loop that fills [HashKeyID]. *)
Definition hash_step (nReduce : nat) (HashKeyID : list (list KeyValue)) (kv : KeyValue) : list (list KeyValue) :=
  alter (λ b, b ++ [kv]) (reduce_index nReduce (Key kv)) HashKeyID.

Definition hash_pairs (nReduce : nat) (intermediate : list KeyValue) : list (list KeyValue) :=
  foldl (hash_step nReduce) (replicate nReduce []) intermediate.

(** [enc.Encode(kv)] for each pair, each a write. *)
Definition encode_all (tmp : string) (kvs : list KeyValue) (k : Prog) : Prog :=
  foldr (λ kv p, Append tmp (Encode kv) p) k kvs.

(** The loop over the buckets, from bucket [i] on. *)
Fixpoint write_buckets (taskid : nat) (i : nat) (buckets : list (list KeyValue)) (k : Prog) : Prog :=
  match buckets with
  | [] => k
  | kvs :: buckets =>
      CreateTemp "mr-tmp-" (λ tmp,
        encode_all tmp kvs (Rename tmp (bucket_file taskid i) (write_buckets taskid (S i) buckets k)))
  end.

Definition doMapTask (task : Task) (mapf : string → string → list KeyValue) : Prog :=
  let filename := Filename task in
  Open filename (λ content,
    match content with
    | None => Fatal "cannot open"
    | Some content =>
        let intermediate := mapf filename content in
        if decide (ReduceNum task = 0%nat ∧ intermediate ≠ []) then Fatal "integer divide by zero"
        else write_buckets (Taskid task) 0 (hash_pairs (ReduceNum task) intermediate) (reportTaskDone task)
    end).

(** The [Decode] loop over a file; each successful call takes at least one
    byte, so the length of the file bounds the rounds. *)
Fixpoint decode_loop (fuel : nat) (s : string) : list KeyValue :=
  match fuel with
  | O => []
  | S fuel => match Decode s with Some (kv, s) => kv :: decode_loop fuel s | None => [] end
  end.
Definition decode_all (s : string) : list KeyValue := decode_loop (S (String.length s)) s.

(** The loop over the [n] input files from file [i] on. *)
Fixpoint read_inputs (taskid : nat) (i n : nat) (intermediate : list KeyValue)
    (k : list KeyValue → Prog) : Prog :=
  match n with
  | O => k intermediate
  | S n =>
      Open (bucket_file i taskid) (λ c,
        match c with
        | None => Fatal "cannot create"
        | Some s => read_inputs taskid (S i) n (intermediate ++ decode_all s) k
        end)
  end.

Definition write_lines (tmp : string) (lines : list string) (k : Prog) : Prog :=
  foldr (λ l p, Append tmp l p) k lines.

Definition doReduceTask (task : Task) (reducef : string → list string → string) (lenfiles : nat) : Prog :=
  read_inputs (Taskid task) 0 lenfiles [] (λ intermediate,
    let intermediate := sort_Sort intermediate in
    CreateTemp "mr-out-tmp-" (λ tmp,
      write_lines tmp (reduce_lines reducef intermediate)
        (Rename tmp (out_file (Taskid task)) (reportTaskDone task)))).

End worker.

(** ** Workers running together *)

Record State := mkState {
  fs : FS;
  workers : list (Task * Prog);
  reported : list Task            (** the tasks [MarkTaskDone] was called for *)
}.

(** One call of a worker's program, with the names it concerns. *)
Inductive prog_step : FS → Prog → FS → Prog → option nat → Prop :=
| ps_Open f name k : prog_step f (Open name k) f (k (f !! name)) None
| ps_CreateTemp f pattern k t :
    f !! t = None → (∃ suffix, t = pattern +:+ suffix) →
    prog_step f (CreateTemp pattern k) (<[t := ""]> f) (k t) None
| ps_Append f name data k c :
    f !! name = Some c → prog_step f (Append name data k) (<[name := c +:+ data]> f) k None
| ps_Rename f from to k c :
    f !! from = Some c → prog_step f (Rename from to k) (<[to := c]> (delete from f)) k None
| ps_MarkTaskDone f id k : prog_step f (MarkTaskDone id k) f k (Some id).

Section system.
Context `{Json, Sorter}.
Context (files : list string) (nReduce : nat).
Context (mapf : string → string → list KeyValue) (reducef : string → list string → string).

Definition map_task (i : nat) (f : string) : Task := MakeMapTask f i nReduce.
Definition reduce_task (r : nat) : Task := MakeReduceTask r nReduce.

Definition maps_reported (s : State) : Prop :=
  ∀ i f, files !! i = Some f → map_task i f ∈ reported s.

(** A step: a worker starts a task (a task may be started again at any time;
    reduce tasks once all map tasks are reported; the order in which [Map]
    emits pairs may differ between executions), makes a call, or dies. *)
Inductive step : State → State → Prop :=
| start_map s i f mapf' :
    files !! i = Some f → (∀ n c, mapf' n c ≡ₚ mapf n c) →
    step s (mkState (fs s) (workers s ++ [(map_task i f, doMapTask (map_task i f) mapf')]) (reported s))
| start_reduce s r :
    (r < nReduce)%nat → maps_reported s →
    step s (mkState (fs s)
      (workers s ++ [(reduce_task r, doReduceTask (reduce_task r) reducef (length files))]) (reported s))
| work s w task p f' p' :
    workers s !! w = Some (task, p) → prog_step (fs s) p f' p' None →
    step s (mkState f' (<[w := (task, p')]> (workers s)) (reported s))
| work_report s w task p f' p' id :
    workers s !! w = Some (task, p) → prog_step (fs s) p f' p' (Some id) →
    step s (mkState f' (<[w := (task, p')]> (workers s)) (task :: reported s))
| crash s w task p :
    workers s !! w = Some (task, p) →
    step s (mkState (fs s) (<[w := (task, Return)]> (workers s)) (reported s)).

End system.

(** ** File names *)

Lemma itoa_digits n : digits (itoa n).
Proof. apply Itoa_digits. lia. Qed.

#[export] Instance itoa_inj : Inj (=) (=) itoa.
Proof. intros a b Hab. apply (inj Itoa) in Hab. lia. Qed.

Lemma bucket_file_inj i r i' r' : bucket_file i r = bucket_file i' r' → i = i' ∧ r = r'.
Proof.
  unfold bucket_file. intros E. simpl in E. injection E as E.
  apply digits_dash in E as [E1 E2]; [| apply itoa_digits ..]. split; by apply (inj itoa).
Qed.

Lemma out_file_inj r r' : out_file r = out_file r' → r = r'.
Proof. unfold out_file. intros E. simpl in E. injection E as E. by apply (inj itoa). Qed.

(** A digit or a dash comes right after ["mr-"] in the name of a bucket. *)
Lemma not_bucket i r c s :
  ¬ (48 ≤ Ascii.nat_of_ascii c ≤ 57)%nat → c ≠ Ascii.ascii_of_nat 45 → bucket_file i r ≠ "mr-" +:+ String c s.
Proof.
  intros Hc Hd E. unfold bucket_file in E. simpl in E. injection E as E.
  pose proof (itoa_digits i) as Hi. destruct (itoa i) as [|c' s']; simpl in E; injection E as E _.
  - apply Hd. rewrite <- E. reflexivity.
  - subst c'. destruct Hi. tauto.
Qed.

Definition temp_name (t : string) : Prop :=
  ∃ s, t = "mr-tmp-" +:+ s ∨ t = "mr-out-tmp-" +:+ s.

Lemma temp_not_bucket t i r : temp_name t → t ≠ bucket_file i r.
Proof.
  intros [s [-> | ->]] E; symmetry in E; revert E.
  - apply (not_bucket i r (Ascii.ascii_of_nat 116) ("mp-" +:+ s)); [vm_compute; lia | done].
  - apply (not_bucket i r (Ascii.ascii_of_nat 111) ("ut-tmp-" +:+ s)); [vm_compute; lia | done].
Qed.

Lemma temp_not_out t r : temp_name t → t ≠ out_file r.
Proof.
  unfold out_file. intros [s [-> | ->]] E; simpl in E; [discriminate |]. injection E as E.
  assert (digits ("" +:+ itoa r)) as Hr by apply itoa_digits. rewrite <- E in Hr. destruct Hr as [Hr _]. vm_compute in Hr. lia.
Qed.

Lemma bucket_not_out i r r' : bucket_file i r ≠ out_file r'.
Proof. apply (not_bucket i r (Ascii.ascii_of_nat 111) ("ut-" +:+ itoa r')); [vm_compute; lia | done]. Qed.

(** ** Buckets and their encoding *)

Section codec.
Context `{Json}.

Lemma hash_step_length n b kv : length (hash_step n b kv) = length b.
Proof. unfold hash_step. apply length_alter. Qed.

Lemma hash_pairs_lookup n l r :
  (r < n)%nat → hash_pairs n l !! r = Some (filter (λ kv, reduce_index n (Key kv) = r) l).
Proof.
  intros Hr. unfold hash_pairs. induction l as [|kv l IH] using rev_ind.
  - simpl. by apply lookup_replicate_2.
  - rewrite foldl_app. simpl. unfold hash_step at 1. rewrite filter_app.
    destruct (decide (reduce_index n (Key kv) = r)) as [He|Hne].
    + rewrite He, list_lookup_alter_eq, IH. simpl. by rewrite filter_cons_True.
    + rewrite list_lookup_alter_ne by done. rewrite IH, filter_cons_False by done. by rewrite app_nil_r.
Qed.

Lemma hash_pairs_length n l : length (hash_pairs n l) = n.
Proof.
  unfold hash_pairs. transitivity (length (replicate n (@nil KeyValue))); [| apply length_replicate].
  generalize (replicate n (@nil KeyValue)).
  induction l as [|kv l IH]; intros b; simpl; [done |]. by rewrite IH, hash_step_length.
Qed.

Definition encoded (kvs : list KeyValue) : string := String.concat "" (Encode <$> kvs).

Lemma encoded_cons kv kvs : encoded (kv :: kvs) = Encode kv +:+ encoded kvs.
Proof. unfold encoded. rewrite fmap_cons. apply string_concat_cons. Qed.

Lemma decode_loop_encoded kvs fuel :
  Forall json_ok kvs → (length kvs < fuel)%nat → decode_loop fuel (encoded kvs) = kvs.
Proof.
  revert fuel. induction kvs as [|kv kvs IH]; intros [|fuel] Hok Hf; simpl in Hf; try lia.
  - cbn. by rewrite Decode_nil.
  - apply Forall_cons in Hok as [Hkv Hok]. rewrite encoded_cons. cbn [decode_loop].
    rewrite Decode_Encode by done. f_equal. apply IH; [done | lia].
Qed.

Lemma encoded_length kvs : (length kvs ≤ String.length (encoded kvs))%nat.
Proof.
  induction kvs as [|kv kvs IH]; [simpl; lia |]. rewrite encoded_cons, string_length_app.
  pose proof (Encode_nonempty kv) as Hne. destruct (Encode kv); [done |]. simpl in *. lia.
Qed.

(** Decoding a file gives back the pairs that were encoded. *)
Lemma decode_all_encoded kvs : Forall json_ok kvs → decode_all (encoded kvs) = kvs.
Proof. intros Hok. apply decode_loop_encoded; [done |]. pose proof (encoded_length kvs). lia. Qed.

End codec.

(** Some longer name is always free for a temporary file. *)
Lemma names_bounded (X : gset string) : ∃ n, ∀ x, x ∈ X → (String.length x < n)%nat.
Proof.
  induction X as [|x X _ [n Hn]] using set_ind_L; [exists 0%nat; set_solver |].
  exists (S (String.length x + n)). intros y [->%elem_of_singleton|Hy]%elem_of_union; [lia |].
  specialize (Hn y Hy). lia.
Qed.

Fixpoint padding (n : nat) : string := match n with O => "" | S n => "0" +:+ padding n end.

Lemma padding_length n : String.length (padding n) = n.
Proof. induction n as [|n IH]; [done |]. cbn [padding]. by rewrite string_length_app, IH. Qed.

Lemma temp_available (f : FS) pattern : ∃ suffix, f !! (pattern +:+ suffix) = None.
Proof.
  destruct (names_bounded (dom f)) as [n Hn]. exists (padding n). apply not_elem_of_dom. intros Hin.
  apply Hn in Hin. rewrite string_length_app, padding_length in Hin. lia.
Qed.

(** ** The files a job may produce *)

Section job.
Context `{Json, Sorter}.
Context (files : list string) (nReduce : nat).
Context (mapf : string → string → list KeyValue) (reducef : string → list string → string).
Context `{!OrderFree reducef}.
(** The input files, in a directory that has no files of another job. *)
Context (fs0 : FS).

(** The pairs [Map] emits for an input file, those of them for reduce task
    [r], and all of the job. *)
Definition pairs (f : string) : list KeyValue :=
  match fs0 !! f with Some c => mapf f c | None => [] end.
Definition for_reduce (r : nat) (l : list KeyValue) : list KeyValue :=
  filter (λ kv, reduce_index nReduce (Key kv) = r) l.
Definition all_pairs : list KeyValue := concat (pairs <$> files).

(** The lines of [mr-out-r]. *)
Definition lines_of (r : nat) : list string := lines_spec reducef (for_reduce r all_pairs).

Record job_ok : Prop := {
  jo_reduce : (0 < nReduce)%nat;
  jo_inputs : ∀ f, f ∈ files → is_Some (fs0 !! f) ∧ ∀ s, f ≠ "mr-" +:+ s;
  jo_json : ∀ f kv, f ∈ files → kv ∈ pairs f → json_ok kv;
  jo_fresh : ∀ s, fs0 !! ("mr-" +:+ s) = None
}.

(** A file of the job with the right contents: a bucket holds the encoding
    of its pairs in some order, an output its lines, an input is as it was. *)
Definition good (name c : string) : Prop :=
  (∀ i r f, files !! i = Some f → (r < nReduce)%nat → name = bucket_file i r →
     ∃ kvs, kvs ≡ₚ for_reduce r (pairs f) ∧ c = encoded kvs) ∧
  (∀ r, (r < nReduce)%nat → name = out_file r → c = String.concat "" (lines_of r)) ∧
  (name ∈ files → fs0 !! name = Some c).

(** The files a task produces. *)
Definition outputs (task : Task) : gset string :=
  if decide (TaskType task = MapPhase) then list_to_set (bucket_file (Taskid task) <$> seq 0 nReduce)
  else {[ out_file (Taskid task) ]}.

(** What a task may find when it opens a file: inputs exist, and a reduce
    task runs when all buckets do. *)
Definition found (task : Task) (name : string) (c : option string) : Prop :=
  match c with
  | Some c => good name c
  | None => (name ∉ files) ∧
            (TaskType task = ReducePhase → ∀ i r f, files !! i = Some f → (r < nReduce)%nat → name ≠ bucket_file i r)
  end.

(** [safe task p own did]: the program [p], with its temporary files [own]
    and having produced [did], only makes calls on its own temporary files,
    renames them to good files, reports after producing all outputs, and does
    not die. *)
Fixpoint safe (task : Task) (p : Prog) (own : FS) (did : gset string) : Prop :=
  match p with
  | Return => True
  | Fatal _ => False
  | Open name k => ∀ c, found task name c → safe task (k c) own did
  | CreateTemp pattern k =>
      (pattern = "mr-tmp-" ∨ pattern = "mr-out-tmp-") ∧
      ∀ t, temp_name t → own !! t = None → safe task (k t) (<[t := ""]> own) did
  | Append t data k => ∃ c, own !! t = Some c ∧ safe task k (<[t := c +:+ data]> own) did
  | Rename t o k =>
      ∃ c, own !! t = Some c ∧ good o c ∧ ¬ temp_name o ∧ (o ∉ files) ∧ safe task k (delete t own) ({[o]} ∪ did)
  | MarkTaskDone _ k => outputs task ⊆ did ∧ safe task k own did
  end.

Lemma safe_encode_all task t kvs k own did c :
  own !! t = Some c → safe task k (<[t := c +:+ encoded kvs]> own) did →
  safe task (encode_all t kvs k) own did.
Proof.
  revert own c. induction kvs as [|kv kvs IH]; intros own c Hc Hk; simpl.
  - unfold encoded in Hk. simpl in Hk. rewrite string_app_nil_r, insert_id in Hk; done.
  - exists c. split; [done |]. eapply IH; [by rewrite lookup_insert_eq |].
    rewrite insert_insert_eq, <- string_app_assoc. by rewrite encoded_cons in Hk.
Qed.

Lemma safe_write_lines task t lines k own did c :
  own !! t = Some c → safe task k (<[t := c +:+ String.concat "" lines]> own) did →
  safe task (write_lines t lines k) own did.
Proof.
  revert own c. induction lines as [|l lines IH]; intros own c Hc Hk; simpl.
  - simpl in Hk. rewrite string_app_nil_r, insert_id in Hk; done.
  - exists c. split; [done |]. eapply IH; [by rewrite lookup_insert_eq |].
    rewrite insert_insert_eq, <- string_app_assoc. by rewrite string_concat_cons in Hk.
Qed.

Lemma good_bucket i r f kvs :
  job_ok → files !! i = Some f → kvs ≡ₚ for_reduce r (pairs f) → good (bucket_file i r) (encoded kvs).
Proof.
  intros Hj Hi Hp. split_and!.
  - intros i' r' f' Hi' _ E. apply bucket_file_inj in E as [<- <-]. simplify_eq. eauto.
  - intros r' _ E. by apply bucket_not_out in E.
  - intros Hin. apply (jo_inputs Hj) in Hin as [_ Hn]. by destruct (Hn (itoa i +:+ "-" +:+ itoa r)).
Qed.

Lemma good_out r : job_ok → good (out_file r) (String.concat "" (lines_of r)).
Proof.
  intros Hj. split_and!.
  - intros i r' f _ _ E. symmetry in E. by apply bucket_not_out in E.
  - by intros r' _ ->%out_file_inj.
  - intros Hin. apply (jo_inputs Hj) in Hin as [_ Hn]. by destruct (Hn ("out-" +:+ itoa r)).
Qed.

Lemma generated_not_input name s : job_ok → name = "mr-" +:+ s → name ∉ files.
Proof. intros Hj -> Hin. apply (jo_inputs Hj) in Hin as [_ Hn]. by apply (Hn s). Qed.

(** The map program. *)
Lemma safe_write_buckets task f i bs k own did :
  job_ok → files !! (Taskid task) = Some f →
  (∀ j b, bs !! j = Some b → b ≡ₚ for_reduce (i + j) (pairs f)) →
  (∀ did', (∀ j, (j < length bs)%nat → bucket_file (Taskid task) (i + j) ∈ did') → did ⊆ did' →
     safe task k own did') →
  safe task (write_buckets (Taskid task) i bs k) own did.
Proof.
  intros Hj Hf. revert i did. induction bs as [|b bs IH]; intros i did Hb Hk; simpl.
  - apply Hk; [simpl; lia | done].
  - split; [by left |]. intros t Ht Hown. eapply safe_encode_all; [by rewrite lookup_insert_eq |].
    rewrite insert_insert_eq. simpl. eexists. rewrite lookup_insert_eq. split; [done |].
    rewrite delete_insert_id by done. split_and!.
    + eapply good_bucket; [done | done |]. specialize (Hb 0%nat b eq_refl). by rewrite Nat.add_0_r in Hb.
    + intros Htmp. by apply (temp_not_bucket _ (Taskid task) i Htmp).
    + by eapply generated_not_input.
    + apply IH.
      * intros j b' Hb'. specialize (Hb (S j) b' Hb'). by rewrite Nat.add_succ_r in Hb.
      * intros did' Hdid Hsub. apply Hk; [| set_solver]. intros [|j] Hlt; simpl in Hlt.
        -- rewrite Nat.add_0_r. set_solver.
        -- rewrite Nat.add_succ_r. apply (Hdid j). lia.
Qed.

Lemma safe_doMapTask i f mapf' :
  job_ok → files !! i = Some f → (∀ n c, mapf' n c ≡ₚ mapf n c) →
  safe (map_task nReduce i f) (doMapTask (map_task nReduce i f) mapf') ∅ ∅.
Proof.
  intros Hj Hf Hm. simpl. intros c Hc.
  assert (f ∈ files) as Hin by (by eapply list_elem_of_lookup_2).
  destruct c as [c|]; [| by destruct Hc]. destruct Hc as (_ & _ & Hc). specialize (Hc Hin).
  pose proof (jo_reduce Hj). rewrite decide_False by lia.
  apply (safe_write_buckets (map_task nReduce i f) f); [done | done | |].
  - intros j b Hb. simpl. assert (j < nReduce)%nat as Hlt.
    { rewrite <- (hash_pairs_length nReduce (mapf' f c)). by eapply lookup_lt_Some. }
    rewrite hash_pairs_lookup in Hb by done. injection Hb as <-.
    unfold for_reduce, pairs. rewrite Hc. by rewrite Hm.
  - intros did' Hdid _. simpl. split; [| done]. unfold outputs. simpl.
    rewrite hash_pairs_length in Hdid. intros x. rewrite elem_of_list_to_set.
    intros (r & -> & Hr%elem_of_seq)%list_elem_of_fmap. apply Hdid. lia.
Qed.

(** The reduce program. *)
Lemma safe_read_inputs task i n acc k own did :
  job_ok → TaskType task = ReducePhase → (Taskid task < nReduce)%nat → (i + n)%nat = length files →
  acc ≡ₚ for_reduce (Taskid task) (concat (pairs <$> take i files)) →
  (∀ l, l ≡ₚ for_reduce (Taskid task) all_pairs → safe task (k l) own did) →
  safe task (read_inputs (Taskid task) i n acc k) own did.
Proof.
  intros Hj Hty Hr. revert i acc. induction n as [|n IH]; intros i acc Hlen Hacc Hk; simpl.
  - apply Hk. rewrite Hacc. unfold all_pairs. by rewrite take_ge by lia.
  - destruct (lookup_lt_is_Some_2 files i) as [f Hf]; [lia |]. intros c Hc. destruct c as [c|].
    2: { destruct Hc as [_ Hc]. by destruct (Hc Hty i (Taskid task) f). }
    destruct Hc as [Hc _]. destruct (Hc i (Taskid task) f Hf Hr eq_refl) as (kvs & Hkvs & ->).
    apply IH; [lia | | done]. rewrite decode_all_encoded.
    + rewrite (take_S_r _ _ f) by done. rewrite fmap_app, concat_app. simpl.
      unfold for_reduce in *. rewrite filter_app, app_nil_r. by rewrite Hacc, Hkvs.
    + rewrite Hkvs. apply Forall_forall. intros kv [_ Hkv]%list_elem_of_filter.
      eapply (jo_json Hj); [by eapply list_elem_of_lookup_2 | done].
Qed.

Lemma safe_doReduceTask r :
  job_ok → (r < nReduce)%nat →
  safe (reduce_task nReduce r) (doReduceTask (reduce_task nReduce r) reducef (length files)) ∅ ∅.
Proof.
  intros Hj Hr. unfold doReduceTask. apply safe_read_inputs; auto.
  intros l Hl. simpl. split; [by right |]. intros t Ht Hown.
  eapply safe_write_lines; [by rewrite lookup_insert_eq |]. rewrite insert_insert_eq. simpl.
  eexists. rewrite lookup_insert_eq. split; [done |]. split_and!.
  - rewrite reduce_lines_spec by done. rewrite (lines_spec_perm reducef l _ Hl). by apply good_out.
  - intros Htmp. by apply (temp_not_out _ r Htmp).
  - by eapply generated_not_input.
  - unfold outputs. simpl. set_solver.
  - done.
Qed.

(** ** The invariant of the system *)

Definition fs_ok (f : FS) : Prop :=
  (∀ name c, f !! name = Some c → good name c) ∧ (∀ name, name ∈ files → is_Some (f !! name)).

Record worker_ok (f : FS) (rep : list Task) (task : Task) (p : Prog) (own : FS) (did : gset string) : Prop := {
  wo_safe : safe task p own did;
  wo_own : own ⊆ f;
  wo_temp : ∀ t, is_Some (own !! t) → temp_name t;
  wo_did : ∀ o, o ∈ did → ¬ temp_name o ∧ is_Some (f !! o);
  wo_maps : TaskType task = ReducePhase → ∀ i n, files !! i = Some n → map_task nReduce i n ∈ rep
}.

Record inv (s : State) (own : nat → FS) (did : nat → gset string) : Prop := {
  inv_fs : fs_ok (fs s);
  inv_reported : ∀ task o, task ∈ reported s → o ∈ outputs task → is_Some (fs s !! o);
  inv_workers : ∀ w task p, workers s !! w = Some (task, p) →
    worker_ok (fs s) (reported s) task p (own w) (did w);
  inv_disjoint : ∀ w w', (w < length (workers s))%nat → (w' < length (workers s))%nat → w ≠ w' →
    own w ##ₘ own w'
}.

Lemma temp_good t c : job_ok → temp_name t → good t c.
Proof.
  intros Hj Ht. split_and!.
  - intros i r f _ _ E. by apply temp_not_bucket with (i := i) (r := r) in Ht.
  - intros r _ E. by apply temp_not_out with (r := r) in Ht.
  - intros Hin. apply (jo_inputs Hj) in Hin as [_ Hn]. destruct Ht as [x [-> | ->]].
    + by destruct (Hn ("tmp-" +:+ x)).
    + by destruct (Hn ("out-tmp-" +:+ x)).
Qed.

Lemma temp_not_input t : job_ok → temp_name t → t ∉ files.
Proof.
  intros Hj [x [-> | ->]] Hin; apply (jo_inputs Hj) in Hin as [_ Hn].
  - by destruct (Hn ("tmp-" +:+ x)).
  - by destruct (Hn ("out-tmp-" +:+ x)).
Qed.

Lemma output_not_temp task o : o ∈ outputs task → ¬ temp_name o.
Proof.
  unfold outputs. case_decide.
  - rewrite elem_of_list_to_set. intros (r & -> & _)%list_elem_of_fmap Ht. by eapply temp_not_bucket.
  - rewrite elem_of_singleton. intros -> Ht. by eapply temp_not_out.
Qed.

(** What a worker finds when it opens a file. *)
Lemma worker_finds f rep task p own did name :
  fs_ok f → (∀ task o, task ∈ rep → o ∈ outputs task → is_Some (f !! o)) →
  worker_ok f rep task p own did → found task name (f !! name).
Proof.
  intros [Hg Hin] Hrep Hw. destruct (f !! name) as [c|] eqn:E; simpl; [auto |]. split.
  - intros Hn. apply Hin in Hn as [? ?]. congruence.
  - intros Hty i r n Hi Hr ->. destruct (Hrep (map_task nReduce i n) (bucket_file i r)) as [? ?]; [| | congruence].
    + by apply (wo_maps _ _ _ _ _ _ Hw).
    + unfold outputs. simpl. rewrite elem_of_list_to_set. apply list_elem_of_fmap. exists r. split; [done |].
      apply elem_of_seq. lia.
Qed.

(** What a call of one worker may change: its own temporary files, new
    ones, and good files under names that are not temporary. *)
Record frame (own own' f f' : FS) : Prop := {
  fr_files : ∀ name, ¬ temp_name name → is_Some (f !! name) → is_Some (f' !! name);
  fr_temps : ∀ t c, temp_name t → own !! t = None → f !! t = Some c → f' !! t = Some c;
  fr_new : ∀ t, is_Some (own' !! t) → is_Some (own !! t) ∨ f !! t = None
}.

Lemma frame_refl own f : frame own own f f.
Proof. split; auto. Qed.

Lemma fs_ok_insert f name c : fs_ok f → good name c → fs_ok (<[name := c]> f).
Proof.
  intros [Hg Hin] Hc. split.
  - intros name' c'. rewrite lookup_insert. case_decide; [naive_solver | apply Hg].
  - intros name' Hn. rewrite lookup_insert. case_decide; eauto.
Qed.

Lemma fs_ok_delete f t : job_ok → temp_name t → fs_ok f → fs_ok (delete t f).
Proof.
  intros Hj Ht [Hg Hin]. split.
  - intros name c. rewrite lookup_delete. case_decide; [done | apply Hg].
  - intros name Hn. rewrite lookup_delete_ne; [auto |]. intros ->. by apply (temp_not_input name Hj Ht).
Qed.

(** Creating or extending a temporary file of its own. *)
Lemma write_temp f rep task p own did t c p' :
  job_ok → fs_ok f → worker_ok f rep task p own did → temp_name t → is_Some (own !! t) ∨ f !! t = None →
  safe task p' (<[t := c]> own) did →
  worker_ok (<[t := c]> f) rep task p' (<[t := c]> own) did ∧ fs_ok (<[t := c]> f) ∧
  frame own (<[t := c]> own) f (<[t := c]> f).
Proof.
  intros Hj Hf [_ Hown Htemp Hdid Hmaps] Htn Ht Hsafe. split_and!; [| by apply fs_ok_insert, temp_good |].
  - split; auto.
    + by apply insert_mono.
    + intros t'. rewrite lookup_insert. case_decide; [by subst | auto].
    + intros o Ho. destruct (Hdid o Ho) as [? ?]. split; [done |]. rewrite lookup_insert_ne; [done |]. naive_solver.
  - split.
    + intros name Hn Hs. rewrite lookup_insert. case_decide; eauto.
    + intros t' c' _ Ho Hc'. rewrite lookup_insert_ne; [done |]. intros <-. destruct Ht as [[? ?]|?]; congruence.
    + intros t'. rewrite lookup_insert. case_decide; [by subst; auto | auto].
Qed.

(** Renaming a finished temporary file. *)
Lemma rename_temp f rep task p own did from to c p' :
  job_ok → fs_ok f → worker_ok f rep task p own did → own !! from = Some c → good to c → ¬ temp_name to →
  safe task p' (delete from own) ({[to]} ∪ did) →
  worker_ok (<[to := c]> (delete from f)) rep task p' (delete from own) ({[to]} ∪ did) ∧
  fs_ok (<[to := c]> (delete from f)) ∧ frame own (delete from own) f (<[to := c]> (delete from f)).
Proof.
  intros Hj Hf [_ Hown Htemp Hdid Hmaps] Hc Hgood Hnt Hsafe.
  assert (temp_name from) as Htn by (apply Htemp; eauto).
  split_and!; [| by apply fs_ok_insert; [apply fs_ok_delete |] |].
  - split; auto.
    + apply map_subseteq_spec. intros t' c2. rewrite lookup_delete_Some. intros [Hne Ht'].
      rewrite lookup_insert_ne, lookup_delete_ne; [by eapply map_subseteq_spec | done |].
      intros <-. apply Hnt, Htemp. eauto.
    + intros t' [c2 [_ Hc2]%lookup_delete_Some]. eauto.
    + intros o [->%elem_of_singleton|Ho]%elem_of_union; [split; [done |]; rewrite lookup_insert_eq; eauto |].
      destruct (Hdid o Ho) as [? ?]. split; [done |]. rewrite lookup_insert. case_decide; [eauto |].
      rewrite lookup_delete_ne; [done |]. naive_solver.
  - split.
    + intros name Hn Hs. rewrite lookup_insert. case_decide; [eauto |].
      rewrite lookup_delete_ne; [done |]. naive_solver.
    + intros t' c2 Ht' Ho Hc2. rewrite lookup_insert_ne, lookup_delete_ne; [done | congruence |]. naive_solver.
    + intros t' [c2 [_ Hc2]%lookup_delete_Some]. eauto.
Qed.

Lemma worker_step f rep task p own did f' p' rp :
  job_ok → fs_ok f → (∀ task o, task ∈ rep → o ∈ outputs task → is_Some (f !! o)) →
  worker_ok f rep task p own did → prog_step f p f' p' rp →
  ∃ own' did', worker_ok f' rep task p' own' did' ∧ fs_ok f' ∧ frame own own' f f' ∧
    (is_Some rp → ∀ o, o ∈ outputs task → is_Some (f !! o)).
Proof.
  intros Hj Hf Hrep Hw Hs. pose proof Hw as [Hsafe Hown Htemp Hdid Hmaps].
  destruct Hs as [f name k|f pattern k t Ht [sfx Hpat]|f name data k c Hc|f from to k c Hc|f id k]; simpl in Hsafe.
  - exists own, did. split_and!; auto using frame_refl; [| by intros [? ?]].
    split; auto. apply Hsafe. by eapply worker_finds.
  - destruct Hsafe as [Hp Hsafe].
    assert (temp_name t) as Htn. { exists sfx. destruct Hp as [-> | ->]; auto. }
    assert (own !! t = None) as Hot.
    { destruct (own !! t) eqn:E; [| done]. eapply map_subseteq_spec in E; [| done]. congruence. }
    exists (<[t := ""]> own), did.
    destruct (write_temp f rep task _ own did t "" (k t) Hj Hf Hw Htn) as (? & ? & ?); [by right | auto |].
    split_and!; [done.. | by intros [? ?]].
  - destruct Hsafe as (c' & Hc' & Hsafe).
    assert (c' = c) as ->. { eapply map_subseteq_spec in Hc'; [| done]. congruence. }
    exists (<[name := c +:+ data]> own), did.
    destruct (write_temp f rep task _ own did name (c +:+ data) k Hj Hf Hw) as (? & ? & ?); [eauto.. | done |].
    split_and!; [done.. | by intros [? ?]].
  - destruct Hsafe as (c' & Hc' & Hgood & Hnt & Hni & Hsafe).
    assert (c' = c) as ->. { eapply map_subseteq_spec in Hc'; [| done]. congruence. }
    exists (delete from own), ({[to]} ∪ did).
    destruct (rename_temp f rep task _ own did from to c k Hj Hf Hw) as (? & ? & ?); [done.. |].
    split_and!; [done.. | by intros [? ?]].
  - destruct Hsafe as [Hsub Hsafe]. exists own, did. split_and!; auto using frame_refl.
    + by split.
    + intros _ o Ho. apply Hdid. auto.
Qed.

Lemma worker_ok_frame f f' rep rep' task p own did own1 own1' :
  frame own1 own1' f f' → own ##ₘ own1 → (∀ x, x ∈ rep → x ∈ rep') →
  worker_ok f rep task p own did → worker_ok f' rep' task p own did.
Proof.
  intros [Hfiles Htemps _] Hd Hrep [Hsafe Hown Htemp Hdid Hmaps]. split; auto.
  - apply map_subseteq_spec. intros t c Ht. apply Htemps; [apply Htemp; eauto | | by eapply map_subseteq_spec].
    by eapply map_disjoint_Some_l.
  - intros o Ho. destruct (Hdid o Ho). auto.
Qed.

(** A worker [w] makes a call. *)
Lemma inv_work s own did w task p f' p' rp rep' :
  job_ok → inv s own did → workers s !! w = Some (task, p) → prog_step (fs s) p f' p' rp →
  rep' = reported s ∨ rep' = task :: reported s ∧ is_Some rp →
  ∃ own' did', inv (mkState f' (<[w := (task, p')]> (workers s)) rep') own' did'.
Proof.
  intros Hj [Hfs Hrep Hws Hdis] Hw Hs Hr. pose proof (lookup_lt_Some _ _ _ Hw) as Hlt.
  destruct (worker_step (fs s) (reported s) task p (own w) (did w) f' p' rp)
    as (own1 & did1 & Hok1 & Hfs1 & Hframe & Hdone); auto.
  assert (∀ x, x ∈ reported s → x ∈ rep') as Hsub by (destruct Hr as [->|[-> _]]; set_solver).
  exists (<[w := own1]> own), (<[w := did1]> did). split; simpl.
  - done.
  - intros task' o Ht Ho. apply (fr_files _ _ _ _ Hframe); [by eapply output_not_temp |].
    destruct Hr as [->|[-> Hrp]]; [by eapply Hrep |].
    apply elem_of_cons in Ht as [->|Ht]; [by apply Hdone | by eapply Hrep].
  - intros w' task' p2. rewrite list_lookup_insert. case_decide as Hd.
    + destruct Hd as [<- _]. intros [= <- <-]. rewrite !fn_lookup_insert.
      destruct Hok1. split; auto.
    + intros Hw'. assert (w ≠ w') as Hne by naive_solver. rewrite !fn_lookup_insert_ne by done.
      eapply worker_ok_frame; [done | | done | by apply Hws].
      apply Hdis; [by eapply lookup_lt_Some | done | done].
  - rewrite length_insert. intros w1 w2 H1 H2 Hne.
    assert (∀ w', (w' < length (workers s))%nat → w' ≠ w → own1 ##ₘ own w') as Hnew.
    { intros w' Hw' Hn. apply map_disjoint_spec. intros t c c' Hc Hc'.
      destruct (lookup_lt_is_Some_2 _ _ Hw') as [[task' p2] Hp2].
      destruct (fr_new _ _ _ _ Hframe t) as [[c2 Hc2]|Hnone]; [eauto | |].
      - eapply map_disjoint_spec; [by apply (Hdis w w') | done | done].
      - pose proof (wo_own _ _ _ _ _ _ (Hws _ _ _ Hp2)) as Hsub'.
        eapply map_subseteq_spec in Hc'; [| done]. congruence. }
    destruct (decide (w1 = w)) as [->|Hw1], (decide (w2 = w)) as [->|Hw2]; try done;
      rewrite ?fn_lookup_insert, ?fn_lookup_insert_ne by done; auto.
    symmetry. auto.
Qed.

(** A worker starts a task. *)
Lemma inv_start s own did task p :
  inv s own did → safe task p ∅ ∅ →
  (TaskType task = ReducePhase → ∀ i n, files !! i = Some n → map_task nReduce i n ∈ reported s) →
  ∃ own' did', inv (mkState (fs s) (workers s ++ [(task, p)]) (reported s)) own' did'.
Proof.
  intros [Hfs Hrep Hws Hdis] Hsafe Hmaps.
  exists (<[length (workers s) := ∅]> own), (<[length (workers s) := ∅]> did). split; simpl; auto.
  - intros w task' p'. intros [Hw|[Hw Hl]]%lookup_app_Some.
    + pose proof (lookup_lt_Some _ _ _ Hw). rewrite !fn_lookup_insert_ne by lia. auto.
    + apply list_lookup_singleton_Some in Hl as [Hz [= <- <-]].
      assert (w = length (workers s)) as -> by lia. rewrite !fn_lookup_insert.
      split; auto; [apply map_empty_subseteq | by intros t [? ?] | set_solver].
  - rewrite length_app. simpl. intros w1 w2 H1 H2 Hne.
    destruct (decide (w1 = length (workers s))) as [->|Hw1].
    + rewrite fn_lookup_insert. apply map_disjoint_empty_l.
    + rewrite fn_lookup_insert_ne by done. destruct (decide (w2 = length (workers s))) as [->|Hw2].
      * rewrite fn_lookup_insert. apply map_disjoint_empty_r.
      * rewrite fn_lookup_insert_ne by done. apply Hdis; lia.
Qed.

Abbreviation job_step := (step files nReduce mapf reducef).

Lemma job_inv_step s s' own did :
  job_ok → inv s own did → job_step s s' → ∃ own' did', inv s' own' did'.
Proof.
  intros Hj Hinv Hs. destruct Hs as [s i f mapf' Hf Hm|s r Hr Hm|s w task p f' p' Hw Hp|s w task p f' p' id Hw Hp|s w task p Hw].
  - eapply inv_start; [done | by apply safe_doMapTask | done].
  - eapply inv_start; [done | by apply safe_doReduceTask | by intros _ i n; apply Hm].
  - eapply inv_work; eauto.
  - eapply inv_work; eauto.
  - destruct Hinv as [Hfs Hrep Hws Hdis]. exists own, did. split; simpl; auto.
    + intros w' task' p'. rewrite list_lookup_insert. case_decide as Hd; [| apply Hws].
      destruct Hd as [<- _]. intros [= <- <-]. destruct (Hws _ _ _ Hw). by split.
    + by rewrite length_insert.
Qed.

Lemma job_inv_init : job_ok → inv (mkState fs0 [] []) (λ _, ∅) (λ _, ∅).
Proof.
  intros Hj. split; simpl; try done; [| by intros ? ? ?%not_elem_of_nil].
  split.
  - intros name c Hc. split_and!; [| | done].
    + intros i r f _ _ ->. unfold bucket_file in Hc. by rewrite (jo_fresh Hj) in Hc.
    + intros r _ ->. unfold out_file in Hc. change "mr-out-" with ("mr-" +:+ "out-") in Hc.
      rewrite <- string_app_assoc in Hc. by rewrite (jo_fresh Hj) in Hc.
  - intros name Hn. by apply (jo_inputs Hj).
Qed.

Lemma job_inv_rtc s s' :
  job_ok → (∃ own did, inv s own did) → rtc job_step s s' → ∃ own did, inv s' own did.
Proof.
  intros Hj Hi Hs. induction Hs as [|s1 s2 s3 H1 _ IH]; [done |]. apply IH.
  destruct Hi as (own & did & Hi). by eapply job_inv_step.
Qed.

Lemma inv_steps s : job_ok → rtc job_step (mkState fs0 [] []) s → ∃ own did, inv s own did.
Proof. intros Hj. apply job_inv_rtc; eauto using job_inv_init. Qed.

(** ** Workers get to the end *)

(** A worker that is neither done nor dead can always make its next call. *)
Lemma worker_can_step f rep task p own did :
  worker_ok f rep task p own did → p ≠ Return → ∃ f' p' rp, prog_step f p f' p' rp.
Proof.
  intros [Hsafe Hown _ _ _] Hp. destruct p as [|msg|name k|pattern k|name data k|from to k|id k]; simpl in Hsafe.
  - done.
  - done.
  - eexists _, _, _. constructor.
  - destruct (temp_available f pattern) as [suffix Hs]. eexists _, _, _. econstructor; eauto.
  - destruct Hsafe as (c & Hc & _). eapply map_subseteq_spec in Hc; [| done]. eexists _, _, _. by econstructor.
  - destruct Hsafe as (c & Hc & _). eapply map_subseteq_spec in Hc; [| done]. eexists _, _, _. by econstructor.
  - eexists _, _, _. constructor.
Qed.

(** Programs that come to report their task. *)
Fixpoint finishes (task : Task) (p : Prog) : Prop :=
  match p with
  | Return | Fatal _ => False
  | Open name k => ∀ c, found task name c → finishes task (k c)
  | CreateTemp _ k => ∀ t, finishes task (k t)
  | Append _ _ k | Rename _ _ k => finishes task k
  | MarkTaskDone _ _ => True
  end.

Lemma finishes_encode_all task t kvs k : finishes task k → finishes task (encode_all t kvs k).
Proof. intros Hk. by induction kvs. Qed.
Lemma finishes_write_lines task t ls k : finishes task k → finishes task (write_lines t ls k).
Proof. intros Hk. by induction ls. Qed.

Lemma finishes_write_buckets task i bs k : finishes task k → finishes task (write_buckets (Taskid task) i bs k).
Proof.
  intros Hk. revert i. induction bs as [|b bs IH]; intros i; simpl; [done |]. intros t.
  apply finishes_encode_all. simpl. apply IH.
Qed.

Lemma finishes_read_inputs task i n acc k :
  TaskType task = ReducePhase → (Taskid task < nReduce)%nat → (i + n)%nat = length files →
  (∀ l, finishes task (k l)) → finishes task (read_inputs (Taskid task) i n acc k).
Proof.
  intros Hty Hr. revert i acc. induction n as [|n IH]; intros i acc Hlen Hk; simpl; [done |].
  destruct (lookup_lt_is_Some_2 files i) as [f Hf]; [lia |].
  intros [c|] Hc; [apply IH; [lia | done] |]. destruct Hc as [_ Hc]. by apply (Hc Hty i (Taskid task) f).
Qed.

Lemma finishes_doMapTask i f mapf' :
  job_ok → files !! i = Some f → finishes (map_task nReduce i f) (doMapTask (map_task nReduce i f) mapf').
Proof.
  intros Hj Hf. simpl. intros [c|] Hc.
  - pose proof (jo_reduce Hj). rewrite decide_False by lia.
    by apply (finishes_write_buckets (map_task nReduce i f)).
  - destruct Hc as [Hc _]. apply Hc. by eapply list_elem_of_lookup_2.
Qed.

Lemma finishes_doReduceTask r :
  (r < nReduce)%nat →
  finishes (reduce_task nReduce r) (doReduceTask (reduce_task nReduce r) reducef (length files)).
Proof.
  intros Hr. apply finishes_read_inputs; [done | done | done |]. intros l t.
  by apply finishes_write_lines.
Qed.

(** One worker, left to run, reports its task. *)
Lemma worker_reports w task p s own did :
  job_ok → inv s own did → workers s !! w = Some (task, p) → finishes task p →
  ∃ s', rtc job_step s s' ∧ task ∈ reported s' ∧ ∀ x, x ∈ reported s → x ∈ reported s'.
Proof.
  intros Hj. revert s own did. induction p as [|msg|name k IH|pattern k IH|name data k IH|from to k IH|id k IH];
    intros s own did Hinv Hw Hfin; simpl in Hfin; try done;
    pose proof (inv_workers _ _ _ Hinv _ _ _ Hw) as Hok;
    destruct (worker_can_step _ _ _ _ _ _ Hok) as (f' & p' & rp & Hp); try done.
  (* the calls that do not report *)
  1-4: assert (rp = None) as -> by (by inversion Hp);
    pose proof (work files nReduce mapf reducef s w task _ f' p' Hw Hp) as Hstep;
    destruct (job_inv_step _ _ _ _ Hj Hinv Hstep) as (own' & did' & Hinv');
    assert (workers (mkState f' (<[w := (task, p')]> (workers s)) (reported s)) !! w = Some (task, p')) as Hw'
      by (apply list_lookup_insert_eq; by eapply lookup_lt_Some);
    inversion Hp; subst;
    first [destruct (IH _ _ _ _ Hinv' Hw') as (s' & Hrtc & Hrep & Hmono)
          | destruct (IH _ _ _ Hinv' Hw') as (s' & Hrtc & Hrep & Hmono)]; eauto using rtc_l.
  - apply Hfin. eapply worker_finds; [apply Hinv | apply Hinv | exact Hok].
  - inversion Hp; subst. eexists. split; [apply rtc_once; by eapply work_report |]. simpl. set_solver.
Qed.

Definition all_reported (s : State) : Prop :=
  maps_reported files nReduce s ∧ ∀ r, (r < nReduce)%nat → reduce_task nReduce r ∈ reported s.

(** A task whose program is started is reported in some continuation. *)
Lemma task_reports s task p own did :
  job_ok → inv s own did → finishes task p →
  job_step s (mkState (fs s) (workers s ++ [(task, p)]) (reported s)) →
  ∃ s', rtc job_step s s' ∧ (∃ own did, inv s' own did) ∧ task ∈ reported s' ∧
        ∀ x, x ∈ reported s → x ∈ reported s'.
Proof.
  intros Hj Hinv Hfin Hstep. destruct (job_inv_step _ _ _ _ Hj Hinv Hstep) as (own1 & did1 & Hinv1).
  destruct (worker_reports (length (workers s)) task p _ own1 did1 Hj Hinv1) as (s' & Hr & Hin & Hmono); [| done |].
  { simpl. apply list_lookup_middle. done. }
  exists s'. split_and!; [by eapply rtc_l | by eapply job_inv_rtc; eauto | done | done].
Qed.

(** Every task of a list whose programs can be started gets reported. *)
Lemma tasks_report (ts : list (Task * Prog)) s :
  job_ok → (∃ own did, inv s own did) →
  (∀ task p, (task, p) ∈ ts → finishes task p) →
  (∀ s', (∀ x, x ∈ reported s → x ∈ reported s') → ∀ task p, (task, p) ∈ ts →
     job_step s' (mkState (fs s') (workers s' ++ [(task, p)]) (reported s'))) →
  ∃ s', rtc job_step s s' ∧ (∃ own did, inv s' own did) ∧ (∀ task p, (task, p) ∈ ts → task ∈ reported s') ∧
        ∀ x, x ∈ reported s → x ∈ reported s'.
Proof.
  intros Hj. revert s. induction ts as [|[task p] ts IH]; intros s (own & did & Hinv) Hfin Hstart.
  - exists s. split_and!; eauto; [done | by intros ? ? ?%not_elem_of_nil].
  - destruct (task_reports s task p own did) as (s1 & H1 & Hi1 & Hin1 & Hm1); auto.
    { apply Hfin. set_solver. } { apply Hstart; [done | set_solver]. }
    destruct (IH s1 Hi1) as (s2 & H2 & Hi2 & Hin2 & Hm2).
    { intros ? ? ?. apply Hfin. set_solver. }
    { intros s' Hm' ? ? ?. apply Hstart; [auto | set_solver]. }
    exists s2. split_and!; [by etransitivity | done | | auto].
    intros task' p' [E|Hin]%elem_of_cons; [injection E as -> ->; auto | eauto].
Qed.

Lemma job_completes s :
  job_ok → (∃ own did, inv s own did) → ∃ s', rtc job_step s s' ∧ all_reported s'.
Proof.
  intros Hj Hinv.
  destruct (tasks_report (imap (λ i f, (map_task nReduce i f, doMapTask (map_task nReduce i f) mapf)) files) s)
    as (s1 & H1 & Hi1 & Hin1 & _); auto.
  { intros task p Hin. apply elem_of_lookup_imap in Hin as (i & f & [= -> ->] & Hf). by apply finishes_doMapTask. }
  { intros s' _ task p Hin. apply elem_of_lookup_imap in Hin as (i & f & [= -> ->] & Hf). by apply start_map. }
  assert (maps_reported files nReduce s1) as Hmaps.
  { intros i f Hf. eapply (Hin1 _ (doMapTask (map_task nReduce i f) mapf)).
    apply elem_of_lookup_imap. eauto. }
  destruct (tasks_report ((λ r, (reduce_task nReduce r, doReduceTask (reduce_task nReduce r) reducef (length files)))
              <$> seq 0 nReduce) s1) as (s2 & H2 & _ & Hin2 & Hm2); auto.
  { intros task p (r & [= -> ->] & Hr%elem_of_seq)%list_elem_of_fmap. apply finishes_doReduceTask. lia. }
  { intros s' Hm' task p (r & [= -> ->] & Hr%elem_of_seq)%list_elem_of_fmap.
    apply start_reduce; [lia |]. intros i f Hf. by apply Hm', Hmaps. }
  exists s2. split; [by etransitivity |]. split.
  - intros i f Hf. by apply Hm2, Hmaps.
  - intros r Hr. eapply Hin2. apply list_elem_of_fmap. exists r. split; [done |]. apply elem_of_seq. lia.
Qed.

(** ** The sequential program *)

Lemma read_all_pairs fl acc :
  (∀ f, f ∈ fl → is_Some (fs0 !! f)) → read_all fs0 mapf fl acc = Ret (acc ++ concat (pairs <$> fl)).
Proof.
  revert acc. induction fl as [|f fl IH]; intros acc Hin; simpl; [by rewrite app_nil_r |].
  destruct (Hin f) as [c Hc]; [set_solver |]. unfold pairs at 1. rewrite Hc. simpl.
  rewrite IH by set_solver. by rewrite app_assoc.
Qed.

Lemma mrsequential_lines :
  job_ok → mrsequential fs0 mapf reducef files =
    Ret (<["mr-out-0" := String.concat "" (lines_spec reducef all_pairs)]> fs0).
Proof.
  intros Hj. unfold mrsequential. rewrite read_all_pairs by (intros; by apply (jo_inputs Hj)). simpl.
  by rewrite reduce_lines_spec.
Qed.

End job.

End MRWorker.
