(* ===== verification/MRApps.v ===== *)
(** * The encoding of pairs and the word count: [encoding/json], [mrapps/wc.go]

    The JSON text [mr/worker.go] writes for a pair and reads back, for ASCII
    strings, as an instance of the interface [Json]; the word-count
    application; and, on them, the theorems about whole MapReduce jobs. *)

From S2P Require Import Prelude MapReduce MRWorker.
#[local] Open Scope string_scope.
#[local] Open Scope list_scope.

Module MRApps.
Import MapReduce MRWorker.

Abbreviation ascii := Ascii.ascii.

(** ** JSON strings, as [encoding/json] writes ASCII ones *)

Definition chr (n : nat) : ascii := Ascii.ascii_of_nat n.
Definition quote : string := String (chr 34) "".
Definition backslash : string := String (chr 92) "".

Definition hex (n : nat) : ascii := if decide (n < 10)%nat then chr (48 + n) else chr (87 + n).

(** [<], [>] and [&] are escaped too, as the encoder does by default. *)
Definition escape (c : ascii) : string :=
  let n := Ascii.nat_of_ascii c in
  if decide (n = 34%nat ∨ n = 92%nat) then backslash +:+ String c ""
  else if decide (n = 8%nat) then backslash +:+ "b"
  else if decide (n = 12%nat) then backslash +:+ "f"
  else if decide (n = 10%nat) then backslash +:+ "n"
  else if decide (n = 13%nat) then backslash +:+ "r"
  else if decide (n = 9%nat) then backslash +:+ "t"
  else if decide (n < 32 ∨ n = 60 ∨ n = 62 ∨ n = 38)%nat then
    backslash +:+ "u00" +:+ String (hex (n / 16)) (String (hex (n mod 16)) "")
  else String c "".

Fixpoint escape_all (s : string) : string :=
  match s with
  | EmptyString => ""
  | String c s => escape c +:+ escape_all s
  end.

(** The value of a hexadecimal digit. *)
Definition unhex (c : ascii) : option nat :=
  let n := Ascii.nat_of_ascii c in
  if decide (48 ≤ n ≤ 57)%nat then Some (n - 48)%nat
  else if decide (97 ≤ n ≤ 102)%nat then Some (n - 87)%nat
  else if decide (65 ≤ n ≤ 70)%nat then Some (n - 55)%nat
  else None.

Definition unescape (c : ascii) : option ascii :=
  let n := Ascii.nat_of_ascii c in
  if decide (n = 34%nat ∨ n = 92%nat ∨ n = 47%nat) then Some c
  else if decide (n = 98%nat) then Some (chr 8)
  else if decide (n = 102%nat) then Some (chr 12)
  else if decide (n = 110%nat) then Some (chr 10)
  else if decide (n = 114%nat) then Some (chr 13)
  else if decide (n = 116%nat) then Some (chr 9)
  else None.

(** A JSON string after its opening quote: the contents and what follows the
    closing quote ([None] too for code points above 255, which ASCII strings
    do not contain). *)
Fixpoint read_string (s : string) : option (string * string) :=
  match s with
  | EmptyString => None
  | String c s1 =>
      if decide (Ascii.nat_of_ascii c = 34%nat) then Some ("", s1)
      else if decide (Ascii.nat_of_ascii c = 92%nat) then
        match s1 with
        | String e s2 =>
            if decide (Ascii.nat_of_ascii e = 117%nat) then
              match s2 with
              | String z1 (String z2 (String h (String l s3))) =>
                  if decide (z1 ≠ chr 48 ∨ z2 ≠ chr 48) then None else
                  h ← unhex h; l ← unhex l; '(v, rest) ← read_string s3;
                  Some (String (chr (16 * h + l)) v, rest)
              | _ => None
              end
            else e ← unescape e; '(v, rest) ← read_string s2; Some (String e v, rest)
        | EmptyString => None
        end
      else if decide (Ascii.nat_of_ascii c < 32)%nat then None
      else '(v, rest) ← read_string s1; Some (String c v, rest)
  end.

Fixpoint strip (prefix s : string) : option string :=
  match prefix, s with
  | EmptyString, _ => Some s
  | String c p, String c' s => if decide (c = c') then strip p s else None
  | _, _ => None
  end.

Definition before_key : string := "{" +:+ quote +:+ "Key" +:+ quote +:+ ":" +:+ quote.
Definition before_value : string := "," +:+ quote +:+ "Value" +:+ quote +:+ ":" +:+ quote.

(** One object and the newline [Encode] puts after it. *)
Definition encode_kv (kv : KeyValue) : string :=
  before_key +:+ escape_all (Key kv) +:+ quote +:+ before_value +:+ escape_all (Value kv) +:+ quote +:+ "}" +:+ newline.

Definition decode_kv (s : string) : option (KeyValue * string) :=
  s ← strip before_key s; '(k, s) ← read_string s;
  s ← strip before_value s; '(v, s) ← read_string s;
  s ← strip ("}" +:+ newline) s; Some (mkKeyValue k v, s).

Fixpoint ascii_only (s : string) : Prop :=
  match s with
  | EmptyString => True
  | String c s => (Ascii.nat_of_ascii c < 128)%nat ∧ ascii_only s
  end.

Lemma strip_app p s : strip p (p +:+ s) = Some s.
Proof. induction p as [|c p IH]; [done |]. rewrite string_app_cons. cbn [strip]. by rewrite decide_True. Qed.

(** Reading back one escaped character. *)
Lemma read_escape c s :
  (Ascii.nat_of_ascii c < 128)%nat →
  read_string (escape c +:+ s) = ('(v, rest) ← read_string s; Some (String c v, rest)).
Proof.
  destruct c as [[] [] [] [] [] [] [] []]; intros Hc; try reflexivity; exfalso; vm_compute in Hc; lia.
Qed.

Lemma read_escape_all v rest : ascii_only v → read_string (escape_all v +:+ quote +:+ rest) = Some (v, rest).
Proof.
  induction v as [|c v IH]; intros Hv; [done |]. destruct Hv as [Hc Hv]. cbn [escape_all].
  rewrite <- string_app_assoc, read_escape by done. rewrite IH by done. done.
Qed.

Lemma decode_encode kv rest :
  ascii_only (Key kv) → ascii_only (Value kv) → decode_kv (encode_kv kv +:+ rest) = Some (kv, rest).
Proof.
  intros Hk Hv. unfold decode_kv, encode_kv. rewrite <- !string_app_assoc.
  rewrite strip_app. cbn [mbind option_bind]. rewrite read_escape_all by done. cbn [mbind option_bind].
  rewrite strip_app. cbn [mbind option_bind]. rewrite read_escape_all by done. cbn [mbind option_bind].
  rewrite (string_app_assoc "}"), strip_app. cbn [mbind option_bind]. by destruct kv.
Qed.

#[export] Program Instance JsonAscii : Json := {|
  json_ok kv := ascii_only (Key kv) ∧ ascii_only (Value kv);
  Encode := encode_kv;
  Decode := decode_kv
|}.
Next Obligation. done. Qed.
Next Obligation. intros kv rest [Hk Hv]. by apply decode_encode. Qed.
Next Obligation. done. Qed.

(** ** Applications *)

(** [unicode.IsLetter] on ASCII. *)
Definition IsLetter (c : ascii) : bool :=
  let n := Ascii.nat_of_ascii c in bool_decide (65 ≤ n ≤ 90 ∨ 97 ≤ n ≤ 122)%nat.

Definition emit (w : string) : list string := if decide (w = "") then [] else [w].

(** [strings.FieldsFunc(s, ff)] with [ff] the negation of [IsLetter]; [w] is
    the word being read. *)
Fixpoint FieldsFunc (s : string) (w : string) : list string :=
  match s with
  | EmptyString => emit w
  | String c s => if IsLetter c then FieldsFunc s (w +:+ String c "") else emit w ++ FieldsFunc s ""
  end.

Definition wc_Map (filename contents : string) : list KeyValue :=
  (λ w, mkKeyValue w "1") <$> FieldsFunc contents "".
Definition wc_Reduce (key : string) (values : list string) : string := Itoa (Z.of_nat (length values)).

(** [indexer.go]: the words of a document, each once (Go yields the keys of
    the map in any order), and the sorted list of documents. *)
Definition indexer_Map (document value : string) : list KeyValue :=
  (λ w, mkKeyValue w document) <$> remove_dups (FieldsFunc value "").
Definition indexer_Reduce (key : string) (values : list string) : string :=
  Itoa (Z.of_nat (length values)) +:+ " " +:+ String.concat "," (merge_sort String.le values).

#[export] Instance wc_order_free : OrderFree wc_Reduce.
Proof. intros k l l' Hl. unfold wc_Reduce. by rewrite Hl. Qed.

#[export] Instance indexer_order_free : OrderFree indexer_Reduce.
Proof.
  intros k l l' Hl. unfold indexer_Reduce.
  assert (merge_sort String.le l = merge_sort String.le l') as ->; [| by rewrite Hl].
  eapply (StronglySorted_unique String.le); [apply StronglySorted_merge_sort; apply _ .. |].
  by rewrite !merge_sort_Permutation.
Qed.

Lemma letter_ascii c : IsLetter c = true → (Ascii.nat_of_ascii c < 128)%nat.
Proof. unfold IsLetter. rewrite bool_decide_eq_true. lia. Qed.

Lemma ascii_only_app s s' : ascii_only (s +:+ s') ↔ ascii_only s ∧ ascii_only s'.
Proof.
  induction s as [|c s IH]; [simpl; tauto |]. rewrite string_app_cons. cbn [ascii_only]. rewrite IH. tauto.
Qed.

Lemma FieldsFunc_ascii s w x : ascii_only w → x ∈ FieldsFunc s w → ascii_only x.
Proof.
  assert (∀ w, ascii_only w → ∀ x, x ∈ emit w → ascii_only x) as He.
  { intros w' Hw' y. unfold emit. case_decide; [by intros ?%not_elem_of_nil | by intros ->%list_elem_of_singleton]. }
  revert w. induction s as [|c s IH]; intros w Hw; simpl; [by apply He |].
  destruct (IsLetter c) eqn:E.
  - apply IH. apply ascii_only_app. split; [done |]. split; [by apply letter_ascii | done].
  - intros [Hx|Hx]%elem_of_app; [by eapply He | by eapply (IH "")].
Qed.

(** ** Word-count jobs *)

Section wc.
Context (files : list string) (nReduce : nat) (fs0 : FS).

Definition words : list string := concat ((λ f, from_option (λ c, FieldsFunc c "") [] (fs0 !! f)) <$> files).

Lemma wc_all_pairs : all_pairs files wc_Map fs0 = (λ w, mkKeyValue w "1") <$> words.
Proof.
  unfold all_pairs, words. clear. induction files as [|f l IH]; [done |]. rewrite !fmap_cons. cbn [concat].
  rewrite fmap_app, <- IH. f_equal. unfold pairs, wc_Map. by destruct (fs0 !! f).
Qed.

(** The line of a word. *)
Definition wc_line (w : string) : string :=
  out_line w (Itoa (Z.of_nat (length (filter (λ w', w' = w) words)))).

Lemma wc_lines : lines_spec wc_Reduce (all_pairs files wc_Map fs0) ≡ₚ wc_line <$> remove_dups words.
Proof.
  unfold lines_spec. rewrite wc_all_pairs. unfold keys_of. rewrite merge_sort_Permutation.
  rewrite <- list_fmap_compose. rewrite (list_fmap_ext (Key ∘ λ w, mkKeyValue w "1") id words) by done.
  rewrite list_fmap_id. apply reflexive_eq. apply list_fmap_ext. intros i w _.
  unfold wc_line. f_equal. unfold wc_Reduce, values_of. do 2 f_equal.
  rewrite length_fmap. induction words as [|w' l IH]; [done |]. rewrite fmap_cons.
  destruct (decide (w' = w)).
  - rewrite !filter_cons_True by done. simpl. by rewrite IH.
  - by rewrite !filter_cons_False by done.
Qed.

(** ASCII input files (where [IsLetter] is [unicode.IsLetter]) in a directory
    without files of another job. *)
Definition wc_job : Prop :=
  (0 < nReduce)%nat ∧ (∀ f, f ∈ files → is_Some (fs0 !! f) ∧ ∀ s, f ≠ "mr-" +:+ s) ∧
  (∀ s, fs0 !! ("mr-" +:+ s) = None) ∧
  (∀ f c, f ∈ files → fs0 !! f = Some c → ascii_only c).

Lemma wc_job_ok : wc_job → job_ok files nReduce wc_Map fs0.
Proof.
  intros (H1 & H2 & H3 & _). split; [done | done | | done].
  intros f kv Hf Hkv. unfold pairs, wc_Map in Hkv. destruct (fs0 !! f) as [c|]; [| by apply not_elem_of_nil in Hkv].
  apply list_elem_of_fmap in Hkv as (w & -> & Hw). simpl. split; [by eapply (FieldsFunc_ascii c "") | by repeat split; vm_compute; lia].
Qed.

End wc.

(** ** The properties of MapReduce jobs *)

(** What a finished job has written. *)
Lemma job_outputs `{Json, Sorter} (files : list string) (nReduce : nat)
    (mapf : string → string → list KeyValue) (reducef : string → list string → string)
    `{!OrderFree reducef} (fs0 : FS) (s : State) :
  job_ok files nReduce mapf fs0 → rtc (step files nReduce mapf reducef) (mkState fs0 [] []) s →
  all_reported files nReduce s →
  ∃ seq_lines, mrsequential fs0 mapf reducef files = Ret (<["mr-out-0" := String.concat "" seq_lines]> fs0) ∧
    (∀ r, (r < nReduce)%nat →
       fs s !! out_file r = Some (String.concat "" (lines_of files nReduce mapf reducef fs0 r))) ∧
    concat (lines_of files nReduce mapf reducef fs0 <$> seq 0 nReduce) ≡ₚ seq_lines.
Proof.
  intros Hj Hs Hall. eexists. split; [by apply (mrsequential_lines files nReduce) |]. split.
  - destruct (inv_steps files nReduce mapf reducef fs0 s Hj Hs) as (own & did & [[Hg Hin] Hrep Hws Hdis]).
    intros r Hr. destruct Hall as [_ Hall].
    destruct (Hrep (reduce_task nReduce r) (out_file r)) as [c Hc]; [auto | unfold outputs; simpl; set_solver |].
    rewrite Hc. f_equal. by eapply Hg.
  - apply lines_spec_split. intros k. apply reduce_index_lt, (jo_reduce _ _ _ _ Hj).
Qed.


(** When the job is done (every task reported), the files [mr-out-r]
    together have exactly the lines the sequential program prints, each file
    those of its keys. *)
Theorem distributed_matches_sequential `{Json, Sorter} (files : list string) (nReduce : nat)
    (mapf : string → string → list KeyValue) (reducef : string → list string → string)
    `{!OrderFree reducef} (fs0 : FS) (s : State)
    (Hj : job_ok files nReduce mapf fs0)
    (Hs : rtc (step files nReduce mapf reducef) (mkState fs0 [] []) s)
    (Hall : all_reported files nReduce s) :
  ∃ seq_lines, mrsequential fs0 mapf reducef files = Ret (<["mr-out-0" := String.concat "" seq_lines]> fs0) ∧
    (∀ r, (r < nReduce)%nat →
       fs s !! out_file r = Some (String.concat "" (lines_of files nReduce mapf reducef fs0 r))) ∧
    concat (lines_of files nReduce mapf reducef fs0 <$> seq 0 nReduce) ≡ₚ seq_lines.
Proof. by apply job_outputs. Qed.

(** From every state of a job, after any crashes, some continuation
    reports all its tasks. *)
Theorem job_can_complete `{Json, Sorter} (files : list string) (nReduce : nat)
    (mapf : string → string → list KeyValue) (reducef : string → list string → string)
    `{!OrderFree reducef} (fs0 : FS) (s : State)
    (Hj : job_ok files nReduce mapf fs0)
    (Hs : rtc (step files nReduce mapf reducef) (mkState fs0 [] []) s) :
  ∃ s', rtc (step files nReduce mapf reducef) s s' ∧ all_reported files nReduce s'.
Proof. apply (job_completes files nReduce mapf reducef fs0); [done | by apply inv_steps]. Qed.

(** A finished word-count job has, over its output files, one line per
    distinct word of the input, with the number of its occurrences. *)
Theorem word_count_correct `{Sorter} (files : list string) (nReduce : nat) (fs0 : FS) (s : State)
    (Hj : wc_job files nReduce fs0)
    (Hs : rtc (step files nReduce wc_Map wc_Reduce) (mkState fs0 [] []) s)
    (Hall : all_reported files nReduce s) :
  ∃ out : nat → list string,
    (∀ r, (r < nReduce)%nat → fs s !! out_file r = Some (String.concat "" (out r))) ∧
    concat (out <$> seq 0 nReduce) ≡ₚ wc_line files fs0 <$> remove_dups (words files fs0).
Proof.
  apply wc_job_ok in Hj. exists (lines_of files nReduce wc_Map wc_Reduce fs0).
  destruct (inv_steps files nReduce wc_Map wc_Reduce fs0 s Hj Hs) as (own & did & [[Hg Hin] Hrep Hws Hdis]).
  split.
  - intros r Hr. destruct (Hrep (reduce_task nReduce r) (out_file r)) as [c Hc];
      [by apply Hall | unfold outputs; simpl; set_solver |].
    rewrite Hc. f_equal. by eapply Hg.
  - rewrite <- wc_lines. apply lines_spec_split. intros k.
    apply reduce_index_lt, (jo_reduce _ _ _ _ Hj).
Qed.

(** *** Witnesses: a job of two files *)

Definition two_files : list string := ["a.txt"; "b.txt"].
Definition two_inputs : FS := {[ "a.txt" := "x y, x"; "b.txt" := "y" ]}.

Lemma two_files_job : wc_job two_files 2 two_inputs.
Proof.
  split; [lia |]. split; [| split].
  - intros f Hf. apply elem_of_cons in Hf as [->|Hf]; [split; [vm_compute; eauto | discriminate] |].
    apply list_elem_of_singleton in Hf as ->. split; [vm_compute; eauto | discriminate].
  - intros s. unfold two_inputs. rewrite lookup_insert_ne by discriminate. by apply lookup_singleton_ne.
  - intros f c Hf. apply elem_of_cons in Hf as [->|Hf]; [| apply list_elem_of_singleton in Hf as ->];
      intros [= <-]; vm_compute; repeat split; lia.
Qed.

Lemma two_files_done :
  ∃ s, rtc (step two_files 2 wc_Map wc_Reduce) (mkState two_inputs [] []) s ∧ all_reported two_files 2 s.
Proof.
  apply (job_completes two_files 2 wc_Map wc_Reduce two_inputs); [by apply wc_job_ok, two_files_job |].
  apply inv_steps; [apply wc_order_free | by apply wc_job_ok, two_files_job | done].
Qed.


Lemma distributed_matches_sequential_witness :
  ∃ s seq_lines, all_reported two_files 2 s ∧
    mrsequential two_inputs wc_Map wc_Reduce two_files = Ret (<["mr-out-0" := String.concat "" seq_lines]> two_inputs) ∧
    concat (lines_of two_files 2 wc_Map wc_Reduce two_inputs <$> seq 0 2) ≡ₚ seq_lines.
Proof.
  destruct two_files_done as (s & Hs & Hall). exists s.
  destruct (distributed_matches_sequential two_files 2 wc_Map wc_Reduce two_inputs s
              (wc_job_ok _ _ _ two_files_job) Hs Hall) as (l & H1 & _ & H2).
  exists l. split; [exact Hall |]. split; [exact H1 | exact H2].
Defined.

Lemma job_can_complete_witness :
  ∃ s', rtc (step two_files 2 wc_Map wc_Reduce) (mkState two_inputs [] []) s' ∧ all_reported two_files 2 s'.
Proof.
  apply (job_can_complete two_files 2 wc_Map wc_Reduce two_inputs _ (wc_job_ok _ _ _ two_files_job)).
  apply rtc_refl.
Defined.

Lemma word_count_correct_witness :
  ∃ s, all_reported two_files 2 s ∧ ∃ out : nat → list string,
    (∀ r, (r < 2)%nat → fs s !! out_file r = Some (String.concat "" (out r))) ∧
    concat (out <$> seq 0 2) ≡ₚ wc_line two_files two_inputs <$> remove_dups (words two_files two_inputs).
Proof.
  destruct two_files_done as (s & Hs & Hall). exists s. split; [exact Hall |].
  apply (word_count_correct two_files 2 two_inputs s two_files_job Hs Hall).
Defined.

End MRApps.
