(* ===== verification/MRRoundtrip.v ===== *)
(** * What map tasks write, reduce tasks read: [mr/worker.go]

    The tasks of a job run one after the other, without crashes, followed
    through every execution of their programs of file-system calls: the pairs
    the map tasks encode into the bucket files are, task by task and in order,
    the pairs that [Decode] gives the reduce tasks. *)

From S2P Require Import Prelude MapReduce MRWorker MRApps.
#[local] Open Scope string_scope.
#[local] Open Scope list_scope.

Module MRRoundtrip.
Import MapReduce MRWorker.

(** ** Executions of a program *)

(** Every execution of [p] on the files [fs] gets, without getting stuck, to a
    point where [Q] holds of the files and the rest of the program. *)
Inductive leads (Q : FS → Prog → Prop) : FS → Prog → Prop :=
| leads_here fs p : Q fs p → leads Q fs p
| leads_step fs p :
    (∃ fs' p' rp, prog_step fs p fs' p' rp) →
    (∀ fs' p' rp, prog_step fs p fs' p' rp → leads Q fs' p') → leads Q fs p.

Lemma leads_mono (P Q : FS → Prog → Prop) fs p : (∀ fs p, P fs p → Q fs p) → leads P fs p → leads Q fs p.
Proof. intros HPQ. induction 1; [apply leads_here; auto | by apply leads_step]. Qed.

Section rules.
Context (Q : FS → Prog → Prop).

Lemma leads_Open fs name k : leads Q fs (k (fs !! name)) → leads Q fs (Open name k).
Proof. intros Hk. apply leads_step; [eexists _, _, _; constructor |]. intros fs' p' rp Hs. by inversion Hs; subst. Qed.

Lemma leads_CreateTemp fs pattern k :
  (∀ t, fs !! t = None → (∃ suffix, t = pattern +:+ suffix) → leads Q (<[t := ""]> fs) (k t)) →
  leads Q fs (CreateTemp pattern k).
Proof.
  intros Hk. apply leads_step.
  - destruct (temp_available fs pattern) as [suffix Ht]. eexists _, _, _. econstructor; [exact Ht | by eexists].
  - intros fs' p' rp Hs. inversion Hs; subst. eauto.
Qed.

Lemma leads_Rename fs from to k c :
  fs !! from = Some c → leads Q (<[to := c]> (delete from fs)) k → leads Q fs (Rename from to k).
Proof.
  intros Hc Hk. apply leads_step; [eexists _, _, _; by constructor |]. intros fs' p' rp Hs. inversion Hs. by simplify_eq.
Qed.

Lemma leads_report fs task : Q fs Return → leads Q fs (reportTaskDone task).
Proof.
  intros HQ. apply leads_step; [eexists _, _, _; constructor |]. intros fs' p' rp Hs. inversion Hs; subst. by apply leads_here.
Qed.

(** Writing the elements of a list one after the other. *)
Lemma leads_appends {A : Type} (enc : A → string) tmp (l : list A) k : ∀ fs c,
  fs !! tmp = Some c → leads Q (<[tmp := c +:+ String.concat "" (enc <$> l)]> fs) k →
  leads Q fs (foldr (λ x p, Append tmp (enc x) p) k l).
Proof.
  induction l as [|x l IH]; intros fs c Hc Hk; simpl in *.
  - by rewrite string_app_nil_r, insert_id in Hk.
  - apply leads_step; [eexists _, _, _; by constructor |]. intros fs' p' rp Hs. inversion Hs. simplify_eq.
    apply (IH _ (c +:+ enc x)); [by rewrite lookup_insert_eq |].
    rewrite insert_insert_eq, <- string_app_assoc. rewrite <- string_concat_cons. exact Hk.
Qed.

End rules.

(** ** Writing and reading *)

Section tasks.
Context `{Json, Sorter}.
Context (Q : FS → Prog → Prop).

(** The loop over the buckets writes each of them, and touches no other file
    but temporary ones. *)
Lemma write_buckets_leads taskid k : ∀ buckets i fs,
  (∀ fs', (∀ j kvs, buckets !! j = Some kvs → fs' !! bucket_file taskid (i + j) = Some (encoded kvs)) →
     (∀ name, ¬ temp_name name → (∀ j, (i ≤ j)%nat → name ≠ bucket_file taskid j) → fs' !! name = fs !! name) →
     leads Q fs' k) →
  leads Q fs (write_buckets taskid i buckets k).
Proof.
  induction buckets as [|kvs buckets IH]; intros i fs Hk; simpl; [by apply Hk |].
  apply leads_CreateTemp. intros t Ht (sfx & E). assert (temp_name t) as Htmp by (exists sfx; by left).
  pose proof (temp_not_bucket t taskid i Htmp) as Hne.
  eapply leads_appends; [by rewrite lookup_insert_eq |]. rewrite insert_insert_eq. fold (encoded kvs).
  eapply leads_Rename; [by rewrite lookup_insert_eq |]. rewrite delete_insert_eq, (delete_id fs t) by done.
  apply IH. intros fs' Hw Ho. apply Hk.
  - intros [|j] kvs' Hj; simpl in Hj.
    + simplify_eq. rewrite Nat.add_0_r, Ho, lookup_insert_eq; [done | |].
      * intros Hb. by destruct (temp_not_bucket _ taskid i Hb).
      * intros j Hj [_ E]%bucket_file_inj. lia.
    + replace (i + S j)%nat with (S i + j)%nat by lia. by apply Hw.
  - intros name Hn Hb. rewrite Ho; [| done | intros j Hj; apply Hb; lia].
    apply lookup_insert_ne. intros E'. by apply (Hb i).
Qed.

(** The loop over the bucket files of a reduce task. *)
Lemma read_inputs_leads r k fs (contents : list (list KeyValue)) : ∀ i inter,
  (∀ j kvs, contents !! j = Some kvs → fs !! bucket_file (i + j) r = Some (encoded kvs) ∧ Forall json_ok kvs) →
  leads Q fs (k (inter ++ concat contents)) → leads Q fs (read_inputs r i (length contents) inter k).
Proof.
  induction contents as [|kvs contents IH]; intros i inter Hc Hk; simpl in *; [by rewrite app_nil_r in Hk |].
  apply leads_Open. destruct (Hc 0%nat kvs eq_refl) as [Hf Hok]. rewrite Nat.add_0_r in Hf. rewrite Hf, decode_all_encoded by done.
  apply IH; [| by rewrite <- app_assoc]. intros j kvs' Hj. replace (S i + j)%nat with (i + S j)%nat by lia. by apply Hc.
Qed.

End tasks.

(** ** A job without crashes *)

Section job.
Context `{Json, Sorter}.
Context (files : list string) (nReduce : nat).
Context (mapf : string → string → list KeyValue) (reducef : string → list string → string).
Context (fs0 : FS).
Context (Hj : job_ok files nReduce mapf fs0).

(** The map tasks of the files [l], from task [i] on, one after the other,
    each to its end, and then [Q]. *)
Fixpoint map_all (fs : FS) (i : nat) (l : list string) (Q : FS → Prop) : Prop :=
  match l with
  | [] => Q fs
  | f :: l => leads (λ fs p, p = Return ∧ map_all fs (S i) l Q) fs (doMapTask (MakeMapTask f i nReduce) mapf)
  end.

(** The pairs of a file for a reduce task. *)
Definition bucket_of (r : nat) (f : string) : list KeyValue := for_reduce nReduce r (pairs mapf fs0 f).

(** The first [i] map tasks have run. *)
Definition mapped (i : nat) (fs : FS) : Prop :=
  (∀ f, f ∈ files → fs !! f = fs0 !! f) ∧
  ∀ i' f r, (i' < i)%nat → files !! i' = Some f → (r < nReduce)%nat → fs !! bucket_file i' r = Some (encoded (bucket_of r f)).

Lemma bucket_of_ok r f : f ∈ files → Forall json_ok (bucket_of r f).
Proof.
  intros Hf. apply Forall_forall. intros kv Hkv. unfold bucket_of, for_reduce in Hkv.
  apply list_elem_of_filter in Hkv as [_ Hkv]. by eapply (jo_json _ _ _ _ Hj).
Qed.

Lemma input_plain f : f ∈ files → ¬ temp_name f ∧ ∀ i r, f ≠ bucket_file i r.
Proof.
  intros Hf. destruct (jo_inputs _ _ _ _ Hj f Hf) as [_ Hn]. split.
  - intros [s [-> | ->]]; [by apply (Hn ("tmp-" +:+ s)) | by apply (Hn ("out-tmp-" +:+ s))].
  - intros i r ->. by apply (Hn (itoa i +:+ "-" +:+ itoa r)).
Qed.

(** One map task writes its buckets. *)
Lemma doMapTask_leads i f fs (Q : FS → Prog → Prop) :
  files !! i = Some f → mapped i fs → (∀ fs', mapped (S i) fs' → Q fs' Return) →
  leads Q fs (doMapTask (MakeMapTask f i nReduce) mapf).
Proof.
  intros Hi [Hin Hb] HQ. assert (f ∈ files) as Hf by (by eapply list_elem_of_lookup_2).
  destruct (jo_inputs _ _ _ _ Hj f Hf) as [[c Hc] _]. unfold doMapTask. simpl. apply leads_Open. rewrite Hin, Hc by done.
  pose proof (jo_reduce _ _ _ _ Hj). rewrite decide_False by lia.
  assert (mapf f c = pairs mapf fs0 f) as -> by (unfold pairs; by rewrite Hc).
  apply write_buckets_leads. intros fs' Hw Ho. apply leads_report, HQ. split.
  - intros f' Hf'. destruct (input_plain f' Hf') as [Ht Hnb]. rewrite Ho by auto. by apply Hin.
  - intros i' f' r Hi' Hf' Hr. destruct (decide (i' = i)) as [->|Hne].
    + simplify_eq. apply (Hw r). by apply hash_pairs_lookup.
    + rewrite Ho; [apply Hb; [lia | done..] | |].
      * intros Ht. by destruct (temp_not_bucket _ i' r Ht).
      * intros j _ [E _]%bucket_file_inj. done.
Qed.

Lemma map_all_leads l (Q : FS → Prop) : ∀ i fs,
  drop i files = l → mapped i fs → (∀ fs', mapped (length files) fs' → Q fs') → map_all fs i l Q.
Proof.
  induction l as [|f l IH]; intros i fs Hd Hm HQ; simpl.
  - apply HQ. destruct Hm as [H1 H2]. split; [done |]. intros i' f r Hi. apply H2.
    assert (length (drop i files) = 0%nat) as Hlen by (by rewrite Hd). rewrite length_drop in Hlen. lia.
  - assert (files !! i = Some f) as Hi by (rewrite <- (Nat.add_0_r i), <- lookup_drop, Hd; done).
    eapply doMapTask_leads; [done | done |]. intros fs' Hm'. split; [done |]. apply IH; [| done | done].
    replace (S i) with (i + 1)%nat by lia. by rewrite <- drop_drop, Hd.
Qed.

(** A reduce task reads all pairs for it. *)
Lemma doReduceTask_leads r fs :
  mapped (length files) fs → (r < nReduce)%nat →
  leads (λ fs' p, p = Return ∧ fs' !! out_file r =
      Some (String.concat "" (reduce_lines reducef (sort_Sort (for_reduce nReduce r (all_pairs files mapf fs0))))))
    fs (doReduceTask (MakeReduceTask r nReduce) reducef (length files)).
Proof.
  intros [_ Hb] Hr. unfold doReduceTask. simpl. rewrite <- (length_fmap (bucket_of r) files).
  apply read_inputs_leads.
  - intros j kvs Hjk. simpl. apply list_lookup_fmap_Some in Hjk as (f & -> & Hf). split.
    + apply Hb; [by eapply lookup_lt_Some | done | done].
    + apply bucket_of_ok. by eapply list_elem_of_lookup_2.
  - rewrite app_nil_l. assert (concat (bucket_of r <$> files) = for_reduce nReduce r (all_pairs files mapf fs0)) as ->.
    { unfold all_pairs, for_reduce. clear. induction files as [|f l IH]; [done |]. rewrite !fmap_cons. cbn [concat].
      by rewrite filter_app, IH. }
    apply leads_CreateTemp. intros t Ht (sfx & E).
    set (lines := reduce_lines _ _).
    apply (leads_appends _ id t lines _ _ ""); [by rewrite lookup_insert_eq |]. rewrite insert_insert_eq, list_fmap_id.
    eapply leads_Rename; [by rewrite lookup_insert_eq |]. apply leads_report. split; [done |]. by rewrite lookup_insert_eq.
Qed.

End job.

Lemma map_all_mono `{Json} nReduce mapf (P Q : FS → Prop) l : ∀ fs i,
  (∀ fs, P fs → Q fs) → map_all nReduce mapf fs i l P → map_all nReduce mapf fs i l Q.
Proof.
  induction l as [|f l IH]; intros fs i HPQ; simpl; [apply HPQ |]. apply leads_mono. intros fs' p [Hp Hm]. split; [done | by eapply IH].
Qed.

(** ** The property *)

(** C37: what map tasks write to the bucket files, reduce tasks read back.
    In a job with at least one reduce task, whose input files exist and have
    names that do not start with [mr-], in a directory without files of an
    earlier job, and whose pairs survive JSON, let the map tasks run one
    after the other, and then a reduce task, on any file system that behaves
    as documented.  Every execution runs to its end (no call fails or blocks),
    whatever names the temporary files get.  After the map tasks the file
    [mr-i-r] exists and the decoding loop gives exactly the pairs, in order,
    that [Map] made of the [i]th file and that hash to [r]; the input
    files are unchanged.  A reduce task then writes to its output the
    lines of all pairs of the job that hash to it, sorted. *)
Theorem buckets_roundtrip `{Json, Sorter} (files : list string) (nReduce : nat)
    (mapf : string → string → list KeyValue) (reducef : string → list string → string) (fs0 : FS)
    (Hj : job_ok files nReduce mapf fs0) :
  map_all nReduce mapf fs0 0 files (λ fs1,
    (∀ f, f ∈ files → fs1 !! f = fs0 !! f) ∧
    (∀ i f r, files !! i = Some f → (r < nReduce)%nat →
       ∃ c, fs1 !! bucket_file i r = Some c ∧
         decode_all c = filter (λ kv, reduce_index nReduce (Key kv) = r) (pairs mapf fs0 f)) ∧
    ∀ r, (r < nReduce)%nat →
      leads (λ fs2 p, p = Return ∧ fs2 !! out_file r = Some (String.concat "" (reduce_lines reducef
               (sort_Sort (filter (λ kv, reduce_index nReduce (Key kv) = r) (all_pairs files mapf fs0))))))
        fs1 (doReduceTask (MakeReduceTask r nReduce) reducef (length files))).
Proof.
  apply (map_all_leads files nReduce mapf fs0 Hj); [done | split; [done | intros; lia] |].
  intros fs1 Hm. split; [apply Hm |]. split.
  - intros i f r Hi Hr. eexists. split; [apply (proj2 Hm); [by eapply lookup_lt_Some | done..] |].
    apply decode_all_encoded, (bucket_of_ok _ _ _ _ Hj). by eapply list_elem_of_lookup_2.
  - intros r Hr. by apply (doReduceTask_leads files nReduce mapf reducef fs0 Hj).
Qed.

Import MRApps.

(** Word count of two files: the words "x", "y", "x" of the first, in the
    bucket for the first reduce task. *)
Lemma buckets_roundtrip_witness :
  map_all 2 wc_Map two_inputs 0 two_files (λ fs1,
    ∃ c, fs1 !! "mr-0-0" = Some c ∧
      decode_all c = filter (λ kv, reduce_index 2 (Key kv) = 0%nat)
        [mkKeyValue "x" "1"; mkKeyValue "y" "1"; mkKeyValue "x" "1"]).
Proof.
  pose proof (buckets_roundtrip two_files 2 wc_Map wc_Reduce two_inputs
    (wc_job_ok _ _ _ two_files_job)) as H.
  revert H. apply map_all_mono. intros fs1 (_ & H & _).
  exact (H 0%nat "a.txt" 0%nat eq_refl ltac:(lia)).
Defined.

End MRRoundtrip.
