(* ===== verification/Coordinator.v ===== *)
(** * The MapReduce coordinator: [mr/coordinator.go]

    The coordinator's maps, its task channel and its locks, with the
    goroutine of [MakeCoordinator], the monitor and the RPC handlers as
    threads that interleave.  Shown: the reduce phase starts only when every
    map task was reported, the job is declared done only when every reduce
    task was marked since its creation, and no unfinished task is ever lost;
    and three schedules on which the code fails. *)

From S2P Require Import Prelude MapReduce MRWorker.
#[local] Open Scope Z_scope.

Module Coordinator.
Import MRWorker.

Record Coordinator := mkCoordinator {
  TaskMapState : gmap nat Z;
  TaskAliveDetector : gmap nat Z;        (** times, in nanoseconds *)
  Tasks : gmap nat Task;
  TaskChan : list (option Task);         (** [None] is a nil pointer *)
  chan_cap : nat;
  lenfiles : nat;
  Phase : Z
}.

Definition set_TaskMapState (c : Coordinator) (x : gmap nat Z) : Coordinator :=
  mkCoordinator x (TaskAliveDetector c) (Tasks c) (TaskChan c) (chan_cap c) (lenfiles c) (Phase c).
Definition set_TaskAliveDetector (c : Coordinator) (x : gmap nat Z) : Coordinator :=
  mkCoordinator (TaskMapState c) x (Tasks c) (TaskChan c) (chan_cap c) (lenfiles c) (Phase c).
Definition set_Tasks (c : Coordinator) (x : gmap nat Task) : Coordinator :=
  mkCoordinator (TaskMapState c) (TaskAliveDetector c) x (TaskChan c) (chan_cap c) (lenfiles c) (Phase c).
Definition set_TaskChan (c : Coordinator) (x : list (option Task)) : Coordinator :=
  mkCoordinator (TaskMapState c) (TaskAliveDetector c) (Tasks c) x (chan_cap c) (lenfiles c) (Phase c).
Definition set_Phase (c : Coordinator) (x : Z) : Coordinator :=
  mkCoordinator (TaskMapState c) (TaskAliveDetector c) (Tasks c) (TaskChan c) (chan_cap c) (lenfiles c) x.

(** A send on the buffered channel blocks while it is full. *)
Definition send (c : Coordinator) (t : option Task) : option Coordinator :=
  if decide (length (TaskChan c) < chan_cap c)%nat then Some (set_TaskChan c (TaskChan c ++ [t])) else None.

(** ** Critical sections *)

(** [AllocateTask] after the receive, under [HeartbeatLock]: dereferencing a
    nil task panics, which ends the process. *)
Definition AllocateTask_got (c : Coordinator) (task : option Task) (now : Z) : GoRes (Coordinator * (Task * nat)) :=
  (let* task := deref task "nil pointer dereference" in
   Ret (set_TaskAliveDetector c (<[Taskid task := now]> (TaskAliveDetector c)), (task, lenfiles c)))%go.

(** [AllocateTask] when nothing arrives for 800 ms, under [PhaseLock]. *)
Definition AllocateTask_timeout (c : Coordinator) : Task * nat :=
  if decide (Phase c = DoneTask) then (mkTask 0 "" DoneTask 0, 0%nat) else (mkTask 0 "" WaitingTask 0, 0%nat).

Definition MarkTaskDone (c : Coordinator) (taskid : nat) : Coordinator :=
  set_TaskMapState (set_Tasks (set_TaskAliveDetector c (delete taskid (TaskAliveDetector c)))
    (delete taskid (Tasks c))) (delete taskid (TaskMapState c)).

Definition Done (c : Coordinator) : bool := bool_decide (Phase c = DoneTask).

(** The body of the loops that make tasks: the two maps are written before
    the send. *)
Definition register (c : Coordinator) (task : Task) (state : Z) : Coordinator :=
  set_Tasks (set_TaskMapState c (<[Taskid task := state]> (TaskMapState c))) (<[Taskid task := task]> (Tasks c)).

(** The check of the waiting goroutines: no task in [state] any more. *)
Definition none_left (c : Coordinator) (state : Z) : bool :=
  bool_decide (map_Forall (λ _ x, x ≠ state) (TaskMapState c)).

Definition ten_seconds : Z := 10 * 1000000000.

(** The monitor's body for one task, under both locks; it blocks when the
    channel is full. *)
Definition monitor_one (c : Coordinator) (taskid : nat) (now : Z) : option Coordinator :=
  lastHeartbeat ← TaskAliveDetector c !! taskid;
  if decide (now - lastHeartbeat > ten_seconds) then
    c ← send c (Tasks c !! taskid);
    Some (set_TaskAliveDetector c (<[taskid := now]> (TaskAliveDetector c)))
  else Some c.

(** ** Threads *)

(** The program counter of [MakeCoordinator]. *)
Inductive MainPc : Type :=
| MMap (i : nat)               (** making map tasks, from file [i] on *)
| MMapSend (i : nat)           (** [c.TaskChan <- task] for file [i] *)
| MMapWait                     (** polling for the end of the map phase *)
| MReduceBegin                 (** [c.Phase = ReducePhase] *)
| MReduceLock                  (** [TaskLock.Lock()] *)
| MReduce (i : nat)            (** holding [TaskLock], from reduce task [i] on *)
| MReduceSend (i : nat)
| MReduceWait
| MFinish                      (** [c.Phase = DoneTask] *)
| MExit (i : nat)              (** sending exit tasks, from the [i]-th on *)
| MReturn.

(** The monitor: between ticks, going over the map with [HeartbeatLock] and
    the keys already visited, or also holding [TaskLock] for a key. *)
Inductive MonPc : Type :=
| MonSleep
| MonRange (visited : list nat)
| MonTask (id : nat) (visited : list nat).

(** RPC handlers. *)
Inductive Handler : Type :=
| HAlloc                       (** in the [select] of [AllocateTask] *)
| HGot (task : option Task)    (** received, before [HeartbeatLock] *)
| HMark (id : nat)             (** [MarkTaskDone] before [TaskLock] *)
| HMarkLocked (id : nat)       (** holding [TaskLock], before [HeartbeatLock] *)
| HDone.

Record State := mkState {
  coord : Coordinator;
  main : MainPc;
  mon : MonPc;
  monitor_started : bool;
  handlers : list Handler;
  now : Z;
  panicked : bool;
  (** history: the tasks handed to workers, the ids marked done, and those
      marked since a reduce task was made with that id *)
  given : list Task;
  marked : list nat;
  made : list nat;
  marked_since : list nat
}.

(** [TaskLock] is held by [main] while it makes reduce tasks, by the monitor
    at a key, or by a handler between its two locks; [HeartbeatLock] by the
    monitor while it ranges. *)
Definition main_locks (m : MainPc) : bool := match m with MReduce _ | MReduceSend _ => true | _ => false end.
Definition mon_locks (m : MonPc) : bool := match m with MonTask _ _ => true | _ => false end.
Definition handler_locks (h : Handler) : bool := match h with HMarkLocked _ => true | _ => false end.

Definition TaskLock_free (s : State) : bool :=
  negb (main_locks (main s)) && negb (mon_locks (mon s)) && negb (existsb handler_locks (handlers s)).
Definition HeartbeatLock_free (s : State) : bool :=
  match mon s with MonSleep => true | _ => false end.

Definition set_coord (s : State) (c : Coordinator) : State :=
  mkState c (main s) (mon s) (monitor_started s) (handlers s) (now s) (panicked s)
    (given s) (marked s) (made s) (marked_since s).
Definition set_main (s : State) (m : MainPc) : State :=
  mkState (coord s) m (mon s) (monitor_started s) (handlers s) (now s) (panicked s)
    (given s) (marked s) (made s) (marked_since s).
Definition set_mon (s : State) (m : MonPc) : State :=
  mkState (coord s) (main s) m (monitor_started s) (handlers s) (now s) (panicked s)
    (given s) (marked s) (made s) (marked_since s).
Definition set_handlers (s : State) (h : list Handler) : State :=
  mkState (coord s) (main s) (mon s) (monitor_started s) h (now s) (panicked s)
    (given s) (marked s) (made s) (marked_since s).
Definition set_handler (s : State) (h : nat) (x : Handler) : State :=
  set_handlers s (<[h := x]> (handlers s)).

Section system.
Context (files : list string) (nReduce : nat).

Definition init : State :=
  mkState (mkCoordinator ∅ ∅ ∅ [] (2 * length files) (length files) MapPhase)
    (MMap 0) MonSleep false [] 0 false [] [] [] [].

(** One step of [MakeCoordinator]. *)
Definition main_step (s : State) : option State :=
  let c := coord s in
  match main s with
  | MMap i =>
      match files !! i with
      | Some v => let task := MakeMapTask v i nReduce in
                  Some (set_main (set_coord s (register c task MapPhase)) (MMapSend i))
      | None =>
          (* [go monitor(&c)] *)
          Some (mkState c MMapWait (mon s) true (handlers s) (now s) (panicked s)
                  (given s) (marked s) (made s) (marked_since s))
      end
  | MMapSend i =>
      v ← files !! i;
      c ← send c (Some (MakeMapTask v i nReduce));
      Some (set_main (set_coord s c) (MMap (S i)))
  | MMapWait =>
      if TaskLock_free s then
        if none_left c MapPhase then Some (set_main s MReduceBegin) else Some s
      else None
  | MReduceBegin => Some (set_main (set_coord s (set_Phase c ReducePhase)) MReduceLock)
  | MReduceLock => if TaskLock_free s then Some (set_main s (MReduce 0)) else None
  | MReduce i =>
      if decide (i < nReduce)%nat then
        let task := MakeReduceTask i nReduce in
        Some (mkState (register c task ReducePhase) (MReduceSend i) (mon s) (monitor_started s) (handlers s)
                (now s) (panicked s) (given s) (marked s) (i :: made s) (marked_since s))
      else Some (set_main s MReduceWait)
  | MReduceSend i =>
      c ← send c (Some (MakeReduceTask i nReduce));
      Some (set_main (set_coord s c) (MReduce (S i)))
  | MReduceWait =>
      if TaskLock_free s then
        if none_left c ReducePhase then Some (set_main s MFinish) else Some s
      else None
  | MFinish => Some (set_main (set_coord s (set_Phase c DoneTask)) (MExit 0))
  | MExit i =>
      if decide (i < nReduce)%nat then
        c ← send c (Some (mkTask i "" DoneTask nReduce));
        Some (set_main (set_coord s c) (MExit (S i)))
      else Some (set_main s MReturn)
  | MReturn => None
  end.

Inductive Label : Type :=
| LTime (d : Z)          (** time passes *)
| LMain
| LMonTick               (** a tick: [HeartbeatLock.Lock()] *)
| LMonPick (id : nat)    (** the next key of the range: [TaskLock.Lock()] *)
| LMonOne                (** its body, [TaskLock.Unlock()] *)
| LMonEnd                (** the range ends: [HeartbeatLock.Unlock()] *)
| LCallAlloc             (** a worker calls [AllocateTask] *)
| LCallMark (id : nat)   (** a worker calls [MarkTaskDone] *)
| LRecv (h : nat)        (** handler [h]: [<-c.TaskChan] *)
| LTimeout (h : nat)     (** handler [h]: the 800 ms are over *)
| LGot (h : nat)         (** handler [h]: the rest of [AllocateTask] *)
| LMarkLock (h : nat)    (** handler [h]: [TaskLock.Lock()] *)
| LMark (h : nat).       (** handler [h]: [HeartbeatLock.Lock()] and the body *)

Definition exec (l : Label) (s : State) : option State :=
  let c := coord s in
  if panicked s then None else
  match l with
  | LTime d =>
      if decide (0 ≤ d) then
        Some (mkState c (main s) (mon s) (monitor_started s) (handlers s) (now s + d) false
                (given s) (marked s) (made s) (marked_since s))
      else None
  | LMain => main_step s
  | LMonTick =>
      match mon s with
      | MonSleep => if monitor_started s then Some (set_mon s (MonRange [])) else None
      | _ => None
      end
  | LMonPick id =>
      match mon s with
      | MonRange visited =>
          if decide (is_Some (TaskAliveDetector c !! id) ∧ id ∉ visited) then
            if TaskLock_free s then Some (set_mon s (MonTask id visited)) else None
          else None
      | _ => None
      end
  | LMonOne =>
      match mon s with
      | MonTask id visited =>
          c ← monitor_one c id (now s); Some (set_mon (set_coord s c) (MonRange (id :: visited)))
      | _ => None
      end
  | LMonEnd =>
      match mon s with
      | MonRange visited =>
          if decide (map_Forall (λ id _, id ∈ visited) (TaskAliveDetector c)) then Some (set_mon s MonSleep)
          else None
      | _ => None
      end
  | LCallAlloc => Some (set_handlers s (handlers s ++ [HAlloc]))
  | LCallMark id => Some (set_handlers s (handlers s ++ [HMark id]))
  | LRecv h =>
      match handlers s !! h, TaskChan c with
      | Some HAlloc, task :: rest => Some (set_handler (set_coord s (set_TaskChan c rest)) h (HGot task))
      | _, _ => None
      end
  | LTimeout h =>
      match handlers s !! h with
      | Some HAlloc => Some (set_handler s h HDone)
      | _ => None
      end
  | LGot h =>
      match handlers s !! h with
      | Some (HGot task) =>
          if HeartbeatLock_free s then
            match AllocateTask_got c task (now s) with
            | Ret (c, (task, _)) =>
                Some (mkState c (main s) (mon s) (monitor_started s) (<[h := HDone]> (handlers s)) (now s) false
                        (task :: given s) (marked s) (made s) (marked_since s))
            | Abort _ =>
                Some (mkState c (main s) (mon s) (monitor_started s) (handlers s) (now s) true
                        (given s) (marked s) (made s) (marked_since s))
            end
          else None
      | _ => None
      end
  | LMarkLock h =>
      match handlers s !! h with
      | Some (HMark id) => if TaskLock_free s then Some (set_handler s h (HMarkLocked id)) else None
      | _ => None
      end
  | LMark h =>
      match handlers s !! h with
      | Some (HMarkLocked id) =>
          if HeartbeatLock_free s then
            Some (mkState (MarkTaskDone c id) (main s) (mon s) (monitor_started s) (<[h := HDone]> (handlers s))
                    (now s) false (given s) (id :: marked s) (made s)
                    (if decide (id ∈ made s) then id :: marked_since s else marked_since s))
          else None
      | _ => None
      end
  end.

Fixpoint run (ls : list Label) (s : State) : option State :=
  match ls with
  | [] => Some s
  | l :: ls => s' ← exec l s; run ls s'
  end.

Definition reachable (s : State) : Prop := ∃ ls, run ls init = Some s.

(** ** Phases *)

(** The first [k] map tasks are made: each is unfinished or was marked. *)
Definition map_made (s : State) (k : nat) : Prop :=
  (∀ id x, TaskMapState (coord s) !! id = Some x → x = MapPhase) ∧
  (∀ id, (id < k)%nat → is_Some (TaskMapState (coord s) !! id) ∨ id ∈ marked s) ∧
  made s = [] ∧ Phase (coord s) = MapPhase.

Definition maps_marked (s : State) : Prop := ∀ id, (id < length files)%nat → id ∈ marked s.

(** The first [k] reduce tasks are made: each is unfinished or was marked
    since. *)
Definition reduce_made (s : State) (k : nat) : Prop :=
  (∀ id x, TaskMapState (coord s) !! id = Some x → x = ReducePhase) ∧
  (∀ id, (id < k)%nat → is_Some (TaskMapState (coord s) !! id) ∨ id ∈ marked_since s) ∧
  (∀ id, id ∈ made s ↔ (id < k)%nat) ∧ maps_marked s ∧ Phase (coord s) = ReducePhase.

Definition reduces_marked (s : State) : Prop := ∀ r, (r < nReduce)%nat → r ∈ marked_since s.

Definition pc_inv (s : State) : Prop :=
  match main s with
  | MMap i => (i ≤ length files)%nat ∧ map_made s i
  | MMapSend i => (i < length files)%nat ∧ map_made s (S i)
  | MMapWait => map_made s (length files)
  | MReduceBegin => map_made s (length files) ∧ TaskMapState (coord s) = ∅
  | MReduceLock => reduce_made s 0
  | MReduce i => (i ≤ nReduce)%nat ∧ reduce_made s i
  | MReduceSend i => (i < nReduce)%nat ∧ reduce_made s (S i)
  | MReduceWait => reduce_made s nReduce
  | MFinish => maps_marked s ∧ reduces_marked s ∧ Phase (coord s) = ReducePhase
  | MExit _ | MReturn => maps_marked s ∧ reduces_marked s ∧ Phase (coord s) = DoneTask
  end.

(** Steps that keep what [pc_inv] speaks of. *)
Definition same_core (s s' : State) : Prop :=
  main s' = main s ∧ TaskMapState (coord s') = TaskMapState (coord s) ∧ Phase (coord s') = Phase (coord s) ∧
  marked s' = marked s ∧ made s' = made s ∧ marked_since s' = marked_since s.

Lemma pc_inv_same s s' : same_core s s' → pc_inv s → pc_inv s'.
Proof.
  intros (Hm & Ht & Hp & H1 & H2 & H3). unfold pc_inv, map_made, reduce_made, maps_marked, reduces_marked.
  by rewrite Hm, Ht, Hp, H1, H2, H3.
Qed.

Lemma pc_inv_mark s s' id :
  main s' = main s → coord s' = MarkTaskDone (coord s) id → marked s' = id :: marked s → made s' = made s →
  marked_since s' = (if decide (id ∈ made s) then id :: marked_since s else marked_since s) →
  pc_inv s → pc_inv s'.
Proof.
  intros Hm Hc H1 H2 H3.
  assert (∀ k, map_made s k → map_made s' k) as Hmap.
  { intros k (Ha & Hb & Hmd & Hp). unfold map_made. rewrite Hc, H1, H2. simpl. split_and!; auto.
    - intros i x. rewrite lookup_delete_Some. intros [_ Hi]. eauto.
    - intros i Hi. destruct (decide (i = id)) as [->|Hne]; [right; set_solver |].
      rewrite lookup_delete_ne by done. destruct (Hb i Hi); [auto | right; set_solver]. }
  assert (maps_marked s → maps_marked s') as Hmm.
  { intros Hall i Hi. rewrite H1. specialize (Hall i Hi). set_solver. }
  assert (reduces_marked s → reduces_marked s') as Hrm.
  { intros Hall i Hi. rewrite H3. specialize (Hall i Hi). case_decide; set_solver. }
  assert (∀ k, reduce_made s k → reduce_made s' k) as Hred.
  { intros k (Ha & Hb & Hmd & Hmk & Hp). unfold reduce_made. rewrite Hc, H2, H3. simpl. split_and!; auto.
    - intros i x. rewrite lookup_delete_Some. intros [_ Hi]. eauto.
    - intros i Hi. destruct (decide (i = id)) as [->|Hne].
      + right. rewrite decide_True by (by apply Hmd). set_solver.
      + rewrite lookup_delete_ne by done. destruct (Hb i Hi); [auto |]. right. case_decide; set_solver. }
  unfold pc_inv. rewrite Hm. destruct (main s); intros Hi; [destruct Hi; auto | destruct Hi; auto | auto | | auto
    | destruct Hi; auto | destruct Hi; auto | auto | ..];
    [destruct Hi as [? He]; split; [auto | rewrite Hc; simpl; by rewrite He, delete_empty] | ..];
    destruct Hi as (? & ? & ?); rewrite Hc; split_and!; auto.
Qed.

Lemma none_left_spec c x : none_left c x = true ↔ ∀ id y, TaskMapState c !! id = Some y → y ≠ x.
Proof. unfold none_left. rewrite bool_decide_eq_true. done. Qed.

Lemma send_inv c t c' : send c t = Some c' → c' = set_TaskChan c (TaskChan c ++ [t]).
Proof. unfold send. case_decide; congruence. Qed.

Lemma pc_inv_main s s' : pc_inv s → main_step s = Some s' → pc_inv s'.
Proof.
  intros Hinv Hs. unfold main_step in Hs. unfold pc_inv in Hinv.
  destruct (main s) as [i|i| | | |i|i| | |i|] eqn:Hm.
  - destruct Hinv as (Hi & Ha & Hb & Hmd & Hp). destruct (files !! i) as [v|] eqn:E; simplify_eq; unfold pc_inv; simpl.
    + split; [by eapply lookup_lt_Some |]. unfold map_made; simpl. split_and!; auto.
      * intros id x. rewrite lookup_insert. case_decide; [naive_solver | apply Ha].
      * intros id Hid. rewrite lookup_insert. case_decide; [eauto |]. apply Hb. lia.
    + apply lookup_ge_None in E. assert (i = length files) as -> by lia. by split_and!.
  - apply bind_Some in Hs as (v & Hv & Hs). apply bind_Some in Hs as (c' & ->%send_inv & Hs). simplify_eq.
    unfold pc_inv; simpl. destruct Hinv as [? ?]. split; [lia | done].
  - destruct (TaskLock_free s); [| done]. destruct (none_left (coord s) MapPhase) eqn:E; simplify_eq.
    + unfold pc_inv; simpl. split; [done |]. apply map_eq. intros id. rewrite lookup_empty.
      destruct (TaskMapState (coord s) !! id) as [x|] eqn:Ex; [| done]. exfalso.
      apply (proj1 (none_left_spec _ _) E id x Ex). by apply (proj1 Hinv id).
    + unfold pc_inv. by rewrite Hm.
  - simplify_eq. unfold pc_inv, reduce_made; simpl. destruct Hinv as ((Ha & Hb & Hmd & Hp) & He).
    rewrite He. split_and!; try done.
    + lia.
    + intros id. rewrite Hmd. split; [by intros ?%not_elem_of_nil | lia].
    + intros id Hid. destruct (Hb id Hid) as [Hx|Hx]; [| done]. rewrite He, lookup_empty in Hx. by destruct Hx.
  - destruct (TaskLock_free s); simplify_eq. unfold pc_inv; simpl. split; [lia | done].
  - destruct Hinv as (Hi & Ha & Hb & Hmd & Hmm & Hp). case_decide; simplify_eq; unfold pc_inv; simpl.
    + split; [done |]. unfold reduce_made; simpl. split_and!; auto.
      * intros id x. rewrite lookup_insert. case_decide; [naive_solver | apply Ha].
      * intros id Hid. rewrite lookup_insert. case_decide; [eauto |]. apply Hb. lia.
      * intros id. rewrite elem_of_cons, Hmd. lia.
    + assert (i = nReduce) as -> by lia. by split_and!.
  - apply bind_Some in Hs as (c' & ->%send_inv & Hs). simplify_eq. unfold pc_inv; simpl.
    destruct Hinv as [? ?]. split; [lia | done].
  - destruct (TaskLock_free s); [| done]. destruct (none_left (coord s) ReducePhase) eqn:E; simplify_eq.
    + unfold pc_inv; simpl. destruct Hinv as (Ha & Hb & Hmd & Hmm & Hp). split_and!; auto.
      intros r Hr. destruct (Hb r Hr) as [[x Hx]|]; [| done]. exfalso.
      apply (proj1 (none_left_spec _ _) E r x Hx). by apply (Ha r).
    + unfold pc_inv. by rewrite Hm.
  - simplify_eq. unfold pc_inv; simpl. destruct Hinv as (? & ? & ?). by split_and!.
  - case_decide; [apply bind_Some in Hs as (c' & ->%send_inv & Hs) |]; simplify_eq; unfold pc_inv; simpl;
      destruct Hinv as (? & ? & ?); by split_and!.
  - done.
Qed.

Lemma monitor_one_inv c id t c' :
  monitor_one c id t = Some c' →
  c' = c ∨ c' = set_TaskAliveDetector (set_TaskChan c (TaskChan c ++ [Tasks c !! id]))
                  (<[id := t]> (TaskAliveDetector c)).
Proof.
  unfold monitor_one. intros (last & _ & H)%bind_Some. case_decide; [| naive_solver].
  apply bind_Some in H as (c1 & ->%send_inv & [= <-]). by right.
Qed.

Lemma pc_inv_step l s s' : pc_inv s → exec l s = Some s' → pc_inv s'.
Proof.
  intros Hinv Hs. unfold exec in Hs. destruct (panicked s); [done |].
  destruct l; try (by eapply pc_inv_main);
    try (repeat (case_match || case_decide); simplify_eq; (eapply pc_inv_same; [| exact Hinv]); by split_and!).
  - destruct (mon s); try done. apply bind_Some in Hs as (c' & Hc & [= <-]).
    apply monitor_one_inv in Hc as [->| ->]; (eapply pc_inv_same; [| exact Hinv]); by split_and!.
  - destruct (handlers s !! h) as [[]|]; try done. destruct (HeartbeatLock_free s); [| done].
    unfold AllocateTask_got in Hs. destruct task; simplify_eq/=; (eapply pc_inv_same; [| exact Hinv]); by split_and!.
  - destruct (handlers s !! h) as [[]|]; try done. destruct (HeartbeatLock_free s); [| done]. simplify_eq.
    by eapply (pc_inv_mark s _ id).
Qed.

(** ** No unfinished task is lost *)

(** The task [id] is waiting in the channel, was handed out and is watched by
    the monitor, is being handed out, or is about to be sent. *)
Definition tracked (s : State) (id : nat) : Prop :=
  (∃ t, Some t ∈ TaskChan (coord s) ∧ Taskid t = id) ∨
  is_Some (TaskAliveDetector (coord s) !! id) ∨
  (∃ t, HGot (Some t) ∈ handlers s ∧ Taskid t = id) ∨
  main s = MMapSend id ∨ main s = MReduceSend id.

Definition kept_inv (s : State) : Prop :=
  ∀ id x, TaskMapState (coord s) !! id = Some x →
    (∃ t, Tasks (coord s) !! id = Some t ∧ Taskid t = id) ∧ tracked s id.

(** Replacing a handler that has not received a task. *)
Lemma got_kept (hs : list Handler) h x y t :
  hs !! h = Some x → (∀ t, x ≠ HGot t) → HGot t ∈ hs → HGot t ∈ <[h := y]> hs.
Proof.
  intros Hh Hx [k Hk]%list_elem_of_lookup. apply list_elem_of_lookup. exists k.
  rewrite list_lookup_insert_ne; [done |]. intros <-. by apply (Hx t); congruence.
Qed.

(** Steps that keep the two maps and lose no trace of a task. *)
Lemma kept_mono s s' :
  TaskMapState (coord s') = TaskMapState (coord s) → Tasks (coord s') = Tasks (coord s) →
  (∀ id, tracked s id → tracked s' id) → kept_inv s → kept_inv s'.
Proof. intros Ht Hk Htr Hinv id x. rewrite Ht, Hk. intros Hx. destruct (Hinv id x Hx). auto. Qed.

Lemma tracked_mono s s' id :
  (∀ t, t ∈ TaskChan (coord s) → t ∈ TaskChan (coord s')) →
  (is_Some (TaskAliveDetector (coord s) !! id) → is_Some (TaskAliveDetector (coord s') !! id)) →
  (∀ t, HGot t ∈ handlers s → HGot t ∈ handlers s') →
  (main s' = main s ∨ (main s ≠ MMapSend id ∧ main s ≠ MReduceSend id)) →
  tracked s id → tracked s' id.
Proof.
  intros Hc Hd Hh Hm [(t & Ht & E)|[Hx|[(t & Ht & E)|Hx]]].
  - left. eauto.
  - right. left. auto.
  - right. right. left. eauto.
  - destruct Hm as [Hm|Hm]; [right; right; right; by rewrite Hm |]. tauto.
Qed.

Lemma kept_main s s' : kept_inv s → main_step s = Some s' → kept_inv s'.
Proof.
  intros Hinv Hs. unfold main_step in Hs.
  (* registering a task that is about to be sent *)
  assert (∀ task x i s1, Taskid task = i → coord s1 = register (coord s) task x → handlers s1 = handlers s →
    (main s1 = MMapSend i ∨ main s1 = MReduceSend i) →
    (∀ id, main s ≠ MMapSend id ∧ main s ≠ MReduceSend id) → kept_inv s1) as Hreg.
  { intros task x i s1 Hi Hc Hh Hm1 Hm id y. rewrite Hc. simpl. rewrite !lookup_insert. rewrite Hi. case_decide as Hd.
    - subst id. intros _. split; [eauto |]. right. right. right. naive_solver.
    - intros Hx. destruct (Hinv id y Hx) as [Ht Htr]. split; [done |].
      eapply tracked_mono; [.. | exact Htr]; rewrite ?Hc, ?Hh; simpl; auto. }
  (* sending it *)
  assert (∀ t s1, coord s1 = set_TaskChan (coord s) (TaskChan (coord s) ++ [Some t]) → handlers s1 = handlers s →
    (∀ id, (main s = MMapSend id ∨ main s = MReduceSend id) → id = Taskid t) → kept_inv s1) as Hsend.
  { intros t s1 Hc Hh Hm. apply (kept_mono s); [by rewrite Hc | by rewrite Hc | | done]. intros id Htr.
    destruct (decide (id = Taskid t)) as [->|Hne].
    - left. exists t. rewrite Hc. simpl. split; [| done]. set_solver.
    - eapply tracked_mono; [.. | exact Htr]; rewrite ?Hc, ?Hh; simpl; auto; [set_solver | naive_solver]. }
  (* moving on *)
  assert (∀ s1, TaskMapState (coord s1) = TaskMapState (coord s) → Tasks (coord s1) = Tasks (coord s) →
    TaskChan (coord s1) = TaskChan (coord s) → TaskAliveDetector (coord s1) = TaskAliveDetector (coord s) →
    handlers s1 = handlers s → (∀ id, main s ≠ MMapSend id ∧ main s ≠ MReduceSend id) → kept_inv s1) as Hmove.
  { intros s1 H1 H2 H3 H4 H5 Hm. apply (kept_mono s); auto. intros id Htr.
    eapply tracked_mono; [.. | exact Htr]; rewrite ?H3, ?H4, ?H5; auto. }
  destruct (main s) as [i|i| | | |i|i| | |i|] eqn:Hm;
    repeat (case_match || case_decide || (apply bind_Some in Hs as (? & ?Hb & Hs)));
    simplify_eq; try done;
    try (by apply Hmove); try (by eapply Hreg; eauto);
    repeat match goal with H : send _ _ = Some _ |- _ => apply send_inv in H as -> end;
    (eapply Hsend; [reflexivity | reflexivity | naive_solver]).
Qed.

(** Nothing but a handler, the monitor or the clock changes. *)
Lemma kept_quiet s s1 :
  kept_inv s → coord s1 = coord s → main s1 = main s → (∀ t, HGot t ∈ handlers s → HGot t ∈ handlers s1) → kept_inv s1.
Proof.
  intros Hinv H1 H2 H3. apply (kept_mono s); [by rewrite H1 | by rewrite H1 | | done]. intros id Htr.
  eapply tracked_mono; [.. | exact Htr]; rewrite ?H1; auto.
Qed.

(** A handler receives a task from the channel. *)
Lemma kept_recv s h task rest :
  kept_inv s → handlers s !! h = Some HAlloc → TaskChan (coord s) = task :: rest →
  kept_inv (set_handler (set_coord s (set_TaskChan (coord s) rest)) h (HGot task)).
Proof.
  intros Hinv Eh Ec. apply (kept_mono s); auto. intros k [(t & Ht & E)|[Hx|[(t & Ht & E)|Hx]]].
  - rewrite Ec in Ht. apply elem_of_cons in Ht as [<-|Ht]; [| left; simpl; eauto].
    right. right. left. exists t. split; [| done]. simpl. apply list_elem_of_lookup. exists h.
    apply list_lookup_insert_eq. by eapply lookup_lt_Some.
  - right. left. done.
  - right. right. left. exists t. split; [| done]. by eapply got_kept.
  - right. right. right. done.
Qed.

(** A handler that has a task gives it out and starts its clock. *)
Lemma kept_given s s' h task x :
  kept_inv s → handlers s !! h = Some (HGot (Some task)) →
  TaskMapState (coord s') = TaskMapState (coord s) → Tasks (coord s') = Tasks (coord s) →
  TaskChan (coord s') = TaskChan (coord s) → main s' = main s →
  TaskAliveDetector (coord s') = <[Taskid task := x]> (TaskAliveDetector (coord s)) →
  handlers s' = <[h := HDone]> (handlers s) → kept_inv s'.
Proof.
  intros Hinv Eh E1 E2 E3 E4 E5 E6. apply (kept_mono s); auto. unfold tracked. rewrite E3, E4, E5, E6.
  intros k [(t & Ht & E)|[Hx|[(t & Ht & E)|Hx]]].
  - left. eauto.
  - right. left. rewrite lookup_insert. case_decide; eauto.
  - destruct (decide (k = Taskid task)) as [->|Hne].
    { right. left. rewrite lookup_insert_eq. eauto. }
    right. right. left. exists t. split; [| done].
    apply list_elem_of_lookup in Ht as [j Hj]. apply list_elem_of_lookup. exists j.
    rewrite list_lookup_insert_ne; [done |]. intros <-. congruence.
  - right. right. right. done.
Qed.

Lemma kept_step l s s' : kept_inv s → exec l s = Some s' → kept_inv s'.
Proof.
  intros Hinv Hs. unfold exec in Hs. destruct (panicked s); [done |].
  pose proof (λ s1, kept_quiet s s1 Hinv) as Hquiet. destruct l.
  - case_decide; simplify_eq. by apply Hquiet.
  - by eapply kept_main.
  - repeat case_match; simplify_eq. by apply Hquiet.
  - repeat (case_match || case_decide); simplify_eq. by apply Hquiet.
  - destruct (mon s); try done. apply bind_Some in Hs as (c' & Hc & [= <-]).
    apply monitor_one_inv in Hc as [->| ->]; [by apply Hquiet |].
    apply (kept_mono s); auto. intros k Htr. eapply tracked_mono; [.. | exact Htr]; simpl; auto; [set_solver |].
    rewrite lookup_insert. case_decide; eauto.
  - repeat (case_match || case_decide); simplify_eq. by apply Hquiet.
  - simplify_eq. apply Hquiet; simpl; auto. set_solver.
  - simplify_eq. apply Hquiet; simpl; auto. set_solver.
  - destruct (handlers s !! h) as [[]|] eqn:Eh; try done. destruct (TaskChan (coord s)) as [|task rest] eqn:Ec; [done |].
    simplify_eq. by apply kept_recv.
  - destruct (handlers s !! h) as [[]|] eqn:Eh; simplify_eq. apply Hquiet; auto. intros t. by eapply got_kept.
  - destruct (handlers s !! h) as [[]|] eqn:Eh; try done. destruct (HeartbeatLock_free s); [| done].
    unfold AllocateTask_got in Hs. destruct task as [task|]; simplify_eq/=; [| by apply Hquiet].
    by eapply kept_given.
  - destruct (handlers s !! h) as [[]|] eqn:Eh; try done. destruct (TaskLock_free s); simplify_eq.
    apply Hquiet; auto. intros t. by eapply got_kept.
  - destruct (handlers s !! h) as [[]|] eqn:Eh; try done. destruct (HeartbeatLock_free s); simplify_eq.
    intros k x. simpl. rewrite !lookup_delete_Some. intros [Hne Hx]. destruct (Hinv k x Hx) as [(t & Ht & E) Htr].
    split; [exists t; rewrite lookup_delete_ne by done; done |].
    eapply tracked_mono; [.. | exact Htr]; simpl; auto; [by rewrite lookup_delete_ne |].
    intros t'. by eapply got_kept.
Qed.

Lemma reachable_inv s : reachable s → pc_inv s ∧ kept_inv s.
Proof.
  intros [ls Hr].
  assert (∀ ls s1, pc_inv s1 ∧ kept_inv s1 → run ls s1 = Some s → pc_inv s ∧ kept_inv s) as Hgen.
  { clear. intros ls. induction ls as [|l ls IH]; intros s1 [H1 H2] Hr; simplify_eq/=; [done |].
    apply bind_Some in Hr as (s2 & H & Hr). apply (IH s2); [| done].
    split; [by eapply pc_inv_step | by eapply kept_step]. }
  apply (Hgen ls init); [| done]. split.
  - unfold pc_inv, map_made. simpl. split; [lia |]. split_and!; try done. lia.
  - intros id x. simpl. by rewrite lookup_empty.
Qed.

End system.

(** ** The properties *)

(** When the coordinator has left the map phase, [MarkTaskDone] was
    called for every map task; when [Done] answers true, it was called for
    every reduce task number since that reduce task was made. *)
Theorem phases_wait_for_reports (files : list string) (nReduce : nat) (s : State)
    (Hr : reachable files nReduce s) :
  (Phase (coord s) ≠ MapPhase → ∀ i, (i < length files)%nat → i ∈ marked s) ∧
  (Done (coord s) = true → ∀ r, (r < nReduce)%nat → r ∈ marked_since s).
Proof.
  apply reachable_inv in Hr as [Hpc _]. unfold pc_inv in Hpc.
  unfold Done. rewrite bool_decide_eq_true.
  unfold map_made, reduce_made, maps_marked, reduces_marked, MapPhase, ReducePhase, DoneTask in *.
  destruct (main s); split; try tauto; intros HP; exfalso; destruct_and! Hpc; lia.
Qed.

(** C31: no unfinished task is lost.  In every state the coordinator still
    knows each unfinished task, and it is in the channel, watched by the
    monitor (which sends it again after ten seconds), between receipt and
    registration in a handler, or about to be sent. *)
Theorem no_task_lost (files : list string) (nReduce : nat) (s : State) (id : nat)
    (Hr : reachable files nReduce s) (Hid : is_Some (TaskMapState (coord s) !! id)) :
  (∃ t, Tasks (coord s) !! id = Some t ∧ Taskid t = id) ∧ tracked s id.
Proof. apply reachable_inv in Hr as [_ Hk]. destruct Hid as [x Hx]. by apply (Hk id x). Qed.

(** *** Schedules *)

Definition seconds (n : Z) : Z := n * 1000000000.
Definition boot (n : nat) : list Label := replicate (2 * n + 1) LMain.
(** Handler [h] hands out the next task. *)
Definition give (h : nat) : list Label := [LCallAlloc; LRecv h; LGot h].
(** Handler [h] marks [id]. *)
Definition report (h id : nat) : list Label := [LCallMark id; LMarkLock h; LMark h].
(** The monitor goes over [ids]. *)
Definition tick (ids : list nat) : list Label :=
  [LMonTick] ++ concat ((λ id, [LMonPick id; LMonOne]) <$> ids) ++ [LMonEnd].

(** One file, one reduce task.  A slow worker holds map task 0, which is
    given to a second worker after eleven seconds; the second reports it, the
    reduce phase begins, and then the first reports map task 0. *)
Definition stale_report_run : list Label :=
  boot 1 ++ give 0 ++ [LTime (seconds 11)] ++ tick [0%nat] ++ give 1 ++ report 2 0 ++
  replicate 6 LMain ++ report 3 0 ++ replicate 2 LMain.

(** Two files.  Map task 0 is given out twice; the first worker reports it,
    the second, which got it later, never does. *)
Definition nil_task_run : list Label :=
  boot 2 ++ give 0 ++ [LTime (seconds 11)] ++ tick [0%nat] ++ report 1 0 ++ give 2 ++ give 3 ++
  [LTime (seconds 11)] ++ tick [0%nat; 1%nat] ++ give 4.

(** The monitor has taken [HeartbeatLock], a report [TaskLock]. *)
Definition deadlock_run : list Label :=
  boot 1 ++ give 0 ++ [LMonTick; LCallMark 0; LMarkLock 1].

Lemma no_task_lost_witness :
  ∃ s, run ["f"%string] 1 (boot 1 ++ give 0) (init ["f"%string]) = Some s ∧ tracked s 0.
Proof.
  eexists. split; [vm_compute; reflexivity |].
  eapply (no_task_lost ["f"%string] 1%nat _ 0%nat);
    [exists (boot 1 ++ give 0); vm_compute; reflexivity | vm_compute; eauto].
Defined.

Lemma phases_wait_for_reports_witness :
  ∃ s, run ["f"%string] 1 stale_report_run (init ["f"%string]) = Some s ∧ 0%nat ∈ marked s.
Proof.
  eexists. split; [vm_compute; reflexivity |].
  eapply (phases_wait_for_reports ["f"%string] 1%nat);
    [exists stale_report_run; vm_compute; reflexivity | vm_compute; discriminate | simpl; lia].
Defined.

(** The job can be declared done although no reduce task was ever given
    to a worker: map and reduce tasks share their numbers, so a late second
    report of map task 0 removes reduce task 0. *)
Lemma done_without_reducing :
  ∃ s, run ["f"%string] 1 stale_report_run (init ["f"%string]) = Some s ∧
    Done (coord s) = true ∧ Forall (λ t, TaskType t ≠ ReducePhase) (given s).
Proof.
  eexists. split; [vm_compute; reflexivity |]. split; [reflexivity |]. repeat constructor; discriminate.
Qed.

(** The coordinator can panic: the monitor sends [c.Tasks[taskid]] for
    a task that was reported in the meantime, a nil pointer, and the next
    [AllocateTask] dereferences it. *)
Lemma nil_task_panics :
  ∃ s, run ["f"; "g"]%string 1 nil_task_run (init ["f"; "g"]%string) = Some s ∧ panicked s = true.
Proof. eexists. split; vm_compute; reflexivity. Qed.

(** The deadlock: monitor and report hold one lock each and want the
    other's, and the main goroutine waits for [TaskLock]. *)
Definition deadlocked (s : State) : Prop :=
  mon s = MonRange [] ∧ is_Some (TaskAliveDetector (coord s) !! 0%nat) ∧
  handlers s !! 1%nat = Some (HMarkLocked 0) ∧ main s = MMapWait ∧
  Phase (coord s) = MapPhase ∧ marked s = [].

Lemma locked_not_free s h id : handlers s !! h = Some (HMarkLocked id) → TaskLock_free s = false.
Proof.
  intros Hh. unfold TaskLock_free. assert (existsb handler_locks (handlers s) = true) as ->.
  { apply existsb_exists. exists (HMarkLocked id). split; [| done].
    apply list_elem_of_In. by eapply list_elem_of_lookup_2. }
  simpl. by rewrite !andb_false_r.
Qed.

Lemma handler_kept (hs : list Handler) h k x y z :
  hs !! k = Some z → hs !! h = Some x → x ≠ z → <[h := y]> hs !! k = Some z.
Proof. intros Hk Hh Hne. rewrite list_lookup_insert_ne; [done |]. intros ->. congruence. Qed.

Lemma deadlocked_step files nReduce l s s' : deadlocked s → exec files nReduce l s = Some s' → deadlocked s'.
Proof.
  intros (Hmon & Hdet & Hh & Hm & Hp & Hmk) Hs.
  pose proof (locked_not_free s 1 0 Hh) as Hlock.
  assert (HeartbeatLock_free s = false) as Hhb by (unfold HeartbeatLock_free; by rewrite Hmon).
  unfold exec, main_step in Hs. rewrite ?Hmon, ?Hm, ?Hlock, ?Hhb in Hs. destruct (panicked s); [done |]. destruct l.
  - case_decide; simplify_eq. by split_and!.
  - done.
  - done.
  - case_decide; done.
  - done.
  - case_decide as Hall; [| done]. destruct Hdet as [x Hx]. specialize (Hall _ _ Hx). by apply not_elem_of_nil in Hall.
  - simplify_eq. split_and!; simpl; auto. by apply lookup_app_l_Some.
  - simplify_eq. split_and!; simpl; auto. by apply lookup_app_l_Some.
  - destruct (handlers s !! h) as [[]|] eqn:Eh; try done. destruct (TaskChan (coord s)); [done |]. simplify_eq.
    split_and!; simpl; auto. by eapply handler_kept.
  - destruct (handlers s !! h) as [[]|] eqn:Eh; simplify_eq. split_and!; simpl; auto. by eapply handler_kept.
  - by destruct (handlers s !! h) as [[]|].
  - by destruct (handlers s !! h) as [[]|].
  - by destruct (handlers s !! h) as [[]|].
Qed.

(** [MarkTaskDone] takes [TaskLock] before [HeartbeatLock], the monitor
    the other way round.  From a reachable state no continuation whatsoever
    completes a report or finishes the job. *)
Lemma locks_can_deadlock :
  ∃ s, run ["f"%string] 1 deadlock_run (init ["f"%string]) = Some s ∧
    ∀ ls s', run ["f"%string] 1 ls s = Some s' → marked s' = [] ∧ Done (coord s') = false.
Proof.
  eexists. split; [vm_compute; reflexivity |]. intros ls s' Hr.
  cut (deadlocked s'). { intros (_ & _ & _ & _ & Hp & Hmk). split; [done |]. unfold Done. by rewrite Hp. }
  match type of Hr with run _ _ _ ?s0 = _ => assert (deadlocked s0) as Hd by (vm_compute; eauto 10); revert Hr Hd;
    generalize s0 end.
  clear. induction ls as [|l ls IH]; intros s0 Hr Hd; simplify_eq/=; [done |].
  apply bind_Some in Hr as (s1 & H1 & Hr). apply (IH s1 Hr). by eapply deadlocked_step.
Qed.

(** C32: three schedules on which the coordinator fails.  Map and reduce
    tasks share their numbers, so a late second report of map task 0 removes
    reduce task 0, and the job is declared done although no reduce task was
    ever given to a worker.  The monitor sends [c.Tasks[taskid]] for a task
    that was reported in the meantime, a nil pointer, and the next
    [AllocateTask] panics.  [MarkTaskDone] takes [TaskLock] before
    [HeartbeatLock], the monitor the other way round: from a reachable state no
    continuation whatsoever completes a report or finishes the job. *)
Theorem coordinator_failures :
  (∃ s, run ["f"%string] 1 stale_report_run (init ["f"%string]) = Some s ∧
     Done (coord s) = true ∧ Forall (λ t, TaskType t ≠ ReducePhase) (given s)) ∧
  (∃ s, run ["f"; "g"]%string 1 nil_task_run (init ["f"; "g"]%string) = Some s ∧ panicked s = true) ∧
  (∃ s, run ["f"%string] 1 deadlock_run (init ["f"%string]) = Some s ∧
     ∀ ls s', run ["f"%string] 1 ls s = Some s' → marked s' = [] ∧ Done (coord s') = false).
Proof. split; [exact done_without_reducing |]. split; [exact nil_task_panics | exact locks_can_deadlock]. Qed.

End Coordinator.
