(* ===== verification/MRSystem.v ===== *)
(** * MapReduce put together: workers, coordinator and files

    The loop of [Worker] with [getTask], running against the coordinator's
    handlers and threads ([Coordinator]) and the files ([MRWorker]).  Shown:
    whatever the schedule, the crashes and the lost calls, the composed system
    is one of the jobs of [MRWorker], where reduce tasks wait for all map
    tasks.  When the coordinator says the job is done and no map task was
    reported twice, the output is that of the sequential program
    ([system_outputs], for the programs of [MRMain]). *)

From S2P Require Import Prelude MapReduce MRWorker MRApps Coordinator.
#[local] Open Scope string_scope.
#[local] Open Scope list_scope.

Module MRSystem.
Import MapReduce MRWorker.
Module Co := Coordinator.

(** ** The system *)

(** Where a worker process is.  The execution of a task it is in is an entry
    of the job's [workers]. *)
Inductive WPc : Type :=
| WAsk                           (** at the top of the loop of [Worker] *)
| WGet (h : nat)                 (** in [getTask], served by handler [h] *)
| WRun (x : nat)                 (** in [doMapTask] or [doReduceTask] *)
| WReport (x : nat) (h : nat)    (** in the call of [reportTaskDone] *)
| WExit                          (** [Worker] returned *)
| WDead.                         (** the process died *)

(** [callers] records, for each handler, the task its caller reports, [None]
    for a call of [AllocateTask]. *)
Record State := mkState {
  co : Co.State;
  job : MRWorker.State;
  wks : list WPc;
  callers : list (option Task)
}.

Inductive Label : Type :=
| LCo (l : Co.Label)                                         (** the coordinator on its own *)
| LAsk (w : nat)
| LGet (w : nat) (m : string → string → list KeyValue)       (** a task from the channel *)
| LNothing (w : nat) (m : string → string → list KeyValue)   (** the answer after 800 ms *)
| LCallFails (w : nat)                                       (** [call] in [getTask] returns false *)
| LWork (w : nat) (t : string)                               (** a call of the task's program *)
| LReport (w : nat)
| LReply (w : nat)                                           (** [MarkTaskDone] answers, or its call fails *)
| LReturn (w : nat)
| LDie (w : nat).

(** One call of a program; [t] is the name [os.CreateTemp] picks. *)
Definition prog_exec (f : FS) (p : Prog) (t : string) : option (FS * Prog) :=
  match p with
  | Open name k => Some (f, k (f !! name))
  | CreateTemp pattern k =>
      if decide (f !! t = None ∧ String.prefix pattern t = true) then Some (<[t := ""]> f, k t) else None
  | Append name data k => c ← f !! name; Some (<[name := c +:+ data]> f, k)
  | Rename from to k => c ← f !! from; Some (<[to := c]> (delete from f), k)
  | Return | Fatal _ | MarkTaskDone _ _ => None
  end.

Section system.
Context `{Json, Sorter}.
Context (files : list string) (nReduce : nat).
Context (mapf : string → string → list KeyValue) (reducef : string → list string → string).

(** Calls come from workers only. *)
Definition is_call (l : Co.Label) : bool := match l with Co.LCallAlloc | Co.LCallMark _ => true | _ => false end.

(** The [switch] of [Worker] on the task it got; [m] is [mapf] with the order
    in which it emits its pairs this time. *)
Definition begin_task (m : string → string → list KeyValue) (task : Task) (lenfiles : nat) : option Prog :=
  if decide (TaskType task = MapPhase) then Some (doMapTask task m)
  else if decide (TaskType task = ReducePhase) then Some (doReduceTask task reducef lenfiles)
  else None.

(** [getTask], given what the call of [AllocateTask] brought: nothing when it
    failed, which counts as the end of the work. *)
Definition getTask (reply : option (Task * nat)) : Task * nat :=
  match reply with
  | Some r => r
  | None => (mkTask 0 "" DoneTask 0, 0%nat)
  end.

(** The worker goes on with what [getTask] returned. *)
Definition start_task (s : State) (w : nat) (m : string → string → list KeyValue) (got : Task * nat) : State :=
  let '(task, lenfiles) := got in
  match begin_task m task lenfiles with
  | Some p =>
      mkState (co s) (MRWorker.mkState (fs (job s)) (workers (job s) ++ [(task, p)]) (reported (job s)))
        (<[w := WRun (length (workers (job s)))]> (wks s)) (callers s)
  | None =>
      mkState (co s) (job s) (<[w := if decide (TaskType task = DoneTask) then WExit else WAsk]> (wks s)) (callers s)
  end.

#[local] Arguments start_task : simpl never.

Definition set_co (s : State) (c : Co.State) : State := mkState c (job s) (wks s) (callers s).
Definition set_wk (s : State) (w : nat) (pc : WPc) : State := mkState (co s) (job s) (<[w := pc]> (wks s)) (callers s).

(** Execution [x] goes on with program [p], on files [f]. *)
Definition set_prog (j : MRWorker.State) (x : nat) (task : Task) (p : Prog) (f : FS) (rep : list Task) : MRWorker.State :=
  MRWorker.mkState f (<[x := (task, p)]> (workers j)) rep.

(** What dies with a worker: its execution makes no further call. *)
Definition stop (j : MRWorker.State) (x : nat) : MRWorker.State :=
  match workers j !! x with Some (task, _) => set_prog j x task Return (fs j) (reported j) | None => j end.

Definition exec (l : Label) (s : State) : option State :=
  match l with
  | LCo l => if is_call l then None else c ← Co.exec files nReduce l (co s); Some (set_co s c)
  | LAsk w =>
      match wks s !! w with
      | Some WAsk =>
          c ← Co.exec files nReduce Co.LCallAlloc (co s);
          Some (mkState c (job s) (<[w := WGet (length (callers s))]> (wks s)) (callers s ++ [None]))
      | _ => None
      end
  | LGet w m =>
      match wks s !! w with
      | Some (WGet h) =>
          c ← Co.exec files nReduce (Co.LGot h) (co s);
          if Co.panicked c then None
          else task ← head (Co.given c);
               Some (start_task (set_co s c) w m (getTask (Some (task, Co.lenfiles (Co.coord c)))))
      | _ => None
      end
  | LNothing w m =>
      match wks s !! w with
      | Some (WGet h) =>
          c ← Co.exec files nReduce (Co.LTimeout h) (co s);
          Some (start_task (set_co s c) w m (getTask (Some (Co.AllocateTask_timeout (Co.coord (co s))))))
      | _ => None
      end
  | LCallFails w =>
      match wks s !! w with
      | Some (WGet _) => Some (start_task s w (λ _ _, []) (getTask None))
      | _ => None
      end
  | LWork w t =>
      match wks s !! w with
      | Some (WRun x) =>
          '(task, p) ← workers (job s) !! x;
          '(f, p) ← prog_exec (fs (job s)) p t;
          Some (mkState (co s) (set_prog (job s) x task p f (reported (job s))) (wks s) (callers s))
      | _ => None
      end
  | LReport w =>
      match wks s !! w with
      | Some (WRun x) =>
          '(task, p) ← workers (job s) !! x;
          match p with
          | MarkTaskDone id k =>
              c ← Co.exec files nReduce (Co.LCallMark id) (co s);
              Some (mkState c (set_prog (job s) x task k (fs (job s)) (task :: reported (job s)))
                      (<[w := WReport x (length (callers s))]> (wks s)) (callers s ++ [Some task]))
          | _ => None
          end
      | _ => None
      end
  | LReply w => match wks s !! w with Some (WReport x _) => Some (set_wk s w (WRun x)) | _ => None end
  | LReturn w =>
      match wks s !! w with
      | Some (WRun x) =>
          '(_, p) ← workers (job s) !! x;
          match p with Return => Some (set_wk s w WAsk) | _ => None end
      | _ => None
      end
  | LDie w =>
      match wks s !! w with
      | Some (WRun x) | Some (WReport x _) =>
          Some (mkState (co s) (stop (job s) x) (<[w := WDead]> (wks s)) (callers s))
      | Some _ => Some (set_wk s w WDead)
      | None => None
      end
  end.

Fixpoint run (ls : list Label) (s : State) : option State :=
  match ls with
  | [] => Some s
  | l :: ls => s' ← exec l s; run ls s'
  end.

(** [n] worker processes; a worker that starts later has not run yet. *)
Definition init (fs0 : FS) (n : nat) : State :=
  mkState (Co.init files) (MRWorker.mkState fs0 [] []) (replicate n WAsk) [].

(** Executions of [Map] differ in the order of the pairs only. *)
Definition label_ok (l : Label) : Prop :=
  match l with LGet _ m | LNothing _ m => ∀ n c, m n c ≡ₚ mapf n c | _ => True end.

Definition reachable (fs0 : FS) (s : State) : Prop := ∃ n ls, Forall label_ok ls ∧ run ls (init fs0 n) = Some s.

(** ** Tasks *)

Definition is_map (t : Task) : Prop := ∃ i f, files !! i = Some f ∧ t = map_task nReduce i f.
Definition is_reduce (t : Task) : Prop := ∃ r, (r < nReduce)%nat ∧ t = reduce_task nReduce r.

(** Tasks that may be about: of the reduce phase only once it has begun. *)
Definition allowed (c : Co.Coordinator) (t : Task) : Prop :=
  is_map t ∨ (Co.Phase c ≠ MapPhase ∧ (is_reduce t ∨ TaskType t = DoneTask)).

Record play_ok (c : Co.State) : Prop := {
  po_chan : ∀ t, Some t ∈ Co.TaskChan (Co.coord c) → allowed (Co.coord c) t;
  po_got : ∀ h t, Co.handlers c !! h = Some (Co.HGot (Some t)) → allowed (Co.coord c) t;
  po_tasks : ∀ id t, Co.Tasks (Co.coord c) !! id = Some t → allowed (Co.coord c) t;
  po_len : Co.lenfiles (Co.coord c) = length files;
}.

(** Steps that bring no new task. *)
Lemma play_mono c c' :
  play_ok c →
  (∀ t, Some t ∈ Co.TaskChan (Co.coord c') → Some t ∈ Co.TaskChan (Co.coord c) ∨ allowed (Co.coord c') t) →
  (∀ h t, Co.handlers c' !! h = Some (Co.HGot (Some t)) →
     Co.handlers c !! h = Some (Co.HGot (Some t)) ∨ allowed (Co.coord c') t) →
  (∀ id t, Co.Tasks (Co.coord c') !! id = Some t → Co.Tasks (Co.coord c) !! id = Some t ∨ allowed (Co.coord c') t) →
  Co.lenfiles (Co.coord c') = Co.lenfiles (Co.coord c) →
  (Co.Phase (Co.coord c) ≠ MapPhase → Co.Phase (Co.coord c') ≠ MapPhase) →
  play_ok c'.
Proof.
  intros [P1 P2 P3 P4] H1 H2 H3 H4 HP.
  assert (∀ t, allowed (Co.coord c) t → allowed (Co.coord c') t) as Hm by (unfold allowed; naive_solver).
  split; [intros t [?|?]%H1; auto | intros h t [?|?]%H2; eauto | intros id t [?|?]%H3; eauto | congruence].
Qed.

Lemma map_allowed c i v : files !! i = Some v → allowed c (MakeMapTask v i nReduce).
Proof. left. by exists i, v. Qed.
Lemma reduce_allowed c i : (i < nReduce)%nat → Co.Phase c ≠ MapPhase → allowed c (MakeReduceTask i nReduce).
Proof. right. split; [done |]. left. by exists i. Qed.

(** The phase only goes forward, out of the map phase when every map task
    was marked. *)
Lemma main_phase c c' :
  Co.pc_inv files nReduce c → Co.main_step files nReduce c = Some c' →
  (Co.Phase (Co.coord c) ≠ MapPhase → Co.Phase (Co.coord c') ≠ MapPhase) ∧
  (Co.Phase (Co.coord c) = MapPhase → Co.Phase (Co.coord c') ≠ MapPhase → Co.maps_marked files c).
Proof.
  intros Hpc Hs. unfold Co.main_step in Hs. unfold Co.pc_inv in Hpc.
  destruct (Co.main c); try (repeat (case_match || case_decide); simplify_eq/=; by split).
  - apply bind_Some in Hs as (v & _ & Hs). apply bind_Some in Hs as (c1 & ->%Co.send_inv & [= <-]). by split.
  - simplify_eq. split; [done |]. intros _ _ id Hid. destruct Hpc as ((_ & Hm & _) & He).
    destruct (Hm id Hid) as [Hs|]; [| done]. rewrite He, lookup_empty in Hs. by destruct Hs.
  - apply bind_Some in Hs as (c1 & ->%Co.send_inv & [= <-]). by split.
  - simplify_eq. split; [done |]. intros Hm. destruct Hpc as (_ & _ & Hp). rewrite Hp in Hm. done.
  - case_decide; [| by simplify_eq]. apply bind_Some in Hs as (c1 & ->%Co.send_inv & [= <-]). by split.
Qed.

Lemma play_main c c' :
  Co.pc_inv files nReduce c → play_ok c → Co.main_step files nReduce c = Some c' → play_ok c'.
Proof.
  intros Hpc Hok Hs. pose proof (proj1 (main_phase c c' Hpc Hs)) as Hph.
  assert (∀ i, Co.main c = Co.MReduce i ∨ Co.main c = Co.MReduceSend i → Co.Phase (Co.coord c) ≠ MapPhase) as Hred.
  { intros i [E|E]; unfold Co.pc_inv in Hpc; rewrite E in Hpc; destruct Hpc as (_ & _ & _ & _ & _ & Hp); rewrite Hp; done. }
  unfold Co.main_step in Hs. destruct (Co.main c) as [i|i| | | |i|i| | |i|] eqn:Em.
  - destruct (files !! i) as [v|] eqn:Hv; simplify_eq; [| by eapply play_mono; eauto].
    apply (play_mono c); simpl; auto. intros id t [[_ <-]|[_ ?]]%lookup_insert_Some; [right; by apply map_allowed | by left].
  - apply bind_Some in Hs as (v & Hv & Hs). apply bind_Some in Hs as (c1 & ->%Co.send_inv & [= <-]).
    apply (play_mono c); simpl; auto. intros t [?|E%list_elem_of_singleton]%elem_of_app; [by left |]. injection E as ->.
    right. by apply map_allowed.
  - repeat case_match; simplify_eq; by eapply play_mono; eauto.
  - simplify_eq. by eapply play_mono; eauto.
  - repeat case_match; simplify_eq; by eapply play_mono; eauto.
  - case_decide as Hi; simplify_eq; [| by eapply play_mono; eauto].
    apply (play_mono c); simpl; auto. intros id t [[_ <-]|[_ ?]]%lookup_insert_Some; [| by left].
    right. apply reduce_allowed; [done |]. apply (Hred i). by left.
  - apply bind_Some in Hs as (c1 & ->%Co.send_inv & [= <-]).
    apply (play_mono c); simpl; auto. intros t [?|E%list_elem_of_singleton]%elem_of_app; [by left |]. injection E as ->.
    right. apply reduce_allowed; [| apply (Hred i); by right]. unfold Co.pc_inv in Hpc. rewrite Em in Hpc. by destruct Hpc.
  - repeat case_match; simplify_eq; by eapply play_mono; eauto.
  - simplify_eq. by eapply play_mono; eauto.
  - case_decide as Hi; [| simplify_eq; by eapply play_mono; eauto].
    apply bind_Some in Hs as (c1 & ->%Co.send_inv & [= <-]).
    apply (play_mono c); simpl; auto. intros t [?|E%list_elem_of_singleton]%elem_of_app; [by left |]. injection E as ->.
    right. right. split; [| by right]. simpl. unfold Co.pc_inv in Hpc. rewrite Em in Hpc. destruct Hpc as (_ & _ & Hp). by rewrite Hp.
  - done.
Qed.

(** What a step of the coordinator does to its handlers and marks. *)
Record co_step (c c' : Co.State) : Prop := {
  cs_play : play_ok c';
  cs_len : length (Co.handlers c') = length (Co.handlers c);
  cs_done : ∀ h, Co.handlers c !! h = Some Co.HDone → Co.handlers c' !! h = Some Co.HDone;
  cs_pending : ∀ h id, Co.handlers c' !! h = Some (Co.HMark id) ∨ Co.handlers c' !! h = Some (Co.HMarkLocked id) →
    Co.handlers c !! h = Some (Co.HMark id) ∨ Co.handlers c !! h = Some (Co.HMarkLocked id);
  cs_marked : (Co.marked c' = Co.marked c ∧ Co.marked_since c' = Co.marked_since c) ∨
    ∃ h id, Co.handlers c !! h = Some (Co.HMarkLocked id) ∧ Co.handlers c' !! h = Some Co.HDone ∧
      Co.marked c' = id :: Co.marked c ∧
      (Co.marked_since c' = Co.marked_since c ∨ (id ∈ Co.made c ∧ Co.marked_since c' = id :: Co.marked_since c));
  cs_phase : Co.Phase (Co.coord c) ≠ MapPhase → Co.Phase (Co.coord c') ≠ MapPhase;
  cs_maps : Co.Phase (Co.coord c) = MapPhase → Co.Phase (Co.coord c') ≠ MapPhase → Co.maps_marked files c;
}.

(** Steps that leave handlers, marks and the phase alone. *)
Lemma quiet_co_step c c' :
  play_ok c' → Co.handlers c' = Co.handlers c → Co.marked c' = Co.marked c → Co.marked_since c' = Co.marked_since c →
  Co.Phase (Co.coord c') = Co.Phase (Co.coord c) → co_step c c'.
Proof.
  intros Hp Hh Hm Hs HP. split; rewrite ?Hh, ?HP; try done. by left.
Qed.

(** Steps of one handler that mark nothing. *)
Lemma handler_co_step c c' h x y :
  play_ok c' → Co.handlers c !! h = Some x → x ≠ Co.HDone → Co.handlers c' = <[h := y]> (Co.handlers c) →
  (∀ id, y = Co.HMark id ∨ y = Co.HMarkLocked id → x = Co.HMark id ∨ x = Co.HMarkLocked id) →
  Co.marked c' = Co.marked c → Co.marked_since c' = Co.marked_since c →
  Co.Phase (Co.coord c') = Co.Phase (Co.coord c) → co_step c c'.
Proof.
  intros Hp Hx Hne Hh Hxy Hm Hs HP. split; rewrite ?HP; try done.
  - by rewrite Hh, length_insert.
  - intros k Hk. rewrite Hh, list_lookup_insert_ne; [done |]. intros <-. congruence.
  - intros k id. rewrite Hh. destruct (decide (k = h)) as [->|Hk]; [| by rewrite list_lookup_insert_ne].
    rewrite list_lookup_insert_eq, Hx by (by eapply lookup_lt_Some). specialize (Hxy id). naive_solver.
  - left. by rewrite Hm, Hs.
Qed.

Lemma main_step_same c c' :
  Co.main_step files nReduce c = Some c' →
  Co.handlers c' = Co.handlers c ∧ Co.marked c' = Co.marked c ∧ Co.marked_since c' = Co.marked_since c.
Proof.
  unfold Co.main_step. intros Hs.
  destruct (Co.main c); repeat (case_match || case_decide); simplify_eq; try done;
    repeat (apply bind_Some in Hs as (? & ? & Hs)); by simplify_eq.
Qed.

Lemma co_exec_step l c c' :
  Co.pc_inv files nReduce c → play_ok c → is_call l = false → Co.exec files nReduce l c = Some c' → co_step c c'.
Proof.
  intros Hpc Hok Hl Hs. unfold Co.exec in Hs. destruct (Co.panicked c); [done |].
  destruct l as [d| | |id| | | |id|h|h|h|h|h]; simpl in Hl; try done.
  - case_decide; simplify_eq. apply quiet_co_step; try done. by eapply play_mono; eauto.
  - destruct (main_step_same _ _ Hs) as (Hh & Hm & Hsi). destruct (main_phase c c' Hpc Hs) as [P1 P2].
    pose proof (play_main _ _ Hpc Hok Hs) as Hp. split; rewrite ?Hh, ?Hm, ?Hsi; try done. by left.
  - repeat case_match; simplify_eq. apply quiet_co_step; try done. by eapply play_mono; eauto.
  - repeat (case_match || case_decide); simplify_eq. apply quiet_co_step; try done. by eapply play_mono; eauto.
  - destruct (Co.mon c); try done. apply bind_Some in Hs as (c1 & Hc & [= <-]).
    apply Co.monitor_one_inv in Hc as [->| ->]; apply quiet_co_step; try done; [by eapply play_mono; eauto |].
    apply (play_mono c); simpl; auto. intros t [?|E%list_elem_of_singleton]%elem_of_app; [by left |]. right.
    by eapply (po_tasks _ Hok).
  - repeat (case_match || case_decide); simplify_eq. apply quiet_co_step; try done. by eapply play_mono; eauto.
  - destruct (Co.handlers c !! h) as [[]|] eqn:Hh; try done. destruct (Co.TaskChan (Co.coord c)) as [|task rest] eqn:Hc; [done |].
    simplify_eq. eapply handler_co_step; [| exact Hh | done | reflexivity | naive_solver | done..].
    apply (play_mono c); simpl; auto.
    + intros t Ht. left. rewrite Hc. by right.
    + intros k t [(<- & E & _)|[_ ?]]%list_lookup_insert_Some; [| by left]. injection E as ->. right.
      apply (po_chan _ Hok). rewrite Hc. by left.
  - destruct (Co.handlers c !! h) as [[]|] eqn:Hh; try done. simplify_eq.
    eapply handler_co_step; [| exact Hh | done | reflexivity | naive_solver | done..].
    apply (play_mono c); simpl; auto. intros k t [(_ & ? & _)|[_ ?]]%list_lookup_insert_Some; [done | by left].
  - destruct (Co.handlers c !! h) as [[]|] eqn:Hh; try done. destruct (Co.HeartbeatLock_free c); [| done].
    unfold Co.AllocateTask_got in Hs. destruct task as [task|]; simplify_eq/=.
    + eapply handler_co_step; [| exact Hh | done | reflexivity | naive_solver | done..].
      apply (play_mono c); simpl; auto. intros k t [(_ & ? & _)|[_ ?]]%list_lookup_insert_Some; [done | by left].
    + apply quiet_co_step; try done. by eapply play_mono; eauto.
  - destruct (Co.handlers c !! h) as [[]|] eqn:Hh; try done. destruct (Co.TaskLock_free c); simplify_eq.
    eapply handler_co_step; [| exact Hh | done | reflexivity | naive_solver | done..].
    apply (play_mono c); simpl; auto. intros k t [(_ & ? & _)|[_ ?]]%list_lookup_insert_Some; [done | by left].
  - destruct (Co.handlers c !! h) as [[]|] eqn:Hh; try done. destruct (Co.HeartbeatLock_free c); simplify_eq.
    split; simpl; try done.
    + apply (play_mono c); simpl; auto; [intros k t [(_ & ? & _)|[_ ?]]%list_lookup_insert_Some; [done | by left] |].
      intros id' t [_ ?]%lookup_delete_Some. by left.
    + by rewrite length_insert.
    + intros k Hk. rewrite list_lookup_insert_ne; [done |]. intros <-. congruence.
    + intros k id'. intros [[(_ & ? & _)|[_ ?]]%list_lookup_insert_Some|[(_ & ? & _)|[_ ?]]%list_lookup_insert_Some]; auto; done.
    + right. exists h, id. split; [done |]. split; [apply list_lookup_insert_eq; by eapply lookup_lt_Some |]. split; [done |].
      case_decide; auto.
Qed.

(** ** Programs report their own task *)

Fixpoint marks (task : Task) (p : Prog) : Prop :=
  match p with
  | Return | Fatal _ => True
  | Open _ k => ∀ c, marks task (k c)
  | CreateTemp _ k => ∀ t, marks task (k t)
  | Append _ _ k | Rename _ _ k => marks task k
  | MarkTaskDone id k => id = Taskid task ∧ marks task k
  end.

Lemma marks_appends task t (l : list string) k : marks task k → marks task (foldr (λ d p, Append t d p) k l).
Proof. intros Hk. by induction l. Qed.

Lemma marks_doMapTask task m : marks task (doMapTask task m).
Proof.
  simpl. intros [c|]; [| done]. case_decide; [done |].
  assert (∀ bs i, marks task (write_buckets (Taskid task) i bs (reportTaskDone task))) as Hw; [| apply Hw].
  induction bs as [|kvs bs IH]; intros i; simpl; [done |]. intros t. unfold encode_all. by induction kvs; simpl.
Qed.

Lemma marks_doReduceTask task n : marks task (doReduceTask task reducef n).
Proof.
  unfold doReduceTask. generalize (@nil KeyValue). generalize 0%nat.
  induction n as [|n IH]; intros i acc; simpl; [| intros [c|]; [apply IH | done]].
  intros t. unfold write_lines. apply marks_appends. simpl. done.
Qed.

Lemma marks_begin m task n p : begin_task m task n = Some p → marks task p.
Proof.
  unfold begin_task. intros Hb. repeat case_decide; simplify_eq; [apply marks_doMapTask | apply marks_doReduceTask].
Qed.

Lemma marks_step task f p f' p' r : marks task p → prog_step f p f' p' r → marks task p'.
Proof. intros Hm Hs. destruct Hs; simpl in Hm; naive_solver. Qed.

Lemma prefix_split pattern t : String.prefix pattern t = true → ∃ suffix, t = pattern +:+ suffix.
Proof.
  revert t. induction pattern as [|c p IH]; intros t Hp; [by exists t |]. destruct t as [|c' t]; simpl in Hp; [done |].
  case_match; [| done]. subst. destruct (IH t Hp) as [suffix ->]. by exists suffix.
Qed.

Lemma prog_exec_step f p t f' p' : prog_exec f p t = Some (f', p') → prog_step f p f' p' None.
Proof.
  destruct p; simpl; try done.
  - intros [= <- <-]. constructor.
  - case_decide as Hd; [| done]. intros [= <- <-]. destruct Hd as [Hf Hp]. constructor; [done | by apply prefix_split].
  - intros (c & Hc & [= <- <-])%bind_Some. by constructor.
  - intros (c & Hc & [= <- <-])%bind_Some. by constructor.
Qed.

(** ** The invariant *)

Definition task_ok (c : Co.State) (t : Task) : Prop := is_map t ∨ (Co.Phase (Co.coord c) ≠ MapPhase ∧ is_reduce t).

(** No map task was reported by two calls. *)
Definition maps_once (s : State) : Prop :=
  ∀ h h' t, is_map t → callers s !! h = Some (Some t) → callers s !! h' = Some (Some t) → h = h'.

(** Handler [h] has served the report of [t]. *)
Definition served (s : State) (h : nat) (t : Task) : Prop :=
  callers s !! h = Some (Some t) ∧ Co.handlers (co s) !! h = Some Co.HDone.

Record sys_inv (fs0 : FS) (s : State) : Prop := {
  si_pc : Co.pc_inv files nReduce (co s);
  si_play : play_ok (co s);
  si_job : rtc (step files nReduce mapf reducef) (MRWorker.mkState fs0 [] []) (job s);
  si_exec : ∀ x task p, workers (job s) !! x = Some (task, p) → task_ok (co s) task ∧ marks task p;
  si_reported : ∀ t, t ∈ reported (job s) → task_ok (co s) t;
  si_len : length (callers s) = length (Co.handlers (co s));
  si_callers : ∀ h t, callers s !! h = Some (Some t) → t ∈ reported (job s);
  si_pending : ∀ h id, Co.handlers (co s) !! h = Some (Co.HMark id) ∨ Co.handlers (co s) !! h = Some (Co.HMarkLocked id) →
    ∃ t, callers s !! h = Some (Some t) ∧ Taskid t = id;
  si_marked : ∀ id, id ∈ Co.marked (co s) → ∃ h t, served s h t ∧ Taskid t = id;
  si_maps : Co.Phase (Co.coord (co s)) ≠ MapPhase → ∀ t, is_map t → ∃ h, served s h t;
  si_since : maps_once s → ∀ id, id ∈ Co.marked_since (co s) → reduce_task nReduce id ∈ reported (job s);
}.

Lemma task_map_id c t i f :
  task_ok c t → Co.Phase (Co.coord c) = MapPhase → files !! i = Some f → Taskid t = i → t = map_task nReduce i f.
Proof. intros [(j & g & Hj & ->)|[? _]]; [| done]. simpl. intros _ Hi <-. by simplify_eq. Qed.

(** No reduce task is made before the reduce phase. *)
Lemma made_phase c : Co.pc_inv files nReduce c → Co.made c ≠ [] → Co.Phase (Co.coord c) ≠ MapPhase.
Proof.
  intros Hpc Hm HP. unfold Co.pc_inv in Hpc. unfold Co.map_made, Co.reduce_made in Hpc.
  unfold MapPhase, ReducePhase, DoneTask in *. destruct (Co.main c); destruct_and? Hpc; try done; lia.
Qed.

(** The coordinator takes a step by itself. *)
Lemma inv_co fs0 s l c :
  sys_inv fs0 s → is_call l = false → Co.exec files nReduce l (co s) = Some c → sys_inv fs0 (set_co s c).
Proof.
  intros [I1 I2 I3 I4 I5 I6 I7 I8 I9 I10 I11] Hl Hs. destruct (co_exec_step l _ c I1 I2 Hl Hs) as [S1 S2 S3 S4 S5 S6 S7].
  assert (∀ t, task_ok (co s) t → task_ok c t) as Hok by (intros t [?|[? ?]]; [by left | right; split; auto]).
  assert (∀ h t, served s h t → served (set_co s c) h t) as Hsv by (intros h t [? ?]; split; [done | by apply S3]).
  assert (Co.Phase (Co.coord c) ≠ MapPhase → ∀ t, is_map t → ∃ h, served (set_co s c) h t) as Hmaps.
  { intros HP t Ht. destruct (decide (Co.Phase (Co.coord (co s)) = MapPhase)) as [E|E].
    - destruct Ht as (i & f & Hi & ->). destruct (I9 i) as (h & t & Hsh & Hid).
      + apply S7; [done | done |]. by eapply lookup_lt_Some.
      + rewrite <- (task_map_id (co s) t i f); eauto. apply I5, (I7 h), Hsh.
    - destruct (I10 E t Ht) as [h Hh]. eauto. }
  split; try done.
  - by eapply Co.pc_inv_step.
  - intros x task p Hx. destruct (I4 x task p Hx). auto.
  - auto.
  - simpl. congruence.
  - intros h id Hh. by apply (I8 h id), S4.
  - intros id. simpl. destruct S5 as [[-> _]|(h & id' & Hh & Hd & -> & _)]; [intros Hid; destruct (I9 id Hid) as (h & t & ? & ?); eauto |].
    intros [->|Hid]%elem_of_cons; [| destruct (I9 id Hid) as (h' & t & ? & ?); eauto].
    destruct (I8 h id') as (t & Ht & Hid); [by right |]. exists h, t. by split.
  - intros Ho id. simpl. destruct S5 as [[_ ->]|(h & id' & Hh & Hd & _ & [->|[Hmade ->]])]; [by apply I11 | by apply I11 |].
    intros [->|Hid]%elem_of_cons; [| by apply I11]. destruct (I8 h id') as (t & Ht & Hid); [by right |].
    assert (Co.Phase (Co.coord (co s)) ≠ MapPhase) as HP by (apply made_phase; [done | by intros E; rewrite E in Hmade; apply not_elem_of_nil in Hmade]).
    destruct (I5 t) as [Hm|[_ (r & Hr & ->)]]; [by eapply I7 | | by rewrite <- Hid; apply (I7 h)].
    destruct (I10 HP t Hm) as (h' & Hc' & Hd'). specialize (Ho h h' t Hm Ht Hc'). congruence.
Qed.

(** The job goes on without a report. *)
Lemma inv_job fs0 s j ws :
  sys_inv fs0 s → rtc (step files nReduce mapf reducef) (job s) j → reported j = reported (job s) →
  (∀ x task p, workers j !! x = Some (task, p) → task_ok (co s) task ∧ marks task p) →
  sys_inv fs0 (mkState (co s) j ws (callers s)).
Proof.
  intros [] Hj Hr Hx. split; simpl; rewrite ?Hr; try done. by etrans.
Qed.

Lemma inv_wks fs0 s ws : sys_inv fs0 s → sys_inv fs0 (mkState (co s) (job s) ws (callers s)).
Proof. intros Hi. apply inv_job; [done | done | done |]. apply Hi. Qed.

(** A worker makes a call: a new handler [x] for caller [o]. *)
Lemma inv_call fs0 s x o j ws :
  sys_inv fs0 s →
  (x = Co.HAlloc ∧ o = None ∨ ∃ t, x = Co.HMark (Taskid t) ∧ o = Some t ∧ t ∈ reported j ∧ task_ok (co s) t) →
  rtc (step files nReduce mapf reducef) (job s) j → (∀ t, t ∈ reported (job s) → t ∈ reported j) →
  (∀ t, t ∈ reported j → task_ok (co s) t) →
  (∀ y task p, workers j !! y = Some (task, p) → task_ok (co s) task ∧ marks task p) →
  sys_inv fs0 (mkState (Co.set_handlers (co s) (Co.handlers (co s) ++ [x])) j ws (callers s ++ [o])).
Proof.
  intros [I1 I2 I3 I4 I5 I6 I7 I8 I9 I10 I11] Hx Hj Hr Hr' Hw.
  assert (∀ h t, served s h t → served (mkState (Co.set_handlers (co s) (Co.handlers (co s) ++ [x])) j ws (callers s ++ [o])) h t) as Hsv.
  { intros h t [Hc Hh]. split; simpl; by apply lookup_app_l_Some. }
  split; simpl; try done.
  - apply (play_mono (co s)); simpl; auto. intros h t [?|[_ Hh]]%lookup_app_Some; [by left |].
    apply list_lookup_singleton_Some in Hh as [_ ->]. destruct Hx as [[? _]|(? & ? & _)]; done.
  - by etrans.
  - rewrite !length_app. simpl. congruence.
  - intros h t [?|[_ Hh]]%lookup_app_Some; [apply Hr; by eapply I7 |].
    apply list_lookup_singleton_Some in Hh as [_ ->]. destruct Hx as [[_ ?]|(t' & _ & ? & ? & _)]; [done | by simplify_eq].
  - intros h id Hh. assert (Co.handlers (co s) !! h = Some (Co.HMark id) ∨ Co.handlers (co s) !! h = Some (Co.HMarkLocked id) ∨
      (h = length (callers s) ∧ (x = Co.HMark id ∨ x = Co.HMarkLocked id))) as [Hh'|[Hh'|[-> Hh']]].
    { rewrite I6. destruct Hh as [[?|[Hlt Hh]]%lookup_app_Some|[?|[Hlt Hh]]%lookup_app_Some]; auto;
        apply list_lookup_singleton_Some in Hh as [Hn ->]; right; right; (split; [lia |]); auto. }
    + destruct (I8 h id) as (t & Ht & ?); [by left |]. exists t. split; [by apply lookup_app_l_Some | done].
    + destruct (I8 h id) as (t & Ht & ?); [by right |]. exists t. split; [by apply lookup_app_l_Some | done].
    + destruct Hx as [[-> _]|(t & -> & -> & _)]; [naive_solver |]. exists t. rewrite list_lookup_middle by done. naive_solver.
  - intros id Hid. destruct (I9 id Hid) as (h & t & ? & ?). eauto.
  - intros HP t Ht. destruct (I10 HP t Ht) as [h Hh]. eauto.
  - intros Ho id Hid. apply Hr, I11; [| done]. intros h h' t Ht H1 H2. apply (Ho h h' t Ht); by apply lookup_app_l_Some.
Qed.

(** A worker starts the task it got. *)
Lemma sys_start_inv fs0 s w m task n :
  sys_inv fs0 s → (∀ f c, m f c ≡ₚ mapf f c) → allowed (Co.coord (co s)) task ∨ TaskType task = WaitingTask ∨ TaskType task = DoneTask →
  (TaskType task = ReducePhase → n = length files) →
  sys_inv fs0 (start_task s w m (task, n)).
Proof.
  intros Hi Hm Ht Hn. unfold start_task. destruct (begin_task m task n) as [p|] eqn:Hb; [| by apply inv_wks].
  pose proof (marks_begin _ _ _ _ Hb) as Hmk. unfold begin_task in Hb.
  assert (task_ok (co s) task ∧ step files nReduce mapf reducef (job s)
            (MRWorker.mkState (fs (job s)) (workers (job s) ++ [(task, p)]) (reported (job s)))) as [Hok Hs].
  { case_decide as Hty.
    - injection Hb as <-. destruct Ht as [[(i & f & Hf & ->)|[_ [(r & _ & ->)|Hd]]]|[Hw|Hd]];
        [| done | by rewrite Hty in Hd | by rewrite Hty in Hw | by rewrite Hty in Hd].
      split; [left; by exists i, f | by apply start_map].
    - case_decide as Hty'; [| done]. injection Hb as <-.
      destruct Ht as [[(i & f & Hf & ->)|[HP [(r & Hr & ->)|Hd]]]|[Hw|Hd]];
        [done | | by rewrite Hty' in Hd | by rewrite Hty' in Hw | by rewrite Hty' in Hd].
      rewrite (Hn Hty'). split; [right; split; [done | by exists r] |]. apply start_reduce; [done |].
      intros i f Hf. destruct (si_maps _ _ Hi HP (map_task nReduce i f)) as [h [Hc _]]; [by exists i, f |]. by eapply (si_callers _ _ Hi). }
  apply inv_job; [done | by apply rtc_once | done |]. simpl.
  intros x t q [Hx|[_ Hx]]%lookup_app_Some; [by eapply (si_exec _ _ Hi) |].
  apply list_lookup_singleton_Some in Hx as [_ [= -> ->]]. by split.
Qed.

(** An execution goes on, by a step of the job. *)
Lemma inv_prog fs0 s x task p f' p' rep ws :
  sys_inv fs0 s → workers (job s) !! x = Some (task, p) → marks task p' → rep = reported (job s) →
  rtc (step files nReduce mapf reducef) (job s) (set_prog (job s) x task p' f' rep) →
  sys_inv fs0 (mkState (co s) (set_prog (job s) x task p' f' rep) ws (callers s)).
Proof.
  intros Hi Hx Hm -> Hs. apply inv_job; [done | done | done |]. simpl.
  intros y t q [(<- & [= <- <-] & _)|[_ Hy]]%list_lookup_insert_Some; [| by eapply (si_exec _ _ Hi)].
  split; [| done]. by destruct (si_exec _ _ Hi x task p Hx).
Qed.

Lemma sys_exec_inv fs0 s l s' : sys_inv fs0 s → label_ok l → exec l s = Some s' → sys_inv fs0 s'.
Proof.
  intros Hi Hl Hs. destruct l as [l|w|w m|w m|w|w t|w|w|w|w]; simpl in Hs.
  - destruct (is_call l) eqn:Hc; [done |]. apply bind_Some in Hs as (c & Hc' & [= <-]). by eapply inv_co.
  - destruct (wks s !! w) as [[]|]; try done. apply bind_Some in Hs as (c & Hc & [= <-]).
    unfold Co.exec in Hc. destruct (Co.panicked (co s)); [done |]. injection Hc as <-.
    eapply inv_call; [done | by left | done | done | apply Hi | apply Hi].
  - destruct (wks s !! w) as [[|h| | | |]|]; try done. apply bind_Some in Hs as (c & Hc & Hs).
    destruct (Co.panicked c) eqn:Hp; [done |]. apply bind_Some in Hs as (task & Ht & Hs). apply (inj Some) in Hs as <-.
    pose proof (inv_co _ _ (Co.LGot h) c Hi eq_refl Hc) as Hi'. apply sys_start_inv; [done | done | | intros _; apply Hi'].
    left. unfold Co.exec in Hc. destruct (Co.panicked (co s)); [done |].
    destruct (Co.handlers (co s) !! h) as [[]|] eqn:Hh; try done. destruct (Co.HeartbeatLock_free (co s)); [| done].
    unfold Co.AllocateTask_got in Hc. destruct task0 as [task0|]; simplify_eq/=. by eapply (po_got _ (si_play _ _ Hi)).
  - destruct (wks s !! w) as [[|h| | | |]|]; try done. apply bind_Some in Hs as (c & Hc & Hs).
    pose proof (inv_co _ _ (Co.LTimeout h) c Hi eq_refl Hc) as Hi'.
    apply (inj Some) in Hs as <-. unfold Co.AllocateTask_timeout, getTask.
    case_decide; (apply sys_start_inv; [done | done | | done]); naive_solver.
  - destruct (wks s !! w) as [[]|]; try done. injection Hs as <-. by apply inv_wks.
  - destruct (wks s !! w) as [[| |x| | |]|]; try done. apply bind_Some in Hs as ([task p] & Hx & Hs).
    apply bind_Some in Hs as ([f' p'] & Hp%prog_exec_step & [= <-]). eapply inv_prog; [done | exact Hx | | done |].
    + eapply marks_step; [| done]. by eapply (si_exec _ _ Hi).
    + apply rtc_once. by eapply work.
  - destruct (wks s !! w) as [[| |x| | |]|]; try done. apply bind_Some in Hs as ([task p] & Hx & Hs).
    destruct p as [| | | | | |id k]; try done. apply bind_Some in Hs as (c & Hc & [= <-]).
    unfold Co.exec in Hc. destruct (Co.panicked (co s)); [done |]. injection Hc as <-.
    destruct (si_exec _ _ Hi x task _ Hx) as [Hok [-> Hk]].
    eapply inv_call; [done | right; exists task; split; [done |]; split; [done |]; split; [by left | done] | | | |]; simpl.
    + apply rtc_once. eapply work_report; [done | constructor].
    + intros t Ht. by right.
    + intros t [->|Ht]%elem_of_cons; [done | by apply (si_reported _ _ Hi)].
    + intros y t q [(<- & [= <- <-] & _)|[_ Hy]]%list_lookup_insert_Some; [by split | by eapply (si_exec _ _ Hi)].
  - destruct (wks s !! w) as [[]|]; try done. injection Hs as <-. by apply inv_wks.
  - destruct (wks s !! w) as [[| |x| | |]|]; try done. apply bind_Some in Hs as ([task p] & Hx & Hs).
    destruct p; try done. injection Hs as <-. by apply inv_wks.
  - assert (∀ x, sys_inv fs0 (mkState (co s) (stop (job s) x) (<[w := WDead]> (wks s)) (callers s))) as Hst.
    { intros x. unfold stop. destruct (workers (job s) !! x) as [[task p]|] eqn:Hx; [| by apply inv_wks].
      eapply inv_prog; [done | exact Hx | done | done |]. apply rtc_once. by eapply crash. }
    destruct (wks s !! w) as [[]|]; simplify_eq; try (by apply inv_wks); apply Hst.
Qed.

Lemma sys_init_inv fs0 n : sys_inv fs0 (init fs0 n).
Proof.
  assert (Co.reachable files nReduce (Co.init files)) as Hr by (by exists []).
  apply Co.reachable_inv in Hr as [Hpc _].
  split; try done; try (by intros ? ?%not_elem_of_nil).
  - split; try done; by intros ? ?%not_elem_of_nil.
  - by intros ? ? [?|?].
  - by intros _ ? ?%not_elem_of_nil.
Qed.

Lemma system_inv fs0 s : reachable fs0 s → sys_inv fs0 s.
Proof.
  intros (n & ls & Hl & Hr). revert Hr. generalize (sys_init_inv fs0 n). generalize (init fs0 n).
  induction Hl as [|l ls Hl _ IH]; intros s0 Hi Hr; simpl in Hr; [by simplify_eq |].
  apply bind_Some in Hr as (s1 & Hs & Hr). apply (IH s1); [by eapply sys_exec_inv | done].
Qed.

End system.

(** ** The properties *)

(** C13: whatever the schedule of workers, handlers, monitor and the main
    goroutine, with crashes and lost calls, what the workers do to the files
    is a run of the job [MRWorker.step]: every execution is of a task of the
    job, and a reduce task starts only after every map task was reported.  The
    coordinator leaves the map phase only then, too. *)
Theorem system_refines_job `{Json, Sorter} (files : list string) (nReduce : nat)
    (mapf : string → string → list KeyValue) (reducef : string → list string → string) (fs0 : FS) (s : State)
    (Hr : reachable files nReduce mapf reducef fs0 s) :
  rtc (step files nReduce mapf reducef) (MRWorker.mkState fs0 [] []) (job s) ∧
  (Co.Phase (Co.coord (co s)) ≠ MapPhase → maps_reported files nReduce (job s)).
Proof.
  pose proof (system_inv _ _ _ _ _ _ Hr) as Hi. split; [apply Hi |].
  intros HP i f Hf. destruct (si_maps _ _ _ _ _ _ Hi HP (map_task nReduce i f)) as [h [Hc _]]; [by exists i, f |].
  by eapply (si_callers _ _ _ _ _ _ Hi).
Qed.

(** When the coordinator is done and every map task was reported once, all
    tasks have been reported. *)
Lemma system_outputs `{Json, Sorter} (files : list string) (nReduce : nat)
    (mapf : string → string → list KeyValue) (reducef : string → list string → string)
    `{!OrderFree reducef} (fs0 : FS) (s : State)
    (Hj : job_ok files nReduce mapf fs0) (Hr : reachable files nReduce mapf reducef fs0 s)
    (Honce : maps_once files nReduce s) (Hdone : Co.Done (Co.coord (co s)) = true) :
  ∃ seq_lines, mrsequential fs0 mapf reducef files = Ret (<["mr-out-0" := String.concat "" seq_lines]> fs0) ∧
    (∀ r, (r < nReduce)%nat →
       fs (job s) !! out_file r = Some (String.concat "" (lines_of files nReduce mapf reducef fs0 r))) ∧
    concat (lines_of files nReduce mapf reducef fs0 <$> seq 0 nReduce) ≡ₚ seq_lines.
Proof.
  pose proof (system_inv _ _ _ _ _ _ Hr) as Hi. unfold Co.Done in Hdone. apply bool_decide_eq_true in Hdone.
  apply (MRApps.job_outputs files nReduce mapf reducef fs0 (job s) Hj (si_job _ _ _ _ _ _ Hi)). split.
  - intros i f Hf. destruct (si_maps _ _ _ _ _ _ Hi) with (t := map_task nReduce i f) as [h [Hc _]];
      [by rewrite Hdone | by exists i, f | by eapply (si_callers _ _ _ _ _ _ Hi)].
  - intros r Hlt. apply (si_since _ _ _ _ _ _ Hi Honce). pose proof (si_pc _ _ _ _ _ _ Hi) as Hpc.
    unfold Co.pc_inv, Co.map_made, Co.reduce_made in Hpc. unfold MapPhase, ReducePhase, DoneTask in *.
    destruct (Co.main (co s)); destruct_and? Hpc; try lia; auto.
Qed.

(** *** Witness: one worker, one file, one reduce task *)

Import MRApps.

Definition one_file : list string := ["a.txt"].
Definition one_input : FS := {[ "a.txt" := "x" ]}.
Definition mains (n : nat) : list Label := replicate n (LCo Co.LMain).
(** The worker gets a task from handler [h] and runs it, on temporary file
    [t], to its report, which handler [S h] serves. *)
Definition do_task (h calls : nat) (t : string) : list Label :=
  [LAsk 0; LCo (Co.LRecv h); LGet 0 wc_Map] ++ replicate calls (LWork 0 t) ++
  [LReport 0; LCo (Co.LMarkLock (S h)); LCo (Co.LMark (S h)); LReply 0; LReturn 0].
Definition one_run : list Label :=
  mains 3 ++ do_task 0 4 "mr-tmp-1" ++ mains 6 ++ do_task 2 4 "mr-out-tmp-1" ++ mains 2.
Definition one_end : State :=
  default (init one_file one_input 1) (run one_file 1 wc_Reduce one_run (init one_file one_input 1)).

Lemma one_end_eq : run one_file 1 wc_Reduce one_run (init one_file one_input 1) = Some one_end.
Proof.
  unfold one_end. destruct (run one_file 1 wc_Reduce one_run (init one_file one_input 1)) eqn:E; [done |].
  exfalso. revert E. vm_compute. discriminate.
Qed.

Lemma one_reachable : reachable one_file 1 wc_Map wc_Reduce one_input one_end.
Proof. exists 1%nat, one_run. split; [| exact one_end_eq].
  unfold one_run, do_task, mains. simpl. repeat first [by apply Forall_nil | apply Forall_cons; split; [simpl; done || (intros ? ?; reflexivity) |]].
Qed.

Lemma system_refines_job_witness :
  rtc (step one_file 1 wc_Map wc_Reduce) (MRWorker.mkState one_input [] []) (job one_end).
Proof. exact (proj1 (system_refines_job one_file 1 wc_Map wc_Reduce one_input one_end one_reachable)). Defined.

End MRSystem.
