(* ===== verification/MRTestApps.v ===== *)
(** * The applications of the MapReduce tests: [mrapps/]

    Besides word count and indexer ([MRApps]) the tests run applications that
    crash or take long ([crash.go], [nocrash.go], [early_exit.go]), count how
    often tasks run ([jobcount.go]) and how many run at the same time
    ([mtiming.go], [rtiming.go]).  The last two communicate through files in
    the directory of the job; they are modelled with that directory. *)

From S2P Require Import Prelude MapReduce MRWorker MRApps Coordinator MRSystem.
#[local] Open Scope string_scope.
#[local] Open Scope list_scope.

Module MRTestApps.
Import MapReduce MRWorker.

(** ** Crashing, or not *)

(** What [maybeCrash] of [crash.go] does with its random numbers. *)
Inductive Chance : Type := Exit | Delay (ms : Z) | Go.
Definition crash_maybeCrash (rr ms : Z) : Chance :=
  if decide (rr < 330)%Z then Exit else if decide (rr < 660)%Z then Delay ms else Go.
(** The condition of [nocrash.go] starts with [false &&]. *)
Definition nocrash_maybeCrash (rr : Z) : Chance := if false && bool_decide (rr < 500)%Z then Exit else Go.

Definition after (ch : Chance) {A : Type} (a : A) : option A := match ch with Exit => None | _ => Some a end.

(** [sort.Strings] on a copy. *)
Definition sort_Strings (values : list string) : list string := merge_sort String.le values.

(** *** [crash.go]

    [crash_map] and [crash_reduce] are what a call returns that survives
    [maybeCrash]; [None]: the process is gone. *)
Definition crash_map (filename contents : string) : list KeyValue :=
  let kva := [] in
  let kva := kva ++ [mkKeyValue "a" filename] in
  let kva := kva ++ [mkKeyValue "b" (Itoa (Z.of_nat (String.length filename)))] in
  let kva := kva ++ [mkKeyValue "c" (Itoa (Z.of_nat (String.length contents)))] in
  let kva := kva ++ [mkKeyValue "d" "xyzzy"] in
  kva.
Definition crash_Map (rr ms : Z) (filename contents : string) : option (list KeyValue) :=
  after (crash_maybeCrash rr ms) (crash_map filename contents).
Definition crash_reduce (key : string) (values : list string) : string :=
  let vv := sort_Strings values in
  let val := String.concat " " vv in
  val.
Definition crash_Reduce (rr ms : Z) (key : string) (values : list string) : option string :=
  after (crash_maybeCrash rr ms) (crash_reduce key values).

(** *** [nocrash.go] *)
Definition nocrash_map (filename contents : string) : list KeyValue :=
  let kva := [] in
  let kva := kva ++ [mkKeyValue "a" filename] in
  let kva := kva ++ [mkKeyValue "b" (Itoa (Z.of_nat (String.length filename)))] in
  let kva := kva ++ [mkKeyValue "c" (Itoa (Z.of_nat (String.length contents)))] in
  let kva := kva ++ [mkKeyValue "d" "xyzzy"] in
  kva.
Definition nocrash_Map (rr : Z) (filename contents : string) : option (list KeyValue) :=
  after (nocrash_maybeCrash rr) (nocrash_map filename contents).
Definition nocrash_reduce (key : string) (values : list string) : string :=
  let vv := sort_Strings values in
  let val := String.concat " " vv in
  val.
Definition nocrash_Reduce (rr : Z) (key : string) (values : list string) : option string :=
  after (nocrash_maybeCrash rr) (nocrash_reduce key values).

#[export] Instance crash_order_free : OrderFree crash_reduce.
Proof.
  intros k l l' Hl. unfold crash_reduce, sort_Strings. f_equal.
  eapply (StronglySorted_unique String.le); [apply StronglySorted_merge_sort; apply _ .. |].
  by rewrite !merge_sort_Permutation.
Qed.

(** [early_exit.go]; some reduce tasks sleep for three seconds first. *)
Definition early_exit_Map (filename contents : string) : list KeyValue := [mkKeyValue filename "1"].
Definition early_exit_Reduce (key : string) (values : list string) : string := Itoa (Z.of_nat (length values)).

#[export] Instance early_exit_order_free : OrderFree early_exit_Reduce.
Proof. intros k l l' Hl. unfold early_exit_Reduce. by rewrite Hl. Qed.

Section crash_lines.
Context (files : list string) (fs0 : FS).
Hypothesis Hfiles : ∀ f, f ∈ files → is_Some (fs0 !! f).

Definition joined (values : list string) : string := String.concat " " (sort_Strings values).
Definition content_of (f : string) : string := default "" (fs0 !! f).

(** The lines of the output: a letter each. *)
Definition crash_lines : list string :=
  [out_line "a" (joined files);
   out_line "b" (joined ((λ f, Itoa (Z.of_nat (String.length f))) <$> files));
   out_line "c" (joined ((λ f, Itoa (Z.of_nat (String.length (content_of f)))) <$> files));
   out_line "d" (joined ((λ _, "xyzzy") <$> files))].

Definition crash_pairs (fl : list string) : list KeyValue := concat ((λ f, crash_map f (content_of f)) <$> fl).

Lemma crash_all_pairs : all_pairs files crash_map fs0 = crash_pairs files.
Proof.
  unfold all_pairs, crash_pairs. f_equal. apply list_fmap_ext. intros i f Hi. unfold pairs, content_of.
  destruct (Hfiles f) as [c ->]; [by eapply list_elem_of_lookup_2 | done].
Qed.

Lemma crash_values fl :
  values_of (crash_pairs fl) "a" = fl ∧
  values_of (crash_pairs fl) "b" = (λ f, Itoa (Z.of_nat (String.length f))) <$> fl ∧
  values_of (crash_pairs fl) "c" = (λ f, Itoa (Z.of_nat (String.length (content_of f)))) <$> fl ∧
  values_of (crash_pairs fl) "d" = (λ _, "xyzzy") <$> fl.
Proof.
  induction fl as [|f fl (IHa & IHb & IHc & IHd)]; [done |]. unfold crash_pairs in *. rewrite fmap_cons. cbn [concat].
  rewrite !values_of_app, IHa, IHb, IHc, IHd. done.
Qed.

Lemma crash_keys : files ≠ [] → keys_of (crash_pairs files) = ["a"; "b"; "c"; "d"].
Proof.
  intros Hne. apply sorted_keys_unique.
  - apply keys_of_sorted.
  - repeat constructor; vm_compute; done.
  - apply keys_of_NoDup.
  - apply (bool_decide_unpack _). vm_compute. exact I.
  - intros k. rewrite keys_of_spec. unfold crash_pairs. split.
    + intros (kv & -> & Hin)%list_elem_of_fmap. apply list_elem_of_In, in_concat in Hin as (l & Hl & Hin).
      apply list_elem_of_In, list_elem_of_fmap in Hl as (f & -> & _). apply list_elem_of_In in Hin.
      unfold crash_map in Hin. simpl in Hin. set_solver.
    + destruct files as [|f fl]; [done |]. intros Hk. rewrite fmap_cons. cbn [concat]. rewrite fmap_app. apply elem_of_app. by left.
Qed.

Lemma crash_lines_spec : files ≠ [] → lines_spec crash_reduce (all_pairs files crash_map fs0) = crash_lines.
Proof.
  intros Hne. rewrite crash_all_pairs. unfold lines_spec. rewrite crash_keys by done.
  destruct (crash_values files) as (Ha & Hb & Hc & Hd). rewrite !fmap_cons, Ha, Hb, Hc, Hd. done.
Qed.

End crash_lines.

(** ** Counting executions *)

(** [jobcount.go]: the files of the directory, and [count] of each process
    that has run a task, by its pid. *)
Record Counting := mkCounting { jdir : gset string; jcount : gmap Z Z }.

Definition jobcount_file (pid count : Z) : string :=
  "mr-worker-jobcount-" +:+ Itoa pid +:+ "-" +:+ Itoa count.

(** [WriteFile] creates or truncates. *)
Definition jobcount_Map (me : Z) (s : Counting) : Counting * list KeyValue :=
  let count := map_int (jcount s) me in
  (mkCounting ({[jobcount_file me count]} ∪ jdir s) (<[me := int64 (count + 1)]> (jcount s)), [mkKeyValue "a" "x"]).

Definition jobcount_Reduce (s : Counting) (key : string) (values : list string) : string :=
  Itoa (Z.of_nat (length (filter (λ f, String.prefix "mr-worker-jobcount" f = true) (elements (jdir s))))).

Fixpoint jobcount_run (pids : list Z) (s : Counting) : Counting :=
  match pids with [] => s | p :: pids => jobcount_run pids (jobcount_Map p s).1 end.

Lemma jobcount_file_inj p c p' c' : (0 ≤ c)%Z → (0 ≤ c')%Z → jobcount_file p c = jobcount_file p' c' → p = p' ∧ c = c'.
Proof.
  unfold jobcount_file. intros Hc Hc' E. injection E as E.
  destruct (dash_digits (Itoa p) (Itoa c) (Itoa p') (Itoa c')) as [E1 E2]; [by apply Itoa_digits.. | done |].
  apply (inj Itoa) in E1, E2. done.
Qed.

Definition job_files (s : Counting) : gset string := filter (λ f, String.prefix "mr-worker-jobcount" f = true) (jdir s).

(** The directory has a file for each execution so far. *)
Record counted (n : nat) (s : Counting) : Prop := {
  cn_files : ∀ f, f ∈ job_files s → ∃ p c, f = jobcount_file p c ∧ (0 ≤ c < map_int (jcount s) p)%Z;
  cn_range : ∀ p, (0 ≤ map_int (jcount s) p ≤ Z.of_nat n)%Z;
  cn_size : size (job_files s) = n;
}.

Lemma jobcount_step n p s : counted n s → (Z.of_nat n + 1 < two63)%Z → counted (S n) (jobcount_Map p s).1.
Proof.
  intros [Hf Hr Hs] Hb. set (c := map_int (jcount s) p). pose proof (Hr p) as Hp. fold c in Hp.
  assert (∀ q, map_int (<[p := int64 (c + 1)]> (jcount s)) q = if decide (p = q) then (c + 1)%Z else map_int (jcount s) q) as Hm.
  { intros q. unfold map_int. rewrite lookup_insert. case_decide; [| done]. simpl. apply int64_small. unfold two63 in *. lia. }
  assert (job_files (jobcount_Map p s).1 = {[jobcount_file p c]} ∪ job_files s) as E.
  { unfold job_files. simpl. fold c. apply set_eq. intros f. rewrite elem_of_filter, !elem_of_union, elem_of_filter, !elem_of_singleton.
    split; [tauto |]. intros [->|?]; [split; [reflexivity | by left] | tauto]. }
  split.
  - intros f. rewrite E, elem_of_union, elem_of_singleton. cbn [jobcount_Map fst jcount]. fold c. intros [->|Hin].
    + exists p, c. split; [done |]. rewrite Hm, decide_True by done. lia.
    + destruct (Hf f Hin) as (q & d & -> & Hd). exists q, d. split; [done |]. rewrite Hm. case_decide; [subst; fold c in Hd; lia | done].
  - intros q. cbn [jobcount_Map fst jcount]. fold c. rewrite Hm. specialize (Hr q). case_decide; lia.
  - rewrite E, size_union, size_singleton, Hs; [done |]. apply disjoint_singleton_l. intros (q & d & Heq & Hd)%Hf.
    apply jobcount_file_inj in Heq as [<- <-]; [fold c in Hd; lia | lia | lia].
Qed.

Lemma jobcount_run_counted pids : ∀ n s, counted n s → (Z.of_nat n + Z.of_nat (length pids) < two63)%Z →
  counted (n + length pids) (jobcount_run pids s).
Proof.
  induction pids as [|p pids IH]; intros n s Hs Hb; simpl in *; [by rewrite Nat.add_0_r |].
  replace (n + S (length pids))%nat with (S n + length pids)%nat by lia. apply IH; [apply jobcount_step; [done | lia] | lia].
Qed.

Lemma length_filter_elements (P : string → Prop) `{∀ x, Decision (P x)} (X : gset string) :
  length (filter P (elements X)) = size (filter P X).
Proof.
  rewrite <- (size_list_to_set (C := gset string)); [| apply NoDup_filter, NoDup_elements]. done.
Qed.

(** ** Counting workers that run at the same time *)

(** [mr-worker-PHASE-PID] *)
Definition worker_file (phase : string) (pid : Z) : string := "mr-worker-" +:+ phase +:+ "-" +:+ Itoa pid.

(** [fmt.Sscanf(name, pat, &xpid)] with the pattern [mr-worker-PHASE-%d]: the
    text, then blanks, an optional sign and at least one digit; what follows is
    ignored.  A number of more than 64 bits, an error in Go, is nobody's pid. *)
Fixpoint scan_digits (acc : Z) (s : string) : Z :=
  match s with
  | String a s' => match digit a with Some d => scan_digits (10 * acc + d) s' | None => acc end
  | EmptyString => acc
  end.
Definition scan_unsigned (s : string) : option Z :=
  match s with
  | String a _ => if decide (is_Some (digit a)) then Some (scan_digits 0 s) else None
  | EmptyString => None
  end.
Definition scan_int (s : string) : option Z :=
  match s with
  | String a s' =>
      if decide (a = Ascii.ascii_of_nat 45) then Z.opp <$> scan_unsigned s'
      else if decide (a = Ascii.ascii_of_nat 43) then scan_unsigned s'
      else scan_unsigned s
  | EmptyString => None
  end.
Fixpoint skip_space (s : string) : string :=
  match s with
  | String a s' => if decide (a = Ascii.ascii_of_nat 32 ∨ a = Ascii.ascii_of_nat 9) then skip_space s' else s
  | EmptyString => EmptyString
  end.
Definition Sscanf (phase name : string) : option Z := MRApps.strip ("mr-worker-" +:+ phase +:+ "-") name ≫= λ s, scan_int (skip_space s).

Lemma scan_pretty_go x s : scan_digits 0 (pretty_N_go x s) = scan_digits (Z.of_N x) s.
Proof.
  revert s. induction (N.lt_wf_0 x) as [x _ IH]; intros s.
  destruct (decide (x = 0)%N) as [->|Hx]; [by rewrite pretty_N_go_0 |].
  rewrite pretty_N_go_step by lia. rewrite IH by (apply N.div_lt; lia). cbn [scan_digits].
  rewrite digit_pretty by (apply N.mod_lt; lia). f_equal. rewrite N2Z.inj_div, N2Z.inj_mod. pose proof (Z.div_mod (Z.of_N x) 10). lia.
Qed.

Lemma digits_scan a s : digits (String a s) → is_Some (digit a) ∧ a ≠ Ascii.ascii_of_nat 45 ∧ a ≠ Ascii.ascii_of_nat 43.
Proof.
  intros [Ha _]. unfold digit. rewrite decide_True by done. split_and!; [by eexists | |]; intros ->; vm_compute in Ha; lia.
Qed.

Lemma scan_int_Itoa z : (0 ≤ z)%Z → scan_int (skip_space (Itoa z)) = Some z.
Proof.
  intros Hz. pose proof (Itoa_digits z Hz) as Hd. assert (scan_digits 0 (Itoa z) = z) as Hs.
  { unfold Itoa. destruct z as [|p|p]; [reflexivity | | lia]. change (pretty (Z.pos p)) with (pretty (N.pos p)).
    unfold pretty, pretty_N. rewrite decide_False by done. by rewrite scan_pretty_go. }
  destruct (Itoa z) as [|a s] eqn:E.
  - exfalso. assert (z = 0%Z) as -> by (simpl in Hs; lia). vm_compute in E. done.
  - destruct (digits_scan a s Hd) as (Hdig & H45 & H43). unfold scan_int, scan_unsigned.
    assert (skip_space (String a s) = String a s) as ->.
    { simpl. rewrite decide_False; [done |]. destruct Hd as [Ha _]. intros [-> | ->]; vm_compute in Ha; lia. }
    rewrite decide_False, decide_False, decide_True, Hs by done. done.
Qed.

Lemma Sscanf_worker_file phase pid : (0 ≤ pid)%Z → Sscanf phase (worker_file phase pid) = Some pid.
Proof.
  intros Hp. unfold Sscanf, worker_file.
  replace ("mr-worker-" +:+ phase +:+ "-" +:+ Itoa pid) with (("mr-worker-" +:+ phase +:+ "-") +:+ Itoa pid)
    by (by rewrite !string_app_assoc).
  rewrite MRApps.strip_app. by apply scan_int_Itoa.
Qed.

Section parallel.
Context (phase : string).

(** Inside [nparallel]: with its file written; asleep, having counted [n]. *)
Inductive Pc : Type := Written | Asleep (n : nat).

(** The directory, the live processes and where those inside [nparallel] are. *)
Record Workers := mkWorkers { dir : gset string; alive : gset Z; inside : gmap Z Pc }.

(** The loop over the names: [kill(xpid, 0)] succeeds for a live process. *)
Definition names_live (s : Workers) (name : string) : bool :=
  match Sscanf phase name with Some xpid => bool_decide (xpid ∈ alive s) | None => false end.
Definition count_live (s : Workers) : nat := length (filter (λ name, names_live s name = true) (elements (dir s))).

Inductive Label : Type := LEnter (pid : Z) | LScan (pid : Z) | LLeave (pid : Z) | LDie (pid : Z).

(** A process that dies leaves its file behind. *)
Definition step (l : Label) (s : Workers) : option Workers :=
  match l with
  | LEnter p =>
      if decide (p ∈ alive s ∧ inside s !! p = None)
      then Some (mkWorkers ({[worker_file phase p]} ∪ dir s) (alive s) (<[p := Written]> (inside s))) else None
  | LScan p =>
      match inside s !! p with
      | Some Written => Some (mkWorkers (dir s) (alive s) (<[p := Asleep (count_live s)]> (inside s)))
      | _ => None
      end
  | LLeave p =>
      match inside s !! p with
      | Some (Asleep _) => Some (mkWorkers (dir s ∖ {[worker_file phase p]}) (alive s) (delete p (inside s)))
      | _ => None
      end
  | LDie p => if decide (p ∈ alive s) then Some (mkWorkers (dir s) (alive s ∖ {[p]}) (delete p (inside s))) else None
  end.

Fixpoint run (ls : list Label) (s : Workers) : option Workers :=
  match ls with [] => Some s | l :: ls => s' ← step l s; run ls s' end.

(** A directory without such files, and processes with these pids. *)
Definition start (d : gset string) (pids : gset Z) : Workers := mkWorkers d pids ∅.

(** Files with the names of live processes are those of processes inside; of
    any processes asleep together one has counted as many. *)
Record inv (s : Workers) : Prop := {
  iv_pos : ∀ p, p ∈ alive s → (0 ≤ p)%Z;
  iv_alive : ∀ p, is_Some (inside s !! p) → p ∈ alive s;
  iv_files : ∀ name p, name ∈ dir s → Sscanf phase name = Some p → name = worker_file phase p ∧ (0 ≤ p)%Z;
  iv_inside : ∀ p, p ∈ alive s → worker_file phase p ∈ dir s ↔ is_Some (inside s !! p);
  iv_asleep : ∀ X : gset Z, X ≠ ∅ → (∀ p, p ∈ X → ∃ n, inside s !! p = Some (Asleep n)) →
    ∃ p n, p ∈ X ∧ inside s !! p = Some (Asleep n) ∧ (size X ≤ n)%nat;
}.

#[local] Instance worker_file_inj : Inj (=) (=) (worker_file phase).
Proof.
  intros p q E. unfold worker_file in E.
  assert (∀ a b c : string, a +:+ b = a +:+ c → b = c) as Hi.
  { intros a b c. induction a as [|x a IH]; [done |]. rewrite !string_app_cons. intros [= ?]. by apply IH. }
  apply Hi, Hi, Hi in E. by apply (inj Itoa) in E.
Qed.

(** The count is the number of processes inside. *)
Lemma count_live_inside s : inv s → count_live s = size (inside s).
Proof.
  intros [Hp Ha Hf Hi _]. unfold count_live. rewrite length_filter_elements.
  assert (filter (λ name, names_live s name = true) (dir s) = list_to_set (worker_file phase <$> elements (dom (inside s)))) as ->.
  { apply set_eq. intros name. rewrite elem_of_filter, elem_of_list_to_set, list_elem_of_fmap. unfold names_live. split.
    - intros [Hn Hd]. destruct (Sscanf phase name) as [p|] eqn:E; [| done]. apply bool_decide_eq_true in Hn.
      destruct (Hf name p Hd E) as [-> _]. exists p. split; [done |]. apply elem_of_elements, elem_of_dom. by apply Hi.
    - intros (p & -> & Hin). apply elem_of_elements, elem_of_dom in Hin. rewrite Sscanf_worker_file by (by apply Hp, Ha).
      split; [by apply bool_decide_eq_true, Ha | by apply Hi; [apply Ha |]]. }
  rewrite size_list_to_set, length_fmap, <- size_dom by (apply NoDup_fmap_2; [apply _ | apply NoDup_elements]). done.
Qed.

Lemma asleep_ext (m m' : gmap Z Pc) :
  (∀ X : gset Z, X ≠ ∅ → (∀ p, p ∈ X → ∃ n, m !! p = Some (Asleep n)) → ∃ p n, p ∈ X ∧ m !! p = Some (Asleep n) ∧ (size X ≤ n)%nat) →
  (∀ p n, m' !! p = Some (Asleep n) → m !! p = Some (Asleep n)) →
  ∀ X : gset Z, X ≠ ∅ → (∀ p, p ∈ X → ∃ n, m' !! p = Some (Asleep n)) → ∃ p n, p ∈ X ∧ m' !! p = Some (Asleep n) ∧ (size X ≤ n)%nat.
Proof.
  intros H Hm X Hne HX. destruct (H X Hne) as (p & n & Hp & Hn & Hs).
  { intros p Hp. destruct (HX p Hp) as [n Hn]. exists n. by apply Hm. }
  exists p, n. split; [done |]. split; [| done]. destruct (HX p Hp) as [n' Hn']. rewrite (Hm _ _ Hn') in Hn. congruence.
Qed.

Lemma step_workers l s s' : inv s → step l s = Some s' → inv s'.
Proof.
  intros Hs H. pose proof (count_live_inside s Hs) as Hc. destruct Hs as [Hp Ha Hf Hi Hx]. destruct l as [p|p|p|p]; simpl in H.
  - case_decide as Hd; [| done]. injection H as <-. destruct Hd as [Hal Hno]. split; simpl.
    + done.
    + intros q. rewrite lookup_insert. case_decide; [by subst | apply Ha].
    + intros name q [->%elem_of_singleton|Hn]%elem_of_union E; [| by apply Hf]. rewrite Sscanf_worker_file in E by (by apply Hp).
      injection E as <-. split; [done | by apply Hp].
    + intros q Hq. rewrite elem_of_union, elem_of_singleton, lookup_insert. case_decide as Hd; [subst; split; [by eexists | by left] |].
      rewrite <- (Hi q Hq). split; [intros [E|?]; [| done] | by right]. apply (inj _) in E. congruence.
    + eapply asleep_ext; [exact Hx |]. intros q n. rewrite lookup_insert. by case_decide.
  - destruct (inside s !! p) as [[|]|] eqn:E; try done. injection H as <-. split; simpl; try done.
    + intros q. rewrite lookup_insert. case_decide; [subst; intros _; apply Ha; by eexists | apply Ha].
    + intros q Hq. rewrite lookup_insert, (Hi q Hq). case_decide; [subst | done]. rewrite E. split; intros _; by eexists.
    + intros X Hne HX. destruct (decide (p ∈ X)) as [Hin|Hin].
      * exists p, (count_live s). rewrite lookup_insert_eq. split_and!; [done | done |]. rewrite Hc, <- size_dom. apply subseteq_size.
        intros q Hq. apply elem_of_dom. destruct (HX q Hq) as [n Hn]. rewrite lookup_insert in Hn. case_decide; [by subst; eexists | by eexists].
      * destruct (Hx X Hne) as (q & n & Hq & Hn & Hsz).
        { intros q Hq. destruct (HX q Hq) as [n Hn]. rewrite lookup_insert_ne in Hn by (by intros ->). by exists n. }
        exists q, n. rewrite lookup_insert_ne by (by intros ->). done.
  - destruct (inside s !! p) as [[|k]|] eqn:E; try done. injection H as <-. split; simpl; try done.
    + intros q. rewrite lookup_delete. case_decide; [by intros [? ?] | apply Ha].
    + intros name q [Hn _]%elem_of_difference. by apply Hf.
    + intros q Hq. rewrite elem_of_difference, elem_of_singleton, lookup_delete. case_decide as Hd.
      * subst. split; [naive_solver | by intros [? ?]].
      * rewrite <- (Hi q Hq). split; [naive_solver |]. intros ?. split; [done |]. intros Heq. apply (inj _) in Heq. congruence.
    + eapply asleep_ext; [exact Hx |]. intros q n. rewrite lookup_delete. by case_decide.
  - case_decide as Hal; [| done]. injection H as <-. split; simpl; try done.
    + intros q [Hq _]%elem_of_difference. by apply Hp.
    + intros q. rewrite lookup_delete, elem_of_difference, elem_of_singleton. case_decide; [by intros [? ?] |].
      intros Hq. split; [by apply Ha | congruence].
    + intros q [Hq Hne]%elem_of_difference. rewrite elem_of_singleton in Hne. rewrite lookup_delete_ne by congruence. by apply Hi.
    + eapply asleep_ext; [exact Hx |]. intros q n. rewrite lookup_delete. by case_decide.
Qed.

Lemma run_workers ls : ∀ s s', inv s → run ls s = Some s' → inv s'.
Proof.
  induction ls as [|l ls IH]; intros s s' Hs H; simpl in H; [by injection H as <- |].
  apply bind_Some in H as (s1 & H1 & H2). eapply IH; [by eapply step_workers | done].
Qed.

Lemma start_workers d pids :
  (∀ p, p ∈ pids → (0 ≤ p)%Z) → (∀ name, name ∈ d → Sscanf phase name = None) → inv (start d pids).
Proof.
  intros Hp Hd. split; simpl.
  - done.
  - intros p [? Hx]. by rewrite lookup_empty in Hx.
  - intros name p Hn. by rewrite (Hd name Hn).
  - intros p Hin. rewrite lookup_empty. split; [| by intros [? ?]]. intros Hx%Hd. by rewrite Sscanf_worker_file in Hx by (by apply Hp).
  - intros X Hne HX. apply set_choose_L in Hne as [p Hin]. destruct (HX p Hin) as [n Hn]. by rewrite lookup_empty in Hn.
Qed.

End parallel.

(** What [mtiming.go] and [rtiming.go] make of the count: [ts] is the time as
    printed with one decimal. *)
Definition mtiming_Map (pid : Z) (ts : string) (n : nat) : list KeyValue :=
  [mkKeyValue ("times-" +:+ Itoa pid) ts; mkKeyValue ("parallel-" +:+ Itoa pid) (Itoa (Z.of_nat n))].
Definition mtiming_Reduce (key : string) (values : list string) : string := String.concat " " (sort_Strings values).
Definition rtiming_Map (filename contents : string) : list KeyValue :=
  (λ k, mkKeyValue k "1") <$> ["a"; "b"; "c"; "d"; "e"; "f"; "g"; "h"; "i"; "j"].
Definition rtiming_Reduce (n : nat) (key : string) (values : list string) : string := Itoa (Z.of_nat n).

(** ** The properties *)

(** C20: the crash test passes.  The test compares the output of the
    distributed job on [crash.go] with that of the sequential program on
    [nocrash.go].  A call of [crash.go] that does not end the process returns
    what [nocrash.go] returns, which never ends it.  Let the job have at least
    one input file and one reduce task; let every input file exist and have a
    name that does not start with [mr-] and, like the other pairs, survives
    JSON, and let no file with such a name be there at the start.  Then when
    the coordinator is done with the job of [crash.go], whatever workers
    crashed or were slow, provided no map task was reported twice, the output
    files [mr-out-r] together have, up to their order, the lines that
    [mrsequential] writes with the functions of [nocrash.go] on the same
    files: for each of the four letters the sorted values of all files. *)
Theorem crash_test_passes `{Json, Sorter} (files : list string) (nReduce : nat) (fs0 : FS) (s : MRSystem.State)
    (Hne : files ≠ []) (Hj : job_ok files nReduce crash_map fs0)
    (Hr : MRSystem.reachable files nReduce crash_map crash_reduce fs0 s)
    (Honce : MRSystem.maps_once files nReduce s) (Hdone : Coordinator.Done (Coordinator.coord (MRSystem.co s)) = true) :
  (∀ rr rr' ms f c, crash_Map rr ms f c = None ∨ crash_Map rr ms f c = nocrash_Map rr' f c) ∧
  (∀ rr rr' ms k vs, crash_Reduce rr ms k vs = None ∨ crash_Reduce rr ms k vs = nocrash_Reduce rr' k vs) ∧
  (∀ rr f c k vs, nocrash_Map rr f c = Some (nocrash_map f c) ∧ nocrash_Reduce rr k vs = Some (nocrash_reduce k vs)) ∧
  ∃ (seq_lines : list string) (out : nat → list string),
    mrsequential fs0 nocrash_map nocrash_reduce files = Ret (<["mr-out-0" := String.concat "" seq_lines]> fs0) ∧
    (∀ r, (r < nReduce)%nat → fs (MRSystem.job s) !! out_file r = Some (String.concat "" (out r))) ∧
    concat (out <$> seq 0 nReduce) ≡ₚ seq_lines ∧ seq_lines ≡ₚ crash_lines files fs0.
Proof.
  split; [| split; [| split]].
  - intros rr rr' ms f c. unfold crash_Map, nocrash_Map, crash_maybeCrash. repeat case_decide; simpl; auto.
  - intros rr rr' ms k vs. unfold crash_Reduce, nocrash_Reduce, crash_maybeCrash. repeat case_decide; simpl; auto.
  - done.
  - destruct (MRSystem.system_outputs files nReduce crash_map crash_reduce fs0 s Hj Hr Honce Hdone) as (lines & Hseq & Hout & Hperm).
    exists lines, (lines_of files nReduce crash_map crash_reduce fs0). split; [exact Hseq |]. split; [done |]. split; [done |].
    rewrite <- Hperm, <- crash_lines_spec; [| intros f Hf; by apply (jo_inputs _ _ _ _ Hj) | done].
    apply lines_spec_split. intros k. apply reduce_index_lt, (jo_reduce _ _ _ _ Hj).
Qed.

(** The job-count test counts.  When a directory has no file of the
    application, and then map tasks run, any number of them in each of any
    number of processes with different pids, [Reduce] returns the number of
    times [Map] was called. *)
Theorem jobcount_counts (d : gset string) (pids : list Z) (key : string) (values : list string)
    (Hd : ∀ f, f ∈ d → String.prefix "mr-worker-jobcount" f = false) (Hb : (Z.of_nat (length pids) < two63)%Z) :
  jobcount_Reduce (jobcount_run pids (mkCounting d ∅)) key values = Itoa (Z.of_nat (length pids)).
Proof.
  assert (counted 0 (mkCounting d ∅)) as H0.
  { assert (job_files (mkCounting d ∅) = ∅) as E.
    { unfold job_files. simpl. apply set_eq. intros f. rewrite elem_of_filter. split; [| set_solver].
      intros [Hp Hf]. by rewrite (Hd f Hf) in Hp. }
    split; [intros f; rewrite E; set_solver | intros p; done | rewrite E; by rewrite size_empty]. }
  pose proof (jobcount_run_counted pids 0 _ H0 Hb) as [_ _ Hs]. unfold job_files in Hs. unfold jobcount_Reduce. by rewrite length_filter_elements, Hs.
Qed.

(** [nparallel] measures parallelism.  Whatever processes enter, leave or
    die, leaving their files behind: the number a process counts is the number
    of processes that are inside [nparallel] at that moment, itself included;
    and of any processes that are asleep in it at the same time, one has
    counted at least that many, so the tests see the parallelism there is. *)
Theorem nparallel_measures (phase : string) (d : gset string) (pids : gset Z) (ls : list Label) (s : Workers)
    (Hp : ∀ p, p ∈ pids → (0 ≤ p)%Z) (Hd : ∀ name, name ∈ d → Sscanf phase name = None)
    (Hr : run phase ls (start d pids) = Some s) :
  (∀ p s', step phase (LScan p) s = Some s' → inside s' !! p = Some (Asleep (size (inside s))) ∧ p ∈ alive s) ∧
  (∀ X : gset Z, X ≠ ∅ → (∀ p, p ∈ X → ∃ n, inside s !! p = Some (Asleep n)) →
     ∃ p n, p ∈ X ∧ inside s !! p = Some (Asleep n) ∧ (size X ≤ n)%nat).
Proof.
  pose proof (run_workers phase ls _ s (start_workers phase d pids Hp Hd) Hr) as Hs. split; [| apply Hs].
  intros p s' H. simpl in H. destruct (inside s !! p) as [[|]|] eqn:E; try done. injection H as <-. simpl.
  rewrite lookup_insert_eq, (count_live_inside phase s Hs). split; [done |]. apply (iv_alive _ _ Hs). by eexists.
Qed.

(** *** Witnesses *)

Import MRApps.

(** One worker runs the map and the reduce task of one file. *)
Definition crash_task (h : nat) (t : string) : list MRSystem.Label :=
  [MRSystem.LAsk 0; MRSystem.LCo (Coordinator.LRecv h); MRSystem.LGet 0 crash_map] ++ replicate 7 (MRSystem.LWork 0 t) ++
  [MRSystem.LReport 0; MRSystem.LCo (Coordinator.LMarkLock (S h)); MRSystem.LCo (Coordinator.LMark (S h)); MRSystem.LReply 0; MRSystem.LReturn 0].
Definition crash_run : list MRSystem.Label :=
  MRSystem.mains 3 ++ crash_task 0 "mr-tmp-1" ++ MRSystem.mains 6 ++ crash_task 2 "mr-out-tmp-1" ++ MRSystem.mains 2.
Definition crash_start : MRSystem.State := MRSystem.init MRSystem.one_file MRSystem.one_input 1.
Definition crash_end : MRSystem.State := default crash_start (MRSystem.run MRSystem.one_file 1 crash_reduce crash_run crash_start).

Lemma crash_end_eq : MRSystem.run MRSystem.one_file 1 crash_reduce crash_run crash_start = Some crash_end.
Proof.
  unfold crash_end. destruct (MRSystem.run MRSystem.one_file 1 crash_reduce crash_run crash_start) eqn:E; [done |].
  exfalso. revert E. vm_compute. discriminate.
Qed.

Lemma crash_reachable : MRSystem.reachable MRSystem.one_file 1 crash_map crash_reduce MRSystem.one_input crash_end.
Proof.
  exists 1%nat, crash_run. split; [| exact crash_end_eq]. unfold crash_run, crash_task, MRSystem.mains. simpl.
  repeat first [by apply Forall_nil | apply Forall_cons; split; [simpl; done || (intros ? ?; reflexivity) |]].
Qed.

Lemma crash_job : job_ok MRSystem.one_file 1 crash_map MRSystem.one_input.
Proof.
  split.
  - lia.
  - intros f ->%list_elem_of_singleton. split; [vm_compute; eauto | discriminate].
  - intros f kv ->%list_elem_of_singleton Hkv. unfold pairs in Hkv.
    assert (MRSystem.one_input !! "a.txt" = Some "x") as E by reflexivity. rewrite E in Hkv. unfold crash_map in Hkv. simpl in Hkv.
    rewrite !elem_of_cons, elem_of_nil in Hkv. destruct_or! Hkv; subst; try done; vm_compute; repeat split; lia.
  - intros s. by apply lookup_singleton_ne.
Qed.

Lemma crash_test_passes_witness :
  fs (MRSystem.job crash_end) !! "mr-out-0" = Some (String.concat "" (crash_lines MRSystem.one_file MRSystem.one_input)) ∧
  ∃ seq_lines, mrsequential MRSystem.one_input nocrash_map nocrash_reduce MRSystem.one_file =
      Ret (<["mr-out-0" := String.concat "" seq_lines]> MRSystem.one_input) ∧
    seq_lines ≡ₚ crash_lines MRSystem.one_file MRSystem.one_input.
Proof.
  split; [vm_compute; reflexivity |].
  destruct (crash_test_passes MRSystem.one_file 1 MRSystem.one_input crash_end) as (_ & _ & _ & lines & out & Hseq & _ & _ & Hout).
  - discriminate.
  - exact crash_job.
  - exact crash_reachable.
  - intros h h' t _ H1 H2.
    assert (MRSystem.callers crash_end = [None; Some (map_task 1 0 "a.txt"); None; Some (reduce_task 1 0)]) as E by (vm_compute; reflexivity).
    rewrite E in H1, H2. clear E.
    destruct h as [|[|[|[|h]]]], h' as [|[|[|[|h']]]]; simpl in H1, H2; unfold map_task, reduce_task, MakeMapTask, MakeReduceTask in *; try done; congruence.
  - vm_compute. reflexivity.
  - exists lines. split; [exact Hseq | exact Hout].
Defined.

Lemma jobcount_counts_witness :
  jobcount_Reduce (jobcount_run [7; 9; 7; 12; 7]%Z (mkCounting {["mr-0-0"; "pg.txt"]} ∅)) "a" ["x"] = "5".
Proof.
  rewrite (jobcount_counts {["mr-0-0"; "pg.txt"]} [7; 9; 7; 12; 7]%Z "a" ["x"]).
  - reflexivity.
  - intros f Hf. apply elem_of_union in Hf as [->%elem_of_singleton | ->%elem_of_singleton]; reflexivity.
  - reflexivity.
Defined.

(** Two workers asleep at once, and the file of a third that died. *)
Definition ex_steps : list Label := [LEnter 5; LEnter 7; LScan 7; LDie 5; LEnter 8; LScan 8]%Z.
Definition ex_workers : Workers := default (start ∅ ∅) (run "map" ex_steps (start {["mr-0-0"]} {[5; 7; 8]}%Z)).

Lemma ex_workers_run : run "map" ex_steps (start {["mr-0-0"]} {[5; 7; 8]}%Z) = Some ex_workers.
Proof. vm_compute. reflexivity. Qed.

Lemma nparallel_measures_witness :
  ∃ p n, p ∈ ({[7; 8]} : gset Z)%Z ∧ inside ex_workers !! p = Some (Asleep n) ∧ (size ({[7; 8]} : gset Z)%Z ≤ n)%nat.
Proof.
  apply (nparallel_measures "map" {["mr-0-0"]} {[5; 7; 8]}%Z ex_steps ex_workers).
  - intros p. rewrite !elem_of_union, !elem_of_singleton. lia.
  - intros name ->%elem_of_singleton. reflexivity.
  - exact ex_workers_run.
  - discriminate.
  - intros p Hp. apply elem_of_union in Hp as [->%elem_of_singleton | ->%elem_of_singleton]; eexists; vm_compute; reflexivity.
Defined.

End MRTestApps.
