(* ===== verification/MRMain.v ===== *)
(** * The MapReduce programs: [main/mrcoordinator.go], [main/mrworker.go],
      [main/mrsequential.go], [mr/rpc.go]

    The command lines, loading the application from a plugin, the sockets, and
    the loop in which the coordinator's process waits for the job.  Go's
    [plugin] package is the class [Plugins].  Shown: the programs together
    compute what the sequential program computes on the same plugin and
    files. *)

From S2P Require Import Prelude MapReduce MRWorker MRApps Coordinator MRSystem.

Module MRMain.
Import MapReduce MRWorker MRApps.
Module Co := Coordinator.

(** ** [mr/rpc.go] *)

Record ExampleArgs := mkExampleArgs { X : Z }.
Record ExampleReply := mkExampleReply { Y : Z }.
Record AllocateTaskReply := mkAllocateTaskReply { AR_Task : option Task; AR_Lenfiles : Z }.
Record ReportTaskDoneArgs := mkReportTaskDoneArgs { RA_Taskid : Z }.

(** The name of the coordinator's socket, for the user [uid]. *)
Definition coordinatorSock (uid : Z) : string := "/var/tmp/5840-mr-" +:+ Itoa uid.

(** [Coordinator.Example]; the error is nil. *)
Definition Example_ (args : ExampleArgs) (reply : ExampleReply) : ExampleReply := mkExampleReply (int64 (X args + 1)).

(** [call]: whether [rpc.DialHTTP] succeeds and whether the call returns an
    error decide; without a connection the process stops. *)
Definition call (dial : bool) (err : bool) : GoRes bool :=
  if dial then Ret (negb err) else Abort "dialing".

(** [server]: the coordinator replaces what is at the socket's name, among the
    names [socks] of the system's sockets, by one of its own; [listen] tells
    whether [net.Listen] succeeds. *)
Definition server (uid : Z) (listen : bool) (socks : gset string) : GoRes (gset string) :=
  let sockname := coordinatorSock uid in
  let socks := socks ∖ {[sockname]} in
  if listen then Ret ({[sockname]} ∪ socks) else Abort "listen error".

(** A worker of the same user reaches the coordinator, and the sockets of
    other users are left alone. *)
Lemma server_reachable uid socks socks' :
  server uid true socks = Ret socks' →
  coordinatorSock uid ∈ socks' ∧
  ∀ uid', uid' ≠ uid → (coordinatorSock uid' ∈ socks' ↔ coordinatorSock uid' ∈ socks).
Proof.
  unfold server. intros [= <-]. split; [set_solver |]. intros uid' Hne.
  assert (coordinatorSock uid' ≠ coordinatorSock uid); [| set_solver].
  unfold coordinatorSock. intros E. apply Hne, (inj Itoa). revert E. by intros [=].
Qed.

(** ** [ByKey] *)

Definition ByKey_Len (a : list KeyValue) : nat := length a.
Definition ByKey_Swap (a : list KeyValue) (i j : nat) : GoRes (list KeyValue) :=
  (let* x := deref (a !! i) "index out of range" in
   let* y := deref (a !! j) "index out of range" in
   Ret (<[j := x]> (<[i := y]> a)))%go.
Definition ByKey_Less (a : list KeyValue) (i j : nat) : GoRes bool :=
  (let* x := deref (a !! i) "index out of range" in
   let* y := deref (a !! j) "index out of range" in
   Ret (bool_decide (key_le x y ∧ Key x ≠ Key y)))%go.

(** Swapping keeps the elements, and a list in which no element is less than
    an earlier one is in the order that [Sorter] promises: what [sort.Sort]
    needs of its argument. *)
Lemma ByKey_Swap_perm a i j a' : ByKey_Swap a i j = Ret a' → a' ≡ₚ a.
Proof.
  unfold ByKey_Swap. destruct (a !! i) as [x|] eqn:Hi; [| done]. destruct (a !! j) as [y|] eqn:Hj; [| done].
  simpl. intros [= <-]. by apply list_swap_perm.
Qed.

Lemma ByKey_Less_sorted a :
  (∀ i j, (i < j < ByKey_Len a)%nat → ByKey_Less a j i = Ret false) → StronglySorted key_le a.
Proof.
  unfold ByKey_Len. induction a as [|x a IH]; intros Hless; constructor.
  - apply IH. intros i j Hij. apply (Hless (S i) (S j)). simpl. lia.
  - apply Forall_lookup. intros j y Hj. pose proof (lookup_lt_Some _ _ _ Hj).
    specialize (Hless 0%nat (S j)). unfold ByKey_Less in Hless. simpl in Hless. rewrite Hj in Hless. simpl in Hless.
    specialize (Hless ltac:(lia)). injection Hless as Hb%bool_decide_eq_false.
    destruct (total key_le x y) as [?|Hyx]; [done |].
    destruct (decide (Key y = Key x)) as [E|?]; [unfold key_le; rewrite E; reflexivity | by destruct Hb].
Qed.

(** ** Loading the application *)

(** A symbol of a plugin, with the type a type assertion finds. *)
Inductive Symbol : Type :=
| SMap (f : string → string → list KeyValue)          (** [func(string, string) []mr.KeyValue] *)
| SReduce (f : string → list string → string)         (** [func(string, []string) string] *)
| SOther.

(** The type assertions of [loadPlugin]; a failing one panics. *)
Definition as_mapf (x : Symbol) : GoRes (string → string → list KeyValue) :=
  match x with SMap f => Ret f | _ => Abort "interface conversion" end.
Definition as_reducef (x : Symbol) : GoRes (string → list string → string) :=
  match x with SReduce f => Ret f | _ => Abort "interface conversion" end.

(** Go's [plugin] package: [Open] of a file, and [Lookup] of a name. *)
Class Plugins : Type := {
  Plugin : Type;
  plugin_Open : string → option Plugin;
  plugin_Lookup : Plugin → string → option Symbol
}.

Section programs.
Context `{Plugins, Json, Sorter}.

(** [loadPlugin] of [mrsequential.go]. *)
Definition loadPlugin (filename : string) :
    GoRes ((string → string → list KeyValue) * (string → list string → string)) :=
  (let* p := deref (plugin_Open filename) ("cannot load plugin " +:+ filename) in
   let* xmapf := deref (plugin_Lookup p "Map") ("cannot find Map in " +:+ filename) in
   let* mapf := as_mapf xmapf in
   let* xreducef := deref (plugin_Lookup p "Reduce") ("cannot find Reduce in " +:+ filename) in
   let* reducef := as_reducef xreducef in
   Ret (mapf, reducef))%go.

(** [mrworker.go] has its own copy. *)
Definition mrworker_loadPlugin := loadPlugin.

(** ** The three programs

    [args] is [os.Args], the program's name first. *)

Definition mrsequential_main (args : list string) (fs : FS) : GoRes FS :=
  match args with
  | _ :: so :: f :: files =>
      (let* fns := loadPlugin so in
       mrsequential fs fns.1 fns.2 (f :: files))%go
  | _ => Abort "Usage: mrsequential xxx.so inputfiles..."
  end.

(** The functions [main] of [mrworker.go] hands to [mr.Worker], which runs as
    a worker of [MRSystem]. *)
Definition mrworker_main (args : list string) :
    GoRes ((string → string → list KeyValue) * (string → list string → string)) :=
  match args with
  | [_; so] => mrworker_loadPlugin so
  | _ => Abort "Usage: mrworker xxx.so"
  end.

(** What [main] of [mrcoordinator.go] hands to [MakeCoordinator]. *)
Definition mrcoordinator_main (args : list string) : GoRes (list string * nat) :=
  match args with
  | _ :: f :: files => Ret (f :: files, 10%nat)
  | _ => Abort "Usage: mrcoordinator inputfiles..."
  end.

(** The rest of [main]: in [MakeCoordinator], in the loop that polls [Done],
    in the last [Sleep], and after the process has exited. *)
Inductive CPc : Type := CMake | CPoll | CLinger | CExited.

Record PState := mkPState { pc : CPc; sys : MRSystem.State }.

(** Steps that need the coordinator's process: its own, and calls it answers. *)
Definition needs_coordinator (l : MRSystem.Label) : bool :=
  match l with
  | MRSystem.LCo _ | MRSystem.LAsk _ | MRSystem.LGet _ _ | MRSystem.LNothing _ _ | MRSystem.LReport _ => true
  | _ => false
  end.

Section run.
Context (files : list string) (nReduce : nat).
Context (mapf : string → string → list KeyValue) (reducef : string → list string → string).

(** Once the coordinator's process is gone, a call in progress fails, and a
    worker that dials stops ([log.Fatal], a worker that dies). *)
Inductive pstep : PState → PState → Prop :=
| pstep_sys l s s' c :
    MRSystem.exec files nReduce reducef l s = Some s' → MRSystem.label_ok mapf l →
    (c = CExited → needs_coordinator l = false) → pstep (mkPState c s) (mkPState c s')
| pstep_made s : Co.main (MRSystem.co s) = Co.MReturn → pstep (mkPState CMake s) (mkPState CPoll s)
| pstep_done s : Co.Done (Co.coord (MRSystem.co s)) = true → pstep (mkPState CPoll s) (mkPState CLinger s)
| pstep_sleep s : Co.Done (Co.coord (MRSystem.co s)) = false → pstep (mkPState CPoll s) (mkPState CPoll s)
| pstep_exit s : pstep (mkPState CLinger s) (mkPState CExited s).

Definition pinit (fs0 : FS) (n : nat) : PState := mkPState CMake (MRSystem.init files fs0 n).

(** ** When the coordinator's program ends *)

(** [MakeCoordinator] has nothing left to do once it returned. *)
Lemma co_main_stays l c c' :
  Co.exec files nReduce l c = Some c' → Co.main c = Co.MReturn → Co.main c' = Co.MReturn.
Proof.
  unfold Co.exec. intros Hs Hm. destruct (Co.panicked c); [done |].
  destruct l; try unfold Co.main_step in Hs; rewrite ?Hm in Hs;
    repeat (case_match || case_decide || (apply bind_Some in Hs as (? & ? & Hs)) || simplify_eq/=); done.
Qed.

Lemma sys_main_stays l s s' :
  MRSystem.exec files nReduce reducef l s = Some s' → Co.main (MRSystem.co s) = Co.MReturn →
  Co.main (MRSystem.co s') = Co.MReturn.
Proof.
  intros Hs Hm. destruct l; simpl in Hs;
    repeat (case_match || (apply bind_Some in Hs as (? & ? & Hs)) || simplify_eq/=);
    unfold MRSystem.start_task, MRSystem.getTask, Co.AllocateTask_timeout; simpl; repeat case_match; simpl;
    try done; by eapply co_main_stays.
Qed.

Lemma reachable_step fs0 s l s' :
  MRSystem.reachable files nReduce mapf reducef fs0 s → MRSystem.label_ok mapf l →
  MRSystem.exec files nReduce reducef l s = Some s' → MRSystem.reachable files nReduce mapf reducef fs0 s'.
Proof.
  intros (n & ls & Hok & Hr) Hl Hs. exists n, (ls ++ [l]). split; [by apply Forall_app_2; [| apply Forall_singleton] |].
  revert Hr. generalize (MRSystem.init files fs0 n). clear Hok. induction ls as [|l' ls IH]; intros s0 Hr; simpl in *.
  - injection Hr as ->. by rewrite Hs.
  - apply bind_Some in Hr as (s1 & E & Hr). rewrite E. simpl. by apply IH.
Qed.

(** The program's states are states of the system, and [main] goes on to its
    loop only after [MakeCoordinator] returned. *)
Lemma program_inv fs0 n p :
  rtc pstep (pinit fs0 n) p →
  MRSystem.reachable files nReduce mapf reducef fs0 (sys p) ∧
  (pc p ≠ CMake → Co.main (MRSystem.co (sys p)) = Co.MReturn).
Proof.
  intros Hp. remember (pinit fs0 n) as p0 eqn:E.
  assert (MRSystem.reachable files nReduce mapf reducef fs0 (sys p0) ∧
    (pc p0 ≠ CMake → Co.main (MRSystem.co (sys p0)) = Co.MReturn)) as Hi.
  { subst. split; [by exists n, [] | done]. }
  clear E. induction Hp as [|p0 p1 p2 Hs _ IH]; [done |]. apply IH. destruct Hi as [Hr Hm].
  destruct Hs; simpl in *; try by auto. split; [by eapply reachable_step | eauto using sys_main_stays].
Qed.

(** The loop of [main] never sleeps: [MakeCoordinator] returns in the last
    phase. *)
Lemma program_done fs0 n p :
  rtc pstep (pinit fs0 n) p → pc p ≠ CMake → Co.Done (Co.coord (MRSystem.co (sys p))) = true.
Proof.
  intros [Hr Hm]%program_inv Hpc. specialize (Hm Hpc).
  pose proof (MRSystem.si_pc _ _ _ _ _ _ (MRSystem.system_inv _ _ _ _ _ _ Hr)) as Hi.
  unfold Co.pc_inv in Hi. rewrite Hm in Hi. unfold Co.Done. apply bool_decide_eq_true. apply Hi.
Qed.

(** A run of the system, while [main] is in [MakeCoordinator]. *)
Lemma program_run ls s s' :
  Forall (MRSystem.label_ok mapf) ls → MRSystem.run files nReduce reducef ls s = Some s' →
  rtc pstep (mkPState CMake s) (mkPState CMake s').
Proof.
  intros Hok. revert s. induction Hok as [|l ls Hl _ IH]; intros s Hr; simpl in Hr; [by simplify_eq |].
  apply bind_Some in Hr as (s1 & Hs & Hr). eapply rtc_l; [by eapply (pstep_sys l) | by apply IH].
Qed.

End run.
End programs.

(** ** The properties *)

(** C8: the MapReduce programs compute what the sequential program computes,
    under these conditions: the plugin's [Reduce] does not depend on the
    order of the values it is given ([OrderFree]); every input file exists and
    has a name that does not start with [mr-], and no file with such a name
    is in the directory at the start; every pair that [Map] makes of an input
    survives being written and read as JSON ([job_ok]); and no map task is
    reported twice, as it would be by a worker slower than the ten seconds the
    monitor allows ([maps_once]).  Then, with workers started on a plugin and
    the coordinator on a list of files, when [main] of the coordinator has
    come back from [MakeCoordinator], in its loop or exited, with workers
    still running or dying, [Done] is true and the output files together hold
    exactly the lines that the sequential program, started on the same plugin
    and files, writes. *)
Theorem programs_match_sequential `{Plugins, Json, Sorter} (cname wname sname so : string) (args files : list string)
    (nReduce n : nat) (mapf : string → string → list KeyValue) (reducef : string → list string → string)
    `{!OrderFree reducef} (fs0 : FS) (p : PState)
    (Hc : mrcoordinator_main (cname :: args) = Ret (files, nReduce))
    (Hw : mrworker_main [wname; so] = Ret (mapf, reducef))
    (Hj : job_ok files nReduce mapf fs0)
    (Hp : rtc (pstep files nReduce mapf reducef) (pinit files fs0 n) p)
    (Hpc : pc p ≠ CMake) (Honce : MRSystem.maps_once files nReduce (sys p)) :
  Co.Done (Co.coord (MRSystem.co (sys p))) = true ∧
  ∃ seq_lines,
    mrsequential_main (sname :: so :: args) fs0 = Ret (<["mr-out-0" := String.concat "" seq_lines]> fs0) ∧
    (∀ r, (r < nReduce)%nat →
       fs (MRSystem.job (sys p)) !! out_file r = Some (String.concat "" (lines_of files nReduce mapf reducef fs0 r))) ∧
    concat (lines_of files nReduce mapf reducef fs0 <$> seq 0 nReduce) ≡ₚ seq_lines.
Proof.
  pose proof (program_done _ _ _ _ _ _ _ Hp Hpc) as Hd. split; [done |].
  destruct args as [|f args]; [done |]. injection Hc as <- <-. simpl in Hw |- *. unfold mrworker_loadPlugin in Hw. rewrite Hw. simpl.
  apply MRSystem.system_outputs; [done | done | by eapply program_inv | done | done].
Qed.

(** *** Witness: word count of five files with one worker *)

#[local] Instance wc_plugins : Plugins := {|
  Plugin := unit;
  plugin_Open f := if decide (f = "wc.so") then Some tt else None;
  plugin_Lookup _ s :=
    if decide (s = "Map") then Some (SMap MRApps.wc_Map)
    else if decide (s = "Reduce") then Some (SReduce MRApps.wc_Reduce) else None
|}.

Definition five_files : list string := ["a"; "b"; "c"; "d"; "e"].
Definition five_inputs : FS := list_to_map ((λ f, (f, f)) <$> five_files).

(** The worker takes and runs the five map tasks of 22 calls each, then the
    ten reduce tasks, of seven calls and one for each line. *)
Definition five_run : list MRSystem.Label :=
  MRSystem.mains 11 ++ flat_map (λ i, MRSystem.do_task (2 * i) 22 "mr-tmp-1") (seq 0 5) ++ MRSystem.mains 24 ++
  flat_map (λ i, MRSystem.do_task (10 + 2 * i)
                   (7 + length (filter (λ f, reduce_index 10 f = i) five_files)) "mr-out-tmp-1") (seq 0 10) ++
  MRSystem.mains 13.

Definition five_end : MRSystem.State :=
  default (MRSystem.init five_files five_inputs 1)
    (MRSystem.run five_files 10 wc_Reduce five_run (MRSystem.init five_files five_inputs 1)).

Lemma five_run_ok : Forall (MRSystem.label_ok wc_Map) five_run.
Proof.
  assert (∀ h c t, Forall (MRSystem.label_ok wc_Map) (MRSystem.do_task h c t)) as Hd.
  { intros h c t. unfold MRSystem.do_task. repeat first [apply Forall_app_2 | apply Forall_replicate | apply Forall_cons; split | apply Forall_nil];
      done || (intros ? ?; reflexivity). }
  unfold five_run. rewrite !Forall_app, !Forall_flat_map.
  split_and!; try (by apply Forall_replicate); apply Forall_forall; intros i _; apply Hd.
Qed.

Lemma five_exits :
  rtc (pstep five_files 10 wc_Map wc_Reduce) (pinit five_files five_inputs 1) (mkPState CExited five_end).
Proof.
  etrans; [apply (program_run _ _ _ _ five_run _ five_end five_run_ok) |].
  - unfold five_end. destruct (MRSystem.run _ _ _ _ _) eqn:E; [done |]. exfalso. revert E. vm_compute. discriminate.
  - eapply rtc_l; [apply pstep_made; vm_compute; reflexivity |].
    eapply rtc_l; [apply pstep_done; vm_compute; reflexivity |]. apply rtc_once, pstep_exit.
Qed.

Lemma five_job : job_ok five_files 10 wc_Map five_inputs.
Proof.
  apply wc_job_ok. split; [lia |]. split; [| split].
  - intros f Hf. unfold five_files in Hf. set_unfold in Hf. destruct_or? Hf; subst; (split; [vm_compute; eauto | intros s; by destruct s]) || done.
  - intros s. unfold five_inputs, five_files. simpl. by rewrite !lookup_insert_ne by discriminate.
  - intros f c Hf. unfold five_files in Hf. set_unfold in Hf. destruct_or? Hf; subst; try done; intros [= <-]; vm_compute; repeat split; lia.
Qed.

Lemma five_once : MRSystem.maps_once five_files 10 five_end.
Proof.
  assert (length (MRSystem.callers five_end) = 30%nat) as Hl by (vm_compute; reflexivity).
  assert (Forall (λ h, Forall (λ h', MRSystem.callers five_end !! h = MRSystem.callers five_end !! h' →
      default None (MRSystem.callers five_end !! h) ≠ None → h = h') (seq 0 30)) (seq 0 30)) as Hall.
  { apply (bool_decide_unpack _). vm_compute. exact I. }
  intros h h' t _ H1 H2. rewrite Forall_forall in Hall.
  assert (∀ k x, MRSystem.callers five_end !! k = Some x → k ∈ seq 0 30) as Hk.
  { intros k x Hk%lookup_lt_Some. apply elem_of_seq. lia. }
  specialize (Hall h (Hk _ _ H1)). rewrite Forall_forall in Hall.
  apply (Hall h' (Hk _ _ H2)); rewrite H1; [by rewrite H2 | done].
Qed.

Lemma programs_match_sequential_witness :
  ∃ seq_lines, mrsequential_main ("mrsequential" :: "wc.so" :: five_files) five_inputs =
    Ret (<["mr-out-0" := String.concat "" seq_lines]> five_inputs) ∧
  fs (MRSystem.job five_end) !! "mr-out-9" = Some ("b 1" +:+ newline).
Proof.
  destruct (programs_match_sequential "mrcoordinator" "mrworker" "mrsequential" "wc.so" five_files five_files 10 1
              wc_Map wc_Reduce five_inputs (mkPState CExited five_end)) as (_ & l & Hl & _).
  - reflexivity.
  - reflexivity.
  - exact five_job.
  - exact five_exits.
  - discriminate.
  - exact five_once.
  - exists l. split; [exact Hl | vm_compute; reflexivity].
Defined.

End MRMain.
