(* ===== verification/Labgob.v ===== *)
(** * The encoder with checks: [labgob/labgob.go]

    [labgob] wraps [encoding/gob].  Before encoding it looks, once for each
    type, for struct fields whose names do not start with a capital letter;
    before decoding it looks for non-default values in the variable decoded
    into, which gob would not overwrite.  Both checks share the package's
    count of complaints.  Go's types are a graph (they can be
    recursive): a type is a number, and the table gives its kind.  Values are
    trees.  [gob] itself is a parameter. *)

From S2P Require Import Prelude.
#[local] Open Scope Z_scope.

Module Labgob.

(** ** Types *)

Abbreviation Tid := nat.

(** The kinds [checkType] distinguishes.  Types that are not in the table
    are of the kinds it does not look into. *)
Inductive Kind : Type :=
| Struct (fields : list (string * Tid))
| ElemOf (elem : Tid)               (* Slice, Array, Ptr *)
| MapOf (elem key : Tid).

(** The package's variables; [errorCount] is an [int]. *)
Record Checks := mkChecks { checked : gset Tid; errorCount : Z }.

Definition init_checks : Checks := mkChecks ∅ 0.

Section types.
Context (upper : string → bool).        (* unicode.IsUpper of the first rune *)
Context (types : gmap Tid Kind).

Definition add_error (st : Checks) : Checks := mkChecks (checked st) (int64 (errorCount st + 1)).

(** The loop over the fields of a struct, with [rec] for [checkType]. *)
Fixpoint check_fields (rec : Tid → Checks → option Checks) (fields : list (string * Tid)) (st : Checks) : option Checks :=
  match fields with
  | [] => Some st
  | (name, t) :: fields' =>
      let st := if upper name then st else add_error st in
      rec t st ≫= check_fields rec fields'
  end.

(** [checkType]; [None] when the fuel does not suffice. *)
Fixpoint checkType (fuel : nat) (t : Tid) (st : Checks) : option Checks :=
  match fuel with
  | O => None
  | S fuel =>
      if decide (t ∈ checked st) then Some st else
      let st := mkChecks ({[t]} ∪ checked st) (errorCount st) in
      match types !! t with
      | Some (Struct fields) => check_fields (checkType fuel) fields st
      | Some (ElemOf e) => checkType fuel e st
      | Some (MapOf e k) => checkType fuel e st ≫= checkType fuel k
      | None => Some st
      end
  end.

(** ** What the traversal computes *)

(** The types a type refers to, and its fields that are not capitalized. *)
Definition succs (t : Tid) : list Tid :=
  match types !! t with
  | Some (Struct fields) => fields.*2
  | Some (ElemOf e) => [e]
  | Some (MapOf e k) => [e; k]
  | None => []
  end.

Definition lower_fields (t : Tid) : list string :=
  match types !! t with
  | Some (Struct fields) => filter (λ n, upper n = false) fields.*1
  | _ => []
  end.

Definition reaches : Tid → Tid → Prop := rtc (λ t u, u ∈ succs t).

(** The number of lower-case fields of a set of types. *)
Definition lowers (X : gset Tid) : Z := zsum (λ t, Z.of_nat (length (lower_fields t))) (elements X).

Lemma lowers_add t X : t ∉ X → lowers ({[t]} ∪ X) = Z.of_nat (length (lower_fields t)) + lowers X.
Proof. intros Ht. unfold lowers. by rewrite elements_union_singleton. Qed.

(** The effect of a part of the traversal: types reachable from [ts] are
    added, everything new has been followed, and its errors are counted. *)
Record explored (ts : list Tid) (st st' : Checks) (extra : Z) : Prop := {
  ex_mono : checked st ⊆ checked st';
  ex_from : ∀ u, u ∈ checked st' → u ∈ checked st ∨ ∃ t, t ∈ ts ∧ reaches t u;
  ex_roots : ∀ t, t ∈ ts → t ∈ checked st';
  ex_closed : ∀ u v, u ∈ checked st' → u ∉ checked st → v ∈ succs u → v ∈ checked st';
  ex_count : ∀ e, errorCount st = int64 e →
    errorCount st' = int64 (e + (lowers (checked st') - lowers (checked st)) + extra);
}.

Lemma explored_nil st : explored [] st st 0.
Proof. split; [done | by left | by intros ? ?%not_elem_of_nil | done | intros e ->; f_equal; lia]. Qed.

Lemma explored_cons t ts st st1 st2 x y :
  explored [t] st st1 x → explored ts st1 st2 y → explored (t :: ts) st st2 (x + y).
Proof.
  intros [Hm1 Hf1 Hr1 Hc1 Hn1] [Hm2 Hf2 Hr2 Hc2 Hn2]. split.
  - set_solver.
  - intros u Hu. destruct (Hf2 u Hu) as [Hu1|(t' & Ht' & ?)]; [| right; exists t'; set_solver].
    destruct (Hf1 u Hu1) as [?|(t' & ->%list_elem_of_singleton & ?)]; [by left |]. right. exists t. set_solver.
  - intros t' [->|Ht']%elem_of_cons; [apply Hm2, Hr1; by left | by apply Hr2].
  - intros u v Hu Hnu Hv. destruct (decide (u ∈ checked st1)) as [Hu1|Hu1]; [| by eapply Hc2].
    apply Hm2. by eapply Hc1.
  - intros e He. rewrite (Hn2 _ (Hn1 _ He)). f_equal. lia.
Qed.

Lemma explored_error ts st st' x : explored ts (add_error st) st' x → explored ts st st' (x + 1).
Proof.
  intros [Hm Hf Hr Hc Hn]. simpl in *. split; try done. intros e He.
  rewrite (Hn (e + 1)); [f_equal; lia | by rewrite He, int64_add_l].
Qed.

(** Entering a type and then following everything it refers to. *)
Lemma explored_enter t st st' :
  t ∉ checked st →
  explored (succs t) (mkChecks ({[t]} ∪ checked st) (errorCount st)) st' (Z.of_nat (length (lower_fields t))) →
  explored [t] st st' 0.
Proof.
  intros Ht [Hm Hf Hr Hc Hn]. simpl in *. rewrite lowers_add in Hn by done. split.
  - set_solver.
  - intros u Hu. destruct (Hf u Hu) as [[->%elem_of_singleton|?]%elem_of_union|(v & Hv & Hvu)].
    + right. exists t. split; [by left | constructor].
    + by left.
    + right. exists t. split; [by left | by eapply rtc_l].
  - intros u ->%list_elem_of_singleton. set_solver.
  - intros u v Hu Hnu Hv. destruct (decide (u = t)) as [->|Hne]; [by apply Hr |]. eapply Hc; [done | set_solver | done].
  - intros e He. rewrite (Hn e He). f_equal. lia.
Qed.

Section traversal.
Context (U : gset Tid) (HU : ∀ u v, u ∈ U → v ∈ succs u → v ∈ U).

Lemma size_shrinks (X Y : gset Tid) (n : nat) : X ⊆ Y → (size (U ∖ X) < n)%nat → (size (U ∖ Y) < n)%nat.
Proof. intros HXY Hn. eapply Nat.le_lt_trans; [apply subseteq_size | exact Hn]. set_solver. Qed.

Lemma check_fields_explored n rec fields st :
  (∀ t st, t ∈ U → (size (U ∖ checked st) < n)%nat → ∃ st', rec t st = Some st' ∧ explored [t] st st' 0) →
  (∀ t, t ∈ fields.*2 → t ∈ U) → (size (U ∖ checked st) < n)%nat →
  ∃ st', check_fields rec fields st = Some st' ∧
    explored fields.*2 st st' (Z.of_nat (length (filter (λ n, upper n = false) fields.*1))).
Proof.
  intros Hrec. revert st. induction fields as [|[name t] fields IH]; intros st Hin Hn; simpl.
  { eexists. split; [done | apply explored_nil]. }
  set (st0 := if upper name then st else add_error st).
  assert (checked st0 = checked st) as Hst0 by (unfold st0; by destruct (upper name)).
  destruct (Hrec t st0) as (st1 & Hr1 & Hex1); [apply Hin; set_solver | by rewrite Hst0 |]. rewrite Hr1. simpl.
  destruct (IH st1) as (st2 & Hr2 & Hex2).
  { set_solver. }
  { eapply size_shrinks; [apply Hex1 | by rewrite Hst0]. }
  exists st2. split; [done |].
  unfold st0 in Hex1. destruct (upper name) eqn:Hup.
  - rewrite filter_cons_False by (by rewrite Hup). rewrite <- (Z.add_0_l (Z.of_nat _)). by eapply explored_cons.
  - rewrite filter_cons_True by done. simpl length. rewrite Nat2Z.inj_succ, <- Z.add_1_l.
    eapply explored_cons; [| done]. by apply (explored_error [t] st st1 0).
Qed.

(** Fuel for the types not visited so far is enough. *)
Lemma checkType_explored fuel t st :
  t ∈ U → (size (U ∖ checked st) < fuel)%nat → ∃ st', checkType fuel t st = Some st' ∧ explored [t] st st' 0.
Proof.
  revert t st. induction fuel as [|fuel IH]; intros t st Ht Hn; [lia |]. simpl. case_decide as Hch.
  { exists st. split; [done |]. split; [done | by left | by intros ? ->%list_elem_of_singleton | done | intros e ->; f_equal; lia]. }
  set (st1 := mkChecks ({[t]} ∪ checked st) (errorCount st)).
  assert (size (U ∖ checked st1) < fuel)%nat as Hn1.
  { assert (size (U ∖ checked st1) < size (U ∖ checked st))%nat; [| lia]. apply subset_size. set_solver. }
  assert (∀ u, u ∈ succs t → u ∈ U) as Hs by (intros u; by apply HU).
  enough (∃ st', (match types !! t with
      | Some (Struct fields) => check_fields (checkType fuel) fields st1
      | Some (ElemOf e) => checkType fuel e st1
      | Some (MapOf e k) => checkType fuel e st1 ≫= checkType fuel k
      | None => Some st1 end) = Some st' ∧ explored (succs t) st1 st' (Z.of_nat (length (lower_fields t)))) as (st' & Hr & Hex).
  { exists st'. split; [done | by apply explored_enter]. }
  unfold succs, lower_fields in *. destruct (types !! t) as [[fields|e|e k]|] eqn:Hk.
  - by apply (check_fields_explored fuel).
  - apply IH; [| done]. set_solver.
  - destruct (IH e st1) as (st2 & -> & Hex2); [set_solver | done |]. simpl.
    destruct (IH k st2) as (st3 & -> & Hex3); [set_solver | eapply size_shrinks; [apply Hex2 | done] |].
    exists st3. split; [done |]. by eapply (explored_cons e [k] st1 st2 st3 0 0).
  - exists st1. split; [done | apply explored_nil].
Qed.

End traversal.

(** A closed set of types contains what its members reach. *)
Lemma closed_reaches (X : gset Tid) t u :
  (∀ a b, a ∈ X → b ∈ succs a → b ∈ X) → reaches t u → t ∈ X → u ∈ X.
Proof. intros HX Hr. induction Hr; eauto. Qed.

End types.

Definition ascii_upper (name : string) : bool :=
  match name with
  | String a _ => let n := Ascii.nat_of_ascii a in bool_decide (65 ≤ n ≤ 90)%nat
  | EmptyString => false
  end.

(** A linked list: [type Node struct { Val int; next *Node }]. *)
Definition ex_types : gmap Tid Kind := {[ 1%nat := Struct [("Val", 2%nat); ("next", 3%nat)]; 3%nat := ElemOf 1%nat ]}.

(** ** Values *)

(** The value a variable holds; a field has its name and whether it is
    embedded.  A basic value is a number, 0 for the zero value of its type;
    [VOther] are the kinds [checkDefault1] ignores. *)
Inductive Val : Type :=
| VStruct (fields : list (string * bool * Val))
| VPtr (target : option Val)
| VBasic (tname : string) (v : Z)
| VOther (v : Z).

(** The error count and the warnings printed. *)
Record Warnings := mkWarnings { wcount : Z; printed : list string }.

Definition warn (what : string) (st : Warnings) : Warnings :=
  mkWarnings (int64 (wcount st + 1)) (if decide (wcount st < 1) then printed st ++ [what] else printed st).

Definition join_name (name field : string) : string :=
  if decide (name ≠ "") then name +:+ "." +:+ field else field.

(** How a [reflect.Value] was obtained: freely, or through an unexported
    field, embedded or not.  A field of the value of an embedded one is
    obtained freely if its own name is exported; what is below another
    unexported field never is. *)
Inductive RO : Type := Free | EmbedRO | StickyRO.

#[export] Instance RO_eq_dec : EqDecision RO.
Proof. solve_decision. Defined.

Section values.
Context (upper : string → bool).        (* a name is exported: it starts with a capital letter *)

(** [reflect.Value.Field] *)
Definition field_ro (ro : RO) (name : string) (embedded : bool) : RO :=
  if upper name then (if decide (ro = StickyRO) then StickyRO else Free)
  else if embedded then (if decide (ro = StickyRO) then StickyRO else EmbedRO) else StickyRO.

(** [reflect.Value.Interface] *)
Definition no_interface : string := "reflect.Value.Interface: cannot return value obtained from unexported field or method".
Definition Interface (ro : RO) (v : Z) : GoRes Z := if decide (ro = Free) then Ret v else Abort no_interface.

Fixpoint checkDefault1 (value : Val) (ro : RO) (depth : Z) (name : string) (st : Warnings) {struct value} : GoRes Warnings :=
  if decide (3 < depth) then Ret st else
  match value with
  | VStruct fields =>
      (fix loop (fs : list (string * bool * Val)) (st : Warnings) : GoRes Warnings :=
         match fs with
         | [] => Ret st
         | (f, embedded, vv) :: fs' =>
             (let* st := checkDefault1 vv (field_ro ro f embedded) (depth + 1) (join_name name f) st in loop fs' st)%go
         end) fields st
  | VPtr None => Ret st
  | VPtr (Some v) => checkDefault1 v ro (depth + 1) name st
  | VBasic tname x =>
      (let* x := Interface ro x in
       Ret (if decide (x = 0) then st else warn (if decide (name = "") then tname else name) st))%go
  | VOther _ => Ret st
  end.

(** [checkDefault(value)]; [None] is the nil interface. *)
Definition checkDefault (value : option Val) (st : Warnings) : GoRes Warnings :=
  match value with
  | None => Ret st
  | Some v => checkDefault1 v Free 1 "" st
  end.

(** *** What the check of variables finds *)

(** The names of the non-default values, in order: basic values at most three
    levels deep. *)
Fixpoint nondefaults (value : Val) (depth : Z) (name : string) {struct value} : list string :=
  if decide (3 < depth) then [] else
  match value with
  | VStruct fields =>
      (fix loop (fs : list (string * bool * Val)) : list string :=
         match fs with
         | [] => []
         | (f, _, vv) :: fs' => nondefaults vv (depth + 1) (join_name name f) ++ loop fs'
         end) fields
  | VPtr (Some v) => nondefaults v (depth + 1) name
  | VBasic tname x => if decide (x = 0) then [] else [if decide (name = "") then tname else name]
  | VPtr None | VOther _ => []
  end.

(** Whether a basic value at most three levels deep, default or not, was
    obtained through an unexported field. *)
Fixpoint hidden (value : Val) (ro : RO) (depth : Z) {struct value} : bool :=
  if decide (3 < depth) then false else
  match value with
  | VStruct fields =>
      (fix loop (fs : list (string * bool * Val)) : bool :=
         match fs with [] => false | (f, e, vv) :: fs' => hidden vv (field_ro ro f e) (depth + 1) || loop fs' end) fields
  | VPtr (Some v) => hidden v ro (depth + 1)
  | VBasic _ _ => bool_decide (ro ≠ Free)
  | VPtr None | VOther _ => false
  end.

Definition warn_all (names : list string) (st : Warnings) : Warnings := foldl (λ st n, warn n st) st names.

Lemma Val_ind' (P : Val → Prop) :
  (∀ fs, Forall (λ f, P f.2) fs → P (VStruct fs)) → (∀ v, P v → P (VPtr (Some v))) → P (VPtr None) →
  (∀ tn x, P (VBasic tn x)) → (∀ x, P (VOther x)) → ∀ v, P v.
Proof.
  intros Hs Hp Hn Hb Ho. fix IH 1. intros [fs|[v|]|tn x|x]; [| by apply Hp | done | done | done].
  apply Hs. induction fs as [|[f v] fs IHf]; constructor; [apply IH | exact IHf].
Qed.

(** The check panics when there is a hidden value, and otherwise warns of
    the names listed, in order. *)
Lemma checkDefault1_spec v : ∀ ro depth name st,
  checkDefault1 v ro depth name st =
    if hidden v ro depth then Abort no_interface else Ret (warn_all (nondefaults v depth name) st).
Proof.
  induction v as [fs Hfs|v IH| |tn x|x] using Val_ind'; intros ro depth name st; simpl; (case_decide; [done |]); try done.
  - revert st. induction Hfs as [|[[f e] v] fs Hv _ IHfs]; intros st; [done |].
    simpl in Hv |- *. rewrite Hv. destruct (hidden v _ _); simpl; [done |]. rewrite IHfs.
    unfold warn_all. by rewrite foldl_app.
  - unfold Interface. destruct (decide (ro = Free)) as [->|Hro]; [rewrite bool_decide_false by naive_solver | by rewrite bool_decide_true].
    simpl. by case_decide.
Qed.

Lemma warn_all_count names : ∀ st e, wcount st = int64 e → wcount (warn_all names st) = int64 (e + Z.of_nat (length names)).
Proof.
  induction names as [|n names IH]; intros st e He; simpl; [by rewrite He, Z.add_0_r |].
  rewrite (IH (warn n st) (e + 1)); [f_equal; lia |]. simpl. by rewrite He, int64_add_l.
Qed.

(** While the count does not overflow, at most the first name is printed. *)
Lemma warn_all_printed names : ∀ st,
  0 ≤ wcount st → wcount st + Z.of_nat (length names) < two63 →
  printed (warn_all names st) = printed st ++ (if decide (wcount st < 1) then take 1 names else []).
Proof.
  induction names as [|n names IH]; intros st H0 Hn; [simpl; case_decide; by rewrite app_nil_r |].
  change (warn_all (n :: names) st) with (warn_all names (warn n st)).
  assert (wcount (warn n st) = wcount st + 1) as Hw by (simpl; apply int64_small; simpl in Hn; unfold two63 in *; lia).
  rewrite IH; rewrite ?Hw; [| lia | simpl in Hn; lia]. rewrite decide_False by lia. rewrite app_nil_r. simpl.
  case_decide; [done | by rewrite app_nil_r].
Qed.

End values.

(** What gob documents about decoding a value into a variable of the same
    type: pointers are followed, structs are decoded field by field, and a
    field with the zero value of its type is not sent, so it leaves the
    variable's field alone; a basic value that is no field is always sent. *)
Class Gob := {
  gob_Decode : Val → Val → Val;
  gob_field : Val → Val → Val;
  gob_basic : ∀ tn x y, gob_Decode (VBasic tn x) (VBasic tn y) = VBasic tn x;
  gob_struct : ∀ fs gs, fs.*1 = gs.*1 →
    gob_Decode (VStruct fs) (VStruct gs) = VStruct (zip_with (λ f g, (f.1, gob_field f.2 g.2)) fs gs);
  gob_ptr : ∀ v w, gob_Decode (VPtr (Some v)) (VPtr (Some w)) = VPtr (Some (gob_Decode v w));
  gob_field_basic : ∀ tn x y, gob_field (VBasic tn x) (VBasic tn y) = VBasic tn (if decide (x = 0) then y else x);
  gob_field_struct : ∀ fs gs, fs.*1 = gs.*1 →
    gob_field (VStruct fs) (VStruct gs) = VStruct (zip_with (λ f g, (f.1, gob_field f.2 g.2)) fs gs);
}.

(** [LabDecoder.Decode(e)] where [e] points to the variable [w] and the value
    sent is [v]. *)
Definition Decode `{Gob} (upper : string → bool) (v w : Val) (st : Warnings) : GoRes (Val * Warnings) :=
  (let* st := checkDefault upper (Some (VPtr (Some w))) st in Ret (gob_Decode (VPtr (Some v)) (VPtr (Some w)), st))%go.

(** Values of structs and basic types only, at most [d] levels deep. *)
Fixpoint plain (d : nat) (w : Val) : Prop :=
  match d, w with
  | S _, VBasic _ _ => True
  | S d, VStruct fs => Forall (λ f, plain d f.2) fs
  | _, _ => False
  end.

Fixpoint same_type (d : nat) (v w : Val) : Prop :=
  match d, v, w with
  | S _, VBasic tn _, VBasic tn' _ => tn = tn'
  | S d, VStruct fs, VStruct gs => Forall2 (λ f g, f.1 = g.1 ∧ same_type d f.2 g.2) fs gs
  | _, _, _ => False
  end.

Fixpoint all_default (d : nat) (w : Val) : Prop :=
  match d, w with
  | S _, VBasic _ x => x = 0
  | S d, VStruct fs => Forall (λ f, all_default d f.2) fs
  | _, _ => False
  end.

(** The zero value of the type of [w]. *)
Fixpoint zero_of (w : Val) : Val :=
  match w with
  | VStruct fs => VStruct ((fix go (fs : list (string * bool * Val)) :=
                              match fs with [] => [] | (f, v) :: fs' => (f, zero_of v) :: go fs' end) fs)
  | VPtr _ => VPtr None
  | VBasic tn _ => VBasic tn 0
  | VOther _ => VOther 0
  end.

(** Within the depth limit the check finds something exactly when some value
    is not the default. *)
Lemma nondefaults_nil d w depth name : plain d w → depth + Z.of_nat d ≤ 4 → nondefaults w depth name = [] ↔ all_default d w.
Proof.
  revert w depth name. induction d as [|d IH]; intros w depth name Hp Hd; [done |].
  destruct w as [fs| |tn x|]; simpl in Hp |- *; try done; rewrite decide_False by lia.
  - induction Hp as [|[[f e] v] fs Hv _ IHfs]; simpl; [split; [constructor | done] |].
    rewrite app_nil, Forall_cons, IHfs, IH by (done || lia). done.
  - case_decide; done.
Qed.

Section gob.
Context `{Gob}.

Lemma decode_default d v w : same_type d v w → all_default d w → gob_field v w = v.
Proof.
  revert v w. induction d as [|d IH]; intros v w Hs Hd; [done |].
  destruct v as [fs| |tn x|], w as [gs| |tn' y|]; simpl in Hs, Hd; try done.
  - rewrite gob_field_struct.
    2: { clear -Hs. induction Hs as [|f g fs gs [Hn _] _ IHs]; [done |]. by rewrite !fmap_cons, Hn, IHs. }
    f_equal. revert Hd. induction Hs as [|f g fs gs [_ Ht] _ IHs]; intros Hd; [done |].
    apply Forall_cons in Hd as [Hg Hd]. simpl. rewrite (IH _ _ Ht Hg), IHs by done. by destruct f.
  - subst. rewrite gob_field_basic. by case_decide; subst.
Qed.

Lemma decode_zero d w :
  plain d w → same_type d (zero_of w) w ∧ gob_field (zero_of w) w = w ∧ (zero_of w = w → all_default d w).
Proof.
  revert w. induction d as [|d IH]; intros w Hp; [done |].
  destruct w as [fs| |tn x|]; simpl in Hp |- *; try done.
  - set (go := fix go (fs : list (string * bool * Val)) := match fs with [] => [] | (f, v) :: fs' => (f, zero_of v) :: go fs' end).
    assert ((go fs).*1 = fs.*1) as Hnames.
    { clear. induction fs as [|[f v] fs IHf]; [done |]. change (f :: (go fs).*1 = f :: fs.*1). by rewrite IHf. }
    rewrite gob_field_struct by done. clear Hnames.
    assert (Forall2 (λ f g, f.1 = g.1 ∧ same_type d f.2 g.2) (go fs) fs ∧
            zip_with (λ f g, (f.1, gob_field f.2 g.2)) (go fs) fs = fs ∧
            (go fs = fs → Forall (λ f, all_default d f.2) fs)) as (H1 & H2 & H3).
    { induction Hp as [|[f v] fs Hv _ (IH1 & IH2 & IH3)]; simpl; [done |].
      destruct (IH v Hv) as (Ht & Hg & Hz). split_and!.
      - by constructor.
      - by rewrite Hg, IH2.
      - intros [= Hv0 Hfs]. constructor; [by apply Hz | by apply IH3]. }
    split; [done |]. split; [by rewrite H2 |]. intros [= Heq]. by apply H3.
  - rewrite gob_field_basic. simpl. split; [done |]. split; [done |]. by intros [= <-].
Qed.

(** A whole struct is decoded like one that is a field. *)
Lemma decode_struct d v fs : same_type d v (VStruct fs) → gob_Decode v (VStruct fs) = gob_field v (VStruct fs).
Proof.
  destruct d as [|d]; [done |]. destruct v as [gs| | |]; simpl; try done. intros Hs.
  assert (gs.*1 = fs.*1) as Hn.
  { clear -Hs. induction Hs as [|f g fs gs [Hn _] _ IHs]; [done |]. by rewrite !fmap_cons, Hn, IHs. }
  by rewrite gob_struct, gob_field_struct.
Qed.

End gob.

(** The warning about non-default variables is exact where it looks.
    For a struct whose fields are exported and of basic types (the check stops
    at depth 3, and the pointer handed to [Decode] is the first),
    [checkDefault] finds nothing if and only if whatever value of the type is
    decoded, the variable holds that value afterwards.  One level deeper it is
    silent although a decoded value is lost; and for a variable of a basic
    type it warns although every value is decoded faithfully. *)
Theorem checkDefault_exact `{Gob} (upper : string → bool) (fs : list (string * bool * Val)) (st : Warnings) :
  plain 2 (VStruct fs) → Forall (λ f, upper f.1.1 = true) fs →
  (∃ names,
     (∀ v, Decode upper v (VStruct fs) st =
        Ret (gob_Decode (VPtr (Some v)) (VPtr (Some (VStruct fs))), warn_all names st)) ∧
     (names = [] ↔
        ∀ v, same_type 2 v (VStruct fs) → gob_Decode (VPtr (Some v)) (VPtr (Some (VStruct fs))) = VPtr (Some v))) ∧
  (∃ v w r, same_type 3 v w ∧ Decode upper v w st = Ret (r, st) ∧ r ≠ VPtr (Some v)) ∧
  (∀ tn x y, Decode upper (VBasic tn x) (VBasic tn y) st =
     Ret (VPtr (Some (VBasic tn x)), if decide (y = 0) then st else warn tn st)).
Proof.
  intros Hp Hup. split; [| split].
  - exists (nondefaults (VStruct fs) 2 ""). split.
    + intros v. unfold Decode, checkDefault. rewrite checkDefault1_spec.
      assert (hidden upper (VPtr (Some (VStruct fs))) Free 1 = false) as ->; [| done]. simpl in Hp |- *.
      induction Hp as [|[[f e] w] fs Hw _ IH]; [done |]. apply Forall_cons in Hup as [Hf Hup]. simpl in *.
      rewrite IH by done. unfold field_ro. rewrite Hf. rewrite orb_false_r.
      destruct w as [[|[] ?]| |tn x|]; try done. by apply Forall_cons in Hw as [? _].
    + rewrite (nondefaults_nil 2) by (done || lia). destruct (decode_zero 2 (VStruct fs) Hp) as (Hzt & Hzw & Hz0). split.
      * intros Hd v Hv. rewrite gob_ptr, (decode_struct 2) by done. do 2 f_equal. by apply (decode_default 2).
      * intros Hall. apply Hz0. specialize (Hall _ Hzt). rewrite gob_ptr, (decode_struct 2), Hzw in Hall by done.
        assert (∀ a b, VPtr (Some a) = VPtr (Some b) → a = b) as Hinj by (by intros ? ? [=]). symmetry. exact (Hinj _ _ Hall).
  - exists (VStruct [("X", false, VStruct [("A", false, VBasic "int" 0)])]),
      (VStruct [("X", false, VStruct [("A", false, VBasic "int" 1)])]). eexists.
    split; [simpl; by repeat constructor |]. split; [done |].
    rewrite gob_ptr, gob_struct by done. simpl. rewrite gob_field_struct by done. simpl. by rewrite gob_field_basic.
  - intros tn x y. unfold Decode. simpl. rewrite gob_ptr, gob_basic. done.
Qed.

(** An instance of [Gob], and a reply variable that is used twice. *)
Fixpoint merge (v w : Val) {struct v} : Val :=
  match v, w with
  | VBasic tn x, VBasic _ y => VBasic tn (if decide (x = 0) then y else x)
  | VStruct fs, VStruct gs =>
      VStruct ((fix go (fs gs : list (string * bool * Val)) :=
                  match fs, gs with
                  | (f, v) :: fs', (_, w) :: gs' => (f, merge v w) :: go fs' gs'
                  | _, _ => []
                  end) fs gs)
  | VPtr (Some v), VPtr (Some w) => VPtr (Some (merge v w))
  | VPtr None, w => w
  | v, _ => v
  end.

Lemma merge_struct fs gs :
  merge (VStruct fs) (VStruct gs) = VStruct (zip_with (λ f g, (f.1, merge f.2 g.2)) fs gs).
Proof.
  simpl. f_equal. revert gs. induction fs as [|[f v] fs IH]; intros [|[g w] gs]; [done.. |].
  simpl. by rewrite IH.
Qed.

(** Outside structs a basic value replaces the variable. *)
Fixpoint decode_ptrs (v w : Val) {struct v} : Val :=
  match v, w with
  | VPtr (Some v), VPtr (Some w) => VPtr (Some (decode_ptrs v w))
  | VBasic _ _, _ => v
  | _, _ => merge v w
  end.

Definition merge_Gob : Gob :=
  {| gob_Decode := decode_ptrs;
     gob_field := merge;
     gob_basic tn x y := eq_refl;
     gob_struct fs gs _ := merge_struct fs gs;
     gob_ptr v w := eq_refl;
     gob_field_basic tn x y := eq_refl;
     gob_field_struct fs gs _ := merge_struct fs gs |}.

Lemma checkDefault_exact_witness :
  ∃ fs, plain 2 (VStruct fs) ∧ ∃ names,
    (∀ v, Decode (H := merge_Gob) ascii_upper v (VStruct fs) (mkWarnings 0 []) =
       Ret (gob_Decode (Gob := merge_Gob) (VPtr (Some v)) (VPtr (Some (VStruct fs))), warn_all names (mkWarnings 0 []))).
Proof.
  exists [("Err", false, VBasic "string" 1)].
  assert (plain 2 (VStruct [("Err", false, VBasic "string" 1)])) as Hp by (simpl; by repeat constructor).
  split; [exact Hp |].
  destruct (checkDefault_exact (H := merge_Gob) ascii_upper _ (mkWarnings 0 []) Hp) as ((names & Hn & _) & _).
  - by repeat constructor.
  - exists names. exact Hn.
Defined.

(** ** The package *)

(** All its variables: the check of types and the check of variables count
    their complaints in the same [errorCount]. *)
Record Package := mkPackage { checks : Checks; complaints : list string }.

Definition init_package : Package := mkPackage init_checks [].

(** What the program calls, with the dynamic types of the arguments ([None]
    for the nil interface); [Decode] also with the value it is given, and
    [EncodeValue] with how its [reflect.Value] was obtained. *)
Inductive Op : Type :=
| OEncode (t : option Tid)
| OEncodeValue (ro : RO) (t : option Tid)
| ODecode (t : option Tid) (value : option Val)
| ORegister (t : option Tid)
| ORegisterName (name : string) (t : option Tid).

Section package.
Context (upper : string → bool) (types : gmap Tid Kind).

(** [checkValue]: [t.Kind()] of the nil type panics. *)
Definition checkValue (fuel : nat) (t : option Tid) (p : Package) : option (GoRes Package) :=
  match t with
  | None => Some (Abort "nil pointer dereference")
  | Some t => st ← checkType upper types fuel t (checks p); Some (Ret (mkPackage st (complaints p)))
  end.

(** [checkDefault] on the package's variables. *)
Definition check_default (value : option Val) (p : Package) : GoRes Package :=
  (let* w := checkDefault upper value (mkWarnings (errorCount (checks p)) (complaints p)) in
   Ret (mkPackage (mkChecks (checked (checks p)) (wcount w)) (printed w)))%go.

(** The functions of the package, up to the call of [gob] that ends them. *)
Definition LabEncoder_Encode (fuel : nat) (t : option Tid) (p : Package) : option (GoRes Package) := checkValue fuel t p.
Definition LabEncoder_EncodeValue (fuel : nat) (ro : RO) (t : option Tid) (p : Package) : option (GoRes Package) :=
  if decide (ro = Free) then checkValue fuel t p else Some (Abort no_interface).
Definition LabDecoder_Decode (fuel : nat) (t : option Tid) (value : option Val) (p : Package) : option (GoRes Package) :=
  r ← checkValue fuel t p;
  Some (let* p := r in check_default value p)%go.
Definition Register (fuel : nat) (t : option Tid) (p : Package) : option (GoRes Package) := checkValue fuel t p.
Definition RegisterName (fuel : nat) (name : string) (t : option Tid) (p : Package) : option (GoRes Package) :=
  checkValue fuel t p.

Definition exec_op (fuel : nat) (o : Op) (p : Package) : option (GoRes Package) :=
  match o with
  | OEncode t => LabEncoder_Encode fuel t p
  | OEncodeValue ro t => LabEncoder_EncodeValue fuel ro t p
  | ODecode t v => LabDecoder_Decode fuel t v p
  | ORegister t => Register fuel t p
  | ORegisterName n t => RegisterName fuel n t p
  end.

Fixpoint run_ops (fuel : nat) (os : list Op) (p : Package) : option (GoRes Package) :=
  match os with
  | [] => Some (Ret p)
  | o :: os => r ← exec_op fuel o p; match r with Ret p => run_ops fuel os p | Abort msg => Some (Abort msg) end
  end.

Definition op_type (o : Op) : option Tid :=
  match o with OEncode t | OEncodeValue _ t | ODecode t _ | ORegister t | ORegisterName _ t => t end.

Definition op_nondefaults (o : Op) : list string :=
  match o with ODecode _ (Some v) => nondefaults v 1 "" | _ => [] end.
Definition op_hidden (o : Op) : bool :=
  match o with
  | ODecode _ (Some v) => hidden upper v Free 1
  | OEncodeValue ro _ => bool_decide (ro ≠ Free)
  | _ => false
  end.

(** [Decode] without the check of types: the types marked stay, and the
    non-default values are counted. *)
Lemma check_default_spec o v N p :
  op_nondefaults o = match v with Some v => nondefaults v 1 "" | None => [] end →
  op_hidden o = match v with Some v => hidden upper v Free 1 | None => false end →
  errorCount (checks p) = int64 N → 0 ≤ N →
  if op_hidden o then check_default v p = Abort no_interface
  else ∃ p', check_default v p = Ret p' ∧ checked (checks p') = checked (checks p) ∧
    let N' := N + Z.of_nat (length (op_nondefaults o)) in
    errorCount (checks p') = int64 N' ∧
    (N' < two63 → complaints p' = complaints p ++ (if decide (N < 1) then take 1 (op_nondefaults o) else [])).
Proof.
  intros -> -> Hc HN. unfold check_default. destruct v as [v|]; simpl.
  - rewrite checkDefault1_spec. destruct (hidden upper v Free 1); simpl; [done |]. eexists. split; [done |]. split; [done |]. split.
    + by apply warn_all_count.
    + intros HN'. simpl. assert (errorCount (checks p) = N) as HcN by (rewrite Hc; apply int64_small; unfold two63 in *; lia).
      by rewrite warn_all_printed; simpl; rewrite HcN.
  - eexists. split; [done |]. split; [done |]. simpl. rewrite Z.add_0_r. split; [done |]. intros _. case_decide; by rewrite app_nil_r.
Qed.

(** How the value given to [EncodeValue] was obtained. *)
Definition obtained (o : Op) : RO := match o with OEncodeValue ro _ => ro | _ => Free end.

Lemma free_hidden o :
  obtained o = Free →
  op_hidden o = match (match o with ODecode _ v => v | _ => None end) with Some v => hidden upper v Free 1 | None => false end.
Proof.
  destruct o as [|ro t|? [|]| |]; try done. intros Hro. apply bool_decide_false. simpl in Hro. rewrite Hro. naive_solver.
Qed.

Section ops.
Context (U : gset Tid) (HU : ∀ u v, u ∈ U → v ∈ succs types u → v ∈ U).

Lemma lowers_nonneg X : 0 ≤ lowers upper types X.
Proof. unfold lowers. induction (elements X) as [|t l IH]; simpl; [done |]. unfold zsum in *. simpl. lia. Qed.

Lemma lowers_mono X Y : X ⊆ Y → lowers upper types X ≤ lowers upper types Y.
Proof.
  intros HXY. replace Y with (Y ∪ X) by set_solver. clear HXY. induction Y as [|t Y Ht IH] using set_ind_L.
  - by rewrite union_empty_l_L.
  - rewrite <- union_assoc_L. destruct (decide (t ∈ Y ∪ X)) as [Hin|Hin].
    + by replace ({[t]} ∪ (Y ∪ X)) with (Y ∪ X) by set_solver.
    + rewrite lowers_add by done. lia.
Qed.

(** What holds between calls, [N] being the number of complaints: they are
    counted modulo 64 bits, and until the count overflows at most one is a
    warning. *)
Definition package_inv (N : Z) (p : Package) : Prop :=
  errorCount (checks p) = int64 N ∧ lowers upper types (checked (checks p)) ≤ N ∧
  (N < two63 → (complaints p ≠ [] → 1 ≤ N) ∧ (length (complaints p) ≤ 1)%nat).

(** A call adds the lower-case fields of the types it is the first to reach,
    and the non-default values. *)
Definition complaints_after (p p' : Package) (N : Z) (found : Z) : Z :=
  N + (lowers upper types (checked (checks p')) - lowers upper types (checked (checks p))) + found.

Definition goes_on (p p' : Package) (N found : Z) (ts : list Tid) : Prop :=
  package_inv (complaints_after p p' N found) p' ∧ explored upper types ts (checks p) (checks p') found ∧
  (complaints_after p p' N found < two63 → 1 ≤ N → complaints p' = complaints p).

Lemma exec_op_inv fuel o t N p :
  op_type o = Some t → t ∈ U → (size U < fuel)%nat → package_inv N p →
  if op_hidden o then exec_op fuel o p = Some (Abort no_interface)
  else ∃ p', exec_op fuel o p = Some (Ret p') ∧ goes_on p p' N (Z.of_nat (length (op_nondefaults o))) [t].
Proof.
  intros Ht HtU Hn (Hc & Hlow & Hp).
  destruct (checkType_explored upper types U HU fuel t (checks p)) as (st & Hr & [Hm Hf Hro Hcl Hcnt]); [done | |].
  { eapply Nat.le_lt_trans; [apply subseteq_size | exact Hn]. set_solver. }
  set (p1 := mkPackage st (complaints p)).
  assert (checkValue fuel (Some t) p = Some (Ret p1)) as Hcv by (simpl; by rewrite Hr).
  destruct (decide (obtained o = Free)) as [Hfree|Hro'].
  2: { destruct o as [|ro t'| | |]; try done. simpl in *. rewrite bool_decide_true by done. unfold LabEncoder_EncodeValue.
       by rewrite decide_False. }
  set (v := match o with ODecode _ v => v | _ => None end).
  assert (exec_op fuel o p = Some (check_default v p1)) as ->.
  { destruct o as [|ro t'| | |]; cbn [op_type] in Ht; simplify_eq; unfold exec_op, LabDecoder_Decode, LabEncoder_Encode,
      LabEncoder_EncodeValue, Register, RegisterName; try (destruct (decide (ro = Free)); [| done]);
      rewrite Hcv; try done; unfold check_default; simpl; by destruct st. }
  pose proof (lowers_mono _ _ Hm) as Hmono. pose proof (lowers_nonneg (checked (checks p))) as H0.
  specialize (Hcnt N Hc). rewrite Z.add_0_r in Hcnt.
  pose proof (check_default_spec o v _ p1 ltac:(by destruct o as [| |? [|]| |]) (free_hidden o Hfree) Hcnt ltac:(lia)) as Hspec.
  destruct (op_hidden o); [by rewrite Hspec |]. destruct Hspec as (p' & -> & Hch & Hct & Hpr). exists p'. split; [done |].
  unfold goes_on, complaints_after, package_inv. rewrite Hch. change (checked (checks p1)) with (checked st).
  set (k := Z.of_nat (length (op_nondefaults o))) in *. split; [split_and!; [done | lia |] | split].
  - intros HN. specialize (Hpr HN). simpl in Hpr. destruct Hp as [Hp1 Hp2]; [unfold k in *; lia |]. rewrite Hpr. split.
    + intros Hne. case_decide; [| rewrite app_nil_r in Hne; specialize (Hp1 Hne); unfold k; lia].
      unfold k. destruct (op_nondefaults o); simpl in *; [| lia]. rewrite app_nil_r in Hne. specialize (Hp1 Hne). lia.
    + case_decide; [| by rewrite app_nil_r]. destruct (complaints p); [simpl; rewrite length_take; lia |].
      specialize (Hp1 ltac:(done)). lia.
  - split; rewrite ?Hch; try done. intros e He. rewrite Hct, <- !Z.add_assoc, <- (int64_add_l N), <- Hc, He, int64_add_l. f_equal; lia.
  - intros HN H1. rewrite (Hpr HN). simpl. rewrite decide_False by lia. by rewrite app_nil_r.
Qed.

Lemma found_nonneg os : 0 ≤ zsum (λ o, Z.of_nat (length (op_nondefaults o))) os.
Proof. induction os as [|o os IH]; [done | simpl; lia]. Qed.

(** Calls one after the other. *)
Lemma run_ops_app fuel os os' p p' :
  run_ops fuel os p = Some (Ret p') → run_ops fuel (os ++ os') p = run_ops fuel os' p'.
Proof.
  revert p. induction os as [|o os IH]; intros p; simpl; [by intros [= ->] |].
  destruct (exec_op fuel o p) as [[p1|]|]; simpl; [apply IH | done | done].
Qed.
(** Any calls of the package. *)
Lemma run_ops_spec fuel os ts : Forall2 (λ o t, op_type o = Some t ∧ t ∈ U) os ts → (size U < fuel)%nat → ∀ N p,
  package_inv N p →
  if existsb op_hidden os then run_ops fuel os p = Some (Abort no_interface)
  else ∃ p', run_ops fuel os p = Some (Ret p') ∧ goes_on p p' N (zsum (λ o, Z.of_nat (length (op_nondefaults o))) os) ts.
Proof.
  intros Hos Hn. induction Hos as [|o t os ts [Ht HtU] _ IH]; intros N p Hp.
  { exists p. split; [done |]. unfold goes_on, complaints_after. change (zsum _ []) with 0. rewrite Z.sub_diag, !Z.add_0_r.
    split; [done |]. split; [apply explored_nil | done]. }
  pose proof (exec_op_inv fuel o t N p Ht HtU Hn Hp) as Ho. simpl. destruct (op_hidden o); simpl; [by rewrite Ho |].
  destruct Ho as (p1 & -> & Hp1 & Hex1 & Hs1). simpl. specialize (IH _ _ Hp1).
  destruct (existsb op_hidden os); [done |]. destruct IH as (p2 & Hr & Hp2 & Hex2 & Hs2).
  exists p2. split; [done |]. unfold goes_on. set (k := Z.of_nat (length (op_nondefaults o))) in *.
  set (ks := zsum _ os) in *. change (zsum _ (o :: os)) with (k + ks).
  assert (complaints_after p p2 N (k + ks) = complaints_after p1 p2 (complaints_after p p1 N k) ks) as ->
    by (unfold complaints_after; lia).
  split; [done |]. split; [by eapply explored_cons |]. intros HN H1.
  pose proof (lowers_mono _ _ (ex_mono _ _ _ _ _ _ Hex1)). pose proof (lowers_mono _ _ (ex_mono _ _ _ _ _ _ Hex2)).
  pose proof (found_nonneg os) as Hks. fold ks in Hks.
  rewrite Hs2, Hs1; [done | | done | done |]; unfold complaints_after in *; unfold k in *; lia.
Qed.

(** While the count does not overflow, nothing is reported after a complaint. *)
Lemma silent_after fuel os1 os2 ts N p p1 p2 :
  Forall2 (λ o t, op_type o = Some t ∧ t ∈ U) (os1 ++ os2) ts → (size U < fuel)%nat → package_inv N p → 0 ≤ N →
  run_ops fuel os1 p = Some (Ret p1) → run_ops fuel (os1 ++ os2) p = Some (Ret p2) →
  complaints_after p p2 N (zsum (λ o, Z.of_nat (length (op_nondefaults o))) (os1 ++ os2)) < two63 →
  1 ≤ errorCount (checks p1) → complaints p2 = complaints p1.
Proof.
  intros (ts1 & ts2 & Hos1 & Hos2 & ->)%Forall2_app_inv_l Hn Hp HN Hr1 Hr2 Htot H1.
  rewrite (run_ops_app _ _ _ _ _ Hr1) in Hr2.
  pose proof (run_ops_spec fuel os1 ts1 Hos1 Hn N p Hp) as Ha. destruct (existsb op_hidden os1); [congruence |].
  destruct Ha as (p1' & Hr1' & Hp1 & Hex1 & _). assert (p1' = p1) as -> by congruence.
  pose proof (run_ops_spec fuel os2 ts2 Hos2 Hn _ p1 Hp1) as Hb. destruct (existsb op_hidden os2); [congruence |].
  destruct Hb as (p2' & Hr2' & Hp2 & Hex2 & Hs). assert (p2' = p2) as -> by congruence.
  pose proof (lowers_mono _ _ (ex_mono _ _ _ _ _ _ Hex1)). pose proof (lowers_mono _ _ (ex_mono _ _ _ _ _ _ Hex2)).
  pose proof (found_nonneg os1). pose proof (found_nonneg os2).
  rewrite zsum_app in Htot. destruct Hp1 as (Hc1 & _). unfold complaints_after in *.
  rewrite int64_small in Hc1 by (unfold two63 in *; lia). apply Hs; lia.
Qed.

End ops.

End package.

Lemma init_package_inv upper types : package_inv upper types 0 init_package.
Proof. split_and!; [done | unfold lowers; simpl; by rewrite elements_empty | intros _; split; [intros Hne; by destruct Hne | simpl; lia]]. Qed.

(** C38: labgob counts each complaint, and complains about each lower-case
    field once.  Let a program encode, decode and register any values but the
    nil interface, of possibly recursive types; the fuel only has to exceed
    the number of types.  If a variable decoded into has a value of a basic type at
    most three levels deep that lies in an unexported field, or [EncodeValue]
    is given a value obtained through one, the program panics in the call of
    [Interface].  Otherwise no
    call fails in the checks, which return; the types marked are exactly
    those reachable from the types of the values; and [errorCount] is, in 64
    bits, the number of lower-case fields of these types, each counted once,
    and of the non-default values found in the variables decoded into.  As
    long as this number does not overflow, at most one non-default value is
    reported, and none after anything was complained about. *)
Theorem complaints_counted (upper : string → bool) (types : gmap Tid Kind) (U : gset Tid) (os : list Op) (ts : list Tid)
    (fuel : nat)
    (HU : ∀ t u, t ∈ U → u ∈ succs types t → u ∈ U)
    (Hos : Forall2 (λ o t, op_type o = Some t ∧ t ∈ U) os ts) (Hfuel : (size U < fuel)%nat) :
  if existsb (op_hidden upper) os
  then run_ops upper types fuel os init_package =
         Some (Abort "reflect.Value.Interface: cannot return value obtained from unexported field or method")
  else ∃ p, run_ops upper types fuel os init_package = Some (Ret p) ∧
    (∀ u, u ∈ checked (checks p) ↔ ∃ t, t ∈ ts ∧ reaches types t u) ∧
    let total := lowers upper types (checked (checks p)) + zsum (λ o, Z.of_nat (length (op_nondefaults o))) os in
    errorCount (checks p) = int64 total ∧
    (total < two63 → (length (complaints p) ≤ 1)%nat ∧
       ∀ os1 os2 p1, os = os1 ++ os2 → run_ops upper types fuel os1 init_package = Some (Ret p1) →
         1 ≤ errorCount (checks p1) → complaints p = complaints p1).
Proof.
  pose proof (run_ops_spec upper types U HU fuel os ts Hos Hfuel 0 init_package (init_package_inv _ _)) as H.
  destruct (existsb (op_hidden upper) os) eqn:Hh; [exact H |]. destruct H as (p & Hr & (Hcnt & _ & Hone) & [Hm Hf Hro Hc _] & _).
  assert (∀ k, complaints_after upper types init_package p 0 k = lowers upper types (checked (checks p)) + k) as Hca.
  { intros k. unfold complaints_after. simpl. unfold lowers at 2. rewrite elements_empty. change (zsum _ []) with 0. lia. }
  rewrite Hca in *. exists p. split; [done |]. split; [| cbv zeta; split; [done |]].
  - intros u. split; [intros Hu; destruct (Hf u Hu) as [?%not_elem_of_empty|?]; done |].
    intros (t & Ht & Htu). apply (closed_reaches types (checked (checks p)) t u); [| done | by apply Hro].
    intros a b Ha Hb. eapply Hc; [done | apply not_elem_of_empty | done].
  - intros Htot. split; [by apply Hone |]. intros os1 os2 p1 -> Hr1 H1. apply (silent_after upper types U HU fuel os1 os2 ts 0 init_package p1 p); try done; [apply init_package_inv | by rewrite Hca].
Qed.

(** The nil interface stops the program before [checkDefault] can look at it. *)
Theorem nil_value_panics (upper : string → bool) (types : gmap Tid Kind) (fuel : nat) (p : Package) :
  run_ops upper types fuel [ODecode None None] p = Some (Abort "nil pointer dereference") ∧
  run_ops upper types fuel [OEncode None] p = Some (Abort "nil pointer dereference").
Proof. done. Qed.

(** A list node is encoded, which counts its field [next]; decoding into a
    variable that is not fresh then goes unreported.  Decoding into a struct
    with a lower-case number panics. *)
Lemma complaints_counted_witness :
  (∃ p, run_ops ascii_upper ex_types 4 [OEncode (Some 3%nat); ODecode (Some 2%nat) (Some (VPtr (Some (VBasic "int" 7))))]
          init_package = Some (Ret p) ∧ errorCount (checks p) = 2 ∧ complaints p = []) ∧
  run_ops ascii_upper {[ 1%nat := Struct [("n", 2%nat)] ]} 3 [ODecode (Some 1%nat) (Some (VStruct [("n", false, VBasic "int" 0)]))]
    init_package = Some (Abort "reflect.Value.Interface: cannot return value obtained from unexported field or method").
Proof.
  split.
  - destruct (complaints_counted ascii_upper ex_types (list_to_set [1; 2; 3]%nat)
                [OEncode (Some 3%nat); ODecode (Some 2%nat) (Some (VPtr (Some (VBasic "int" 7))))] [3; 2]%nat 4)
      as (p & Hr & _ & Hc & _).
    + intros t u Ht. apply elem_of_list_to_set in Ht. rewrite !elem_of_cons in Ht.
      destruct Ht as [->|[->|[->|Ht%not_elem_of_nil]]]; [| | | done]; simpl; set_solver.
    + repeat constructor; apply elem_of_list_to_set; repeat constructor.
    + vm_compute. lia.
    + exists p. split; [exact Hr |]. vm_compute in Hr. injection Hr as <-. split; reflexivity.
  - apply (complaints_counted ascii_upper {[ 1%nat := Struct [("n", 2%nat)] ]} (list_to_set [1; 2]%nat)
             [ODecode (Some 1%nat) (Some (VStruct [("n", false, VBasic "int" 0)]))] [1]%nat 3).
    + intros t u Ht. apply elem_of_list_to_set in Ht. rewrite !elem_of_cons in Ht.
      destruct Ht as [->|[->|Ht%not_elem_of_nil]]; [| | done]; simpl; set_solver.
    + repeat constructor; apply elem_of_list_to_set; repeat constructor.
    + vm_compute. lia.
Defined.

End Labgob.
