(* ===== verification/Random.v ===== *)
(** * Random strings: [Randstring] and [makeSeed] of [tester1/config.go]

    [Randstring] is where the tester's names of ends and the long values of
    its tests come from; elsewhere they are arguments.  Here: how a string is
    made of random bytes with the URL encoding of [encoding/base64], and when
    two draws are the same string. *)

From S2P Require Import Prelude.
#[local] Open Scope Z_scope.

Module Random.

(** ** [base64.URLEncoding] *)

Definition alphabet : string := "ABCDEFGHIJKLMNOPQRSTUVWXYZabcdefghijklmnopqrstuvwxyz0123456789-_".
Definition pad : Ascii.ascii := Ascii.ascii_of_nat 61.

Fixpoint chars (s : string) : list Ascii.ascii :=
  match s with EmptyString => [] | String a s => a :: chars s end.

(** The character of the six bits of [val] from bit [k] on. *)
Definition sextet (val k : Z) : Z := Z.land (Z.shiftr val k) 63.
Definition enc (val k : Z) : Ascii.ascii := default pad (chars alphabet !! Z.to_nat (sextet val k)).

Fixpoint EncodeToString (src : list Z) : string :=
  match src with
  | b0 :: b1 :: b2 :: src =>
      let val := Z.lor (Z.lor (Z.shiftl b0 16) (Z.shiftl b1 8)) b2 in
      String (enc val 18) (String (enc val 12) (String (enc val 6) (String (enc val 0) (EncodeToString src))))
  | [b0; b1] =>
      let val := Z.lor (Z.shiftl b0 16) (Z.shiftl b1 8) in
      String (enc val 18) (String (enc val 12) (String (enc val 6) (String pad "")))
  | [b0] =>
      let val := Z.shiftl b0 16 in
      String (enc val 18) (String (enc val 12) (String pad (String pad "")))
  | [] => ""
  end.

(** ** [Randstring] and [makeSeed] *)

(** [Randstring n] when [crand.Read] fills the [2n] bytes with [b]. *)
Definition Randstring (n : Z) (b : list Z) : GoRes string :=
  if decide (n < 0) then Abort "makeslice: len out of range"
  else
    let s := EncodeToString b in
    if decide (n ≤ Z.of_nat (String.length s)) then Ret (String.substring 0 (Z.to_nat n) s)
    else Abort "slice bounds out of range".

(** [makeSeed]: the random integer [r] is below its bound. *)
Definition makeSeed (crand_Int : Z → Z) : Z := crand_Int (Z.shiftl 1 62).

(** ** Bits and characters *)

Definition is_byte (x : Z) : Prop := 0 ≤ x < 256.

Lemma lor_shift x y k : 0 ≤ k → 0 ≤ y < 2 ^ k → Z.lor (Z.shiftl x k) y = x * 2 ^ k + y.
Proof.
  intros Hk Hy. rewrite <- Z.shiftl_mul_pow2 by done. assert (Z.land (Z.shiftl x k) y = 0) as Hz.
  { apply Z.bits_inj'. intros i Hi. rewrite Z.land_spec, Z.bits_0. destruct (decide (i < k)).
    - by rewrite Z.shiftl_spec_low.
    - rewrite <- (Z.mod_small y (2 ^ k)) by done. rewrite Z.mod_pow2_bits_high by lia. by rewrite andb_false_r. }
  by rewrite Z.add_nocarry_lxor, Z.lxor_lor.
Qed.

Lemma group_val b0 b1 b2 : is_byte b0 → is_byte b1 → is_byte b2 →
  Z.lor (Z.lor (Z.shiftl b0 16) (Z.shiftl b1 8)) b2 = b0 * 65536 + b1 * 256 + b2.
Proof.
  unfold is_byte. intros H0 H1 H2. rewrite (lor_shift b0 (Z.shiftl b1 8) 16), Z.shiftl_mul_pow2 by (rewrite ?Z.shiftl_mul_pow2; lia).
  replace (b0 * 2 ^ 16 + b1 * 2 ^ 8) with (Z.shiftl (b0 * 256 + b1) 8) by (rewrite Z.shiftl_mul_pow2; lia).
  rewrite lor_shift by lia. lia.
Qed.

Lemma sextet_spec val k : 0 ≤ k → sextet val k = (val / 2 ^ k) `mod` 64.
Proof. intros Hk. unfold sextet. rewrite Z.shiftr_div_pow2 by done. apply (Z.land_ones _ 6). lia. Qed.

Lemma sextet_range val k : 0 ≤ k → 0 ≤ sextet val k < 64.
Proof. intros Hk. rewrite sextet_spec by done. apply Z.mod_pos_bound. lia. Qed.

Lemma alphabet_nodup : NoDup (chars alphabet).
Proof. apply (bool_decide_unpack _). vm_compute. exact I. Qed.

Definition url_char (a : Ascii.ascii) : Prop := a ∈ chars alphabet.

Lemma enc_in val k : 0 ≤ k → url_char (enc val k).
Proof.
  unfold url_char.  intros Hk. pose proof (sextet_range val k Hk). unfold enc.
  destruct (lookup_lt_is_Some_2 (chars alphabet) (Z.to_nat (sextet val k))) as [a Ha].
  { change (length (chars alphabet)) with 64%nat. lia. }
  rewrite Ha. by eapply list_elem_of_lookup_2.
Qed.

Lemma enc_inj v w k : 0 ≤ k → enc v k = enc w k → sextet v k = sextet w k.
Proof.
  intros Hk. pose proof (sextet_range v k Hk). pose proof (sextet_range w k Hk). unfold enc.
  destruct (lookup_lt_is_Some_2 (chars alphabet) (Z.to_nat (sextet v k))) as [a Ha];
    [change (length (chars alphabet)) with 64%nat; lia |].
  destruct (lookup_lt_is_Some_2 (chars alphabet) (Z.to_nat (sextet w k))) as [b Hb];
    [change (length (chars alphabet)) with 64%nat; lia |].
  rewrite Ha, Hb. simpl. intros <-. pose proof (NoDup_lookup _ _ _ _ alphabet_nodup Ha Hb). lia.
Qed.

Lemma sextets v : 0 ≤ v < 16777216 →
  v = 262144 * ((v / 2 ^ 18) `mod` 64) + 4096 * ((v / 2 ^ 12) `mod` 64) + 64 * ((v / 2 ^ 6) `mod` 64) + (v / 2 ^ 0) `mod` 64.
Proof.
  intros Hv. change (2 ^ 18) with (4096 * 64). change (2 ^ 12) with (64 * 64). change (2 ^ 6) with 64. change (2 ^ 0) with 1.
  rewrite <- !Z.div_div by lia. change 4096 with (64 * 64). rewrite <- !Z.div_div by lia. rewrite Z.div_1_r.
  pose proof (Z.div_mod v 64). pose proof (Z.div_mod (v / 64) 64). pose proof (Z.div_mod (v / 64 / 64) 64).
  rewrite (Z.mod_small (v / 64 / 64 / 64)); [lia |]. rewrite !Z.div_div by lia. simpl. split; [apply Z.div_pos; lia |].
  apply Z.div_lt_upper_bound; lia.
Qed.

(** The four characters of a group determine its three bytes. *)
Lemma group_inj b0 b1 b2 c0 c1 c2 :
  Forall is_byte [b0; b1; b2; c0; c1; c2] →
  let v := Z.lor (Z.lor (Z.shiftl b0 16) (Z.shiftl b1 8)) b2 in
  let w := Z.lor (Z.lor (Z.shiftl c0 16) (Z.shiftl c1 8)) c2 in
  (∀ k, k ∈ [18; 12; 6; 0] → enc v k = enc w k) → b0 = c0 ∧ b1 = c1 ∧ b2 = c2.
Proof.
  rewrite !Forall_cons. intros (H0 & H1 & H2 & H3 & H4 & H5 & _). cbn zeta. rewrite !group_val by done. unfold is_byte in *. intros He.
  assert (∀ k, k ∈ [18; 12; 6; 0] →
    ((b0 * 65536 + b1 * 256 + b2) / 2 ^ k) `mod` 64 = ((c0 * 65536 + c1 * 256 + c2) / 2 ^ k) `mod` 64) as Hs.
  { intros k Hk. assert (0 ≤ k) by (rewrite !elem_of_cons, elem_of_nil in Hk; lia).
    rewrite <- !sextet_spec by done. by apply enc_inj, He. }
  assert (b0 * 65536 + b1 * 256 + b2 = c0 * 65536 + c1 * 256 + c2) as E; [| lia].
  rewrite (sextets (b0 * _ + _ + _)), (sextets (c0 * _ + _ + _)) by lia. by rewrite !Hs by set_solver.
Qed.

(** ** Prefixes of the encoding *)

(** Induction in steps of three bytes and four characters. *)
Lemma substring_S n a s : String.substring 0 (S n) (String a s) = String a (String.substring 0 n s).
Proof. done. Qed.
Lemma substring_0 s : String.substring 0 0 s = "".
Proof. by destruct s. Qed.

(** The first [4m] characters are those of the first [3m] bytes. *)
Lemma encode_prefix m : ∀ b c,
  Forall is_byte b → Forall is_byte c → (3 * m ≤ length b)%nat → (3 * m ≤ length c)%nat →
  (String.substring 0 (4 * m) (EncodeToString b) = String.substring 0 (4 * m) (EncodeToString c) ↔ take (3 * m) b = take (3 * m) c).
Proof.
  induction m as [|m IH]; intros b c Hb Hc Lb Lc; [rewrite !substring_0; done |].
  destruct b as [|b0 [|b1 [|b2 b]]]; [simpl in Lb; lia .. |].
  destruct c as [|c0 [|c1 [|c2 c]]]; [simpl in Lc; lia .. |].
  replace (4 * S m)%nat with (S (S (S (S (4 * m)))))%nat by lia. replace (3 * S m)%nat with (S (S (S (3 * m))))%nat by lia.
  rewrite !Forall_cons in Hb, Hc. destruct Hb as (B0 & B1 & B2 & Hb), Hc as (C0 & C1 & C2 & Hc). simpl in Lb, Lc.
  cbn [EncodeToString take]. rewrite !substring_S. specialize (IH b c Hb Hc ltac:(lia) ltac:(lia)). split.
  - intros [= E18 E12 E6 E0 Er]. apply IH in Er.
    destruct (group_inj b0 b1 b2 c0 c1 c2) as (-> & -> & ->); [by repeat (apply Forall_cons_2; [done |]) | | by rewrite Er].
    intros k Hk. rewrite !elem_of_cons, elem_of_nil in Hk. destruct_or! Hk; subst; done.
  - intros [= -> -> -> Er]. apply IH in Er. by rewrite Er.
Qed.

(** Prefixes of at most four characters. *)
#[local] Ltac short_prefix :=
  rewrite ?substring_S, ?substring_0; cbn [String.length chars];
  split_and!; [lia | lia | repeat (apply Forall_cons_2; [by apply enc_in |]); apply Forall_nil_2].

(** As many characters as six bits need are from the alphabet. *)
Lemma encode_chars k : ∀ b, (length b ≤ k)%nat → ∀ n, (6 * n ≤ 8 * length b)%nat →
  String.length (String.substring 0 n (EncodeToString b)) = n ∧
  (n ≤ String.length (EncodeToString b))%nat ∧
  Forall url_char (chars (String.substring 0 n (EncodeToString b))).
Proof.
  induction k as [|k IH]; intros b Hk n Hn.
  { destruct b; cbn [length] in *; [| lia]. assert (n = 0)%nat as -> by lia. short_prefix. }
  destruct b as [|b0 [|b1 [|b2 b]]]; cbn [length] in Hk, Hn; cbn [EncodeToString].
  - assert (n = 0)%nat as -> by lia. short_prefix.
  - assert (n = 0 ∨ n = 1)%nat as [-> | ->] by lia; short_prefix.
  - assert (n = 0 ∨ n = 1 ∨ n = 2)%nat as [-> | [-> | ->]] by lia; short_prefix.
  - destruct n as [|[|[|[|n]]]]; [short_prefix .. |]. rewrite !substring_S. cbn [String.length chars].
    destruct (IH b ltac:(lia) n ltac:(lia)) as (H1 & H2 & H3). split_and!; [by rewrite H1 | lia |].
    repeat (apply Forall_cons_2; [by apply enc_in |]). done.
Qed.

(** ** The property *)

(** Random strings are as long as asked for, consist of letters, digits,
    [-] and [_], and are as different as the bytes they are made of: two
    strings of [4m] characters (all the repository uses: 20 and 5000) are
    equal exactly when the first [3m] random bytes are.  So names of ends made
    of 20 characters are distinct unless fifteen random bytes are repeated. *)
Theorem Randstring_exact (n : Z) (b : list Z) (Hb : Forall is_byte b) (Hn : 0 ≤ n) (Hl : Z.of_nat (length b) = 2 * n) :
  ∃ s, Randstring n b = Ret s ∧ Z.of_nat (String.length s) = n ∧ Forall url_char (chars s) ∧
    ∀ m c, n = Z.of_nat (4 * m) → Forall is_byte c → length c = length b →
      (Randstring n c = Ret s ↔ take (3 * m) c = take (3 * m) b).
Proof.
  assert (∀ c, length c = length b → Randstring n c = Ret (String.substring 0 (Z.to_nat n) (EncodeToString c))) as HR.
  { intros c Hc. destruct (encode_chars (length c) c ltac:(lia) (Z.to_nat n) ltac:(lia)) as (_ & Hle & _).
    unfold Randstring. rewrite decide_False by lia. by rewrite decide_True by lia. }
  destruct (encode_chars (length b) b ltac:(lia) (Z.to_nat n) ltac:(lia)) as (Hlen & _ & Hch).
  exists (String.substring 0 (Z.to_nat n) (EncodeToString b)). split; [by apply HR |]. split; [lia |]. split; [done |].
  intros m c -> Hc Hlc. rewrite HR by done. rewrite Nat2Z.id.
  rewrite <- (encode_prefix m c b) by (first [done | lia]). split; [by intros [= ?] | by intros ->].
Qed.

Lemma Randstring_exact_witness :
  ∃ s, Randstring 4 [255; 0; 17; 3; 4; 5; 6; 7] = Ret s ∧ Z.of_nat (String.length s) = 4 ∧
    Randstring 4 [255; 0; 17; 1; 1; 1; 1; 1] = Ret s.
Proof.
  destruct (Randstring_exact 4 [255; 0; 17; 3; 4; 5; 6; 7]) as (s & Hs & Hl & _ & Hc);
    [repeat (apply Forall_cons_2; [unfold is_byte; lia |]); apply Forall_nil_2 | lia | reflexivity |].
  exists s. split; [exact Hs |]. split; [exact Hl |]. apply (Hc 1%nat);
    [reflexivity | repeat (apply Forall_cons_2; [unfold is_byte; lia |]); apply Forall_nil_2 | reflexivity | reflexivity].
Defined.

End Random.
