(* ===== verification/Labrpc.v ===== *)
(** * The simulated network: [labrpc/labrpc.go]

    The network's tables and their operations, dispatch of a request to a
    service method, and the life of a request in [processReq] with the
    goroutine that runs the handler, as a step relation.  Method bodies act on
    a state [W] of the program under test and are parameters. *)

From S2P Require Import Prelude.
#[local] Open Scope Z_scope.

Module Labrpc.

(** ** Names of services and methods *)

(** [strings.LastIndex(s, ".")], -1 if there is none. *)
Fixpoint last_dot (s : string) (i : Z) (found : Z) : Z :=
  match s with
  | EmptyString => found
  | String c s => last_dot s (i + 1) (if decide (Ascii.nat_of_ascii c = 46%nat) then i else found)
  end.
Definition LastIndex (s : string) : Z := last_dot s 0 (-1).

(** [req.svcMeth[:dot]] and [req.svcMeth[dot+1:]]; slicing at -1 panics. *)
Definition split_svcMeth (s : string) : GoRes (string * string) :=
  let dot := LastIndex s in
  if decide (dot < 0) then Abort "slice bounds out of range"
  else let d := Z.to_nat dot in
       Ret (String.substring 0 d s, String.substring (S d) (String.length s - S d) s).

(** ** Services and servers *)

Section labrpc.
Context {W : Type}.

(** A method that looks like a handler: arguments and reply are the encoded
    bytes. *)
Definition Method : Type := W → string → W * string.

Record Service := mkService { name : string; methods : gmap string Method }.
Record Server := mkServer { services : gmap string Service; rs_count : Z }.

Definition MakeServer : Server := mkServer ∅ 0.
Definition AddService (rs : Server) (svc : Service) : Server :=
  mkServer (<[name svc := svc]> (services rs)) (rs_count rs).
Definition GetCount (rs : Server) : Z := rs_count rs.

Record reqMsg := mkReqMsg { endname : string; svcMeth : string; args : string }.

Definition Service_dispatch (svc : Service) (methname : string) (req : reqMsg) (w : W) : GoRes (W * string) :=
  match methods svc !! methname with
  | Some method => Ret (method w (args req))
  | None => Abort "labrpc.Service.dispatch(): unknown method"
  end.

(** [Server.dispatch]: the server with its count, and the effect of the
    method. *)
Definition Server_dispatch (rs : Server) (req : reqMsg) (w : W) : GoRes (Server * (W * string)) :=
  let rs := mkServer (services rs) (int64 (rs_count rs + 1)) in
  (let* sm := split_svcMeth (svcMeth req) in
   let* r := match services rs !! sm.1 with
             | Some service => Service_dispatch service sm.2 req w
             | None => Abort "labrpc.Server.dispatch(): unknown service"
             end in
   Ret (rs, r))%go.

(** ** The network

    Servers are pointers, compared by identity: numbers into a heap. *)
Record Network := mkNetwork {
  reliable : bool;
  longDelays : bool;
  longReordering : bool;
  ends : gset string;
  enabled : gmap string bool;
  servers : gmap string (option nat);
  connections : gmap string (option string);
  count : Z;
  bytes : Z
}.

Definition MakeNetwork : Network := mkNetwork true false false ∅ ∅ ∅ ∅ 0 0.

Definition Reliable (rn : Network) (yes : bool) : Network :=
  mkNetwork yes (longDelays rn) (longReordering rn) (ends rn) (enabled rn) (servers rn) (connections rn) (count rn) (bytes rn).
Definition LongReordering (rn : Network) (yes : bool) : Network :=
  mkNetwork (reliable rn) (longDelays rn) yes (ends rn) (enabled rn) (servers rn) (connections rn) (count rn) (bytes rn).
Definition LongDelays (rn : Network) (yes : bool) : Network :=
  mkNetwork (reliable rn) yes (longReordering rn) (ends rn) (enabled rn) (servers rn) (connections rn) (count rn) (bytes rn).
Definition IsReliable (rn : Network) : bool := reliable rn.
Definition IsLongDelays (rn : Network) : bool := longDelays rn.

Definition set_tables (rn : Network) (es : gset string) (en : gmap string bool) (sv : gmap string (option nat))
    (co : gmap string (option string)) : Network :=
  mkNetwork (reliable rn) (longDelays rn) (longReordering rn) es en sv co (count rn) (bytes rn).

Definition MakeEnd (rn : Network) (e : string) : GoRes Network :=
  if decide (e ∈ ends rn) then Abort "MakeEnd: already exists"
  else Ret (set_tables rn ({[e]} ∪ ends rn) (<[e := false]> (enabled rn)) (servers rn) (<[e := None]> (connections rn))).

Definition DeleteEnd (rn : Network) (e : string) : GoRes Network :=
  if decide (e ∈ ends rn) then
    Ret (set_tables rn (ends rn ∖ {[e]}) (delete e (enabled rn)) (servers rn) (delete e (connections rn)))
  else Abort "MakeEnd: doesn't exists".

Definition AddServer (rn : Network) (sn : string) (rs : nat) : Network :=
  set_tables rn (ends rn) (enabled rn) (<[sn := Some rs]> (servers rn)) (connections rn).
Definition DeleteServer (rn : Network) (sn : string) : Network :=
  set_tables rn (ends rn) (enabled rn) (<[sn := None]> (servers rn)) (connections rn).
Definition Connect (rn : Network) (e sn : string) : Network :=
  set_tables rn (ends rn) (enabled rn) (servers rn) (<[e := Some sn]> (connections rn)).
Definition Enable (rn : Network) (e : string) (yes : bool) : Network :=
  set_tables rn (ends rn) (<[e := yes]> (enabled rn)) (servers rn) (connections rn).

(** Reading Go maps: the zero value when absent. *)
Definition is_enabled (rn : Network) (e : string) : bool := default false (enabled rn !! e).
Definition server_at (rn : Network) (sn : string) : option nat := default None (servers rn !! sn).
Definition connected_to (rn : Network) (e : string) : option string := default None (connections rn !! e).

(** [Network.GetCount]: a deleted or unknown server is a nil pointer. *)
Definition Network_GetCount (rn : Network) (heap : gmap nat Server) (sn : string) : GoRes Z :=
  (let* p := deref (server_at rn sn) "nil pointer dereference" in
   let* svr := deref (heap !! p) "nil pointer dereference" in
   Ret (GetCount svr))%go.

Definition GetTotalCount (rn : Network) : Z := count rn.
Definition GetTotalBytes (rn : Network) : Z := bytes rn.

(** The network goroutine counts a request it takes from [endCh]; [count] is
    an [int32], [bytes] an [int64]. *)
Definition int32 (z : Z) : Z := (z + 2147483648) `mod` two32 - 2147483648.
Definition count_request (rn : Network) (n : Z) : Network :=
  mkNetwork (reliable rn) (longDelays rn) (longReordering rn) (ends rn) (enabled rn) (servers rn) (connections rn)
    (int32 (count rn + 1)) (int64 (bytes rn + n)).
Definition count_reply (rn : Network) (n : Z) : Network :=
  mkNetwork (reliable rn) (longDelays rn) (longReordering rn) (ends rn) (enabled rn) (servers rn) (connections rn)
    (count rn) (int64 (bytes rn + n)).

Definition readEndnameInfo (rn : Network) (e : string) : bool * option string * option nat * bool * bool :=
  let en := is_enabled rn e in
  let sn := connected_to rn e in
  let server := match sn with Some sn => server_at rn sn | None => None end in
  (en, sn, server, reliable rn, longReordering rn).

Definition isServerDead (rn : Network) (e sn : string) (server : nat) : bool :=
  if decide (is_enabled rn e = false ∨ server_at rn sn ≠ Some server) then true else false.

(** ** The life of a request *)

(** Where [processReq] stands. *)
Inductive Stage : Type :=
| Sent                                                    (** before [readEndnameInfo] *)
| Chosen (sn : string) (server : nat) (rel lr : bool)     (** before the decision to drop *)
| Waiting (sn : string) (server : nat) (rel lr : bool)    (** in the loop that waits for the handler *)
| Returned (sn : string) (server : nat) (rel lr : bool) (reply : string)
| GaveUp (sn : string) (server : nat) (rel lr : bool)     (** the server died *)
| Answered (ok : bool) (reply : string).                  (** [req.replyCh <- ...], now or later *)

(** The goroutine that calls [server.dispatch]. *)
Inductive Disp : Type :=
| NoDisp
| Pending (server : nat)
| Ran (reply : string).

Record Request := mkRequest { msg : reqMsg; stage : Stage; disp : Disp }.

Record State := mkState {
  net : Network;
  heap : gmap nat Server;
  world : W;
  requests : list Request;
  executed : list (nat * string)     (** history: requests whose handler ran, with the reply *)
}.

Definition set_request (s : State) (q : nat) (r : Request) : State :=
  mkState (net s) (heap s) (world s) (<[q := r]> (requests s)) (executed s).

(** The answer of [processReq] after the final check; [drop] is the random
    choice, made only on an unreliable network. *)
Definition answer (rn : Network) (req : reqMsg) (st : Stage) (drop : bool) : option Stage :=
  match st with
  | GaveUp _ _ _ _ => Some (Answered false "")
  | Returned sn server rel _ reply =>
      if isServerDead rn (endname req) sn server then Some (Answered false "")
      else if negb rel && drop then Some (Answered false "")
      else Some (Answered true reply)
  | _ => None
  end.

Inductive step : State → State → Prop :=
| configure s rn : step s (mkState rn (heap s) (world s) (requests s) (executed s))
| send s req :
    step s (mkState (count_request (net s) (Z.of_nat (String.length (args req)))) (heap s) (world s)
              (requests s ++ [mkRequest req Sent NoDisp]) (executed s))
| choose s q req d sn server rel lr :
    requests s !! q = Some (mkRequest req Sent d) →
    readEndnameInfo (net s) (endname req) = (true, Some sn, Some server, rel, lr) →
    step s (set_request s q (mkRequest req (Chosen sn server rel lr) d))
| no_server s q req d en sn server rel lr :
    requests s !! q = Some (mkRequest req Sent d) →
    readEndnameInfo (net s) (endname req) = (en, sn, server, rel, lr) →
    (en = false ∨ sn = None ∨ server = None) →
    step s (set_request s q (mkRequest req (Answered false "") d))
| drop_request s q req d sn server lr :
    requests s !! q = Some (mkRequest req (Chosen sn server false lr) d) →
    step s (set_request s q (mkRequest req (Answered false "") d))
| start_dispatch s q req d sn server rel lr :
    requests s !! q = Some (mkRequest req (Chosen sn server rel lr) d) →
    step s (set_request s q (mkRequest req (Waiting sn server rel lr) (Pending server)))
| run_handler s q req st server rs rs' w' reply :
    requests s !! q = Some (mkRequest req st (Pending server)) →
    heap s !! server = Some rs → Server_dispatch rs req (world s) = Ret (rs', (w', reply)) →
    step s (mkState (net s) (<[server := rs']> (heap s)) w'
              (<[q := mkRequest req st (Ran reply)]> (requests s)) ((q, reply) :: executed s))
| handler_returns s q req sn server rel lr reply :
    requests s !! q = Some (mkRequest req (Waiting sn server rel lr) (Ran reply)) →
    step s (set_request s q (mkRequest req (Returned sn server rel lr reply) (Ran reply)))
| server_dies s q req d sn server rel lr :
    requests s !! q = Some (mkRequest req (Waiting sn server rel lr) d) →
    isServerDead (net s) (endname req) sn server = true →
    step s (set_request s q (mkRequest req (GaveUp sn server rel lr) d))
| finish s q req d st drop st' :
    requests s !! q = Some (mkRequest req st d) → answer (net s) req st drop = Some st' →
    step s (mkState (match st' with
                     | Answered true reply => count_reply (net s) (Z.of_nat (String.length reply))
                     | _ => net s
                     end) (heap s) (world s) (<[q := mkRequest req st' d]> (requests s)) (executed s)).

Definition initial (hp : gmap nat Server) (w : W) (rn : Network) : State := mkState rn hp w [] [].

(** ** At most once *)

(** How the stage of a request, its dispatch goroutine and the history of
    executions go together. *)
Definition request_ok (ex : list (nat * string)) (q : nat) (r : Request) : Prop :=
  match stage r with
  | Sent | Chosen _ _ _ _ => disp r = NoDisp
  | Returned _ _ _ _ reply | Answered true reply => disp r = Ran reply
  | _ => True
  end ∧
  match disp r with
  | NoDisp | Pending _ => q ∉ ex.*1
  | Ran reply => (q, reply) ∈ ex
  end.

Record inv (s : State) : Prop := {
  inv_requests : ∀ q r, requests s !! q = Some r → request_ok (executed s) q r;
  inv_nodup : NoDup (executed s).*1;
  inv_bound : ∀ q, q ∈ (executed s).*1 → (q < length (requests s))%nat
}.

(** A step of one request that runs no handler. *)
Lemma inv_set s q r r' rn :
  inv s → requests s !! q = Some r → request_ok (executed s) q r' →
  inv (mkState rn (heap s) (world s) (<[q := r']> (requests s)) (executed s)).
Proof.
  intros [Hr Hn Hb] Hq Hok. split; simpl; auto.
  - intros k rk. rewrite list_lookup_insert. case_decide as Hd; [| apply Hr].
    destruct Hd as [<- _]. by intros [= <-].
  - by rewrite length_insert.
Qed.

Lemma net_inv_step s s' : inv s → step s s' → inv s'.
Proof.
  intros Hinv Hs. pose proof Hinv as [Hr Hn Hb].
  destruct Hs as [s rn|s req|s q req d sn server rel lr Hq Hi|s q req d en sn server rel lr Hq Hi Hno
    |s q req d sn server lr Hq|s q req d sn server rel lr Hq|s q req st server rs rs' w' reply Hq Hh Hd
    |s q req sn server rel lr reply Hq|s q req d sn server rel lr Hq Hdead|s q req d st drop st' Hq Ha];
    try pose proof (Hr _ _ Hq) as [H1 H2]; simpl in *.
  - by split.
  - split; simpl; auto.
    + intros k rk [Hk|[Hk Hl]]%lookup_app_Some; [by apply Hr |].
      apply list_lookup_singleton_Some in Hl as [Hz <-]. split; [done |]. simpl. intros Hin%Hb. lia.
    + intros k Hk%Hb. rewrite length_app. simpl. lia.
  - eapply inv_set; [done | done |]. by split.
  - eapply inv_set; [done | done |]. by split.
  - eapply inv_set; [done | done |]. by split.
  - eapply inv_set; [done | done |]. split; [done |]. simpl. by rewrite H1 in H2.
  - assert ((q < length (requests s))%nat) as Hlt by (by eapply lookup_lt_Some).
    split; simpl.
    + intros k rk. rewrite list_lookup_insert. case_decide as Hdec.
      * destruct Hdec as [<- _]. intros [= <-]. split; simpl; [| left].
        destruct st as [| | | | |[] ]; simpl in *; try done.
      * intros Hk. destruct (Hr k rk Hk) as [Ha Hb']. split; [done |]. simpl.
        destruct (disp rk); [.. | by right].
        -- intros [->|?]%elem_of_cons; [by destruct Hdec | done].
        -- intros [->|?]%elem_of_cons; [by destruct Hdec | done].
    + constructor; done.
    + intros k [->|Hk]%elem_of_cons; rewrite length_insert; [done | by apply Hb].
  - eapply inv_set; [done | done |]. by split.
  - eapply inv_set; [done | done |]. by split.
  - eapply (inv_set s q); [done | done |]. split; [| done]. simpl.
    unfold answer in Ha. destruct st; simplify_eq; [| done]. repeat case_match; simplify_eq; done.
Qed.

Lemma net_inv_rtc s s' : inv s → rtc step s s' → inv s'.
Proof. intros Hi Hs. induction Hs; eauto using net_inv_step. Qed.

Lemma inv_initial hp w rn : inv (initial hp w rn).
Proof. split; simpl; [done | constructor | by intros ? ?%not_elem_of_nil]. Qed.

(** A request answered without a dispatch goroutine never gets one. *)
Lemma undispatched_stays s s' q req ok reply :
  requests s !! q = Some (mkRequest req (Answered ok reply) NoDisp) → step s s' →
  requests s' !! q = Some (mkRequest req (Answered ok reply) NoDisp).
Proof.
  intros Hq Hs. destruct Hs; simpl; auto; try (by apply lookup_app_l_Some);
    (destruct (decide (q0 = q)) as [->|Hne]; [| by rewrite list_lookup_insert_ne]);
    simplify_eq; done.
Qed.

(** ** A reliable network *)

(** The end [e] is connected to a live server on a reliable network. *)
Definition stable (e sn : string) (server : nat) (rn : Network) : Prop :=
  reliable rn = true ∧ is_enabled rn e = true ∧ connected_to rn e = Some sn ∧ server_at rn sn = Some server.

Definition on_track (sn : string) (server : nat) (st : Stage) : Prop :=
  match st with
  | Sent | Answered true _ => True
  | Chosen sn' server' rel _ | Waiting sn' server' rel _ | Returned sn' server' rel _ _ =>
      sn' = sn ∧ server' = server ∧ rel = true
  | GaveUp _ _ _ _ | Answered false _ => False
  end.

Definition all_on_track (e sn : string) (server : nat) (s : State) : Prop :=
  ∀ q r, requests s !! q = Some r → endname (msg r) = e → on_track sn server (stage r).

Lemma stable_alive e sn server rn : stable e sn server rn → isServerDead rn e sn server = false.
Proof.
  intros (_ & He & _ & Hs). unfold isServerDead. rewrite He, Hs. rewrite decide_False; [done | naive_solver].
Qed.

Lemma on_track_set e sn server s q r r' rn :
  all_on_track e sn server s → requests s !! q = Some r → msg r' = msg r →
  (endname (msg r) = e → on_track sn server (stage r')) →
  all_on_track e sn server (mkState rn (heap s) (world s) (<[q := r']> (requests s)) (executed s)).
Proof.
  intros Hall Hq Hm Ht k rk. simpl. rewrite list_lookup_insert. case_decide as Hd; [| exact (Hall k rk)].
  destruct Hd as [<- _]. intros [= <-]. rewrite Hm. done.
Qed.

Lemma on_track_step e sn server s s' :
  stable e sn server (net s) → all_on_track e sn server s → step s s' → all_on_track e sn server s'.
Proof.
  intros Hst Hall Hs.
  destruct Hs as [s rn|s req|s q req d sn' server' rel lr Hq Hi|s q req d en sn' server' rel lr Hq Hi Hno
    |s q req d sn' server' lr Hq|s q req d sn' server' rel lr Hq|s q req st server' rs rs' w' reply Hq Hh Hd
    |s q req sn' server' rel lr reply Hq|s q req d sn' server' rel lr Hq Hdead|s q req d st drop st' Hq Ha];
    try pose proof (Hall _ _ Hq) as Ht; simpl in *.
  - exact Hall.
  - intros k rk [Hk|[_ Hl]]%lookup_app_Some; [exact (Hall k rk Hk) |].
    apply list_lookup_singleton_Some in Hl as [_ <-]. done.
  - eapply on_track_set; [done | done | done |]. simpl. intros <-. destruct Hst as (Hr & He & Hc & Hsv).
    unfold readEndnameInfo in Hi. rewrite He, Hc, Hsv, Hr in Hi. by simplify_eq/=.
  - eapply on_track_set; [done | done | done |]. simpl. intros <-. destruct Hst as (Hr & He & Hc & Hsv).
    unfold readEndnameInfo in Hi. rewrite He, Hc, Hsv in Hi. simplify_eq/=. naive_solver.
  - eapply on_track_set; [done | done | done |]. simpl. intros <-. destruct (Ht eq_refl) as (_ & _ & ?). done.
  - by eapply on_track_set.
  - intros k rk. simpl. rewrite list_lookup_insert. case_decide as Hdec; [| exact (Hall k rk)].
    destruct Hdec as [<- _]. intros [= <-]. done.
  - by eapply on_track_set.
  - eapply on_track_set; [done | done | done |]. simpl. intros <-. destruct (Ht eq_refl) as (-> & -> & _).
    apply stable_alive in Hst. congruence.
  - eapply (on_track_set e sn server s q); [done | done | done |]. simpl. intros <-. specialize (Ht eq_refl).
    unfold answer in Ha. destruct st; simplify_eq; [| done]. destruct Ht as (-> & -> & ->).
    rewrite (stable_alive _ _ _ _ Hst) in Ha. by simplify_eq/=.
Qed.

End labrpc.

(** ** Splitting method names *)

Fixpoint no_dot (s : string) : Prop :=
  match s with
  | EmptyString => True
  | String c s => Ascii.nat_of_ascii c ≠ 46%nat ∧ no_dot s
  end.

Lemma last_dot_none s i f : no_dot s → last_dot s i f = f.
Proof.
  revert i f. induction s as [|c s IH]; intros i f Hs; simpl in *; [done |].
  destruct Hs as [Hc Hs]. rewrite decide_False by done. auto.
Qed.

Lemma last_dot_app a b i f : no_dot b → last_dot (a +:+ "." +:+ b) i f = i + Z.of_nat (String.length a).
Proof.
  intros Hb. revert i f. induction a as [|c a IH]; intros i f.
  - change (last_dot b (i + 1) i = i + Z.of_nat 0). rewrite last_dot_none by done. lia.
  - rewrite string_app_cons. cbn [last_dot String.length]. rewrite IH. lia.
Qed.

Lemma substring_all s : String.substring 0 (String.length s) s = s.
Proof. induction s as [|c s IH]; simpl; [done | by rewrite IH]. Qed.

Lemma substring_prefix a b : String.substring 0 (String.length a) (a +:+ b) = a.
Proof.
  induction a as [|c a IH]; [by destruct b |]. rewrite string_app_cons. cbn [String.length String.substring].
  by rewrite IH.
Qed.

Lemma substring_suffix a b n : String.substring (String.length a) n (a +:+ b) = String.substring 0 n b.
Proof. induction a as [|c a IH]; [done |]. rewrite string_app_cons. cbn [String.length String.substring]. done. Qed.

Lemma split_svcMeth_app svc meth :
  no_dot meth → split_svcMeth (svc +:+ "." +:+ meth) = Ret (svc, meth).
Proof.
  intros Hm. unfold split_svcMeth, LastIndex. rewrite last_dot_app by done. rewrite decide_False by lia.
  rewrite Z.add_0_l, Nat2Z.id. f_equal. f_equal; [apply substring_prefix |].
  change (svc +:+ "." +:+ meth) with (svc +:+ ("." +:+ meth)). rewrite string_app_assoc.
  assert (String.length (svc +:+ ".") = S (String.length svc)) as <-.
  { rewrite string_length_app. simpl. lia. }
  rewrite substring_suffix, string_length_app.
  replace (_ - _)%nat with (String.length meth) by lia. apply substring_all.
Qed.

(** ** The properties *)

(** C14: the handler of a request runs at most once, however the network is
    reconfigured meanwhile; a client is answered with a reply only after the
    handler has run, with the reply it gave; and a request that was answered
    before being handed to a server (dropped, or no server) never runs. *)
Theorem rpc_at_most_once {W : Type} (hp : gmap nat Server) (w : W) (rn : Network) (s : State)
    (Hs : rtc step (initial hp w rn) s) :
  NoDup (executed s).*1 ∧
  (∀ q req reply d, requests s !! q = Some (mkRequest req (Answered true reply) d) → (q, reply) ∈ executed s) ∧
  (∀ q req ok reply s', requests s !! q = Some (mkRequest req (Answered ok reply) NoDisp) →
     rtc step s s' → q ∉ (executed s').*1).
Proof.
  pose proof (net_inv_rtc _ _ (inv_initial hp w rn) Hs) as Hinv. split_and!.
  - apply Hinv.
  - intros q req reply d Hq. destruct (inv_requests _ Hinv _ _ Hq) as [Hd Hex]. simpl in *. by rewrite Hd in Hex.
  - intros q req ok reply s' Hq Hs'. pose proof (net_inv_rtc _ _ Hinv Hs') as Hinv'.
    assert (requests s' !! q = Some (mkRequest req (Answered ok reply) NoDisp)) as Hq'.
    { clear -Hq Hs'. induction Hs'; [done |]. eauto using undispatched_stays. }
    apply (inv_requests _ Hinv' _ _ Hq').
Qed.

(** While the network is reliable and an end stays enabled and
    connected to a live server, no call through that end fails: none of its
    requests is ever answered with false. *)
Theorem reliable_calls_succeed {W : Type} (hp : gmap nat Server) (w : W) (rn : Network) (s : State)
    (e sn : string) (server q : nat) (r : Request)
    (Hs : rtc (λ s1 s2, stable e sn server (net s1) ∧ step s1 s2) (initial hp w rn) s)
    (Hq : requests s !! q = Some r) (He : endname (msg r) = e) :
  ∀ reply, stage r ≠ Answered false reply.
Proof.
  assert (all_on_track e sn server s) as Hall.
  { assert (all_on_track e sn server (initial hp w rn)) as H0 by (by intros ? ?).
    revert H0. clear -Hs. induction Hs as [|s1 s2 s3 [H1 H2] _ IH]; [done |].
    intros H0. apply IH. by eapply on_track_step. }
  intros reply E. specialize (Hall q r Hq He). by rewrite E in Hall.
Qed.

(** A request for ["Service.Method"] (the method's name without a dot)
    reaches that method of that service of the server, which counts it;
    unknown services and methods end the process. *)
Lemma dispatch_routes {W : Type} (rs : @Server W) (req : reqMsg) (w : W) (svc meth : string)
    (Hreq : svcMeth req = svc +:+ "." +:+ meth) (Hm : no_dot meth) :
  Server_dispatch rs req w =
    match services rs !! svc with
    | Some service =>
        match methods service !! meth with
        | Some method => Ret (mkServer (services rs) (int64 (rs_count rs + 1)), method w (args req))
        | None => Abort "labrpc.Service.dispatch(): unknown method"
        end
    | None => Abort "labrpc.Server.dispatch(): unknown service"
    end.
Proof.
  unfold Server_dispatch. rewrite Hreq, split_svcMeth_app by done. simpl.
  destruct (services rs !! svc) as [service|]; [| done]. unfold Service_dispatch.
  by destruct (methods service !! meth).
Qed.

(** *** Witnesses: a counter behind one service *)

Definition counter_svc : @Service nat :=
  mkService "Counter" {[ "Incr"%string := (λ (w : nat) (_ : string), (S w, "done"%string)) ]}.
Definition counter_heap : gmap nat (@Server nat) := {[ 0%nat := AddService MakeServer counter_svc ]}.
Definition counter_net : Network :=
  Enable (Connect (AddServer (set_tables MakeNetwork {["e"%string]} ∅ ∅ ∅) "s" 0) "e" "s") "e" true.
Definition incr_req : reqMsg := mkReqMsg "e" "Counter.Incr" "x".

(** The request runs through: sent, dispatched, run, returned, answered. *)
Lemma counter_run :
  ∃ s r, rtc (λ s1 s2, stable "e" "s" 0 (net s1) ∧ step s1 s2) (initial counter_heap 4%nat counter_net) s ∧
    requests s !! 0%nat = Some r ∧ endname (msg r) = "e"%string ∧ stage r = Answered true "done".
Proof.
  eexists _, _. split; [| split; [| split]].
  - eapply rtc_l; [split; [by vm_compute | apply (send _ incr_req)] |].
    eapply rtc_l; [split; [by vm_compute | eapply (choose _ 0); [reflexivity | vm_compute; reflexivity]] |].
    eapply rtc_l; [split; [by vm_compute | eapply (start_dispatch _ 0); reflexivity] |].
    eapply rtc_l; [split; [by vm_compute | eapply (run_handler _ 0); [reflexivity | reflexivity | vm_compute; reflexivity]] |].
    eapply rtc_l; [split; [by vm_compute | eapply (handler_returns _ 0); reflexivity] |].
    eapply rtc_l; [split; [by vm_compute | eapply (finish _ 0 _ _ _ false); [reflexivity | vm_compute; reflexivity]] |].
    apply rtc_refl.
  - reflexivity.
  - reflexivity.
  - reflexivity.
Qed.

Lemma rpc_at_most_once_witness :
  ∃ s, rtc step (initial counter_heap 4%nat counter_net) s ∧ (0%nat, "done"%string) ∈ executed s.
Proof.
  destruct counter_run as (s & r & Hs & Hr & He & Ha). exists s.
  assert (rtc step (initial counter_heap 4%nat counter_net) s) as Hs'.
  { eapply rtc_subrel; [| exact Hs]. intros s1 s2 [_ H]. exact H. }
  split; [exact Hs' |]. destruct r as [req st d]. simpl in Ha. subst st.
  destruct (rpc_at_most_once _ _ _ s Hs') as (_ & H & _). exact (H 0%nat req "done"%string d Hr).
Defined.

Lemma reliable_calls_succeed_witness :
  ∃ s r, requests s !! 0%nat = Some r ∧ endname (msg r) = "e"%string ∧
    (∃ hp (w : nat) rn, rtc (λ s1 s2, stable "e" "s" 0 (net s1) ∧ step s1 s2) (initial hp w rn) s) ∧
    ∀ reply, stage r ≠ Answered false reply.
Proof.
  destruct counter_run as (s & r & Hs & Hr & He & _). exists s, r. split; [exact Hr |]. split; [exact He |].
  split; [eauto |]. exact (reliable_calls_succeed _ _ _ s "e" "s" 0 0 r Hs Hr He).
Defined.

End Labrpc.
