(* ===== verification/RpcCall.v ===== *)
(** * Typed calls: [ClientEnd.Call] and [MakeService] of [labrpc/labrpc.go]

    The two ends of an RPC: the client encodes arguments and decodes the
    reply, the service decodes the arguments, calls a method of the object
    and encodes its reply.  The network between them is [Labrpc]; the
    encoding is a parameter with gob's documented round trip. *)

From S2P Require Import Prelude Labrpc.
#[local] Open Scope Z_scope.

Module RpcCall.
Import Labrpc.

(** The encoding of values of a type, as [labgob] uses it: [Encode] gives
    bytes or an error, [Decode] reads bytes into a variable.  Decoding into a
    variable with the zero value gives back what was encoded. *)
Class Codec (A : Type) := {
  zero : A;
  encode : A → option string;
  decode : string → A → option A;
  decode_encode : ∀ a b, encode a = Some b → decode b zero = Some a;
}.

(** ** The service *)

(** A method of the receiver's type, as reflection shows it; [m_call] is
    [method.Func] on encoded arguments. *)
Record RMethod {W : Type} := mkRMethod {
  m_name : string;
  m_pkgPath : string;
  m_numIn : Z;
  m_in2_ptr : bool;
  m_numOut : Z;
  m_call : @Method W;
}.
Arguments RMethod W : clear implicits.
Arguments mkRMethod {W}.

(** [In(2)] is only asked of methods with three inputs. *)
Definition suitable {W : Type} (m : RMethod W) : bool :=
  negb (negb (bool_decide (m_pkgPath m = "")) || negb (bool_decide (m_numIn m = 3)) ||
        negb (m_in2_ptr m) || negb (bool_decide (m_numOut m = 0))).

Definition MakeService {W : Type} (typename : string) (ms : list (RMethod W)) : @Service W :=
  mkService typename
    (foldl (λ mm m, if suitable m then <[m_name m := m_call m]> mm else mm) ∅ ms).

(** [Service.dispatch] on a handler [h]: the arguments are decoded into a
    fresh variable, whose error is ignored, the reply starts as the zero
    value, and an error encoding it is ignored too. *)
Definition handler {W A B : Type} `{Codec A, Codec B} (h : W → A → B → W * B) : @Method W :=
  λ w bytes,
    let a := default zero (decode bytes zero) in
    let '(w', r) := h w a zero in
    (w', default "" (encode r)).

(** ** The client *)

(** [ClientEnd.Call] up to sending the request. *)
Definition Call_send {A : Type} `{Codec A} (e svcMeth : string) (a : A) : GoRes reqMsg :=
  match encode a with
  | None => Abort "panic: encode"
  | Some b => Ret (mkReqMsg e svcMeth b)
  end.

(** The end of [Call]: the answer from the network is read into [reply]. *)
Definition Call_receive {B : Type} `{Codec B} (ok : bool) (bytes : string) (reply : B) : GoRes (bool * B) :=
  if ok then
    match decode bytes reply with
    | None => Abort "ClientEnd.Call(): decode reply"
    | Some r => Ret (true, r)
    end
  else Ret (false, reply).

(** ** Which dispatch a reply comes from *)

Section origin.
Context {W : Type} (hp : gmap nat (@Server W)).

(** Servers keep their services; every executed request was dispatched by
    one of them. *)
Record origins (s : State) : Prop := {
  or_heap : ∀ p rs, heap s !! p = Some rs → ∃ rs0, hp !! p = Some rs0 ∧ services rs = services rs0;
  or_executed : ∀ q reply, (q, reply) ∈ executed s →
    ∃ r p rs0 rs w rs' w', requests s !! q = Some r ∧ hp !! p = Some rs0 ∧ services rs = services rs0 ∧
      Server_dispatch rs (msg r) w = Ret (rs', (w', reply));
}.

Lemma msg_stays (s s' : @State W) q r :
  requests s !! q = Some r → step s s' → ∃ r', requests s' !! q = Some r' ∧ msg r' = msg r.
Proof.
  intros Hq Hs. assert (∀ q' req st d r', requests s !! q' = Some (mkRequest req st d) → msg r' = req →
      ∃ r'', <[q' := r']> (requests s) !! q = Some r'' ∧ msg r'' = msg r) as Hset.
  { intros q' req st d r' Hq' Hm. destruct (decide (q' = q)) as [->|Hne].
    - rewrite Hq in Hq'. simplify_eq. exists r'. split; [| done].
      apply list_lookup_insert_eq. by eapply lookup_lt_Some.
    - rewrite list_lookup_insert_ne by done. eauto. }
  destruct Hs; simpl; eauto. eexists. split; [by apply lookup_app_l_Some | done].
Qed.

Lemma origins_step s s' : origins s → step s s' → origins s'.
Proof.
  intros [Hh He] Hs.
  assert (∀ q reply, (q, reply) ∈ executed s → ∃ r p rs0 rs w rs' w', requests s' !! q = Some r ∧ hp !! p = Some rs0 ∧
      services rs = services rs0 ∧ Server_dispatch rs (msg r) w = Ret (rs', (w', reply))) as Hold.
  { intros q reply Hin. destruct (He q reply Hin) as (r & p & rs0 & rs & w & rs' & w' & Hq & Hp & Hsv & Hd).
    destruct (msg_stays _ _ _ _ Hq Hs) as (r' & Hq' & Hm). exists r', p, rs0, rs, w, rs', w'. by rewrite Hm. }
  destruct Hs as [ | | | | | |s q req st server rs rs' w' reply Hq Hp Hd| | | ]; try (split; simpl in *; assumption).
  destruct (Hh _ _ Hp) as (rs0 & Hp0 & Hsv). split; simpl in *.
  - intros p rs1 [[<- <-]|[_ Hp1]]%lookup_insert_Some; [| by apply Hh]. exists rs0. split; [done |].
    rewrite <- Hsv. unfold Server_dispatch in Hd. unwrap_go. by simplify_eq.
  - intros q' reply' [[= -> ->]|Hin]%elem_of_cons; [| by apply Hold].
    eexists _, server, rs0, rs, (world s), rs', w'. split; [apply list_lookup_insert_eq; by eapply lookup_lt_Some |]. done.
Qed.

Lemma origins_reachable w rn s : rtc step (initial hp w rn) s → origins s.
Proof.
  intros Hs. assert (origins (initial hp w rn)) as H0 by (split; simpl; [eauto | by intros ? ? ?%not_elem_of_nil]).
  induction Hs; eauto using origins_step.
Qed.

End origin.

(** [MakeService] keeps the methods that look like handlers; of several with
    one name the last. *)
Lemma MakeService_method {W : Type} tn (ms : list (RMethod W)) meth m :
  NoDup (m_name <$> ms) → m ∈ ms → m_name m = meth →
  methods (MakeService tn ms) !! meth = if suitable m then Some (m_call m) else None.
Proof.
  intros Hnd Hin <-. unfold MakeService. simpl.
  assert (∀ mm : gmap string (@Method W), mm !! m_name m = None →
    foldl (λ mm m, if suitable m then <[m_name m := m_call m]> mm else mm) mm ms !! m_name m =
      if suitable m then Some (m_call m) else None) as Hf; [| by apply Hf].
  assert (∀ ms' (mm : gmap string (@Method W)), m_name m ∉ m_name <$> ms' →
    foldl (λ mm m, if suitable m then <[m_name m := m_call m]> mm else mm) mm ms' !! m_name m = mm !! m_name m) as Hno.
  { intros ms'. induction ms' as [|x ms' IH]; intros mm Hx; simpl; [done |].
    rewrite fmap_cons, not_elem_of_cons in Hx. destruct Hx as [Hne Hx]. rewrite IH by done.
    destruct (suitable x); [| done]. by rewrite lookup_insert_ne. }
  induction ms as [|x ms IH]; intros mm Hmm; [by apply not_elem_of_nil in Hin |]. simpl.
  rewrite fmap_cons in Hnd. apply NoDup_cons in Hnd as [Hx Hnd]. apply elem_of_cons in Hin as [->|Hin].
  - rewrite Hno by done. destruct (suitable x); [by rewrite lookup_insert_eq | done].
  - apply IH; [done | done |]. destruct (suitable x); [| done].
    rewrite lookup_insert_ne; [done |]. intros Heq. apply Hx. rewrite Heq. by apply list_elem_of_fmap_2.
Qed.

(** A typed RPC.  An object exports a method [h] that looks like a
    handler; services made from it are registered at servers that may also
    have other services.  A client encodes [a] and calls ["Svc.Meth"] over
    the network, which may be reconfigured and lose messages.  If [Call] gets
    an answer, some state of the object was passed to [h] with the very
    argument [a] and a zero reply, and, provided the reply [h] made can be
    encoded, that reply is what [Call] leaves in the client's zero reply
    variable, returning true.  The handler ran only once for it. *)
Theorem typed_rpc {W A B : Type} `{Codec A, Codec B} (h : W → A → B → W * B)
    (hp : gmap nat (@Server W)) (svc meth e : string) (ms : list (RMethod W)) (m : RMethod W)
    (w0 : W) (rn : Network) (s : State) (q : nat) (a : A) (req : reqMsg) (bytes : string) (d : Disp) :
  NoDup (m_name <$> ms) → m ∈ ms → m_name m = meth → suitable m = true → m_call m = handler h → no_dot meth →
  (∀ p rs service, hp !! p = Some rs → services rs !! svc = Some service → service = MakeService svc ms) →
  Call_send e (svc +:+ "." +:+ meth) a = Ret req →
  rtc step (initial hp w0 rn) s → requests s !! q = Some (mkRequest req (Answered true bytes) d) →
  ∃ w w' r, h w a zero = (w', r) ∧ NoDup (executed s).*1 ∧ (q, bytes) ∈ executed s ∧
    (∀ b, encode r = Some b → bytes = b ∧ Call_receive true bytes (zero : B) = Ret (true, r)).
Proof.
  intros Hnd Hin Hname Hsuit Hcall Hdot Hreg Hsend Hs Hq.
  unfold Call_send in Hsend. destruct (encode a) as [ab|] eqn:Hab; [| done]. injection Hsend as <-.
  pose proof (net_inv_rtc _ _ (inv_initial hp w0 rn) Hs) as Hinv.
  destruct (inv_requests _ Hinv _ _ Hq) as [Hd Hex]. simpl in Hd, Hex. rewrite Hd in Hex.
  destruct (or_executed _ _ (origins_reachable hp w0 rn s Hs) _ _ Hex) as (r & p & rs0 & rs & w & rs' & w' & Hq' & Hp & Hsv & Hdisp).
  rewrite Hq in Hq'. simplify_eq/=.
  erewrite dispatch_routes in Hdisp by done. rewrite Hsv in Hdisp.
  destruct (services rs0 !! svc) as [service|] eqn:Hserv; [| done].
  pose proof (MakeService_method svc ms _ m Hnd Hin eq_refl) as Hmeth. rewrite Hsuit, Hcall in Hmeth.
  rewrite <- (Hreg _ _ _ Hp Hserv) in Hmeth.
  unfold Method in Hmeth, Hdisp. rewrite Hmeth in Hdisp.
  injection Hdisp as _ Hh. unfold handler in Hh. simpl in Hh. rewrite (decode_encode a ab Hab) in Hh. simpl in Hh.
  destruct (h w a zero) as [w1 r] eqn:Hr. injection Hh as _ <-. exists w, w1, r.
  split; [done |]. split; [apply Hinv |]. split; [done |].
  intros b Hb. rewrite Hb. simpl. split; [done |]. by rewrite (decode_encode r b Hb).
Qed.

(** *** Witness: a counter whose method adds its argument *)

#[local] Instance string_Codec : Codec string := {|
  zero := "";
  encode a := Some a;
  decode b _ := Some b;
  decode_encode a b H := eq_sym H;
|}.

Definition ex_handler (w : string) (a : string) (reply : string) : string * string := (w +:+ a, w +:+ a).

Definition ex_methods : list (RMethod string) :=
  [mkRMethod "Kill" "" 1 false 0 (λ w _, (w, ""%string)); mkRMethod "Add" "" 3 true 0 (handler ex_handler)].

Definition ex_heap : gmap nat (@Server string) := {[ 0%nat := AddService MakeServer (MakeService "Log" ex_methods) ]}.

Lemma ex_rpc_run :
  ∃ s d, rtc step (initial ex_heap "x" counter_net) s ∧
    requests s !! 0%nat = Some (mkRequest (mkReqMsg "e" "Log.Add" "y") (Answered true "xy") d).
Proof.
  eexists _, _. split.
  - eapply rtc_l; [apply (send _ (mkReqMsg "e" "Log.Add" "y")) |].
    eapply rtc_l; [eapply (choose _ 0); [reflexivity | vm_compute; reflexivity] |].
    eapply rtc_l; [eapply (start_dispatch _ 0); reflexivity |].
    eapply rtc_l; [eapply (run_handler _ 0); [reflexivity | reflexivity | vm_compute; reflexivity] |].
    eapply rtc_l; [eapply (handler_returns _ 0); reflexivity |].
    eapply rtc_l; [eapply (finish _ 0 _ _ _ false); [reflexivity | vm_compute; reflexivity] |].
    apply rtc_refl.
  - reflexivity.
Qed.

Lemma typed_rpc_witness :
  ∃ w w' r, ex_handler w "y" "" = (w', r) ∧ Call_receive true "xy" "" = Ret (true, r).
Proof.
  destruct ex_rpc_run as (s & d & Hs & Hq).
  destruct (typed_rpc ex_handler ex_heap "Log" "Add" "e" ex_methods
              (mkRMethod "Add" "" 3 true 0 (handler ex_handler)) "x" counter_net s 0 "y"
              (mkReqMsg "e" "Log.Add" "y") "xy" d) as (w & w' & r & Hh & _ & _ & Hr).
  - simpl. apply NoDup_cons. split; [set_solver | apply NoDup_singleton].
  - unfold ex_methods. right. left.
  - reflexivity.
  - vm_compute. reflexivity.
  - reflexivity.
  - vm_compute. repeat split; discriminate.
  - intros p rs service Hp Hsv. unfold ex_heap in Hp. apply lookup_singleton_Some in Hp as [<- <-]. vm_compute in Hsv. injection Hsv as <-. reflexivity.
  - reflexivity.
  - exact Hs.
  - exact Hq.
  - exists w, w', r. split; [exact Hh |]. exact (proj2 (Hr r eq_refl)).
Defined.

End RpcCall.
