(* ===== verification/KVNet.v ===== *)
(** * Clerks over the simulated network

    [ClerkProg] and [KVLock] run clients of the key/value server over an
    abstract transport: an attempt of a call is dropped, loses its reply, is
    abandoned and runs late, or is answered.  Here the clients' calls go
    through [ClientEnd.Call] and the network of [Labrpc] to the server
    object: arguments and replies are encoded, the network goroutine takes
    requests until the network is cleaned up, handlers run in goroutines of
    their own, and the network may be reconfigured at any time.  Shown: this
    system refines the abstract one, so that what was proved of clerks, locks
    and tests there holds over the network as it is written. *)

From S2P Require Import Prelude KVServer KVClerk ClerkProg KVLock Labrpc RpcCall.
#[local] Open Scope Z_scope.

Module KVNet.
Import KVClerk.

Lemma nsteps_subrel {A : Type} (R R' : A → A → Prop) n x y :
  (∀ x y, R x y → R' x y) → nsteps R n x y → nsteps R' n x y.
Proof. intros Hsub Hn. induction Hn; econstructor; eauto. Qed.

(** ** Clients that make clerk calls *)

Inductive Call : Type :=
| CGet (a : GetArgs)
| CPut (a : PutArgs).

(** A client's local state [C]: the call of the clerk it is in, how it goes
    on when the call's RPC is answered or fails ([Get] tries again as it was;
    [Put] clears [firstAttempt]), and the steps it takes between calls. *)
Record Clients (C : Type) := mkClients {
  call : C → option Call;
  got_reply : C → GetReply → C;
  put_reply : C → PutReply → C;
  put_failed : C → C;
  local : nat → C → C → Prop
}.
Arguments call {C} _ _.
Arguments got_reply {C} _ _ _.
Arguments put_reply {C} _ _ _.
Arguments put_failed {C} _ _.
Arguments local {C} _ _ _ _.

(** *** The abstract transport *)

Section abstract.
Context {S C : Type} `{VStore S} (M : Clients C).

(** [atrace] is history: the local steps so far. *)
Record AState := mkAState {
  aserver : S;
  alate : list (nat * PutArgs);
  aclient : nat → C;
  atrace : list (nat * C * C)
}.

Inductive astep : AState → AState → Prop :=
| a_local s c x : local M c (aclient s c) x → astep s (mkAState (aserver s) (alate s) (<[c := x]> (aclient s))
      (atrace s ++ [(c, aclient s c, x)]))
| a_got s c a :
    call M (aclient s c) = Some (CGet a) →
    astep s (mkAState (aserver s) (alate s)
      (<[c := got_reply M (aclient s c) (vs_Get (aserver s) a GetReply_zero)]> (aclient s)) (atrace s))
| a_dropped s c a :
    call M (aclient s c) = Some (CPut a) →
    astep s (mkAState (aserver s) (alate s) (<[c := put_failed M (aclient s c)]> (aclient s)) (atrace s))
| a_abandoned s c a :
    call M (aclient s c) = Some (CPut a) →
    astep s (mkAState (aserver s) ((c, a) :: alate s) (<[c := put_failed M (aclient s c)]> (aclient s)) (atrace s))
| a_reply_lost s c a :
    call M (aclient s c) = Some (CPut a) →
    astep s (mkAState (vs_Put (aserver s) a PutReply_zero).1 (alate s) (<[c := put_failed M (aclient s c)]> (aclient s)) (atrace s))
| a_replied s c a :
    call M (aclient s c) = Some (CPut a) →
    let r := vs_Put (aserver s) a PutReply_zero in
    astep s (mkAState r.1 (alate s) (<[c := put_reply M (aclient s c) r.2]> (aclient s)) (atrace s))
| a_late s z1 c a z2 :
    alate s = z1 ++ (c, a) :: z2 →
    astep s (mkAState (vs_Put (aserver s) a PutReply_zero).1 (z1 ++ z2) (aclient s) (atrace s)).

End abstract.
Arguments AState S C : clear implicits.

(** ** The clients over the network *)

Import RpcCall Labrpc.

(** What the network needs of [gob] on the argument and reply structs:
    replies start as Go's zero values, and every reply can be encoded. *)
Class WireCodec := {
  wire_GetArgs :: Codec GetArgs;
  wire_GetReply :: Codec GetReply;
  wire_PutArgs :: Codec PutArgs;
  wire_PutReply :: Codec PutReply;
  zero_get : (zero : GetReply) = GetReply_zero;
  zero_put : (zero : PutReply) = PutReply_zero;
  enc_get : ∀ r : GetReply, is_Some (encode r);
  enc_put : ∀ r : PutReply, is_Some (encode r);
}.

Section net.
Context {S C : Type} `{VStore S}.
Context `{WireCodec}.
Context (M : Clients C).

(** The methods of [*KVServer] as [MakeService] sees them; [Kill] does not
    look like a handler. *)
Definition kv_methods : list (RMethod S) :=
  [ mkRMethod "Get" "" 3 true 0 (handler (λ (w : S) a r, (w, vs_Get w a r)));
    mkRMethod "Kill" "" 1 false 0 (λ w _, (w, ""));
    mkRMethod "Put" "" 3 true 0 (handler (λ (w : S) a r, vs_Put w a r)) ].

(** The one server of the lab, with the service [StartKVServer] returns. *)
Definition kv_heap : gmap nat (@Server S) := {[ 0%nat := AddService MakeServer (MakeService "KVServer" kv_methods) ]}.

(** [clnt.Call(ck.server, "KVServer.Get", &args, &reply)] over the end [e]
    the client has for the server. *)
Definition request (e : string) (cl : Call) : GoRes reqMsg :=
  match cl with
  | CGet a => Call_send e "KVServer.Get" a
  | CPut a => Call_send e "KVServer.Put" a
  end.

(** The clerk's loop after a [Call] that was answered with [ok] and
    [bytes]; a reply that cannot be decoded stops the process. *)
Definition answer_call (x : C) (cl : Call) (ok : bool) (bytes : string) : GoRes C :=
  match cl with
  | CGet _ =>
      (let* r := Call_receive ok bytes (zero : GetReply) in
       Ret (if r.1 then got_reply M x r.2 else x))%go
  | CPut _ =>
      (let* r := Call_receive ok bytes (zero : PutReply) in
       Ret (if r.1 then put_reply M x r.2 else put_failed M x))%go
  end.

(** [serving]: the goroutine started by [MakeNetwork] has not returned;
    [closed]: [Cleanup] has closed [rn.done].  [waiting]: the request a client
    is blocked on in [<-req.replyCh].  [calls], [received] and [trace] are
    history: whose call each request is, the requests a client received a
    reply for, and the clients' local steps. *)
Record NState := mkNState {
  lab : @Labrpc.State S;
  serving : bool;
  closed : bool;
  client : nat → C;
  waiting : nat → option nat;
  calls : list (nat * Call);
  received : list nat;
  trace : list (nat * C * C)
}.

(** The network goroutine takes a request from [rn.endCh], counts it and
    starts [processReq]. *)
Definition enqueue (l : @Labrpc.State S) (req : reqMsg) : @Labrpc.State S :=
  Labrpc.mkState (count_request (net l) (Z.of_nat (String.length (args req)))) (heap l) (world l)
    (requests l ++ [mkRequest req Sent NoDisp]) (executed l).

Definition set_lab (s : NState) (l : @Labrpc.State S) : NState :=
  mkNState l (serving s) (closed s) (client s) (waiting s) (calls s) (received s) (trace s).

Inductive nstep : NState → NState → Prop :=
| n_net s l :
    (* the network, its requests and handlers *)
    Labrpc.step (lab s) l → length (requests l) = length (requests (lab s)) →
    nstep s (set_lab s l)
| n_cleanup s :
    (* a second close panics *)
    closed s = false →
    nstep s (mkNState (lab s) (serving s) true (client s) (waiting s) (calls s) (received s) (trace s))
| n_goroutine_returns s :
    closed s = true → serving s = true →
    nstep s (mkNState (lab s) false (closed s) (client s) (waiting s) (calls s) (received s) (trace s))
| n_send s c cl e req :
    waiting s c = None → call M (client s c) = Some cl → request e cl = Ret req → serving s = true →
    nstep s (mkNState (enqueue (lab s) req) (serving s) (closed s) (client s) (<[c := Some (length (requests (lab s)))]> (waiting s))
               (calls s ++ [(c, cl)]) (received s) (trace s))
| n_destroyed s c cl :
    (* [case <-e.done] *)
    waiting s c = None → call M (client s c) = Some cl → closed s = true →
    nstep s (mkNState (lab s) (serving s) (closed s)
               (<[c := match cl with CGet _ => client s c | CPut _ => put_failed M (client s c) end]> (client s))
               (waiting s) (calls s) (received s) (trace s))
| n_receive s c q cl req ok bytes d x :
    waiting s c = Some q → call M (client s c) = Some cl →
    requests (lab s) !! q = Some (mkRequest req (Answered ok bytes) d) →
    answer_call (client s c) cl ok bytes = Ret x →
    nstep s (mkNState (lab s) (serving s) (closed s) (<[c := x]> (client s)) (<[c := None]> (waiting s)) (calls s)
               (if ok then q :: received s else received s) (trace s))
| n_local s c x :
    waiting s c = None → local M c (client s c) x →
    nstep s (mkNState (lab s) (serving s) (closed s) (<[c := x]> (client s)) (waiting s) (calls s) (received s)
               (trace s ++ [(c, client s c, x)])).

Definition ninit (w : S) (rn : Network) (cl : nat → C) : NState :=
  mkNState (Labrpc.initial kv_heap w rn) true false cl (λ _, None) [] [] [].

(** ** The invariant of the system *)

Record ninv (s : NState) : Prop := {
  ni_lab : Labrpc.inv (lab s);
  ni_heap : ∀ p rs, heap (lab s) !! p = Some rs → services rs = <["KVServer" := MakeService "KVServer" kv_methods]> ∅;
  ni_length : length (calls s) = length (requests (lab s));
  ni_msg : ∀ q c cl r, calls s !! q = Some (c, cl) → requests (lab s) !! q = Some r → ∃ e, request e cl = Ret (msg r);
  ni_wait : ∀ c q, waiting s c = Some q → ∃ cl, calls s !! q = Some (c, cl) ∧ call M (client s c) = Some cl;
  ni_answered : ∀ q c cl r, calls s !! q = Some (c, cl) → requests (lab s) !! q = Some r → waiting s c ≠ Some q →
    ∃ ok b, stage r = Answered ok b;
  ni_received : ∀ q, q ∈ received s → ∃ c cl, calls s !! q = Some (c, cl) ∧ waiting s c ≠ Some q;
}.

(** What running the handler of a call does to the server, and what its
    reply makes of the client. *)
Definition handled (w : S) (cl : Call) : S :=
  match cl with CGet _ => w | CPut a => (vs_Put w a PutReply_zero).1 end.
Definition replied (w : S) (cl : Call) (x : C) : C :=
  match cl with
  | CGet a => got_reply M x (vs_Get w a GetReply_zero)
  | CPut a => put_reply M x (vs_Put w a PutReply_zero).2
  end.
Definition failed (cl : Call) (x : C) : C := match cl with CGet _ => x | CPut _ => put_failed M x end.

Lemma answer_failed x cl bytes : answer_call x cl false bytes = Ret (failed cl x).
Proof. by destruct cl. Qed.

Lemma kv_method meth m : m ∈ kv_methods → m_name m = meth → suitable m = true →
  methods (MakeService "KVServer" kv_methods) !! meth = Some (m_call m).
Proof.
  intros Hin Hn Hs. rewrite (MakeService_method "KVServer" kv_methods meth m); [by rewrite Hs | | done | done].
  simpl. repeat (apply NoDup_cons; split; [set_solver |]). apply NoDup_nil_2.
Qed.

(** The reply as it travels. *)
Definition wire_reply (w : S) (cl : Call) : string :=
  match cl with
  | CGet a => default "" (encode (vs_Get w a GetReply_zero))
  | CPut a => default "" (encode (vs_Put w a PutReply_zero).2)
  end.

Lemma answer_wire x w cl : answer_call x cl true (wire_reply w cl) = Ret (replied w cl x).
Proof.
  destruct cl as [a|a]; simpl.
  - destruct (enc_get (vs_Get w a GetReply_zero)) as [b Hb]. rewrite Hb. simpl. by rewrite (decode_encode _ b Hb).
  - destruct (enc_put (vs_Put w a PutReply_zero).2) as [b Hb]. rewrite Hb. simpl. by rewrite (decode_encode _ b Hb).
Qed.

(** A request is dispatched to the handler the client called. *)
Lemma dispatch_kv rs req w e cl :
  services rs = <["KVServer" := MakeService "KVServer" kv_methods]> ∅ → request e cl = Ret req →
  Server_dispatch rs req w =
    Ret (mkServer (services rs) (int64 (rs_count rs + 1)), (handled w cl, wire_reply w cl)).
Proof.
  intros Hs Hreq. destruct cl as [a|a]; simpl in Hreq; unfold Call_send in Hreq;
    destruct (encode a) as [b|] eqn:Hb; simplify_eq.
  - rewrite (dispatch_routes rs _ w "KVServer" "Get") by (done || (vm_compute; repeat split; discriminate)).
    rewrite Hs, lookup_insert_eq. erewrite kv_method; [| by left | done | done].
    simpl. unfold handler. rewrite (decode_encode a b Hb). simpl. by rewrite zero_get.
  - rewrite (dispatch_routes rs _ w "KVServer" "Put") by (done || (vm_compute; repeat split; discriminate)).
    rewrite Hs, lookup_insert_eq. erewrite kv_method; [| by right; right; left | done | done].
    simpl. unfold handler. rewrite (decode_encode a b Hb). simpl. rewrite zero_put. by destruct (vs_Put w a PutReply_zero).
Qed.

(** *** Steps of the network *)

(** How a request changes in a step that runs no handler. *)
Definition quiet_change (r r' : Request) : Prop :=
  msg r' = msg r ∧
  (disp r' = disp r ∨ (disp r = NoDisp ∧ (∃ p, disp r' = Pending p) ∧ ∀ ok b, stage r ≠ Answered ok b)) ∧
  ∀ ok b, stage r = Answered ok b → stage r' = stage r.

Lemma quiet_same r : quiet_change r r.
Proof. split_and!; auto. Qed.

Lemma net_step_cases (l l' : @Labrpc.State S) :
  Labrpc.inv l → Labrpc.step l l' → length (requests l') = length (requests l) →
  (world l' = world l ∧ heap l' = heap l ∧
     ∀ q r, requests l !! q = Some r → ∃ r', requests l' !! q = Some r' ∧ quiet_change r r') ∨
  (∃ q req st p rs rs' w' reply, requests l !! q = Some (mkRequest req st (Pending p)) ∧ heap l !! p = Some rs ∧
     Server_dispatch rs req (world l) = Ret (rs', (w', reply)) ∧
     l' = Labrpc.mkState (net l) (<[p := rs']> (heap l)) w' (<[q := mkRequest req st (Ran reply)]> (requests l))
            ((q, reply) :: executed l)).
Proof.
  intros Hi Hs Hlen.
  assert (∀ q r0 r1, requests l !! q = Some r0 → quiet_change r0 r1 →
    ∀ q' r, requests l !! q' = Some r → ∃ r', <[q := r1]> (requests l) !! q' = Some r' ∧ quiet_change r r') as Hset.
  { intros q r0 r1 Hq Hc q' r Hr. destruct (decide (q = q')) as [<-|Hne].
    - simplify_eq. exists r1. split; [| done]. apply list_lookup_insert_eq. by eapply lookup_lt_Some.
    - exists r. rewrite list_lookup_insert_ne by done. split; [done | apply quiet_same]. }
  destruct Hs as [s rn|s req|s q req d sn server rel lr Hq Hinf|s q req d en sn server rel lr Hq Hinf Hno
    |s q req d sn server lr Hq|s q req d sn server rel lr Hq|s q req st server rs rs' w' reply Hq Hh Hd
    |s q req sn server rel lr reply Hq|s q req d sn server rel lr Hq Hdead|s q req d st drop st' Hq Ha];
    [left | exfalso | left .. | right | left | left | left]; simpl in *.
  - split; [done |]. split; [done |]. intros q r Hr. exists r. split; [done | apply quiet_same].
  - rewrite length_app in Hlen. simpl in Hlen. lia.
  - split; [done |]. split; [done |]. eapply Hset; [done |]. by split_and!; [| left |].
  - split; [done |]. split; [done |]. eapply Hset; [done |]. by split_and!; [| left |].
  - split; [done |]. split; [done |]. eapply Hset; [done |]. by split_and!; [| left |].
  - split; [done |]. split; [done |]. eapply Hset; [done |].
    destruct (inv_requests _ Hi _ _ Hq) as [Hnd _]. simpl in Hnd. split_and!; [done | | done].
    right. simpl. split_and!; [done | by eexists | done].
  - by eexists _, _, _, _, _, _, _, _.
  - split; [done |]. split; [done |]. eapply Hset; [done |]. by split_and!; [| left |].
  - split; [done |]. split; [done |]. eapply Hset; [done |]. by split_and!; [| left |].
  - split; [done |]. split; [done |]. eapply Hset; [done |]. split_and!; [done | by left |].
    simpl. intros ok b ->. done.
Qed.

Lemma ninv_init w rn cl : ninv (ninit w rn cl).
Proof.
  split; simpl; try done; try (by intros ? ?%not_elem_of_nil).
  - apply inv_initial.
  - intros p rs. unfold kv_heap. intros [<- <-]%lookup_singleton_Some. done.
Qed.

Lemma ninv_net s l : ninv s → Labrpc.step (lab s) l → length (requests l) = length (requests (lab s)) → ninv (set_lab s l).
Proof.
  intros [Hl Hh Hlen Hm Hw Ha Hr] Hs Hle. pose proof (net_inv_step _ _ Hl Hs) as Hl'.
  assert (∀ q r', requests l !! q = Some r' → ∃ r, requests (lab s) !! q = Some r ∧ msg r' = msg r ∧
    ∀ ok b, stage r = Answered ok b → stage r' = stage r) as Hback.
  { intros q r' Hq'. destruct (lookup_lt_is_Some_2 (requests (lab s)) q) as [r Hq]; [rewrite <- Hle; by eapply lookup_lt_Some |].
    exists r. split; [done |]. destruct (net_step_cases _ _ Hl Hs Hle) as [(_ & _ & Hc)|(k & req & st & p & rs & rs' & w' & b & Hk & _ & _ & ->)].
    - destruct (Hc q r Hq) as (r1 & Hq1 & Hch). simplify_eq. split; apply Hch.
    - simpl in Hq'. apply list_lookup_insert_Some in Hq' as [(<- & <- & _)|[_ Hq']]; simplify_eq; done. }
  split; simpl; try done.
  - destruct (net_step_cases _ _ Hl Hs Hle) as [(_ & -> & _)|(k & req & st & p & rs & rs' & w' & b & Hk & Hp & Hd & ->)]; [done |].
    intros p' rs1. simpl. intros [[<- <-]|[_ Hp']]%lookup_insert_Some; [| by eapply Hh]. rewrite <- (Hh _ _ Hp).
    unfold Server_dispatch in Hd. unwrap_go. by simplify_eq.
  - by rewrite Hle.
  - intros q c cl r' Hc (r & Hq & -> & _)%Hback. by eapply Hm.
  - intros q c cl r' Hc (r & Hq & _ & Hst)%Hback Hne. destruct (Ha q c cl r Hc Hq Hne) as (ok & b & E).
    exists ok, b. rewrite <- E. by eapply Hst.
Qed.

Lemma ninv_send s c cl e req :
  ninv s → waiting s c = None → call M (client s c) = Some cl → request e cl = Ret req →
  ninv (mkNState (enqueue (lab s) req) (serving s) (closed s) (client s)
          (<[c := Some (length (requests (lab s)))]> (waiting s)) (calls s ++ [(c, cl)]) (received s) (trace s)).
Proof.
  intros [Hl Hh Hlen Hm Hwt Ha Hr] Hw Hc Hreq.
  assert (∀ q x, calls s !! q = Some x → (q < length (requests (lab s)))%nat) as Hlt.
  { intros q x ?%lookup_lt_Some. lia. }
  split; simpl; [by eapply (net_inv_step (lab s)), send | done | rewrite !length_app; simpl; lia | ..].
  - intros q c' cl' r [Hq|[Hge Hq]]%lookup_app_Some Hr'.
    + apply (Hm q c' cl' r Hq). rewrite lookup_app_l in Hr'; [done | by eapply Hlt].
    + apply list_lookup_singleton_Some in Hq as [Hz [= <- <-]].
      rewrite lookup_app_r in Hr' by lia. apply list_lookup_singleton_Some in Hr' as [_ <-]. by exists e.
  - intros c' q. destruct (decide (c = c')) as [<-|Hne]; [rewrite fn_lookup_insert | rewrite fn_lookup_insert_ne by done].
    + intros [= <-]. exists cl. split; [| done]. rewrite lookup_app_r by lia. by rewrite Hlen, Nat.sub_diag.
    + intros (cl' & Hq & Hcl)%Hwt. exists cl'. split; [by apply lookup_app_l_Some | done].
  - intros q c' cl' r [Hq|[Hge Hq]]%lookup_app_Some Hr' Hne.
    + rewrite lookup_app_l in Hr' by (by eapply Hlt). apply (Ha q c' cl' r Hq Hr').
      destruct (decide (c = c')) as [<-|Hd]; [by rewrite Hw | by rewrite fn_lookup_insert_ne in Hne].
    + apply list_lookup_singleton_Some in Hq as [Hz [= <- <-]]. rewrite fn_lookup_insert in Hne.
      exfalso. apply Hne. f_equal. lia.
  - intros q (c' & cl' & Hq & Hne)%Hr. exists c', cl'. split; [by apply lookup_app_l_Some |].
    destruct (decide (c = c')) as [<-|Hd]; [| by rewrite fn_lookup_insert_ne]. rewrite fn_lookup_insert.
    intros [= E]. apply Hlt in Hq. lia.
Qed.

Lemma ninv_receive s c q cl req ok b d x :
  ninv s → waiting s c = Some q → call M (client s c) = Some cl →
  requests (lab s) !! q = Some (mkRequest req (Answered ok b) d) →
  ninv (mkNState (lab s) (serving s) (closed s) (<[c := x]> (client s)) (<[c := None]> (waiting s)) (calls s)
          (if ok then q :: received s else received s) (trace s)).
Proof.
  intros [Hl Hh Hlen Hm Hwt Ha Hr] Hw Hc Hq. split; simpl; try done.
  - intros c' q'. destruct (decide (c = c')) as [<-|Hne]; [by rewrite fn_lookup_insert |].
    rewrite !fn_lookup_insert_ne by done. apply Hwt.
  - intros q' c' cl' r Hq' Hr' Hne. destruct (decide (q = q')) as [<-|Hd]; [simplify_eq; by eexists _, _ |].
    apply (Ha q' c' cl' r Hq' Hr'). destruct (decide (c = c')) as [<-|Hc']; [congruence | by rewrite fn_lookup_insert_ne in Hne].
  - intros q' Hq'. destruct (Hwt _ _ Hw) as (cl0 & Hcq & _).
    assert (q' = q ∨ q' ∈ received s) as [->|Hin] by (destruct ok; set_solver).
    + exists c, cl0. split; [done |]. by rewrite fn_lookup_insert.
    + destruct (Hr q' Hin) as (c' & cl' & Hq0 & Hne). exists c', cl'. split; [done |].
      destruct (decide (c = c')) as [<-|Hc']; [by rewrite fn_lookup_insert | by rewrite fn_lookup_insert_ne].
Qed.

(** A client that is not in an RPC changes. *)
Lemma ninv_local s c x t :
  ninv s → waiting s c = None →
  ninv (mkNState (lab s) (serving s) (closed s) (<[c := x]> (client s)) (waiting s) (calls s) (received s) t).
Proof.
  intros [Hl Hh Hlen Hm Hwt Ha Hr] Hw. split; simpl; try done.
  intros c' q Hw'. destruct (decide (c = c')) as [<-|Hne]; [congruence | rewrite fn_lookup_insert_ne by done; by apply Hwt].
Qed.

Lemma ninv_step s s' : ninv s → nstep s s' → ninv s'.
Proof.
  intros Hi Hs. destruct Hs; [by apply ninv_net | by destruct Hi | by destruct Hi | by eapply ninv_send
    | by apply ninv_local | by eapply ninv_receive | by apply ninv_local].
Qed.

Lemma ninv_steps s s' : ninv s → rtc nstep s s' → ninv s'.
Proof. intros Hi Hs. induction Hs; eauto using ninv_step. Qed.

(** *** Which requests are received *)

Lemma received_step s s' q : nstep s s' → q ∈ received s → q ∈ received s'.
Proof. destruct 1; simpl; auto. destruct ok; set_solver. Qed.

Lemma received_steps s s' q : rtc nstep s s' → q ∈ received s → q ∈ received s'.
Proof. induction 1; eauto using received_step. Qed.

(** A request nobody waits for any more is never received. *)
Lemma abandoned_step s s' q c cl :
  nstep s s' → ninv s → calls s !! q = Some (c, cl) → waiting s c ≠ Some q → q ∉ received s →
  calls s' !! q = Some (c, cl) ∧ waiting s' c ≠ Some q ∧ q ∉ received s'.
Proof.
  intros Hs Hi Hq Hw Hr. destruct Hs as [s l Hs Hl|s|s|s c' cl' e req Hw' Hc Hreq Hsv|s c' cl' Hw' Hc Hcl|s c' q' cl' req ok b d x Hw' Hc Hq' Hx|s c' x Hw' Hx]; simpl; auto.
  - split; [by apply lookup_app_l_Some |]. split; [| done].
    destruct (decide (c' = c)) as [->|Hne]; [| by rewrite fn_lookup_insert_ne]. rewrite fn_lookup_insert.
    intros [= E]. apply lookup_lt_Some in Hq. pose proof (ni_length _ Hi). lia.
  - split; [done |]. split; [destruct (decide (c' = c)) as [->|Hne]; [by rewrite fn_lookup_insert | by rewrite fn_lookup_insert_ne] |].
    destruct ok; [| done]. apply not_elem_of_cons. split; [| done]. intros ->.
    destruct (ni_wait _ Hi _ _ Hw') as (cl0 & Hq0 & _). simplify_eq.
Qed.

Lemma abandoned_steps s s' q c cl :
  rtc nstep s s' → ninv s → calls s !! q = Some (c, cl) → waiting s c ≠ Some q → q ∉ received s → q ∉ received s'.
Proof.
  intros Hs. induction Hs as [|s s1 s2 Hs _ IH]; [done |]. intros Hi Hq Hw Hr.
  destruct (abandoned_step s s1 q c cl) as (? & ? & ?); eauto using ninv_step.
Qed.

(** ** The simulation

    [R] is the set of requests whose replies will be received.  A handler
    that runs for such a request is the abstract client's answer; for others
    it is a reply that gets lost, or a request that runs late. *)

Definition view (R : list nat) (s : NState) (c : nat) : C :=
  match waiting s c with
  | None => client s c
  | Some q =>
      match calls s !! q, requests (lab s) !! q with
      | Some (_, cl), Some (mkRequest _ _ (Ran bytes)) =>
          if decide (q ∈ R) then
            match answer_call (client s c) cl true bytes with Ret x => x | Abort _ => client s c end
          else failed cl (client s c)
      | _, _ => client s c
      end
  end.

Definition late_at (s : NState) (q : nat) : option (nat * PutArgs) :=
  match calls s !! q, requests (lab s) !! q with
  | Some (c, CPut a), Some (mkRequest _ _ (Pending _)) => if decide (waiting s c = Some q) then None else Some (c, a)
  | _, _ => None
  end.

Definition late_list (s : NState) : list (nat * PutArgs) := omap (late_at s) (seq 0 (length (calls s))).

Record sim (R : list nat) (s : NState) (a : AState S C) : Prop := {
  sim_ninv : ninv s;
  sim_server : aserver a = world (lab s);
  sim_client : ∀ c, aclient a c = view R s c;
  sim_late : alate a ≡ₚ late_list s;
  sim_trace : atrace a = trace s;
}.

Lemma late_list_ext s s' :
  length (calls s') = length (calls s) → (∀ q, late_at s' q = late_at s q) → late_list s' = late_list s.
Proof. intros Hl Hq. unfold late_list. rewrite Hl. by apply list_omap_ext, Forall_Forall2_diag, Forall_true. Qed.

Lemma omap_flip {A : Type} (f g : nat → option A) l q x :
  NoDup l → q ∈ l → (∀ k, k ≠ q → f k = g k) → g q = None → f q = Some x → omap f l ≡ₚ x :: omap g l.
Proof.
  intros Hnd Hin Hne Hg Hf. induction Hnd as [|k l Hk Hnd IH]; [by apply not_elem_of_nil in Hin |]. simpl.
  destruct (decide (k = q)) as [->|Hkq].
  - rewrite Hf, Hg. f_equiv. apply reflexive_eq, list_omap_ext, Forall_Forall2_diag, Forall_forall.
    intros k' Hk'. apply Hne. by intros ->.
  - rewrite (Hne k) by done. apply elem_of_cons in Hin as [->|Hin]; [done |].
    destruct (g k) as [y|]; [| by apply IH]. rewrite IH by done. by rewrite Permutation_swap.
Qed.

Lemma late_list_flip s s' q x :
  length (calls s') = length (calls s) → (q < length (calls s))%nat → (∀ k, k ≠ q → late_at s k = late_at s' k) →
  late_at s' q = None → late_at s q = Some x → late_list s ≡ₚ x :: late_list s'.
Proof.
  intros Hl Hq Hne Hn1 Hs1. unfold late_list. rewrite Hl. apply (omap_flip _ _ _ q); [apply NoDup_seq | | done..].
  apply elem_of_seq. lia.
Qed.

(** At most one abstract step. *)
Definition astep01 (a a' : AState S C) : Prop := a' = a ∨ astep M a a'.

(** An abstract client is answered, or its answer lost. *)
Lemma astep_replied (a : AState S C) c cl :
  call M (aclient a c) = Some cl →
  astep M a (mkAState (handled (aserver a) cl) (alate a) (<[c := replied (aserver a) cl (aclient a c)]> (aclient a)) (atrace a)).
Proof. intros Hc. destruct cl as [g|p]; [by apply a_got | by apply a_replied]. Qed.

Lemma astep_lost (a : AState S C) c cl :
  call M (aclient a c) = Some cl → ∃ a', astep01 a a' ∧ aserver a' = handled (aserver a) cl ∧ alate a' = alate a ∧
    atrace a' = atrace a ∧ ∀ c', aclient a' c' = <[c := failed cl (aclient a c)]> (aclient a) c'.
Proof.
  intros Hc. destruct cl as [g|p].
  - exists a. split_and!; [by left | done | done | done |]. intros c'. simpl.
    destruct (decide (c = c')) as [<-|Hne]; [by rewrite fn_lookup_insert | by rewrite fn_lookup_insert_ne].
  - eexists. split; [right; by eapply a_reply_lost |]. done.
Qed.

Lemma astep_dropped (a : AState S C) c cl :
  call M (aclient a c) = Some cl → ∃ a', astep01 a a' ∧ aserver a' = aserver a ∧ alate a' = alate a ∧
    atrace a' = atrace a ∧ ∀ c', aclient a' c' = <[c := failed cl (aclient a c)]> (aclient a) c'.
Proof.
  intros Hc. destruct cl as [g|p].
  - exists a. split_and!; [by left | done | done | done |]. intros c'. simpl.
    destruct (decide (c = c')) as [<-|Hne]; [by rewrite fn_lookup_insert | by rewrite fn_lookup_insert_ne].
  - eexists. split; [right; by eapply a_dropped |]. done.
Qed.

(** A step of the network that runs no handler is invisible. *)
Lemma sim_quiet R s a l :
  sim R s a → Labrpc.step (lab s) l → length (requests l) = length (requests (lab s)) → world l = world (lab s) →
  (∀ q r, requests (lab s) !! q = Some r → ∃ r', requests l !! q = Some r' ∧ quiet_change r r') →
  sim R (set_lab s l) a.
Proof.
  intros [Hi Hsv Hcl Hlt Htr] Hs Hlen Hw Hch. split; [by apply ninv_net | by simpl; rewrite Hw | | | done].
  - intros c. rewrite Hcl. unfold view. simpl. destruct (waiting s c) as [q|] eqn:Hwt; [| done].
    destruct (ni_wait _ Hi _ _ Hwt) as (cl & Hq & _). rewrite Hq.
    destruct (lookup_lt_is_Some_2 (requests (lab s)) q) as [r Hr].
    { rewrite <- (ni_length _ Hi). by eapply lookup_lt_Some. }
    destruct (Hch q r Hr) as (r' & Hr' & _ & Hd & _). rewrite Hr, Hr'. destruct r as [m st d], r' as [m' st' d']. simpl in Hd.
    destruct Hd as [->|(-> & [p ->] & _)]; done.
  - rewrite Hlt. apply reflexive_eq. symmetry. apply late_list_ext; [done |]. intros q. unfold late_at. simpl.
    destruct (calls s !! q) as [[c [g|p]]|] eqn:Hq; [done | | done].
    destruct (lookup_lt_is_Some_2 (requests (lab s)) q) as [r Hr].
    { rewrite <- (ni_length _ Hi). by eapply lookup_lt_Some. }
    destruct (Hch q r Hr) as (r' & Hr' & _ & Hd & _). rewrite Hr, Hr'. destruct r as [m st d], r' as [m' st' d']. simpl in Hd.
    destruct Hd as [->|(-> & [p' ->] & Hna)]; [done |]. simpl in Hna.
    destruct (decide (waiting s c = Some q)) as [_|Hne]; [done |].
    destruct (ni_answered _ Hi q c (CPut p) _ Hq Hr Hne) as (ok & b & E). by destruct (Hna ok b).
Qed.

(** *** A handler runs *)

(** Handler [q], of client [c]'s call [cl], runs on the server [w] and the
    network goes on as [l]. *)
Record runs (s : NState) (l : @Labrpc.State S) (q c : nat) (cl : Call) (reply : string) : Prop := {
  ru_calls : calls s !! q = Some (c, cl);
  ru_inv : ninv (set_lab s l);
  ru_before : ∃ req st p, requests (lab s) !! q = Some (mkRequest req st (Pending p));
  ru_after : ∃ req st, requests l !! q = Some (mkRequest req st (Ran reply));
  ru_other : ∀ k, k ≠ q → requests l !! k = requests (lab s) !! k;
  ru_world : world l = handled (world (lab s)) cl;
  ru_answer : answer_call (client s c) cl true reply = Ret (replied (world (lab s)) cl (client s c));
}.

Lemma run_handler_runs s l q req st p rs rs' w' reply :
  ninv s → Labrpc.step (lab s) l →
  requests (lab s) !! q = Some (mkRequest req st (Pending p)) → heap (lab s) !! p = Some rs →
  Server_dispatch rs req (world (lab s)) = Ret (rs', (w', reply)) →
  l = Labrpc.mkState (net (lab s)) (<[p := rs']> (heap (lab s))) w' (<[q := mkRequest req st (Ran reply)]> (requests (lab s)))
        ((q, reply) :: executed (lab s)) →
  ∃ c cl, runs s l q c cl reply.
Proof.
  intros Hi Hs Hq Hp Hd ->. assert (q < length (requests (lab s)))%nat as Hqlt by (by eapply lookup_lt_Some).
  destruct (lookup_lt_is_Some_2 (calls s) q) as [[c cl] Hcq]; [by rewrite (ni_length _ Hi) |].
  destruct (ni_msg _ Hi q c cl _ Hcq Hq) as [e He]. exists c, cl.
  pose proof Hd as Hd'. rewrite (dispatch_kv rs req (world (lab s)) e cl) in Hd' by (done || by eapply ni_heap).
  injection Hd' as _ <- <-.
  split; simpl; [done | apply ninv_net; [done | done | apply length_insert] | by eexists _, _, _ | | | done | apply answer_wire].
  - eexists _, _. by apply list_lookup_insert_eq.
  - intros k Hne. by rewrite list_lookup_insert_ne.
Qed.

Lemma runs_view R s l q c cl reply c' :
  runs s l q c cl reply → waiting s c' ≠ Some q → view R (set_lab s l) c' = view R s c'.
Proof.
  intros Hr Hne. unfold view. simpl. destruct (waiting s c') as [k|]; [| done].
  by rewrite (ru_other _ _ _ _ _ _ Hr k) by congruence.
Qed.

Lemma runs_late s l q c cl reply k :
  runs s l q c cl reply → late_at (set_lab s l) k = if decide (k = q) then None else late_at s k.
Proof.
  intros Hr. unfold late_at. simpl. case_decide as Hk.
  - subst k. rewrite (ru_calls _ _ _ _ _ _ Hr). destruct (ru_after _ _ _ _ _ _ Hr) as (req & st & ->). by destruct cl.
  - by rewrite (ru_other _ _ _ _ _ _ Hr k).
Qed.

(** Its client waits for it: it will get the reply, or the reply is lost. *)
Lemma sim_run_waited R s a l q c cl reply :
  sim R s a → runs s l q c cl reply → waiting s c = Some q → ∃ a', astep01 a a' ∧ sim R (set_lab s l) a'.
Proof.
  intros [Hi Hsv Hcl Hlt Htr] Hr Hwt. pose proof (ru_calls _ _ _ _ _ _ Hr) as Hcq.
  destruct (ru_before _ _ _ _ _ _ Hr) as (req & st & p & Hq). destruct (ru_after _ _ _ _ _ _ Hr) as (req' & st' & Hq').
  assert (late_list (set_lab s l) = late_list s) as Hll.
  { apply late_list_ext; [done |]. intros k. rewrite (runs_late _ _ _ _ _ _ _ Hr). case_decide; [| done]. subst k.
    unfold late_at. rewrite Hcq, Hq. destruct cl; [done |]. by rewrite decide_True. }
  destruct (ni_wait _ Hi _ _ Hwt) as (cl0 & Hc0 & Hcall). rewrite Hcq in Hc0. injection Hc0 as <-.
  assert (aclient a c = client s c) as Hac by (rewrite Hcl; unfold view; by rewrite Hwt, Hcq, Hq).
  assert (∀ a', aserver a' = handled (aserver a) cl → alate a' = alate a → atrace a' = atrace a →
    (∀ c', aclient a' c' = <[c := view R (set_lab s l) c]> (aclient a) c') → sim R (set_lab s l) a') as Hfin.
  { intros a' Ha1 Ha2 Hat Ha3.
    split; [apply Hr | by simpl; rewrite Ha1, Hsv, (ru_world _ _ _ _ _ _ Hr) | | by rewrite Ha2, Hlt, Hll | by rewrite Hat].
    intros c'. rewrite Ha3. destruct (decide (c = c')) as [<-|Hne]; [by rewrite fn_lookup_insert |].
    rewrite fn_lookup_insert_ne by done. rewrite Hcl. symmetry. eapply runs_view; [done |].
    intros Hc'. destruct (ni_wait _ Hi _ _ Hc') as (? & ? & _). simplify_eq. }
  destruct (decide (q ∈ R)) as [HR|HR].
  - eexists. split; [right; apply astep_replied; by rewrite Hac |]. apply Hfin; [done | done | done |]. intros c'.
    simpl. do 2 f_equal. unfold view. simpl. rewrite Hwt, Hcq, Hq', decide_True by done.
    rewrite (ru_answer _ _ _ _ _ _ Hr). by rewrite Hac, Hsv.
  - destruct (astep_lost a c cl) as (a' & Hst & Ha1 & Ha2 & Hat & Ha3); [by rewrite Hac |].
    exists a'. split; [done |]. apply Hfin; [done | done | done |]. intros c'. rewrite Ha3. do 2 f_equal.
    unfold view. simpl. rewrite Hwt, Hcq, Hq', decide_False by done. by rewrite Hac.
Qed.

(** Nobody waits for it any more: it runs late. *)
Lemma sim_run_late R s a l q c cl reply :
  sim R s a → runs s l q c cl reply → waiting s c ≠ Some q → ∃ a', astep01 a a' ∧ sim R (set_lab s l) a'.
Proof.
  intros [Hi Hsv Hcl Hlt Htr] Hr Hwt. pose proof (ru_calls _ _ _ _ _ _ Hr) as Hcq.
  destruct (ru_before _ _ _ _ _ _ Hr) as (req & st & p & Hq). pose proof (ru_world _ _ _ _ _ _ Hr) as Hw.
  assert (∀ c', view R (set_lab s l) c' = view R s c') as Hv.
  { intros c'. eapply runs_view; [done |]. intros Hc'. destruct (ni_wait _ Hi _ _ Hc') as (? & ? & _). by simplify_eq. }
  destruct cl as [g|pa].
  - exists a. split; [by left |]. split; [apply Hr | by simpl; rewrite Hw | intros c'; by rewrite Hv | | done].
    rewrite Hlt. apply reflexive_eq. symmetry. apply late_list_ext; [done |]. intros k.
    rewrite (runs_late _ _ _ _ _ _ _ Hr). case_decide; [| done]. subst k. unfold late_at. by rewrite Hcq.
  - assert (late_list s ≡ₚ (c, pa) :: late_list (set_lab s l)) as Hflip.
    { apply (late_list_flip _ _ q); [done | by eapply lookup_lt_Some | | |].
      - intros k Hne. rewrite (runs_late _ _ _ _ _ _ _ Hr). by rewrite decide_False.
      - rewrite (runs_late _ _ _ _ _ _ _ Hr). by rewrite decide_True.
      - unfold late_at. rewrite Hcq, Hq. by rewrite decide_False. }
    assert ((c, pa) ∈ alate a) as (z1 & z2 & Hz)%list_elem_of_split by (rewrite Hlt, Hflip; left).
    eexists. split; [right; by eapply a_late |].
    split; simpl; [apply Hr | by rewrite Hsv, Hw | intros c'; by rewrite Hv | | done].
    rewrite <- Hlt, Hz in Hflip. rewrite <- Permutation_middle in Hflip. by apply Permutation_cons_inv in Hflip.
Qed.

(** *** The clients' steps *)

Lemma sim_send R s a c cl e req :
  sim R s a → waiting s c = None → call M (client s c) = Some cl → request e cl = Ret req →
  sim R (mkNState (enqueue (lab s) req) (serving s) (closed s) (client s)
           (<[c := Some (length (requests (lab s)))]> (waiting s)) (calls s ++ [(c, cl)]) (received s) (trace s)) a.
Proof.
  intros [Hi Hsv Hcl Hlt Htr] Hw Hc Hreq. pose proof (ni_length _ Hi) as Hlen. split; [by eapply ninv_send | done | | | done].
  - intros c'. rewrite Hcl. unfold view. simpl. destruct (decide (c = c')) as [<-|Hne].
    + rewrite Hw, fn_lookup_insert. rewrite !lookup_app_r by lia. by rewrite Hlen, Nat.sub_diag.
    + rewrite fn_lookup_insert_ne by done. destruct (waiting s c') as [q|] eqn:Hq; [| done].
      destruct (ni_wait _ Hi _ _ Hq) as (cl' & Hcq & _). apply lookup_lt_Some in Hcq as Hql.
      by rewrite !lookup_app_l by lia.
  - rewrite Hlt. unfold late_list. simpl. rewrite length_app, seq_app, omap_app. simpl.
    assert (∀ x, late_at x (length (calls s)) = None → omap (late_at x) [length (calls s)] = []) as Hnil
      by (intros x Hx; simpl; by rewrite Hx).
    simpl in Hnil. rewrite Hnil.
    + rewrite app_nil_r. apply reflexive_eq, list_omap_ext, Forall_Forall2_diag, Forall_forall.
      intros k Hk%elem_of_seq. unfold late_at. simpl. rewrite !lookup_app_l by lia.
      destruct (calls s !! k) as [[c' [g|pa]]|]; [done | | done].
      destruct (requests (lab s) !! k) as [[m st [|p|b]]|]; [done | | done | done].
      destruct (decide (c = c')) as [<-|Hne]; [| by rewrite fn_lookup_insert_ne].
      rewrite fn_lookup_insert, Hw, !decide_False; [done | | done]. intros [= E]. lia.
    + unfold late_at. simpl. rewrite !lookup_app_r by lia. rewrite Hlen, Nat.sub_diag. simpl. by destruct cl.
Qed.

(** The client changes by [f], and so does the abstract one. *)
Lemma sim_client_step R s a a' c x t :
  sim R s a → waiting s c = None → aserver a' = aserver a → alate a' = alate a → atrace a' = t →
  (∀ c', aclient a' c' = <[c := x]> (aclient a) c') →
  sim R (mkNState (lab s) (serving s) (closed s) (<[c := x]> (client s)) (waiting s) (calls s) (received s) t) a'.
Proof.
  intros [Hi Hsv Hcl Hlt Htr] Hw H1' H2' Ht H3'. split; [by apply ninv_local | by rewrite H1' | | by rewrite H2' | done].
  intros c'. rewrite H3'. destruct (decide (c = c')) as [<-|Hne].
  - unfold view. simpl. by rewrite Hw, !fn_lookup_insert.
  - rewrite fn_lookup_insert_ne by done. rewrite Hcl. unfold view. simpl. by rewrite fn_lookup_insert_ne.
Qed.

(** After the client took the answer [x] of request [q]. *)
Definition took (s : NState) (c q : nat) (ok : bool) (x : C) : NState :=
  mkNState (lab s) (serving s) (closed s) (<[c := x]> (client s)) (<[c := None]> (waiting s)) (calls s)
    (if ok then q :: received s else received s) (trace s).

Lemma took_late s c q ok x k :
  ninv s → waiting s c = Some q → k ≠ q → late_at (took s c q ok x) k = late_at s k.
Proof.
  intros Hi Hw Hne. unfold late_at. simpl. destruct (calls s !! k) as [[c' [g|pa]]|] eqn:Hk; [done | | done].
  destruct (requests (lab s) !! k) as [[m st [|p|b]]|]; [done | | done | done].
  destruct (decide (c = c')) as [<-|Hc]; [| by rewrite fn_lookup_insert_ne].
  rewrite fn_lookup_insert, !decide_False; [done | congruence | done].
Qed.

Lemma took_sim R s a a' c q ok x :
  sim R s a → waiting s c = Some q → ninv (took s c q ok x) →
  aserver a' = aserver a → alate a' ≡ₚ late_list (took s c q ok x) → atrace a' = atrace a →
  (∀ c', aclient a' c' = <[c := x]> (aclient a) c') → sim R (took s c q ok x) a'.
Proof.
  intros [Hi Hsv Hcl Hlt Htr] Hw Hi' H1' H2' Ht H3'. split; [done | by rewrite H1' | | done | by rewrite Ht].
  intros c'. rewrite H3'. unfold view. simpl. destruct (decide (c = c')) as [<-|Hne].
  - by rewrite !fn_lookup_insert.
  - rewrite !fn_lookup_insert_ne by done. rewrite Hcl. unfold view. done.
Qed.

(** The client is told that its call failed: the request was dropped, is
    still to run, or has run. *)
Lemma sim_call_failed R s a c q cl req b d :
  sim R s a → waiting s c = Some q → call M (client s c) = Some cl → q ∉ R →
  requests (lab s) !! q = Some (mkRequest req (Answered false b) d) →
  ∃ a', astep01 a a' ∧ sim R (took s c q false (failed cl (client s c))) a'.
Proof.
  intros Hsim Hw Hc HR Hq. pose proof Hsim as [Hi Hsv Hcl Hlt Htr].
  pose proof (ninv_receive s c q cl req false b d (failed cl (client s c)) Hi Hw Hc Hq) as Hi'.
  change (ninv (took s c q false (failed cl (client s c)))) in Hi'.
  destruct (ni_wait _ Hi _ _ Hw) as (cl0 & Hcq & Hc0). assert (cl0 = cl) as -> by congruence.
  pose proof (Hcl c) as Hac. unfold view in Hac. rewrite Hw, Hcq, Hq in Hac.
  assert (late_at s q = None) as Hn by (unfold late_at; rewrite Hcq, Hq; destruct cl; [done | by destruct d; rewrite ?decide_True]).
  assert (late_at (took s c q false (failed cl (client s c))) q = None → late_list (took s c q false (failed cl (client s c))) = late_list s) as Hsame.
  { intros Hq'. apply late_list_ext; [done |]. intros k. destruct (decide (k = q)) as [->|Hne]; [congruence | by apply took_late]. }
  destruct (match d with Pending _ => true | _ => false end) eqn:Hd; [destruct cl as [g|pa] |].
  - exists a. split; [by left |]. eapply took_sim; [done.. | | done |].
    + rewrite Hsame; [done |]. unfold late_at. simpl. by rewrite Hcq.
    + intros c'. destruct d; try done. rewrite <- Hac. destruct (decide (c = c')) as [<-|Hne]; [by rewrite fn_lookup_insert | by rewrite fn_lookup_insert_ne].
  - destruct d as [|p|rb]; try done. eexists. split; [right; apply (a_abandoned M a c pa); by rewrite Hac |].
    eapply took_sim; [done.. | | done | intros c'; simpl; by rewrite Hac]. simpl. rewrite Hlt. symmetry.
    apply (late_list_flip (took s c q false (failed (CPut pa) (client s c))) s q);
      [done | by eapply lookup_lt_Some | intros k Hne; by apply took_late | done |].
    unfold late_at. simpl. rewrite Hcq, Hq, fn_lookup_insert. by rewrite decide_False.
  - assert (late_at (took s c q false (failed cl (client s c))) q = None) as Hq'.
    { unfold late_at. simpl. rewrite Hcq, Hq. destruct cl, d; done. }
    destruct d as [|p|rb]; [| done |].
    + destruct (astep_dropped a c cl) as (a' & Hst & H1' & H2' & Ht & H3'); [by rewrite Hac |].
      exists a'. split; [done |]. eapply took_sim; [done.. | by rewrite H2', Hsame | done | intros c'; by rewrite H3', Hac].
    + exists a. split; [by left |]. eapply took_sim; [done.. | by rewrite Hsame | done |].
      intros c'. rewrite decide_False in Hac by done. rewrite <- Hac.
      destruct (decide (c = c')) as [<-|Hne]; [by rewrite fn_lookup_insert | by rewrite fn_lookup_insert_ne].
Qed.

(** The client gets the reply: the abstract client was answered when the
    handler ran. *)
Lemma sim_call_replied R s a c q cl req b d x :
  sim R s a → waiting s c = Some q → call M (client s c) = Some cl → q ∈ R →
  requests (lab s) !! q = Some (mkRequest req (Answered true b) d) → answer_call (client s c) cl true b = Ret x →
  sim R (took s c q true x) a.
Proof.
  intros Hsim Hw Hc HR Hq Hx. pose proof Hsim as [Hi Hsv Hcl Hlt Htr].
  pose proof (ninv_receive s c q cl req true b d x Hi Hw Hc Hq) as Hi'.
  destruct (ni_wait _ Hi _ _ Hw) as (cl0 & Hcq & Hc0). assert (cl0 = cl) as -> by congruence.
  destruct (inv_requests _ (ni_lab _ Hi) _ _ Hq) as [Hd _]. simpl in Hd. subst d.
  eapply took_sim; [done.. | | done |].
  - rewrite Hlt. apply reflexive_eq. symmetry. apply late_list_ext; [done |]. intros k.
    destruct (decide (k = q)) as [->|Hne]; [| by apply took_late]. unfold late_at. simpl. rewrite Hcq, Hq. by destruct cl.
  - intros c'. destruct (decide (c = c')) as [<-|Hne]; [| by rewrite fn_lookup_insert_ne].
    rewrite fn_lookup_insert, Hcl. unfold view. rewrite Hw, Hcq, Hq, decide_True by done. by rewrite Hx.
Qed.

(** One step, when [R] has the requests received in the end. *)
Lemma nstep_sim R s s' a :
  sim R s a → nstep s s' → (∀ q, q ∈ received s' → q ∈ R) →
  (∀ c q, waiting s c = Some q → waiting s' c ≠ Some q → q ∉ received s' → q ∉ R) →
  ∃ a', astep01 a a' ∧ sim R s' a'.
Proof.
  intros Hsim Hs HR1 HR2. pose proof (sim_ninv _ _ _ Hsim) as Hi.
  destruct Hs as [s l Hs Hlen|s|s|s c cl e req Hw Hc Hreq Hsv|s c cl Hw Hc Hcl|s c q cl req ok b d x Hw Hc Hq Hx|s c x Hw Hx].
  - destruct (net_step_cases _ _ (ni_lab _ Hi) Hs Hlen)
      as [(Hw & _ & Hch)|(q & req & st & p & rs & rs' & w' & reply & Hq & Hp & Hd & El)].
    + exists a. split; [by left | by apply sim_quiet].
    + destruct (run_handler_runs s l q req st p rs rs' w' reply) as (c & cl & Hr); [done.. |].
      destruct (decide (waiting s c = Some q)); [by eapply sim_run_waited | by eapply sim_run_late].
  - exists a. split; [by left |]. by destruct Hsim as [[] ? ? ? ?].
  - exists a. split; [by left |]. by destruct Hsim as [[] ? ? ? ?].
  - exists a. split; [by left | by eapply sim_send].
  - assert (aclient a c = client s c) as Hac by (rewrite (sim_client _ _ _ Hsim); unfold view; by rewrite Hw).
    destruct (astep_dropped a c cl) as (a' & Hst & H1' & H2' & Ht & H3'); [by rewrite Hac |]. exists a'. split; [done |].
    eapply sim_client_step; [done.. | by rewrite Ht, (sim_trace _ _ _ Hsim) |]. intros c'. rewrite H3', Hac. by destruct cl.
  - change (∃ a', astep01 a a' ∧ sim R (took s c q ok x) a'). destruct (ni_wait _ Hi _ _ Hw) as (cl0 & Hcq & _). destruct ok.
    + exists a. split; [by left |]. eapply sim_call_replied; [done.. | | done | done]. apply HR1. simpl. left.
    + rewrite answer_failed in Hx. injection Hx as <-. eapply sim_call_failed; [done.. | | done].
      apply (HR2 c q Hw); [simpl; by rewrite fn_lookup_insert |]. simpl. intros (c' & cl' & Hq' & Hne)%(ni_received _ Hi). by simplify_eq.
  - assert (aclient a c = client s c) as Hac by (rewrite (sim_client _ _ _ Hsim); unfold view; by rewrite Hw).
    eexists. split; [right; apply (a_local M a c x); by rewrite Hac |].
    eapply sim_client_step; [done.. | simpl; by rewrite Hac, (sim_trace _ _ _ Hsim) | done].
Qed.

(** What a client may already be in the abstract system: itself, or itself
    with the answer of its call that is on its way. *)
Inductive ahead (x : C) : C → Prop :=
| ahead_same : ahead x x
| ahead_got a r : call M x = Some (CGet a) → ahead x (got_reply M x r)
| ahead_put a r : call M x = Some (CPut a) → ahead x (put_reply M x r)
| ahead_failed a : call M x = Some (CPut a) → ahead x (put_failed M x).

Lemma view_ahead R s c : ninv s → ahead (client s c) (view R s c).
Proof.
  intros Hi. unfold view. destruct (waiting s c) as [q|] eqn:Hw; [| by apply ahead_same].
  destruct (ni_wait _ Hi _ _ Hw) as (cl & Hq & Hc). rewrite Hq.
  destruct (requests (lab s) !! q) as [[m st [|p|b]]|]; try by apply ahead_same.
  destruct cl as [g|pa]; case_decide; simpl; try (by apply ahead_same); [| | by eapply ahead_failed].
  - destruct (decode b zero) as [r|]; simpl; [by eapply ahead_got | by apply ahead_same].
  - destruct (decode b zero) as [r|]; simpl; [by eapply ahead_put | by apply ahead_same].
Qed.

(** A run of [n] steps, with a condition [P] on server and clients along it. *)
Lemma run_sim (P : S → (nat → C) → Prop) n s sf a :
  nsteps (λ s s', nstep s s' ∧ ∀ cl, (∀ c, ahead (client s c) (cl c)) → P (world (lab s)) cl) n s sf →
  sim (received sf) s a →
  ∃ m af, (m ≤ n)%nat ∧ nsteps (λ a a', astep M a a' ∧ P (aserver a) (aclient a)) m a af ∧ sim (received sf) sf af.
Proof.
  intros Hr. revert a. induction Hr as [sf|n s s1 sf [Hs HP] Hr IH]; intros a Hsim; [exists 0%nat, a; split_and!; [lia | constructor | done] |].
  pose proof (sim_ninv _ _ _ Hsim) as Hi. pose proof (ninv_step _ _ Hi Hs) as Hi1.
  assert (rtc nstep s1 sf) as Hr' by (eapply rtc_subrel; [| by eapply rtc_nsteps_2]; by intros ? ? []).
  destruct (nstep_sim (received sf) s s1 a Hsim Hs) as (a1 & Hst & Hsim1).
  - intros q Hq. by eapply received_steps.
  - intros c q Hw Hw' Hq. destruct (ni_wait _ Hi _ _ Hw) as (cl & Hcq & _).
    eapply (abandoned_steps s1 sf q c cl); [done | done | | done | done].
    destruct Hs; simpl; try done. by apply lookup_app_l_Some.
  - destruct (IH a1 Hsim1) as (m & af & Hm & Hrun & Hfin).
    destruct Hst as [->|Hst]; [exists m, af; split_and!; [lia | done | done] |].
    exists (Datatypes.S m), af. split_and!; [lia | | done]. eapply nsteps_l; [| done]. split; [done |].
    rewrite (sim_server _ _ _ Hsim). apply HP. intros c. rewrite (sim_client _ _ _ Hsim). by apply view_ahead.
Qed.

Lemma sim_init R w rn cl : sim R (ninit w rn cl) (mkAState w [] cl []).
Proof. split; [apply ninv_init | done | done | done | done]. Qed.

Lemma network_run (P : S → (nat → C) → Prop) n (w : S) (rn : Network) (cl : nat → C) (s : NState) :
  nsteps (λ s s', nstep s s' ∧ ∀ cl, (∀ c, ahead (client s c) (cl c)) → P (world (lab s)) cl) n (ninit w rn cl) s →
  ∃ m a, (m ≤ n)%nat ∧
    nsteps (λ a a', astep M a a' ∧ P (aserver a) (aclient a)) m (mkAState w [] cl []) a ∧
    aserver a = world (lab s) ∧ atrace a = trace s ∧ ∀ c, call M (client s c) = None ∨ waiting s c = None → aclient a c = client s c.
Proof.
  intros Hr. destruct (run_sim P n _ s _ Hr (sim_init (received s) w rn cl)) as (m & a & Hm & Ha & [Hi H1' H2' _ H4']).
  exists m, a. split_and!; try done. intros c Hc. rewrite H2'. unfold view.
  destruct (waiting s c) as [q|] eqn:Hw; [| done]. destruct (ni_wait _ Hi _ _ Hw) as (cl0 & _ & Hcall).
  destruct Hc as [Hc|Hc]; congruence.
Qed.

(** ** A call that goes through *)

(** The server is up and an end is connected to it over a reliable network
    that has not been cleaned up. *)
Definition up (e sn : string) (s : NState) : Prop :=
  stable e sn 0 (net (lab s)) ∧ is_Some (heap (lab s) !! 0%nat) ∧ serving s = true.

Lemma call_goes_through (P : S → (nat → C) → Prop) s c cl e sn req :
  ninv s → up e sn s → waiting s c = None → call M (client s c) = Some cl → request e cl = Ret req →
  let w := world (lab s) in
  (∀ x, (∀ c', ahead (client s c') (x c')) → P w x ∧ P (handled w cl) x) →
  ∃ s', nsteps (λ s s', nstep s s' ∧ ∀ x, (∀ c, ahead (client s c) (x c)) → P (world (lab s)) x) 7 s s' ∧
    up e sn s' ∧ world (lab s') = handled w cl ∧ trace s' = trace s ∧
    waiting s' = <[c := None]> (<[c := Some (length (requests (lab s)))]> (waiting s)) ∧
    client s' = <[c := replied w cl (client s c)]> (client s) ∧ requests (lab s) `prefix_of` requests (lab s').
Proof.
  intros Hi (Hst & [rs Hrs] & Hsv) Hw Hc Hreq w HP. pose proof (ni_heap _ Hi _ _ Hrs) as Hsvc.
  assert (endname req = e) as He.
  { destruct cl as [a|a]; simpl in Hreq; unfold Call_send in Hreq; destruct (encode a); by simplify_eq. }
  set (q := length (requests (lab s))). destruct Hst as (Hrel & Hen & Hcon & Hsrv).
  assert (∀ r, (requests (lab s) ++ [r]) !! q = Some r) as Hlk.
  { intros r. rewrite lookup_app_r by (unfold q; lia). unfold q. by rewrite Nat.sub_diag. }
  assert (∀ r r', <[q := r']> (requests (lab s) ++ [r]) = requests (lab s) ++ [r']) as Hset.
  { intros r r'. rewrite insert_app_r_alt by (unfold q; lia). unfold q. by rewrite Nat.sub_diag. }
  eexists. split.
  { eapply nsteps_l; [split; [by eapply n_send | intros; by apply HP] |].
    eapply nsteps_l; [split; [apply n_net; [eapply (choose _ q); simpl; [apply Hlk |] | apply length_insert] | intros; by apply HP] |].
    { unfold readEndnameInfo, is_enabled, connected_to, server_at in *. simpl. by rewrite He, Hen, Hcon, Hsrv. }
    unfold set_lab, set_request. simpl. rewrite Hset.
    eapply nsteps_l; [split; [apply n_net; [eapply (start_dispatch _ q); simpl; apply Hlk | apply length_insert] | intros; by apply HP] |].
    unfold set_lab, set_request. simpl. rewrite Hset.
    eapply nsteps_l; [split; [apply n_net; [eapply (run_handler _ q); simpl; [apply Hlk | exact Hrs | by eapply dispatch_kv] | apply length_insert] | intros; by apply HP] |].
    unfold set_lab, set_request. simpl. rewrite Hset.
    eapply nsteps_l; [split; [apply n_net; [eapply (handler_returns _ q); simpl; apply Hlk | apply length_insert] | intros; by apply HP] |].
    unfold set_lab, set_request. simpl. rewrite Hset.
    eapply nsteps_l; [split; [apply n_net; [eapply (finish _ q _ _ _ false); simpl; [apply Hlk |] | apply length_insert] | intros; by apply HP] |].
    { unfold answer. rewrite stable_alive; [by rewrite Hrel |]. by rewrite He. }
    unfold set_lab, set_request. simpl. rewrite Hset.
    eapply nsteps_l; [split; [eapply (n_receive _ c q cl); simpl; [apply fn_lookup_insert | done | apply Hlk | apply answer_wire] | intros; by apply HP] |].
    apply nsteps_O. }
  simpl. split_and!; try done; [| by eexists]. split; simpl; [done |]. split; [| done]. rewrite lookup_insert_eq. by eexists.
Qed.

(** A call whose end is disabled after its request was handed to the server:
    the call fails, and the request is still to run. *)
Lemma call_abandoned s c cl e sn req :
  up e sn s → waiting s c = None → call M (client s c) = Some cl → request e cl = Ret req →
  ∃ s' st, rtc nstep s s' ∧ up e sn s' ∧ world (lab s') = world (lab s) ∧ trace s' = trace s ∧
    waiting s' = <[c := None]> (<[c := Some (length (requests (lab s)))]> (waiting s)) ∧
    client s' = <[c := failed cl (client s c)]> (client s) ∧
    requests (lab s') = requests (lab s) ++ [mkRequest req st (Pending 0)].
Proof.
  intros (Hst & [rs Hrs] & Hsv) Hw Hc Hreq.
  assert (endname req = e) as He.
  { destruct cl as [a|a]; simpl in Hreq; unfold Call_send in Hreq; destruct (encode a); by simplify_eq. }
  set (q := length (requests (lab s))). destruct Hst as (Hrel & Hen & Hcon & Hsrv).
  assert (∀ r, (requests (lab s) ++ [r]) !! q = Some r) as Hlk.
  { intros r. rewrite lookup_app_r by (unfold q; lia). unfold q. by rewrite Nat.sub_diag. }
  assert (∀ r r', <[q := r']> (requests (lab s) ++ [r]) = requests (lab s) ++ [r']) as Hset.
  { intros r r'. rewrite insert_app_r_alt by (unfold q; lia). unfold q. by rewrite Nat.sub_diag. }
  eexists _, _. split.
  { eapply rtc_l; [by eapply n_send |].
    eapply rtc_l; [apply n_net; [eapply (choose _ q); simpl; [apply Hlk |] | apply length_insert] |].
    { unfold readEndnameInfo, is_enabled, connected_to, server_at in *. simpl. by rewrite He, Hen, Hcon, Hsrv. }
    unfold set_lab, set_request. simpl. rewrite Hset.
    eapply rtc_l; [apply n_net; [eapply (start_dispatch _ q); simpl; apply Hlk | apply length_insert] |].
    unfold set_lab, set_request. simpl. rewrite Hset.
    eapply rtc_l; [apply n_net; [apply (configure _ (Enable (net (lab s)) e false)) | done] |]. simpl.
    eapply rtc_l; [apply n_net; [eapply (server_dies _ q); simpl; [apply Hlk |] | apply length_insert] |].
    { unfold isServerDead, is_enabled. simpl. rewrite He, lookup_insert_eq. by rewrite decide_True by (by left). }
    unfold set_lab, set_request. simpl. rewrite Hset.
    eapply rtc_l; [apply n_net; [eapply (finish _ q _ _ _ false); simpl; [apply Hlk | done] | apply length_insert] |].
    unfold set_lab. simpl. rewrite Hset.
    eapply rtc_l; [eapply (n_receive _ c q cl); simpl; [apply fn_lookup_insert | done | apply Hlk | apply answer_failed] |].
    eapply rtc_l; [apply n_net; [apply (configure _ (net (lab s))) | done] |]. apply rtc_refl. }
  simpl. split_and!; try done; by eexists.
Qed.

(** The request runs after all. *)
Lemma runs_late_after s q e cl req st :
  ninv s → is_Some (heap (lab s) !! 0%nat) → request e cl = Ret req → requests (lab s) !! q = Some (mkRequest req st (Pending 0)) →
  ∃ s', nstep s s' ∧ world (lab s') = handled (world (lab s)) cl ∧ trace s' = trace s ∧ waiting s' = waiting s ∧
    client s' = client s ∧ (∀ e sn, up e sn s → up e sn s').
Proof.
  intros Hi [rs Hrs] Hreq Hq. eexists. split.
  - apply n_net; [eapply (run_handler _ q); [done | done | eapply dispatch_kv; [by eapply ni_heap | done]] | apply length_insert].
  - simpl. split_and!; try done. intros e' sn' (Hs & _ & Hsv). split; [done |]. simpl. rewrite lookup_insert_eq. split; [by eexists | done].
Qed.

End net.

(** ** An encoding

    Any countable type can be sent as a string of bits. *)

Definition bit_codec {A : Type} `{Countable A} (z : A) : Codec A.
Proof.
  refine {| zero := z; encode a := Some (bits (countable.encode a)); decode b _ := countable.decode (unbits b) |}.
  intros a b [= <-]. rewrite unbits_bits. apply countable.decode_encode.
Defined.

#[export] Instance Err_countable : Countable Err.
Proof.
  refine (inj_countable'
    (λ e, match e with ErrNone => 0 | OK => 1 | ErrNoKey => 2 | ErrVersion => 3 | ErrMaybe => 4 | ErrWrongLeader => 5 | ErrWrongGroup => 6 end%nat)
    (λ n, match n with 0 => ErrNone | 1 => OK | 2 => ErrNoKey | 3 => ErrVersion | 4 => ErrMaybe | 5 => ErrWrongLeader | _ => ErrWrongGroup end%nat) _).
  by intros [].
Defined.

#[export] Instance GetArgs_eq_dec : EqDecision GetArgs.
Proof. solve_decision. Defined.
#[export] Instance GetArgs_countable : Countable GetArgs.
Proof. by refine (inj_countable' GetArgs_Key mkGetArgs _); intros []. Defined.
#[export] Instance GetReply_countable : Countable GetReply.
Proof.
  by refine (inj_countable' (λ r, (GetReply_Value r, GetReply_Version r, GetReply_Err r)) (λ x, mkGetReply x.1.1 x.1.2 x.2) _); intros [].
Defined.
#[export] Instance PutArgs_countable : Countable PutArgs.
Proof.
  by refine (inj_countable' (λ r, (PutArgs_Key r, PutArgs_Value r, PutArgs_Version r)) (λ x, mkPutArgs x.1.1 x.1.2 x.2) _); intros [].
Defined.
#[export] Instance PutReply_countable : Countable PutReply.
Proof. by refine (inj_countable' PutReply_Err mkPutReply _); intros []. Defined.

Definition bit_wire : WireCodec.
Proof.
  refine {| wire_GetArgs := bit_codec (mkGetArgs ""); wire_GetReply := bit_codec GetReply_zero;
            wire_PutArgs := bit_codec (mkPutArgs "" "" 0); wire_PutReply := bit_codec PutReply_zero |}; try done; intros r; by eexists.
Defined.

End KVNet.
