(* ===== verification/KVNetApps.v ===== *)
(** * Locks, tests and histories over the simulated network

    The systems of [KVLock], [ClerkProg] and [Linearizability], with their
    clients' calls made over the network of [KVNet].  What was proved of the
    abstract transport carries over: mutual exclusion, the outcome of the
    append test, and linearizability of histories in which clients put only
    versions they have seen.  A put of a version that is ahead of the server
    can take effect after it has returned. *)

From S2P Require Import Prelude KVServer KvModel KVClerk Linearizability ClerkProg KVLock KVTest Labrpc RpcCall KVNet.
#[local] Open Scope Z_scope.

Module KVNetApps.
Import KVClerk KVNet.

(** ** Locks *)

Section lock.
Context {S : Type} `{VStore S} (l : string) (id : nat → string).

(** The call a client of a lock is in, with [firstAttempt]. *)
Definition lock_prog (x : KVLock.Client) : option (KVLock.Prog * bool) :=
  match x with
  | KVLock.Acquiring p first | KVLock.Releasing p first => Some (p, first)
  | _ => None
  end.
Definition lock_set (x : KVLock.Client) (p : KVLock.Prog) (first : bool) : KVLock.Client :=
  match x with
  | KVLock.Acquiring _ _ => KVLock.Acquiring p first
  | KVLock.Releasing _ _ => KVLock.Releasing p first
  | x => x
  end.

(** [Acquire] and [Release] are called and return, or go round their loops. *)
Inductive lock_local (c : nat) : KVLock.Client → KVLock.Client → Prop :=
| ll_acquire : lock_local c KVLock.Idle (KVLock.Acquiring (KVLock.Acquire_body (KVLock.lk l id c)) true)
| ll_release x : x = KVLock.Holding ∨ x = KVLock.Idle →
    lock_local c x (KVLock.Releasing (KVLock.Release_body (KVLock.lk l id c)) true)
| ll_acquired first : lock_local c (KVLock.Acquiring (ClerkProg.Done true) first) KVLock.Holding
| ll_acquire_loops first :
    lock_local c (KVLock.Acquiring (ClerkProg.Done false) first) (KVLock.Acquiring (KVLock.Acquire_body (KVLock.lk l id c)) true)
| ll_released first : lock_local c (KVLock.Releasing (ClerkProg.Done true) first) KVLock.Idle
| ll_release_loops first :
    lock_local c (KVLock.Releasing (ClerkProg.Done false) first) (KVLock.Releasing (KVLock.Release_body (KVLock.lk l id c)) true).

Definition lock_clients : Clients KVLock.Client := {|
  call x :=
    match lock_prog x with
    | Some (ClerkProg.ClerkGet k _, _) => Some (CGet (mkGetArgs k))
    | Some (ClerkProg.ClerkPut k v n _, _) => Some (CPut (mkPutArgs k v n))
    | _ => None
    end;
  got_reply x r :=
    match lock_prog x with
    | Some (ClerkProg.ClerkGet _ f, _) => lock_set x (f (Get_result r)) true
    | _ => x
    end;
  put_reply x r :=
    match lock_prog x with
    | Some (ClerkProg.ClerkPut _ _ _ f, first) => lock_set x (f (Put_result first r)) true
    | _ => x
    end;
  put_failed x := match lock_prog x with Some (p, _) => lock_set x p false | None => x end;
  local := lock_local
|}.

Definition lock_state (a : AState S KVLock.Client) : KVLock.State := KVLock.mkState (aserver a) (alate a) (aclient a).

Lemma lock_astep a a' : astep lock_clients a a' → KVLock.step l id (lock_state a) (lock_state a').
Proof.
  intros Hs.
  destruct Hs as [s c x Hx|s c a Hc|s c a Hc|s c a Hc|s c a Hc|s c a Hc r|s z1 c a z2 Hz]; unfold lock_state; simpl in *.
  1: { inversion Hx as [Ha|y Hy Ha|f Ha|f Ha|f Ha|f Ha]; subst x.
       - by apply KVLock.start_acquire.
       - by apply KVLock.start_release.
       - by eapply KVLock.acquire_returns.
       - by eapply KVLock.acquire_loops.
       - by eapply KVLock.release_returns.
       - by eapply KVLock.release_loops. }
  6: by eapply KVLock.late_put.
  all: destruct (aclient s c) as [|[| |k f|k v n f] first| |[| |k f|k v n f] first] eqn:Hcl; simplify_eq/=;
    first [eapply (KVLock.acquire_step l id (KVLock.mkState _ _ _)); [done | by constructor] |
           eapply (KVLock.release_step l id (KVLock.mkState _ _ _)); [done | by constructor]].
Qed.

End lock.

(** ** Programs in loops: the clients of the tests *)

Section prog.
Context {S : Type} `{VStore S} {A R : Type}.
Context (body : nat → Z → A → ClerkProg.Prog A) (stop : A → option R).

Inductive prog_local (c : nat) : ClerkProg.Client A R → ClerkProg.Client A R → Prop :=
| pl_loop a first rnd :
    prog_local c (ClerkProg.Running (ClerkProg.Done a) first) (ClerkProg.Running (body c rnd a) true)
| pl_stop a first r :
    stop a = Some r → prog_local c (ClerkProg.Running (ClerkProg.Done a) first) (ClerkProg.Finished r).

Definition prog_clients : Clients (ClerkProg.Client A R) := {|
  call x :=
    match x with
    | ClerkProg.Running (ClerkProg.ClerkGet k _) _ => Some (CGet (mkGetArgs k))
    | ClerkProg.Running (ClerkProg.ClerkPut k v n _) _ => Some (CPut (mkPutArgs k v n))
    | _ => None
    end;
  got_reply x r :=
    match x with
    | ClerkProg.Running (ClerkProg.ClerkGet _ f) _ => ClerkProg.Running (f (Get_result r)) true
    | x => x
    end;
  put_reply x r :=
    match x with
    | ClerkProg.Running (ClerkProg.ClerkPut _ _ _ f) first => ClerkProg.Running (f (Put_result first r)) true
    | x => x
    end;
  put_failed := ClerkProg.retry;
  local := prog_local
|}.

Definition prog_state (a : AState S (ClerkProg.Client A R)) : ClerkProg.State S A R :=
  ClerkProg.mkState (aserver a) (alate a) (aclient a).

Lemma prog_astep a a' : astep prog_clients a a' → ClerkProg.step false body stop (prog_state a) (prog_state a').
Proof.
  intros Hs.
  destruct Hs as [s c x Hx|s c a Hc|s c a Hc|s c a Hc|s c a Hc|s c a Hc r|s z1 c a z2 Hz]; unfold prog_state; simpl in *.
  1: { inversion Hx as [y f rnd Ha|y f r Hr Ha]; subst x; [by eapply ClerkProg.client_loop | by eapply ClerkProg.client_stop]. }
  6: by eapply ClerkProg.late_put.
  all: destruct (aclient s c) as [[| |k f|k v n f] first|] eqn:Hcl; simplify_eq/=;
    eapply (ClerkProg.client_call false body stop (ClerkProg.mkState _ _ _)); [done | by constructor].
Qed.

(** Runs over the network along which versions do not wrap and [W] holds,
    also of the answers that are on their way. *)
Context `{WireCodec} (W : gmap string (string * Tversion) → (nat → ClerkProg.Client A R) → Prop).

Definition nstep_nw (s s' : NState) : Prop :=
  nstep prog_clients s s' ∧ (∀ k, ver_of (vs_abs (Labrpc.world (lab s))) k + 1 < two64) ∧
  ∀ cl, (∀ c, ahead prog_clients (client s c) (cl c)) → W (vs_abs (Labrpc.world (lab s))) cl.

Lemma prog_network_run (w : S) rn cl s :
  rtc nstep_nw (ninit w rn cl) s →
  ∃ s', rtc (ClerkProg.step_nw false body stop W) (ClerkProg.mkState w [] cl) s' ∧
    ClerkProg.server s' = Labrpc.world (lab s) ∧
    ∀ c, call prog_clients (client s c) = None → ClerkProg.client s' c = client s c.
Proof.
  intros [n Hn]%rtc_nsteps_1.
  destruct (network_run prog_clients (λ w cl, (∀ k, ver_of (vs_abs w) k + 1 < two64) ∧ W (vs_abs w) cl) n w rn cl s)
    as (m & a & _ & Ha & Hsv & _ & Hcl).
  { eapply nsteps_subrel; [| exact Hn]. intros s1 s2 (H1' & H2' & H3'). split; [done |]. intros x Hx. split; [done | by apply H3']. }
  exists (prog_state a). split; [| split; [done |]].
  - apply rtc_nsteps_2 in Ha. eapply (rtc_congruence prog_state) in Ha; [exact Ha |].
    intros a1 a2 [Hs Hv]. split; [by apply prog_astep | done].
  - intros c Hc. simpl. apply Hcl. by left.
Qed.

End prog.

(** ** Histories of clerk calls *)

Section history.
Context {S : Type} `{VStore S}.
Import Linearizability.

(** A client calls the clerk, or the call returns. *)
Inductive hist_local (c : nat) : option Task → option Task → Prop :=
| hl_get k : hist_local c None (Some (TGet k))
| hl_put a : 0 ≤ PutArgs_Version a < two64 → hist_local c None (Some (TPut a true))
| hl_got k r : hist_local c (Some (TGot k r)) None
| hl_done a e : hist_local c (Some (TPutDone a e)) None.

Definition hist_clients : Clients (option Task) := {|
  call x :=
    match x with
    | Some (TGet k) => Some (CGet (mkGetArgs k))
    | Some (TPut a _) => Some (CPut a)
    | _ => None
    end;
  got_reply x r := match x with Some (TGet k) => Some (TGot k (Get_result r)) | x => x end;
  put_reply x r := match x with Some (TPut a first) => Some (TPutDone a (Put_result first r)) | x => x end;
  put_failed x := match x with Some (TPut a _) => Some (TPut a false) | x => x end;
  local := hist_local
|}.

(** The events [kvtest1] logs. *)
Definition event (t : nat * option Task * option Task) : option Event :=
  match t with
  | (c, None, Some (TGet k)) => Some (Inv c (get_input k))
  | (c, None, Some (TPut a _)) => Some (Inv c (put_input a))
  | (c, Some (TGot k r), None) => Some (Res c (get_input k) (get_output r))
  | (c, Some (TPutDone a e), None) => Some (Res c (put_input a) (put_output e))
  | _ => None
  end.
Definition history (tr : list (nat * option Task * option Task)) : list Event := omap event tr.

(** Clients put versions they have seen. *)
Definition seen (w : S) (cl : nat → option Task) : Prop :=
  ∀ c a f, cl c = Some (TPut a f) → PutArgs_Version a ≤ ver_of (vs_abs w) (PutArgs_Key a).

(** How a state with late requests corresponds to one of [Linearizability],
    after [i] steps: requests still in flight are outdated, or those of a
    client that is still trying. *)
Record hrel (i : Z) (a : AState S (option Task)) (ls : Linearizability.State) : Prop := {
  hr_ok : vs_ok (aserver a);
  hr_ok' : vs_ok (server ls);
  hr_abs : vs_abs (server ls) = vs_abs (aserver a);
  hr_clients : ∀ c, clients ls !! c = aclient a c;
  hr_range : ∀ c p f, aclient a c = Some (TPut p f) → 0 ≤ PutArgs_Version p;
  hr_done : ∀ c p e, aclient a c = Some (TPutDone p e) → e ≠ ErrNoKey;
  hr_ver : ∀ k, 0 ≤ ver_of (vs_abs (aserver a)) k ≤ i;
  hr_late : ∀ c p, (c, p) ∈ alate a →
    PutArgs_Version p < ver_of (vs_abs (aserver a)) (PutArgs_Key p) ∨ aclient a c = Some (TPut p false);
}.

(** A Put of a seen version on two stores with the same contents. *)
Lemma seen_put (w w' : S) p i :
  vs_ok w → vs_ok w' → vs_abs w' = vs_abs w → (∀ k, 0 ≤ ver_of (vs_abs w) k ≤ i) → i + 1 < two64 →
  0 ≤ PutArgs_Version p ≤ ver_of (vs_abs w) (PutArgs_Key p) →
  let r := vs_Put w p PutReply_zero in let r' := vs_Put w' p PutReply_zero in
  vs_ok r.1 ∧ vs_ok r'.1 ∧ vs_abs r'.1 = vs_abs r.1 ∧ r'.2 = r.2 ∧ PutReply_Err r.2 ≠ ErrNoKey ∧
  PutArgs_Version p < ver_of (vs_abs r.1) (PutArgs_Key p) ∧
  (∀ k, 0 ≤ ver_of (vs_abs r.1) k ≤ i + 1) ∧ (∀ k, ver_of (vs_abs w) k ≤ ver_of (vs_abs r.1) k).
Proof.
  intros Hok Hok' Habs Hver Hi Hp r r'. destruct p as [k v n]. simpl in *.
  destruct (vs_Put_cases w k v n Hok) as [Hr Hc]. destruct (vs_Put_cases w' k v n Hok') as [Hr' Hc'].
  fold r in Hr, Hc. fold r' in Hr', Hc'. rewrite Habs in Hc'. pose proof (Hver k) as Hk.
  destruct r as [r1 [e1]], r' as [r1' [e1']]. simpl in *.
  destruct Hc as [(E & -> & Ha)|(Hne & Ha & ->)], Hc' as [(E' & -> & Ha')|(Hne' & Ha' & ->)]; try done; rewrite Ha, Ha'.
  - rewrite u64_small by lia.
    assert (∀ k', ver_of (<[k:=(v, n + 1)]> (vs_abs w)) k' = if decide (k = k') then n + 1 else ver_of (vs_abs w) k') as Hv.
    { intros k'. unfold ver_of. case_decide; [subst; by rewrite lookup_insert_eq | by rewrite lookup_insert_ne]. }
    split_and!; try done; [by rewrite Hv, decide_True; [lia |] | |]; intros k'; rewrite Hv; specialize (Hver k'); case_decide; subst; lia.
  - split_and!; try done; try lia.
    + unfold ver_of in *. destruct (vs_abs w !! k) as [[]|]; [done | lia].
    + intros k'. specialize (Hver k'). lia.
Qed.

(** An outdated Put changes nothing. *)
Lemma outdated_put (w : S) p :
  vs_ok w → PutArgs_Version p < ver_of (vs_abs w) (PutArgs_Key p) →
  vs_ok (vs_Put w p PutReply_zero).1 ∧ vs_abs (vs_Put w p PutReply_zero).1 = vs_abs w.
Proof.
  intros Hok Hlt. destruct p as [k v n]. simpl in *. destruct (vs_Put_cases w k v n Hok) as [Hr [(E & _)|(_ & Ha & _)]]; [lia | done].
Qed.

(** A client's own step; it gives up no request that is still in flight. *)
Lemma hrel_client i a ls c x z tr cls :
  hrel i a ls → (∀ p f, x = Some (TPut p f) → 0 ≤ PutArgs_Version p) → (∀ p e, x = Some (TPutDone p e) → e ≠ ErrNoKey) →
  (∀ p, aclient a c = Some (TPut p false) → x = Some (TPut p false)) →
  (∀ q, q ∈ z → q ∈ alate a ∨ ∃ p, q = (c, p) ∧ x = Some (TPut p false)) →
  (∀ c', cls !! c' = if decide (c = c') then x else clients ls !! c') →
  hrel (i + 1) (mkAState (aserver a) z (<[c := x]> (aclient a)) tr) (mkState (server ls) cls).
Proof.
  intros [H1' H2' H3' H4' H5' H6' H7' H8'] Hx1 Hx2 Hx3 Hz Hcls.
  assert (∀ c' y, <[c := x]> (aclient a) c' = y → c' = c ∧ x = y ∨ c' ≠ c ∧ aclient a c' = y) as Hins.
  { intros c' y. destruct (decide (c = c')) as [<-|Hne]; [rewrite fn_lookup_insert | rewrite fn_lookup_insert_ne by done]; auto. }
  split; simpl; try done.
  - intros c'. rewrite Hcls. case_decide; [subst; by rewrite fn_lookup_insert | by rewrite fn_lookup_insert_ne].
  - intros c' p f [[_ Hp]|[_ Hp]]%Hins; eauto.
  - intros c' p e [[_ Hp]|[_ Hp]]%Hins; eauto.
  - intros k. specialize (H7' k). lia.
  - intros c' p [Hp|(p' & [= -> ->] & Hxp)]%Hz; [| right; by rewrite fn_lookup_insert].
    destruct (H8' c' p Hp) as [?|Hc]; [by left |]. right.
    destruct (decide (c = c')) as [<-|Hne]; [rewrite fn_lookup_insert; auto | by rewrite fn_lookup_insert_ne].
Qed.

(** The Put a client is trying runs at the server. *)
Lemma hrel_put i a ls c p f x z cls :
  hrel i a ls → i + 1 < two64 → aclient a c = Some (TPut p f) → PutArgs_Version p ≤ ver_of (vs_abs (aserver a)) (PutArgs_Key p) →
  x = TPut p false ∨ x = TPutDone p (Put_result f (vs_Put (aserver a) p PutReply_zero).2) →
  (∀ q, q ∈ z → q ∈ alate a) → (∀ c', cls !! c' = if decide (c = c') then Some x else clients ls !! c') →
  hrel (i + 1) (mkAState (vs_Put (aserver a) p PutReply_zero).1 z (<[c := Some x]> (aclient a)) (atrace a))
    (mkState (vs_Put (server ls) p PutReply_zero).1 cls) ∧
  (vs_Put (server ls) p PutReply_zero).2 = (vs_Put (aserver a) p PutReply_zero).2.
Proof.
  intros [H1' H2' H3' H4' H5' H6' H7' H8'] Hi Hc Hseen Hx Hz Hcls.
  destruct (seen_put (aserver a) (server ls) p i) as (Hok1 & Hok2 & Habs & Hrep & Hno & Hlt & Hv & Hgrow); try done; [by eauto |].
  split; [| done].
  assert (∀ c' y, <[c := Some x]> (aclient a) c' = y → c' = c ∧ Some x = y ∨ c' ≠ c ∧ aclient a c' = y) as Hins.
  { intros c' y. destruct (decide (c = c')) as [<-|Hne]; [rewrite fn_lookup_insert | rewrite fn_lookup_insert_ne by done]; auto. }
  split; simpl; try done.
  - intros c'. rewrite Hcls. case_decide; [subst; by rewrite fn_lookup_insert | by rewrite fn_lookup_insert_ne].
  - intros c' p' f' [[_ [= Hp]]|[_ Hp]]%Hins; [| eauto]. destruct Hx; subst; [| done]. simplify_eq. eauto.
  - intros c' p' e [[_ [= Hp]]|[_ Hp]]%Hins; [| eauto]. destruct Hx; subst; [done |]. simplify_eq.
    unfold Put_result. repeat case_decide; try done. by destruct f.
  - intros c' p' Hp%Hz. destruct (H8' c' p' Hp) as [Hl|Hc'].
    + left. specialize (Hgrow (PutArgs_Key p')). lia.
    + destruct (decide (c = c')) as [<-|Hne]; [| right; by rewrite fn_lookup_insert_ne]. rewrite Hc in Hc'. simplify_eq. by left.
Qed.

Lemma hrel_ext i a a' ls :
  hrel i a ls → aserver a' = aserver a → alate a' = alate a → (∀ c, aclient a' c = aclient a c) → hrel i a' ls.
Proof.
  intros [H1' H2' H3' H4' H5' H6' H7' H8'] E1 E2 E3.
  split; rewrite ?E1, ?E2; try done; intros c; rewrite ?E3; eauto.
Qed.

(** A request nobody waits for any more runs: it is outdated, or as good as a
    lost reply. *)
Lemma hrel_late i a ls z1 c p z2 :
  hrel i a ls → i + 1 < two64 → seen (aserver a) (aclient a) → alate a = z1 ++ (c, p) :: z2 →
  ∃ ls', (ls' = ls ∨ step ls None ls') ∧
    hrel (i + 1) (mkAState (vs_Put (aserver a) p PutReply_zero).1 (z1 ++ z2) (aclient a) (atrace a)) ls'.
Proof.
  intros Hrel Hi Hseen Hz. pose proof Hrel as [H1' H2' H3' H4' H5' H6' H7' H8'].
  assert ((c, p) ∈ alate a) as Hin by (rewrite Hz; set_solver).
  assert (∀ q, q ∈ z1 ++ z2 → q ∈ alate a) as Hsub by (intros q; rewrite Hz; set_solver).
  destruct (H8' c p Hin) as [Hlt|Ha].
  - destruct (outdated_put (aserver a) p H1' Hlt) as [Hok Habs]. exists ls. split; [by left |].
    split; simpl; rewrite ?Habs; try done; [intros k; specialize (H7' k); lia | intros c' p' Hp%Hsub; by apply H8'].
  - eexists. split; [right; eapply put_reply_lost; by rewrite H4' |].
    eapply hrel_ext; [eapply (hrel_put i a ls c p false (TPut p false) (z1 ++ z2)); [done.. | by eauto | by left | done |] | done | done |].
    + intros c'. case_decide; [subst; by rewrite lookup_insert_eq | by rewrite lookup_insert_ne].
    + intros c'. simpl. destruct (decide (c = c')) as [<-|Hne]; [by rewrite fn_lookup_insert | by rewrite fn_lookup_insert_ne].
Qed.

(** One step: at most one step of [Linearizability], with the same event. *)
Lemma hrel_step i a ls a' :
  hrel i a ls → i + 1 < two64 → seen (aserver a) (aclient a) → astep hist_clients a a' →
  ∃ e ls', (e = None ∧ ls' = ls ∨ step ls e ls') ∧ hrel (i + 1) a' ls' ∧
    history (atrace a') = history (atrace a) ++ option_list e ∧
    ∀ c p, e ≠ Some (Res c (put_input p) (put_output ErrNoKey)).
Proof.
  intros Hrel Hi Hseen Hs. pose proof Hrel as [H1' H2' H3' H4' H5' H6' H7' H8'].
  assert (∀ (m : gmap nat Task) c t c', <[c := t]> m !! c' = if decide (c = c') then Some t else m !! c') as Hput.
  { intros m c t c'. case_decide; [subst; by rewrite lookup_insert_eq | by rewrite lookup_insert_ne]. }
  assert (∀ (m : gmap nat Task) c c', delete c m !! c' = if decide (c = c') then None else m !! c') as Hdel.
  { intros m c c'. case_decide; [subst; by rewrite lookup_delete_eq | by rewrite lookup_delete_ne]. }
  destruct Hs as [a c x Hx|a c p Hc|a c p Hc|a c p Hc|a c p Hc|a c p Hc r|a z1 c p z2 Hz]; simpl in *.
  - unfold history. rewrite omap_app. inversion Hx as [k Ha|p Hp Ha|k r Ha|p e Ha]; subst x; symmetry in Ha; rewrite ?Ha; simpl.
    + eexists (Some _), _. split; [right; apply inv_get; by rewrite H4' |]. split; [| done].
      eapply hrel_client; [done.. | naive_solver | naive_solver | apply Hput].
    + eexists (Some _), _. split; [right; apply (inv_put ls c p); [by rewrite H4' | done] |]. split; [| done].
      eapply hrel_client; [done | intros ? ? [= <- _]; lia | done | naive_solver | naive_solver | apply Hput].
    + eexists (Some _), _. split; [right; eapply res_get; by rewrite H4' |]. split; [| done].
      eapply hrel_client; [done.. | naive_solver | naive_solver | apply Hdel].
    + eexists (Some _), _. split; [right; eapply res_put; by rewrite H4' |]. split; [| split; [done |]].
      * eapply hrel_client; [done.. | naive_solver | naive_solver | apply Hdel].
      * intros c' p' [= _ _ _ _ E]. apply (H6' c p e Ha). by destruct e.
  - destruct (aclient a c) as [[k|p' f|k r|p' e]|] eqn:Ha; simplify_eq. eexists None, _.
    split; [right; eapply get_replied; by rewrite H4' |]. split; [| split; [by rewrite app_nil_r | done]].
    rewrite (vs_Get_spec _ _ H2'), H3', <- (vs_Get_spec _ _ H1').
    eapply hrel_client; [done.. | naive_solver | naive_solver | apply Hput].
  - destruct (aclient a c) as [[k|p' f|k r|p' e]|] eqn:Ha; simplify_eq. eexists None, _.
    split; [right; eapply put_dropped; by rewrite H4' |]. split; [| split; [by rewrite app_nil_r | done]].
    eapply hrel_client; [done | intros ? ? [= <- _]; eauto | done | naive_solver | naive_solver | apply Hput].
  - destruct (aclient a c) as [[k|p' f|k r|p' e]|] eqn:Ha; simplify_eq. eexists None, _.
    split; [right; eapply put_dropped; by rewrite H4' |]. split; [| split; [by rewrite app_nil_r | done]].
    eapply hrel_client; [done | intros ? ? [= <- _]; eauto | done | naive_solver | | apply Hput].
    intros q [->|Hq]%elem_of_cons; [right; by exists p | by left].
  - destruct (aclient a c) as [[k|p' f|k r|p' e]|] eqn:Ha; simplify_eq. eexists None, _.
    split; [right; eapply put_reply_lost; by rewrite H4' |]. split; [| split; [by rewrite app_nil_r | done]].
    eapply hrel_put; [done.. | by eauto | by left | done | apply Hput].
  - destruct (aclient a c) as [[k|p' f|k r'|p' e]|] eqn:Ha; simplify_eq. eexists None, _.
    split; [right; eapply put_replied; by rewrite H4' |]. split; [| split; [by rewrite app_nil_r | done]].
    destruct (hrel_put i a ls c p f (TPutDone p (Put_result f r.2)) (alate a) (<[c := TPutDone p (Put_result f r.2)]> (clients ls)))
      as [Hfin Hrep]; [done.. | by eauto | by right | done | apply Hput |]. by rewrite Hrep.
  - destruct (hrel_late i a ls z1 c p z2 Hrel Hi Hseen Hz) as (ls' & Hst & Hfin). exists None, ls'.
    split; [naive_solver |]. split; [done | split; [by rewrite app_nil_r | done]].
Qed.

(** A run, and the history it leaves. *)
Lemma hist_run m (w : S) a :
  vs_ok w → vs_abs w = ∅ → Z.of_nat m < two64 →
  nsteps (λ a a', astep hist_clients a a' ∧ seen (aserver a) (aclient a)) m (mkAState w [] (λ _, None) []) a →
  ∃ n ls, (n ≤ m)%nat ∧ hrel (Z.of_nat m) a ls ∧ Run n (mkState w ∅) (history (atrace a)) ls ∧
    ∀ c p, Res c (put_input p) (put_output ErrNoKey) ∉ history (atrace a).
Proof.
  intros Hok Habs. revert a. induction m as [|m IH]; intros a Hm Hn.
  - inversion Hn; subst. exists 0%nat, (mkState w ∅). split_and!; [lia | | constructor | by intros ? ? ?%not_elem_of_nil].
    split; simpl; try done; try (by intros ? ? ?%not_elem_of_nil).
    intros k. rewrite Habs. unfold ver_of. by rewrite lookup_empty.
  - apply nsteps_inv_r in Hn as (a1 & Hn & Hs & Hseen). destruct (IH a1) as (n & ls & Hle & Hrel & Hrun & Hno); [lia | done |].
    destruct (hrel_step (Z.of_nat m) a1 ls a Hrel) as (e & ls' & Hst & Hrel' & Htr & He); [lia | done | done |].
    rewrite Htr. replace (Z.of_nat (Datatypes.S m)) with (Z.of_nat m + 1) by lia.
    assert (∀ c p, Res c (put_input p) (put_output ErrNoKey) ∉ history (atrace a1) ++ option_list e) as Hno'.
    { intros c p [Hin|Hin]%elem_of_app; [by eapply Hno |]. destruct e as [e|]; simpl in Hin; [| by apply not_elem_of_nil in Hin].
      apply list_elem_of_singleton in Hin. subst. by apply (He c p). }
    destruct Hst as [[-> ->]|Hst].
    + exists n, ls. rewrite app_nil_r in *. split_and!; [lia | done..].
    + exists (Datatypes.S n), ls'. split_and!; [lia | done | by eapply Run_snoc | done].
Qed.

End history.

(** ** The properties *)

(** C3: the network implements the clerks' transport.  Clients of any kind
    call [Get] and [Put] on the server through the simulated network, while
    the network loses and delays messages, is reconfigured and cleaned up,
    and handlers run in their own goroutines.  Every state this system
    reaches corresponds to a state the clients reach over the abstract
    transport of dropped, lost, late and answered attempts, with the same
    server, the same sequence of steps of the clients outside their RPCs, and
    the same client wherever no RPC is in progress. *)
Theorem network_refines_transport {S C : Type} `{VStore S, WireCodec} (M : Clients C) (w : S) (rn : Labrpc.Network)
    (cl : nat → C) (s : NState)
    (Hs : rtc (nstep M) (ninit w rn cl) s) :
  ∃ a, rtc (astep M) (mkAState w [] cl []) a ∧ aserver a = Labrpc.world (lab s) ∧ atrace a = trace s ∧
    ∀ c, call M (client s c) = None ∨ waiting s c = None → aclient a c = client s c.
Proof.
  apply rtc_nsteps_1 in Hs as [n Hn].
  destruct (network_run M (λ _ _, True) n w rn cl s) as (m & a & _ & Ha & Hr).
  { eapply nsteps_subrel; [| exact Hn]. done. }
  exists a. split; [| done]. apply rtc_nsteps_2 in Ha. eapply rtc_subrel; [| exact Ha]. by intros ? ? [].
Qed.

(** C6: mutual exclusion over the simulated network.  Clients with distinct,
    non-empty ids call [Acquire] and [Release] of one lock, their RPCs going
    through the network as written.  At most one client is between the return
    of its [Acquire] and its call of [Release], and the server's value for
    the lock is its id.  (Runs in which the lock's version does not wrap.) *)
Theorem lock_over_network {S : Type} `{VStore S, WireCodec} (l : string) (id : nat → string)
    `{Hinj : !Inj (=) (=) id} (Hne : ∀ c, id c ≠ "") (srv : S) (rn : Labrpc.Network) (s : NState) :
  vs_ok srv → vs_abs srv !! l = None →
  rtc (λ s s', nstep (lock_clients l id) s s' ∧ ver_of (vs_abs (Labrpc.world (lab s))) l + 1 < two64)
    (ninit srv rn (λ _, KVLock.Idle)) s →
  (∀ c1 c2, client s c1 = KVLock.Holding → client s c2 = KVLock.Holding → c1 = c2) ∧
  (∀ c, client s c = KVLock.Holding → val_of (vs_abs (Labrpc.world (lab s))) l = id c).
Proof.
  intros Hok Hl [n Hn]%rtc_nsteps_1.
  destruct (network_run (lock_clients l id) (λ w _, ver_of (vs_abs w) l + 1 < two64) n srv rn (λ _, KVLock.Idle) s)
    as (m & a & _ & Ha & Hsv & _ & Hcl).
  { eapply nsteps_subrel; [| exact Hn]. by intros ? ? []. }
  assert (rtc (KVLock.step_nw l id) (KVLock.mkState srv [] (λ _, KVLock.Idle)) (lock_state a)) as Hr.
  { apply rtc_nsteps_2 in Ha. eapply (rtc_congruence lock_state) in Ha; [exact Ha |].
    intros a1 a2 [Hs Hv]. split; [by apply lock_astep | done]. }
  apply (KVLock.lock_reachable_inv l id Hne) in Hr as [_ _ _ Hinv _]; [| by apply KVLock.lock_inv_init].
  assert (∀ c, client s c = KVLock.Holding → val_of (vs_abs (Labrpc.world (lab s))) l = id c) as Hval.
  { intros c Hc. specialize (Hinv c). simpl in Hinv. rewrite Hcl, Hc in Hinv by (left; by rewrite Hc). by rewrite <- Hsv. }
  split; [| done]. intros c1 c2 H1' H2'. apply (inj id). rewrite <- (Hval c1 H1'). by apply Hval.
Qed.

(** The append test passes over the simulated network. *)
Theorem appends_over_network {S : Type} `{VStore S, WireCodec} `{KVTest.Marshal (list KVTest.entry)} (n : nat) (srv : S)
    (b : string) (rn : Labrpc.Network) (s : NState) :
  vs_ok srv → vs_abs srv !! "k" = Some (b, 1) → KVTest.unmarshal b = Some [] →
  rtc (nstep_nw KVTest.OneClientAppend_body KVTest.OneClientAppend_stop KVTest.appends_small)
    (ninit srv rn (KVTest.append_start n)) s →
  (∀ c f, client s c ≠ ClerkProg.Running ClerkProg.Fatal f) ∧
  ∀ rs order, length rs = n → (∀ c r, rs !! c = Some r → client s c = ClerkProg.Finished r) →
    ver_of (vs_abs (Labrpc.world (lab s))) "k" < KVTest.two62 → (∀ m, order m ≡ₚ map_to_list m) →
    ∃ es ver F, KVTest.GetJson (V := list KVTest.entry) "k" = ClerkProg.ClerkGet "k" F ∧
      F (ClerkProg.got (vs_abs (Labrpc.world (lab s))) "k") = ClerkProg.Done (es, ver) ∧
      KVTest.CheckAppends order es n rs ver = Ret ().
Proof.
  intros Hok Hb Hu Hr. apply prog_network_run in Hr as (s' & Hr & Hsv & Hcl).
  destruct (KVTest.appends_outcome false n srv b s' Hok Hb Hu Hr) as [Hf Hc]. rewrite Hsv in Hc. split.
  - intros c f E. apply (Hf c f). rewrite <- E. apply Hcl. by rewrite E.
  - intros rs order Hlen Hres. apply Hc. split; [done |]. intros c r Hcr. rewrite <- (Hres c r Hcr). apply Hcl.
    by rewrite (Hres c r Hcr).
Qed.

(** C4: linearizability over the simulated network.  Any number of clients
    call [Get] and [Put] of the clerk through the network, from a server with
    no keys.  If clients put only versions that the server has reached when
    they put (versions they have seen, 0 for a new key), and fewer than 2^64
    steps are taken, the history of their calls and returns is linearizable
    for the model of [models1/kv.go]. *)
Theorem network_histories_linearizable {S : Type} `{VStore S, WireCodec} (srv : S) (rn : Labrpc.Network) (n : nat) (s : NState) :
  vs_ok srv → vs_abs srv = ∅ → Z.of_nat n < two64 →
  nsteps (λ s s', nstep hist_clients s s' ∧ seen (Labrpc.world (lab s)) (client s)) n (ninit srv rn (λ _, None)) s →
  Linearizability.linearizable (history (trace s)).
Proof.
  intros Hok Habs Hlt Hn.
  destruct (network_run hist_clients seen n srv rn (λ _, None) s) as (m & a & Hm & Ha & _ & Htr & _).
  { eapply nsteps_subrel; [| exact Hn]. intros s1 s2 [Hs Hseen]. split; [done |]. intros x Hx c p f Hc.
    specialize (Hx c). rewrite Hc in Hx. specialize (Hseen c p). inversion Hx as [E|g r Hcl E|q r Hcl E|q Hcl E]; simpl in *.
    - by eapply Hseen.
    - destruct (client s1 c) as [[]|]; simplify_eq; by eapply Hseen.
    - destruct (client s1 c) as [[]|]; simplify_eq; by eapply Hseen.
    - destruct (client s1 c) as [[]|]; simplify_eq; by eapply Hseen. }
  destruct (hist_run m srv a Hok Habs) as (k & ls & Hk & _ & Hrun & Hno); [lia | done |].
  rewrite <- Htr. apply (Linearizability.run_linearizable srv k _ ls); [done.. | lia | done].
Qed.

(** *** Witnesses: one client over a network that works *)

#[local] Existing Instance bit_wire.

Definition ex_net : Labrpc.Network := Labrpc.counter_net.

Lemma ex_up {C : Type} w (cl : nat → C) : up (S := KVServer.KVServer) "e" "s" (ninit w ex_net cl).
Proof. split; [by vm_compute |]. split; [| done]. by eexists. Qed.

(** A client steps on its own while the network is up. *)
Lemma local_step {C : Type} (M : Clients C) (s : @NState KVServer.KVServer C) c x :
  ninv M s → up "e" "s" s → waiting s c = None → local M c (client s c) x →
  let s' := mkNState (lab s) (serving s) (closed s) (<[c := x]> (client s)) (waiting s) (calls s) (received s)
              (trace s ++ [(c, client s c, x)]) in
  nstep M s s' ∧ ninv M s' ∧ up "e" "s" s'.
Proof. intros Hi Hup Hw Hl s'. split; [by apply n_local |]. split; [by apply ninv_local | done]. Qed.

(** The client's put succeeds; it has seen version 0. *)
Lemma ex_net_put_run :
  ∃ s, nsteps (λ s s', nstep hist_clients s s' ∧ seen (Labrpc.world (lab s)) (client s)) 9
         (ninit KVServer.MakeKVServer ex_net (λ _, None)) s ∧
       history (trace s) = [Linearizability.Inv 0 (Linearizability.put_input Linearizability.maybe_args);
                            Linearizability.Res 0 (Linearizability.put_input Linearizability.maybe_args) (Linearizability.put_output OK)] ∧
       client s 0%nat = None ∧ waiting s 0%nat = None.
Proof.
  set (t := Some (Linearizability.TPut Linearizability.maybe_args true)).
  destruct (local_step hist_clients (ninit KVServer.MakeKVServer ex_net (λ _, None)) 0%nat t) as (H1 & Hi1 & Hu1);
    [apply ninv_init | apply ex_up | done | constructor; vm_compute; split; [discriminate | reflexivity] |].
  match type of H1 with nstep _ _ ?x => set (s1 := x) in * end.
  assert (∀ w x, (∀ k, 0 ≤ ver_of (vs_abs w) k) → (∀ c, ahead hist_clients (client s1 c) (x c)) → seen (w : KVServer.KVServer) x) as Hseen.
  { intros w x Hv Hx c p f Hc. specialize (Hx c). simpl in Hx. destruct c as [|c].
    - rewrite fn_lookup_insert in Hx. rewrite Hc in Hx. inversion Hx; simplify_eq; apply Hv.
    - rewrite fn_lookup_insert_ne in Hx by done. rewrite Hc in Hx. inversion Hx; simplify_eq. }
  assert (∀ k, 0 ≤ ver_of (vs_abs (handled KVServer.MakeKVServer (CPut Linearizability.maybe_args))) k) as Hv2.
  { intros k. assert (vs_abs (handled KVServer.MakeKVServer (CPut Linearizability.maybe_args)) = {[ "k"%string := ("v"%string, 1) ]}) as ->
      by (vm_compute; reflexivity).
    unfold ver_of. destruct (decide ("k"%string = k)) as [<-|Hne]; [by rewrite lookup_singleton_eq | by rewrite lookup_singleton_ne]. }
  destruct (call_goes_through hist_clients seen s1 0%nat (CPut Linearizability.maybe_args) "e" "s"
              (Labrpc.mkReqMsg "e" "KVServer.Put" (default "" (RpcCall.encode Linearizability.maybe_args))))
    as (s2 & H2 & Hu2 & Hw2 & Ht2 & Hwt2 & Hc2 & _); [done | done | done | reflexivity | reflexivity | |].
  { intros x Hx. split; [by apply Hseen | by apply Hseen]. }
  exists (mkNState (lab s2) (serving s2) (closed s2) (<[0%nat := None]> (client s2)) (waiting s2) (calls s2) (received s2)
            (trace s2 ++ [(0%nat, client s2 0%nat, None)])).
  assert (client s2 0%nat = Some (Linearizability.TPutDone Linearizability.maybe_args OK)) as Hd.
  { rewrite Hc2. vm_compute. reflexivity. }
  assert (waiting s2 0%nat = None) as Hw0 by (by rewrite Hwt2, fn_lookup_insert).
  split_and!.
  - eapply nsteps_l; [split; [exact H1 | by intros c p f] |]. eapply (nsteps_trans 7 1).
    + eapply nsteps_subrel; [| exact H2]. intros a a' [Ha Hp]. split; [done | apply Hp; intros c; apply ahead_same].
    + apply nsteps_once. split; [apply n_local; [done | rewrite Hd; constructor] |].
      rewrite Hc2. intros c p f. simpl. destruct c as [|c].
      * rewrite fn_lookup_insert. vm_compute. discriminate.
      * rewrite fn_lookup_insert_ne by done. simpl. by rewrite fn_lookup_insert_ne.
  - simpl. rewrite Ht2, Hd. simpl. reflexivity.
  - simpl. by rewrite fn_lookup_insert.
  - done.
Qed.

Lemma network_histories_linearizable_witness :
  ∃ s : @NState KVServer.KVServer (option Linearizability.Task),
    history (trace s) ≠ [] ∧ Linearizability.linearizable (history (trace s)).
Proof.
  destruct ex_net_put_run as (s & Hn & Hh & _). exists s. split; [rewrite Hh; discriminate |].
  apply (network_histories_linearizable (H := KVServer_VStore) (H0 := bit_wire) KVServer.MakeKVServer ex_net 9 s);
    [exact KVServer.MakeKVServer_wf | reflexivity | vm_compute; reflexivity | exact Hn].
Defined.

Lemma network_refines_transport_witness :
  ∃ (s : @NState KVServer.KVServer (option Linearizability.Task)) a,
    rtc (astep hist_clients) (mkAState KVServer.MakeKVServer [] (λ _, None) []) a ∧ trace s ≠ [] ∧ atrace a = trace s ∧
    aclient a 0%nat = None.
Proof.
  destruct ex_net_put_run as (s & Hn & Hh & Hc & Hw). exists s.
  destruct (network_refines_transport (H := KVServer_VStore) (H0 := bit_wire) hist_clients KVServer.MakeKVServer ex_net (λ _, None) s) as (a & Ha & _ & Ht & Hcl).
  - eapply rtc_subrel; [| exact (rtc_nsteps_2 _ _ _ Hn)]. intros ? ? [H1 _]. exact H1.
  - exists a. split; [exact Ha |]. split; [intros E; rewrite E in Hh; discriminate |]. split; [exact Ht |].
    rewrite (Hcl 0%nat (or_intror Hw)). exact Hc.
Defined.

(** The client takes the lock of a fresh server. *)
Lemma ex_lock_run :
  ∃ s, rtc (λ s s', nstep (lock_clients "l" KVLock.ex_id) s s' ∧ ver_of (vs_abs (Labrpc.world (lab s))) "l" + 1 < two64)
         (ninit KVServer.MakeKVServer ex_net (λ _, KVLock.Idle)) s ∧ client s 0%nat = KVLock.Holding.
Proof.
  set (M := lock_clients "l" KVLock.ex_id). set (P := λ (w : KVServer.KVServer) (_ : nat → KVLock.Client), ver_of (vs_abs w) "l" + 1 < two64).
  set (put := CPut (mkPutArgs "l" "client-0" 0)). set (get := CGet (mkGetArgs "l")).
  destruct (local_step M (ninit KVServer.MakeKVServer ex_net (λ _, KVLock.Idle)) 0%nat
              (KVLock.Acquiring (KVLock.Acquire_body (KVLock.lk "l" KVLock.ex_id 0)) true)) as (H1 & Hi1 & Hu1);
    [apply ninv_init | apply ex_up | done | constructor |].
  match type of H1 with nstep _ _ ?x => set (s1 := x) in * end.
  destruct (call_goes_through M P s1 0%nat get "e" "s"
              (Labrpc.mkReqMsg "e" "KVServer.Get" (default "" (RpcCall.encode (mkGetArgs "l")))))
    as (s2 & H2 & Hu2 & Hw2 & _ & Hwt2 & Hc2 & _); [done | done | done | reflexivity | reflexivity | done |].
  assert (ninv M s2) as Hi2.
  { eapply ninv_steps; [exact Hi1 |]. eapply rtc_subrel; [| exact (rtc_nsteps_2 _ _ _ H2)]. by intros ? ? []. }
  destruct (call_goes_through M P s2 0%nat put "e" "s"
              (Labrpc.mkReqMsg "e" "KVServer.Put" (default "" (RpcCall.encode (mkPutArgs "l" "client-0" 0)))))
    as (s3 & H3 & Hu3 & Hw3 & _ & Hwt3 & Hc3 & _);
    [done | done | by rewrite Hwt2, fn_lookup_insert | rewrite Hc2; reflexivity | reflexivity | rewrite Hw2; done |].
  assert (client s3 0%nat = KVLock.Acquiring (ClerkProg.Done true) true) as Hd.
  { rewrite Hc3, Hw2, Hc2. reflexivity. }
  eexists. split.
  - eapply rtc_l; [split; [exact H1 | done] |]. etransitivity; [| etransitivity].
    + eapply rtc_subrel; [| exact (rtc_nsteps_2 _ _ _ H2)]. intros a a' [Ha Hp]. split; [done |]. apply (Hp (client a)). intros c. apply ahead_same.
    + eapply rtc_subrel; [| exact (rtc_nsteps_2 _ _ _ H3)]. intros a a' [Ha Hp]. split; [done |]. apply (Hp (client a)). intros c. apply ahead_same.
    + apply rtc_once. split; [apply (n_local M s3 0%nat KVLock.Holding); [by rewrite Hwt3, fn_lookup_insert | rewrite Hd; constructor] |].
      rewrite Hw3, Hw2. done.
  - simpl. by rewrite fn_lookup_insert.
Qed.

Lemma lock_over_network_witness :
  ∃ s : @NState KVServer.KVServer KVLock.Client, client s 0%nat = KVLock.Holding ∧
    (∀ c, client s c = KVLock.Holding → c = 0%nat) ∧ val_of (vs_abs (Labrpc.world (lab s))) "l" = "client-0".
Proof.
  destruct ex_lock_run as (s & Hr & Hc). exists s.
  destruct (lock_over_network (H := KVServer_VStore) (H0 := bit_wire) "l" KVLock.ex_id KVLock.ex_id_ne KVServer.MakeKVServer ex_net s
              KVServer.MakeKVServer_wf eq_refl Hr) as [Hex Hval].
  split; [exact Hc |]. split; [intros c Hc'; exact (Hex c 0%nat Hc' Hc) | exact (Hval 0%nat Hc)].
Defined.

(** A client that is stopped before its first append. *)
Lemma appends_over_network_witness :
  ∃ es ver, KVTest.CheckAppends (λ m, map_to_list m) es 1 [KVTest.mkClntRes 0 0] ver = Ret ().
Proof.
  set (M := prog_clients (KVTest.OneClientAppend_body (H := KVTest.ex_marshal)) KVTest.OneClientAppend_stop).
  destruct (local_step M (ninit KVTest.ex_store ex_net (KVTest.append_start 1)) 0%nat (ClerkProg.Finished (KVTest.mkClntRes 0 0))) as (H1 & _ & _);
    [apply ninv_init | apply ex_up | done | by constructor |].
  match type of H1 with nstep _ _ ?x => set (s1 := x) in * end.
  destruct (appends_over_network (H := KVServer_VStore) (H0 := bit_wire) (H1 := KVTest.ex_marshal) 1 KVTest.ex_store KVTest.ex_empty ex_net s1) as [_ Hc].
  - exact (KVServer.Put_wf _ _ _ KVServer.MakeKVServer_wf).
  - reflexivity.
  - vm_compute. reflexivity.
  - apply rtc_once. split; [exact H1 |]. split.
    + intros k. apply Z.lt_add_lt_sub_r. apply KVTest.ver_of_bound; [vm_compute; reflexivity |].
      apply (bool_decide_unpack _). vm_compute. exact I.
    + intros cl Hcl c l f E. specialize (Hcl c). rewrite E in Hcl. destruct c as [|c]; inversion Hcl; simplify_eq/=; vm_compute; reflexivity.
  - destruct (Hc [KVTest.mkClntRes 0 0] (λ m, map_to_list m)) as (es & ver & _ & _ & _ & Hck).
    + reflexivity.
    + intros [|c] r; [intros [= <-]; reflexivity | done].
    + vm_compute. reflexivity.
    + done.
    + exists es, ver. exact Hck.
Defined.

End KVNetApps.
