(* ===== verification/KVNetTests.v ===== *)
(** * The tests of the store over the simulated network

    [SpawnClientsAndWait] ([KVSpawn]) with clients whose clerk calls go through
    the network of [KVNet]: the test's goroutine with its channels, the
    clients' loops, the network goroutine, the requests under way and the
    server are one transition system.  What [KVSpawn] says of the channels and
    [KVNetApps] of the network gives the verdicts of the whole tests. *)

From S2P Require Import Prelude KVServer KVClerk Labrpc RpcCall ClerkProg KVTest KVTestPuts KVSpawn KVNet KVNetApps.
#[local] Open Scope Z_scope.

Module KVNetTests.
Import KVNet KVNetApps KVSpawn.

(** ** Clients over the network *)

Section runner.
Context {S : Type} `{VStore S, WireCodec} {A R : Type}.
Context (body : nat → Z → A → ClerkProg.Prog A) (stop : A → option R).

Abbreviation Net := (@NState S (ClerkProg.Client A R)).
Abbreviation M := (prog_clients body stop).

Definition net_result (s : Net) (c : nat) : option R :=
  match client s c with ClerkProg.Finished r => Some r | _ => None end.

(** A client's own step between calls. *)
Definition set_local (s : Net) (c : nat) (x : ClerkProg.Client A R) : Net :=
  mkNState (lab s) (serving s) (closed s) (<[c := x]> (client s)) (waiting s) (calls s) (received s)
    (trace s ++ [(c, client s c, x)]).

(** Steps of the network, in which no client takes part. *)
Definition net_env (s s' : Net) : Prop := nstep M s s' ∧ client s' = client s ∧ waiting s' = waiting s.

(** Steps of client [c] in a call: sending the request, receiving the reply or
    finding the network gone. *)
Definition net_work (c : nat) (s s' : Net) : Prop :=
  nstep M s s' ∧ is_Some (call M (client s c)) ∧
  ∀ k, k ≠ c → client s' k = client s k ∧ waiting s' k = waiting s k.

Inductive net_round (c : nat) : bool → Net → Net → Prop :=
| nr_round s a first rnd :
    client s c = ClerkProg.Running (ClerkProg.Done a) first → waiting s c = None →
    net_round c (bool_decide (is_Some (stop a))) s (set_local s c (ClerkProg.Running (body c rnd a) true)).
Inductive net_take (c : nat) (r : R) : Net → Net → Prop :=
| nt_take s a first :
    client s c = ClerkProg.Running (ClerkProg.Done a) first → waiting s c = None → stop a = Some r →
    net_take c r s (set_local s c (ClerkProg.Finished r)).

Definition net_runner : Runner Net R := mkRunner _ _ net_result net_env net_work net_round net_take.

(** A client in a call stays in its program, however the call ends. *)
Lemma call_running s s' c :
  nstep M s s' → is_Some (call M (client s c)) → net_result s c = None ∧ net_result s' c = None.
Proof.
  intros Hs Hc. assert (∀ x, is_Some (call M x) → ∃ p f, x = ClerkProg.Running p f) as Hrun.
  { intros [p f|r]; [by eauto | by intros []]. }
  assert (∀ s : Net, (∃ p f, client s c = ClerkProg.Running p f) → net_result s c = None) as Hres.
  { intros s0 (p & f & E). unfold net_result. by rewrite E. }
  assert (∀ x, is_Some (call M x) → ∃ p f, put_failed M x = ClerkProg.Running p f) as Hfail.
  { intros x (p & f & ->)%Hrun. simpl. destruct p; eauto. }
  split; [by apply Hres, Hrun |]. apply Hres.
  destruct Hs as [s l Hl Hn|s Hcl|s Hcl Hsv|s k cl e req Hw Hk Hq Hsv|s k cl Hw Hk Hcl|s k q cl req ok bytes d x Hw Hk Hq Ha|s k x Hw Hx];
    simpl; try (by apply Hrun).
  - destruct (decide (k = c)) as [->|Hne]; [rewrite fn_lookup_insert | rewrite fn_lookup_insert_ne by done; by apply Hrun].
    destruct cl; [by apply Hrun | by apply Hfail].
  - destruct (decide (k = c)) as [->|Hne]; [rewrite fn_lookup_insert | rewrite fn_lookup_insert_ne by done; by apply Hrun].
    destruct (Hrun _ Hc) as (p & f & E). rewrite E in *. destruct cl; simpl in Ha; unwrap_go; simplify_eq; simpl; case_match; eauto;
      destruct p; simplify_eq/=; eauto.
  - destruct (decide (k = c)) as [->|Hne]; [| rewrite fn_lookup_insert_ne by done; by apply Hrun].
    simpl in Hx. destruct Hc as [cl Hc]. inversion Hx as [a f rnd E|a f r Hr E]; rewrite <- E in Hc; discriminate.
Qed.

#[export] Instance net_runner_laws : RunnerLaws net_runner.
Proof.
  split; simpl.
  - intros s s' c (_ & E & _). unfold net_result. by rewrite E.
  - intros s s' k c (Hs & Hc & Hoth). destruct (decide (c = k)) as [->|Hne].
    + by destruct (call_running s s' k Hs Hc) as [-> ->].
    + unfold net_result. by rewrite (proj1 (Hoth c Hne)).
  - intros s s' k b c [s0 a f rnd Hc Hw]. unfold net_result. simpl. destruct (decide (k = c)) as [<-|Hne];
      [by rewrite fn_lookup_insert, Hc | by rewrite fn_lookup_insert_ne].
  - intros s s' c r [s0 a f Hc Hw Hst]. unfold net_result. simpl. split; [by rewrite fn_lookup_insert |].
    intros k Hk. by rewrite fn_lookup_insert_ne.
Qed.

Lemma net_moves s s' : moves net_runner s s' → nstep M s s'.
Proof.
  intros [[Hs _]|c [Hs _]|c b [s0 a f rnd Hc Hw]|c r [s0 a f Hc Hw Hst]]; [done | done | |];
    (apply n_local; [done |]; simpl; rewrite Hc; by constructor).
Qed.

(** And every step of the clients over the network is one of these. *)
Lemma net_moves_all s s' : nstep M s s' → moves net_runner s s'.
Proof.
  intros Hs. pose proof Hs as Hs'.
  destruct Hs' as [s l Hl Hn|s Hcl|s Hcl Hsv|s k cl e req Hw Hk Hq Hsv|s k cl Hw Hk Hcl|s k q cl req ok bytes d x Hw Hk Hq Ha|s k x Hw Hx].
  1-3: by apply mv_env.
  1-3: apply (mv_work _ _ _ k); (split; [done |]); (split; [by rewrite Hk |]); intros c' Hne; simpl; by rewrite ?fn_lookup_insert_ne.
  simpl in Hx. inversion Hx as [a f rnd E|a f r Hr E].
  - rewrite E. apply (mv_round _ _ _ k (bool_decide (is_Some (stop a)))). by apply (nr_round k s a f rnd).
  - rewrite E. apply (mv_take _ _ _ k r). by apply (nt_take k r s a f).
Qed.

(** Runs in which versions do not wrap and [W] holds of the store and of the
    clients, also of what they become by the answers on their way. *)
Definition net_small (W : gmap string (string * Tversion) → (nat → ClerkProg.Client A R) → Prop) (s : Net) : Prop :=
  (∀ k, ver_of (vs_abs (Labrpc.world (lab s))) k + 1 < two64) ∧
  ∀ cl, (∀ c, ahead M (client s c) (cl c)) → W (vs_abs (Labrpc.world (lab s))) cl.

(** What a test that has returned [rs] leaves: a run of the clients' programs
    over a store with the server's contents, with these results. *)
Lemma spawn_over_network W n w rn cl s rs :
  rtc (λ s s', step net_runner n s s' ∧ net_small W (sys s)) (init (ninit w rn cl)) s → main s = MReturn rs →
  ∃ s', rtc (ClerkProg.step_nw false body stop W) (ClerkProg.mkState w [] cl) s' ∧
    ClerkProg.server s' = Labrpc.world (lab (sys s)) ∧ length rs = n ∧
    ∀ c r, rs !! c = Some r → ClerkProg.client s' c = ClerkProg.Finished r.
Proof.
  intros Hs Em. destruct (spawn_results net_runner n (ninit w rn cl) s rs) as [Hlen Hres]; [| done |].
  { eapply rtc_subrel; [| exact Hs]. by intros ? ? []. }
  apply (spawn_moves _ n (net_small W)) in Hs.
  apply (rtc_subrel _ (nstep_nw body stop W)) in Hs; [| intros x y [Hm Hx]; split; [by apply net_moves | exact Hx]].
  apply prog_network_run in Hs as (s' & Hr & Hsv & Hcl). exists s'. split; [done |]. split; [done |]. split; [done |].
  intros c r Hc. specialize (Hres c r Hc). simpl in Hres. unfold net_result in Hres.
  destruct (client (sys s) c) as [|r'] eqn:E; [done |]. injection Hres as <-. rewrite Hcl by (by rewrite E). done.
Qed.

End runner.

(** ** The properties *)

(** C15: the append test as a whole, over the simulated network.
    [SpawnClientsAndWait] of [n] clients that run [OneClientAppend], their clerk
    calls going through the network as written, which may delay, drop and
    reorder them, be cut or be destroyed: if it returns [rs], then reading key
    ["k"] gives entries and a version that [CheckAppends] accepts with [rs].
    (Runs in which neither versions nor counters reach 2^62.) *)
Theorem append_test_over_network {S : Type} `{VStore S, WireCodec} `{KVTest.Marshal (list KVTest.entry)} (n : nat)
    (srv : S) (b : string) (rn : Labrpc.Network)
    (s : State (@NState S (ClerkProg.Client KVTest.AppLocals KVTest.ClntRes)) KVTest.ClntRes) (rs : list KVTest.ClntRes) order :
  vs_ok srv → vs_abs srv !! "k" = Some (b, 1) → KVTest.unmarshal b = Some [] →
  rtc (λ s s', step (net_runner KVTest.OneClientAppend_body KVTest.OneClientAppend_stop) n s s' ∧
         net_small KVTest.OneClientAppend_body KVTest.OneClientAppend_stop KVTest.appends_small (sys s))
    (init (ninit srv rn (KVTest.append_start n))) s →
  main s = MReturn rs → ver_of (vs_abs (Labrpc.world (lab (sys s)))) "k" < KVTest.two62 → (∀ m, order m ≡ₚ map_to_list m) →
  ∃ es ver F, KVTest.GetJson (V := list KVTest.entry) "k" = ClerkProg.ClerkGet "k" F ∧
    F (ClerkProg.got (vs_abs (Labrpc.world (lab (sys s)))) "k") = ClerkProg.Done (es, ver) ∧
    KVTest.CheckAppends order es n rs ver = Ret ().
Proof.
  intros Hok Hb Hu Hs Em Hv Hord. destruct (spawn_over_network _ _ _ n srv rn _ s rs Hs Em) as (s' & Hr & Hsv & Hres).
  destruct (KVTest.appends_outcome false n srv b s' Hok Hb Hu Hr) as [_ Hc]. rewrite Hsv in Hc. by apply Hc.
Qed.

(** The test of concurrent puts as a whole, over the simulated network. *)
Theorem put_test_over_network {S : Type} `{VStore S, WireCodec} `{KVTest.Marshal KVTest.EntryV} (randomkeys : bool) (n : nat)
    (ka : list string) (srv : S) (rn : Labrpc.Network)
    (s : State (@NState S (ClerkProg.Client KVTest.PutLocals KVTest.ClntRes)) KVTest.ClntRes) (rs : list KVTest.ClntRes) (key : string) :
  NoDup ka → ka ≠ [] → vs_ok srv → (∀ k, k ∈ ka → vs_abs srv !! k = None) →
  rtc (λ s s', step (net_runner (KVTest.OneClientPut_body randomkeys ka) KVTest.OneClientPut_stop) n s s' ∧
         net_small (KVTest.OneClientPut_body randomkeys ka) KVTest.OneClientPut_stop KVTestPuts.puts_small (sys s))
    (init (ninit srv rn (KVTestPuts.put_start n ka))) s →
  main s = MReturn rs → zsum KVTest.Nok rs + zsum KVTest.Nmaybe rs < KVTest.two62 →
  key ∈ ka → is_Some (vs_abs (Labrpc.world (lab (sys s))) !! key) →
  ∃ F res, KVTest.CheckPutConcurrent key rs (KVTest.mkClntRes 0 0) false = ClerkProg.ClerkGet key F ∧
    F (ClerkProg.got (vs_abs (Labrpc.world (lab (sys s)))) key) = ClerkProg.Done res.
Proof.
  intros Hnd Hne Hok Hfr Hs Em Hsum Hkey Hput. destruct (spawn_over_network _ _ _ n srv rn _ s rs Hs Em) as (s' & Hr & Hsv & Hres).
  destruct (KVTestPuts.puts_outcome false randomkeys n ka srv s' Hnd Hne Hok Hfr Hr) as [_ Hc]. rewrite Hsv in Hc. by apply Hc.
Qed.

(** *** Witnesses: a client that takes its token before its first round *)

#[local] Existing Instance bit_wire.

Section ex.
Context {A : Type} (body : nat → Z → A → ClerkProg.Prog A) (stop : A → option KVTest.ClntRes).
Context (W : gmap string (string * Tversion) → (nat → ClerkProg.Client A KVTest.ClntRes) → Prop).
Context (w : KVServer.KVServer) (cl : nat → ClerkProg.Client A KVTest.ClntRes) (a : A).

Definition ex_start : @NState KVServer.KVServer (ClerkProg.Client A KVTest.ClntRes) := ninit w ex_net cl.
Definition ex_end : @NState KVServer.KVServer (ClerkProg.Client A KVTest.ClntRes) :=
  set_local ex_start 0 (ClerkProg.Finished (KVTest.mkClntRes 0 0)).

Lemma ex_test_run :
  cl 0%nat = ClerkProg.Running (ClerkProg.Done a) true → stop a = Some (KVTest.mkClntRes 0 0) →
  net_small body stop W ex_start → net_small body stop W ex_end →
  ∃ s, rtc (λ s s', step (net_runner body stop) 1 s s' ∧ net_small body stop W (sys s)) (init ex_start) s ∧
    main s = MReturn [KVTest.mkClntRes 0 0] ∧ sys s = ex_end.
Proof.
  intros Hcl Hst H1 H2. eexists. split.
  - eapply rtc_l; [split; [eapply (m_spawn _ _ _ 0%nat); [reflexivity | lia] | exact H1] |].
    eapply rtc_l; [split; [eapply (c_make _ _ _ 0%nat); reflexivity | exact H1] |].
    eapply rtc_l; [split; [eapply m_spawned; reflexivity | exact H1] |].
    eapply rtc_l; [split; [eapply m_slept; reflexivity | exact H1] |].
    eapply rtc_l; [split; [eapply (m_send _ _ _ 0%nat); [reflexivity | lia] | exact H1] |].
    eapply rtc_l; [split; [eapply (token _ _ _ 0%nat 0%nat (KVTest.mkClntRes 0 0)); [reflexivity | reflexivity |] | exact H1] |].
    { by eapply nt_take. }
    eapply rtc_l; [split; [eapply m_signalled; reflexivity | exact H2] |].
    eapply rtc_l; [split; [eapply (m_receive _ _ _ []); [reflexivity | simpl; lia | reflexivity] | exact H2] |].
    eapply rtc_l; [split; [eapply m_return; reflexivity | exact H2] |]. apply rtc_refl.
  - done.
Qed.

(** Clients that are not in a call get no answers. *)
Lemma ex_ahead (s : @NState KVServer.KVServer (ClerkProg.Client A KVTest.ClntRes)) x :
  (∀ c, call (prog_clients body stop) (client s c) = None) → (∀ c, ahead (prog_clients body stop) (client s c) (x c)) →
  ∀ c, x c = client s c.
Proof. intros Hc Hx c. specialize (Hc c). destruct (Hx c); congruence. Qed.

End ex.

Lemma ex_versions k : ver_of (vs_abs KVTest.ex_store) k + 1 < two64.
Proof.
  apply Z.lt_add_lt_sub_r. apply KVTest.ver_of_bound; [vm_compute; reflexivity |].
  apply (bool_decide_unpack _). vm_compute. exact I.
Qed.

Lemma append_test_over_network_witness :
  ∃ es ver, KVTest.CheckAppends (λ m, map_to_list m) es 1 [KVTest.mkClntRes 0 0] ver = Ret ().
Proof.
  destruct (ex_test_run (KVTest.OneClientAppend_body (H := KVTest.ex_marshal)) KVTest.OneClientAppend_stop KVTest.appends_small
    KVTest.ex_store (KVTest.append_start 1) (KVTest.mkAppLocals 0 0 0 true)) as (s & Hs & Em & Ey).
  - reflexivity.
  - reflexivity.
  - split; [apply ex_versions |]. intros x Hx. pose proof (ex_ahead _ _ (ex_start KVTest.ex_store (KVTest.append_start 1)) x ltac:(by intros [|c]) Hx) as E.
    intros c l f. rewrite E. destruct c; [by intros [= <- _] | done].
  - split; [apply ex_versions |]. intros x Hx. pose proof (ex_ahead _ _ (ex_end KVTest.ex_store (KVTest.append_start 1)) x ltac:(by intros [|c]) Hx) as E.
    intros c l f. rewrite E. by destruct c.
  - destruct (append_test_over_network (H := KVServer_VStore) (H0 := bit_wire) (H1 := KVTest.ex_marshal) 1 KVTest.ex_store KVTest.ex_empty
      ex_net s [KVTest.mkClntRes 0 0] (λ m, map_to_list m)) as (es & ver & _ & _ & _ & Hc).
    + exact (KVServer.Put_wf _ _ _ KVServer.MakeKVServer_wf).
    + reflexivity.
    + vm_compute. reflexivity.
    + exact Hs.
    + exact Em.
    + rewrite Ey. vm_compute. reflexivity.
    + intros m. reflexivity.
    + exists es, ver. exact Hc.
Defined.

End KVNetTests.
