(* ===== verification/KVLate.v ===== *)
(** * A put that takes effect after it has returned

    [KVNetApps] shows that histories over the simulated network are
    linearizable when clients put only versions the server has reached.  The
    restriction is needed: here a client puts a version that is one ahead of
    the server, its first request is abandoned by the network (which only
    stops waiting for the handler), the second is answered [ErrVersion], and
    the call returns [ErrMaybe].  When the server reaches the version, the
    first request runs and is accepted.  No order of the operations explains
    what the clients saw. *)

From S2P Require Import Prelude KVServer KvModel KVClerk Linearizability Labrpc RpcCall KVNet KVNetApps.
#[local] Open Scope Z_scope.

Module KVLate.
Import KvModel KVClerk Linearizability KVNet KVNetApps.

(** ** Histories without overlap *)

(** The events of operations that do not overlap. *)
Definition one_by_one (ops : list Operation) : list Event :=
  concat ((λ o, [Inv (ClientId o) (Input o); Res (ClientId o) (Input o) (Output o)]) <$> ops).

Lemma one_by_one_snoc ops o :
  one_by_one (ops ++ [o]) = (one_by_one ops ++ [Inv (ClientId o) (Input o)]) ++ [Res (ClientId o) (Input o) (Output o)].
Proof. unfold one_by_one. rewrite fmap_app, concat_app. simpl. by rewrite <- app_assoc. Qed.

Lemma one_by_one_no_inv ops es c i : one_by_one ops ≠ es ++ [Inv c i].
Proof.
  destruct ops as [|o ops _] using rev_ind; [by destruct es |]. rewrite one_by_one_snoc. intros E.
  by apply app_inj_tail in E as [_ ?].
Qed.

Lemma one_by_one_res ops es c i o :
  one_by_one ops = es ++ [Res c i o] → ∃ ops', ops = ops' ++ [mkOperation c i o] ∧ es = one_by_one ops' ++ [Inv c i].
Proof.
  destruct ops as [|[c' i' o'] ops _] using rev_ind; [by destruct es |]. rewrite one_by_one_snoc. simpl. intros E.
  apply app_inj_tail in E as [<- [= <- <- <-]]. by exists ops.
Qed.

(** They have one linearization. *)
Lemma sequential_linearization l ph :
  Interleaved l ph →
  (∀ ops, one_by_one ops = visible l → ph = ∅ ∧ linearized l = ops) ∧
  (∀ ops c i, one_by_one ops ++ [Inv c i] = visible l →
     (ph = {[c := Invoked i]} ∧ linearized l = ops) ∨
     ∃ o, ph = {[c := Linearized i o]} ∧ linearized l = ops ++ [mkOperation c i o]).
Proof.
  intros Hl. induction Hl as [|l ph c i _ [IH1 IH2] Hc|l ph c i o _ [IH1 IH2] Hc|l ph c i o _ [IH1 IH2] Hc];
    unfold visible, linearized; rewrite ?omap_app; simpl; rewrite ?app_nil_r;
    [| change (omap (λ x, match x with Vis e => Some e | Lin _ => None end) l) with (visible l);
       change (omap (λ x, match x with Lin o => Some o | Vis _ => None end) l) with (linearized l) ..].
  - split; [| intros [|[] ops] c i; simpl; discriminate]. intros ops E. destruct ops as [|o ops]; [done |]. by destruct o.
  - split; [intros ops E; by apply one_by_one_no_inv in E |]. intros ops c' i' E.
    apply app_inj_tail in E as [E [= -> ->]]. left. by destruct (IH1 ops E) as [-> ?].
  - split.
    + intros ops E. destruct (IH1 ops E) as [-> _]. by rewrite lookup_empty in Hc.
    + intros ops c' i' E. destruct (IH2 ops c' i' E) as [[-> Hln]|(o' & -> & _)]; apply lookup_singleton_Some in Hc as [<- Hc]; [| done].
      injection Hc as <-. right. exists o. split; [by rewrite insert_singleton_eq | by rewrite Hln].
  - split.
    + intros ops E. apply one_by_one_res in E as (ops' & -> & E). symmetry in E.
      destruct (IH2 ops' c i E) as [[-> _]|(o' & -> & Hln)]; apply lookup_singleton_Some in Hc as [_ Hc]; [done |].
      injection Hc as <-. split; [by rewrite delete_singleton_eq | done].
    + intros ops c' i' E. apply app_inj_tail in E as [_ ?]. done.
Qed.

(** ** The run *)

#[local] Existing Instance bit_wire.

Abbreviation St := (@NState KVServer.KVServer (option Task)).

(** Nobody is in a call; the network works. *)
Record idle (s : St) : Prop := {
  id_inv : ninv hist_clients s;
  id_up : up "e" "s" s;
  id_client : ∀ c, client s c = None;
  id_waiting : ∀ c, waiting s c = None;
}.

Definition request_of (cl : Call) : Labrpc.reqMsg :=
  match cl with
  | CGet a => Labrpc.mkReqMsg "e" "KVServer.Get" (default "" (RpcCall.encode a))
  | CPut a => Labrpc.mkReqMsg "e" "KVServer.Put" (default "" (RpcCall.encode a))
  end.

Lemma request_of_eq cl : request "e" cl = Ret (request_of cl).
Proof. by destruct cl. Qed.

(** Client [c], whose call is [cl], gets its answer and returns. *)
Lemma finish_op (s : St) c x cl :
  ninv hist_clients s → up "e" "s" s → (∀ c', waiting s c' = None) → (∀ c', client s c' = <[c := x]> (λ _, None) c') →
  call hist_clients x = Some cl →
  hist_local c (replied hist_clients (Labrpc.world (lab s)) cl x) None →
  ∃ s', rtc (nstep hist_clients) s s' ∧ idle s' ∧ Labrpc.world (lab s') = handled (Labrpc.world (lab s)) cl ∧
    trace s' = trace s ++ [(c, replied hist_clients (Labrpc.world (lab s)) cl x, None)] ∧
    Labrpc.requests (lab s) `prefix_of` Labrpc.requests (lab s').
Proof.
  intros Hi Hu Hw Hc Hcall Hl.
  assert (client s c = x) as Hx by (rewrite Hc; apply fn_lookup_insert).
  destruct (call_goes_through hist_clients (λ _ _, True) s c cl "e" "s" (request_of cl))
    as (s1 & Hn & Hu1 & Hw1 & Ht1 & Hwt1 & Hc1 & Hp1); [done | done | done | by rewrite Hx | apply request_of_eq | done |].
  assert (rtc (nstep hist_clients) s s1) as Hs.
  { eapply rtc_subrel; [| exact (rtc_nsteps_2 _ _ _ Hn)]. by intros ? ? []. }
  assert (client s1 c = replied hist_clients (Labrpc.world (lab s)) cl x) as Hx1 by (by rewrite Hc1, fn_lookup_insert, Hx).
  assert (∀ c', waiting s1 c' = None) as Hw'.
  { intros c'. rewrite Hwt1. destruct (decide (c = c')) as [<-|Hne]; [by rewrite fn_lookup_insert | by rewrite !fn_lookup_insert_ne]. }
  pose proof (ninv_steps _ _ _ Hi Hs) as Hi1.
  destruct (local_step hist_clients s1 c None Hi1 Hu1 (Hw' c)) as (Hst & Hi2 & Hu2); [by rewrite Hx1 |].
  eexists. split; [eapply rtc_r; [exact Hs | exact Hst] |]. split; [| by rewrite <- Hx1; simpl; rewrite Ht1, Hw1].
  split; [done | done | | done]. intros c'. simpl. rewrite Hc1.
  destruct (decide (c = c')) as [<-|Hne]; [by rewrite fn_lookup_insert |]. rewrite !fn_lookup_insert_ne by done.
  rewrite Hc. by rewrite fn_lookup_insert_ne.
Qed.

(** Client [c] makes the call of task [t] from start to end. *)
Lemma whole_op (s : St) c t cl :
  idle s → hist_local c None (Some t) → call hist_clients (Some t) = Some cl →
  hist_local c (replied hist_clients (Labrpc.world (lab s)) cl (Some t)) None →
  ∃ s', rtc (nstep hist_clients) s s' ∧ idle s' ∧ Labrpc.world (lab s') = handled (Labrpc.world (lab s)) cl ∧
    trace s' = trace s ++ [(c, None, Some t); (c, replied hist_clients (Labrpc.world (lab s)) cl (Some t), None)] ∧
    Labrpc.requests (lab s) `prefix_of` Labrpc.requests (lab s').
Proof.
  intros [Hi Hu Hc Hw] Hl Hcall Hr.
  destruct (local_step hist_clients s c (Some t) Hi Hu (Hw c)) as (H1 & Hi1 & Hu1); [by rewrite Hc |].
  match type of H1 with nstep _ _ ?x => set (s1 := x) in * end.
  destruct (finish_op s1 c (Some t) cl) as (s2 & H2 & Hid & Hw2 & Ht2 & Hp2); try done.
  { intros c'. simpl. destruct (decide (c = c')) as [<-|Hne]; [by rewrite !fn_lookup_insert | by rewrite !fn_lookup_insert_ne]. }
  exists s2. split; [by eapply rtc_l |]. split; [done |]. split; [done |]. split; [| done].
  rewrite Ht2. simpl. by rewrite <- app_assoc, Hc.
Qed.

(** The puts: one that creates the key, one that is ahead, one that reaches
    the version the second waits for. *)
Definition p_create : PutArgs := mkPutArgs "k" "a" 0.
Definition p_ahead : PutArgs := mkPutArgs "k" "v" 2.
Definition p_reach : PutArgs := mkPutArgs "k" "w" 1.

Definition late_ops : list Operation :=
  [ mkOperation 1 (put_input p_create) (put_output OK);
    mkOperation 0 (put_input p_ahead) (put_output ErrMaybe);
    mkOperation 1 (put_input p_reach) (put_output OK);
    mkOperation 1 (get_input "k") (get_output ("v"%string, 3, OK)) ].

Lemma late_ops_illegal : ¬ legal late_ops.
Proof. rewrite legal_iff. intros Hl. specialize (Hl "k"). vm_compute in Hl. discriminate. Qed.

Lemma late_ops_not_linearizable : ¬ linearizable (one_by_one late_ops).
Proof.
  intros (l & ph & Hl & Hv & Hleg). destruct (sequential_linearization l ph Hl) as [H1 _].
  destruct (H1 late_ops) as [_ E]; [done |]. rewrite E in Hleg. by apply late_ops_illegal.
Qed.

(** The first request of the put that is ahead is abandoned; the second is
    answered. *)
Lemma ahead_op (s : St) :
  idle s → PutReply_Err (vs_Put (Labrpc.world (lab s)) p_ahead PutReply_zero).2 = ErrVersion →
  ∃ s' q st, rtc (nstep hist_clients) s s' ∧ idle s' ∧
    Labrpc.world (lab s') = handled (Labrpc.world (lab s)) (CPut p_ahead) ∧
    trace s' = trace s ++ [(0%nat, None, Some (TPut p_ahead true)); (0%nat, Some (TPutDone p_ahead ErrMaybe), None)] ∧
    Labrpc.requests (lab s') !! q = Some (Labrpc.mkRequest (request_of (CPut p_ahead)) st (Labrpc.Pending 0)).
Proof.
  intros [Hi Hu Hc Hw] Herr.
  destruct (local_step hist_clients s 0%nat (Some (TPut p_ahead true)) Hi Hu (Hw 0%nat)) as (H1 & Hi1 & Hu1).
  { rewrite Hc. constructor. vm_compute. split; [discriminate | reflexivity]. }
  match type of H1 with nstep _ _ ?x => set (s1 := x) in * end.
  destruct (call_abandoned hist_clients s1 0%nat (CPut p_ahead) "e" "s" (request_of (CPut p_ahead)))
    as (s2 & st & H2 & Hu2 & Hw2 & Ht2 & Hwt2 & Hc2 & Hr2); [done | by simpl | reflexivity | apply request_of_eq |].
  pose proof (ninv_steps _ _ _ Hi1 H2) as Hi2.
  assert (replied hist_clients (Labrpc.world (lab s2)) (CPut p_ahead) (Some (TPut p_ahead false)) = Some (TPutDone p_ahead ErrMaybe)) as Hrep.
  { rewrite Hw2. unfold replied. cbn [put_reply hist_clients]. unfold Put_result. cbn [lab s1]. by rewrite Herr. }
  destruct (finish_op s2 0%nat (Some (TPut p_ahead false)) (CPut p_ahead)) as (s3 & H3 & Hid & Hw3 & Ht3 & Hp3); try done.
  - intros c'. rewrite Hwt2. destruct c' as [|c']; [by rewrite fn_lookup_insert | rewrite !fn_lookup_insert_ne by done; apply Hw].
  - intros c'. rewrite Hc2. destruct c' as [|c']; [reflexivity |].
    rewrite !fn_lookup_insert_ne by done. simpl. by rewrite fn_lookup_insert_ne.
  - rewrite Hrep. constructor.
  - eexists s3, (length (Labrpc.requests (lab s1))), st. split; [eapply rtc_l; [done |]; by etransitivity |].
    split; [done |]. split; [by rewrite Hw3, Hw2 |]. split.
    + rewrite Ht3, Hrep, Ht2. simpl. by rewrite <- app_assoc, Hc.
    + eapply prefix_lookup_Some; [| exact Hp3]. rewrite Hr2. rewrite lookup_app_r by lia. by rewrite Nat.sub_diag.
Qed.

Lemma late_run :
  ∃ s, rtc (nstep hist_clients) (ninit KVServer.MakeKVServer ex_net (λ _, None)) s ∧ history (trace s) = one_by_one late_ops.
Proof.
  assert (idle (ninit KVServer.MakeKVServer ex_net (λ _, None))) as H0 by (split; [apply ninv_init | apply ex_up | done | done]).
  destruct (whole_op _ 1%nat (TPut p_create true) (CPut p_create) H0) as (s1 & R1 & I1 & W1 & T1 & _);
    [constructor; vm_compute; split; [discriminate | reflexivity] | done | constructor |].
  simpl in W1, T1.
  destruct (ahead_op s1 I1) as (s2 & q & st & R2 & I2 & W2 & T2 & Q2); [by rewrite W1 |].
  destruct (whole_op s2 1%nat (TPut p_reach true) (CPut p_reach) I2) as (s3 & R3 & I3 & W3 & T3 & P3);
    [constructor; vm_compute; split; [discriminate | reflexivity] | done | constructor |].
  destruct (runs_late_after hist_clients s3 q "e" (CPut p_ahead) (request_of (CPut p_ahead)) st)
    as (s4 & R4 & W4 & T4 & Hwt4 & Hc4 & Hu4); [apply I3 | apply I3 | apply request_of_eq | by eapply prefix_lookup_Some |].
  assert (idle s4) as I4.
  { split; [by eapply ninv_step; [apply I3 |] | apply Hu4, I3 | intros c; rewrite Hc4; apply I3 | intros c; rewrite Hwt4; apply I3]. }
  destruct (whole_op s4 1%nat (TGet "k") (CGet (mkGetArgs "k")) I4) as (s5 & R5 & I5 & W5 & T5 & _);
    [constructor | done | constructor |].
  exists s5. split.
  - etransitivity; [exact R1 |]. etransitivity; [exact R2 |]. etransitivity; [exact R3 |]. eapply rtc_l; [exact R4 | exact R5].
  - rewrite T5, T4, T3, T2, T1, W4, W3, W2, W1. vm_compute. reflexivity.
Qed.

(** C36: without the restriction to versions clients have seen, the store is
    not linearizable over the simulated network.  A put with a version one
    ahead of the server returns [ErrMaybe] after its first request was
    abandoned and its second refused; another client's put then brings the
    server to that version, the abandoned request runs and is accepted, and a
    get sees the value of a put that had returned before.  No linearization
    explains the history. *)
Theorem unseen_versions_break_linearizability :
  ∃ s : @NState KVServer.KVServer (option Task),
    rtc (nstep hist_clients) (ninit KVServer.MakeKVServer ex_net (λ _, None)) s ∧
    ¬ linearizable (history (trace s)).
Proof.
  destruct late_run as (s & Hs & Hh). exists s. split; [done |]. rewrite Hh. apply late_ops_not_linearizable.
Qed.

End KVLate.
