(* ===== verification/TesterGroup.v ===== *)
(** * Groups of servers in the tester: [tester1/group.go], [srv.go], [persister.go]

    A group's servers, their end points on the simulated network and their
    persisters.  Persisters are objects on a heap: a restarted server gets a
    fresh one, and the old instance may go on writing to its own. *)

From S2P Require Import Prelude Labrpc.
#[local] Open Scope Z_scope.

Module TesterGroup.
Import Labrpc.

(** ** Persisters *)

Record Persister := mkPersister { raftstate : list Z; snapshot : list Z }.

Definition MakePersister : Persister := mkPersister [] [].
Definition ReadRaftState (ps : Persister) : list Z := raftstate ps.
Definition RaftStateSize (ps : Persister) : Z := Z.of_nat (length (raftstate ps)).
Definition ReadSnapshot (ps : Persister) : list Z := snapshot ps.
Definition SnapshotSize (ps : Persister) : Z := Z.of_nat (length (snapshot ps)).
(** [Save] replaces the slices by clones, it never writes into old ones. *)
Definition Save (ps : Persister) (rs sn : list Z) : Persister := mkPersister rs sn.
(** [Copy]: a new object with the same contents. *)
Definition Copy (ps : Persister) : Persister := mkPersister (raftstate ps) (snapshot ps).

(** ** Servers and groups *)

Record Server := mkServer {
  saved : option nat;           (** a persister on the heap, or nil *)
  svcs : list nat;              (** the services, by number *)
  endNames : list string
}.

Record ServerGrp := mkServerGrp {
  net : Network;
  srvs : list Server;
  servernames : list string;
  gid : Z;
  connected : list bool;
  persisters : gmap nat Persister;
  next_ptr : nat;               (** the next unused pointer *)
  killed : list nat             (** the services [Kill] was called on *)
}.

Definition set_net (sg : ServerGrp) (rn : Network) : ServerGrp :=
  mkServerGrp rn (srvs sg) (servernames sg) (gid sg) (connected sg) (persisters sg) (next_ptr sg) (killed sg).
Definition set_connected (sg : ServerGrp) (c : list bool) : ServerGrp :=
  mkServerGrp (net sg) (srvs sg) (servernames sg) (gid sg) c (persisters sg) (next_ptr sg) (killed sg).
Definition set_srv (sg : ServerGrp) (i : nat) (s : Server) : ServerGrp :=
  mkServerGrp (net sg) (<[i := s]> (srvs sg)) (servernames sg) (gid sg) (connected sg) (persisters sg)
    (next_ptr sg) (killed sg).

Definition ServerName (gid : Z) (i : nat) : string :=
  "server-" +:+ Itoa gid +:+ "-" +:+ Itoa (Z.of_nat i).

Lemma ServerName_inj g i g' i' : ServerName g i = ServerName g' i' → g = g' ∧ i = i'.
Proof.
  unfold ServerName. intros E. injection E as E.
  destruct (dash_digits (Itoa g) (Itoa (Z.of_nat i)) (Itoa g') (Itoa (Z.of_nat i'))) as [E1 E2]; [apply Itoa_digits; lia.. | done |].
  apply (inj Itoa) in E1, E2. lia.
Qed.

(** The loop of [makeServer] from end [j] on; [names] are the random names. *)
Fixpoint make_ends (rn : Network) (gid : Z) (j : nat) (names : list string) : GoRes Network :=
  match names with
  | [] => Ret rn
  | e :: names =>
      (let* rn := MakeEnd rn e in make_ends (Connect rn e (ServerName gid j)) gid (S j) names)%go
  end.

Definition makeServer (rn : Network) (gid : Z) (names : list string) : GoRes (Network * Server) :=
  (let* rn := make_ends rn gid 0 names in Ret (rn, mkServer None [] names))%go.

Fixpoint make_srvs (rn : Network) (gid : Z) (names : list (list string)) : GoRes (Network * list Server) :=
  match names with
  | [] => Ret (rn, [])
  | ns :: names =>
      (let* r := makeServer rn gid ns in
       let* r' := make_srvs r.1 gid names in
       Ret (r'.1, r.2 :: r'.2))%go
  end.

(** [makeSrvGrp], with the names of the ends of each server. *)
Definition makeSrvGrp (rn : Network) (gid : Z) (names : list (list string)) : GoRes ServerGrp :=
  let n := length names in
  (let* r := make_srvs rn gid names in
   Ret (mkServerGrp r.1 r.2 (ServerName gid <$> seq 0 n) gid (replicate n false) ∅ 0 []))%go.

Definition N (sg : ServerGrp) : nat := length (srvs sg).
Definition all (sg : ServerGrp) : list nat := seq 0 (length (srvs sg)).
Definition SrvName (sg : ServerGrp) (i : nat) : GoRes string := deref (servernames sg !! i) "index out of range".
Definition SrvNamesTo (sg : ServerGrp) (to : list nat) : GoRes (list string) :=
  foldr (λ i acc, (let* s := SrvName sg i in let* l := acc in Ret (s :: l))%go) (Ret []) to.
Definition IsConnected (sg : ServerGrp) (i : nat) : GoRes bool := deref (connected sg !! i) "index out of range".

(** The end from server [i] to server [j]: [sg.srvs[i].endNames[j]]. *)
Definition end_of (sg : ServerGrp) (i j : nat) : GoRes string :=
  (let* s := deref (srvs sg !! i) "index out of range" in
   deref (endNames s !! j) "index out of range")%go.

Definition enable_end (sg : ServerGrp) (i j : nat) (yes : bool) : GoRes ServerGrp :=
  (let* e := end_of sg i j in Ret (set_net sg (Enable (net sg) e yes)))%go.

(** [Server.connect] for server [i]: its ends to the connected servers of
    [to]. *)
Fixpoint connect_out (sg : ServerGrp) (i : nat) (to : list nat) : GoRes ServerGrp :=
  match to with
  | [] => Ret sg
  | j :: to =>
      (let* c := IsConnected sg j in
       let* sg := if (c : bool) then enable_end sg i j true else Ret sg in
       connect_out sg i to)%go
  end.

(** The loop of [connect] over the incoming ends. *)
Fixpoint connect_in (sg : ServerGrp) (i : nat) (to : list nat) : GoRes ServerGrp :=
  match to with
  | [] => Ret sg
  | j :: to =>
      (let* c := IsConnected sg j in
       let* sg := if (c : bool) then enable_end sg j i true else Ret sg in
       connect_in sg i to)%go
  end.

Definition set_connected_at (sg : ServerGrp) (i : nat) (b : bool) : GoRes ServerGrp :=
  if decide (i < length (connected sg))%nat then Ret (set_connected sg (<[i := b]> (connected sg)))
  else Abort "index out of range".

Definition connect (sg : ServerGrp) (i : nat) (to : list nat) : GoRes ServerGrp :=
  (let* sg := set_connected_at sg i true in
   let* sg := connect_out sg i to in
   connect_in sg i to)%go.

Fixpoint disconnect_out (sg : ServerGrp) (i : nat) (from : list nat) : GoRes ServerGrp :=
  match from with
  | [] => Ret sg
  | j :: from => (let* sg := enable_end sg i j false in disconnect_out sg i from)%go
  end.
Fixpoint disconnect_in (sg : ServerGrp) (i : nat) (from : list nat) : GoRes ServerGrp :=
  match from with
  | [] => Ret sg
  | j :: from => (let* sg := enable_end sg j i false in disconnect_in sg i from)%go
  end.

Definition disconnect (sg : ServerGrp) (i : nat) (from : list nat) : GoRes ServerGrp :=
  (let* sg := set_connected_at sg i false in
   let* sg := disconnect_out sg i from in
   disconnect_in sg i from)%go.

Definition ConnectOne (sg : ServerGrp) (i : nat) : GoRes ServerGrp := connect sg i (all sg).
Definition DisconnectAll (sg : ServerGrp) (i : nat) : GoRes ServerGrp := disconnect sg i (all sg).

Definition each (f : ServerGrp → nat → GoRes ServerGrp) (sg : ServerGrp) (ks : list nat) : GoRes ServerGrp :=
  foldl (λ r i, (let* sg := r in f sg i)%go) (Ret sg) ks.

Definition ConnectAll (sg : ServerGrp) : GoRes ServerGrp := each ConnectOne sg (all sg).

Definition Partition (sg : ServerGrp) (p1 p2 : list nat) : GoRes ServerGrp :=
  (let* sg := each (λ sg i, let* sg := disconnect sg i p2 in connect sg i p1) sg p1 in
   each (λ sg i, let* sg := disconnect sg i p1 in connect sg i p2) sg p2)%go.

(** [MakePartition]: the loop body on [(p1, p2, j)]; [p2] is indexed past its
    end when there are too many servers for it. *)
Definition partition_step (l : nat) (acc : GoRes (list nat * list nat * nat)) (i : nat)
    : GoRes (list nat * list nat * nat) :=
  (let* x := acc in
   let '(p1, p2, j) := x in
   if decide (i ≠ l) then
     if decide (j < length p1)%nat then Ret (<[j := i]> p1, p2, S j)
     else if decide (j - length p1 < length p2)%nat then Ret (p1, <[(j - length p1)%nat := i]> p2, S j)
     else Abort "index out of range"
   else Ret (p1, p2, j))%go.

Definition MakePartition (sg : ServerGrp) (l : nat) : GoRes (list nat * list nat) :=
  let n := length (srvs sg) in
  (let* x := foldl (partition_step l) (Ret (replicate (n / 2 + 1) 0%nat, replicate (n / 2) 0%nat, 0%nat)) (seq 0 n) in
   let '(p1, p2, _) := x in
   if decide (p2 = []) then Abort "index out of range"
   else Ret (p1, <[(length p2 - 1)%nat := l]> p2))%go.

(** ** Starting and stopping servers *)

(** [startServer] and [StartServer]: fresh ends [names], a fresh persister
    with the saved contents, the services [new_svcs] that [mks] starts on it,
    and a new labrpc server (the next pointer). *)
Definition StartServer (sg : ServerGrp) (i : nat) (names : list string) (new_svcs : list nat) : GoRes ServerGrp :=
  (let* s := deref (srvs sg !! i) "index out of range" in
   let* r := makeServer (net sg) (gid sg) names in
   let* ps := match saved s with
              | Some p => let* x := deref (persisters sg !! p) "nil pointer dereference" in Ret (Copy x)
              | None => Ret MakePersister
              end in
   let ptr := next_ptr sg in
   let srv := mkServer (Some ptr) new_svcs names in
   Ret (mkServerGrp (AddServer r.1 (ServerName (gid sg) i) (S ptr)) (<[i := srv]> (srvs sg)) (servernames sg)
          (gid sg) (connected sg) (<[ptr := ps]> (persisters sg)) (S (S ptr)) (killed sg)))%go.

(** [shutdownServer]: a copy of the persister, all services killed. *)
Definition shutdownServer (sg : ServerGrp) (i : nat) : GoRes ServerGrp :=
  (let* s := deref (srvs sg !! i) "index out of range" in
   match saved s with
   | Some p =>
       let* x := deref (persisters sg !! p) "nil pointer dereference" in
       let ptr := next_ptr sg in
       Ret (mkServerGrp (net sg) (<[i := mkServer (Some ptr) [] (endNames s)]> (srvs sg)) (servernames sg) (gid sg)
              (connected sg) (<[ptr := Copy x]> (persisters sg)) (S ptr) (killed sg ++ svcs s))
   | None =>
       Ret (mkServerGrp (net sg) (<[i := mkServer None [] (endNames s)]> (srvs sg)) (servernames sg) (gid sg)
              (connected sg) (persisters sg) (next_ptr sg) (killed sg ++ svcs s))
   end)%go.

Definition ShutdownServer (sg : ServerGrp) (i : nat) : GoRes ServerGrp :=
  (let* sg := disconnect sg i (all sg) in
   shutdownServer (set_net sg (DeleteServer (net sg) (ServerName (gid sg) i))) i)%go.

Definition Shutdown (sg : ServerGrp) : GoRes ServerGrp := each ShutdownServer sg (all sg).

(** An instance calls [Save] on the persister it was given. *)
Definition instance_saves (sg : ServerGrp) (p : nat) (rs sn : list Z) : ServerGrp :=
  mkServerGrp (net sg) (srvs sg) (servernames sg) (gid sg) (connected sg)
    (alter (λ x, Save x rs sn) p (persisters sg)) (next_ptr sg) (killed sg).

(** [LogSize], [SnapshotSize]: the largest over the servers; a server that was
    never started has a nil persister. *)
Definition max_size (f : Persister → Z) (sg : ServerGrp) : GoRes Z :=
  foldl (λ acc s, (let* m := acc in
                   let* p := deref (saved s) "nil pointer dereference" in
                   let* x := deref (persisters sg !! p) "nil pointer dereference" in
                   Ret (if decide (f x > m) then f x else m))%go) (Ret 0) (srvs sg).
Definition LogSize : ServerGrp → GoRes Z := max_size RaftStateSize.
Definition Group_SnapshotSize : ServerGrp → GoRes Z := max_size SnapshotSize.

(** ** Links between servers *)

(** A group of [n] servers whose ends have pairwise different names. *)
Record wf (n : nat) (sg : ServerGrp) : Prop := {
  wf_srvs : length (srvs sg) = n;
  wf_connected : length (connected sg) = n;
  wf_ends : ∀ i s, srvs sg !! i = Some s → length (endNames s) = n;
  wf_distinct : ∀ i j i' j' e, end_of sg i j = Ret e → end_of sg i' j' = Ret e → i = i' ∧ j = j'
}.

(** Whether requests pass from server [i] to server [j]. *)
Definition link (sg : ServerGrp) (i j : nat) : bool :=
  match end_of sg i j with Ret e => is_enabled (net sg) e | Abort _ => false end.
Definition conn (sg : ServerGrp) (i : nat) : bool := default false (connected sg !! i).

(** Only the network and the [connected] flags change. *)
Definition same_ends (sg sg' : ServerGrp) : Prop :=
  srvs sg' = srvs sg ∧ length (connected sg') = length (connected sg) ∧
  persisters sg' = persisters sg ∧ next_ptr sg' = next_ptr sg ∧ gid sg' = gid sg ∧ killed sg' = killed sg.

Lemma same_ends_end_of sg sg' i j : same_ends sg sg' → end_of sg' i j = end_of sg i j.
Proof. intros [H _]. unfold end_of. by rewrite H. Qed.

Lemma same_ends_wf n sg sg' : same_ends sg sg' → wf n sg → wf n sg'.
Proof.
  intros Hs []. pose proof Hs as (H1 & H2 & _). split; rewrite ?H1, ?H2; auto.
  intros i j i' j' e. rewrite !(same_ends_end_of sg sg') by done. apply wf_distinct0.
Qed.

#[export] Instance same_ends_preorder : PreOrder same_ends.
Proof.
  split; [by intros ? |]. intros a b c (?&?&?&?&?&?) (?&?&?&?&?&?). unfold same_ends. split_and!; congruence.
Qed.

Lemma end_of_wf n sg i j : wf n sg → (i < n)%nat → (j < n)%nat → ∃ e, end_of sg i j = Ret e.
Proof.
  intros [] Hi Hj. unfold end_of. destruct (lookup_lt_is_Some_2 (srvs sg) i) as [s Hs]; [lia |].
  rewrite Hs. simpl. destruct (lookup_lt_is_Some_2 (endNames s) j) as [e He]; [by rewrite (wf_ends0 _ _ Hs) |].
  rewrite He. by exists e.
Qed.

Lemma enable_end_spec n sg i j b :
  wf n sg → (i < n)%nat → (j < n)%nat →
  ∃ sg', enable_end sg i j b = Ret sg' ∧ same_ends sg sg' ∧ connected sg' = connected sg ∧
    ∀ x y, link sg' x y = if decide (x = i ∧ y = j) then b else link sg x y.
Proof.
  intros Hwf Hi Hj. destruct (end_of_wf n sg i j) as [e He]; auto. unfold enable_end. rewrite He. simpl.
  eexists. split; [done |]. split; [done |]. split; [done |]. intros x y. unfold link.
  rewrite (same_ends_end_of sg) by done. simpl.
  unfold is_enabled, Enable. simpl. case_decide as Hd.
  - destruct Hd as [-> ->]. rewrite He, lookup_insert_eq. done.
  - destruct (end_of sg x y) as [e'|] eqn:E; [| done]. rewrite lookup_insert_ne; [done |].
    intros <-. apply Hd. by eapply (wf_distinct _ _ Hwf).
Qed.

(** Setting a list of ends, which the four loops come down to. *)
Fixpoint enable_all (sg : ServerGrp) (ps : list (nat * nat)) (b : bool) : GoRes ServerGrp :=
  match ps with
  | [] => Ret sg
  | p :: ps => (let* sg := enable_end sg p.1 p.2 b in enable_all sg ps b)%go
  end.

Lemma enable_all_spec n sg ps b :
  wf n sg → (∀ p, p ∈ ps → (p.1 < n)%nat ∧ (p.2 < n)%nat) →
  ∃ sg', enable_all sg ps b = Ret sg' ∧ same_ends sg sg' ∧ connected sg' = connected sg ∧
    ∀ x y, link sg' x y = if decide ((x, y) ∈ ps) then b else link sg x y.
Proof.
  revert sg. induction ps as [|[i j] ps IH]; intros sg Hwf Hps; simpl.
  - exists sg. by split_and!.
  - destruct (Hps (i, j)) as [Hi Hj]; [set_solver |].
    destruct (enable_end_spec n sg i j b) as (sg1 & H1 & Hs1 & Hc1 & Hl1); auto. rewrite H1. simpl.
    destruct (IH sg1) as (sg2 & H2 & Hs2 & Hc2 & Hl2); [by eapply same_ends_wf | set_solver |].
    exists sg2. split_and!; [done | by transitivity sg1 | congruence |]. intros x y. rewrite Hl2, Hl1.
    clear -b. rewrite <- (decide_ext ((x, y) = (i, j) ∨ (x, y) ∈ ps) ((x, y) ∈ (i, j) :: ps)) by (by rewrite elem_of_cons).
    repeat case_decide; naive_solver.
Qed.

Lemma IsConnected_conn n sg j : wf n sg → (j < n)%nat → IsConnected sg j = Ret (conn sg j).
Proof.
  intros [] Hj. unfold IsConnected, conn. destruct (lookup_lt_is_Some_2 (connected sg) j) as [c Hc]; [lia |].
  by rewrite Hc.
Qed.

Definition connected_in (sg : ServerGrp) (to : list nat) : list nat := filter (λ j, conn sg j = true) to.

Lemma connect_loops n sg i to :
  wf n sg → (i < n)%nat → (∀ j, j ∈ to → (j < n)%nat) →
  connect_out sg i to = enable_all sg ((λ j, (i, j)) <$> connected_in sg to) true ∧
  connect_in sg i to = enable_all sg ((λ j, (j, i)) <$> connected_in sg to) true.
Proof.
  revert sg. induction to as [|j to IH]; intros sg Hwf Hi Hto; simpl; [done |].
  rewrite (IsConnected_conn n) by (try done; set_solver). simpl. unfold connected_in.
  destruct (conn sg j) eqn:E.
  - rewrite filter_cons_True by done. simpl.
    assert ((j < n)%nat) as Hj by set_solver.
    destruct (enable_end_spec n sg i j true) as (sg1 & H1 & Hs1 & Hc1 & _); auto.
    destruct (enable_end_spec n sg j i true) as (sg2 & H2 & Hs2 & Hc2 & _); auto.
    rewrite H1, H2. simpl.
    destruct (IH sg1) as [IH1 _]; [by eapply same_ends_wf | done | set_solver |].
    destruct (IH sg2) as [_ IH2]; [by eapply same_ends_wf | done | set_solver |].
    rewrite IH1, IH2. unfold connected_in, conn. by rewrite Hc1, Hc2.
  - rewrite filter_cons_False by congruence. apply IH; [done | done | set_solver].
Qed.

Lemma disconnect_loops sg i from :
  disconnect_out sg i from = enable_all sg ((λ j, (i, j)) <$> from) false ∧
  disconnect_in sg i from = enable_all sg ((λ j, (j, i)) <$> from) false.
Proof.
  split; revert sg; induction from as [|j from IH]; intros sg; simpl; [done | | done |];
    destruct (enable_end _ _ _ _); simpl; auto.
Qed.

Lemma set_connected_at_spec n sg i b :
  wf n sg → (i < n)%nat →
  ∃ sg', set_connected_at sg i b = Ret sg' ∧ same_ends sg sg' ∧ (∀ x y, link sg' x y = link sg x y) ∧
    ∀ x, conn sg' x = if decide (x = i) then b else conn sg x.
Proof.
  intros [] Hi. unfold set_connected_at. rewrite decide_True by lia. eexists. split; [done |].
  split; [by split_and!; simpl; rewrite ?length_insert |]. split; [done |].
  intros x. unfold conn. simpl. rewrite list_lookup_insert. repeat case_decide; try done; naive_solver lia.
Qed.

Lemma elem_of_pairs_l (i x y : nat) (l : list nat) : (x, y) ∈ (λ j, (i, j)) <$> l ↔ x = i ∧ y ∈ l.
Proof. rewrite list_elem_of_fmap. naive_solver. Qed.
Lemma elem_of_pairs_r (i x y : nat) (l : list nat) : (x, y) ∈ (λ j, (j, i)) <$> l ↔ y = i ∧ x ∈ l.
Proof. rewrite list_elem_of_fmap. naive_solver. Qed.

Lemma connect_spec n sg i to :
  wf n sg → (i < n)%nat → (∀ j, j ∈ to → (j < n)%nat) →
  ∃ sg', connect sg i to = Ret sg' ∧ wf n sg' ∧
    (∀ x, conn sg' x = if decide (x = i) then true else conn sg x) ∧
    ∀ x y, link sg' x y =
      if decide ((x = i ∧ y ∈ to ∧ conn sg' y = true) ∨ (y = i ∧ x ∈ to ∧ conn sg' x = true)) then true
      else link sg x y.
Proof.
  intros Hwf Hi Hto. unfold connect.
  destruct (set_connected_at_spec n sg i true) as (sg1 & H1 & Hs1 & Hl1 & Hc1); auto. rewrite H1. simpl.
  assert (wf n sg1) as Hwf1 by (by eapply same_ends_wf).
  destruct (connect_loops n sg1 i to) as [Ho _]; auto. rewrite Ho.
  assert (∀ j, j ∈ connected_in sg1 to → (j < n)%nat) as Hin.
  { intros j Hj. unfold connected_in in Hj. apply list_elem_of_filter in Hj as [_ Hj]. auto. }
  destruct (enable_all_spec n sg1 ((λ j, (i, j)) <$> connected_in sg1 to) true) as (sg2 & H2 & Hs2 & Hc2 & Hl2); auto.
  { intros [x y] [-> Hy]%elem_of_pairs_l. simpl. auto. }
  rewrite H2. simpl. assert (wf n sg2) as Hwf2 by (by eapply same_ends_wf).
  destruct (connect_loops n sg2 i to) as [_ Hin2]; auto. rewrite Hin2.
  assert (connected_in sg2 to = connected_in sg1 to) as -> by (unfold connected_in, conn; by rewrite Hc2).
  destruct (enable_all_spec n sg2 ((λ j, (j, i)) <$> connected_in sg1 to) true) as (sg3 & H3 & Hs3 & Hc3 & Hl3); auto.
  { intros [x y] [-> Hy]%elem_of_pairs_r. simpl. auto. }
  assert (∀ x, conn sg3 x = conn sg1 x) as Hc31 by (intros x; unfold conn; by rewrite Hc3, Hc2).
  exists sg3. split_and!; [done | by eapply same_ends_wf | |].
  - intros x. by rewrite Hc31, Hc1.
  - intros x y. rewrite Hl3, Hl2, Hl1, !Hc31.
    pose proof (elem_of_pairs_l i x y (connected_in sg1 to)) as E1.
    pose proof (elem_of_pairs_r i x y (connected_in sg1 to)) as E2.
    unfold connected_in in E1, E2. rewrite list_elem_of_filter in E1, E2.
    unfold connected_in. repeat case_decide; try done; tauto.
Qed.

Lemma disconnect_spec n sg i from :
  wf n sg → (i < n)%nat → (∀ j, j ∈ from → (j < n)%nat) →
  ∃ sg', disconnect sg i from = Ret sg' ∧ wf n sg' ∧ same_ends sg sg' ∧
    (∀ x, conn sg' x = if decide (x = i) then false else conn sg x) ∧
    ∀ x y, link sg' x y = if decide ((x = i ∧ y ∈ from) ∨ (y = i ∧ x ∈ from)) then false else link sg x y.
Proof.
  intros Hwf Hi Hfrom. unfold disconnect.
  destruct (set_connected_at_spec n sg i false) as (sg1 & H1 & Hs1 & Hl1 & Hc1); auto. rewrite H1. simpl.
  assert (wf n sg1) as Hwf1 by (by eapply same_ends_wf).
  destruct (disconnect_loops sg1 i from) as [Ho _]. rewrite Ho.
  destruct (enable_all_spec n sg1 ((λ j, (i, j)) <$> from) false) as (sg2 & H2 & Hs2 & Hc2 & Hl2); auto.
  { intros [x y] [-> Hy]%elem_of_pairs_l. simpl. auto. }
  rewrite H2. simpl. assert (wf n sg2) as Hwf2 by (by eapply same_ends_wf).
  destruct (disconnect_loops sg2 i from) as [_ Hin2]. rewrite Hin2.
  destruct (enable_all_spec n sg2 ((λ j, (j, i)) <$> from) false) as (sg3 & H3 & Hs3 & Hc3 & Hl3); auto.
  { intros [x y] [-> Hy]%elem_of_pairs_r. simpl. auto. }
  exists sg3. split_and!; [done | by eapply same_ends_wf | | |].
  - transitivity sg1; [done |]. by transitivity sg2.
  - intros x. rewrite <- Hc1. unfold conn. by rewrite Hc3, Hc2.
  - intros x y. rewrite Hl3, Hl2, Hl1.
    pose proof (elem_of_pairs_l i x y from) as E1. pose proof (elem_of_pairs_r i x y from) as E2.
    repeat case_decide; try done; tauto.
Qed.

(** *** Partitions *)

Definition isolate (mine other : list nat) (sg : ServerGrp) (i : nat) : GoRes ServerGrp :=
  (let* sg := disconnect sg i other in connect sg i mine)%go.

(** The servers of [P] see each other and nothing of [other]. *)
Definition side_ok (sg : ServerGrp) (P other : list nat) : Prop :=
  (∀ a, a ∈ P → conn sg a = true) ∧
  (∀ a b, a ∈ P → b ∈ P → link sg a b = true) ∧
  (∀ a b, a ∈ P → b ∈ other → link sg a b = false ∧ link sg b a = false).

Lemma isolate_spec n mine other sg i P :
  wf n sg → (∀ j, j ∈ mine ++ other → (j < n)%nat) → (∀ j, j ∈ mine → j ∉ other) →
  i ∈ mine → (∀ j, j ∈ P → j ∈ mine) → side_ok sg P other →
  ∃ sg', isolate mine other sg i = Ret sg' ∧ wf n sg' ∧ side_ok sg' (i :: P) other ∧
    ∀ a b, a ∈ other → b ∈ other → link sg' a b = link sg a b.
Proof.
  intros Hwf Hb Hd Hi HP (Hc & Hin & Hout). unfold isolate.
  destruct (disconnect_spec n sg i other) as (sg1 & H1 & Hwf1 & _ & Hc1 & Hl1); auto.
  { apply Hb. set_solver. } { intros j Hj. apply Hb. set_solver. }
  rewrite H1. simpl.
  destruct (connect_spec n sg1 i mine) as (sg2 & H2 & Hwf2 & Hc2 & Hl2); auto.
  { apply Hb. set_solver. } { intros j Hj. apply Hb. set_solver. }
  assert (∀ a, a ∈ i :: P → conn sg2 a = true) as Hcn.
  { intros a Ha. rewrite Hc2, Hc1. repeat case_decide; try done. apply Hc. set_solver. }
  assert (∀ a, a ∈ i :: P → a ∈ mine) as Hm by (intros a [->|?]%elem_of_cons; auto).
  exists sg2. split_and!; [done | done | split_and! |].
  - done.
  - intros a b Ha Hb'. rewrite Hl2. case_decide as Hdec; [done |]. rewrite Hl1.
    rewrite decide_False.
    + apply Hin.
      * apply elem_of_cons in Ha as [->|]; [| done]. destruct Hdec. left. auto.
      * apply elem_of_cons in Hb' as [->|]; [| done]. destruct Hdec. right. auto.
    + intros [[_ Ho]|[_ Ho]]; (eapply Hd; [| exact Ho]; auto).
  - intros a b Ha Hb'. rewrite !Hl2, !Hl1. pose proof (Hm a Ha) as Ham.
    assert (b ∉ mine) as Hbm by (intros Hbm; by apply (Hd b Hbm)).
    assert (b ≠ i) as Hbi by (intros ->; done).
    rewrite (decide_False (P := _ ∨ _)) by naive_solver.
    destruct (decide (a = i)) as [->|Hai].
    + rewrite (decide_True (P := _ ∨ _)) by auto. rewrite (decide_False (P := _ ∨ _)) by naive_solver.
      by rewrite (decide_True (P := _ ∨ _)) by auto.
    + assert (a ∈ P) as HaP by set_solver. rewrite (decide_False (P := _ ∨ _)) by naive_solver.
      rewrite (decide_False (P := _ ∨ _)) by naive_solver.
      rewrite (decide_False (P := _ ∨ _)) by naive_solver. by apply Hout.
  - intros a b Ha Hb'. rewrite Hl2, Hl1.
    assert (a ≠ i) by (intros ->; by apply (Hd i)). assert (b ≠ i) by (intros ->; by apply (Hd i)).
    by rewrite !decide_False by naive_solver.
Qed.

Lemma side_loop n mine other ks P sg :
  wf n sg → (∀ j, j ∈ mine ++ other → (j < n)%nat) → (∀ j, j ∈ mine → j ∉ other) →
  (∀ j, j ∈ ks → j ∈ mine) → (∀ j, j ∈ P → j ∈ mine) → side_ok sg P other →
  ∃ sg', each (isolate mine other) sg ks = Ret sg' ∧ wf n sg' ∧ side_ok sg' (reverse ks ++ P) other ∧
    ∀ a b, a ∈ other → b ∈ other → link sg' a b = link sg a b.
Proof.
  intros Hwf Hb Hd. revert P sg Hwf. induction ks as [|i ks IH]; intros P sg Hwf Hks HP Hok.
  - exists sg. by split_and!.
  - destruct (isolate_spec n mine other sg i P) as (sg1 & H1 & Hwf1 & Hok1 & Hfr1); auto; [set_solver |].
    destruct (IH (i :: P) sg1) as (sg2 & H2 & Hwf2 & Hok2 & Hfr2); auto; [set_solver | set_solver |].
    exists sg2. split_and!; [| done | | intros; by rewrite Hfr2, Hfr1].
    + unfold each in *. simpl. rewrite H1. exact H2.
    + by rewrite reverse_cons, <- app_assoc.
Qed.

(** *** [MakePartition] *)

(** The arrays when the servers [D] have been placed in them. *)
Definition filled (a b : nat) (D : list nat) : list nat * list nat * nat :=
  (take a D ++ replicate (a - length D) 0%nat,
   drop a D ++ replicate (b - (length D - a)) 0%nat, length D).

Lemma insert_replicate (D : list nat) (k i : nat) :
  (0 < k)%nat → <[length D := i]> (D ++ replicate k 0%nat) = (D ++ [i]) ++ replicate (k - 1) 0%nat.
Proof.
  intros Hk. destruct k as [|k]; [lia |]. simpl. rewrite insert_app_r_alt, Nat.sub_diag by lia. simpl.
  by rewrite <- app_assoc, Nat.sub_0_r.
Qed.

Lemma partition_step_filled l a b D i :
  (length D < a + b)%nat → i ≠ l →
  partition_step l (Ret (filled a b D)) i = Ret (filled a b (D ++ [i])).
Proof.
  intros Hlen Hi. unfold partition_step, filled. simpl. rewrite decide_True by done.
  rewrite !length_app, !length_replicate, length_take, length_drop. simpl.
  destruct (decide (length D < a)%nat) as [Ha|Ha].
  - rewrite decide_True by lia. f_equal. rewrite !take_ge, !drop_ge by (rewrite ?length_app; simpl; lia).
    rewrite insert_replicate by lia. simpl. f_equal; [f_equal |].
    + do 2 f_equal. lia.
    + f_equal. lia.
    + lia.
  - rewrite decide_False by lia. rewrite decide_True by lia. f_equal.
    rewrite (take_app_le D), (drop_app_le D) by lia. f_equal; [f_equal |].
    + do 2 f_equal. lia.
    + replace (length D - (a `min` length D + (a - length D)))%nat with (length (drop a D))
        by (rewrite length_drop; lia).
      rewrite insert_replicate by lia. f_equal. f_equal. lia.
    + lia.
Qed.

Lemma partition_loop l a b ks D :
  (length D + length (filter (λ i, i ≠ l) ks) ≤ a + b)%nat →
  foldl (partition_step l) (Ret (filled a b D)) ks = Ret (filled a b (D ++ filter (λ i, i ≠ l) ks)).
Proof.
  revert D. induction ks as [|i ks IH]; intros D Hlen; cbn [foldl]; [by rewrite app_nil_r |].
  destruct (decide (i = l)) as [->|Hne].
  - rewrite filter_cons_False in * by naive_solver. rewrite <- IH by done. f_equal.
    unfold partition_step, filled. simpl. by rewrite decide_False by naive_solver.
  - rewrite filter_cons_True in * by done. simpl in Hlen. rewrite partition_step_filled by (done || lia).
    rewrite IH by (rewrite length_app; simpl; lia). by rewrite <- app_assoc.
Qed.

Lemma others_of l n :
  (l < n)%nat → l :: filter (λ i, i ≠ l) (seq 0 n) ≡ₚ seq 0 n.
Proof.
  intros Hl. apply NoDup_Permutation; [| apply NoDup_seq |].
  - apply NoDup_cons. split; [rewrite list_elem_of_filter; naive_solver | apply NoDup_filter, NoDup_seq].
  - intros i. rewrite elem_of_cons, list_elem_of_filter, elem_of_seq. lia.
Qed.

(** With an odd number of servers the arrays are filled exactly. *)
Lemma MakePartition_odd sg m l :
  N sg = (2 * m + 1)%nat → (1 ≤ m)%nat → (l < N sg)%nat →
  ∃ p1 p2, MakePartition sg l = Ret (p1, p2 ++ [l]) ∧ length p1 = (m + 1)%nat ∧
    p1 ++ p2 ++ [l] ≡ₚ seq 0 (N sg).
Proof.
  intros Hn Hm Hl. unfold N in *. unfold MakePartition. rewrite Hn in *.
  assert ((2 * m + 1) / 2 = m)%nat as -> by (symmetry; apply (Nat.div_unique _ 2 m 1); lia).
  set (D := filter (λ i, i ≠ l) (seq 0 (2 * m + 1))).
  pose proof (others_of l (2 * m + 1) Hl) as Hperm. fold D in Hperm.
  assert (length D = (2 * m)%nat) as HD.
  { apply Permutation_length in Hperm. simpl in Hperm. rewrite length_seq in Hperm. lia. }
  assert (Ret (replicate (m + 1) 0%nat, replicate m 0%nat, 0%nat) = Ret (filled (m + 1) m [])) as ->.
  { unfold filled. simpl. rewrite take_nil, drop_nil, !Nat.sub_0_r. done. }
  rewrite partition_loop by (fold D; simpl; lia). fold D. simpl.
  assert (replicate (m - (length D - (m + 1))) 0%nat = [0%nat]) as ->
    by (replace (m - (length D - (m + 1)))%nat with 1%nat by lia; done).
  rewrite decide_False by (destruct (drop (m + 1) D); done).
  exists (take (m + 1) D), (drop (m + 1) D). split_and!.
  - f_equal. f_equal.
    + replace (m + 1 - length D)%nat with 0%nat by lia. apply app_nil_r.
    + rewrite length_app. simpl. replace (_ + 1 - 1)%nat with (length (drop (m + 1) D)) by lia.
      rewrite insert_app_r_alt, Nat.sub_diag by lia. done.
  - rewrite length_take. lia.
  - rewrite app_assoc, take_drop. rewrite <- Hperm. by rewrite Permutation_app_comm.
Qed.

(** ** Restarts *)

(** Pointers in use are below [next_ptr]. *)
Definition heap_ok (sg : ServerGrp) : Prop :=
  (∀ p, is_Some (persisters sg !! p) → (p < next_ptr sg)%nat) ∧
  (∀ i s p, srvs sg !! i = Some s → saved s = Some p → is_Some (persisters sg !! p)).

(** What a server that is shut down leaves for its successor. *)
Lemma ShutdownServer_ok n sg i s p x :
  wf n sg → heap_ok sg → srvs sg !! i = Some s → saved s = Some p → persisters sg !! p = Some x →
  ∃ sg', ShutdownServer sg i = Ret sg' ∧ heap_ok sg' ∧ gid sg' = gid sg ∧
    srvs sg' !! i = Some (mkServer (Some (next_ptr sg)) [] (endNames s)) ∧
    persisters sg' = <[next_ptr sg := Copy x]> (persisters sg) ∧ next_ptr sg' = S (next_ptr sg) ∧
    killed sg' = killed sg ++ svcs s ∧
    server_at (net sg') (ServerName (gid sg) i) = None.
Proof.
  intros Hwf [Hh1 Hh2] Hi Hs Hx. assert ((i < n)%nat) as Hlt by (rewrite <- (wf_srvs _ _ Hwf); by eapply lookup_lt_Some).
  destruct (disconnect_spec n sg i (all sg)) as (sg1 & H1 & _ & (E1 & E2 & E3 & E4 & E5 & E6) & _); auto.
  { unfold all. intros j Hj%elem_of_seq. rewrite (wf_srvs _ _ Hwf) in Hj. lia. }
  unfold ShutdownServer. rewrite H1. simpl. unfold shutdownServer. simpl. rewrite E1, Hi. simpl.
  rewrite Hs, E3, Hx. simpl. eexists. split; [done |]. simpl. rewrite E4, E5, E6.
  split_and!; try done.
  - split; simpl.
    + intros q. rewrite lookup_insert. case_decide as Hd; [intros _; lia |]. intros Hq%Hh1. lia.
    + intros j t q. rewrite list_lookup_insert. case_decide as Hd.
      * intros [= <-] [= <-]. rewrite lookup_insert_eq. eauto.
      * intros Hj Hq. rewrite lookup_insert. case_decide; eauto.
  - simpl. apply list_lookup_insert_eq. by eapply lookup_lt_Some.
  - unfold server_at. simpl. by rewrite lookup_insert_eq.
Qed.

Lemma disconnect_ends sg i from sg' : disconnect sg i from = Ret sg' → ends (net sg') = ends (net sg).
Proof.
  assert (∀ sg j k b sg', enable_end sg j k b = Ret sg' → ends (net sg') = ends (net sg)) as He.
  { intros s j k b s' H. unfold enable_end in H. unwrap_go. by simplify_eq/=. }
  assert (∀ from sg sg', disconnect_out sg i from = Ret sg' → ends (net sg') = ends (net sg)) as Ho.
  { induction from0 as [|j l IH]; intros s s' H; simpl in H; [by simplify_eq |]. unwrap_go. etrans; [by apply IH | by eapply He]. }
  assert (∀ from sg sg', disconnect_in sg i from = Ret sg' → ends (net sg') = ends (net sg)) as Hi.
  { induction from0 as [|j l IH]; intros s s' H; simpl in H; [by simplify_eq |]. unwrap_go. etrans; [by apply IH | by eapply He]. }
  intros H. unfold disconnect in H. unwrap_go. etrans; [by eapply Hi |]. etrans; [by eapply Ho |].
  unfold set_connected_at in *. case_decide; by simplify_eq/=.
Qed.

Lemma StartServer_ok sg i s p x names svs rn :
  heap_ok sg → srvs sg !! i = Some s → saved s = Some p → persisters sg !! p = Some x →
  make_ends (net sg) (gid sg) 0 names = Ret rn →
  ∃ sg', StartServer sg i names svs = Ret sg' ∧
    srvs sg' !! i = Some (mkServer (Some (next_ptr sg)) svs names) ∧
    persisters sg' = <[next_ptr sg := Copy x]> (persisters sg) ∧
    server_at (net sg') (ServerName (gid sg) i) = Some (S (next_ptr sg)).
Proof.
  intros Hh Hi Hs Hx Hm. unfold StartServer, makeServer. rewrite Hi. simpl. rewrite Hm. simpl. rewrite Hs, Hx. simpl.
  eexists. split; [done |]. simpl. split_and!.
  - apply list_lookup_insert_eq. by eapply lookup_lt_Some.
  - done.
  - unfold server_at. simpl. by rewrite lookup_insert_eq.
Qed.

(** Whatever the state of server [i], shutting it down returns. *)
Lemma ShutdownServer_returns n sg i :
  wf n sg → heap_ok sg → (i < n)%nat →
  ∃ sg', ShutdownServer sg i = Ret sg' ∧ heap_ok sg' ∧ (next_ptr sg ≤ next_ptr sg')%nat ∧ ends (net sg') = ends (net sg).
Proof.
  intros Hwf Hh Hlt. pose proof Hh as [Hh1 Hh2].
  destruct (disconnect_spec n sg i (all sg)) as (sg1 & H1 & _ & (E1 & E2 & E3 & E4 & E5 & E6) & _); auto.
  { unfold all. intros j Hj%elem_of_seq. rewrite (wf_srvs _ _ Hwf) in Hj. lia. }
  pose proof (disconnect_ends _ _ _ _ H1) as He.
  destruct (lookup_lt_is_Some_2 (srvs sg) i) as [s Hs]; [by rewrite (wf_srvs _ _ Hwf) |].
  unfold ShutdownServer. rewrite H1. simpl. unfold shutdownServer. simpl. rewrite E1, Hs. simpl.
  destruct (saved s) as [p|] eqn:Esv.
  - destruct (Hh2 _ _ _ Hs Esv) as [x Hx]. rewrite E3, Hx. simpl. eexists. split; [done |]. simpl. rewrite E4.
    split_and!; [| lia | done]. split; simpl.
    + intros q. rewrite lookup_insert. case_decide as Hd; [intros _; lia |]. intros Hq%Hh1. lia.
    + intros j t q. rewrite list_lookup_insert. case_decide as Hd.
      * intros [= <-] [= <-]. rewrite lookup_insert_eq. eauto.
      * intros Hj Hq. rewrite lookup_insert. case_decide; eauto.
  - eexists. split; [done |]. simpl. rewrite E3, E4. split_and!; [| done | done]. split; simpl; [done |].
    intros j t q. rewrite list_lookup_insert. case_decide as Hd; [by intros [= <-] | eauto].
Qed.

Lemma StartServer_heap sg i names svs sg' :
  heap_ok sg → StartServer sg i names svs = Ret sg' → heap_ok sg'.
Proof.
  intros [H1 H2] H. unfold StartServer in H. unwrap_go. simplify_eq/=. split; simpl.
  - intros q. rewrite lookup_insert. case_decide; [intros _; lia |]. intros Hq%H1. lia.
  - intros j t q. rewrite list_lookup_insert. case_decide as Hd.
    + intros [= <-] [= <-]. rewrite lookup_insert_eq. eauto.
    + intros Hj Hq. rewrite lookup_insert. case_decide; eauto.
Qed.

(** ** The properties *)

(** [Partition] leaves exactly the links within a side. *)
Lemma group_Partition_spec (n : nat) (sg : ServerGrp) (p1 p2 : list nat) :
  wf n sg → (∀ j, j ∈ p1 ++ p2 → (j < n)%nat) → (∀ j, j ∈ p1 → j ∉ p2) →
  ∃ sg', Partition sg p1 p2 = Ret sg' ∧ wf n sg' ∧
    (∀ a b, a ∈ p1 → b ∈ p1 → link sg' a b = true) ∧
    (∀ a b, a ∈ p2 → b ∈ p2 → link sg' a b = true) ∧
    (∀ a b, a ∈ p1 → b ∈ p2 → link sg' a b = false ∧ link sg' b a = false).
Proof.
  intros Hwf Hb Hd. unfold Partition. fold (isolate p1 p2). fold (isolate p2 p1).
  assert (side_ok sg [] p2) as H0 by (split_and!; intros ? ?; try intros ?; set_solver).
  destruct (side_loop n p1 p2 p1 [] sg) as (sg1 & H1 & Hwf1 & Hok1 & _); auto; [set_solver |].
  rewrite H1. simpl.
  assert (side_ok sg1 [] p1) as H0' by (split_and!; intros ? ?; try intros ?; set_solver).
  destruct (side_loop n p2 p1 p2 [] sg1) as (sg2 & H2 & Hwf2 & Hok2 & Hfr); auto; [set_solver.. |].
  exists sg2. rewrite app_nil_r in Hok1, Hok2. destruct Hok1 as (_ & Hin1 & _), Hok2 as (_ & Hin2 & Hout2).
  split_and!; [done | done | | |].
  - intros a b Ha Hb'. rewrite Hfr by done. apply Hin1; by rewrite elem_of_reverse.
  - intros a b Ha Hb'. apply Hin2; by rewrite elem_of_reverse.
  - intros a b Ha Hb'. destruct (Hout2 b a) as [? ?]; [by rewrite elem_of_reverse | done | done].
Qed.

(** C25: after [Partition(p1, p2)] of disjoint sets of servers, from any
    state of the group, a request passes from one server to another exactly
    when they are on the same side. *)
Theorem Partition_isolates (n : nat) (sg : ServerGrp) (p1 p2 : list nat)
    (Hwf : wf n sg) (Hb : ∀ j, j ∈ p1 ++ p2 → (j < n)%nat) (Hd : ∀ j, j ∈ p1 → j ∉ p2) :
  ∃ sg', Partition sg p1 p2 = Ret sg' ∧ wf n sg' ∧
    (∀ a b, a ∈ p1 → b ∈ p1 → link sg' a b = true) ∧
    (∀ a b, a ∈ p2 → b ∈ p2 → link sg' a b = true) ∧
    (∀ a b, a ∈ p1 → b ∈ p2 → link sg' a b = false ∧ link sg' b a = false).
Proof. by apply group_Partition_spec. Qed.

(** With an odd number of servers, [MakePartition(l)] splits them into
    a majority without [l] and a minority that ends with [l], together all
    servers, each once.  With four servers it does not: an array slot is never
    written, and server 0 is on both sides. *)
Theorem MakePartition_splits :
  (∀ (sg : ServerGrp) (m l : nat), N sg = (2 * m + 1)%nat → (1 ≤ m)%nat → (l < N sg)%nat →
     ∃ p1 p2, MakePartition sg l = Ret (p1, p2 ++ [l]) ∧ length p1 = (m + 1)%nat ∧
       p1 ++ p2 ++ [l] ≡ₚ seq 0 (N sg)) ∧
  (∀ sg : ServerGrp, N sg = 4%nat → MakePartition sg 3 = Ret ([0; 1; 2]%nat, [0; 3]%nat)).
Proof.
  split; [exact MakePartition_odd |]. intros sg Hn. unfold N in Hn. unfold MakePartition. rewrite Hn. reflexivity.
Qed.

(** C23: a restarted server gets exactly the state its predecessor had
    persisted when it was shut down, in a persister of its own: whatever the
    old instance still saves, to its own persister or to the one made at
    shutdown, does not reach the new one.  The old services were killed, and
    in between no request could reach the server. *)
Theorem restart_isolates_state (n : nat) (sg : ServerGrp) (i : nat) (s : Server) (p : nat) (x : Persister)
    (names : list string) (svs : list nat)
    (Hwf : wf n sg) (Hh : heap_ok sg) (Hi : srvs sg !! i = Some s) (Hs : saved s = Some p)
    (Hx : persisters sg !! p = Some x)
    (Hnames : ∀ sg1, ShutdownServer sg i = Ret sg1 → returns (make_ends (net sg1) (gid sg1) 0 names)) :
  ∃ sg1, ShutdownServer sg i = Ret sg1 ∧
    server_at (net sg1) (ServerName (gid sg) i) = None ∧ killed sg1 = killed sg ++ svcs s ∧
    ∀ rs sn, ∃ sg2 q, StartServer (instance_saves sg1 p rs sn) i names svs = Ret sg2 ∧
      srvs sg2 !! i = Some (mkServer (Some q) svs names) ∧
      ∀ rs' sn', persisters (instance_saves (instance_saves sg2 p rs' sn') (next_ptr sg) rs' sn') !! q = Some (Copy x).
Proof.
  destruct (ShutdownServer_ok n sg i s p x) as (sg1 & H1 & Hh1 & Hg1 & Hi1 & Hp1 & Hn1 & Hk1 & Hsv1); auto.
  exists sg1. split_and!; [done | done | done |]. intros rs sn.
  assert (p < next_ptr sg)%nat as Hlt by (apply (proj1 Hh); eauto).
  destruct (Hnames sg1 H1) as [rn Hrn].
  destruct (StartServer_ok (instance_saves sg1 p rs sn) i (mkServer (Some (next_ptr sg)) [] (endNames s))
              (next_ptr sg) (Copy x) names svs rn) as (sg2 & H2 & Hi2 & Hp2 & _); auto.
  - destruct Hh1 as [Ha Hb]. split; simpl.
    + intros q. rewrite lookup_alter. case_decide; [subst; rewrite fmap_is_Some |]; auto.
    + intros j t q Hj Hq. rewrite lookup_alter. case_decide; [subst; rewrite fmap_is_Some |]; eauto.
  - simpl. rewrite lookup_alter_ne by lia. by rewrite Hp1, lookup_insert_eq.
  - exists sg2, (next_ptr sg1). split_and!; [done | done |]. intros rs' sn'. simpl. rewrite Hp2. simpl.
    rewrite !lookup_alter_ne by lia. by rewrite lookup_insert_eq.
Qed.

(** *** Witnesses: three servers *)

Definition three_names : list (list string) :=
  [["e00"; "e01"; "e02"]; ["e10"; "e11"; "e12"]; ["e20"; "e21"; "e22"]]%string.
Definition three_servers : ServerGrp :=
  mkServerGrp MakeNetwork ((λ i : nat, mkServer (Some i) [i] (default [] (three_names !! i))) <$> seq 0 3)
    (ServerName 0 <$> seq 0 3) 0 [true; false; true]
    {[ 0%nat := mkPersister [7] []; 1%nat := MakePersister; 2%nat := MakePersister ]} 3 [].

Lemma three_servers_wf : wf 3 three_servers.
Proof.
  split; [done | done | |].
  - intros [|[|[|i]]] s [= <-]; done.
  - intros [|[|[|i]]] [|[|[|j]]] [|[|[|i']]] [|[|[|j']]] e H1 H2; vm_compute in H1, H2; simplify_eq; done.
Qed.

Lemma Partition_isolates_witness :
  ∃ sg', Partition three_servers [0; 2]%nat [1]%nat = Ret sg' ∧ wf 3 sg' ∧
    (∀ a b, a ∈ [0; 2]%nat → b ∈ [0; 2]%nat → link sg' a b = true) ∧
    (∀ a b, a ∈ [1]%nat → b ∈ [1]%nat → link sg' a b = true) ∧
    (∀ a b, a ∈ [0; 2]%nat → b ∈ [1]%nat → link sg' a b = false ∧ link sg' b a = false).
Proof.
  apply (Partition_isolates 3 three_servers [0; 2]%nat [1]%nat three_servers_wf).
  - intros j [Hj|Hj]%elem_of_app; rewrite !elem_of_cons, elem_of_nil in Hj; lia.
  - intros j Hj Hj'. rewrite !elem_of_cons, elem_of_nil in Hj. apply list_elem_of_singleton in Hj'. lia.
Defined.

Lemma MakePartition_splits_witness :
  ∃ p1 p2, MakePartition three_servers 0 = Ret (p1, p2 ++ [0%nat]) ∧ length p1 = 2%nat ∧
    p1 ++ p2 ++ [0%nat] ≡ₚ seq 0 (N three_servers).
Proof. apply (proj1 MakePartition_splits three_servers 1%nat 0%nat); [reflexivity | lia | vm_compute; lia]. Defined.

Lemma restart_isolates_state_witness :
  ∃ sg1, ShutdownServer three_servers 0 = Ret sg1 ∧
    ∀ rs sn, ∃ sg2 q, StartServer (instance_saves sg1 0 rs sn) 0 ["f0"; "f1"; "f2"]%string [9%nat] = Ret sg2 ∧
      srvs sg2 !! 0%nat = Some (mkServer (Some q) [9%nat] ["f0"; "f1"; "f2"]%string) ∧
      ∀ rs' sn', persisters (instance_saves (instance_saves sg2 0 rs' sn') 3 rs' sn') !! q = Some (mkPersister [7] []).
Proof.
  destruct (restart_isolates_state 3 three_servers 0 (mkServer (Some 0%nat) [0%nat] ["e00"; "e01"; "e02"]%string)
              0 (mkPersister [7] []) ["f0"; "f1"; "f2"]%string [9%nat]) as (sg1 & H1 & _ & _ & H2).
  - apply three_servers_wf.
  - split.
    + intros q [y Hy]. destruct (decide (q < 3)%nat) as [|Hq]; [done |]. exfalso. simpl in Hy.
      rewrite !lookup_insert_ne in Hy by lia. rewrite lookup_singleton_ne in Hy by lia. done.
    + intros [|[|[|j]]] t q [= <-] [= <-]; vm_compute; eauto.
  - reflexivity.
  - reflexivity.
  - reflexivity.
  - intros sg1 H1. vm_compute in H1. injection H1 as <-. eexists. vm_compute. reflexivity.
  - exists sg1. split; [exact H1 | exact H2].
Defined.

End TesterGroup.
