(* ===== verification/RaftTest.v ===== *)
(** * The Raft lab's tester: [raft1/server.go] and [raft1/test.go]

    Each Raft peer runs under an [rfsrv] that reads its apply channel, checks
    every committed entry against what all servers have recorded and builds
    snapshots; [Test] keeps the servers and asks them who leads and what is
    committed.  The servers are Go pointers: a restarted server is a new
    object, and the goroutine of the old one still runs, so the objects live
    in a heap and the table of servers holds pointers into it.  The snapshot
    encoding ([labgob] over [encoding/gob]) is the class [SnapCodec]. *)

From S2P Require Import Prelude Raft RaftCluster RaftElection TesterGroup.
Import Raft.
#[local] Open Scope Z_scope.

Module RaftTest.

#[export] Instance Any_eq_dec : EqDecision Any.
Proof. solve_decision. Defined.

(** [fmt.Sprintf("%v", x)]. *)
Definition show (x : Any) : string :=
  match x with any_nil => "<nil>" | any_int z => Itoa z | any_string s => s end.

(** What the tester needs of the snapshot encoding: the two [Decode] calls of
    [ingestSnap] give back what the two [Encode] calls wrote. *)
Class SnapCodec := {
  enc : Z → list Any → list Z;
  dec : list Z → option (Z * list Any);
  dec_enc : ∀ k xlog, dec (enc k xlog) = Some (k, xlog);
  enc_nonempty : ∀ k xlog, enc k xlog ≠ []
}.

(** ** Data *)

Definition SnapShotInterval : Z := 10.

(** [raftapi.ApplyMsg]; a nil snapshot is [None]. *)
Record ApplyMsg := mkApplyMsg {
  CommandValid : bool;
  Command : Any;
  CommandIndex : Z;
  SnapshotValid : bool;
  Snapshot : option (list Z);
  SnapshotTerm : Z;
  SnapshotIndex : Z
}.

(** [raft] says whether the field is not nil. *)
Record rfsrv := mkRfsrv {
  me : nat;
  applyErr : string;
  lastApplied : Z;
  raft : bool;
  logs : gmap Z Any
}.

(** [Test] with the heap of the servers it made.  [creating] holds the
    servers [newRfsrv] has made and [mksrv] has not yet stored, [snapshots]
    the calls of [Raft.Snapshot] so far. *)
Record Test := mkTest {
  srvs : list (option nat);
  maxIndex : Z;
  snapshot : bool;
  finished : Z;
  heap : list rfsrv;
  creating : list (nat * nat);
  snapshots : list (Z * list Z)
}.

Definition makeTest (n : nat) (snapshot : bool) : Test := mkTest (replicate n None) 0 snapshot 0 [] [] [].

Definition set_heap (ts : Test) (h : list rfsrv) : Test :=
  mkTest (srvs ts) (maxIndex ts) (snapshot ts) (finished ts) h (creating ts) (snapshots ts).
Definition set_maxIndex (ts : Test) (m : Z) : Test :=
  mkTest (srvs ts) m (snapshot ts) (finished ts) (heap ts) (creating ts) (snapshots ts).
Definition set_logs (rs : rfsrv) (l : gmap Z Any) : rfsrv :=
  mkRfsrv (me rs) (applyErr rs) (lastApplied rs) (raft rs) l.
Definition set_lastApplied (rs : rfsrv) (k : Z) : rfsrv :=
  mkRfsrv (me rs) (applyErr rs) k (raft rs) (logs rs).
Definition set_obj (ts : Test) (p : nat) (rs : rfsrv) : Test := set_heap ts (<[p := rs]> (heap ts)).

Definition nil_pointer : string := "nil pointer dereference".

(** Following [ts.srvs[i]] to its object. *)
Definition obj (ts : Test) (o : option nat) : GoRes rfsrv :=
  (let* p := deref o nil_pointer in deref (heap ts !! p) nil_pointer)%go.

Definition Logs (rs : rfsrv) (i : Z) : option Any := logs rs !! i.

(** ** [Test.checkLogs] *)

Definition mismatch (i : nat) (m : ApplyMsg) (j : nat) (old : Any) : string :=
  "commit index=" +:+ Itoa (CommandIndex m) +:+ " server=" +:+ pretty i +:+ " " +:+ show (Command m) +:+
  " != server=" +:+ pretty j +:+ " " +:+ show old.

(** The loop over the servers; the last mismatch is the one reported. *)
Fixpoint compare_logs (ts : Test) (i : nat) (m : ApplyMsg) (j : nat) (l : list (option nat)) (err_msg : string) :
    GoRes string :=
  match l with
  | [] => Ret err_msg
  | o :: l =>
      (let* rs := obj ts o in
       compare_logs ts i m (S j) l
         match Logs rs (CommandIndex m) with
         | Some old => if decide (old ≠ Command m) then mismatch i m j old else err_msg
         | None => err_msg
         end)%go
  end.

Definition checkLogs (ts : Test) (i : nat) (m : ApplyMsg) : GoRes (Test * string * bool) :=
  (let* o := deref (srvs ts !! i) "index out of range" in
   let* err_msg := compare_logs ts i m 0 (srvs ts) "" in
   let* p := deref o nil_pointer in
   let* rs := deref (heap ts !! p) nil_pointer in
   let prevok := bool_decide (is_Some (logs rs !! (CommandIndex m - 1))) in
   let ts := set_obj ts p (set_logs rs (<[CommandIndex m := Command m]> (logs rs))) in
   let ts := if decide (CommandIndex m > maxIndex ts) then set_maxIndex ts (CommandIndex m) else ts in
   Ret (ts, err_msg, prevok))%go.

(** ** The apply loops: one message each *)

Definition out_of_order (i : nat) (k : Z) : string :=
  "server " +:+ pretty i +:+ " apply out of order " +:+ Itoa k.

(** [checkLogs] with the order check that follows it in both loops. *)
Definition check_command (ts : Test) (i : nat) (m : ApplyMsg) : GoRes (Test * string) :=
  (let* (ts, err_msg, prevok) := checkLogs ts i m in
   Ret (ts, if decide (CommandIndex m > 1 ∧ prevok = false) then out_of_order i (CommandIndex m) else err_msg))%go.

(** [log.Fatalf("apply error")]. *)
Definition fail_if {A : Type} (err_msg : string) (a : A) : GoRes A :=
  if decide (err_msg ≠ "") then Abort ("apply error: " +:+ err_msg) else Ret a.

Definition applier (ts : Test) (p : nat) (m : ApplyMsg) : GoRes Test :=
  if CommandValid m then
    (let* rs := deref (heap ts !! p) nil_pointer in
     let* (ts, err_msg) := check_command ts (me rs) m in
     fail_if err_msg ts)%go
  else Ret ts.

Section tester.
Context `{SnapCodec}.

(** [ingestSnap]: the server and the error string. *)
Definition ingestSnap (rs : rfsrv) (snapshot : option (list Z)) (index : Z) : GoRes (rfsrv * string) :=
  match snapshot with
  | None => Abort "nil snapshot"
  | Some bytes =>
      match dec bytes with
      | None => Abort "snapshot decode error"
      | Some (lastIncludedIndex, xlog) =>
          if decide (index ≠ -1 ∧ index ≠ lastIncludedIndex) then
            Ret (rs, "server " +:+ pretty (me rs) +:+ " snapshot doesn't match m.SnapshotIndex")
          else
            Ret (set_lastApplied (set_logs rs (list_to_map (imap (λ j x, (Z.of_nat j, x)) xlog))) lastIncludedIndex, "")
      end
  end.

(** The entries a snapshot at [index] holds: [rs.logs[0..index]], nil where
    there is none. *)
Definition xlog_of (rs : rfsrv) (index : Z) : list Any :=
  (λ j : nat, default any_nil (logs rs !! Z.of_nat j)) <$> seq 0 (Z.to_nat (index + 1)).

Definition make_snapshot (ts : Test) (p : nat) (index : Z) : GoRes Test :=
  if decide (Z.rem (int64 (index + 1)) SnapShotInterval = 0) then
    (let* rs := deref (heap ts !! p) nil_pointer in
     if raft rs then
       Ret (mkTest (srvs ts) (maxIndex ts) (snapshot ts) (finished ts) (heap ts) (creating ts)
              (snapshots ts ++ [(index, enc index (xlog_of rs index))]))
     else Abort nil_pointer)%go
  else Ret ts.

Definition applierSnap (ts : Test) (p : nat) (m : ApplyMsg) : GoRes Test :=
  (let* rs := deref (heap ts !! p) nil_pointer in
   if SnapshotValid m then
     let* (rs, err_msg) := ingestSnap rs (Snapshot m) (SnapshotIndex m) in
     fail_if err_msg (set_obj ts p rs)
   else if CommandValid m then
     let* (ts, err_msg) :=
       if decide (CommandIndex m ≠ int64 (lastApplied rs + 1)) then
         Ret (ts, "server " +:+ pretty (me rs) +:+ " apply out of order, expected index " +:+
                  Itoa (int64 (lastApplied rs + 1)) +:+ ", got " +:+ Itoa (CommandIndex m))
       else check_command ts (me rs) m in
     let* rs := deref (heap ts !! p) nil_pointer in
     let ts := set_obj ts p (set_lastApplied rs (CommandIndex m)) in
     let* ts := make_snapshot ts p (CommandIndex m) in
     fail_if err_msg ts
   else Ret ts)%go.

(** ** Making and killing a server *)

(** [newRfsrv]: the new object, before [mksrv] stores it. *)
Definition newRfsrv (ts : Test) (srv : nat) (ps : TesterGroup.Persister) : GoRes Test :=
  let s := mkRfsrv srv "" 0 true ∅ in
  (let* (s, err) :=
     if decide (snapshot ts = true ∧ TesterGroup.ReadSnapshot ps ≠ []) then
       ingestSnap s (Some (TesterGroup.ReadSnapshot ps)) (-1)
     else Ret (s, "") in
   if decide (err ≠ "") then Abort err
   else Ret (mkTest (srvs ts) (maxIndex ts) (snapshot ts) (finished ts) (heap ts ++ [s])
               (creating ts ++ [(srv, length (heap ts))]) (snapshots ts)))%go.

(** [ts.srvs[srv] = s] in [mksrv]. *)
Definition mksrv_store (ts : Test) (srv p : nat) : GoRes Test :=
  if decide (srv < length (srvs ts))%nat then
    Ret (mkTest (<[srv := Some p]> (srvs ts)) (maxIndex ts) (snapshot ts) (finished ts) (heap ts)
           (filter (λ c, c ≠ (srv, p)) (creating ts)) (snapshots ts))
  else Abort "index out of range".

(** [rfsrv.Kill]: the field is cleared; what was persisted is saved again. *)
Definition Kill (rs : rfsrv) (ps : TesterGroup.Persister) : rfsrv * TesterGroup.Persister :=
  (mkRfsrv (me rs) (applyErr rs) (lastApplied rs) false (logs rs),
   TesterGroup.Save ps (TesterGroup.ReadRaftState ps) (TesterGroup.ReadSnapshot ps)).

(** ** The tester as a transition system

    A message reaches the apply loop of the object [p], whether or not [p] is
    still the server the table holds. *)
Inductive Label : Type :=
| LNew (srv : nat) (ps : TesterGroup.Persister)
| LStore (srv p : nat)
| LApply (p : nat) (m : ApplyMsg)
| LKill (p : nat) (ps : TesterGroup.Persister).

Definition exec (l : Label) (ts : Test) : option (GoRes Test) :=
  match l with
  | LNew srv ps => Some (newRfsrv ts srv ps)
  | LStore srv p => if decide ((srv, p) ∈ creating ts) then Some (mksrv_store ts srv p) else None
  | LApply p m =>
      rs ← heap ts !! p;
      Some (if snapshot ts then applierSnap ts p m else applier ts p m)
  | LKill p ps => rs ← heap ts !! p; Some (Ret (set_obj ts p (Kill rs ps).1))
  end.

(** ** Questions about the committed entries *)

(** [Test.nCommitted]: the count and the command. *)
Fixpoint nCommitted_loop (ts : Test) (index : Z) (l : list (option nat)) (count : Z) (cmd : Any) : GoRes (Z * Any) :=
  match l with
  | [] => Ret (count, cmd)
  | o :: l =>
      (let* rs := obj ts o in
       if decide (applyErr rs ≠ "") then Abort (applyErr rs)
       else match Logs rs index with
            | Some cmd1 =>
                if decide (count > 0 ∧ cmd ≠ cmd1) then
                  Abort ("committed values at index " +:+ Itoa index +:+ " do not match (" +:+ show cmd +:+ " != "
                         +:+ show cmd1 +:+ ")")
                else nCommitted_loop ts index l (count + 1) cmd1
            | None => nCommitted_loop ts index l count cmd
            end)%go
  end.

Definition nCommitted (ts : Test) (index : Z) : GoRes (Z * Any) := nCommitted_loop ts index (srvs ts) 0 any_nil.

Definition checkNoAgreement (ts : Test) (index : Z) : GoRes unit :=
  (let* (n, _) := nCommitted ts index in
   if decide (n > 0) then Abort (Itoa n +:+ " committed but no majority") else Ret tt)%go.

Definition checkFinished (ts : Test) : bool := bool_decide (finished ts ≠ 0).

(** ** Runs *)

Fixpoint run (ls : list Label) (ts : Test) : option (GoRes Test) :=
  match ls with
  | [] => Some (Ret ts)
  | l :: ls => match exec l ts with Some (Ret ts) => run ls ts | r => r end
  end.

(** What server [i] of the table has recorded for index [k]. *)
Definition committed (ts : Test) (i : nat) (k : Z) : option Any :=
  o ← srvs ts !! i; p ← o; rs ← heap ts !! p; logs rs !! k.

Definition all_stored (ts : Test) : Prop := Forall is_Some (srvs ts).

(** How many servers of the table have an entry at [k]. *)
Definition has_entry (ts : Test) (k : Z) (o : option nat) : Prop :=
  is_Some (p ← o; rs ← heap ts !! p; logs rs !! k).
#[export] Instance has_entry_dec ts k o : Decision (has_entry ts k o).
Proof. unfold has_entry. apply _. Defined.
Definition count_committed (ts : Test) (k : Z) : nat := length (filter (has_entry ts k) (srvs ts)).

(** The pointers of the table and of [mksrv] calls under way. *)
Record pointers_ok (ts : Test) : Prop := {
  stored_ok : ∀ i p, srvs ts !! i = Some (Some p) → ∃ rs, heap ts !! p = Some rs ∧ me rs = i;
  creating_ok : ∀ i p, (i, p) ∈ creating ts → ∃ rs, heap ts !! p = Some rs ∧ me rs = i;
  creating_fresh : ∀ i p, (i, p) ∈ creating ts → Some p ∉ srvs ts;
  no_applyErr : ∀ p rs, heap ts !! p = Some rs → applyErr rs = ""
}.

Lemma committed_Some ts i k v :
  committed ts i k = Some v ↔
  ∃ p rs, srvs ts !! i = Some (Some p) ∧ heap ts !! p = Some rs ∧ logs rs !! k = Some v.
Proof.
  unfold committed. split.
  - intros ([p|] & Hi & Hp)%bind_Some; simpl in Hp; [| done].
    apply bind_Some in Hp as (rs & Hrs & Hv). eauto.
  - intros (p & rs & Hi & Hrs & Hv). by rewrite Hi; simpl; rewrite Hrs.
Qed.

Lemma obj_Ret ts o rs : obj ts o = Ret rs ↔ ∃ p, o = Some p ∧ heap ts !! p = Some rs.
Proof.
  unfold obj. destruct o as [p|]; simpl; [| naive_solver].
  destruct (heap ts !! p) eqn:E; simpl; naive_solver.
Qed.

Lemma compare_logs_clean ts i m j l err :
  compare_logs ts i m j l err = Ret "" →
  err = "" ∧ ∀ o, o ∈ l → ∃ rs, obj ts o = Ret rs ∧ ∀ old, logs rs !! CommandIndex m = Some old → old = Command m.
Proof.
  revert j err. induction l as [|o l IH]; intros j err; simpl.
  - intros [= ->]. split; [done |]. by intros ? ?%elem_of_nil.
  - intros (rs & Hrs & Hl)%go_bind_Ret_inv. apply IH in Hl as [Herr Hl]. unfold Logs in Herr.
    assert (err = "" ∧ ∀ old, logs rs !! CommandIndex m = Some old → old = Command m) as [-> Hm].
    { destruct (logs rs !! CommandIndex m) as [old|]; [| naive_solver]. case_decide as Hd; [done |].
      split; [done |]. intros ? [= <-]. by destruct (decide (old = Command m)). }
    split; [done |]. intros o' [->|Ho']%elem_of_cons; eauto.
Qed.

(** A message that neither loop complains about: every server that has the
    entry has the same command, the entry before it is there, and the
    server's log gets the entry. *)
Lemma check_command_clean ts i m ts' :
  check_command ts i m = Ret (ts', "") →
  ∃ p rs, srvs ts !! i = Some (Some p) ∧ heap ts !! p = Some rs ∧
    (∀ j v, committed ts j (CommandIndex m) = Some v → v = Command m) ∧
    (1 < CommandIndex m → is_Some (logs rs !! (CommandIndex m - 1))) ∧
    heap ts' = <[p := set_logs rs (<[CommandIndex m := Command m]> (logs rs))]> (heap ts) ∧
    srvs ts' = srvs ts ∧ snapshot ts' = snapshot ts ∧ creating ts' = creating ts ∧ snapshots ts' = snapshots ts.
Proof.
  unfold check_command, checkLogs. intros (((t & err) & prevok) & H1 & H2)%go_bind_Ret_inv.
  unwrap_go. simplify_eq. rename x1 into p, x2 into rs.
  case_decide as Hd; [done |]. simplify_eq.
  match goal with E : compare_logs _ _ _ _ _ _ = _ |- _ => apply compare_logs_clean in E as [_ Hcmp] end.
  exists p, rs. split; [done |]. split; [done |]. split_and!.
  - intros j v (q & rs' & Hj & Hq & Hv)%committed_Some.
    destruct (Hcmp (Some q)) as (rs'' & (? & [= <-] & ?)%obj_Ret & Hsame); [by eapply list_elem_of_lookup_2 |].
    simplify_eq. eauto.
  - intros Hk. destruct (bool_decide (is_Some (logs rs !! (CommandIndex m - 1)))) eqn:E;
      [by apply bool_decide_eq_true in E |]. exfalso. apply Hd. split; [lia | done].
  - by case_decide.
  - by case_decide.
  - by case_decide.
  - by case_decide.
  - by case_decide.
Qed.

(** The table after one server's log changed. *)
Lemma committed_update ts ts' i p rs l j k :
  pointers_ok ts → srvs ts' = srvs ts → srvs ts !! i = Some (Some p) → heap ts !! p = Some rs →
  heap ts' = <[p := set_logs rs l]> (heap ts) →
  committed ts' j k = if decide (j = i) then l !! k else committed ts j k.
Proof.
  intros Hok Hs Hi Hp Hh. unfold committed. rewrite Hs, Hh. case_decide as Hd.
  - subst. rewrite Hi. simpl. by rewrite list_lookup_insert_eq by by eapply lookup_lt_Some.
  - destruct (srvs ts !! j) as [[q|]|] eqn:Hj; simpl; [| done..].
    destruct (decide (q = p)) as [->|Hq]; [| by rewrite list_lookup_insert_ne].
    exfalso. destruct (stored_ok _ Hok _ _ Hi) as (? & ? & ?). destruct (stored_ok _ Hok _ _ Hj) as (? & ? & ?).
    by simplify_eq.
Qed.

Lemma pointers_ok_update ts ts' p rs rs' :
  pointers_ok ts → heap ts !! p = Some rs → me rs' = me rs → applyErr rs' = applyErr rs →
  heap ts' = <[p := rs']> (heap ts) → srvs ts' = srvs ts → creating ts' = creating ts →
  pointers_ok ts'.
Proof.
  intros [H1 H2 H3 H4] Hp Hme He Hh Hs Hc.
  assert (∀ q rq, heap ts !! q = Some rq →
            ∃ rq', heap ts' !! q = Some rq' ∧ me rq' = me rq) as Hsame.
  { intros q rq Hq. rewrite Hh. destruct (decide (q = p)) as [->|].
    - simplify_eq. exists rs'. by rewrite list_lookup_insert_eq by by eapply lookup_lt_Some.
    - exists rq. by rewrite list_lookup_insert_ne. }
  split.
  - rewrite Hs. intros i q (rq & Hq & <-)%H1. eauto.
  - rewrite Hc. intros i q (rq & Hq & <-)%H2. eauto.
  - by rewrite Hs, Hc.
  - intros q rq. rewrite Hh. destruct (decide (q = p)) as [->|].
    + rewrite list_lookup_insert_eq by by eapply lookup_lt_Some. intros [= <-]. rewrite He. eauto.
    + rewrite list_lookup_insert_ne by done. eauto.
Qed.

Lemma pointers_ok_new ts ts' srv s :
  pointers_ok ts → me s = srv → applyErr s = "" → heap ts' = heap ts ++ [s] → srvs ts' = srvs ts →
  creating ts' = creating ts ++ [(srv, length (heap ts))] → pointers_ok ts'.
Proof.
  intros [H1 H2 H3 H4] Hme He Hh Hs Hc.
  assert (∀ q rq, heap ts !! q = Some rq → heap ts' !! q = Some rq) as Hold.
  { intros q rq Hq. rewrite Hh. by apply lookup_app_l_Some. }
  assert (heap ts' !! length (heap ts) = Some s) as Hnew by (rewrite Hh; by apply list_lookup_middle).
  split.
  - rewrite Hs. intros i p (rs & ? & ?)%H1. eauto.
  - rewrite Hc. intros i p [Hin|[= -> ->]%list_elem_of_singleton]%elem_of_app; [| eauto].
    apply H2 in Hin as (rs & ? & ?). eauto.
  - rewrite Hs, Hc. intros i p [Hin|[= -> ->]%list_elem_of_singleton]%elem_of_app; [eauto |].
    intros (j & Hj)%list_elem_of_lookup. apply H1 in Hj as (rs & Hrs & _).
    apply lookup_lt_Some in Hrs. lia.
  - intros q rq. rewrite Hh. intros [[_ Hq]|[_ <-]]%lookup_snoc_Some; eauto.
Qed.

Lemma pointers_ok_store ts ts' srv p :
  pointers_ok ts → (srv, p) ∈ creating ts → (srv < length (srvs ts))%nat →
  srvs ts' = <[srv := Some p]> (srvs ts) → heap ts' = heap ts →
  creating ts' = filter (λ c, c ≠ (srv, p)) (creating ts) → pointers_ok ts'.
Proof.
  intros [H1 H2 H3 H4] Hin Hlt Hs Hh Hc. split; rewrite ?Hs, ?Hh, ?Hc.
  - intros i q [(<- & [= <-] & ?)|[? ?]]%list_lookup_insert_Some; eauto.
  - intros i q [_ ?]%list_elem_of_filter. eauto.
  - intros i q [Hne Hiq]%list_elem_of_filter (j & Hj)%list_elem_of_lookup.
    apply list_lookup_insert_Some in Hj as [(<- & [= <-] & ?)|[? Hj]].
    + apply H2 in Hin as (? & ? & ?). apply H2 in Hiq as (? & ? & ?). naive_solver.
    + eapply H3; [done | by eapply list_elem_of_lookup_2].
  - done.
Qed.

(** ** Without snapshots: what the apply loops guarantee *)

Record agree_inv (ts : Test) : Prop := {
  ai_mode : snapshot ts = false;
  ai_pointers : pointers_ok ts;
  ai_creating : ∀ i p rs, (i, p) ∈ creating ts → heap ts !! p = Some rs → logs rs = ∅;
  ai_agree : ∀ i j k v w, committed ts i k = Some v → committed ts j k = Some w → v = w;
  ai_order : ∀ i k v, committed ts i k = Some v → 1 < k → is_Some (committed ts i (k - 1))
}.

Lemma agree_inv_init n : agree_inv (makeTest n false).
Proof.
  assert (∀ i p, srvs (makeTest n false) !! i ≠ Some (Some p)) as Hno.
  { intros i p [Hi _]%lookup_replicate. done. }
  assert (∀ i k v, committed (makeTest n false) i k ≠ Some v) as Hnone.
  { intros i k v (p & rs & Hi & _)%committed_Some. by apply Hno in Hi. }
  split; try done; try (naive_solver || by intros * ?%elem_of_nil).
  split; try (naive_solver || by intros * ?%elem_of_nil).
Qed.

Lemma applier_agrees ts p m ts' : agree_inv ts → applier ts p m = Ret ts' → agree_inv ts'.
Proof.
  intros [Hm Hok Hcr Hag Hor]. unfold applier. destruct (CommandValid m); [| by intros [= <-]].
  intros (rs0 & _ & Hb)%go_bind_Ret_inv. apply go_bind_Ret_inv in Hb as ([t err] & Hc & Hf).
  unfold fail_if in Hf. case_decide as Herr; [done |]. simplify_eq.
  apply check_command_clean in Hc as (q & rs & Hi & Hq & Hall & Hprev & Hh & Hs & Hsn & Hcre & _).
  pose proof (λ j k, committed_update ts ts' (me rs0) q rs _ j k Hok Hs Hi Hq Hh) as Hcom.
  assert (∀ k, logs rs !! k = committed ts (me rs0) k) as Hlog.
  { intros k. unfold committed. rewrite Hi. simpl. by rewrite Hq. }
  split.
  - congruence.
  - by apply (pointers_ok_update ts ts' q rs (set_logs rs (<[CommandIndex m := Command m]> (logs rs)))); [..| congruence].
  - rewrite Hcre, Hh. intros i p' rp Hin. destruct (decide (p' = q)) as [->|].
    + destruct (creating_fresh _ Hok _ _ Hin). by eapply list_elem_of_lookup_2.
    + rewrite list_lookup_insert_ne by done. eauto.
  - assert (∀ i k v, committed ts' i k = Some v → k = CommandIndex m ∧ v = Command m ∨ committed ts i k = Some v) as Hc.
    { intros i k v. rewrite Hcom. case_decide as Hd; [| by right]. subst.
      intros [[<- <-]|[_ Hl]]%lookup_insert_Some; [by left | right]. by rewrite <- Hlog. }
    intros i j k v w [[-> ->]|Hv]%Hc [[? ->]|Hw]%Hc; [done | .. | eauto].
    + symmetry. eauto.
    + subst. eauto.
  - intros i k v. rewrite !Hcom. case_decide as Hd; [subst | eauto].
    intros [[<- <-]|[_ Hl]]%lookup_insert_Some Hk; apply lookup_insert_is_Some';
      right; [by apply Hprev |]. rewrite Hlog in *. eauto.
Qed.

Lemma agree_inv_step ts l ts' : agree_inv ts → exec l ts = Some (Ret ts') → agree_inv ts'.
Proof.
  intros Hinv. pose proof Hinv as [Hm Hok Hcr Hag Hor]. destruct l as [srv ps|srv p|p m|p ps]; simpl.
  - unfold newRfsrv. rewrite Hm, decide_False by naive_solver. simpl. intros [= <-].
    assert (∀ i k, committed (mkTest (srvs ts) (maxIndex ts) false (finished ts)
      (heap ts ++ [mkRfsrv srv "" 0 true ∅]) (creating ts ++ [(srv, length (heap ts))]) (snapshots ts)) i k = committed ts i k) as Hc.
    { intros i k. unfold committed. simpl. destruct (srvs ts !! i) as [[p|]|] eqn:Hi; simpl; [| done..].
      destruct (stored_ok _ Hok _ _ Hi) as (rs & Hp & _). by rewrite (lookup_app_l_Some _ _ _ _ Hp), Hp. }
    split; simpl; [done | by apply (pointers_ok_new ts _ srv (mkRfsrv srv "" 0 true ∅)) | | intros *; rewrite !Hc; eauto..].
    intros i p rs [Hin|[= -> ->]%list_elem_of_singleton]%elem_of_app [[Hlt Hp]|[? <-]]%lookup_snoc_Some; simpl; try done.
    + eauto.
    + lia.
  - case_decide as Hin; [| done]. unfold mksrv_store. case_decide as Hlt; [| done]. intros [= <-].
    destruct (creating_ok _ Hok _ _ Hin) as (rs & Hp & Hme). specialize (Hcr _ _ _ Hin Hp).
    assert (∀ i k v, committed (mkTest (<[srv := Some p]> (srvs ts)) (maxIndex ts) (snapshot ts) (finished ts) (heap ts)
        (filter (λ c, c ≠ (srv, p)) (creating ts)) (snapshots ts)) i k = Some v → i ≠ srv ∧ committed ts i k = Some v) as Hc.
    { intros i k v (q & rq & Hi & Hq & Hv)%committed_Some. simpl in *.
      apply list_lookup_insert_Some in Hi as [(<- & [= <-] & _)|[Hne Hi]].
      - simplify_eq. by rewrite Hcr, lookup_empty in Hv.
      - split; [done |]. apply committed_Some. eauto. }
    split; simpl; [done | by eapply (pointers_ok_store ts) | | |].
    + intros i q rq [_ Hiq]%list_elem_of_filter. by eapply ai_creating.
    + intros i j k v w [_ ?]%Hc [_ ?]%Hc. eauto.
    + intros i k v [Hne Hv]%Hc Hk. destruct (Hor _ _ _ Hv Hk) as [w Hw]. exists w.
      apply committed_Some in Hw as (q & rq & Hi & ? & ?). apply committed_Some. exists q, rq. simpl.
      by rewrite list_lookup_insert_ne.
  - rewrite Hm. destruct (heap ts !! p) as [rs|] eqn:Hp; simpl; [| done]. intros [= Ha]. by eapply applier_agrees.
  - destruct (heap ts !! p) as [rs|] eqn:Hp; simpl; [| done]. intros [= <-].
    assert (∀ i k, committed (set_obj ts p (mkRfsrv (me rs) (applyErr rs) (lastApplied rs) false (logs rs))) i k
              = committed ts i k) as Hc.
    { intros i k. unfold committed. simpl. destruct (srvs ts !! i) as [[q|]|]; simpl; [| done..].
      destruct (decide (q = p)) as [->|]; [| by rewrite list_lookup_insert_ne].
      rewrite list_lookup_insert_eq by (by eapply lookup_lt_Some). by rewrite Hp. }
    split; simpl; [done | | | intros *; rewrite !Hc; eauto | intros *; rewrite !Hc; eauto].
    + by apply (pointers_ok_update ts _ p rs (Kill rs ps).1).
    + intros i q rq Hin [(<- & <- & _)|[_ Hq]]%list_lookup_insert_Some; simpl; eauto.
Qed.

Lemma run_preserves (P : Test → Prop) ls ts ts' :
  (∀ t l t', P t → exec l t = Some (Ret t') → P t') → P ts → run ls ts = Some (Ret ts') → P ts'.
Proof.
  intros Hstep. revert ts. induction ls as [|l ls IH]; intros ts HP; simpl; [by intros [= <-] |].
  destruct (exec l ts) as [[t|]|] eqn:E; [| done..]. eauto.
Qed.

Lemma has_entry_stored ts k p rs : heap ts !! p = Some rs → has_entry ts k (Some p) ↔ is_Some (logs rs !! k).
Proof. intros Hp. unfold has_entry. simpl. by rewrite Hp. Qed.

Lemma nCommitted_loop_agree ts index c l count cmd :
  (∀ o, o ∈ l → ∃ rs, obj ts o = Ret rs ∧ applyErr rs = "" ∧ ∀ v, logs rs !! index = Some v → v = c) →
  0 ≤ count → (count > 0 → cmd = c) →
  ∃ cmd', nCommitted_loop ts index l count cmd = Ret (count + Z.of_nat (length (filter (has_entry ts index) l)), cmd') ∧
    (count + Z.of_nat (length (filter (has_entry ts index) l)) > 0 → cmd' = c).
Proof.
  revert count cmd. induction l as [|o l IH]; intros count cmd Hl Hc Hcmd; simpl.
  - exists cmd. rewrite Z.add_0_r. done.
  - destruct (Hl o) as (rs & Ho & He & Hv); [by left |]. rewrite Ho. simpl.
    apply obj_Ret in Ho as (p & -> & Hp). rewrite decide_False by naive_solver. unfold Logs.
    pose proof (has_entry_stored ts index p rs Hp) as He'. rewrite filter_cons.
    destruct (logs rs !! index) as [v|].
    + rewrite (Hv v) by done. rewrite decide_False by naive_solver. rewrite decide_True by naive_solver. simpl.
      destruct (IH (count + 1) c) as (cmd' & -> & Hcmd'); [set_solver | lia | done |].
      exists cmd'. split; [f_equal; f_equal; lia | intros; apply Hcmd'; lia].
    + rewrite decide_False by (rewrite He'; by intros [? ?]). apply IH; [set_solver | done..].
Qed.

Lemma nCommitted_agree ts index :
  agree_inv ts → all_stored ts →
  ∃ cmd, nCommitted ts index = Ret (Z.of_nat (count_committed ts index), cmd) ∧
    ∀ i v, committed ts i index = Some v → cmd = v.
Proof.
  intros [_ Hok _ Hag _] Hall.
  assert (∃ c, ∀ i v, committed ts i index = Some v → v = c) as [c Hc].
  { destruct (filter (has_entry ts index) (srvs ts)) as [|o l] eqn:E.
    - exists any_nil. intros i v (p & rs & Hi & Hp & Hv)%committed_Some. exfalso.
      apply list_elem_of_lookup_2 in Hi. eapply filter_nil_not_elem_of; [exact E | | exact Hi].
      rewrite has_entry_stored by done. eauto.
    - assert (o ∈ filter (has_entry ts index) (srvs ts)) as [[c Hc] [i Hi]%list_elem_of_lookup]%list_elem_of_filter
        by (rewrite E; left).
      exists c. intros j v Hv. eapply Hag; [exact Hv |]. unfold committed. by rewrite Hi. }
  destruct (nCommitted_loop_agree ts index c (srvs ts) 0 any_nil) as (cmd & H1 & H2); [| done..|].
  - intros o Ho. apply list_elem_of_lookup in Ho as Ho'. destruct Ho' as [i Hi].
    destruct (proj1 (Forall_forall _ _) Hall o Ho) as [p ->]. destruct (stored_ok _ Hok _ _ Hi) as (rs & Hp & _).
    exists rs. split; [apply obj_Ret; eauto |]. split; [by eapply no_applyErr |].
    intros v Hv. apply (Hc i), committed_Some. eauto.
  - exists cmd. split; [done |]. intros i v Hv. rewrite H2; [by rewrite (Hc i v) | ].
    apply committed_Some in Hv as (p & rs & Hi & Hp & Hv).
    assert (Some p ∈ filter (has_entry ts index) (srvs ts)) as Hin.
    { apply list_elem_of_filter. split; [rewrite has_entry_stored by done; eauto | by eapply list_elem_of_lookup_2]. }
    destruct (filter _ _); [by apply elem_of_nil in Hin | simpl; lia].
Qed.

(** ** A Raft that behaves passes

    [cmds] is the one log all peers commit; its first entry has index 1. *)
Section conforming.
Variable cmds : list Any.

Definition entry (k : Z) : option Any :=
  if decide (0 ≤ k) then (any_nil :: cmds) !! Z.to_nat k else None.

(** A snapshot of the first [k] entries. *)
Definition prefix (k : nat) : list Any := take (S k) (any_nil :: cmds).
Definition snap_of (k : nat) : list Z := enc (Z.of_nat k) (prefix k).

Definition good_msg (ts : Test) (rs : rfsrv) (m : ApplyMsg) : Prop :=
  if snapshot ts then
    if SnapshotValid m then
      ∃ k, (k ≤ length cmds)%nat ∧ Snapshot m = Some (snap_of k) ∧ SnapshotIndex m = Z.of_nat k
    else CommandValid m = true → CommandIndex m = lastApplied rs + 1 ∧ entry (CommandIndex m) = Some (Command m)
  else CommandValid m = true →
    1 ≤ CommandIndex m ∧ (1 < CommandIndex m → is_Some (logs rs !! (CommandIndex m - 1))) ∧
    entry (CommandIndex m) = Some (Command m).

(** What a correct Raft under the tester does: messages come only once all
    servers are stored, and only from the running instance of each server; a
    server restarts from a snapshot of the log. *)
Inductive conform (ts : Test) : Label → Prop :=
| conform_new srv ps :
    (srv < length (srvs ts))%nat →
    (TesterGroup.ReadSnapshot ps = [] ∨ ∃ k, (k ≤ length cmds)%nat ∧ TesterGroup.ReadSnapshot ps = snap_of k) →
    conform ts (LNew srv ps)
| conform_store srv p : (srv, p) ∈ creating ts → conform ts (LStore srv p)
| conform_apply p rs m :
    all_stored ts → heap ts !! p = Some rs → srvs ts !! me rs = Some (Some p) → raft rs = true →
    good_msg ts rs m → conform ts (LApply p m)
| conform_kill p ps : is_Some (heap ts !! p) → conform ts (LKill p ps).

Inductive conforming_run (n : nat) (snap : bool) : Test → Prop :=
| cr_init : conforming_run n snap (makeTest n snap)
| cr_step ts l ts' :
    conforming_run n snap ts → conform ts l → exec l ts = Some (Ret ts') → conforming_run n snap ts'.

Definition rs_ok (snap : bool) (rs : rfsrv) : Prop :=
  (∀ k v, logs rs !! k = Some v → entry k = Some v) ∧
  (snap = true → 0 ≤ lastApplied rs ≤ Z.of_nat (length cmds) ∧
     ∀ k, 1 ≤ k ≤ lastApplied rs → is_Some (logs rs !! k)).

Record conform_inv (ts : Test) : Prop := {
  ci_pointers : pointers_ok ts;
  ci_creating : ∀ i p, (i, p) ∈ creating ts → (i < length (srvs ts))%nat;
  ci_objects : ∀ p rs, heap ts !! p = Some rs → rs_ok (snapshot ts) rs;
  ci_snapshots : ∀ k b, (k, b) ∈ snapshots ts →
    ∃ j, (j ≤ length cmds)%nat ∧ k = Z.of_nat j ∧ b = snap_of j
}.

Lemma indexed_lookup (l : list Any) (n : nat) (k : Z) :
  (list_to_map (imap (λ j x, (Z.of_nat (n + j), x)) l) : gmap Z Any) !! k =
  if decide (Z.of_nat n ≤ k) then l !! Z.to_nat (k - Z.of_nat n) else None.
Proof.
  revert n. induction l as [|x l IH]; intros n; simpl.
  - rewrite lookup_empty. by case_decide.
  - rewrite Nat.add_0_r. destruct (decide (k = Z.of_nat n)) as [->|Hk].
    + rewrite lookup_insert_eq, decide_True by done. by rewrite Z.sub_diag.
    + rewrite lookup_insert_ne by done.
      rewrite (imap_ext _ (λ j y, (Z.of_nat (S n + j), y))) by (intros; simpl; do 2 f_equal; lia).
      rewrite IH. case_decide; case_decide; try lia; [| done].
      replace (Z.to_nat (k - Z.of_nat n)) with (S (Z.to_nat (k - Z.of_nat (S n)))) by lia. done.
Qed.

Lemma entry_prefix k j : (k ≤ length cmds)%nat → 0 ≤ j ≤ Z.of_nat k → prefix k !! Z.to_nat j = entry j.
Proof. intros Hk Hj. unfold prefix, entry. rewrite lookup_take_lt by lia. by rewrite decide_True by lia. Qed.

Lemma entry_bounds k v : entry k = Some v → 0 ≤ k ≤ Z.of_nat (length cmds).
Proof. unfold entry. case_decide; [| done]. intros Hk%lookup_lt_Some. simpl in Hk. lia. Qed.

(** A server that loads a snapshot of the first [k] entries holds them. *)
Lemma ingestSnap_prefix snap rs k index :
  (k ≤ length cmds)%nat → index = -1 ∨ index = Z.of_nat k →
  ∃ rs', ingestSnap rs (Some (snap_of k)) index = Ret (rs', "") ∧ rs_ok snap rs' ∧
    me rs' = me rs ∧ applyErr rs' = applyErr rs ∧ raft rs' = raft rs ∧ lastApplied rs' = Z.of_nat k.
Proof.
  intros Hk Hi. unfold ingestSnap, snap_of. rewrite dec_enc. rewrite decide_False by naive_solver lia.
  eexists. split; [reflexivity |]. split; [| done].
  assert (∀ j, (list_to_map (imap (λ i x, (Z.of_nat i, x)) (prefix k)) : gmap Z Any) !! j
     = if decide (0 ≤ j) then prefix k !! Z.to_nat j else None) as Hlog.
  { intros j. rewrite (indexed_lookup (prefix k) 0). by rewrite Z.sub_0_r. }
  assert (length (prefix k) = S k) as Hlen by (unfold prefix; rewrite length_take; simpl; lia).
  split; simpl.
  - intros j v. rewrite Hlog. case_decide as Hj; [| done]. intros Hv.
    rewrite <- (entry_prefix k); [done | done |]. apply lookup_lt_Some in Hv. lia.
  - intros _. split; [lia |]. intros j Hj. rewrite Hlog, decide_True by lia.
    apply lookup_lt_is_Some_2. lia.
Qed.

(** A message that fits the log passes the checks. *)
Lemma compare_logs_ok ts i m j l :
  (∀ o, o ∈ l → ∃ rs, obj ts o = Ret rs ∧ ∀ old, logs rs !! CommandIndex m = Some old → old = Command m) →
  compare_logs ts i m j l "" = Ret "".
Proof.
  revert j. induction l as [|o l IH]; intros j Hl; simpl; [done |].
  destruct (Hl o) as (rs & -> & Hold); [by left |]. simpl. unfold Logs.
  destruct (logs rs !! CommandIndex m) as [old|].
  - rewrite (Hold old) by done. rewrite decide_False by naive_solver. apply IH. set_solver.
  - apply IH. set_solver.
Qed.

Lemma check_command_ok ts p rs m :
  conform_inv ts → all_stored ts → heap ts !! p = Some rs → srvs ts !! me rs = Some (Some p) →
  entry (CommandIndex m) = Some (Command m) →
  (1 < CommandIndex m → is_Some (logs rs !! (CommandIndex m - 1))) →
  ∃ ts', check_command ts (me rs) m = Ret (ts', "").
Proof.
  intros [Hok _ Hobj _] Hall Hp Hs He Hprev. unfold check_command, checkLogs. rewrite Hs. simpl.
  rewrite compare_logs_ok.
  - simpl. rewrite Hp. simpl.
    rewrite (decide_False (P := CommandIndex m > 1 ∧ _)); [eauto |].
    intros [Hk Hb%bool_decide_eq_false]. apply Hb, Hprev. lia.
  - intros o Ho. apply list_elem_of_lookup in Ho as Ho'. destruct Ho' as [i Hi].
    destruct (proj1 (Forall_forall _ _) Hall o Ho) as [q ->].
    destruct (stored_ok _ Hok _ _ Hi) as (rq & Hq & _). exists rq. split; [apply obj_Ret; eauto |].
    intros old Hold. apply (Hobj _ _ Hq) in Hold. congruence.
Qed.

Lemma conform_inv_init n snap : conform_inv (makeTest n snap).
Proof.
  split; try (by intros * ?%elem_of_nil); try done.
  split; try (by intros * ?%elem_of_nil); try done. intros i p [Hi _]%lookup_replicate. done.
Qed.

(** Replacing one object by another that is fine, and nothing else but the
    snapshots taken. *)
Lemma conform_inv_update ts ts' p rs rs' :
  conform_inv ts → heap ts !! p = Some rs → me rs' = me rs → applyErr rs' = applyErr rs →
  rs_ok (snapshot ts) rs' → heap ts' = <[p := rs']> (heap ts) → srvs ts' = srvs ts →
  snapshot ts' = snapshot ts → creating ts' = creating ts →
  (∀ k b, (k, b) ∈ snapshots ts' → (k, b) ∈ snapshots ts ∨ ∃ j, (j ≤ length cmds)%nat ∧ k = Z.of_nat j ∧ b = snap_of j) →
  conform_inv ts'.
Proof.
  intros [Hok Hcr Hobj Hsn] Hp Hme He Hrs Hh Hs Hm Hc Hsn'. split.
  - by apply (pointers_ok_update ts ts' p rs rs').
  - by rewrite Hc, Hs.
  - rewrite Hh, Hm. intros q rq [(<- & <- & _)|[_ Hq]]%list_lookup_insert_Some; eauto.
  - intros k b [Hin|Hj]%Hsn'; eauto.
Qed.

(** The record of a good command keeps the object fine. *)
Lemma rs_ok_insert snap rs m :
  rs_ok snap rs → entry (CommandIndex m) = Some (Command m) →
  rs_ok snap (set_logs rs (<[CommandIndex m := Command m]> (logs rs))).
Proof.
  intros [Hl Hs] He. split; simpl.
  - intros k v [[<- <-]|[_ Hk]]%lookup_insert_Some; eauto.
  - intros Ht. destruct (Hs Ht) as [Hb Hall]. split; [done |]. intros k Hk.
    apply lookup_insert_is_Some'. right. by apply Hall.
Qed.

Lemma rs_ok_advance rs :
  rs_ok true rs → is_Some (logs rs !! (lastApplied rs + 1)) → rs_ok true (set_lastApplied rs (lastApplied rs + 1)).
Proof.
  intros [Hl Hs] [v Hv]. destruct (Hs eq_refl) as [Hb Hall]. pose proof (entry_bounds _ _ (Hl _ _ Hv)).
  split; [done |]. intros _. simpl. split; [lia |]. intros k Hk.
  destruct (decide (k = lastApplied rs + 1)) as [->|]; [eauto | apply Hall; lia].
Qed.

(** The entries of a snapshot are those of the log. *)
Lemma xlog_of_prefix rs :
  rs_ok true rs → xlog_of rs (lastApplied rs) = prefix (Z.to_nat (lastApplied rs)).
Proof.
  intros [Hl Hs]. destruct (Hs eq_refl) as [Hb Hall]. unfold xlog_of, prefix.
  apply list_eq. intros j. rewrite list_lookup_fmap. destruct (decide (j < Z.to_nat (lastApplied rs + 1))%nat) as [Hj|Hj].
  - rewrite lookup_seq_lt by done. rewrite lookup_take_lt by lia.
    assert ((any_nil :: cmds) !! j = entry (Z.of_nat j)) as ->.
    { unfold entry. by rewrite decide_True, Nat2Z.id by lia. }
    simpl.
    destruct (logs rs !! Z.of_nat j) as [v|] eqn:E; simpl; [by apply Hl in E |].
    destruct j as [|j]; [done |]. destruct (Hall (Z.of_nat (S j))) as [v Hv]; [lia | congruence].
  - rewrite lookup_seq_ge by lia. by rewrite lookup_take_ge by lia.
Qed.

Hypothesis cmds_small : Z.of_nat (length cmds) + 1 < two63.

Lemma make_snapshot_ok ts p rs :
  heap ts !! p = Some rs → raft rs = true → rs_ok true rs →
  ∃ ts', make_snapshot ts p (lastApplied rs) = Ret ts' ∧ heap ts' = heap ts ∧ srvs ts' = srvs ts ∧
    snapshot ts' = snapshot ts ∧ creating ts' = creating ts ∧
    (∀ k b, (k, b) ∈ snapshots ts' → (k, b) ∈ snapshots ts ∨ ∃ j, (j ≤ length cmds)%nat ∧ k = Z.of_nat j ∧ b = snap_of j).
Proof.
  intros Hp Hr Hok. unfold make_snapshot. case_decide; [| naive_solver]. rewrite Hp. simpl. rewrite Hr.
  eexists. split; [reflexivity |]. simpl. split_and!; [done.. |].
  intros k b [Hin|[= -> ->]%list_elem_of_singleton]%elem_of_app; [by left | right].
  destruct (proj2 Hok eq_refl) as [Hb _]. exists (Z.to_nat (lastApplied rs)).
  rewrite xlog_of_prefix by done. unfold snap_of. rewrite Z2Nat.id by lia. split; [lia | done].
Qed.

Lemma applierSnap_ok ts p rs m :
  conform_inv ts → snapshot ts = true → all_stored ts → heap ts !! p = Some rs →
  srvs ts !! me rs = Some (Some p) → raft rs = true → good_msg ts rs m →
  ∃ ts', applierSnap ts p m = Ret ts' ∧ conform_inv ts'.
Proof.
  intros Hinv Hm Hall Hp Hs Hr. unfold good_msg, applierSnap. rewrite Hm, Hp. simpl.
  pose proof (ci_objects _ Hinv _ _ Hp) as Hrs. rewrite Hm in Hrs. destruct (SnapshotValid m).
  - intros (k & Hk & -> & ->).
    destruct (ingestSnap_prefix true rs k (Z.of_nat k)) as (rs' & -> & Hrs' & Hme & He & _); [done | by right |].
    simpl. eexists. split; [reflexivity |].
    apply (conform_inv_update ts _ p rs rs'); try done; [by rewrite Hm | by left].
  - destruct (CommandValid m); [| eauto]. intros [Hk He]; [done |].
    destruct (proj2 Hrs eq_refl) as [Hb Hl]. pose proof (entry_bounds _ _ He) as Hb'.
    rewrite int64_small by (unfold two63 in *; lia). rewrite decide_False by naive_solver.
    destruct (check_command_ok ts p rs m) as [ts1 Hts1]; [done.. | intros; apply Hl; lia |].
    rewrite Hts1. simpl.
    apply check_command_clean in Hts1 as (q & rq & Hq & Hqp & _ & _ & Hh & Hs1 & Hm1 & Hc1 & Hn1). simplify_eq.
    rewrite Hh. rewrite list_lookup_insert_eq by by eapply lookup_lt_Some. simpl.
    set (rs1 := set_logs rs _). rewrite Hk. change (lastApplied rs + 1) with (lastApplied rs1 + 1).
    assert (rs_ok true (set_lastApplied rs1 (lastApplied rs1 + 1))) as Hrs1.
    { apply rs_ok_advance; [by apply rs_ok_insert |]. simpl. rewrite <- Hk. apply lookup_insert_is_Some'. by left. }
    destruct (make_snapshot_ok (set_obj ts1 p (set_lastApplied rs1 (lastApplied rs1 + 1))) p _
                ltac:(simpl; rewrite Hh; apply list_lookup_insert_eq; rewrite length_insert; by eapply lookup_lt_Some)
                Hr Hrs1) as (ts2 & E2 & Hh2 & Hs2 & Hm2 & Hc2 & Hn2).
    simpl in E2. simpl. rewrite E2. simpl. eexists. split; [reflexivity |].
    apply (conform_inv_update ts _ p rs (set_lastApplied rs1 (lastApplied rs1 + 1)));
      [done | done | done | done | by rewrite Hm | | by rewrite Hs2 | rewrite Hm2; simpl; congruence | by rewrite Hc2 |].
    + rewrite Hh2. simpl. rewrite Hh. by rewrite list_insert_insert_eq.
    + intros k b Hin. apply Hn2 in Hin as [Hin|]; [left | by right]. simpl in Hin. congruence.
Qed.

Lemma applier_ok ts p rs m :
  conform_inv ts → snapshot ts = false → all_stored ts → heap ts !! p = Some rs →
  srvs ts !! me rs = Some (Some p) → good_msg ts rs m →
  ∃ ts', applier ts p m = Ret ts' ∧ conform_inv ts'.
Proof.
  intros Hinv Hm Hall Hp Hs. unfold good_msg, applier. rewrite Hm. destruct (CommandValid m); [| eauto].
  intros (Hk & Hprev & He); [done |]. rewrite Hp. simpl.
  destruct (check_command_ok ts p rs m) as [ts1 Hts1]; [done.. |]. rewrite Hts1. simpl. exists ts1. split; [done |].
  apply check_command_clean in Hts1 as (q & rq & Hq & Hqp & _ & _ & Hh & Hs1 & Hm1 & Hc1 & Hn1). simplify_eq.
  apply (conform_inv_update ts ts1 p rs (set_logs rs (<[CommandIndex m := Command m]> (logs rs)))); [done | done | done | done | | done | done | done | done |].
  - apply rs_ok_insert; [by eapply ci_objects | done].
  - intros k b. rewrite Hn1. by left.
Qed.

Lemma conform_step ts l :
  conform_inv ts → conform ts l → ∃ ts', exec l ts = Some (Ret ts') ∧ conform_inv ts'.
Proof.
  intros Hinv Hl. pose proof Hinv as [Hok Hcr Hobj Hsn].
  destruct Hl as [srv ps Hsrv Hps|srv p Hin|p rs m Hall Hp Hs Hr Hg|p ps [rs Hp]]; simpl.
  - assert (∃ s, (if decide (snapshot ts = true ∧ TesterGroup.ReadSnapshot ps ≠ []) then
       ingestSnap (mkRfsrv srv "" 0 true ∅) (Some (TesterGroup.ReadSnapshot ps)) (-1)
       else Ret (mkRfsrv srv "" 0 true ∅, "")) = Ret (s, "") ∧ rs_ok (snapshot ts) s ∧ me s = srv ∧ applyErr s = "")
      as (s & Es & Hrs & Hme & He).
    { case_decide as Hd.
      - destruct Hps as [?|(k & Hk & ->)]; [naive_solver |].
        destruct (ingestSnap_prefix (snapshot ts) (mkRfsrv srv "" 0 true ∅) k (-1)) as (s & ? & ? & ? & ? & _);
          [done | by left |]. eauto.
      - eexists. split; [reflexivity |]. split; [| done].
        split; simpl; [intros k v; by rewrite lookup_empty | intros _; split; [lia | intros; lia]]. }
    eexists. split; [unfold newRfsrv; rewrite Es; reflexivity |]. split; simpl.
    + by apply (pointers_ok_new ts _ srv s).
    + intros i p [Hin|[= -> ->]%list_elem_of_singleton]%elem_of_app; [eauto | done].
    + intros q rq [[_ Hq]|[_ <-]]%lookup_snoc_Some; eauto.
    + done.
  - rewrite decide_True by done. unfold mksrv_store. rewrite decide_True by eauto.
    eexists. split; [reflexivity |]. split; simpl; [| | done | done].
    + eapply (pointers_ok_store ts); [done | done | eauto | done | done | done].
    + intros i q [_ Hiq]%list_elem_of_filter. rewrite length_insert. eauto.
  - rewrite Hp. simpl. destruct (snapshot ts) eqn:Hm.
    + destruct (applierSnap_ok ts p rs m) as (ts' & -> & ?); eauto.
    + destruct (applier_ok ts p rs m) as (ts' & -> & ?); eauto.
  - rewrite Hp. simpl. eexists. split; [reflexivity |].
    apply (conform_inv_update ts _ p rs (Kill rs ps).1); try done; [| by left]. apply Hobj in Hp. exact Hp.
Qed.

Lemma conforming_run_inv n snap ts : conforming_run n snap ts → conform_inv ts.
Proof.
  induction 1 as [|ts l ts' _ IH Hc Hx]; [apply conform_inv_init |].
  destruct (conform_step ts l IH Hc) as (ts'' & Hx' & ?). by simplify_eq.
Qed.

End conforming.
End tester.

(** An encoding, for the examples. *)
#[export] Instance Any_countable : Countable Any.
Proof.
  refine (inj_countable'
    (λ x, match x with any_nil => inl () | any_int z => inr (inl z) | any_string s => inr (inr s) end)
    (λ y, match y with inl _ => any_nil | inr (inl z) => any_int z | inr (inr s) => any_string s end) _).
  by intros [].
Defined.

Definition example_codec : SnapCodec.
Proof.
  refine {|
    enc k xlog := [Z.pos (encode (k, xlog))];
    dec b := match b with [Z.pos p] => decode p | _ => None end
  |}.
  - intros k xlog. by rewrite decode_encode.
  - done.
Defined.

Definition command (k : Z) (x : Any) : ApplyMsg := mkApplyMsg true x k false None 0 0.
Definition no_state : TesterGroup.Persister := TesterGroup.MakePersister.
Definition two_started : list Label := [LNew 0 no_state; LStore 0 0; LNew 1 no_state; LStore 1 1].
Definition two_commits : list Label :=
  [LApply 0 (command 1 (any_int 7)); LApply 1 (command 1 (any_int 7)); LApply 1 (command 2 (any_int 8))].

(** ** The properties of the tester *)

(** C26: what the apply loops establish when there are no snapshots.
    Whatever Raft sends, as long as the tester has not stopped the test: no
    two servers have recorded different commands at the same index, a server
    that has recorded an entry has recorded the one before it, and asking for
    an index counts the servers that have it and gives the command they all
    have. *)
Theorem checked_logs_agree `{SnapCodec} (n : nat) (ls : list Label) (ts : Test)
    (Hr : run ls (makeTest n false) = Some (Ret ts)) :
  (∀ i j k v w, committed ts i k = Some v → committed ts j k = Some w → v = w) ∧
  (∀ i k v, committed ts i k = Some v → 1 < k → is_Some (committed ts i (k - 1))) ∧
  (∀ index, all_stored ts →
     ∃ cmd, nCommitted ts index = Ret (Z.of_nat (count_committed ts index), cmd) ∧
       ∀ i v, committed ts i index = Some v → cmd = v).
Proof.
  assert (agree_inv ts) as Hi
    by (eapply run_preserves; [exact agree_inv_step | exact (agree_inv_init n) | exact Hr]).
  split_and!; [exact (ai_agree _ Hi) | exact (ai_order _ Hi) |].
  intros index Hall. by apply nCommitted_agree.
Qed.

Lemma checked_logs_agree_witness :
  ∃ ts, run (H := example_codec) (two_started ++ two_commits) (makeTest 2 false) = Some (Ret ts) ∧
    nCommitted ts 1 = Ret (2, any_int 7) ∧ nCommitted ts 2 = Ret (1, any_int 8) ∧
    (∀ i j k v w, committed ts i k = Some v → committed ts j k = Some w → v = w).
Proof.
  eexists. split; [vm_compute; reflexivity |]. split; [vm_compute; reflexivity |].
  split; [vm_compute; reflexivity |].
  eapply (@checked_logs_agree example_codec 2 (two_started ++ two_commits)). vm_compute. reflexivity.
Defined.

(** C27: no false alarm.  If all peers commit one log and send its entries
    in order, each from its running instance, with snapshots that hold a
    prefix of it, then the tester never stops the test, in either mode, with
    any interleaving of messages, restarts and kills; the servers' records are
    entries of that log, and every snapshot handed to Raft holds the prefix of
    it up to its index. *)
Theorem conforming_raft_passes `{SnapCodec} (cmds : list Any) (n : nat) (snap : bool) (ts : Test)
    (Hlen : Z.of_nat (length cmds) + 1 < two63) (Hr : conforming_run cmds n snap ts) :
  (∀ l, conform cmds ts l → ∃ ts', exec l ts = Some (Ret ts')) ∧
  (∀ i k v, committed ts i k = Some v → entry cmds k = Some v) ∧
  (∀ k b, (k, b) ∈ snapshots ts → ∃ j, (j ≤ length cmds)%nat ∧ k = Z.of_nat j ∧ b = snap_of cmds j).
Proof.
  pose proof (conforming_run_inv cmds Hlen n snap ts Hr) as Hi. split_and!.
  - intros l Hl. destruct (conform_step cmds Hlen ts l Hi Hl) as (ts' & ? & _). eauto.
  - intros i k v (p & rs & _ & Hp & Hv)%committed_Some. by apply (ci_objects _ _ Hi _ _ Hp).
  - apply (ci_snapshots _ _ Hi).
Qed.

(** A server starts from a snapshot of the one entry. *)
Definition saved_state : TesterGroup.Persister :=
  TesterGroup.mkPersister [] (snap_of (H := example_codec) [any_int 7] 1).
Definition snap_created : Test :=
  match exec (H := example_codec) (LNew 0 saved_state) (makeTest 1 true) with Some (Ret ts) => ts | _ => makeTest 1 true end.
Definition snap_started : Test :=
  match exec (H := example_codec) (LStore 0 0) snap_created with Some (Ret ts) => ts | _ => snap_created end.

Lemma conforming_raft_passes_witness :
  conforming_run (H := example_codec) [any_int 7] 1 true snap_started ∧
  committed snap_started 0 1 = Some (any_int 7) ∧ entry [any_int 7] 1 = Some (any_int 7).
Proof.
  assert (conforming_run (H := example_codec) [any_int 7] 1 true snap_started) as Hr.
  { eapply (cr_step _ _ _ snap_created (LStore 0 0));
      [eapply (cr_step _ _ _ _ (LNew 0 saved_state)); [apply cr_init | |] | |].
    - apply conform_new; [vm_compute; lia |]. right. exists 1%nat. split; [simpl; lia | reflexivity].
    - vm_compute. reflexivity.
    - apply conform_store. vm_compute. by left.
    - vm_compute. reflexivity. }
  assert (committed snap_started 0 1 = Some (any_int 7)) as Hc by (vm_compute; reflexivity).
  split; [exact Hr |]. split; [exact Hc |].
  apply (proj1 (proj2 (@conforming_raft_passes example_codec [any_int 7] 1 true snap_started eq_refl Hr)) 0%nat 1). exact Hc.
Defined.

End RaftTest.
