(* ===== verification/RaftChecks.v ===== *)
(** * The checks of the Raft tests: [raft1/test.go]

    What the tests ask a running cluster: is there one leader
    ([checkOneLeader], [checkNoLeader]), do the peers agree on the term
    ([checkTerms]), can a command be agreed on ([one]) and has an index been
    decided ([wait]).  Each check reads the servers one after the other while
    they run, so its input is what it reads; time is the number of rounds the
    loops make. *)

From S2P Require Import Prelude Raft RaftCluster RaftElection RaftTest.
Import Raft RaftTest.
#[local] Open Scope Z_scope.

Module RaftChecks.

(** ** Leaders and terms *)

(** What a check reads of one server: nothing if it is not connected, else
    its term and whether it leads. *)
Definition Obs : Type := option (Z * bool).

(** [leaders[term] = append(leaders[term], i)] *)
Definition add_leader (leaders : gmap Z (list nat)) (i : nat) (o : Obs) : gmap Z (list nat) :=
  match o with
  | Some (term, true) => <[term := default [] (leaders !! term) ++ [i]]> leaders
  | _ => leaders
  end.

Fixpoint collect (i : nat) (obs : list Obs) (leaders : gmap Z (list nat)) : gmap Z (list nat) :=
  match obs with
  | [] => leaders
  | o :: obs => collect (S i) obs (add_leader leaders i o)
  end.

(** The loop over the map, in the order the map gives. *)
Fixpoint scan (l : list (Z * list nat)) (lastTermWithLeader : Z) : GoRes Z :=
  match l with
  | [] => Ret lastTermWithLeader
  | (term, ids) :: l =>
      if decide (1 < length ids)%nat then
        Abort ("term " +:+ Itoa term +:+ " has " +:+ pretty (length ids) +:+ " (>1) leaders")
      else scan l (if decide (term > lastTermWithLeader) then term else lastTermWithLeader)
  end.

(** One iteration: [None] when no server leads. *)
Definition checkOneLeader_iter (obs : list Obs) : GoRes (option nat) :=
  let leaders := collect 0 obs ∅ in
  (let* lastTermWithLeader := scan (map_to_list leaders) (-1) in
   if decide (leaders = ∅) then Ret None
   else match leaders !! lastTermWithLeader with
        | Some (i :: _) => Ret (Some i)
        | _ => Abort "index out of range"
        end)%go.

(** The iterations, ten of them in the code. *)
Fixpoint checkOneLeader (iters : list (list Obs)) : GoRes nat :=
  match iters with
  | [] => Abort "expected one leader, got none"
  | obs :: iters =>
      (let* r := checkOneLeader_iter obs in
       match r with Some i => Ret i | None => checkOneLeader iters end)%go
  end.

Fixpoint checkTerms_loop (obs : list Obs) (term : Z) : GoRes Z :=
  match obs with
  | [] => Ret term
  | None :: obs => checkTerms_loop obs term
  | Some (xterm, _) :: obs =>
      if decide (term = -1) then checkTerms_loop obs xterm
      else if decide (term ≠ xterm) then Abort "servers disagree on term"
      else checkTerms_loop obs term
  end.
Definition checkTerms (obs : list Obs) : GoRes Z := checkTerms_loop obs (-1).

Fixpoint checkNoLeader (i : nat) (obs : list Obs) : GoRes unit :=
  match obs with
  | [] => Ret tt
  | Some (_, true) :: _ => Abort ("leader = " +:+ pretty i)
  | _ :: obs => checkNoLeader (S i) obs
  end.

(** ** Agreement *)

(** One turn of the outer loop of [one]: which servers are connected, what
    [Start] returns at each ([None] for a nil Raft), and the states the polls
    of the next two seconds read. *)
Record Round := mkRound {
  isConnected : nat → bool;
  start : nat → option (Z * Z * bool);
  polls : list Test
}.

Section one.
Variables (nsrvs : nat) (cmd : Any) (expectedServers : Z) (retry : bool).

(** The scan for a leader: the index it got (-1 if none) and where the next
    scan goes on. *)
Fixpoint try_servers (k : nat) (rd : Round) (starts : nat) : Z * nat :=
  match k with
  | O => (-1, starts)
  | S k =>
      let starts := ((starts + 1) `mod` nsrvs)%nat in
      match (if isConnected rd starts then start rd starts else None) with
      | Some (index1, _, true) => (index1, starts)
      | _ => try_servers k rd starts
      end
  end.

Fixpoint poll (l : list Test) (index : Z) : GoRes bool :=
  match l with
  | [] => Ret false
  | ts :: l =>
      (let* (nd, cmd1) := nCommitted ts index in
       if decide ((nd > 0 ∧ expectedServers ≤ nd) ∧ cmd1 = cmd) then Ret true else poll l index)%go
  end.

Definition no_agreement : string := "one(" +:+ show cmd +:+ ") failed to reach agreement".

(** [one], with the turns its time allows and whether the test is over at the
    end. *)
Fixpoint one (rounds : list Round) (finished : bool) (starts : nat) : GoRes Z :=
  match rounds with
  | [] => if finished then Ret (-1) else Abort no_agreement
  | rd :: rounds =>
      let '(index, starts) := try_servers nsrvs rd starts in
      if decide (index ≠ -1) then
        (let* agreed := poll (polls rd) index in
         if agreed : bool then Ret index
         else if negb retry then Abort no_agreement
         else one rounds finished starts)%go
      else one rounds finished starts
  end.

End one.

(** [wait]: each turn reads the committed entries and then the terms; [last]
    is the state of the final question.  The code makes at most 30 turns. *)
Section wait.
Variables (index n startTerm : Z).

Definition wait_end (last : Test) : GoRes Any :=
  (let* (nd, cmd) := nCommitted last index in
   if decide (nd < n) then
     Abort ("only " +:+ Itoa nd +:+ " decided for index " +:+ Itoa index +:+ "; wanted " +:+ Itoa n)
   else Ret cmd)%go.

Fixpoint wait (iters : list (Test * list Z)) (last : Test) : GoRes Any :=
  match iters with
  | [] => wait_end last
  | (ts, terms) :: iters =>
      (let* (nd, _) := nCommitted ts index in
       if decide (n ≤ nd) then wait_end last
       else if decide (startTerm > -1 ∧ Exists (λ t, t > startTerm) terms) then Ret (any_int (-1))
       else wait iters last)%go
  end.

End wait.

(** ** What the leader check reports *)

(** Server [i] was read as leader of term [T]. *)
Definition reads_leader (obs : list Obs) (i : nat) (T : Z) : Prop := obs !! i = Some (Some (T, true)).

Definition clash (obs : list Obs) : Prop :=
  ∃ i j T, i ≠ j ∧ reads_leader obs i T ∧ reads_leader obs j T.

(** The leaders of term [T], in order. *)
Fixpoint leaders_of (i : nat) (obs : list Obs) (T : Z) : list nat :=
  match obs with
  | [] => []
  | Some (T', true) :: obs => if decide (T' = T) then i :: leaders_of (S i) obs T else leaders_of (S i) obs T
  | _ :: obs => leaders_of (S i) obs T
  end.

Lemma collect_lookup i obs m T :
  default [] (collect i obs m !! T) = default [] (m !! T) ++ leaders_of i obs T.
Proof.
  revert i m. induction obs as [|o obs IH]; intros i m; simpl; [by rewrite app_nil_r |].
  rewrite IH. destruct o as [[T' []]|]; simpl; [| done..].
  case_decide as Hd; [subst; rewrite lookup_insert_eq; simpl; by rewrite <- app_assoc |].
  by rewrite lookup_insert_ne.
Qed.

Lemma collect_nonempty i obs m T : (∀ T, m !! T ≠ Some []) → collect i obs m !! T ≠ Some [].
Proof.
  revert i m. induction obs as [|o obs IH]; intros i m Hm; simpl; [done |]. apply IH.
  destruct o as [[T' []]|]; simpl; [| done..]. intros T''.
  destruct (decide (T' = T'')) as [<-|]; [rewrite lookup_insert_eq | by rewrite lookup_insert_ne].
  intros [= E]. by apply app_nil in E as [_ ?].
Qed.

Lemma leaders_of_spec i obs T j :
  j ∈ leaders_of i obs T ↔ ∃ k, j = (i + k)%nat ∧ reads_leader obs k T.
Proof.
  unfold reads_leader. revert i. induction obs as [|o obs IH]; intros i; simpl.
  - split; [by intros ?%elem_of_nil | intros (k & _ & Hk); by rewrite lookup_nil in Hk].
  - assert (j ∈ leaders_of (S i) obs T ↔ ∃ k, j = (i + S k)%nat ∧ (o :: obs) !! S k = Some (Some (T, true))) as IH'.
    { rewrite IH. split; intros (k & -> & ?); exists k; (split; [lia | done]). }
    destruct o as [[T' []]|]; [case_decide as Hd |..]; rewrite ?elem_of_cons, IH'; clear IH IH'; (split;
      [| intros ([|k] & Hj & Hk); simplify_eq/=; eauto with lia]); try naive_solver.
Qed.

Lemma leaders_of_sorted i obs T j : j ∈ leaders_of i obs T → (i ≤ j)%nat.
Proof. intros (k & -> & _)%leaders_of_spec. lia. Qed.

Lemma leaders_of_two i obs T :
  (1 < length (leaders_of i obs T))%nat ↔ ∃ a b, a ≠ b ∧ a ∈ leaders_of i obs T ∧ b ∈ leaders_of i obs T.
Proof.
  split.
  - assert (NoDup (leaders_of i obs T)) as Hnd.
    { revert i. induction obs as [|o obs IH]; intros i; simpl; [constructor |].
      destruct o as [[T' []]|]; [case_decide |..]; try apply IH. constructor; [| apply IH].
      intros ?%leaders_of_sorted. lia. }
    destruct (leaders_of i obs T) as [|a [|b l]]; simpl; [lia | lia |]. intros _. exists a, b.
    apply NoDup_cons in Hnd as [Hnd _]. set_solver.
  - destruct (leaders_of i obs T) as [|a [|b l]]; simpl; [set_solver | set_solver | lia].
Qed.

Lemma scan_spec l last :
  (Forall (λ x, (length x.2 ≤ 1)%nat) l →
     ∃ T, scan l last = Ret T ∧ last ≤ T ∧ (∀ x, x ∈ l → x.1 ≤ T) ∧ (T = last ∨ T ∈ l.*1)) ∧
  (¬ Forall (λ x, (length x.2 ≤ 1)%nat) l → ∃ msg, scan l last = Abort msg).
Proof.
  revert last. induction l as [|[T ids] l IH]; intros last; simpl.
  - split; [intros _; exists last; set_solver | intros []; constructor].
  - split.
    + intros [Hlen Hl]%Forall_cons. simpl in Hlen. rewrite decide_False by lia.
      destruct (proj1 (IH (if decide (T > last) then T else last)) Hl) as (T' & -> & Hle & Hall & Hor).
      exists T'. split; [done |]. case_decide; (split; [lia |]); (split; [intros x [->|Hx]%elem_of_cons; [simpl; lia | auto] |]).
      * right. destruct Hor as [->|]; set_solver.
      * destruct Hor as [->|]; set_solver.
    + intros Hn. case_decide as Hd; [eauto |]. apply IH. intros Hl. apply Hn. constructor; [simpl; lia | done].
Qed.

Lemma collect_lookup_0 obs T ids :
  collect 0 obs ∅ !! T = Some ids ↔ ids = leaders_of 0 obs T ∧ ids ≠ [].
Proof.
  pose proof (collect_lookup 0 obs ∅ T) as Hl. rewrite lookup_empty in Hl. simpl in Hl.
  pose proof (collect_nonempty 0 obs ∅ T ltac:(intros ?; by rewrite lookup_empty)) as Hn.
  destruct (collect 0 obs ∅ !! T) as [ids'|]; simpl in Hl; split; try naive_solver.
  intros [= <-]. split; [done | congruence].
Qed.

Lemma clash_collect obs :
  clash obs ↔ ¬ Forall (λ x, (length x.2 ≤ 1)%nat) (map_to_list (collect 0 obs ∅)).
Proof.
  rewrite Forall_forall. split.
  - intros (i & j & T & Hij & Hi & Hj) Hall.
    assert (1 < length (leaders_of 0 obs T))%nat as Hlen.
    { apply leaders_of_two. exists i, j. split_and!; [done | apply leaders_of_spec; by eexists..]. }
    specialize (Hall (T, leaders_of 0 obs T)). simpl in Hall.
    assert (length (leaders_of 0 obs T) ≤ 1)%nat; [| lia].
    apply Hall, elem_of_map_to_list, collect_lookup_0. split; [done |]. intros E. rewrite E in Hlen. simpl in Hlen. lia.
  - intros Hn. destruct (decide (Exists (λ x, (1 < length x.2)%nat) (map_to_list (collect 0 obs ∅)))) as [He|He].
    + apply Exists_exists in He as ([T ids] & Hin & Hlen).
      apply elem_of_map_to_list, collect_lookup_0 in Hin as [-> _].
      apply leaders_of_two in Hlen as (a & b & Hab & (i & -> & Hi)%leaders_of_spec & (j & -> & Hj)%leaders_of_spec).
      by exists i, j, T.
    + destruct Hn. intros x Hx. apply not_Exists_Forall in He; [| apply _].
      apply (proj1 (Forall_forall _ _) He) in Hx. simpl in Hx. lia.
Qed.

(** What one iteration returns. *)
Lemma checkOneLeader_iter_spec obs :
  (∀ i T, reads_leader obs i T → 0 ≤ T) →
  (clash obs → ∃ msg, checkOneLeader_iter obs = Abort msg) ∧
  (¬ clash obs →
     (checkOneLeader_iter obs = Ret None ∧ ∀ i T, ¬ reads_leader obs i T) ∨
     ∃ i T, checkOneLeader_iter obs = Ret (Some i) ∧ reads_leader obs i T ∧
       ∀ j T', reads_leader obs j T' → T' ≤ T ∧ (T' = T → j = i)).
Proof.
  intros Hpos. unfold checkOneLeader_iter. destruct (scan_spec (map_to_list (collect 0 obs ∅)) (-1)) as [Hok Hbad].
  split; [intros Hc%clash_collect; destruct (Hbad Hc) as [msg ->]; simpl; eauto |].
  intros Hc. assert (∀ i T, reads_leader obs i T → (T, leaders_of 0 obs T) ∈ map_to_list (collect 0 obs ∅)) as Hin.
  { intros i T Hi. apply elem_of_map_to_list, collect_lookup_0. split; [done |].
    assert (i ∈ leaders_of 0 obs T) as Hl by (apply leaders_of_spec; eauto). intros E. rewrite E in Hl. by apply elem_of_nil in Hl. }
  destruct Hok as (T & -> & _ & Hmax & Hor).
  { apply dec_stable. by rewrite <- clash_collect. }
  simpl. case_decide as Hnil.
  - left. split; [done |]. intros i T' Hi%Hin. rewrite Hnil in Hi. by rewrite map_to_list_empty in Hi; apply elem_of_nil in Hi.
  - right. assert (∃ ids, collect 0 obs ∅ !! T = Some ids) as [ids Hids].
    { destruct Hor as [->|([T' ids] & -> & Hx)%list_elem_of_fmap];
        [| exists ids; by apply elem_of_map_to_list]. exfalso.
      apply map_choose in Hnil as (T' & ids & Hl). pose proof Hl as [-> Hne]%collect_lookup_0.
      destruct (leaders_of 0 obs T') as [|a l] eqn:E; [done |].
      assert (a ∈ leaders_of 0 obs T') as (k & -> & Hk)%leaders_of_spec by (rewrite E; left).
      apply elem_of_map_to_list, Hmax in Hl. apply Hpos in Hk. simpl in Hl. lia. }
    pose proof Hids as [-> Hne]%collect_lookup_0. rewrite Hids.
    destruct (leaders_of 0 obs T) as [|i l] eqn:E; [done |].
    assert (i ∈ leaders_of 0 obs T) as (i' & Hi' & Hi)%leaders_of_spec by (rewrite E; left). simpl in Hi'. subst i'.
    exists i, T. split; [done |]. split; [done |]. intros j T' Hj. split; [by apply Hin, Hmax in Hj |].
    intros ->. destruct (decide (j = i)); [done |]. destruct Hc. by exists j, i, T.
Qed.

(** ** Reading a running cluster

    Before the check reads server [i], the cluster runs for a while. *)
Fixpoint sample (i : nat) (plan : list (list RaftCluster.Label * bool)) (s : RaftCluster.State) :
    option (list Obs * RaftCluster.State) :=
  match plan with
  | [] => Some ([], s)
  | (ls, connected) :: plan =>
      s ← RaftCluster.run_if RaftCluster.safe_label ls s;
      nd ← RaftCluster.nodes s !! i;
      r ← sample (S i) plan s;
      Some ((if connected : bool then Some (GetState (RaftCluster.rf nd)) else None) :: r.1, r.2)
  end.

(** Every leader it reads is a leader of the history. *)
Lemma sample_leaders n i plan s g obs s' :
  Z.of_nat n < two63 → RaftElection.inv n s g → sample i plan s = Some (obs, s') →
  ∃ g', RaftElection.ext g g' ∧ RaftElection.inv n s' g' ∧
    ∀ k T, reads_leader obs k T → 0 ≤ T ∧ RaftElection.leaders g' T (i + k).
Proof.
  intros Hn. revert i s g obs. induction plan as [|[ls c] plan IH]; intros i s g obs Hinv; simpl.
  - intros [= <- <-]. exists g. split; [done |]. split; [done |]. intros k T. unfold reads_leader. by rewrite lookup_nil.
  - intros (s1 & H1 & (nd & Hnd & ([obs' s2] & Hs & [= <- <-])%bind_Some)%bind_Some)%bind_Some.
    destruct (RaftElection.inv_run n ls s s1 g Hn Hinv H1) as (g1 & He1 & Hi1).
    destruct (IH (S i) s1 g1 obs' Hi1 Hs) as (g2 & He2 & Hi2 & Hl). exists g2.
    split; [by apply (PreOrder_Transitive (PreOrder := RaftElection.ext_preorder) _ g1 _) |]. split; [done |]. intros [|k] T; unfold reads_leader; simpl.
    + destruct c; [| done]. intros [= Ht Hst%bool_decide_eq_true]. rewrite Nat.add_0_r.
      pose proof (RaftElection.inv_nodes _ _ _ Hi1 _ _ Hnd) as Hni. split; [subst T; apply Hni |].
      apply He2. subst T. by apply Hni.
    + intros Hk. rewrite Nat.add_succ_r. by apply Hl.
Qed.

(** ** Counting committed entries *)

(** When [nCommitted] answers, it is the number of servers that have an entry
    at the index, and they all have the command it gives. *)
Lemma nCommitted_loop_Ret ts index l count cmd nd c :
  nCommitted_loop ts index l count cmd = Ret (nd, c) → 0 ≤ count →
  nd = count + Z.of_nat (length (filter (has_entry ts index) l)) ∧
  (count > 0 → c = cmd) ∧
  (∀ p rs v, Some p ∈ l → heap ts !! p = Some rs → logs rs !! index = Some v → v = c).
Proof.
  revert count cmd. induction l as [|o l IH]; intros count cmd; simpl.
  - intros [= <- <-] Hc. split; [lia |]. split; [done |]. by intros ? ? ? ?%elem_of_nil.
  - intros (rs & (p & -> & Hp)%obj_Ret & Hl)%go_bind_Ret_inv Hc. case_decide; [done |].
    pose proof (has_entry_stored ts index p rs Hp) as He. unfold Logs in Hl. rewrite filter_cons.
    destruct (logs rs !! index) as [cmd1|] eqn:Hv.
    + case_decide as Hd; [done |]. rewrite (decide_True (P := has_entry _ _ _)) by naive_solver. simpl.
      apply IH in Hl as (-> & Hcc & Hall); [| lia]. rewrite Hcc in * by lia. split; [lia |]. split.
      * intros Hgt. symmetry. destruct (decide (cmd = cmd1)); [done | by destruct Hd].
      * intros q rq v [[= ->]|Hin]%elem_of_cons Hq Hvq; [congruence | eauto].
    + rewrite decide_False by (rewrite He; by intros [? ?]). apply IH in Hl as (-> & Hcc & Hall); [| done].
      split; [done |]. split; [done |]. intros q rq v [[= ->]|Hin]%elem_of_cons Hq Hvq; [congruence | eauto].
Qed.

(** [k] servers or more have recorded [cmd] at [index], and none another
    command. *)
Definition agreed (ts : Test) (index : Z) (cmd : Any) (k : Z) : Prop :=
  k ≤ Z.of_nat (count_committed ts index) ∧ ∀ i v, committed ts i index = Some v → v = cmd.

Lemma nCommitted_agreed ts index nd c : nCommitted ts index = Ret (nd, c) → agreed ts index c nd.
Proof.
  intros (Hnd & _ & Hall)%nCommitted_loop_Ret; [| done]. split; [unfold count_committed; lia |].
  intros i v (p & rs & Hi & Hp & Hv)%committed_Some. eapply Hall; [by eapply list_elem_of_lookup_2 | done..].
Qed.

Lemma nCommitted_none ts index nd c i : nCommitted ts index = Ret (nd, c) → nd ≤ 0 → committed ts i index = None.
Proof.
  intros (Hnd & _ & _)%nCommitted_loop_Ret Hle; [| done]. apply eq_None_not_Some.
  intros [v (p & rs & Hi & Hp & Hv)%committed_Some].
  assert (Some p ∈ filter (has_entry ts index) (srvs ts)) as Hin.
  { apply list_elem_of_filter. split; [rewrite has_entry_stored by done; eauto | by eapply list_elem_of_lookup_2]. }
  destruct (filter _ _); [by apply elem_of_nil in Hin | simpl in Hnd; lia].
Qed.

Lemma checkOneLeader_sound iters i :
  (∀ obs j T, obs ∈ iters → reads_leader obs j T → 0 ≤ T) → checkOneLeader iters = Ret i →
  ∃ pre obs post T, iters = pre ++ obs :: post ∧ (∀ o j T', o ∈ pre → ¬ reads_leader o j T') ∧
    reads_leader obs i T ∧ ∀ j T', reads_leader obs j T' → T' ≤ T ∧ (T' = T → j = i).
Proof.
  induction iters as [|obs iters IH]; intros Hpos; simpl; [done |].
  destruct (checkOneLeader_iter_spec obs) as [Hbad Hok]; [intros; eapply Hpos; [left | done] |].
  intros (r & Hr & Hi)%go_bind_Ret_inv.
  destruct Hok as [[E Hno]|(i' & T & E & Hl & Hmax)]; [intros [msg E]%Hbad; congruence | |]; rewrite Hr in E; simplify_eq.
  - destruct IH as (pre & obs' & post & T & -> & Hpre & Hl & Hmax); [intros; eapply Hpos; [by right | done] | done |].
    exists (obs :: pre), obs', post, T. split; [done |]. split; [| done].
    intros o j T' [->|Ho]%elem_of_cons; eauto.
  - exists [], obs, iters, T. split; [done |]. split; [by intros ? ? ? ?%elem_of_nil | done].
Qed.

Lemma poll_agreed cmd k l index :
  poll cmd k l index = Ret true → ∃ ts, ts ∈ l ∧ agreed ts index cmd (Z.max 1 k).
Proof.
  induction l as [|ts l IH]; simpl; [done |].
  intros ([nd c] & Hn & Hr)%go_bind_Ret_inv. case_decide as Hd.
  - destruct Hd as [Hd ->]. exists ts. split; [left |]. apply nCommitted_agreed in Hn as [? ?]. split; [lia | done].
  - destruct (IH Hr) as (ts' & ? & ?). exists ts'. split; [by right | done].
Qed.

Lemma wait_end_agreed index n last c :
  wait_end index n last = Ret c → agreed last index c n.
Proof.
  intros ([nd c'] & Hn & Hr)%go_bind_Ret_inv. case_decide; simplify_eq.
  apply nCommitted_agreed in Hn as [? ?]. split; [lia | done].
Qed.

Lemma checkTerms_loop_same obs term t :
  (∀ x b, Some (x, b) ∈ obs → 0 ≤ x) → checkTerms_loop obs term = Ret t →
  (0 ≤ term → t = term) ∧ ∀ x b, Some (x, b) ∈ obs → x = t.
Proof.
  revert term. induction obs as [|[[x b]|] obs IH]; intros term Hpos; simpl.
  - intros [= <-]. split; [done |]. by intros ? ? ?%elem_of_nil.
  - assert (0 ≤ x) as Hx by (eapply Hpos; left).
    assert (∀ x b, Some (x, b) ∈ obs → 0 ≤ x) as Hpos' by (intros y c ?; eapply Hpos; right; done).
    case_decide as Ht; [| case_decide as Hd; [done |]]; intros [Heq Hall]%IH; try done; (split; [lia |]);
      intros y c [[= -> ->]|Hin]%elem_of_cons; eauto; [by rewrite Heq |].
    destruct (decide (term = x)) as [->|]; [| by destruct Hd]. by rewrite Heq.
  - intros [Heq Hall]%IH; [| intros y c ?; eapply Hpos; right; done]. split; [done |].
    intros y c [?|Hin]%elem_of_cons; [done | eauto].
Qed.

Lemma checkNoLeader_spec i obs : checkNoLeader i obs = Ret tt ↔ ∀ j T, ¬ reads_leader obs j T.
Proof.
  unfold reads_leader. revert i. induction obs as [|o obs IH]; intros i; simpl; [by split; [intros _ j T; rewrite lookup_nil |] |].
  assert ((∀ j T, obs !! j ≠ Some (Some (T, true))) → (∀ T, o ≠ Some (T, true)) →
          ∀ j T, (o :: obs) !! j ≠ Some (Some (T, true))) as Hcons.
  { intros Hno Ho [|j] T; simpl; [by intros [= ?]; eapply Ho | apply Hno]. }
  destruct o as [[x []]|]; rewrite ?IH; split; try done.
  - intros Hno. by destruct (Hno 0%nat x).
  - intros Hno. by apply Hcons.
  - intros Hno j T. apply (Hno (S j)).
  - intros Hno. by apply Hcons.
  - intros Hno j T. apply (Hno (S j)).
Qed.

(** ** The properties of the checks *)

(** What a leader reported by [checkOneLeader] is.  In the iteration
    that found it no term had two leaders and it led the highest term that had
    one, and no iteration before it saw any leader; an iteration that sees two
    servers lead one term stops the test.  [checkNoLeader] passes exactly when
    no server it reads leads, and [checkTerms] gives the term of every server
    it read. *)
Theorem checkOneLeader_reports (iters : list (list Obs))
    (Hpos : ∀ obs j T, obs ∈ iters → reads_leader obs j T → 0 ≤ T) :
  (∀ i, checkOneLeader iters = Ret i →
     ∃ pre obs post T, iters = pre ++ obs :: post ∧ (∀ o j T', o ∈ pre → ¬ reads_leader o j T') ∧
       reads_leader obs i T ∧ ∀ j T', reads_leader obs j T' → T' ≤ T ∧ (T' = T → j = i)) ∧
  (∀ obs, obs ∈ iters → clash obs → ∃ msg, checkOneLeader_iter obs = Abort msg) ∧
  (∀ obs, checkNoLeader 0 obs = Ret tt ↔ ∀ i T, ¬ reads_leader obs i T) ∧
  (∀ obs t, (∀ x b, Some (x, b) ∈ obs → 0 ≤ x) → checkTerms obs = Ret t → ∀ x b, Some (x, b) ∈ obs → x = t).
Proof.
  split; [intros i; by apply checkOneLeader_sound |]. split_and!.
  - intros obs Hin Hc. apply checkOneLeader_iter_spec; [intros i T Hl; by apply (Hpos obs i T) | done].
  - intros obs. apply checkNoLeader_spec.
  - intros obs t Hx Ht. by apply (checkTerms_loop_same obs (-1) t).
Qed.

Lemma checkOneLeader_reports_witness :
  let old_and_new := [Some (1, true); None; Some (2, true)] in
  checkOneLeader [[Some (1, false); None; Some (1, false)]; old_and_new] = Ret 2%nat ∧
  ∃ msg, checkOneLeader_iter [Some (1, true); Some (1, true)] = Abort msg.
Proof.
  split; [vm_compute; reflexivity |].
  apply (proj1 (proj2 (checkOneLeader_reports [[Some (1, true); Some (1, true)]]
    ltac:(intros obs j T ->%list_elem_of_singleton; destruct j as [|[|j]]; intros [= <-]; lia)))); [left |].
  exists 0%nat, 1%nat, 1. split; [done | by split].
Defined.

(** C28: elections pass the leader check.  The check reads the peers one
    after the other while they run; along runs without the unguarded
    situations it never finds two leaders of a term: an iteration reports no
    leader exactly when it read none, or the one leader of the highest term. *)
Theorem elections_pass_leader_check (n : nat) (r : Z) (ls : list RaftCluster.Label)
    (plan : list (list RaftCluster.Label * bool)) (s s' : RaftCluster.State) (obs : list Obs)
    (Hn : Z.of_nat n < two63) (Hr : RaftCluster.run_if RaftCluster.safe_label ls (RaftCluster.init n r) = Some s)
    (Hs : sample 0 plan s = Some (obs, s')) :
  (checkOneLeader_iter obs = Ret None ∧ ∀ i T, ¬ reads_leader obs i T) ∨
  ∃ i T, checkOneLeader_iter obs = Ret (Some i) ∧ reads_leader obs i T ∧
    ∀ j T', reads_leader obs j T' → T' ≤ T ∧ (T' = T → j = i).
Proof.
  destruct (RaftElection.inv_init n r) as [g0 Hg0].
  destruct (RaftElection.inv_run n ls _ s g0 Hn Hg0 Hr) as (g1 & _ & Hg1).
  destruct (sample_leaders n 0 plan s g1 obs s' Hn Hg1 Hs) as (g2 & _ & Hg2 & Hl).
  apply checkOneLeader_iter_spec; [intros i T Hi; by apply (Hl i T) |].
  intros (i & j & T & Hij & Hi & Hj). apply Hij.
  apply (RaftElection.leaders_unique n g2 T); [apply Hg2 | by apply (Hl i T) | by apply (Hl j T)].
Qed.

Lemma elections_pass_leader_check_witness :
  ∃ s obs s', RaftCluster.run_if RaftCluster.safe_label RaftElection.elect_run (RaftCluster.init 3 0) = Some s ∧
    sample 0 [([], true); (RaftElection.beat_run, true); ([], false)] s = Some (obs, s') ∧
    checkOneLeader_iter obs = Ret (Some 0%nat) ∧
    ((checkOneLeader_iter obs = Ret None ∧ ∀ i T, ¬ reads_leader obs i T) ∨
     ∃ i T, checkOneLeader_iter obs = Ret (Some i) ∧ reads_leader obs i T ∧
       ∀ j T', reads_leader obs j T' → T' ≤ T ∧ (T' = T → j = i)).
Proof.
  eexists _, _, _. split; [vm_compute; reflexivity |]. split; [vm_compute; reflexivity |].
  split; [vm_compute; reflexivity |].
  eapply (elections_pass_leader_check 3 0 RaftElection.elect_run
    [([], true); (RaftElection.beat_run, true); ([], false)]);
    [reflexivity | vm_compute; reflexivity | vm_compute; reflexivity].
Defined.

(** What the agreement checks establish.  When [one] returns an index,
    at some poll at least the expected number of servers, and at least one,
    had recorded the command at that index and no server another one; -1
    means that the test was over.  When [wait] returns a command, at least
    [n] servers had recorded it at the end and no server another one, or some
    server had moved to a later term.  When [checkNoAgreement] passes, no
    server has recorded the index. *)
Theorem agreement_checks_sound (nsrvs : nat) (cmd : Any) (expectedServers : Z) (retry finished : bool)
    (rounds : list Round) (starts : nat) (iters : list (Test * list Z)) (last : Test) (index n startTerm : Z) :
  (∀ i, one nsrvs cmd expectedServers retry rounds finished starts = Ret i →
     (i = -1 ∧ finished = true) ∨
     ∃ rd ts, rd ∈ rounds ∧ ts ∈ polls rd ∧ agreed ts i cmd (Z.max 1 expectedServers)) ∧
  (∀ c, wait index n startTerm iters last = Ret c →
     agreed last index c n ∨
     c = any_int (-1) ∧ ∃ it t, it ∈ iters ∧ t ∈ it.2 ∧ t > startTerm) ∧
  (∀ ts, checkNoAgreement ts index = Ret tt → ∀ i, committed ts i index = None).
Proof.
  split; [| split].
  - revert starts. induction rounds as [|rd rounds IH]; intros starts i; simpl.
    { destruct finished; [intros [= <-]; by left | done]. }
    assert (∀ st, one nsrvs cmd expectedServers retry rounds finished st = Ret i →
      (i = -1 ∧ finished = true) ∨ ∃ rd' ts, rd' ∈ rd :: rounds ∧ ts ∈ polls rd' ∧
        agreed ts i cmd (Z.max 1 expectedServers)) as Hnext.
    { intros st [?|(rd' & ts & ? & ? & ?)]%IH; [by left |]. right. exists rd', ts. split; [by right | done]. }
    destruct (try_servers nsrvs nsrvs rd starts) as [idx st]. case_decide as Hidx; [| apply Hnext].
    intros ([] & Hp & Hr)%go_bind_Ret_inv.
    + simplify_eq. right. apply poll_agreed in Hp as (ts & ? & ?). exists rd, ts. split; [by left | done].
    + destruct (negb retry); [done |]. by eapply Hnext.
  - induction iters as [|[ts terms] iters IH]; intros c; simpl; [intros Hw; left; by apply wait_end_agreed |].
    intros ([nd c'] & _ & Hr)%go_bind_Ret_inv. case_decide; [left; by apply wait_end_agreed |].
    case_decide as Hd.
    + simplify_eq. right. split; [done |]. destruct Hd as [_ (t & ? & ?)%Exists_exists].
      exists (ts, terms), t. split; [by left | done].
    + apply IH in Hr as [?|(-> & it & t & ? & ? & ?)]; [by left |]. right. split; [done |].
      exists it, t. split; [by right | done].
  - intros ts ([nd c] & Hn & Hr)%go_bind_Ret_inv i. case_decide as Hd; [done |].
    apply (nCommitted_none ts index nd c); [done | lia].
Qed.

Definition quick_round : Round := mkRound (λ _, true) (λ _, Some (1, 1, true)) [snap_started].

Lemma agreement_checks_sound_witness :
  one 1 (any_int 7) 1 false [quick_round] false 0 = Ret 1 ∧
  ∃ rd ts, rd ∈ [quick_round] ∧ ts ∈ polls rd ∧ agreed ts 1 (any_int 7) 1.
Proof.
  assert (one 1 (any_int 7) 1 false [quick_round] false 0 = Ret 1) as Ho by (vm_compute; reflexivity).
  split; [exact Ho |].
  destruct (proj1 (agreement_checks_sound 1 (any_int 7) 1 false false [quick_round] 0 [] snap_started 1 1 0) 1 Ho)
    as [[? _]|Hex]; [discriminate | exact Hex].
Defined.

(** [Start] of this version of Raft claims leadership at every peer and gives
    the index -1, so no command is ever agreed on: [one] can only run out of
    time. *)
Lemma one_never_agrees nsrvs cmd k retry rounds starts :
  (∀ rd i r, rd ∈ rounds → start rd i = Some r → ∃ rf, r = Start rf cmd) →
  one nsrvs cmd k retry rounds false starts = Abort (no_agreement cmd).
Proof.
  revert starts. induction rounds as [|rd rounds IH]; intros starts Hst; simpl; [done |].
  assert (∀ m st, (try_servers nsrvs m rd st).1 = -1) as Htry.
  { induction m as [|m IHm]; intros st; simpl; [done |].
    destruct (isConnected rd _); [| apply IHm].
    destruct (start rd _) as [r|] eqn:E; [| apply IHm].
    apply Hst in E as [rf ->]; [done | left]. }
  specialize (Htry nsrvs starts). destruct (try_servers nsrvs nsrvs rd starts) as [idx st]. simpl in Htry. subst.
  rewrite decide_False by naive_solver. apply IH. intros rd' i r Hin. apply Hst. by right.
Qed.

End RaftChecks.
