(* ===== verification/TesterClnts.v ===== *)
(** * The tester's clients: [tester1/clnts.go]

    A clerk reaches the servers through a [Clnt], which makes an end of the
    simulated network for a server when it is first called and keeps the ends
    in a map.  The clients share the network; [Clnts] keeps the ones alive.
    End names are random strings ([Randstring]) and are arguments here. *)

From S2P Require Import Prelude Labrpc.
Import Labrpc.
#[local] Open Scope Z_scope.

Module TesterClnts.

(** ** Data *)

(** [ends] maps a server to the name of the client's end to it.  [srvs] is
    [None] for the nil slice: every server is allowed. *)
Record Clnt := mkClnt { ends : gmap string string; srvs : option (list string) }.

(** Clients are pointers: positions in [clnts].  [clerks] is [None] once
    [cleanup] has set the map to nil. *)
Record Clnts := mkClnts { net : Network; clnts : list Clnt; clerks : option (gset nat) }.

Definition makeClntTo (srvs : option (list string)) : Clnt := mkClnt ∅ srvs.
Definition makeClnts (net : Network) : Clnts := mkClnts net [] (Some ∅).

(** ** One client *)

Definition allowedL (clnt : Clnt) (server : string) : bool :=
  match srvs clnt with
  | None => true
  | Some l => bool_decide (server ∈ l)
  end.

(** [makeEnd]: the network, the client and the end's name. *)
Definition makeEnd (rn : Network) (clnt : Clnt) (server name : string) : GoRes (Network * Clnt * string) :=
  match ends clnt !! server with
  | Some e => Ret (rn, clnt, e)
  | None =>
      (let* rn := MakeEnd rn name in
       let rn := Connect rn name server in
       let rn := if allowedL clnt server then Enable rn name true else Enable rn name false in
       Ret (rn, mkClnt (<[server := name]> (ends clnt)) (srvs clnt), name))%go
  end.

(** The loops over [clnt.ends]. *)
Definition enable_each (rn : Network) (l : list (string * string)) (yes : bool) : Network :=
  foldl (λ rn se, Enable rn se.2 yes) rn l.

Definition ConnectAll (rn : Network) (clnt : Clnt) : Network * Clnt :=
  (enable_each rn (map_to_list (ends clnt)) true, mkClnt (ends clnt) None).

Definition ConnectTo (rn : Network) (clnt : Clnt) (to : option (list string)) : Network * Clnt :=
  let clnt := mkClnt (ends clnt) to in
  (enable_each rn (filter (λ se, allowedL clnt se.1 = true) (map_to_list (ends clnt))) true, clnt).

Definition Disconnect (rn : Network) (clnt : Clnt) (srv : string) : Network :=
  enable_each rn (filter (λ se, se.1 = srv) (map_to_list (ends clnt))) false.

Definition DisconnectAll (rn : Network) (clnt : Clnt) : Network * Clnt :=
  (enable_each rn (map_to_list (ends clnt)) false, mkClnt (ends clnt) (Some [])).

Fixpoint delete_each (rn : Network) (l : list (string * string)) : GoRes Network :=
  match l with
  | [] => Ret rn
  | se :: l => (let* rn := DeleteEnd rn se.2 in delete_each rn l)%go
  end.

Definition remove (rn : Network) (clnt : Clnt) : GoRes Network := delete_each rn (map_to_list (ends clnt)).

(** ** All clients *)

(** [Clnts.makeEnd]: an end that belongs to no client. *)
Definition Clnts_makeEnd (cs : Clnts) (servername name : string) : GoRes (Clnts * string) :=
  (let* rn := MakeEnd (net cs) name in
   let rn := Connect rn name servername in
   Ret (mkClnts (Enable rn name true) (clnts cs) (clerks cs), name))%go.

Definition MakeClientTo (cs : Clnts) (to : option (list string)) : GoRes Clnts :=
  (let* live := deref (clerks cs) "assignment to entry in nil map" in
   Ret (mkClnts (net cs) (clnts cs ++ [makeClntTo to]) (Some ({[length (clnts cs)]} ∪ live))))%go.

Definition MakeClient (cs : Clnts) : GoRes Clnts := MakeClientTo cs None.

(** Reading a nil map finds nothing. *)
Definition DeleteClient (cs : Clnts) (i : nat) : GoRes Clnts :=
  let live := default ∅ (clerks cs) in
  if decide (i ∈ live) then
    (let* clnt := deref (clnts cs !! i) "nil pointer dereference" in
     let* rn := remove (net cs) clnt in
     Ret (mkClnts rn (clnts cs) (Some (live ∖ {[i]}))))%go
  else Ret cs.

Fixpoint remove_each (rn : Network) (cs : list Clnt) (l : list nat) : GoRes Network :=
  match l with
  | [] => Ret rn
  | i :: l =>
      (let* clnt := deref (cs !! i) "nil pointer dereference" in
       let* rn := remove rn clnt in
       remove_each rn cs l)%go
  end.

Definition cleanup (cs : Clnts) : GoRes Clnts :=
  (let* rn := remove_each (net cs) (clnts cs) (elements (default ∅ (clerks cs))) in
   Ret (mkClnts rn (clnts cs) None))%go.

(** ** Operations of live clients *)

Inductive Op : Type :=
| OpMake (to : option (list string))
| OpCall (i : nat) (server name : string)
| OpConnectAll (i : nat)
| OpConnectTo (i : nat) (to : option (list string))
| OpDisconnect (i : nat) (srv : string)
| OpDisconnectAll (i : nat)
| OpDelete (i : nat).

Definition live (cs : Clnts) (i : nat) : Prop := ∃ l, clerks cs = Some l ∧ i ∈ l.
#[export] Instance live_dec cs i : Decision (live cs i).
Proof.
  refine (match clerks cs as o return Decision (∃ l, o = Some l ∧ i ∈ l) with
          | Some l => cast_if (decide (i ∈ l))
          | None => right _
          end); naive_solver.
Defined.

Definition with_client (cs : Clnts) (i : nat) (f : Network → Clnt → GoRes (Network * Clnt)) : option (GoRes Clnts) :=
  if decide (live cs i) then
    clnt ← clnts cs !! i;
    Some (let* (rn, clnt) := f (net cs) clnt in
          Ret (mkClnts rn (<[i := clnt]> (clnts cs)) (clerks cs)))%go
  else None.

(** [None] for an operation of a client that is not alive. *)
Definition exec (o : Op) (cs : Clnts) : option (GoRes Clnts) :=
  match o with
  | OpMake to => Some (MakeClientTo cs to)
  | OpCall i server name =>
      with_client cs i (λ rn clnt, let* (rn, clnt, _) := makeEnd rn clnt server name in Ret (rn, clnt))%go
  | OpConnectAll i => with_client cs i (λ rn clnt, Ret (ConnectAll rn clnt))
  | OpConnectTo i to => with_client cs i (λ rn clnt, Ret (ConnectTo rn clnt to))
  | OpDisconnect i srv => with_client cs i (λ rn clnt, Ret (Disconnect rn clnt srv, clnt))
  | OpDisconnectAll i => with_client cs i (λ rn clnt, Ret (DisconnectAll rn clnt))
  | OpDelete i => if decide (live cs i) then Some (DeleteClient cs i) else None
  end.

Fixpoint run (os : list Op) (cs : Clnts) : option (GoRes Clnts) :=
  match os with
  | [] => Some (Ret cs)
  | o :: os => match exec o cs with Some (Ret cs) => run os cs | r => r end
  end.

(** ** What a client reaches *)

(** Whether a call of client [i] to [server] goes through an enabled end: the
    end it has, or the one the call will make. *)
Definition reach (cs : Clnts) (i : nat) (server : string) : bool :=
  match clnts cs !! i with
  | Some clnt =>
      match ends clnt !! server with
      | Some e => is_enabled (net cs) e
      | None => allowedL clnt server
      end
  | None => false
  end.

(** Whether client [i] has called [server] before. *)
Definition has_end (cs : Clnts) (i : nat) (server : string) : bool :=
  match clnts cs !! i with Some clnt => bool_decide (is_Some (ends clnt !! server)) | None => false end.

Definition allowed_by (to : option (list string)) (server : string) : bool :=
  match to with None => true | Some l => bool_decide (server ∈ l) end.

(** What an operation does to the servers client [i] reaches. *)
Definition reach_after (o : Op) (cs : Clnts) (i : nat) (server : string) : bool :=
  match o with
  | OpMake to => if decide (i = length (clnts cs)) then allowed_by to server else reach cs i server
  | OpCall _ _ _ | OpDelete _ => reach cs i server
  | OpConnectAll j => if decide (i = j) then true else reach cs i server
  | OpConnectTo j to =>
      if decide (i = j) then allowed_by to server || (has_end cs i server && reach cs i server) else reach cs i server
  | OpDisconnect j srv =>
      if decide (i = j) then reach cs i server && negb (bool_decide (server = srv) && has_end cs i server)
      else reach cs i server
  | OpDisconnectAll j => if decide (i = j) then false else reach cs i server
  end.

(** ** The clients' ends *)

(** The ends of the live clients are in the network, connected to their
    servers, and no two are the same. *)
Record wf (cs : Clnts) : Prop := {
  wf_live : ∀ i, live cs i → is_Some (clnts cs !! i);
  wf_ends : ∀ i c sv e, live cs i → clnts cs !! i = Some c → ends c !! sv = Some e →
            e ∈ Labrpc.ends (net cs) ∧ connected_to (net cs) e = Some sv;
  wf_inj : ∀ i j c d sv sv' e, live cs i → live cs j → clnts cs !! i = Some c → clnts cs !! j = Some d →
           ends c !! sv = Some e → ends d !! sv' = Some e → i = j ∧ sv = sv'
}.

Lemma is_enabled_Enable rn e e' b : is_enabled (Enable rn e b) e' = if decide (e = e') then b else is_enabled rn e'.
Proof.
  unfold is_enabled, Enable. simpl. case_decide as Hd; [subst; by rewrite lookup_insert_eq | by rewrite lookup_insert_ne].
Qed.

Lemma enable_each_enabled rn l b e :
  is_enabled (enable_each rn l b) e = if decide (e ∈ l.*2) then b else is_enabled rn e.
Proof.
  unfold enable_each. revert rn. induction l as [|[sv e'] l IH]; intros rn; simpl.
  - done.
  - rewrite IH. simpl. destruct (decide (e ∈ l.*2)); [rewrite decide_True by set_solver; done |].
    rewrite is_enabled_Enable. repeat case_decide; set_solver.
Qed.

Lemma enable_each_ends rn l b : Labrpc.ends (enable_each rn l b) = Labrpc.ends rn.
Proof. unfold enable_each. revert rn. induction l as [|x l IH]; intros rn; simpl; [done |]. by rewrite IH. Qed.

Lemma enable_each_connected rn l b e : connected_to (enable_each rn l b) e = connected_to rn e.
Proof. unfold enable_each. revert rn. induction l as [|x l IH]; intros rn; simpl; [done |]. by rewrite IH. Qed.

(** An operation of client [i] that enables or disables some of its ends. *)
Definition touched (c : Clnt) (P : string → Prop) `{∀ s, Decision (P s)} : list (string * string) :=
  filter (λ se, P se.1) (map_to_list (ends c)).

Lemma elem_of_touched c (P : string → Prop) `{∀ s, Decision (P s)} e :
  e ∈ (touched c P).*2 ↔ ∃ sv, ends c !! sv = Some e ∧ P sv.
Proof.
  unfold touched. rewrite list_elem_of_fmap. split.
  - intros ([sv e'] & -> & [HP Hin]%list_elem_of_filter). exists sv. by apply elem_of_map_to_list in Hin.
  - intros (sv & He & HP). exists (sv, e). split; [done |]. apply list_elem_of_filter.
    split; [done | by apply elem_of_map_to_list].
Qed.

Lemma touched_all c : touched c (λ _, True) = map_to_list (ends c).
Proof.
  unfold touched. induction (map_to_list (ends c)) as [|x l IH]; [done |].
  rewrite filter_cons_True by done. by rewrite IH.
Qed.

(** The effect on every live client. *)
Lemma toggle cs i c c' (P : string → Prop) `{∀ s, Decision (P s)} b :
  let cs' := mkClnts (enable_each (net cs) (touched c P) b) (<[i := c']> (clnts cs)) (clerks cs) in
  wf cs → live cs i → clnts cs !! i = Some c → ends c' = ends c →
  wf cs' ∧
  ∀ j sv, live cs j → reach cs' j sv =
    if decide (j = i) then
      match ends c !! sv with
      | Some e => if decide (P sv) then b else is_enabled (net cs) e
      | None => allowedL c' sv
      end
    else reach cs j sv.
Proof.
  intros cs' Hwf Hi Hc Hends. pose proof Hwf as [Hl He Hinj].
  assert (∀ j d, clnts cs' !! j = Some d → ∃ d0, clnts cs !! j = Some d0 ∧ ends d = ends d0) as Hold.
  { intros j d. unfold cs'. simpl. intros [(<- & <- & _)|[_ ?]]%list_lookup_insert_Some; eauto. }
  split.
  - split.
    + intros j Hj. unfold cs'. simpl. apply lookup_lt_is_Some_2. rewrite length_insert. by apply lookup_lt_is_Some_1, Hl.
    + intros j d sv e Hj (d0 & Hd & ->)%Hold Hsv. unfold cs'. simpl.
      rewrite enable_each_ends, enable_each_connected. eauto.
    + intros j k d d' sv sv' e Hj Hk (d0 & Hd & ->)%Hold (d1 & Hd' & ->)%Hold. eauto.
  - intros j sv Hj. unfold reach, cs'. simpl. case_decide as Hji.
    + subst j. rewrite list_lookup_insert_eq by by eapply lookup_lt_Some. rewrite Hends.
      destruct (ends c !! sv) as [e|] eqn:Hsv; [| done]. rewrite enable_each_enabled.
      destruct (decide (P sv)) as [HP|HP].
      * rewrite decide_True; [done |]. apply elem_of_touched. eauto.
      * rewrite decide_False; [done |]. intros (sv' & Hsv' & HP')%elem_of_touched.
        by destruct (Hinj i i c c sv sv' e Hi Hi Hc Hc Hsv Hsv') as [_ ->].
    + rewrite list_lookup_insert_ne by done. destruct (clnts cs !! j) as [d|] eqn:Hd; [| done].
      destruct (ends d !! sv) as [e|] eqn:Hsv; [| done]. rewrite enable_each_enabled, decide_False; [done |].
      intros (sv' & Hsv' & _)%elem_of_touched. destruct Hji.
      by destruct (Hinj j i d c sv sv' e Hj Hi Hd Hc Hsv Hsv') as [-> _].
Qed.

(** The end a first call makes. *)
Lemma makeEnd_new rn c sv name rn' c' e :
  ends c !! sv = None → makeEnd rn c sv name = Ret (rn', c', e) →
  (name ∉ Labrpc.ends rn) ∧ c' = mkClnt (<[sv := name]> (ends c)) (srvs c) ∧
  Labrpc.ends rn' = {[name]} ∪ Labrpc.ends rn ∧ connected_to rn' name = Some sv ∧ is_enabled rn' name = allowedL c sv ∧
  ∀ e', e' ≠ name → is_enabled rn' e' = is_enabled rn e' ∧ connected_to rn' e' = connected_to rn e'.
Proof.
  intros Hsv. unfold makeEnd. rewrite Hsv. intros (rn1 & Hmk & Hr)%go_bind_Ret_inv.
  unfold MakeEnd in Hmk. case_decide as Hfresh; [done |]. injection Hmk as <-. injection Hr as Hrn <- <-.
  split; [done |]. split; [done |]. rewrite <- Hrn. unfold is_enabled, connected_to.
  destruct (allowedL c sv); simpl; rewrite !lookup_insert_eq; split_and!; try done;
    intros e' Hne; by rewrite !lookup_insert_ne.
Qed.

(** A call makes the missing end and changes what nobody reaches. *)
Lemma call_effect cs i c sv0 name rn' c' e :
  let cs' := mkClnts rn' (<[i := c']> (clnts cs)) (clerks cs) in
  wf cs → live cs i → clnts cs !! i = Some c → makeEnd (net cs) c sv0 name = Ret (rn', c', e) →
  wf cs' ∧ ∀ j sv, live cs j → reach cs' j sv = reach cs j sv.
Proof.
  intros cs' Hwf Hi Hc Hm. pose proof Hwf as [Hl He Hinj].
  destruct (ends c !! sv0) as [e0|] eqn:Hsv0.
  { unfold makeEnd in Hm. rewrite Hsv0 in Hm. simplify_eq. assert (cs' = cs) as ->; [| done].
    unfold cs'. rewrite list_insert_id by done. by destruct cs. }
  apply makeEnd_new in Hm as (Hfresh & -> & Hends & Hcon & Hen & Hother); [| done].
  assert (∀ j d sv e, live cs j → clnts cs !! j = Some d → ends d !! sv = Some e → e ≠ name) as Hnew.
  { intros j d sv e1 Hj Hd Hsv ->. apply Hfresh. by eapply He. }
  assert (∀ j d sv e, clnts cs' !! j = Some d → ends d !! sv = Some e →
    (j = i ∧ sv = sv0 ∧ e = name) ∨ ∃ d0, clnts cs !! j = Some d0 ∧ ends d0 !! sv = Some e) as Hold.
  { intros j d sv e1. unfold cs'. simpl. intros [(<- & <- & _)|[_ ?]]%list_lookup_insert_Some; simpl; [| eauto].
    intros [[<- <-]|[_ ?]]%lookup_insert_Some; eauto. }
  split.
  - split.
    + intros j Hj. unfold cs'. simpl. apply lookup_lt_is_Some_2. rewrite length_insert. by apply lookup_lt_is_Some_1, Hl.
    + intros j d sv e1 Hj Hd Hsv. unfold cs'. simpl. rewrite Hends.
      destruct (Hold _ _ _ _ Hd Hsv) as [(-> & -> & ->)|(d0 & Hd0 & Hsv0')]; [set_solver |].
      destruct (Hother e1) as [_ ->]; [by eapply Hnew |]. destruct (He j d0 sv e1 Hj Hd0 Hsv0'). set_solver.
    + intros j k d d' sv sv' e1 Hj Hk Hd Hd' Hsv Hsv'.
      destruct (Hold _ _ _ _ Hd Hsv) as [(-> & -> & ->)|(d0 & Hd0 & H0)],
        (Hold _ _ _ _ Hd' Hsv') as [(-> & -> & ?)|(d1 & Hd1 & H1)]; [done | .. | by eapply (Hinj j k)].
      * exfalso. by eapply (Hnew k).
      * subst. exfalso. by eapply (Hnew j).
  - intros j sv Hj. unfold reach, cs'. simpl. destruct (decide (j = i)) as [->|Hji].
    + rewrite list_lookup_insert_eq by by eapply lookup_lt_Some. rewrite Hc. simpl.
      destruct (decide (sv = sv0)) as [->|Hsv]; [by rewrite lookup_insert_eq, Hsv0 |].
      rewrite lookup_insert_ne by done. destruct (ends c !! sv) as [e1|] eqn:E; [| done].
      apply Hother. by eapply (Hnew i).
    + rewrite list_lookup_insert_ne by done. destruct (clnts cs !! j) as [d|] eqn:Hd; [| done].
      destruct (ends d !! sv) as [e1|] eqn:E; [| done]. apply Hother. by eapply (Hnew j).
Qed.

(** Deleting ends that are there, each once. *)
Lemma delete_each_ok rn l :
  NoDup l.*2 → (∀ e, e ∈ l.*2 → e ∈ Labrpc.ends rn) →
  ∃ rn', delete_each rn l = Ret rn' ∧ Labrpc.ends rn' = Labrpc.ends rn ∖ list_to_set l.*2 ∧
    ∀ e, e ∉ l.*2 → is_enabled rn' e = is_enabled rn e ∧ connected_to rn' e = connected_to rn e.
Proof.
  revert rn. induction l as [|[sv e] l IH]; intros rn Hnd Hin; simpl in *.
  - exists rn. split; [done |]. split; [set_solver | done].
  - apply NoDup_cons in Hnd as [Hnin Hnd]. unfold DeleteEnd. rewrite decide_True by set_solver. simpl.
    destruct (IH (set_tables rn (Labrpc.ends rn ∖ {[e]}) (delete e (enabled rn)) (servers rn) (delete e (connections rn))))
      as (rn' & -> & Hends & Hsame); [done | set_solver |].
    exists rn'. split; [done |]. split; [rewrite Hends; simpl; set_solver |].
    intros e' He'. apply not_elem_of_cons in He' as [Hne He']. destruct (Hsame e' He') as [-> ->].
    unfold is_enabled, connected_to. simpl. by rewrite !lookup_delete_ne.
Qed.

Lemma client_ends_nodup cs i c : wf cs → live cs i → clnts cs !! i = Some c → NoDup (map_to_list (ends c)).*2.
Proof.
  intros Hwf Hi Hc. apply NoDup_fmap_2_strong; [| apply NoDup_map_to_list].
  intros [sv e] [sv' e'] H1%elem_of_map_to_list H2%elem_of_map_to_list Heq. simpl in Heq. subst e'.
  by destruct (wf_inj _ Hwf i i c c sv sv' e Hi Hi Hc Hc H1 H2) as [_ ->].
Qed.

Lemma remove_ok cs i c :
  wf cs → live cs i → clnts cs !! i = Some c →
  ∃ rn, remove (net cs) c = Ret rn ∧ Labrpc.ends rn = Labrpc.ends (net cs) ∖ list_to_set (map_to_list (ends c)).*2 ∧
    ∀ j d sv e, live cs j → j ≠ i → clnts cs !! j = Some d → ends d !! sv = Some e →
      e ∈ Labrpc.ends rn ∧ is_enabled rn e = is_enabled (net cs) e ∧ connected_to rn e = connected_to (net cs) e.
Proof.
  intros Hwf Hi Hc. unfold remove. destruct (delete_each_ok (net cs) (map_to_list (ends c))) as (rn & -> & Hends & Hsame).
  - by eapply client_ends_nodup.
  - intros e ([sv e'] & -> & Hin%elem_of_map_to_list)%list_elem_of_fmap. by apply (wf_ends _ Hwf i c sv e').
  - exists rn. split; [done |]. split; [done |]. intros j d sv e Hj Hji Hd Hsv.
    assert (e ∉ (map_to_list (ends c)).*2) as Hnin.
    { intros ([sv' e'] & -> & Hin%elem_of_map_to_list)%list_elem_of_fmap. destruct Hji.
      by destruct (wf_inj _ Hwf j i d c sv sv' e' Hj Hi Hd Hc Hsv Hin). }
    destruct (Hsame e Hnin) as [-> ->]. split; [| done]. rewrite Hends.
    destruct (wf_ends _ Hwf j d sv e Hj Hd Hsv). set_solver.
Qed.

Lemma wf_without cs i c rn L :
  wf cs → clerks cs = Some L → live cs i → clnts cs !! i = Some c → remove (net cs) c = Ret rn →
  wf (mkClnts rn (clnts cs) (Some (L ∖ {[i]}))) ∧
  (∀ j sv, live cs j → j ≠ i → reach (mkClnts rn (clnts cs) (Some (L ∖ {[i]}))) j sv = reach cs j sv).
Proof.
  intros Hwf HL Hi Hc Hr. destruct (remove_ok cs i c Hwf Hi Hc) as (rn' & Hr' & _ & Hsame). rewrite Hr in Hr'. injection Hr' as <-.
  assert (∀ j, live (mkClnts rn (clnts cs) (Some (L ∖ {[i]}))) j → live cs j ∧ j ≠ i) as Hlive.
  { intros j (? & [= <-] & Hj). split; [exists L |]; set_solver. }
  split.
  - split; cbn [net clnts].
    + intros j [Hj _]%Hlive. by apply (wf_live _ Hwf).
    + intros j d sv e [Hj Hji]%Hlive Hd Hsv. destruct (Hsame j d sv e Hj Hji Hd Hsv) as (? & _ & ->).
      split; [done |]. by apply (wf_ends _ Hwf j d).
    + intros j k d d' sv sv' e [Hj _]%Hlive [Hk _]%Hlive. by apply (wf_inj _ Hwf).
  - intros j sv Hj Hji. unfold reach. simpl. destruct (clnts cs !! j) as [d|] eqn:Hd; [| done].
    destruct (ends d !! sv) as [e|] eqn:Hsv; [| done]. by apply (Hsame j d sv e).
Qed.

Lemma remove_each_ok rn cl L l :
  wf (mkClnts rn cl (Some L)) → NoDup l → (∀ i, i ∈ l → i ∈ L) →
  ∃ rn', remove_each rn cl l = Ret rn' ∧ Labrpc.ends rn' ⊆ Labrpc.ends rn ∧
    ∀ i c sv e, i ∈ l → cl !! i = Some c → ends c !! sv = Some e → e ∉ Labrpc.ends rn'.
Proof.
  revert rn L. induction l as [|i l IH]; intros rn L Hwf Hnd Hin; simpl.
  - exists rn. split; [done |]. split; [done |]. by intros ? ? ? ? ?%elem_of_nil.
  - apply NoDup_cons in Hnd as [Hni Hnd].
    assert (live (mkClnts rn cl (Some L)) i) as Hi by (exists L; set_solver).
    destruct (wf_live _ Hwf i Hi) as [c Hc]. simpl in Hc. rewrite Hc. simpl.
    destruct (remove_ok _ i c Hwf Hi Hc) as (rn1 & Hr1 & Hends & _). simpl in Hr1. rewrite Hr1. simpl.
    destruct (wf_without _ i c rn1 L Hwf eq_refl Hi Hc Hr1) as [Hwf1 _]. simpl in Hends.
    destruct (IH rn1 (L ∖ {[i]}) Hwf1 Hnd) as (rn2 & -> & Hsub & Hgone); [set_solver |].
    exists rn2. split; [done |]. split; [set_solver |]. intros j d sv e [->|Hj]%elem_of_cons Hd Hsv; [| eauto].
    simplify_eq. intros Hin2. apply Hsub in Hin2. rewrite Hends in Hin2.
    apply elem_of_difference in Hin2 as [_ Hno]. apply Hno, elem_of_list_to_set, list_elem_of_fmap.
    exists (sv, e). split; [done | by apply elem_of_map_to_list].
Qed.

(** ** Runs *)

Definition ok (cs : Clnts) : Prop := wf cs ∧ is_Some (clerks cs) ∧ ∀ i, live cs i → (i < length (clnts cs))%nat.

Lemma ok_init rn : ok (makeClnts rn).
Proof.
  assert (∀ i, ¬ live (makeClnts rn) i) as Hno by (intros i (? & [= <-] & ?); set_solver).
  split; [split; intros; exfalso; by eapply Hno |]. split; [done |]. intros i Hi. by apply Hno in Hi.
Qed.

Lemma with_client_Ret cs i f r :
  with_client cs i f = Some r → live cs i ∧ ∃ c, clnts cs !! i = Some c ∧
  r = (let* (rn, c) := f (net cs) c in Ret (mkClnts rn (<[i := c]> (clnts cs)) (clerks cs)))%go.
Proof. unfold with_client. case_decide; [| done]. intros (c & Hc & [= <-])%bind_Some. eauto. Qed.

Lemma ok_same_clerks cs cs' i c :
  ok cs → clnts cs' = <[i := c]> (clnts cs) → clerks cs' = clerks cs → wf cs' → ok cs'.
Proof.
  intros (_ & Hs & Hl) Hc Hk Hwf. split; [done |]. rewrite Hk, Hc, length_insert. split; [done |].
  intros j (L & HL & Hj). apply Hl. exists L. by rewrite <- Hk.
Qed.

Lemma make_effect cs L to :
  let cs' := mkClnts (net cs) (clnts cs ++ [makeClntTo to]) (Some ({[length (clnts cs)]} ∪ L)) in
  ok cs → clerks cs = Some L →
  ok cs' ∧ ∀ i sv, live cs' i → reach cs' i sv = if decide (i = length (clnts cs)) then allowed_by to sv else reach cs i sv.
Proof.
  intros cs' (Hwf & _ & Hlt) HL.
  assert (∀ i, live cs' i → i = length (clnts cs) ∨ live cs i) as Hlive.
  { intros i (? & [= <-] & [->%elem_of_singleton|Hi]%elem_of_union); [by left | right; exists L; done]. }
  assert (∀ i c sv e, live cs' i → clnts cs' !! i = Some c → ends c !! sv = Some e → live cs i ∧ clnts cs !! i = Some c) as Hold.
  { intros i c sv e Hi. unfold cs'. simpl. intros [[Hl Hc]|[-> <-]]%lookup_snoc_Some; [| simpl; by rewrite lookup_empty].
    intros _. split; [| done]. destruct (Hlive i Hi); [lia | done]. }
  split; [split; [split | split] |].
  - intros i Hi. apply lookup_lt_is_Some_2. unfold cs'. simpl. rewrite length_app. simpl.
    destruct (Hlive i Hi) as [->|Hl]; [lia |]. apply Hlt in Hl. lia.
  - intros i c sv e Hi Hc Hsv. destruct (Hold i c sv e Hi Hc Hsv). by eapply (wf_ends _ Hwf).
  - intros i j c d sv sv' e Hi Hj Hc Hd Hsv Hsv'. destruct (Hold i c sv e Hi Hc Hsv), (Hold j d sv' e Hj Hd Hsv').
    by eapply (wf_inj _ Hwf).
  - done.
  - intros i Hi. unfold cs'. simpl. rewrite length_app. simpl. destruct (Hlive i Hi) as [->|Hl]; [lia |].
    apply Hlt in Hl. lia.
  - intros i sv Hi. unfold reach, cs'. simpl. case_decide as Hd; [subst; by rewrite list_lookup_middle |].
    destruct (Hlive i Hi) as [?|Hl]; [done |]. by rewrite lookup_app_l by by apply Hlt.
Qed.

Lemma delete_effect cs i cs' :
  ok cs → live cs i → DeleteClient cs i = Ret cs' →
  ok cs' ∧ ∀ j sv, live cs' j → reach cs' j sv = reach cs j sv.
Proof.
  intros (Hwf & _ & Hlt) (L & HL & HiL) Hx. unfold DeleteClient in Hx. rewrite HL in Hx. simpl in Hx.
  rewrite decide_True in Hx by done.
  apply go_bind_Ret_inv in Hx as (c & Hc%deref_Ret_inv & (rn & Hr & [= <-])%go_bind_Ret_inv).
  destruct (wf_without cs i c rn L Hwf HL) as [Hwf' Hre]; [by exists L | done | done |].
  assert (∀ j, live (mkClnts rn (clnts cs) (Some (L ∖ {[i]}))) j → live cs j ∧ j ≠ i) as Hlive.
  { intros j (? & [= <-] & Hj). split; [exists L |]; set_solver. }
  split; [split; [done | split; [done |]] |]; [intros j [Hj _]%Hlive; by apply Hlt |].
  intros j sv [Hj Hji]%Hlive. by apply Hre.
Qed.

(** Every operation that returns keeps the ends in order and has the effect
    [reach_after] says. *)
Lemma exec_reach o cs cs' :
  ok cs → exec o cs = Some (Ret cs') →
  ok cs' ∧ ∀ i sv, live cs' i → reach cs' i sv = reach_after o cs i sv.
Proof.
  intros Hok Hx. pose proof Hok as (Hwf & [L HL] & Hlt). destruct o as [to|i sv0 name|i|i to|i srv|i|i]; simpl in Hx.
  - unfold MakeClientTo in Hx. rewrite HL in Hx. simplify_eq/=. by apply make_effect.
  - apply with_client_Ret in Hx as (Hi & c & Hc & E). symmetry in E.
    apply go_bind_Ret_inv in E as ([rn c'] & E & [= <-]).
    apply go_bind_Ret_inv in E as ([[rn1 c1] e] & E & [= -> ->]).
    destruct (call_effect cs i c sv0 name rn c' e Hwf Hi Hc E) as [Hwf' Hre].
    split; [by eapply ok_same_clerks | done].
  - apply with_client_Ret in Hx as (Hi & c & Hc & [= ->]). simpl. rewrite <- touched_all.
    destruct (toggle cs i c (mkClnt (ends c) None) (λ _, True) true Hwf Hi Hc eq_refl) as [Hwf' Hre].
    split; [by eapply ok_same_clerks |]. intros j sv Hj. rewrite Hre by done. case_decide; [| done]. by destruct (ends c !! sv).
  - apply with_client_Ret in Hx as (Hi & c & Hc & [= ->]). simpl.
    destruct (toggle cs i c (mkClnt (ends c) to) (λ s, allowed_by to s = true) true Hwf Hi Hc eq_refl) as [Hwf' Hre].
    split; [by eapply ok_same_clerks |]. intros j sv Hj. rewrite Hre by done. case_decide as Hd; [subst | done].
    unfold has_end, reach. rewrite Hc. destruct (ends c !! sv); [| simpl; by rewrite orb_false_r].
    case_decide as Ha; [by rewrite Ha |]. destruct (allowed_by to sv); [done |]. done.
  - apply with_client_Ret in Hx as (Hi & c & Hc & [= ->]). simpl.
    destruct (toggle cs i c c (λ s, s = srv) false Hwf Hi Hc eq_refl) as [Hwf' Hre].
    split; [by eapply ok_same_clerks |]. intros j sv Hj. rewrite Hre by done. case_decide as Hd; [subst | done].
    unfold has_end, reach. rewrite Hc. destruct (ends c !! sv).
    + case_decide; [rewrite bool_decide_true by done; by rewrite andb_false_r |].
      rewrite bool_decide_false by done. by rewrite andb_true_r.
    + by rewrite andb_false_r, andb_true_r.
  - apply with_client_Ret in Hx as (Hi & c & Hc & [= ->]). simpl. rewrite <- touched_all.
    destruct (toggle cs i c (mkClnt (ends c) (Some [])) (λ _, True) false Hwf Hi Hc eq_refl) as [Hwf' Hre].
    split; [by eapply ok_same_clerks |]. intros j sv Hj. rewrite Hre by done. case_decide; [| done]. by destruct (ends c !! sv).
  - case_decide as Hi; [| done]. injection Hx as Hx. by apply (delete_effect cs i).
Qed.

(** Only a call can stop the test: when the random name is taken. *)
Lemma exec_abort o cs msg :
  ok cs → exec o cs = Some (Abort msg) → ∃ i sv name, o = OpCall i sv name ∧ name ∈ Labrpc.ends (net cs).
Proof.
  intros (Hwf & [L HL] & Hlt) Hx. destruct o as [to|i sv0 name|i|i to|i srv|i|i]; simpl in Hx;
    try (apply with_client_Ret in Hx as (Hi & c & Hc & E)); [| | done..|].
  - unfold MakeClientTo in Hx. by rewrite HL in Hx.
  - exists i, sv0, name. split; [done |]. unfold makeEnd in E. destruct (ends c !! sv0); [done |].
    unfold MakeEnd in E. by case_decide.
  - case_decide as Hi; [| done]. destruct (wf_live _ Hwf i Hi) as [c Hc].
    destruct (remove_ok cs i c Hwf Hi Hc) as (rn & Hr & _). injection Hx as Hx. unfold DeleteClient in Hx.
    destruct Hi as (L' & HL' & Hi). rewrite HL' in Hx. simpl in Hx. rewrite decide_True, Hc in Hx by done. simpl in Hx.
    by rewrite Hr in Hx.
Qed.

Lemma run_ok os cs cs' : ok cs → run os cs = Some (Ret cs') → ok cs'.
Proof.
  revert cs. induction os as [|o os IH]; intros cs Hok; simpl; [by intros [= <-] |].
  destruct (exec o cs) as [[cs1|]|] eqn:E; [| done..]. apply IH. by eapply exec_reach.
Qed.

Lemma cleanup_ok cs : ok cs →
  ∃ rn', cleanup cs = Ret (mkClnts rn' (clnts cs) None) ∧
    ∀ i c sv e, live cs i → clnts cs !! i = Some c → ends c !! sv = Some e → e ∉ Labrpc.ends rn'.
Proof.
  intros (Hwf & [L HL] & _).
  assert (cs = mkClnts (net cs) (clnts cs) (Some L)) as Hcs by (destruct cs; simpl in *; by subst).
  destruct (remove_each_ok (net cs) (clnts cs) L (elements L)) as (rn' & E & _ & Hgone);
    [by rewrite <- Hcs | apply NoDup_elements | by intros i ?%elem_of_elements |].
  exists rn'. unfold cleanup. rewrite HL. simpl. rewrite E. split; [done |].
  intros i c sv e (L' & HL' & Hi). rewrite HL in HL'. injection HL' as <-. apply Hgone. by apply elem_of_elements.
Qed.

(** What each operation does to the servers a client reaches, in any
    history of clients.  Nothing a client does changes what another reaches;
    a call changes nothing; [ConnectAll] opens every server and
    [DisconnectAll] closes every server, also those not called yet;
    [ConnectTo] opens the servers named but closes none the client already
    reached through an end; [Disconnect] closes only a server called before.
    The test stops only if a random name is taken twice, and at the end all
    ends of live clients can be deleted. *)
Theorem clients_reach (rn : Network) (os : list Op) (cs : Clnts)
    (Hr : run os (makeClnts rn) = Some (Ret cs)) :
  (∀ o cs', exec o cs = Some (Ret cs') → ∀ i sv, live cs' i → reach cs' i sv = reach_after o cs i sv) ∧
  (∀ o msg, exec o cs = Some (Abort msg) → ∃ i sv name, o = OpCall i sv name ∧ name ∈ Labrpc.ends (net cs)) ∧
  (∃ rn', cleanup cs = Ret (mkClnts rn' (clnts cs) None) ∧
     ∀ i c sv e, live cs i → clnts cs !! i = Some c → ends c !! sv = Some e → e ∉ Labrpc.ends rn').
Proof.
  pose proof (run_ok os _ cs (ok_init rn) Hr) as Hok. split; [intros o cs' Hx; by apply exec_reach |].
  split; [intros o msg; by apply exec_abort | by apply cleanup_ok].
Qed.

(** Narrowing with [ConnectTo] leaves a server already called in reach. *)
Definition called_once : list Op := [OpMake None; OpCall 0 "server-0-0" "e"].

Lemma clients_reach_witness :
  ∃ cs, run called_once (makeClnts MakeNetwork) = Some (Ret cs) ∧
    ∃ cs', exec (OpConnectTo 0 (Some [])) cs = Some (Ret cs') ∧
      reach cs' 0 "server-0-0" = reach_after (OpConnectTo 0 (Some [])) cs 0 "server-0-0" ∧
      reach cs' 0 "server-0-0" = true.
Proof.
  eexists. split; [vm_compute; reflexivity |]. eexists. split; [vm_compute; reflexivity |].
  split; [| vm_compute; reflexivity].
  eapply (proj1 (clients_reach MakeNetwork called_once _ ltac:(vm_compute; reflexivity)) (OpConnectTo 0 (Some [])));
    [vm_compute; reflexivity |].
  exists ({[0%nat]} ∪ ∅). split; [vm_compute; reflexivity | set_solver].
Defined.

End TesterClnts.
