(* ===== verification/TesterConfig.v ===== *)
(** * The configuration of a test: [tester1/config.go] and the groups' table of [group.go]

    A test has one network, shared by groups of servers ([TesterGroup]) and
    clients ([TesterClnts]).  This file puts them together: the table of
    groups, starting and leaving groups, and the operations a test makes on
    any of them.  Each component reaches the network through the ends it
    owns; the theorems show that components keep their hands off each other's
    ends. *)

From S2P Require Import Prelude Labrpc TesterGroup TesterClnts Annotation.
#[local] Open Scope Z_scope.

Module TesterConfig.
Import Labrpc.

(** ** Ownership of ends *)

(** A component with the ends [own] takes the network from [rn] to [rn'] and
    owns [own'] afterwards: other ends stay as they are, and what it owns is
    in the network, was its own before or is new. *)
Record frame (rn rn' : Network) (own own' : gset string) : Prop := {
  fr_other : ∀ e, e ∈ ends rn → e ∉ own →
    e ∈ ends rn' ∧ is_enabled rn' e = is_enabled rn e ∧ connected_to rn' e = connected_to rn e;
  fr_own : ∀ e, e ∈ own' → e ∈ ends rn' ∧ (e ∈ own ∨ e ∉ ends rn);
}.

Lemma own_frame_refl rn own : own ⊆ ends rn → frame rn rn own own.
Proof. intros Ho. split; [done |]. intros e He. split; [by apply Ho | by left]. Qed.

Lemma frame_trans rn0 rn1 rn2 o0 o1 o2 : frame rn0 rn1 o0 o1 → frame rn1 rn2 o1 o2 → frame rn0 rn2 o0 o2.
Proof.
  intros [Hf1 Ho1] [Hf2 Ho2]. split.
  - intros e He Hne. destruct (Hf1 e He Hne) as (He1 & Hen1 & Hc1).
    destruct (Hf2 e He1) as (He2 & Hen2 & Hc2).
    { intros He'. destruct (Ho1 e He') as [_ [?|?]]; done. }
    split_and!; [done | congruence | congruence].
  - intros e He. destruct (Ho2 e He) as [He2 Hd]. split; [done |].
    destruct Hd as [Hd|Hd]; [by apply Ho1 |].
    destruct (decide (e ∈ ends rn0)) as [H0|H0]; [| by right]. destruct (decide (e ∈ o0)) as [H1|H1]; [by left |].
    exfalso. apply Hd. by apply Hf1.
Qed.

Lemma frame_weaken rn rn' o o1 o2 : frame rn rn' o o1 → o2 ⊆ o1 → frame rn rn' o o2.
Proof. intros [Hf Ho] Hs. split; [done |]. intros e He. apply Ho. set_solver. Qed.

(** *** The network's operations *)

Lemma Enable_frame rn e b own : own ⊆ ends rn → e ∈ own → frame rn (Enable rn e b) own own.
Proof.
  intros Ho He. split.
  - intros e' He' Hne. split; [done |]. split; [| done].
    unfold is_enabled, Enable. simpl. rewrite lookup_insert_ne; [done |]. set_solver.
  - intros e' He'. split; [by apply Ho | by left].
Qed.

Lemma MakeEnd_frame rn e sn own rn' :
  own ⊆ ends rn → MakeEnd rn e = Ret rn' → frame rn (Connect rn' e sn) own ({[e]} ∪ own).
Proof.
  unfold MakeEnd. intros Ho Hm. case_decide as Hd; [done |]. injection Hm as <-. split; simpl.
  - intros e' He' Hne. assert (e ≠ e') by set_solver. split; [set_solver |].
    unfold is_enabled, connected_to, Connect. simpl. by rewrite !lookup_insert_ne.
  - intros e' He'. split; [set_solver |]. apply elem_of_union in He' as [->%elem_of_singleton|?]; auto.
Qed.

Lemma tables_frame rn own sv : own ⊆ ends rn →
  frame rn (set_tables rn (ends rn) (enabled rn) sv (connections rn)) own own.
Proof. intros Ho. split; [done |]. intros e He. split; [by apply Ho | by left]. Qed.

(** ** Groups *)

Module Grp := TesterGroup.

Definition own (sg : Grp.ServerGrp) : gset string := list_to_set (concat (Grp.endNames <$> Grp.srvs sg)).

Lemma elem_of_own sg e : e ∈ own sg ↔ ∃ i s, Grp.srvs sg !! i = Some s ∧ e ∈ Grp.endNames s.
Proof.
  unfold own. rewrite elem_of_list_to_set, list_elem_of_In, in_concat. setoid_rewrite <- list_elem_of_In. split.
  - intros (l & (s & -> & Hs)%list_elem_of_fmap & He). apply list_elem_of_lookup in Hs as [i Hi]. eauto.
  - intros (i & s & Hi & He). exists (Grp.endNames s). split; [| done].
    apply list_elem_of_fmap_2. by eapply list_elem_of_lookup_2.
Qed.

Lemma end_of_own sg i j e : Grp.end_of sg i j = Ret e → e ∈ own sg.
Proof.
  unfold Grp.end_of. intros H. unwrap_go. apply elem_of_own. eexists i, _. split; [done |]. by eapply list_elem_of_lookup_2.
Qed.

Record gok (n : nat) (sg : Grp.ServerGrp) : Prop := {
  gok_wf : Grp.wf n sg;
  gok_own : own sg ⊆ ends (Grp.net sg);
  gok_route : ∀ i j e, Grp.end_of sg i j = Ret e → connected_to (Grp.net sg) e = Some (Grp.ServerName (Grp.gid sg) j);
}.

(** The servers of other groups stay where they are. *)
Definition srv_frame (gid : Z) (rn rn' : Network) : Prop :=
  ∀ sn, (∀ i, sn ≠ Grp.ServerName gid i) → server_at rn' sn = server_at rn sn.

(** What every operation on a group does. *)
Definition grel (n : nat) (sg sg' : Grp.ServerGrp) : Prop :=
  gok n sg → gok n sg' ∧ Grp.gid sg' = Grp.gid sg ∧ frame (Grp.net sg) (Grp.net sg') (own sg) (own sg') ∧
  srv_frame (Grp.gid sg) (Grp.net sg) (Grp.net sg').

#[export] Instance grel_preorder n : PreOrder (grel n).
Proof.
  split.
  - intros sg Hok. split; [done |]. split; [done |]. split; [| done]. apply own_frame_refl, Hok.
  - intros a b c Hab Hbc Ha. destruct (Hab Ha) as (Hb & G1 & F1 & S1). destruct (Hbc Hb) as (Hc & G2 & F2 & S2).
    split; [done |]. split; [congruence |]. split; [by eapply frame_trans |].
    intros sn Hsn. rewrite S2, S1; [done | done |]. by rewrite G1.
Qed.

(** An operation that keeps the servers' ends and the number of flags. *)
Lemma grel_net n sg sg' :
  Grp.endNames <$> Grp.srvs sg' = Grp.endNames <$> Grp.srvs sg →
  length (Grp.connected sg') = length (Grp.connected sg) → Grp.gid sg' = Grp.gid sg →
  (∀ e, connected_to (Grp.net sg') e = connected_to (Grp.net sg) e) → srv_frame (Grp.gid sg) (Grp.net sg) (Grp.net sg') →
  (own sg ⊆ ends (Grp.net sg) → frame (Grp.net sg) (Grp.net sg') (own sg) (own sg)) → grel n sg sg'.
Proof.
  intros Hs Hc Hg Hct Hsv Hf [[W1 W2 W3 W4] Ho Hr].
  assert (∀ i j, Grp.end_of sg' i j = Grp.end_of sg i j) as He.
  { intros i j. unfold Grp.end_of. apply (f_equal (lookup i)) in Hs. rewrite !list_lookup_fmap in Hs.
    destruct (Grp.srvs sg' !! i), (Grp.srvs sg !! i); simpl in *; try done. by injection Hs as ->. }
  assert (own sg' = own sg) as Hown by (unfold own; by rewrite Hs).
  rewrite Hown. split; [| split; [done | split; [by apply Hf | done]]]. split.
  - split.
    + apply (f_equal length) in Hs. rewrite !length_fmap in Hs. congruence.
    + congruence.
    + intros i s Hi. apply (f_equal (lookup i)) in Hs. rewrite !list_lookup_fmap, Hi in Hs. simpl in Hs.
      destruct (Grp.srvs sg !! i) as [s0|] eqn:E; [| done]. simpl in Hs. injection Hs as ->. by eapply W3.
    + intros i j i' j' e. rewrite !He. apply W4.
  - rewrite Hown. intros e He'. by apply (fr_own _ _ _ _ (Hf Ho)).
  - intros i j e. rewrite He, Hct, Hg. apply Hr.
Qed.

Lemma enable_end_grel n sg i j b sg' : Grp.enable_end sg i j b = Ret sg' → grel n sg sg'.
Proof.
  intros H. unfold Grp.enable_end in H. unwrap_go. simplify_eq. apply grel_net; [done.. |].
  intros Ho. apply Enable_frame; [done | by eapply end_of_own].
Qed.

Lemma set_connected_at_grel n sg i b sg' : Grp.set_connected_at sg i b = Ret sg' → grel n sg sg'.
Proof.
  unfold Grp.set_connected_at. intros H. case_decide; simplify_eq.
  apply grel_net; [done | simpl; apply length_insert | done | done | done |]. intros Ho. by apply own_frame_refl.
Qed.

(** The loops over lists of servers. *)
Ltac loop_grel l :=
  induction l as [|j l IH]; intros sg sg' H; simpl in H; [by simplify_eq |]; unwrap_go;
  repeat match goal with b : bool |- _ => destruct b; simplify_eq/= end; eauto using enable_end_grel;
  etrans; [by eapply enable_end_grel | eauto].

Lemma connect_out_grel n i to : ∀ sg sg', Grp.connect_out sg i to = Ret sg' → grel n sg sg'.
Proof. loop_grel to. Qed.
Lemma connect_in_grel n i to : ∀ sg sg', Grp.connect_in sg i to = Ret sg' → grel n sg sg'.
Proof. loop_grel to. Qed.
Lemma disconnect_out_grel n i from : ∀ sg sg', Grp.disconnect_out sg i from = Ret sg' → grel n sg sg'.
Proof. loop_grel from. Qed.
Lemma disconnect_in_grel n i from : ∀ sg sg', Grp.disconnect_in sg i from = Ret sg' → grel n sg sg'.
Proof. loop_grel from. Qed.

Lemma connect_grel n sg i to sg' : Grp.connect sg i to = Ret sg' → grel n sg sg'.
Proof.
  unfold Grp.connect. intros H. unwrap_go. etrans; [by eapply set_connected_at_grel |].
  etrans; [by eapply connect_out_grel | by eapply connect_in_grel].
Qed.

Lemma disconnect_grel n sg i from sg' : Grp.disconnect sg i from = Ret sg' → grel n sg sg'.
Proof.
  unfold Grp.disconnect. intros H. unwrap_go. etrans; [by eapply set_connected_at_grel |].
  etrans; [by eapply disconnect_out_grel | by eapply disconnect_in_grel].
Qed.

Lemma each_grel n f ks : (∀ sg i sg', f sg i = Ret sg' → grel n sg sg') →
  ∀ sg sg', Grp.each f sg ks = Ret sg' → grel n sg sg'.
Proof.
  intros Hf. unfold Grp.each. induction ks as [|k ks IH] using rev_ind; intros sg sg'; simpl; [by intros [= ->] |].
  rewrite foldl_app. simpl. intros (sg1 & H1 & H2)%go_bind_Ret_inv. etrans; [by apply IH | by eapply Hf].
Qed.

Lemma ConnectAll_grel n sg sg' : Grp.ConnectAll sg = Ret sg' → grel n sg sg'.
Proof. apply each_grel. intros ? ? ?. apply connect_grel. Qed.

Lemma Partition_grel n sg p1 p2 sg' : Grp.Partition sg p1 p2 = Ret sg' → grel n sg sg'.
Proof.
  unfold Grp.Partition. intros (sg1 & H1 & H2)%go_bind_Ret_inv.
  assert (∀ p q sg i sg', (let* sg := Grp.disconnect sg i q in Grp.connect sg i p)%go = Ret sg' → grel n sg sg') as Hf.
  { intros p q s0 i s1 (s2 & Hd & Hc)%go_bind_Ret_inv. etrans; [by eapply disconnect_grel | by eapply connect_grel]. }
  etrans; [eapply each_grel; [| exact H1]; apply Hf | eapply each_grel; [| exact H2]; apply Hf].
Qed.

Lemma shutdown_grel n sg i sg' : Grp.ShutdownServer sg i = Ret sg' → grel n sg sg'.
Proof.
  unfold Grp.ShutdownServer. intros (sg1 & H1 & H2)%go_bind_Ret_inv.
  etrans; [by eapply disconnect_grel |]. unfold Grp.shutdownServer in H2. simpl in H2. unwrap_go.
  assert (∀ s' ps k np, Grp.srvs sg1 !! i = Some x → Grp.endNames s' = Grp.endNames x →
    grel n sg1 (Grp.mkServerGrp (DeleteServer (Grp.net sg1) (Grp.ServerName (Grp.gid sg1) i)) (<[i := s']> (Grp.srvs sg1))
                  (Grp.servernames sg1) (Grp.gid sg1) (Grp.connected sg1) ps np k)) as Hg.
  { intros s' ps k np Hx He. apply grel_net; simpl; [| done | done | done | | intros Ho; by apply tables_frame];
      [| intros sn Hsn; unfold server_at; simpl; by rewrite lookup_insert_ne by (intros <-; by eapply Hsn)].
    rewrite list_fmap_insert. apply list_insert_id. by rewrite list_lookup_fmap, Hx, He. }
  destruct (Grp.saved x); unwrap_go; simplify_eq; by apply Hg.
Qed.

Lemma make_ends_frame gid names : ∀ rn j rn' own, own ⊆ ends rn → Grp.make_ends rn gid j names = Ret rn' →
  frame rn rn' own (list_to_set names ∪ own) ∧ NoDup names ∧ (∀ e, e ∈ names → e ∉ ends rn) ∧
  ∀ k e, names !! k = Some e → connected_to rn' e = Some (Grp.ServerName gid (j + k)).
Proof.
  induction names as [|e names IH]; intros rn j rn' own Ho H; simpl in H.
  { injection H as <-. split; [| split; [constructor | split; [by intros ? ?%not_elem_of_nil | done]]].
    rewrite list_to_set_nil, union_empty_l_L. by apply own_frame_refl. }
  apply go_bind_Ret_inv in H as (rn1 & H1 & H2).
  pose proof (MakeEnd_frame rn e (Grp.ServerName gid j) own rn1 Ho H1) as F1.
  assert ((e ∉ ends rn) ∧ ends (Connect rn1 e (Grp.ServerName gid j)) = {[e]} ∪ ends rn) as [Hfresh Hends].
  { unfold MakeEnd in H1. case_decide; [done |]. by injection H1 as <-. }
  destruct (IH _ _ _ ({[e]} ∪ own) ltac:(rewrite Hends; set_solver) H2) as (F2 & Hnd & Hnew & Hrt).
  destruct (IH _ _ _ own ltac:(rewrite Hends; set_solver) H2) as (F2' & _). rewrite Hends in Hnew.
  assert (e ∉ own) as Heo by (intros He; by apply Hfresh, Ho).
  split; [| split; [| split]].
  - eapply frame_weaken; [by eapply frame_trans |]. set_solver.
  - apply NoDup_cons. split; [| done]. intros He. apply (Hnew e He). set_solver.
  - intros e' [->|He']%elem_of_cons; [done |]. specialize (Hnew e' He'). set_solver.
  - intros [|k] e' He'; simpl in He'.
    + injection He' as <-. destruct (fr_other _ _ _ _ F2' e) as (_ & _ & ->); [rewrite Hends; set_solver | done |].
      unfold connected_to, Connect. simpl. rewrite lookup_insert_eq, Nat.add_0_r. done.
    + rewrite (Hrt k e' He'). do 2 f_equal. lia.
Qed.

Lemma make_ends_servers gid names : ∀ rn j rn', Grp.make_ends rn gid j names = Ret rn' → servers rn' = servers rn.
Proof.
  induction names as [|e names IH]; intros rn j rn' H; simpl in H; [by simplify_eq |]. unwrap_go.
  match goal with H : Grp.make_ends _ _ _ _ = _ |- _ => rewrite (IH _ _ _ H) end.
  unfold MakeEnd in *. case_decide; by simplify_eq/=.
Qed.

Lemma make_srvs_servers gid names : ∀ rn rn' ss, Grp.make_srvs rn gid names = Ret (rn', ss) → servers rn' = servers rn.
Proof.
  induction names as [|ns names IH]; intros rn rn' ss H; simpl in H; [by simplify_eq |].
  unfold Grp.makeServer in H. unwrap_go. simplify_eq/=.
  match goal with H : Grp.make_srvs _ _ _ = Ret ?x |- _ => destruct x as [rn2 ss2]; simpl in *; rewrite (IH _ _ _ H) end.
  by eapply make_ends_servers.
Qed.

(** Giving server [i] new ends [names]. *)
Lemma wf_fresh n sg sg' i names :
  Grp.wf n sg → length names = n → NoDup names → (∀ e, e ∈ names → e ∉ own sg) →
  Grp.endNames <$> Grp.srvs sg' = <[i := names]> (Grp.endNames <$> Grp.srvs sg) →
  length (Grp.connected sg') = length (Grp.connected sg) → Grp.wf n sg'.
Proof.
  intros [W1 W2 W3 W4] Hl Hnd Hf Hs Hc.
  assert (∀ j s, Grp.srvs sg' !! j = Some s → Grp.endNames s = names ∧ j = i ∨
            ∃ s0, Grp.srvs sg !! j = Some s0 ∧ Grp.endNames s = Grp.endNames s0) as Hj.
  { intros j s Hs'. apply (f_equal (lookup j)) in Hs. rewrite list_lookup_fmap, Hs' in Hs. simpl in Hs. symmetry in Hs.
    apply list_lookup_insert_Some in Hs as [(-> & -> & _)|[_ Hs]]; [by left |]. right.
    rewrite list_lookup_fmap in Hs. destruct (Grp.srvs sg !! j) as [s0|]; [| done]. injection Hs as Hs. by exists s0. }
  assert (∀ j k e, Grp.end_of sg' j k = Ret e → (j = i ∧ names !! k = Some e) ∨ Grp.end_of sg j k = Ret e) as He.
  { intros j k e H. unfold Grp.end_of in H. unwrap_go.
    match goal with H : Grp.srvs sg' !! j = Some _ |- _ => destruct (Hj _ _ H) as [[Hn ->]|(s0 & Hs0 & Hn)] end;
      match goal with H : _ !! k = Some e |- _ => rewrite Hn in H end; [by left | right].
    unfold Grp.end_of. rewrite Hs0. simpl. match goal with H : _ !! k = Some e |- _ => by rewrite H end. }
  split.
  - apply (f_equal length) in Hs. rewrite length_insert, !length_fmap in Hs. congruence.
  - congruence.
  - intros j s Hs'. destruct (Hj _ _ Hs') as [[-> _]|(s0 & Hs0 & ->)]; [done | by eapply W3].
  - intros i1 j1 i2 j2 e [[-> H1]|H1]%He [[-> H2]|H2]%He.
    + split; [done |]. by eapply NoDup_lookup.
    + destruct (Hf e); [by eapply list_elem_of_lookup_2 | by eapply end_of_own].
    + destruct (Hf e); [by eapply list_elem_of_lookup_2 | by eapply end_of_own].
    + by eapply W4.
Qed.

Lemma StartServer_grel n sg i names svcs sg' :
  length names = n → Grp.StartServer sg i names svcs = Ret sg' → grel n sg sg'.
Proof.
  intros <- H [Hwf Ho Hr]. unfold Grp.StartServer, Grp.makeServer in H. unwrap_go. simplify_eq/=.
  match goal with H : Grp.make_ends _ _ _ _ = Ret _ |- _ => destruct (make_ends_frame _ _ _ _ _ _ Ho H) as (F & Hnd & Hnew & Hrt);
    destruct (make_ends_frame _ _ _ _ _ ∅ (empty_subseteq _) H) as (F0 & _) end.
  match goal with |- gok _ ?g ∧ _ => set (sg' := g) end.
  assert (Grp.endNames <$> Grp.srvs sg' = <[i := names]> (Grp.endNames <$> Grp.srvs sg)) as Hs by (simpl; by rewrite list_fmap_insert).
  assert (own sg' ⊆ list_to_set names ∪ own sg) as Hown.
  { intros e (j & s & Hj & He)%elem_of_own. simpl in Hj. apply list_lookup_insert_Some in Hj as [(-> & <- & _)|[_ Hj]]; [set_solver |].
    apply elem_of_union_r, elem_of_own. eauto. }
  assert (frame (Grp.net sg) (Grp.net sg') (own sg) (own sg')) as F'.
  { eapply frame_weaken; [| exact Hown]. eapply frame_trans; [exact F |]. apply tables_frame.
    intros e He. by apply (fr_own _ _ _ _ F). }
  assert (srv_frame (Grp.gid sg) (Grp.net sg) (Grp.net sg')) as S.
  { intros sn Hsn. unfold server_at. simpl. rewrite lookup_insert_ne by (intros <-; by eapply Hsn).
    match goal with H : Grp.make_ends _ _ _ _ = Ret _ |- _ => by rewrite (make_ends_servers _ _ _ _ _ H) end. }
  split; [| by split_and?]. split.
  - apply (wf_fresh _ sg sg' i names); try done. intros e He Heo. by apply (Hnew e He), Ho.
  - intros e He. by apply (fr_own _ _ _ _ F').
  - intros j k e He. unfold Grp.end_of in He. simpl in He. unwrap_go.
    match goal with H : _ !! j = Some ?s |- _ => apply list_lookup_insert_Some in H as [(-> & <- & _)|[_ Hj]] end;
      simpl in *; [by apply Hrt |].
    assert (Grp.end_of sg j k = Ret e) as He' by (unfold Grp.end_of; rewrite Hj; simpl; by match goal with H : _ !! k = _ |- _ => rewrite H end).
    rewrite <- (Hr _ _ _ He'). apply (fr_other _ _ _ _ F0); [by apply Ho; eapply end_of_own | set_solver].
Qed.

(** Making a group. *)
Lemma make_srvs_frame gid names : ∀ rn rn' ss own, own ⊆ ends rn → Grp.make_srvs rn gid names = Ret (rn', ss) →
  frame rn rn' own (list_to_set (concat names) ∪ own) ∧ NoDup (concat names) ∧
  (∀ e, e ∈ concat names → e ∉ ends rn) ∧ Grp.endNames <$> ss = names ∧
  ∀ i j ns e, names !! i = Some ns → ns !! j = Some e → connected_to rn' e = Some (Grp.ServerName gid j).
Proof.
  induction names as [|ns names IH]; intros rn rn' ss own Ho H; simpl in H.
  { injection H as <- <-. split; [| split; [constructor | split; [by intros ? ?%not_elem_of_nil | by split]]].
    simpl. rewrite union_empty_l_L. by apply own_frame_refl. }
  unwrap_go. simplify_eq/=. unfold Grp.makeServer in *. unwrap_go. simplify_eq/=.
  match goal with H : Grp.make_ends _ _ _ _ = Ret _ |- _ => destruct (make_ends_frame _ _ _ _ _ _ Ho H) as (F1 & Hnd1 & Hnew1 & Hrt1) end.
  match goal with H : Grp.make_srvs _ _ _ = Ret ?x |- _ => destruct x as [rn2 ss2]; rename H into H2 end.
  assert (list_to_set ns ∪ own ⊆ ends x1) as Ho1 by (intros e He; by apply (fr_own _ _ _ _ F1)).
  destruct (IH _ _ _ _ Ho1 H2) as (F2 & Hnd2 & Hnew2 & Hs2 & Hrt2).
  destruct (IH _ _ _ ∅ (empty_subseteq _) H2) as (F2' & _).
  assert (∀ e, e ∈ concat names → (e ∉ ends rn) ∧ (e ∉ ns)) as Hboth.
  { intros e He. split.
    - intros Hin. destruct (decide (e ∈ own)) as [Heo|Heo]; [| by apply (Hnew2 e He), (fr_other _ _ _ _ F1)].
      apply (Hnew2 e He). apply (fr_own _ _ _ _ F1). set_solver.
    - intros Hin. apply (Hnew2 e He). apply (fr_own _ _ _ _ F1). set_solver. }
  split; [| split; [| split; [| split]]]; simpl.
  - eapply frame_weaken; [by eapply frame_trans |]. set_solver.
  - apply NoDup_app. split_and!; [done | | done]. intros e H1 H2'. by apply (Hboth e H2').
  - intros e [He|He]%elem_of_app; [by apply Hnew1 | by apply Hboth].
  - by rewrite Hs2.
  - intros [|i] j ns' e Hi Hj; simpl in Hi; [| by eapply Hrt2]. injection Hi as <-.
    etrans; [| exact (Hrt1 j e Hj)]. apply (fr_other _ _ _ _ F2'); [| set_solver].
    apply (fr_own _ _ _ _ F1), elem_of_union_l, elem_of_list_to_set. by eapply list_elem_of_lookup_2.
Qed.

Lemma makeSrvGrp_ok rn gid names sg :
  Forall (λ ns, length ns = length names) names → Grp.makeSrvGrp rn gid names = Ret sg →
  gok (length names) sg ∧ Grp.gid sg = gid ∧ frame rn (Grp.net sg) ∅ (own sg) ∧ servers (Grp.net sg) = servers rn.
Proof.
  intros Hl H. unfold Grp.makeSrvGrp in H. apply go_bind_Ret_inv in H as ([rn' ss] & H & Hsg). injection Hsg as <-. simpl.
  destruct (make_srvs_frame _ _ _ _ _ ∅ (empty_subseteq _) H) as (F & Hnd & Hnew & Hs & Hrt).
  rewrite union_empty_r_L in F. unfold own. simpl. rewrite Hs.
  assert (∀ i s, ss !! i = Some s → names !! i = Some (Grp.endNames s)) as Hn.
  { intros i s Hi. by rewrite <- Hs, list_lookup_fmap, Hi. }
  split; [| split; [done |]; split; [done | by eapply make_srvs_servers]]. split;
    [| unfold own; simpl; rewrite Hs; intros e He; by apply (fr_own _ _ _ _ F)
     | intros i j e He; unfold Grp.end_of in He; simpl in *; unwrap_go; eapply Hrt; [by apply Hn | done]].
  split; simpl.
  - by rewrite <- Hs, length_fmap.
  - by rewrite length_replicate.
  - intros i s Hi. rewrite Forall_forall in Hl. apply Hl. by eapply list_elem_of_lookup_2, Hn.
  - intros i j i' j' e H1 H2. unfold Grp.end_of in *. simpl in *. unwrap_go.
    match goal with A : ss !! i = Some ?a, B : ss !! i' = Some ?b |- _ => apply Hn in A; apply Hn in B end.
    by eapply concat_lookup_inj.
Qed.

(** ** Clients *)

Module Cl := TesterClnts.

Definition cl_ends (cs : Cl.Clnts) (i : nat) : list string :=
  match Cl.clnts cs !! i with Some c => (map_to_list (Cl.ends c)).*2 | None => [] end.

Definition client_own (cs : Cl.Clnts) : gset string :=
  list_to_set (concat (cl_ends cs <$> elements (default ∅ (Cl.clerks cs)))).

Lemma elem_of_client_own cs e :
  e ∈ client_own cs ↔ ∃ i c sv, Cl.live cs i ∧ Cl.clnts cs !! i = Some c ∧ Cl.ends c !! sv = Some e.
Proof.
  unfold client_own, Cl.live. rewrite elem_of_list_to_set, list_elem_of_In, in_concat. setoid_rewrite <- list_elem_of_In. split.
  - intros (l & (i & -> & Hi)%list_elem_of_fmap & He). apply elem_of_elements in Hi. unfold cl_ends in He.
    destruct (Cl.clerks cs) as [L|]; simpl in Hi; [| set_solver].
    destruct (Cl.clnts cs !! i) as [c|] eqn:Hc; [| by apply not_elem_of_nil in He].
    apply list_elem_of_fmap in He as ([sv e'] & -> & He). apply elem_of_map_to_list in He. exists i, c, sv. naive_solver.
  - intros (i & c & sv & (L & HL & Hi) & Hc & He). rewrite HL. simpl. exists (cl_ends cs i). split.
    + apply list_elem_of_fmap_2. by apply elem_of_elements.
    + unfold cl_ends. rewrite Hc. apply list_elem_of_fmap. exists (sv, e). split; [done |]. by apply elem_of_map_to_list.
Qed.

Lemma client_own_ends cs : Cl.wf cs → client_own cs ⊆ ends (Cl.net cs).
Proof. intros Hwf e (i & c & sv & Hi & Hc & He)%elem_of_client_own. by eapply (Cl.wf_ends _ Hwf). Qed.

Lemma enable_each_frame rn l b o : o ⊆ ends rn → (∀ e, e ∈ l.*2 → e ∈ o) → frame rn (Cl.enable_each rn l b) o o.
Proof.
  intros Ho Hl. split.
  - intros e He Hne. rewrite Cl.enable_each_ends, Cl.enable_each_connected, Cl.enable_each_enabled.
    rewrite decide_False; [done |]. intros Hin. by apply Hne, Hl.
  - intros e He. rewrite Cl.enable_each_ends. split; [by apply Ho | by left].
Qed.

Lemma enable_each_servers rn l b : servers (Cl.enable_each rn l b) = servers rn.
Proof. unfold Cl.enable_each. revert rn. induction l as [|x l IH]; intros rn; simpl; [done |]. by rewrite IH. Qed.

Lemma delete_each_servers l : ∀ rn rn', Cl.delete_each rn l = Ret rn' → servers rn' = servers rn.
Proof.
  induction l as [|x l IH]; intros rn rn' H; simpl in H; [by simplify_eq |]. apply go_bind_Ret_inv in H as (rn1 & H1 & H2).
  rewrite (IH _ _ H2). unfold DeleteEnd in H1. case_decide; by simplify_eq/=.
Qed.

Lemma client_servers o cs cs' : Cl.exec o cs = Some (Ret cs') → servers (Cl.net cs') = servers (Cl.net cs).
Proof.
  intros Hx. destruct o as [to|i sv0 name|i|i to|i srv|i|i]; simpl in Hx;
    try (apply Cl.with_client_Ret in Hx as (Hi & c & Hc & E)).
  - unfold Cl.MakeClientTo in Hx. injection Hx as Hx. unwrap_go. by simplify_eq/=.
  - symmetry in E. apply go_bind_Ret_inv in E as ([rn c'] & E & [= <-]).
    apply go_bind_Ret_inv in E as ([[rn1 c1] e] & E & [= -> ->]). simpl. unfold Cl.makeEnd, MakeEnd in E.
    repeat case_match; by simplify_eq/=.
  - injection E as ->. apply enable_each_servers.
  - injection E as ->. apply enable_each_servers.
  - injection E as ->. apply enable_each_servers.
  - injection E as ->. apply enable_each_servers.
  - case_decide; [| done]. injection Hx as Hx. unfold Cl.DeleteClient in Hx. case_decide; [| by simplify_eq].
    unwrap_go. simplify_eq/=. by eapply delete_each_servers.
Qed.

(** Deleting ends the component owns. *)
Lemma delete_each_frame l : ∀ rn rn' o, o ⊆ ends rn → (∀ e, e ∈ l.*2 → e ∈ o) → Cl.delete_each rn l = Ret rn' →
  frame rn rn' o (o ∖ list_to_set l.*2).
Proof.
  induction l as [|[sv e] l IH]; intros rn rn' o Ho Hl H; simpl in H.
  { injection H as <-. simpl. rewrite difference_empty_L. by apply own_frame_refl. }
  apply go_bind_Ret_inv in H as (rn1 & H1 & H2). unfold DeleteEnd in H1. case_decide as Hd; [| done]. injection H1 as <-.
  set (rn1 := set_tables _ _ _ _ _) in *.
  assert (frame rn rn1 o (o ∖ {[e]})) as F1.
  { split; simpl.
    - intros e' He' Hne. assert (e ≠ e') by (intros ->; apply Hne, Hl; by left). split; [set_solver |].
      unfold is_enabled, connected_to, rn1. simpl. by rewrite !lookup_delete_ne.
    - intros e' He'. split; [set_solver | set_solver]. }
  assert (frame rn rn' o ((o ∖ {[e]}) ∖ list_to_set l.*2)) as F2.
  { destruct (decide (e ∈ l.*2)) as [Hin|Hin].
    - exfalso. clear -H2 Hin. subst rn1.
      assert (e ∉ ends (set_tables rn (ends rn ∖ {[e]}) (delete e (enabled rn)) (servers rn) (delete e (connections rn)))) as Hno
        by (simpl; set_solver). revert H2 Hno. generalize (set_tables rn (ends rn ∖ {[e]}) (delete e (enabled rn)) (servers rn) (delete e (connections rn))).
      induction l as [|[sv' e'] l IHl]; intros rn1 H2 Hno; [by apply not_elem_of_nil in Hin |]. simpl in H2.
      apply go_bind_Ret_inv in H2 as (rn2 & H1 & H2). unfold DeleteEnd in H1. case_decide as Hd; [| done]. injection H1 as <-.
      simpl in Hin. apply elem_of_cons in Hin as [->|Hin]; [done |]. eapply (IHl Hin); [exact H2 | simpl; set_solver].
    - eapply frame_trans; [exact F1 |]. apply IH; [simpl; set_solver | | done].
      intros e' He'. apply elem_of_difference. split; [apply Hl; by right | set_solver]. }
  eapply frame_weaken; [exact F2 |]. simpl. set_solver.
Qed.

Lemma client_frame o cs cs' :
  Cl.ok cs → Cl.exec o cs = Some (Ret cs') →
  Cl.ok cs' ∧ frame (Cl.net cs) (Cl.net cs') (client_own cs) (client_own cs').
Proof.
  intros Hok Hx. destruct (Cl.exec_reach o cs cs' Hok Hx) as [Hok' _]. split; [done |].
  pose proof (client_own_ends cs (proj1 Hok)) as Ho. pose proof (client_own_ends cs' (proj1 Hok')) as Ho'.
  assert (∀ i c rn c', Cl.live cs i → Cl.clnts cs !! i = Some c → Cl.ends c' = Cl.ends c →
    cs' = Cl.mkClnts rn (<[i := c']> (Cl.clnts cs)) (Cl.clerks cs) → client_own cs' ⊆ client_own cs) as Hsame.
  { intros i c rn c' Hi Hc He -> e (j & d & sv & Hj & Hd & Hsv)%elem_of_client_own. simpl in Hd.
    apply elem_of_client_own. apply list_lookup_insert_Some in Hd as [(<- & <- & _)|[_ Hd]].
    - exists i, c, sv. by rewrite <- He.
    - by exists j, d, sv. }
  assert (∀ i c (e : string) l, Cl.live cs i → Cl.clnts cs !! i = Some c → l ⊆ map_to_list (Cl.ends c) → e ∈ l.*2 → e ∈ client_own cs) as Hin.
  { intros i c e l Hi Hc Hl ([sv e'] & -> & He)%list_elem_of_fmap. apply elem_of_client_own. exists i, c, sv.
    split; [done |]. split; [done |]. apply elem_of_map_to_list. by apply Hl. }
  destruct o as [to|i sv0 name|i|i to|i srv|i|i]; simpl in Hx.
  - unfold Cl.MakeClientTo in Hx. injection Hx as Hx. unwrap_go. simplify_eq/=. eapply frame_weaken; [by apply own_frame_refl |].
    intros e (j & d & sv & (L & [= <-] & Hj) & Hd & Hsv)%elem_of_client_own. simpl in Hd.
    apply lookup_snoc_Some in Hd as [[Hlt Hd]|[-> <-]]; [| simpl in Hsv; by rewrite lookup_empty in Hsv].
    apply elem_of_client_own. exists j, d, sv. split; [| done]. eexists. split; [done |].
    apply elem_of_union in Hj as [->%elem_of_singleton|Hj]; [lia | done].
  - apply Cl.with_client_Ret in Hx as (Hi & c & Hc & E). symmetry in E.
    apply go_bind_Ret_inv in E as ([rn c'] & E & [= <-]). apply go_bind_Ret_inv in E as ([[rn1 c1] e] & E & [= -> ->]).
    destruct (Cl.ends c !! sv0) as [e0|] eqn:Hsv0.
    + unfold Cl.makeEnd in E. rewrite Hsv0 in E. simplify_eq. eapply frame_weaken; [by apply own_frame_refl |].
      eapply (Hsame i c' _ c'); [done | done | done |]. simpl. reflexivity.
    + apply Cl.makeEnd_new in E as (Hfresh & -> & Hends & _ & _ & Hother); [| done]. split; simpl.
      * intros e' He' Hne. rewrite Hends. assert (e' ≠ name) by (by intros ->). split; [set_solver | by apply Hother].
      * intros e' He'. split; [by apply (Ho' e') |]. apply elem_of_client_own in He' as (j & d & sv & Hj & Hd & Hsv). simpl in Hd.
        apply list_lookup_insert_Some in Hd as [(<- & <- & _)|[_ Hd]].
        -- simpl in Hsv. apply lookup_insert_Some in Hsv as [[_ <-]|[_ Hsv]]; [by right |].
           left. apply elem_of_client_own. by exists i, c, sv.
        -- left. apply elem_of_client_own. by exists j, d, sv.
  - apply Cl.with_client_Ret in Hx as (Hi & c & Hc & [= ->]). eapply frame_weaken; [| by eapply (Hsame i c _ (Cl.mkClnt (Cl.ends c) None))]. simpl.
    apply enable_each_frame; [done |]. intros e. by eapply Hin.
  - apply Cl.with_client_Ret in Hx as (Hi & c & Hc & [= ->]). eapply frame_weaken; [| by eapply (Hsame i c _ (Cl.mkClnt (Cl.ends c) to))]. simpl.
    apply enable_each_frame; [done |]. intros e. eapply Hin; [done.. |]. intros x Hx. by apply list_elem_of_filter in Hx as [_ Hx].
  - apply Cl.with_client_Ret in Hx as (Hi & c & Hc & [= ->]). eapply frame_weaken; [| by eapply (Hsame i c _ c)]. simpl.
    apply enable_each_frame; [done |]. intros e. eapply Hin; [done.. |]. intros x Hx. by apply list_elem_of_filter in Hx as [_ Hx].
  - apply Cl.with_client_Ret in Hx as (Hi & c & Hc & [= ->]). eapply frame_weaken; [| by eapply (Hsame i c _ (Cl.mkClnt (Cl.ends c) (Some [])))]. simpl.
    apply enable_each_frame; [done |]. intros e. by eapply Hin.
  - case_decide as Hi; [| done]. injection Hx as Hx. unfold Cl.DeleteClient in Hx. destruct Hi as (L & HL & HiL).
    rewrite HL in Hx. simpl in Hx. rewrite decide_True in Hx by done. unwrap_go. simplify_eq/=.
    match goal with H : Cl.clnts cs !! i = Some ?c0 |- _ => rename H into Hc; rename c0 into c end.
    match goal with H : Cl.remove _ _ = Ret _ |- _ => rename H into Hr end.
    assert (Cl.live cs i) as Hi by (by exists L).
    eapply frame_weaken; [eapply (delete_each_frame (map_to_list (Cl.ends c))); [done | | exact Hr] |].
    { intros e. by eapply Hin. }
    intros e (j & d & sv & (L' & [= <-] & Hj) & Hd & Hsv)%elem_of_client_own. simpl in Hd.
    assert (Cl.live cs j) as Hj' by (exists L; set_solver). apply elem_of_difference. split.
    + apply elem_of_client_own. by exists j, d, sv.
    + intros He. apply elem_of_list_to_set, list_elem_of_fmap in He as ([sv' e'] & -> & He). apply elem_of_map_to_list in He.
      destruct (Cl.wf_inj _ (proj1 Hok) j i d c sv sv' _ Hj' Hi Hd Hc Hsv He) as [-> _]. set_solver.
Qed.

(** ** The configuration *)

Definition GRP0 : Z := 0.

(** [net] is the one network all components point to; [ptr] the next unused
    pointer; [grps] the table of [Groups]; [rpcs0] and [ops] the statistics of
    [Begin] and [Op]. *)
Record Config := mkConfig {
  net : Network;
  ptr : nat;
  grps : gmap Z Grp.ServerGrp;
  clnts : Cl.Clnts;
  rpcs0 : Z;
  ops : Z;
}.

(** A group or the clients with the shared network in place. *)
Definition load (cfg : Config) (sg : Grp.ServerGrp) : Grp.ServerGrp :=
  Grp.mkServerGrp (net cfg) (Grp.srvs sg) (Grp.servernames sg) (Grp.gid sg) (Grp.connected sg) (Grp.persisters sg)
    (ptr cfg) (Grp.killed sg).
Definition load_clnts (cfg : Config) : Cl.Clnts :=
  Cl.mkClnts (net cfg) (Cl.clnts (clnts cfg)) (Cl.clerks (clnts cfg)).

Definition store (cfg : Config) (gid : Z) (sg : Grp.ServerGrp) : Config :=
  mkConfig (Grp.net sg) (Grp.next_ptr sg) (<[gid := sg]> (grps cfg)) (clnts cfg) (rpcs0 cfg) (ops cfg).

Definition newGroups : gmap Z Grp.ServerGrp := ∅.

(** [Groups.delete] *)
Definition Groups_delete (cfg : Config) (gid : Z) : Config :=
  mkConfig (net cfg) (ptr cfg) (delete gid (grps cfg)) (clnts cfg) (rpcs0 cfg) (ops cfg).

(** [lookupGroup] gives nil for an unknown group. *)
Definition lookupGroup (cfg : Config) (gid : Z) : option Grp.ServerGrp := grps cfg !! gid.

Definition on_group (cfg : Config) (gid : Z) (f : Grp.ServerGrp → GoRes Grp.ServerGrp) : GoRes Config :=
  (let* sg := deref (lookupGroup cfg gid) "nil pointer dereference" in
   let* sg' := f (load cfg sg) in
   Ret (store cfg gid sg'))%go.

Definition set_net (cfg : Config) (rn : Network) : Config :=
  mkConfig rn (ptr cfg) (grps cfg) (clnts cfg) (rpcs0 cfg) (ops cfg).

Definition SetReliable (cfg : Config) (b : bool) : Config := set_net cfg (Reliable (net cfg) b).
Definition IsReliable (cfg : Config) : bool := Labrpc.IsReliable (net cfg).
Definition SetLongReordering (cfg : Config) (b : bool) : Config := set_net cfg (LongReordering (net cfg) b).
Definition SetLongDelays (cfg : Config) (b : bool) : Config := set_net cfg (LongDelays (net cfg) b).

(** [MakeGroup], with the names of the ends of each server. *)
Definition MakeGroup (cfg : Config) (gid : Z) (names : list (list string)) : GoRes Config :=
  (let* sg := Grp.makeSrvGrp (net cfg) gid names in
   Ret (mkConfig (Grp.net sg) (ptr cfg) (<[gid := sg]> (grps cfg)) (clnts cfg) (rpcs0 cfg) (ops cfg)))%go.

(** [start] from server [i] on: the names and services of each new instance. *)
Fixpoint start (sg : Grp.ServerGrp) (i : nat) (starts : list (list string * list nat)) : GoRes Grp.ServerGrp :=
  match starts with
  | [] => Ret sg
  | (names, svcs) :: starts' => (let* sg := Grp.StartServer sg i names svcs in start sg (S i) starts')%go
  end.

Definition StartServers (starts : list (list string * list nat)) (sg : Grp.ServerGrp) : GoRes Grp.ServerGrp :=
  (let* sg := start sg 0 starts in Grp.ConnectAll sg)%go.

Definition MakeGroupStart (cfg : Config) (gid : Z) (names : list (list string)) (starts : list (list string * list nat)) : GoRes Config :=
  (let* cfg := MakeGroup cfg gid names in on_group cfg gid (StartServers starts))%go.

Definition ExitGroup (cfg : Config) (gid : Z) : GoRes Config :=
  (let* cfg := on_group cfg gid Grp.Shutdown in
   Ret (Groups_delete cfg gid))%go.

Definition MakeConfig (reliable : bool) (names : list (list string)) (starts : list (list string * list nat)) : GoRes Config :=
  (let* cfg := MakeGroupStart (mkConfig MakeNetwork 0 newGroups (Cl.makeClnts MakeNetwork) 0 0) GRP0 names starts in
   Ret (mkConfig (Reliable (net cfg) reliable) (ptr cfg) (grps cfg) (Cl.makeClnts (net cfg)) (rpcs0 cfg) (ops cfg)))%go.

(** *** The rest of [ServerGrp] *)

Definition Services (sg : Grp.ServerGrp) : list (list nat) := Grp.svcs <$> Grp.srvs sg.
Definition SrvNames (sg : Grp.ServerGrp) : list string := Grp.servernames sg.
Definition GetConnected (sg : Grp.ServerGrp) : list bool := Grp.connected sg.
Definition RpcCount {W : Type} (sg : Grp.ServerGrp) (heap : gmap nat (@Labrpc.Server W)) (server : nat) : GoRes Z :=
  Network_GetCount (Grp.net sg) heap (Grp.ServerName (Grp.gid sg) server).

(** [ServerGrp.cleanup] kills the services of every server. *)
Definition group_cleanup (sg : Grp.ServerGrp) : Grp.ServerGrp :=
  Grp.mkServerGrp (Grp.net sg) (Grp.srvs sg) (Grp.servernames sg) (Grp.gid sg) (Grp.connected sg) (Grp.persisters sg)
    (Grp.next_ptr sg) (Grp.killed sg ++ concat (Services sg)).
Definition Groups_cleanup (cfg : Config) : Config :=
  mkConfig (net cfg) (ptr cfg) (group_cleanup <$> grps cfg) (clnts cfg) (rpcs0 cfg) (ops cfg).

(** *** The course of a test *)

Definition RpcTotal (cfg : Config) : Z := GetTotalCount (net cfg).
Definition BytesTotal (cfg : Config) : Z := GetTotalBytes (net cfg).

Definition Begin (cfg : Config) : Config := mkConfig (net cfg) (ptr cfg) (grps cfg) (clnts cfg) (RpcTotal cfg) 0.
Definition Op (cfg : Config) : Config :=
  mkConfig (net cfg) (ptr cfg) (grps cfg) (clnts cfg) (rpcs0 cfg) (int32 (ops cfg + 1)).

(** [failed] is [t.Failed()], [elapsed] the nanoseconds since [cfg.start]. *)
Definition CheckTimeout (failed : bool) (elapsed : Z) : GoRes () :=
  if negb failed && bool_decide (120 * 1000000000 < elapsed) then Abort "test took longer than 120 seconds" else Ret ().

(** [End]: the numbers of peers, of RPCs since [Begin] and of operations that
    are printed when the test has not failed. *)
Definition End_ (cfg : Config) (failed : bool) (elapsed : Z) : GoRes (option (nat * Z * Z)) :=
  (let* _ := CheckTimeout failed elapsed in
   if negb failed then
     let* sg := deref (lookupGroup cfg GRP0) "nil pointer dereference" in
     Ret (Some (Grp.N sg, int64 (RpcTotal cfg - rpcs0 cfg), ops cfg))
   else Ret None)%go.

(** [Cleanup]; the second component is the visualization written.  Closing
    the network makes pending calls return false. *)
Definition Cleanup (t1 t2 : Z) (enabled : string) (opened : bool) (order : list string) (failed : bool) (elapsed : Z)
    (cfg : Config) (g : Annotation.Global) : GoRes (Config * Annotation.Global * option (list Annotation.Annot)) :=
  (let* cs := Cl.cleanup (load_clnts cfg) in
   let cfg := Groups_cleanup (mkConfig (Cl.net cs) (ptr cfg) (grps cfg) cs (rpcs0 cfg) (ops cfg)) in
   let '(an, out) := Annotation.cleanup t1 t2 enabled opened order (Annotation.annotation g) failed
                       (if failed then "test failed" else "test passed") in
   let* _ := CheckTimeout failed elapsed in
   Ret (cfg, Annotation.mkGlobal an (Annotation.finfo g), out))%go.

(** [Fatalf]: what it prints before it fails the test, for the [frames] of the
    stack that [runtime.Callers] finds; it asks for 50 of them. *)
Definition maxStackLen : nat := 50.
Definition Contains (s sub : string) : bool := bool_decide (is_Some (String.index 0 sub s)).
Definition Fatalf (msg : string) (frames : list (string * Z)) : GoRes (list string) :=
  match take maxStackLen frames with
  | [] => Abort "testing: zero callers found"
  | fs => Ret (("Fatal: " +:+ msg) ::
               ((λ f, "        " +:+ f.1 +:+ ":" +:+ Itoa f.2) <$> filter (λ f, Contains f.1 "test.go" = true) fs))
  end.

(** [random_handles]: element [i] is swapped with element [j], the [i]th
    random number, [0 <= j <= i]. *)
Definition swap {A : Type} (l : list A) (i j : nat) : list A :=
  match l !! i, l !! j with
  | Some x, Some y => <[j := x]> (<[i := y]> l)
  | _, _ => l
  end.

Fixpoint random_handles {A : Type} (sa : list A) (i : nat) (js : list nat) : list A :=
  match js with
  | [] => sa
  | j :: js' => random_handles (swap sa i j) (S i) js'
  end.

Lemma swap_perm {A : Type} (l : list A) i j : swap l i j ≡ₚ l.
Proof.
  unfold swap. destruct (l !! i) as [x|] eqn:Hi; [| done]. destruct (l !! j) as [y|] eqn:Hj; [| done].
  by apply list_swap_perm.
Qed.

(** The handles are shuffled: each is returned exactly once. *)
Lemma random_handles_perm {A : Type} (js : list nat) : ∀ (sa : list A) i, random_handles sa i js ≡ₚ sa.
Proof. induction js as [|j js IH]; intros sa i; simpl; [done |]. by rewrite IH, swap_perm. Qed.

End TesterConfig.
