(* ===== verification/TesterSystem.v ===== *)
(** * A test as a whole: groups and clients on one network

    The operations a test makes on its configuration ([TesterConfig]), in any
    order, and what they guarantee: each component's ends stay in order
    whatever the others do, nobody changes what another component reaches,
    and a new configuration starts with all servers running and connected. *)

From S2P Require Import Prelude Labrpc TesterGroup TesterClnts Annotation TesterConfig.
#[local] Open Scope Z_scope.

Module TesterSystem.
Import Labrpc TesterConfig.

(** ** The operations *)

Inductive GOp : Type :=
| GConnectAll
| GConnectOne (i : nat)
| GDisconnectAll (i : nat)
| GPartition (p1 p2 : list nat)
| GShutdown
| GShutdownServer (i : nat)
| GStartServer (i : nat) (names : list string) (svcs : list nat)
| GStartServers (starts : list (list string * list nat)).

(** [None] when the number of random names is not the one the code draws. *)
Definition gexec (o : GOp) (sg : Grp.ServerGrp) : option (GoRes Grp.ServerGrp) :=
  match o with
  | GConnectAll => Some (Grp.ConnectAll sg)
  | GConnectOne i => Some (Grp.ConnectOne sg i)
  | GDisconnectAll i => Some (Grp.DisconnectAll sg i)
  | GPartition p1 p2 => Some (Grp.Partition sg p1 p2)
  | GShutdown => Some (Grp.Shutdown sg)
  | GShutdownServer i => Some (Grp.ShutdownServer sg i)
  | GStartServer i names svcs =>
      if decide (length names = Grp.N sg) then Some (Grp.StartServer sg i names svcs) else None
  | GStartServers starts =>
      if decide (length starts = Grp.N sg ∧ Forall (λ p, length p.1 = Grp.N sg) starts)
      then Some (StartServers starts sg) else None
  end.

Inductive TOp : Type :=
| OpGroup (gid : Z) (o : GOp)
| OpMakeGroupStart (gid : Z) (names : list (list string)) (starts : list (list string * list nat))
| OpExitGroup (gid : Z)
| OpClient (o : Cl.Op)
| OpSetReliable (b : bool)
| OpSetLongReordering (b : bool)
| OpSetLongDelays (b : bool)
| OpBegin
| OpOp.

(** The names for a group of [length names] servers. *)
Definition square (names : list (list string)) (starts : list (list string * list nat)) : Prop :=
  Forall (λ ns, length ns = length names) names ∧ length starts = length names ∧
  Forall (λ p, length p.1 = length names) starts.
#[export] Instance square_dec names starts : Decision (square names starts).
Proof. unfold square. apply _. Defined.

Definition on_clients (cfg : Config) (o : Cl.Op) : option (GoRes Config) :=
  r ← Cl.exec o (load_clnts cfg);
  Some (let* cs := r in Ret (mkConfig (Cl.net cs) (ptr cfg) (grps cfg) cs (rpcs0 cfg) (ops cfg)))%go.

Definition exec (o : TOp) (cfg : Config) : option (GoRes Config) :=
  match o with
  | OpGroup gid o =>
      match lookupGroup cfg gid with
      | None => Some (Abort "nil pointer dereference")
      | Some sg => r ← gexec o (load cfg sg); Some (let* sg' := r in Ret (store cfg gid sg'))%go
      end
  | OpMakeGroupStart gid names starts =>
      if decide (square names starts) then Some (MakeGroupStart cfg gid names starts) else None
  | OpExitGroup gid => Some (ExitGroup cfg gid)
  | OpClient o => on_clients cfg o
  | OpSetReliable b => Some (Ret (SetReliable cfg b))
  | OpSetLongReordering b => Some (Ret (SetLongReordering cfg b))
  | OpSetLongDelays b => Some (Ret (SetLongDelays cfg b))
  | OpBegin => Some (Ret (Begin cfg))
  | OpOp => Some (Ret (Op cfg))
  end.

Fixpoint run (os : list TOp) (cfg : Config) : option (GoRes Config) :=
  match os with
  | [] => Some (Ret cfg)
  | o :: os => match exec o cfg with Some (Ret cfg) => run os cfg | r => r end
  end.

(** ** The invariant *)

(** Every group and the clients are in order on the shared network, and no
    end belongs to two of them. *)
Record cok (cfg : Config) : Prop := {
  cok_groups : ∀ gid sg, grps cfg !! gid = Some sg → gok (Grp.N sg) (load cfg sg) ∧ Grp.gid sg = gid;
  cok_clients : Cl.ok (load_clnts cfg);
  cok_apart : ∀ gid gid' sg sg', gid ≠ gid' → grps cfg !! gid = Some sg → grps cfg !! gid' = Some sg' → own sg ## own sg';
  cok_clients_apart : ∀ gid sg, grps cfg !! gid = Some sg → own sg ## client_own (load_clnts cfg);
}.

(** What belongs to a group does not notice another component's step. *)
Lemma group_framed n (sg sg' : Grp.ServerGrp) o o' :
  gok n sg → Grp.srvs sg' = Grp.srvs sg → Grp.connected sg' = Grp.connected sg → Grp.gid sg' = Grp.gid sg →
  frame (Grp.net sg) (Grp.net sg') o o' → own sg ## o →
  gok n sg' ∧ own sg ## o' ∧ ∀ i j, Grp.link sg' i j = Grp.link sg i j.
Proof.
  intros [[W1 W2 W3 W4] Ho Hr] Hs Hc Hg [Hf Hf'] Hd.
  assert (∀ i j, Grp.end_of sg' i j = Grp.end_of sg i j) as He by (intros; unfold Grp.end_of; by rewrite Hs).
  assert (own sg' = own sg) as Hown by (unfold own; by rewrite Hs).
  assert (∀ e, e ∈ own sg → e ∈ ends (Grp.net sg') ∧ is_enabled (Grp.net sg') e = is_enabled (Grp.net sg) e ∧
            connected_to (Grp.net sg') e = connected_to (Grp.net sg) e) as Hsame.
  { intros e Heo. apply Hf; [by apply Ho | set_solver]. }
  split; [split; [split |..] | split].
  - by rewrite Hs.
  - by rewrite Hc.
  - rewrite Hs. exact W3.
  - intros i j i' j' e. rewrite !He. apply W4.
  - rewrite Hown. intros e Heo. by apply Hsame.
  - intros i j e. rewrite He, Hg. intros H. rewrite <- (Hr _ _ _ H). apply Hsame. by eapply end_of_own.
  - intros e Heo Heo'. destruct (Hf' e Heo') as [_ [?|Hn]]; [set_solver |]. by apply Hn, Ho.
  - intros i j. unfold Grp.link. rewrite He. destruct (Grp.end_of sg i j) as [e|] eqn:E; [| done].
    apply Hsame. by eapply end_of_own.
Qed.

Lemma clients_framed (cs cs' : Cl.Clnts) o o' :
  Cl.ok cs → Cl.clnts cs' = Cl.clnts cs → Cl.clerks cs' = Cl.clerks cs →
  frame (Cl.net cs) (Cl.net cs') o o' → client_own cs ## o →
  Cl.ok cs' ∧ client_own cs ## o' ∧ ∀ i sv, Cl.live cs i → Cl.reach cs' i sv = Cl.reach cs i sv.
Proof.
  intros ([W1 W2 W3] & Hsome & Hlt) Hc Hk [Hf Hf'] Hd.
  assert (∀ i, Cl.live cs' i ↔ Cl.live cs i) as Hl by (intros i; unfold Cl.live; by rewrite Hk).
  assert (∀ i c sv e, Cl.live cs i → Cl.clnts cs !! i = Some c → Cl.ends c !! sv = Some e →
    e ∈ ends (Cl.net cs') ∧ is_enabled (Cl.net cs') e = is_enabled (Cl.net cs) e ∧
    connected_to (Cl.net cs') e = connected_to (Cl.net cs) e) as Hsame.
  { intros i c sv e Hi Hi' He. apply Hf; [by eapply W2 |]. intros Heo. apply (Hd e); [| done].
    apply elem_of_client_own. by exists i, c, sv. }
  split; [split; [split | split] | split].
  - intros i. rewrite Hl, Hc. apply W1.
  - intros i c sv e. rewrite Hl, Hc. intros Hi Hi' He. destruct (Hsame i c sv e Hi Hi' He) as (? & _ & ->).
    split; [done |]. by eapply W2.
  - intros i j c d sv sv' e. rewrite !Hl, !Hc. apply W3.
  - by rewrite Hk.
  - intros i. rewrite Hl, Hc. apply Hlt.
  - intros e Heo Heo'. destruct (Hf' e Heo') as [_ [Ho|Hn]]; [by apply (Hd e) |].
    apply elem_of_client_own in Heo as (i & c & sv & Hi & Hi' & He). by apply Hn, (W2 i c sv e).
  - intros i sv Hi. unfold Cl.reach. rewrite Hc. destruct (Cl.clnts cs !! i) as [c|] eqn:Hi'; [| done].
    destruct (Cl.ends c !! sv) as [e|] eqn:He; [| done]. by apply (Hsame i c sv e).
Qed.

(** What the groups other than those of [G], and the clients, see of a step. *)
Record apart (G : Z → Prop) (cfg cfg' : Config) : Prop := {
  ap_group : ∀ gid sg, ¬ G gid → grps cfg !! gid = Some sg →
    grps cfg' !! gid = Some sg ∧ ∀ i j, Grp.link (load cfg' sg) i j = Grp.link (load cfg sg) i j;
  ap_clients : Cl.clnts (clnts cfg') = Cl.clnts (clnts cfg) ∧ Cl.clerks (clnts cfg') = Cl.clerks (clnts cfg) ∧
    ∀ i sv, Cl.live (load_clnts cfg) i → Cl.reach (load_clnts cfg') i sv = Cl.reach (load_clnts cfg) i sv;
  ap_servers : ∀ sn, (∀ g i, G g → sn ≠ Grp.ServerName g i) → server_at (net cfg') sn = server_at (net cfg) sn;
}.

Lemma apart_trans G cfg1 cfg2 cfg3 : apart G cfg1 cfg2 → apart G cfg2 cfg3 → apart G cfg1 cfg3.
Proof.
  intros [A1 (B1 & C1 & D1) S1] [A2 (B2 & C2 & D2) S2]. split; [| | intros sn Hsn; by rewrite S2, S1].
  - intros gid sg Hg H. destruct (A1 gid sg Hg H) as [H1 L1]. destruct (A2 gid sg Hg H1) as [H2 L2].
    split; [done |]. intros i j. by rewrite L2, L1.
  - split; [congruence |]. split; [congruence |]. intros i sv Hi. rewrite D2, D1; [done | done |].
    destruct Hi as (L & HL & Hi). exists L. simpl in *. by rewrite C1.
Qed.

(** Putting a group in the table after it has taken the network from [net cfg]
    to its own, [o] being the ends it had. *)
Lemma store_ok n cfg gid sg' k o :
  cok cfg → gok n sg' → Grp.gid sg' = gid → frame (net cfg) (Grp.net sg') o (own sg') → srv_frame gid (net cfg) (Grp.net sg') →
  (∀ gid' sg, gid' ≠ gid → grps cfg !! gid' = Some sg → own sg ## o) → client_own (load_clnts cfg) ## o →
  let cfg' := mkConfig (Grp.net sg') k (<[gid := sg']> (grps cfg)) (clnts cfg) (rpcs0 cfg) (ops cfg) in
  cok cfg' ∧ apart (λ g, g = gid) cfg cfg'.
Proof.
  intros [C1 C2 C3 C4] Hok Hg F S Hd Hdc cfg'.
  destruct (clients_framed (load_clnts cfg) (load_clnts cfg') o (own sg') C2 eq_refl eq_refl F Hdc) as (Hcl & Hdc' & Hre).
  assert (∀ gid' sg, gid' ≠ gid → grps cfg !! gid' = Some sg →
    gok (Grp.N sg) (load cfg' sg) ∧ own sg ## own sg' ∧ ∀ i j, Grp.link (load cfg' sg) i j = Grp.link (load cfg sg) i j) as Hother.
  { intros gid' sg Hne Hsg. apply (group_framed _ (load cfg sg) (load cfg' sg) o (own sg')); try done.
    - by apply (C1 gid').
    - exact (Hd gid' sg Hne Hsg). }
  split; [split |].
  - intros gid' sg. unfold cfg' at 1. simpl. intros [[<- <-]|[Hne Hsg]]%lookup_insert_Some.
    + split; [| done]. destruct Hok as [Hwf Ho Hr]. replace (Grp.N sg') with n by (by destruct Hwf).
      split; [by destruct Hwf | done | done].
    + split; [by apply (Hother gid') |]. by apply (C1 gid').
  - done.
  - unfold cfg'. simpl. intros g1 g2 s1 s2 Hne [[<- <-]|[Hn1 H1]]%lookup_insert_Some [[<- <-]|[Hn2 H2]]%lookup_insert_Some.
    + done.
    + symmetry. by apply (Hother _ _ ltac:(done) ltac:(eassumption)).
    + by apply (Hother _ _ ltac:(done) ltac:(eassumption)).
    + exact (C3 g1 g2 s1 s2 Hne H1 H2).
  - unfold cfg'. simpl. intros g s [[<- <-]|[Hn H]]%lookup_insert_Some; [by symmetry | exact (C4 g s H)].
  - split; [| done | intros sn Hsn; apply S; by intros i; apply Hsn].
    intros g sg Hne Hsg. split; [by apply lookup_insert_Some; right |]. by apply (Hother g).
Qed.

Lemma on_group_ok cfg gid f cfg' :
  (∀ sg sg', f sg = Ret sg' → grel (Grp.N sg) sg sg') →
  cok cfg → on_group cfg gid f = Ret cfg' → cok cfg' ∧ apart (λ g, g = gid) cfg cfg'.
Proof.
  intros Hf Hc H. unfold on_group in H. unwrap_go. simplify_eq/=.
  match goal with H : lookupGroup cfg gid = Some ?s, H' : f _ = Ret ?s' |- _ =>
    rename H into Hl; rename s into sg; destruct (cok_groups _ Hc gid sg Hl) as [Hok Hg];
    destruct (Hf _ _ H' Hok) as (Hok' & Hg' & F & S); rename s' into sg' end.
  apply (store_ok (Grp.N sg) cfg gid sg' _ (own sg) Hc Hok').
  - by rewrite Hg'.
  - exact F.
  - simpl in S. by rewrite Hg in S.
  - intros g s Hne Hs. by eapply (cok_apart _ Hc g gid).
  - symmetry. by eapply (cok_clients_apart _ Hc gid).
Qed.

Lemma start_grel n starts : Forall (λ p, length p.1 = n) starts →
  ∀ sg i sg', start sg i starts = Ret sg' → grel n sg sg'.
Proof.
  induction 1 as [|[names svcs] starts Hl Hs IH]; intros sg i sg' H; simpl in H; [by simplify_eq |].
  unwrap_go. etrans; [by eapply StartServer_grel | by eapply IH].
Qed.

Lemma StartServers_grel n starts sg sg' :
  Forall (λ p, length p.1 = n) starts → StartServers starts sg = Ret sg' → grel n sg sg'.
Proof. intros Hs H. unfold StartServers in H. unwrap_go. etrans; [by eapply start_grel | by eapply ConnectAll_grel]. Qed.

Lemma Shutdown_grel n sg sg' : Grp.Shutdown sg = Ret sg' → grel n sg sg'.
Proof. apply each_grel. intros ? ? ?. apply shutdown_grel. Qed.

Lemma gexec_grel o sg sg' : gexec o sg = Some (Ret sg') → grel (Grp.N sg) sg sg'.
Proof.
  destruct o; simpl; try case_decide as Hd; try done; intros [= H].
  - by apply ConnectAll_grel.
  - by eapply connect_grel.
  - by eapply disconnect_grel.
  - by eapply Partition_grel.
  - by apply Shutdown_grel.
  - by eapply shutdown_grel.
  - by eapply StartServer_grel.
  - destruct Hd. by eapply StartServers_grel.
Qed.

Lemma MakeGroup_ok cfg gid names cfg' :
  Forall (λ ns, length ns = length names) names → cok cfg → MakeGroup cfg gid names = Ret cfg' →
  cok cfg' ∧ apart (λ g, g = gid) cfg cfg' ∧ ∃ sg, grps cfg' !! gid = Some sg ∧ Grp.N sg = length names.
Proof.
  intros Hl Hc H. unfold MakeGroup in H. apply go_bind_Ret_inv in H as (sg & Hm & H). injection H as <-.
  destruct (makeSrvGrp_ok _ _ _ _ Hl Hm) as (Hok & Hg & F & S).
  assert (srv_frame gid (net cfg) (Grp.net sg)) as S' by (intros sn _; unfold server_at; by rewrite S).
  destruct (store_ok (length names) cfg gid sg (ptr cfg) ∅ Hc Hok Hg F S') as [Hc' Ha]; [set_solver | set_solver |].
  split; [done |]. split; [done |]. exists sg. simpl. rewrite lookup_insert_eq. split; [done |]. by destruct Hok as [[]].
Qed.

(** [on_group] on a group whose number of servers is known. *)
Lemma on_group_sized n cfg gid sg f cfg' :
  grps cfg !! gid = Some sg → Grp.N sg = n → (∀ sg sg', f sg = Ret sg' → grel n sg sg') →
  cok cfg → on_group cfg gid f = Ret cfg' → cok cfg' ∧ apart (λ g, g = gid) cfg cfg'.
Proof.
  intros Hsg Hn Hf Hc H.
  apply (on_group_ok cfg gid (λ s, if decide (Grp.N s = n) then f s else Abort "")); [| done |].
  - intros s s'. case_decide as Hd; [| done]. rewrite Hd. apply Hf.
  - unfold on_group in *. unfold lookupGroup in *. rewrite Hsg in *. simpl in *. by rewrite decide_True.
Qed.

Lemma MakeGroupStart_ok cfg gid names starts cfg' :
  square names starts → cok cfg → MakeGroupStart cfg gid names starts = Ret cfg' →
  cok cfg' ∧ apart (λ g, g = gid) cfg cfg'.
Proof.
  intros (Hl & _ & Hs) Hc H. unfold MakeGroupStart in H. apply go_bind_Ret_inv in H as (cfg1 & H1 & H2).
  destruct (MakeGroup_ok _ _ _ _ Hl Hc H1) as (Hc1 & A1 & sg & Hsg & Hn).
  destruct (on_group_sized (length names) cfg1 gid sg (StartServers starts) cfg' Hsg Hn) as [Hc2 A2]; auto.
  - intros s s'. by apply StartServers_grel.
  - split; [done |]. by eapply apart_trans.
Qed.

Lemma delete_group_ok cfg gid :
  cok cfg →
  let cfg' := mkConfig (net cfg) (ptr cfg) (delete gid (grps cfg)) (clnts cfg) (rpcs0 cfg) (ops cfg) in
  cok cfg' ∧ apart (λ g, g = gid) cfg cfg'.
Proof.
  intros [C1 C2 C3 C4] cfg'. split; [split |]; unfold cfg'; simpl.
  - intros g s [_ H]%lookup_delete_Some. by apply C1.
  - done.
  - intros g1 g2 s1 s2 Hne [_ H1]%lookup_delete_Some [_ H2]%lookup_delete_Some. by eapply C3.
  - intros g s [_ H]%lookup_delete_Some. by eapply C4.
  - split; [| done | done]. intros g s Hne Hs. split; [| done]. simpl. by rewrite lookup_delete_ne.
Qed.

(** ** Every operation *)

(** The groups an operation is about, and whether it is about clients. *)
Definition about_group (o : TOp) (gid : Z) : Prop :=
  match o with OpGroup g _ | OpMakeGroupStart g _ _ | OpExitGroup g => gid = g | _ => False end.
Definition about_clients (o : TOp) : bool := match o with OpClient _ => true | _ => false end.

(** Operations that change no table of ends. *)
Lemma quiet_cok cfg rn r o' :
  cok cfg → ends rn = ends (net cfg) → enabled rn = enabled (net cfg) → connections rn = connections (net cfg) →
  servers rn = servers (net cfg) →
  let cfg' := mkConfig rn (ptr cfg) (grps cfg) (clnts cfg) r o' in cok cfg' ∧ apart (λ _, False) cfg cfg'.
Proof.
  intros [C1 C2 C3 C4] He Hen Hco Hsv cfg'.
  assert (frame (net cfg) rn ∅ ∅) as F.
  { split; [| set_solver]. intros e Hin _. unfold is_enabled, connected_to. by rewrite He, Hen, Hco. }
  destruct (clients_framed (load_clnts cfg) (load_clnts cfg') ∅ ∅ C2 eq_refl eq_refl F) as (Hcl & _ & Hre); [set_solver |].
  assert (∀ g s, grps cfg !! g = Some s → gok (Grp.N s) (load cfg' s) ∧
    ∀ i j, Grp.link (load cfg' s) i j = Grp.link (load cfg s) i j) as Hgr.
  { intros g s Hs. destruct (group_framed (Grp.N s) (load cfg s) (load cfg' s) ∅ ∅) as (? & _ & ?); try done.
    by apply (C1 g). }
  split; [split |].
  - intros g s Hs. split; [by apply (Hgr g) | by apply (C1 g)].
  - done.
  - done.
  - done.
  - split; [| done | intros sn _; unfold server_at; simpl; by rewrite Hsv].
    intros g s _ Hs. split; [done |]. by apply (Hgr g).
Qed.

Lemma clients_ok cfg o cfg' :
  cok cfg → on_clients cfg o = Some (Ret cfg') →
  cok cfg' ∧ servers (net cfg') = servers (net cfg) ∧ ∀ gid sg, grps cfg !! gid = Some sg → grps cfg' !! gid = Some sg ∧
    ∀ i j, Grp.link (load cfg' sg) i j = Grp.link (load cfg sg) i j.
Proof.
  intros [C1 C2 C3 C4] H. unfold on_clients in H. apply bind_Some in H as (r & Hx & H). destruct r as [cs|]; [| done].
  injection H as <-. destruct (client_frame _ _ _ C2 Hx) as [Hok F]. simpl in F.
  set (cfg' := mkConfig _ _ _ _ _ _).
  assert (load_clnts cfg' = cs) as Hcs by (by destruct cs).
  assert (∀ g s, grps cfg !! g = Some s → gok (Grp.N s) (load cfg' s) ∧ own s ## client_own cs ∧
    ∀ i j, Grp.link (load cfg' s) i j = Grp.link (load cfg s) i j) as Hgr.
  { intros g s Hs. apply (group_framed (Grp.N s) (load cfg s) (load cfg' s) (client_own (load_clnts cfg))); try done.
    - by apply (C1 g).
    - exact (C4 g s Hs). }
  split; [split | split; [exact (client_servers _ _ _ Hx) |]]; simpl; rewrite ?Hcs.
  - intros g s Hs. split; [by apply (Hgr g) | by apply (C1 g)].
  - done.
  - done.
  - intros g s Hs. by apply (Hgr g).
  - intros g s Hs. split; [done |]. by apply (Hgr g).
Qed.

(** What [o] leaves alone: the links of other groups, what clients reach
    unless it is a client's operation, and the servers of other groups. *)
Definition unaffected (o : TOp) (cfg cfg' : Config) : Prop :=
  (∀ gid sg, ¬ about_group o gid → lookupGroup cfg gid = Some sg → lookupGroup cfg' gid = Some sg ∧
     ∀ i j, Grp.link (load cfg' sg) i j = Grp.link (load cfg sg) i j) ∧
  (about_clients o = false → ∀ i sv, Cl.live (load_clnts cfg) i → Cl.live (load_clnts cfg') i ∧
     Cl.reach (load_clnts cfg') i sv = Cl.reach (load_clnts cfg) i sv) ∧
  (∀ sn, (∀ g i, about_group o g → sn ≠ Grp.ServerName g i) → server_at (net cfg') sn = server_at (net cfg) sn).

Lemma apart_unaffected G o cfg cfg' : (∀ g, G g → about_group o g) → apart G cfg cfg' → unaffected o cfg cfg'.
Proof.
  intros HG [A (B & C & D) S]. split; [| split].
  - intros g s Hg. apply A. naive_solver.
  - intros _ i sv Hi. split; [| by apply D]. destruct Hi as (L & HL & Hi). exists L. simpl in *. by rewrite C.
  - intros sn Hsn. apply S. intros g i Hg. by apply Hsn, HG.
Qed.

Lemma exec_ok o cfg cfg' : cok cfg → exec o cfg = Some (Ret cfg') → cok cfg' ∧ unaffected o cfg cfg'.
Proof.
  intros Hc Hx.
  assert (∀ gid, (∀ g, g = gid → about_group o g) → cok cfg' ∧ apart (λ g, g = gid) cfg cfg' → cok cfg' ∧ unaffected o cfg cfg') as Hgrp.
  { intros gid HG [Hc' Ha]. split; [done | by apply (apart_unaffected (λ g, g = gid))]. }
  assert (∀ rn r n, cfg' = mkConfig rn (ptr cfg) (grps cfg) (clnts cfg) r n → ends rn = ends (net cfg) → enabled rn = enabled (net cfg) →
    connections rn = connections (net cfg) → servers rn = servers (net cfg) → cok cfg' ∧ unaffected o cfg cfg') as Hquiet.
  { intros rn r n -> H1 H2 H3 H4. destruct (quiet_cok cfg rn r n Hc H1 H2 H3 H4) as [Hc' Ha].
    split; [done |]. by apply (apart_unaffected (λ _, False)). }
  destruct o as [gid o|gid names starts|gid|o|b|b|b| |]; simpl in Hx.
  - apply (Hgrp gid); [done |]. destruct (lookupGroup cfg gid) as [sg|] eqn:E; [| done].
    apply bind_Some in Hx as (r & Hr & Hx). destruct r as [sg'|]; [| done]. injection Hx as <-.
    apply (on_group_ok cfg gid (λ s, default (Abort "") (gexec o s)));
      [| done | unfold on_group; rewrite E; simpl; by rewrite Hr].
    intros s s' Hs. apply (gexec_grel o). destruct (gexec o s); simpl in Hs; [by rewrite Hs | done].
  - case_decide as Hd; [| done]. injection Hx as Hx. apply (Hgrp gid); [done | by eapply MakeGroupStart_ok].
  - injection Hx as Hx. apply (Hgrp gid); [done |]. unfold ExitGroup in Hx.
    apply go_bind_Ret_inv in Hx as (cfg1 & H1 & [= <-]).
    destruct (on_group_ok cfg gid Grp.Shutdown cfg1) as [Hc1 A1]; [intros ? ?; apply Shutdown_grel | done | done |].
    destruct (delete_group_ok cfg1 gid Hc1) as [Hc2 A2]. split; [done |]. by eapply apart_trans.
  - destruct (clients_ok _ _ _ Hc Hx) as (Hc' & Hs & Hg). split; [done |]. split; [intros g s _; apply Hg |].
    split; [done |]. intros sn _. unfold server_at. by rewrite Hs.
  - injection Hx as <-. by eapply Hquiet.
  - injection Hx as <-. by eapply Hquiet.
  - injection Hx as <-. by eapply Hquiet.
  - injection Hx as <-. by eapply Hquiet.
  - injection Hx as <-. by eapply Hquiet.
Qed.

Lemma run_cok os : ∀ cfg cfg', cok cfg → run os cfg = Some (Ret cfg') → cok cfg'.
Proof.
  induction os as [|o os IH]; intros cfg cfg' Hc H; simpl in H; [by simplify_eq |].
  destruct (exec o cfg) as [[cfg1|]|] eqn:E; [| done..]. apply (IH cfg1); [by eapply exec_ok | done].
Qed.

Definition empty_config : Config := mkConfig MakeNetwork 0 newGroups (Cl.makeClnts MakeNetwork) 0 0.

Lemma empty_config_ok : cok empty_config.
Proof. split; [done | exact (Cl.ok_init _) | done | done]. Qed.

Lemma client_own_init rn : client_own (Cl.makeClnts rn) = ∅.
Proof. apply set_eq. intros e. rewrite elem_of_client_own. split; [| set_solver]. intros (i & c & sv & _ & Hc & _). done. Qed.

Lemma MakeConfig_ok reliable names starts cfg :
  square names starts → MakeConfig reliable names starts = Ret cfg → cok cfg.
Proof.
  intros Hs H. unfold MakeConfig in H. apply go_bind_Ret_inv in H as (cfg1 & H1 & H2).
  destruct (MakeGroupStart_ok _ _ _ _ _ Hs empty_config_ok H1) as [Hc1 _].
  destruct (quiet_cok cfg1 (Reliable (net cfg1) reliable) (rpcs0 cfg1) (ops cfg1) Hc1) as [Hc2 _]; [done.. |].
  injection H2 as <-. destruct Hc2 as [A B C D]. split; [done | apply Cl.ok_init | done |].
  intros g s Hg. change (own s ## client_own (Cl.makeClnts (Reliable (net cfg1) reliable))). rewrite client_own_init. set_solver.
Qed.

(** ** Starting up *)

Lemma make_ends_returns gid names : ∀ rn j, NoDup names → (∀ e, e ∈ names → e ∉ ends rn) →
  ∃ rn', Grp.make_ends rn gid j names = Ret rn' ∧ ends rn' = list_to_set names ∪ ends rn.
Proof.
  induction names as [|e names IH]; intros rn j Hnd Hf; simpl; [exists rn; split; [done | set_solver] |].
  apply NoDup_cons in Hnd as [He Hnd]. unfold MakeEnd. rewrite decide_False by (apply Hf; by left). simpl.
  destruct (IH (Connect (set_tables rn ({[e]} ∪ ends rn) (<[e := false]> (enabled rn)) (servers rn) (<[e := None]> (connections rn)))
                 e (Grp.ServerName gid j)) (S j) Hnd) as (rn' & -> & He').
  { intros e' Hin. simpl. assert (e' ≠ e) by (by intros ->). specialize (Hf e' ltac:(by right)). set_solver. }
  exists rn'. split; [done |]. rewrite He'. simpl. set_solver.
Qed.

Lemma make_srvs_returns gid names : ∀ rn, NoDup (concat names) → (∀ e, e ∈ concat names → e ∉ ends rn) →
  ∃ rn' ss, Grp.make_srvs rn gid names = Ret (rn', ss) ∧ ends rn' = list_to_set (concat names) ∪ ends rn ∧
    Forall (λ s, Grp.saved s = None) ss.
Proof.
  induction names as [|ns names IH]; intros rn Hnd Hf; simpl in *.
  { exists rn, []. split; [done |]. split; [set_solver | constructor]. }
  apply NoDup_app in Hnd as (Hnd1 & Hd & Hnd2). unfold Grp.makeServer.
  destruct (make_ends_returns gid ns rn 0 Hnd1) as (rn1 & -> & H1); [intros e He; apply Hf; set_solver |]. simpl.
  destruct (IH rn1 Hnd2) as (rn2 & ss & -> & H2 & H3).
  { intros e He. rewrite H1. specialize (Hf e ltac:(set_solver)). specialize (Hd e). set_solver. }
  simpl. eexists _, _. split; [done |]. split; [| by constructor]. rewrite H2, H1. rewrite list_to_set_app_L. set_solver.
Qed.

(** Starting the servers from [i] on, none of which has run before. *)
Lemma start_returns n starts : ∀ sg i,
  gok n sg → Grp.heap_ok sg → (i + length starts = n)%nat → Forall (λ p, length p.1 = n) starts →
  (∀ j s, (i ≤ j)%nat → Grp.srvs sg !! j = Some s → Grp.saved s = None) →
  NoDup (concat starts.*1) → (∀ e, e ∈ concat starts.*1 → e ∉ ends (Grp.net sg)) →
  (∀ j, (j < i)%nat → is_Some (server_at (Grp.net sg) (Grp.ServerName (Grp.gid sg) j))) →
  ∃ sg', start sg i starts = Ret sg' ∧ gok n sg' ∧ Grp.gid sg' = Grp.gid sg ∧
    (∀ j, (j < n)%nat → is_Some (server_at (Grp.net sg') (Grp.ServerName (Grp.gid sg) j))) ∧
    Grp.heap_ok sg' ∧ (Grp.next_ptr sg ≤ Grp.next_ptr sg')%nat ∧ Grp.servernames sg' = Grp.servernames sg ∧
    ends (Grp.net sg') = list_to_set (concat starts.*1) ∪ ends (Grp.net sg).
Proof.
  induction starts as [|[names svcs] starts IH]; intros sg i Hok Hh Hi Hl Hsv Hnd Hf Hat; simpl in *.
  { exists sg. split_and!; [done | done | done | | done | done | done | set_solver]. intros j Hj. apply Hat. lia. }
  apply Forall_cons in Hl as [Hn Hl]. simpl in Hn. apply NoDup_app in Hnd as (Hnd1 & Hd & Hnd2).
  destruct (lookup_lt_is_Some_2 (Grp.srvs sg) i) as [s Hs]; [rewrite (Grp.wf_srvs _ _ (gok_wf _ _ Hok)); lia |].
  destruct (make_ends_returns (Grp.gid sg) names (Grp.net sg) 0 Hnd1) as (rn & Hm & He); [intros e Hin; apply Hf; set_solver |].
  assert (∃ sg1, Grp.StartServer sg i names svcs = Ret sg1) as [sg1 H1].
  { unfold Grp.StartServer, Grp.makeServer. rewrite Hs. simpl. rewrite Hm. simpl. rewrite (Hsv i s) by (done || lia). by eexists. }
  destruct (StartServer_grel n sg i names svcs sg1 Hn H1 Hok) as (Hok1 & Hg1 & _).
  pose proof (Grp.StartServer_heap _ _ _ _ _ Hh H1) as Hh1. rewrite H1. simpl.
  unfold Grp.StartServer, Grp.makeServer in H1. rewrite Hs in H1. simpl in H1. rewrite Hm in H1. simpl in H1.
  rewrite (Hsv i s) in H1 by (done || lia). simpl in H1. injection H1 as <-. simpl in *.
  match goal with |- ∃ _, start ?g _ _ = _ ∧ _ =>
    destruct (IH g (S i) Hok1 Hh1) as (sg2 & E & Hok2 & Hg2 & Hat2 & Hh2 & Hp2 & Hs2 & He2) end; simpl in *.
  - lia.
  - done.
  - intros j s' Hj. rewrite list_lookup_insert_ne by lia. apply Hsv. lia.
  - done.
  - intros e Hin. rewrite He. specialize (Hf e ltac:(set_solver)). specialize (Hd e). set_solver.
  - intros j Hj. unfold server_at. simpl. destruct (decide (j = i)) as [->|Hne]; [rewrite lookup_insert_eq; by eexists |].
    rewrite lookup_insert_ne by (intros [_ ?]%Grp.ServerName_inj; congruence).
    rewrite (make_ends_servers _ _ _ _ _ Hm). apply Hat. lia.
  - exists sg2. split_and!; try done; [lia |]. rewrite He2, He, list_to_set_app_L. set_solver.
Qed.

(** What [connect] and [disconnect] leave alone. *)
Definition calm (sg sg' : Grp.ServerGrp) : Prop :=
  servers (Grp.net sg') = servers (Grp.net sg) ∧ ends (Grp.net sg') = ends (Grp.net sg) ∧ Grp.srvs sg' = Grp.srvs sg ∧
  Grp.persisters sg' = Grp.persisters sg ∧ Grp.next_ptr sg' = Grp.next_ptr sg ∧ Grp.servernames sg' = Grp.servernames sg.

#[export] Instance calm_preorder : PreOrder calm.
Proof. split; [by intros ? |]. intros a b c (?&?&?&?&?&?) (?&?&?&?&?&?). unfold calm. split_and!; congruence. Qed.

Lemma calm_heap sg sg' : calm sg sg' → Grp.heap_ok sg → Grp.heap_ok sg'.
Proof. intros (_ & _ & E1 & E2 & E3 & _) [H1 H2]. split; rewrite ?E1, ?E2, ?E3; done. Qed.

Lemma enable_end_calm sg i j b sg' : Grp.enable_end sg i j b = Ret sg' → calm sg sg'.
Proof. unfold Grp.enable_end. intros H. unwrap_go. by simplify_eq/=. Qed.

Lemma connect_calm sg i to sg' : Grp.connect sg i to = Ret sg' → calm sg sg'.
Proof.
  assert (∀ sg sg', Grp.connect_out sg i to = Ret sg' → calm sg sg') as Ho.
  { clear. induction to as [|j to IH]; intros sg sg' H; simpl in H; [by simplify_eq |]. unwrap_go.
    destruct x; simplify_eq; [| by apply IH]. etrans; [by eapply enable_end_calm | by apply IH]. }
  assert (∀ sg sg', Grp.connect_in sg i to = Ret sg' → calm sg sg') as Hin.
  { clear. induction to as [|j to IH]; intros sg sg' H; simpl in H; [by simplify_eq |]. unwrap_go.
    destruct x; simplify_eq; [| by apply IH]. etrans; [by eapply enable_end_calm | by apply IH]. }
  intros H. unfold Grp.connect in H. unwrap_go. etrans; [| by apply Hin]. etrans; [| by apply Ho].
  unfold Grp.set_connected_at in *. case_decide; by simplify_eq/=.
Qed.

(** [ConnectAll] opens every link. *)
Lemma connect_loop n ks : ∀ sg (P : gset nat),
  Grp.wf n sg → (∀ k, k ∈ ks → (k < n)%nat) → (∀ a, a ∈ P → (a < n)%nat ∧ Grp.conn sg a = true) →
  (∀ a b, a ∈ P → b ∈ P → Grp.link sg a b = true) →
  ∃ sg', Grp.each Grp.ConnectOne sg ks = Ret sg' ∧ calm sg sg' ∧
    ∀ a b, a ∈ P ∪ list_to_set ks → b ∈ P ∪ list_to_set ks → Grp.link sg' a b = true.
Proof.
  induction ks as [|k ks IH]; intros sg P Hwf Hk Hc Hl.
  { exists sg. split; [done |]. split; [done |]. intros a b Ha Hb. apply Hl; set_solver. }
  assert (∀ j, j ∈ Grp.all sg ↔ (j < n)%nat) as Hall.
  { intros j. unfold Grp.all. rewrite elem_of_seq, (Grp.wf_srvs _ _ Hwf). lia. }
  destruct (Grp.connect_spec n sg k (Grp.all sg)) as (sg1 & H1 & Hwf1 & Hc1 & Hl1); [done | apply Hk; by left | by intros j ?%Hall |].
  assert (∀ a, a ∈ {[k]} ∪ P → (a < n)%nat ∧ Grp.conn sg1 a = true) as Hc1'.
  { intros a [->%elem_of_singleton|Ha]%elem_of_union; rewrite Hc1.
    - split; [apply Hk; by left | by rewrite decide_True].
    - destruct (Hc a Ha). split; [done |]. by case_decide. }
  destruct (IH sg1 ({[k]} ∪ P) Hwf1) as (sg2 & H2 & Hs2 & Hl2); [intros j Hj; apply Hk; by right | done | |].
  - intros a b Ha Hb. rewrite Hl1. case_decide as Hd; [done |].
    destruct (Hc1' a Ha) as [Hlta Hca], (Hc1' b Hb) as [Hltb Hcb]. rewrite !Hall in Hd.
    apply Hl; [destruct (decide (a = k)) as [->|]; [| set_solver] | destruct (decide (b = k)) as [->|]; [| set_solver]];
      exfalso; apply Hd; [by left | by right].
  - exists sg2. split; [| split].
    + unfold Grp.each in *. simpl. unfold Grp.ConnectOne at 2. rewrite H1. exact H2.
    + etrans; [by eapply connect_calm | done].
    + intros a b Ha Hb. apply Hl2; set_solver.
Qed.

Lemma ConnectAll_spec n sg :
  Grp.wf n sg → ∃ sg', Grp.ConnectAll sg = Ret sg' ∧ calm sg sg' ∧
    ∀ a b, (a < n)%nat → (b < n)%nat → Grp.link sg' a b = true.
Proof.
  intros Hwf. pose proof (Grp.wf_srvs _ _ Hwf) as Hn.
  destruct (connect_loop n (Grp.all sg) sg ∅ Hwf) as (sg' & H & Hs & Hl); [| set_solver | set_solver |].
  - intros k Hk. unfold Grp.all in Hk. apply elem_of_seq in Hk. lia.
  - exists sg'. split; [done |]. split; [done |]. intros a b Ha Hb.
    apply Hl; apply elem_of_union_r, elem_of_list_to_set, elem_of_seq; lia.
Qed.

(** Where the network sends a request through end [e]. *)
Definition target (rn : Network) (e : string) : option nat :=
  let '(enabled, _, server, _, _) := readEndnameInfo rn e in if (enabled : bool) then server else None.

(** A group's requests depend on its links and its servers only. *)
Lemma group_target cfg cfg' sg i j e :
  gok (Grp.N sg) (load cfg sg) → gok (Grp.N sg) (load cfg' sg) → Grp.end_of sg i j = Ret e →
  Grp.link (load cfg' sg) i j = Grp.link (load cfg sg) i j →
  server_at (net cfg') (Grp.ServerName (Grp.gid sg) j) = server_at (net cfg) (Grp.ServerName (Grp.gid sg) j) →
  target (net cfg') e = target (net cfg) e.
Proof.
  intros Hok Hok' He Hl Hs. unfold target, readEndnameInfo.
  pose proof (gok_route _ _ Hok i j e He) as R. pose proof (gok_route _ _ Hok' i j e He) as R'. simpl in R, R'. rewrite R, R', Hs.
  unfold Grp.link in Hl. change (Grp.end_of (load cfg' sg) i j) with (Grp.end_of sg i j) in Hl.
  change (Grp.end_of (load cfg sg) i j) with (Grp.end_of sg i j) in Hl. rewrite He in Hl. simpl in Hl. by rewrite Hl.
Qed.

(** *** The partitioner of [kvtest1/kvtest.go] *)

(** [pa[i]] for the random bits [a]. *)
Definition side (a : list Z) (i : Z) : list nat := filter (λ j, a !! j = Some i) (seq 0 (length a)).

(** One round of the loop of [Partitioner]. *)
Definition Partitioner_round (cfg : Config) (gid : Z) (a : list Z) : GoRes Config :=
  on_group cfg gid (λ sg, Grp.Partition sg (side a 0) (side a 1)).

Lemma elem_of_side a i j : j ∈ side a i ↔ a !! j = Some i.
Proof.
  unfold side. rewrite list_elem_of_filter, elem_of_seq. split; [by intros [? _] |]. intros Hj. split; [done |].
  apply lookup_lt_Some in Hj. lia.
Qed.

(** After a round, two servers are connected exactly when they drew the same
    bit. *)
Lemma Partitioner_round_links cfg gid sg a :
  cok cfg → lookupGroup cfg gid = Some sg → length a = Grp.N sg → Forall (λ b, b = 0 ∨ b = 1) a →
  ∃ cfg' sg', Partitioner_round cfg gid a = Ret cfg' ∧ cok cfg' ∧ lookupGroup cfg' gid = Some sg' ∧
    ∀ i j, (i < Grp.N sg)%nat → (j < Grp.N sg)%nat → Grp.link (load cfg' sg') i j = bool_decide (a !! i = a !! j).
Proof.
  intros Hc Hsg Hlen Hbits. destruct (cok_groups _ Hc gid sg Hsg) as [[Hwf _ _] _].
  destruct (Grp.group_Partition_spec (Grp.N sg) (load cfg sg) (side a 0) (side a 1) Hwf) as (sg' & Hp & _ & H00 & H11 & H01).
  - intros j. rewrite elem_of_app, !elem_of_side. intros [Hj|Hj]; apply lookup_lt_Some in Hj; lia.
  - intros j. rewrite !elem_of_side. congruence.
  - assert (Partitioner_round cfg gid a = Ret (store cfg gid sg')) as Hr.
    { unfold Partitioner_round, on_group. unfold lookupGroup in *. rewrite Hsg. simpl. by rewrite Hp. }
    exists (store cfg gid sg'), sg'. split; [done |].
    split; [by eapply (on_group_ok cfg gid (λ s, Grp.Partition s (side a 0) (side a 1))); [intros ? ?; apply Partition_grel | |] |].
    split; [unfold lookupGroup; simpl; by rewrite lookup_insert_eq |].
    intros i j Hi Hj. change (Grp.link (load (store cfg gid sg') sg') i j) with (Grp.link sg' i j).
    destruct (lookup_lt_is_Some_2 a i) as [x Hx]; [lia |]. destruct (lookup_lt_is_Some_2 a j) as [y Hy]; [lia |].
    pose proof (proj1 (Forall_lookup _ _) Hbits _ _ Hx) as Bx. pose proof (proj1 (Forall_lookup _ _) Hbits _ _ Hy) as By.
    rewrite Hx, Hy. simpl in Bx, By. destruct Bx, By; subst.
    + rewrite bool_decide_true by done. apply H00; by rewrite elem_of_side.
    + rewrite bool_decide_false by done. destruct (H01 i j) as [? _]; [by rewrite elem_of_side.. | done].
    + rewrite bool_decide_false by done. destruct (H01 j i) as [_ ?]; [by rewrite elem_of_side.. | done].
    + rewrite bool_decide_true by done. apply H11; by rewrite elem_of_side.
Qed.

(** ** The properties *)

(** C22: whatever a test does with its groups and clients, in any order and
    as long as no operation panics, the configuration stays in order: each
    group's servers have one end per server, connected to that server's name;
    every end is known to the network; no two ends of groups or live clients
    are the same.  So [Cleanup] never panics.  If the test has taken longer
    than 120 seconds and has not failed before, it ends in the message that
    says so; otherwise it returns, and then all ends of clients are deleted
    and in each group of the table exactly the services that the entries of
    its servers hold have been killed in addition.  (The services of an instance
    whose entry was replaced are not among those: the tester asks for
    [ShutdownServer] before a restart, which kills them.) *)
Theorem test_well_formed (reliable : bool) (names : list (list string)) (starts : list (list string * list nat))
    (os : list TOp) (cfg0 cfg : Config)
    (Hsq : square names starts) (Hmk : MakeConfig reliable names starts = Ret cfg0) (Hrun : run os cfg0 = Some (Ret cfg)) :
  cok cfg ∧
  ∀ t1 t2 en op order failed elapsed g,
    if negb failed && bool_decide (120 * 1000000000 < elapsed)
    then Cleanup t1 t2 en op order failed elapsed cfg g = Abort "test took longer than 120 seconds"
    else ∃ cfg' g' out,
      Cleanup t1 t2 en op order failed elapsed cfg g = Ret (cfg', g', out) ∧
      (∀ e, e ∈ client_own (load_clnts cfg) → e ∉ ends (net cfg')) ∧
      ∀ gid sg, lookupGroup cfg gid = Some sg →
        Grp.killed <$> lookupGroup cfg' gid = Some (Grp.killed sg ++ concat (Services sg)).
Proof.
  assert (cok cfg) as Hc by (eapply run_cok; [by eapply MakeConfig_ok | done]). split; [done |].
  intros t1 t2 en op order failed elapsed g. destruct (Cl.cleanup_ok _ (cok_clients _ Hc)) as (rn' & E & Hgone).
  unfold Cleanup, CheckTimeout. rewrite E. simpl. destruct (Annotation.cleanup _ _ _ _ _ _ _ _) as [an out].
  destruct (negb failed && bool_decide (120 * 1000000000 < elapsed)); [done |].
  eexists _, _, out. split; [done |]. split.
  - intros e (i & c & sv & Hi & Hi' & He)%elem_of_client_own. by eapply Hgone.
  - intros gid sg Hg. unfold lookupGroup in *. simpl. by rewrite lookup_fmap, Hg.
Qed.

(** C21: components of a test do not interfere.  An operation leaves the
    links of every group it is not about as they are, and the requests sent on
    them reach the same servers as before; unless it is a client's operation,
    it changes no client's reach; and it replaces or removes no server of
    another group. *)
Theorem components_apart (reliable : bool) (names : list (list string)) (starts : list (list string * list nat))
    (os : list TOp) (cfg0 cfg cfg' : Config) (o : TOp)
    (Hsq : square names starts) (Hmk : MakeConfig reliable names starts = Ret cfg0) (Hrun : run os cfg0 = Some (Ret cfg))
    (Hx : exec o cfg = Some (Ret cfg')) :
  unaffected o cfg cfg' ∧
  ∀ gid sg i j e, ¬ about_group o gid → lookupGroup cfg gid = Some sg → Grp.end_of sg i j = Ret e →
    target (net cfg') e = target (net cfg) e.
Proof.
  assert (cok cfg) as Hc by (eapply run_cok; [by eapply MakeConfig_ok | done]).
  destruct (exec_ok o cfg cfg' Hc Hx) as [Hc' Hu]. split; [done |]. destruct Hu as (Hg & _ & Hs).
  intros gid sg i j e Hn Hsg He. destruct (Hg gid sg Hn Hsg) as [Hsg' Hl].
  destruct (cok_groups _ Hc gid sg Hsg) as [Hok <-]. destruct (cok_groups _ Hc' _ sg Hsg') as [Hok' _].
  eapply (group_target cfg cfg' sg i j); auto. apply Hs. intros g k Hk [Heq _]%Grp.ServerName_inj. by subst g.
Qed.

(** A group that is made and started with new names. *)
Lemma group_starts_in cfg names starts gid :
  square names starts → NoDup (concat names ++ concat starts.*1) →
  (∀ e, e ∈ concat names ++ concat starts.*1 → e ∉ ends (net cfg)) →
  ∃ cfg' sg, MakeGroupStart cfg gid names starts = Ret cfg' ∧ grps cfg' = <[gid := sg]> (grps cfg) ∧
    net cfg' = Grp.net sg ∧ ptr cfg' = Grp.next_ptr sg ∧ (ptr cfg ≤ ptr cfg')%nat ∧ clnts cfg' = clnts cfg ∧
    gok (length names) sg ∧ Grp.heap_ok sg ∧ Grp.gid sg = gid ∧ Grp.servernames sg = Grp.ServerName gid <$> seq 0 (length names) ∧
    (∀ i j, (i < length names)%nat → (j < length names)%nat → Grp.link sg i j = true) ∧
    (∀ j, (j < length names)%nat → is_Some (server_at (Grp.net sg) (Grp.ServerName gid j))) ∧
    ends (net cfg') = list_to_set (concat names ++ concat starts.*1) ∪ ends (net cfg).
Proof.
  intros (Hl & Hlen & Hs) (Hnd1 & Hd & Hnd2)%NoDup_app Hfr.
  destruct (make_srvs_returns gid names (net cfg) Hnd1) as (rn & ss & Hm & He & Hsv); [set_solver |].
  unfold MakeGroupStart, MakeGroup. simpl. destruct (Grp.makeSrvGrp (net cfg) gid names) as [sg0|] eqn:E0;
    [| unfold Grp.makeSrvGrp in E0; by rewrite Hm in E0]. simpl.
  destruct (makeSrvGrp_ok _ _ _ _ Hl E0) as (Hok0 & Hg0 & _). unfold Grp.makeSrvGrp in E0. rewrite Hm in E0. injection E0 as <-.
  unfold on_group, lookupGroup. simpl. rewrite lookup_insert_eq. simpl.
  match goal with |- context [StartServers starts ?g] => set (sg1 := g) end.
  rewrite Forall_forall in Hsv.
  assert (∀ j s, Grp.srvs sg1 !! j = Some s → Grp.saved s = None) as Hsv1.
  { intros j s Hj. apply Hsv. by eapply list_elem_of_lookup_2. }
  destruct (start_returns (length names) starts sg1 0) as (sg2 & H2 & Hok2 & Hg2 & Hat2 & Hh2 & Hp2 & Hs2 & He2);
    [| | done | done | eauto | done | | lia |].
  - destruct Hok0 as [Hwf0 Ho0 Hr0]. split; [by destruct Hwf0 | done | done].
  - split; [by intros p [? ?] |]. intros j s p Hj Hp. rewrite (Hsv1 _ _ Hj) in Hp. done.
  - intros e Hin. simpl. rewrite He. specialize (Hd e). specialize (Hfr e). simpl. set_solver.
  - destruct (ConnectAll_spec _ _ (gok_wf _ _ Hok2)) as (sg3 & H3 & Hc3 & Hl3).
    destruct (ConnectAll_grel (length names) _ _ H3 Hok2) as (Hok3 & Hg3 & _). pose proof Hc3 as (Hs3 & He3 & _ & _ & Hp3 & Hn3).
    unfold StartServers. rewrite H2. simpl. rewrite H3. simpl.
    eexists _, sg3. split; [reflexivity |]. simpl. split_and!; try done.
    + by rewrite insert_insert_eq.
    + rewrite Hp3. done.
    + by eapply calm_heap.
    + by rewrite Hg3, Hg2.
    + by rewrite Hn3, Hs2.
    + intros j Hj. unfold server_at. rewrite Hs3. by apply Hat2.
    + rewrite He3, He2. simpl. rewrite He, list_to_set_app_L. set_solver.
Qed.

Lemma group_starts names starts gid :
  square names starts → NoDup (concat names ++ concat starts.*1) →
  ∃ cfg sg, MakeGroupStart empty_config gid names starts = Ret cfg ∧ lookupGroup cfg gid = Some sg ∧
    net cfg = Grp.net sg ∧ gok (length names) sg ∧ Grp.gid sg = gid ∧
    (∀ i j, (i < length names)%nat → (j < length names)%nat → Grp.link sg i j = true) ∧
    ∀ j, (j < length names)%nat → is_Some (server_at (Grp.net sg) (Grp.ServerName gid j)).
Proof.
  intros Hsq Hnd. destruct (group_starts_in empty_config names starts gid Hsq Hnd)
    as (cfg & sg & H & Hg & Hn & _ & _ & _ & Hok & _ & Hgid & _ & Hl & Hat & _); [set_solver |].
  exists cfg, sg. unfold lookupGroup. rewrite Hg, lookup_insert_eq. split_and!; done.
Qed.

(** ** Groups that come and go *)

(** Besides [cok]: servers have the names of their group, and pointers to
    persisters are in use. *)
Record tok (cfg : Config) : Prop := {
  tok_cok : cok cfg;
  tok_groups : ∀ gid sg, grps cfg !! gid = Some sg →
    Grp.heap_ok (load cfg sg) ∧ Grp.servernames sg = Grp.ServerName gid <$> seq 0 (Grp.N sg);
}.

Lemma heap_ok_later cfg cfg' sg :
  Grp.heap_ok (load cfg sg) → (ptr cfg ≤ ptr cfg')%nat → Grp.heap_ok (load cfg' sg).
Proof. intros [H1 H2] Hp. split; simpl in *; [| done]. intros p Hx%H1. lia. Qed.

Lemma MakeGroupStart_returns cfg gid names starts :
  tok cfg → square names starts → NoDup (concat names ++ concat starts.*1) →
  (∀ e, e ∈ concat names ++ concat starts.*1 → e ∉ ends (net cfg)) →
  ∃ cfg' sg, MakeGroupStart cfg gid names starts = Ret cfg' ∧ tok cfg' ∧ grps cfg' = <[gid := sg]> (grps cfg) ∧
    Grp.N sg = length names ∧ Grp.servernames sg = Grp.ServerName gid <$> seq 0 (length names) ∧
    ends (net cfg') = list_to_set (concat names ++ concat starts.*1) ∪ ends (net cfg).
Proof.
  intros [Hc Ht] Hsq Hnd Hf. destruct (group_starts_in cfg names starts gid Hsq Hnd Hf)
    as (cfg' & sg & H & Hg & Hn & Hp & Hle & Hcl & Hok & Hh & Hgid & Hsn & _ & _ & He).
  exists cfg', sg. split_and!; try done; [| apply (Grp.wf_srvs _ _ (gok_wf _ _ Hok))]. split; [by eapply MakeGroupStart_ok |].
  intros g s. rewrite Hg. intros [[<- <-]|[Hne Hs]]%lookup_insert_Some.
  - split; [| rewrite Hsn; by rewrite <- (Grp.wf_srvs _ _ (gok_wf _ _ Hok))].
    destruct Hh as [H1 H2]. split; simpl; [| done]. by rewrite Hp.
  - destruct (Ht g s Hs) as [Hh' Hs']. split; [by eapply heap_ok_later | done].
Qed.

(** Shutting down the servers [ks]. *)
Lemma shutdown_loop n ks : ∀ sg, (∀ k, k ∈ ks → (k < n)%nat) → gok n sg → Grp.heap_ok sg →
  ∃ sg', Grp.each Grp.ShutdownServer sg ks = Ret sg' ∧ (Grp.next_ptr sg ≤ Grp.next_ptr sg')%nat ∧
    ends (Grp.net sg') = ends (Grp.net sg).
Proof.
  induction ks as [|k ks IH]; intros sg Hk Hok Hh; [by exists sg |].
  destruct (Grp.ShutdownServer_returns n sg k (gok_wf _ _ Hok) Hh ltac:(apply Hk; by left)) as (sg1 & H1 & Hh1 & Hp1 & He1).
  destruct (shutdown_grel n sg k sg1 H1 Hok) as (Hok1 & _).
  destruct (IH sg1 ltac:(intros j Hj; apply Hk; by right) Hok1 Hh1) as (sg2 & H2 & Hp2 & He2).
  exists sg2. split; [| split; [lia | congruence]]. unfold Grp.each in *. simpl. by rewrite H1.
Qed.

Lemma ExitGroup_returns cfg gid :
  tok cfg → is_Some (grps cfg !! gid) →
  ∃ cfg', ExitGroup cfg gid = Ret cfg' ∧ tok cfg' ∧ grps cfg' = delete gid (grps cfg) ∧ clnts cfg' = clnts cfg ∧
    ends (net cfg') = ends (net cfg).
Proof.
  intros [Hc Ht] [sg Hsg]. destruct (cok_groups _ Hc gid sg Hsg) as [Hok _]. destruct (Ht gid sg Hsg) as [Hh _].
  destruct (shutdown_loop (Grp.N sg) (Grp.all (load cfg sg)) (load cfg sg)) as (sg' & H & Hp & He); [| done | done |].
  { intros k Hk. unfold Grp.all in Hk. apply elem_of_seq in Hk. unfold Grp.N. simpl in Hk. lia. }
  assert (∃ cfg', ExitGroup cfg gid = Ret cfg' ∧ grps cfg' = delete gid (grps cfg) ∧ clnts cfg' = clnts cfg ∧
    ends (net cfg') = ends (net cfg) ∧ (ptr cfg ≤ ptr cfg')%nat) as (cfg' & HE & Hg & Hcl & Hen & Hpt).
  { unfold ExitGroup, on_group, lookupGroup. rewrite Hsg. simpl. unfold Grp.Shutdown. rewrite H. simpl.
    eexists. split; [reflexivity |]. simpl. rewrite delete_insert_eq. done. }
  exists cfg'. split_and!; try done. split.
  - destruct (exec_ok (OpExitGroup gid) cfg cfg' Hc) as [? _]; [simpl; by rewrite HE | done].
  - intros g s. rewrite Hg. intros [_ Hs]%lookup_delete_Some. destruct (Ht g s Hs) as [Hh' Hs'].
    split; [by eapply heap_ok_later | done].
Qed.

(** When the random names drawn are all different, [MakeConfig] starts
    every server of group 0 and connects them all: a request from any server
    to any other goes to the other's name through an enabled end and finds a
    server there, on a network as reliable as asked for. *)
Theorem config_starts (reliable : bool) (names : list (list string)) (starts : list (list string * list nat))
    (Hsq : square names starts) (Hnd : NoDup (concat names ++ concat starts.*1)) :
  ∃ cfg sg, MakeConfig reliable names starts = Ret cfg ∧ IsReliable cfg = reliable ∧
    lookupGroup cfg GRP0 = Some sg ∧ Grp.N sg = length names ∧
    ∀ i j, (i < length names)%nat → (j < length names)%nat → ∃ e, Grp.end_of sg i j = Ret e ∧
      connected_to (net cfg) e = Some (Grp.ServerName GRP0 j) ∧ is_Some (target (net cfg) e).
Proof.
  destruct (group_starts names starts GRP0 Hsq Hnd) as (cfg & sg & H & Hsg & Hn & Hok & Hg & Hl & Hat).
  unfold MakeConfig. unfold empty_config in H. rewrite H. simpl. eexists _, sg. split; [reflexivity |].
  split; [done |]. split; [done |]. split; [apply (Grp.wf_srvs _ _ (gok_wf _ _ Hok)) |]. intros i j Hi Hj.
  destruct (Grp.end_of_wf _ _ i j (gok_wf _ _ Hok) Hi Hj) as [e He]. exists e. split; [done |].
  pose proof (gok_route _ _ Hok i j e He) as R. rewrite <- Hn, Hg in R. split; [exact R |].
  specialize (Hl i j Hi Hj). unfold Grp.link in Hl. rewrite He, <- Hn in Hl.
  specialize (Hat j Hj). rewrite <- Hn in Hat. unfold target, readEndnameInfo.
  change (is_enabled (net (mkConfig (Reliable (net cfg) reliable) (ptr cfg) (grps cfg) (Cl.makeClnts (net cfg)) (rpcs0 cfg) (ops cfg))) e)
    with (is_enabled (net cfg) e).
  change (connected_to (net (mkConfig (Reliable (net cfg) reliable) (ptr cfg) (grps cfg) (Cl.makeClnts (net cfg)) (rpcs0 cfg) (ops cfg))) e)
    with (connected_to (net cfg) e).
  rewrite Hl, R. exact Hat.
Qed.

(** *** Witnesses: two servers, a second group and a client *)

Definition two_names : list (list string) := [["a00"; "a01"]; ["a10"; "a11"]]%string.
Definition two_starts : list (list string * list nat) := [(["b00"; "b01"], [1%nat]); (["b10"; "b11"], [2%nat])]%string.
Definition two_ops : list TOp :=
  [OpMakeGroupStart 1 [["c00"]]%string [(["d00"]%string, [3%nat])]; OpClient (Cl.OpMake None);
   OpClient (Cl.OpCall 0 "server-0-1" "k0"); OpGroup 0 (GPartition [0%nat] [1%nat])].

Lemma two_square : square two_names two_starts.
Proof. apply (bool_decide_unpack _). vm_compute. exact I. Qed.

Lemma config_starts_witness :
  ∃ cfg sg, MakeConfig true two_names two_starts = Ret cfg ∧ lookupGroup cfg GRP0 = Some sg ∧
    ∃ e, Grp.end_of sg 0 1 = Ret e ∧ is_Some (target (net cfg) e).
Proof.
  destruct (config_starts true two_names two_starts) as (cfg & sg & H1 & _ & H2 & _ & H3).
  - apply two_square.
  - apply (bool_decide_unpack _). vm_compute. exact I.
  - exists cfg, sg. split; [exact H1 |]. split; [exact H2 |].
    destruct (H3 0%nat 1%nat) as (e & He & _ & Ht); [vm_compute; lia | vm_compute; lia |]. exists e. split; [exact He | exact Ht].
Defined.

Definition config_or {A : Type} (x : A) (r : GoRes A) : A := match r with Ret a => a | Abort _ => x end.
Definition returned {A : Type} (r : GoRes A) : bool := match r with Ret _ => true | Abort _ => false end.
Lemma config_or_Ret {A : Type} (x : A) r : returned r = true → r = Ret (config_or x r).
Proof. by destruct r. Qed.

Definition two_made : Config := config_or empty_config (MakeConfig true two_names two_starts).
Definition two_ran : Config := config_or empty_config (default (Abort "") (run two_ops two_made)).
Definition two_left : Config := config_or empty_config (default (Abort "") (exec (OpExitGroup 0) two_ran)).

Lemma two_made_eq : MakeConfig true two_names two_starts = Ret two_made.
Proof. apply config_or_Ret. vm_compute. reflexivity. Qed.

Lemma some_or_Ret (r : option (GoRes Config)) :
  returned (default (Abort "") r) = true → r = Some (Ret (config_or empty_config (default (Abort "") r))).
Proof. by destruct r as [[]|]. Qed.

Lemma two_ran_eq : run two_ops two_made = Some (Ret two_ran).
Proof. apply some_or_Ret. vm_compute. reflexivity. Qed.
Lemma two_left_eq : exec (OpExitGroup 0) two_ran = Some (Ret two_left).
Proof. apply some_or_Ret. vm_compute. reflexivity. Qed.

Lemma test_well_formed_witness : run two_ops two_made = Some (Ret two_ran) ∧ cok two_ran.
Proof.
  split; [exact two_ran_eq |].
  exact (proj1 (test_well_formed true two_names two_starts two_ops two_made two_ran two_square two_made_eq two_ran_eq)).
Defined.

Lemma components_apart_witness :
  exec (OpExitGroup 0) two_ran = Some (Ret two_left) ∧ unaffected (OpExitGroup 0) two_ran two_left.
Proof.
  split; [exact two_left_eq |].
  exact (proj1 (components_apart true two_names two_starts two_ops two_made two_ran two_left (OpExitGroup 0)
                  two_square two_made_eq two_ran_eq two_left_eq)).
Defined.

End TesterSystem.
