(* ===== verification/RaftSetup.v ===== *)
(** * Setting up and restarting in the Raft lab's tester

    [makeTest], [restart] and [cleanup] of [raft1/test.go], which put together
    the servers and checks of [RaftTest] and the configuration of
    [TesterConfig], with the accessors of [rfsrv] and of the Raft peer that
    touch the persister. *)

From S2P Require Import Prelude Raft Labrpc TesterGroup RaftTest TesterClnts Annotation TesterConfig TesterSystem.
#[local] Open Scope Z_scope.

Module RaftSetup.
Module TC := TesterConfig.
Module TS := TesterSystem.
Module Grp := TesterGroup.
Module RT := RaftTest.
Import Labrpc.

Section setup.
Context `{!RT.SnapCodec}.

(** [Test] with its configuration; [checks] are the other fields. *)
Record Test := mkTest { config : TC.Config; checks : RT.Test }.

(** [Raft.PersistBytes] and [Raft.Snapshot], which is a placeholder. *)
Definition PersistBytes (ps : Grp.Persister) : Z := Grp.RaftStateSize ps.
Definition Snapshot (rf : Raft.Raft) (index : Z) (snapshot : list Z) : Raft.Raft := rf.

(** [rfsrv.GetState] and [rfsrv.Raft], when the object's Raft is [rf]; a
    killed object has none. *)
Definition GetState (rs : RT.rfsrv) (rf : Raft.Raft) : GoRes (Z * bool) :=
  if RT.raft rs then Ret (Raft.GetState rf) else Abort RT.nil_pointer.
Definition rfsrv_Raft (rs : RT.rfsrv) (rf : Raft.Raft) : option Raft.Raft :=
  if RT.raft rs then Some rf else None.

(** [mksrv]: make the object, then store it in the table. *)
Definition mksrv (ts : RT.Test) (srv : nat) (ps : Grp.Persister) : GoRes RT.Test :=
  (let* ts' := RT.newRfsrv ts srv ps in RT.mksrv_store ts' srv (length (RT.heap ts)))%go.

(** The calls of [mksrv] while the servers of a new group are started. *)
Fixpoint mk_all (ts : RT.Test) (i k : nat) : GoRes RT.Test :=
  match k with
  | O => Ret ts
  | S k => (let* ts := mksrv ts i Grp.MakePersister in mk_all ts (S i) k)%go
  end.

(** [makeTest] for [length names] servers. *)
Definition makeTest (reliable snapshot : bool) (names : list (list string)) (starts : list (list string * list nat)) : GoRes Test :=
  (let n := length names in
   let* ch := mk_all (RT.makeTest n snapshot) 0 n in
   let* cfg := TC.MakeConfig reliable names starts in
   Ret (mkTest (TC.SetLongDelays cfg true) ch))%go.

(** The state the running instance of server [i] was started with. *)
Definition persisted (cfg : TC.Config) (i : nat) : GoRes Grp.Persister :=
  (let* sg := deref (TC.lookupGroup cfg TC.GRP0) RT.nil_pointer in
   let* s := deref (Grp.srvs sg !! i) "index out of range" in
   let* p := deref (Grp.saved s) RT.nil_pointer in
   deref (Grp.persisters sg !! p) RT.nil_pointer)%go.

(** [restart]: a new instance of server [i], with fresh ends [names], for
    which [mksrv] is called; then all servers are connected. *)
Definition restart (t : Test) (i : nat) (names : list string) (svcs : list nat) : GoRes Test :=
  (let* cfg := TC.on_group (config t) TC.GRP0 (λ sg, Grp.StartServer sg i names svcs) in
   let* ps := persisted cfg i in
   let* ch := mksrv (checks t) i ps in
   let* cfg := TC.on_group cfg TC.GRP0 Grp.ConnectAll in
   Ret (mkTest cfg ch))%go.

(** [cleanup] *)
Definition set_finished (ts : RT.Test) (f : Z) : RT.Test :=
  RT.mkTest (RT.srvs ts) (RT.maxIndex ts) (RT.snapshot ts) f (RT.heap ts) (RT.creating ts) (RT.snapshots ts).
Definition cleanup (t1 t2 : Z) (enabled : string) (opened : bool) (order : list string) (failed : bool) (elapsed : Z)
    (t : Test) (g : Annotation.Global) : GoRes (Test * Annotation.Global * option (list Annotation.Annot)) :=
  (let ch := set_finished (checks t) 1 in
   let* _ := TC.End_ (config t) failed elapsed in
   let* r := TC.Cleanup t1 t2 enabled opened order failed elapsed (config t) g in
   let '(cfg, g, out) := r in
   let* _ := TC.CheckTimeout failed elapsed in
   Ret (mkTest cfg ch, g, out))%go.

(** ** Lemmas *)

Lemma load_store cfg gid sg : TC.load (TC.store cfg gid sg) sg = sg.
Proof. by destruct sg. Qed.

Lemma on_group_eq cfg gid sg f sg' :
  TC.grps cfg !! gid = Some sg → f (TC.load cfg sg) = Ret sg' → TC.on_group cfg gid f = Ret (TC.store cfg gid sg').
Proof. intros Hg Hf. unfold TC.on_group, TC.lookupGroup. rewrite Hg. simpl. by rewrite Hf. Qed.

Lemma on_stored_eq cfg gid sg f sg' :
  f sg = Ret sg' → TC.on_group (TC.store cfg gid sg) gid f = Ret (TC.store (TC.store cfg gid sg) gid sg').
Proof. intros Hf. apply (on_group_eq _ _ sg); [by apply lookup_insert_eq | by rewrite load_store]. Qed.

(** The object of a server that starts on the persisted state [ps]: blank, or
    with the entries of the snapshot; [None] when that does not decode. *)
Definition loaded (snap : bool) (ps : Grp.Persister) (srv : nat) : option RT.rfsrv :=
  if decide (snap = true ∧ Grp.ReadSnapshot ps ≠ []) then
    '(k, xlog) ← RT.dec (Grp.ReadSnapshot ps);
    Some (RT.mkRfsrv srv "" k true (list_to_map (imap (λ j x, (Z.of_nat j, x)) xlog)))
  else Some (RT.mkRfsrv srv "" 0 true ∅).

Lemma mksrv_spec ts srv ps :
  (srv < length (RT.srvs ts))%nat →
  match loaded (RT.snapshot ts) ps srv with
  | None => mksrv ts srv ps = Abort "snapshot decode error"
  | Some obj =>
      ∃ ts', mksrv ts srv ps = Ret ts' ∧ RT.srvs ts' = <[srv := Some (length (RT.heap ts))]> (RT.srvs ts) ∧
        RT.heap ts' = RT.heap ts ++ [obj] ∧ RT.snapshot ts' = RT.snapshot ts
  end.
Proof.
  intros Hlt. unfold loaded, mksrv, RT.newRfsrv. case_decide as Hd.
  - unfold RT.ingestSnap. destruct (RT.dec (Grp.ReadSnapshot ps)) as [[k xlog]|]; simpl; [| done].
    unfold RT.mksrv_store. simpl. rewrite decide_True by done. by eexists.
  - simpl. unfold RT.mksrv_store. simpl. rewrite decide_True by done. by eexists.
Qed.

(** What the objects hold. *)
Lemma loaded_blank snap ps srv : snap = false ∨ Grp.ReadSnapshot ps = [] → loaded snap ps srv = Some (RT.mkRfsrv srv "" 0 true ∅).
Proof. intros Hs. unfold loaded. rewrite decide_False; [done | naive_solver congruence]. Qed.

Lemma loaded_snapshot ps srv k xlog obj :
  Grp.ReadSnapshot ps ≠ [] → RT.dec (Grp.ReadSnapshot ps) = Some (k, xlog) → loaded true ps srv = Some obj →
  RT.me obj = srv ∧ RT.applyErr obj = "" ∧ RT.raft obj = true ∧ RT.lastApplied obj = k ∧
  ∀ j, RT.logs obj !! j = if decide (0 ≤ j) then xlog !! Z.to_nat j else None.
Proof.
  intros Hne Hd. unfold loaded. rewrite decide_True, Hd by done. simpl. intros [= <-]. split_and!; try done. intros j. simpl.
  rewrite (RT.indexed_lookup xlog 0). by rewrite Z.sub_0_r.
Qed.

(** A new test is well formed and has an object for each server. *)
Lemma mk_all_returns k : ∀ ts i, (i + k ≤ length (RT.srvs ts))%nat →
  ∃ ts', mk_all ts i k = Ret ts' ∧ length (RT.srvs ts') = length (RT.srvs ts) ∧ RT.snapshot ts' = RT.snapshot ts.
Proof.
  induction k as [|k IH]; intros ts i Hk; [by exists ts |]. cbn [mk_all].
  pose proof (mksrv_spec ts i Grp.MakePersister ltac:(lia)) as Hmk. rewrite loaded_blank in Hmk by (by right).
  destruct Hmk as (ts1 & H1 & Hs1 & _ & Hsn1). rewrite H1. simpl.
  destruct (IH ts1 (S i)) as (ts2 & H2 & Hs2 & Hsn2); [rewrite Hs1, length_insert; lia |].
  exists ts2. split; [done |]. rewrite Hs2, Hs1, length_insert. split; congruence.
Qed.

Lemma makeTest_returns reliable snapshot names starts :
  TS.square names starts → NoDup (concat names ++ concat starts.*1) →
  ∃ t sg, makeTest reliable snapshot names starts = Ret t ∧ TS.tok (config t) ∧
    TC.grps (config t) !! TC.GRP0 = Some sg ∧ Grp.N sg = length names ∧
    length (RT.srvs (checks t)) = length names ∧ RT.snapshot (checks t) = snapshot.
Proof.
  intros Hsq Hnd. assert (TS.tok TS.empty_config) as H0 by (split; [apply TS.empty_config_ok | done]).
  destruct (TS.MakeGroupStart_returns TS.empty_config TC.GRP0 names starts H0 Hsq Hnd) as (cfg & sg & Hm & Ht & Hg & Hn & _ & _); [set_solver |].
  destruct (mk_all_returns (length names) (RT.makeTest (length names) snapshot) 0) as (ch & Hch & Hl & Hsn);
    [simpl; rewrite length_replicate; lia |].
  assert (∃ cfg', TC.MakeConfig reliable names starts = Ret cfg' ∧ TC.grps cfg' = TC.grps cfg ∧ TC.ptr cfg' = TC.ptr cfg)
    as (cfg' & HM & Hg' & Hp').
  { unfold TC.MakeConfig. unfold TS.empty_config in Hm. rewrite Hm. simpl. by eexists. }
  exists (mkTest (TC.SetLongDelays cfg' true) ch), sg. unfold makeTest. rewrite Hch. simpl. rewrite HM. simpl.
  split_and!; try done.
  - split.
    + pose proof (TS.MakeConfig_ok _ _ _ _ Hsq HM) as Hok.
      by destruct (TS.quiet_cok cfg' (LongDelays (TC.net cfg') true) (TC.rpcs0 cfg') (TC.ops cfg') Hok) as [? _].
    + simpl. rewrite Hg'. intros g s Hs. destruct (TS.tok_groups _ Ht g s Hs) as [Hh Hns].
      split; [| done]. eapply TS.heap_ok_later; [exact Hh |]. simpl. lia.
  - rewrite Hg', Hg. apply lookup_insert_eq.
  - rewrite Hl. simpl. apply length_replicate.
Qed.

(** ** The property *)

(** C24: restarting a server, whatever faults there are.  In a test that is
    well formed, server [i] is shut down and then restarted with ends that are
    new.  Its new object for the checks is blank, unless the test is one with
    snapshots and a snapshot was persisted: then the snapshot is read into it
    first, so that it starts with the index and the entries of the snapshot;
    and if the snapshot does not decode, the restart stops the test ("snapshot
    decode error").  In all other cases the restart returns: the new instance
    runs with exactly the state that was persisted, the table of servers holds
    the new object for it and all other objects are as they were, and every
    server is connected to every other, also those that were disconnected or
    partitioned before. *)
Theorem restart_resumes (t : Test) (sg : Grp.ServerGrp) (i : nat) (s : Grp.Server) (p : nat) (x : Grp.Persister)
    (names : list string) (svcs : list nat)
    (Hok : TS.tok (config t)) (Hg : TC.grps (config t) !! TC.GRP0 = Some sg)
    (Hn : length (RT.srvs (checks t)) = Grp.N sg)
    (Hi : Grp.srvs sg !! i = Some s) (Hs : Grp.saved s = Some p) (Hx : Grp.persisters sg !! p = Some x)
    (Hnames : length names = Grp.N sg) (Hnd : NoDup names) (Hfresh : ∀ e, e ∈ names → e ∉ ends (TC.net (config t))) :
  ∃ cfg1, TC.on_group (config t) TC.GRP0 (λ g, Grp.ShutdownServer g i) = Ret cfg1 ∧
  let snap := RT.snapshot (checks t) in
  if decide (snap = true ∧ Grp.ReadSnapshot x ≠ [] ∧ RT.dec (Grp.ReadSnapshot x) = None)
  then restart (mkTest cfg1 (checks t)) i names svcs = Abort "snapshot decode error"
  else ∃ t2 sg2 obj,
    restart (mkTest cfg1 (checks t)) i names svcs = Ret t2 ∧
    (snap = false ∨ Grp.ReadSnapshot x = [] → obj = RT.mkRfsrv i "" 0 true ∅) ∧
    (∀ k xlog, snap = true → Grp.ReadSnapshot x ≠ [] → RT.dec (Grp.ReadSnapshot x) = Some (k, xlog) →
       RT.me obj = i ∧ RT.applyErr obj = "" ∧ RT.raft obj = true ∧ RT.lastApplied obj = k ∧
       ∀ j, RT.logs obj !! j = if decide (0 ≤ j) then xlog !! Z.to_nat j else None) ∧
    TC.lookupGroup (config t2) TC.GRP0 = Some sg2 ∧ persisted (config t2) i = Ret x ∧
    is_Some (server_at (TC.net (config t2)) (Grp.ServerName TC.GRP0 i)) ∧
    (∀ a b, (a < Grp.N sg)%nat → (b < Grp.N sg)%nat → Grp.link sg2 a b = true) ∧
    RT.srvs (checks t2) = <[i := Some (length (RT.heap (checks t)))]> (RT.srvs (checks t)) ∧
    RT.heap (checks t2) = RT.heap (checks t) ++ [obj].
Proof.
  destruct (TS.cok_groups _ (TS.tok_cok _ Hok) _ _ Hg) as [Hgok Hgid]. destruct (TS.tok_groups _ Hok _ _ Hg) as [Hh _].
  destruct (Grp.ShutdownServer_ok (Grp.N sg) (TC.load (config t) sg) i s p x (TC.gok_wf _ _ Hgok) Hh Hi Hs Hx)
    as (sg1 & H1 & Hh1 & Hg1 & Hi1 & Hp1 & Hn1 & _ & _). simpl in Hg1, Hp1, Hn1, Hi1.
  destruct (Grp.ShutdownServer_returns (Grp.N sg) (TC.load (config t) sg) i (TC.gok_wf _ _ Hgok) Hh) as (sg1' & H1' & _ & _ & He1).
  { change (Grp.N sg) with (length (Grp.srvs sg)). by eapply lookup_lt_Some. }
  rewrite H1 in H1'. injection H1' as <-. simpl in He1.
  destruct (TC.shutdown_grel (Grp.N sg) _ _ _ H1 Hgok) as (Hok1 & _).
  destruct (TS.make_ends_returns (Grp.gid sg1) names (Grp.net sg1) 0 Hnd) as (rn & Hm & _); [intros e He; rewrite He1; by apply Hfresh |].
  destruct (Grp.StartServer_ok sg1 i (Grp.mkServer (Some (TC.ptr (config t))) [] (Grp.endNames s)) (TC.ptr (config t)) (Grp.Copy x) names svcs rn)
    as (sg2 & H2 & Hi2 & Hp2 & Hat2); [done | done | done | by rewrite Hp1, lookup_insert_eq | done |].
  destruct (TC.StartServer_grel (Grp.N sg) _ _ _ _ _ Hnames H2 Hok1) as (Hok2 & Hg2 & _).
  destruct (TS.ConnectAll_spec (Grp.N sg) sg2 (TC.gok_wf _ _ Hok2)) as (sg3 & H3 & (C1 & C2 & C3 & C4 & C5 & C6) & Hl).
  assert (Grp.Copy x = x) as Hcopy by (by destruct x). rewrite !Hcopy in Hp2.
  assert (Grp.gid sg = TC.GRP0) as Hg0 by exact Hgid.
  assert (i < length (RT.srvs (checks t)))%nat as Hlt.
  { rewrite Hn. change (Grp.N sg) with (length (Grp.srvs sg)). by eapply lookup_lt_Some. }
  pose proof (mksrv_spec (checks t) i x Hlt) as Hmk.
  exists (TC.store (config t) TC.GRP0 sg1). split; [by apply (on_group_eq _ _ sg) |]. cbv zeta.
  assert (∀ g, (Grp.srvs g = Grp.srvs sg2) → Grp.persisters g = Grp.persisters sg2 → ∀ cfg, persisted (TC.store cfg TC.GRP0 g) i = Ret x) as Hps.
  { intros g E1 E2 cfg. unfold persisted, TC.lookupGroup. simpl. rewrite lookup_insert_eq. simpl. rewrite E1, E2, Hi2. simpl.
    by rewrite Hp2, lookup_insert_eq. }
  assert (restart (mkTest (TC.store (config t) TC.GRP0 sg1) (checks t)) i names svcs =
    (let* ch := mksrv (checks t) i x in
     let* cfg := TC.on_group (TC.store (TC.store (config t) TC.GRP0 sg1) TC.GRP0 sg2) TC.GRP0 Grp.ConnectAll in
     Ret (mkTest cfg ch))%go) as Hrestart.
  { unfold restart. simpl. rewrite (on_stored_eq _ _ _ _ sg2) by done. simpl. by rewrite Hps by done. }
  rewrite Hrestart. case_decide as Hdec.
  { destruct Hdec as (Hd1 & Hd2 & Hd3). unfold loaded in Hmk. rewrite decide_True, Hd3 in Hmk by done. simpl in Hmk. by rewrite Hmk. }
  destruct (loaded (RT.snapshot (checks t)) x i) as [obj|] eqn:Hobj.
  2: { exfalso. apply Hdec. unfold loaded in Hobj. case_decide as Hd; [| done]. destruct Hd. split_and!; try done.
       by destruct (RT.dec _) as [[k xlog]|]. }
  destruct Hmk as (ch & Hch & Hc1 & Hc2 & _). rewrite Hch. simpl. rewrite (on_stored_eq _ _ _ _ sg3) by done. simpl.
  exists (mkTest (TC.store (TC.store (TC.store (config t) TC.GRP0 sg1) TC.GRP0 sg2) TC.GRP0 sg3) ch), sg3, obj.
  split_and!.
  - done.
  - intros Hs'. rewrite loaded_blank in Hobj by done. by injection Hobj as <-.
  - intros k xlog Hs' Hne Hd. rewrite Hs' in Hobj. by eapply loaded_snapshot.
  - unfold TC.lookupGroup. simpl. by rewrite lookup_insert_eq.
  - simpl. by apply Hps.
  - simpl. unfold server_at. rewrite C1. unfold server_at in Hat2. rewrite Hg1, Hg0 in Hat2. rewrite Hat2. by eexists.
  - exact Hl.
  - exact Hc1.
  - exact Hc2.
Qed.

End setup.

(** *** Witness: one of two servers *)

Definition two_test : GoRes Test := makeTest (H := RT.example_codec) true false TS.two_names TS.two_starts.
Definition two_group : option Grp.ServerGrp :=
  match two_test with Ret t => TC.lookupGroup (config t) TC.GRP0 | Abort _ => None end.

Lemma two_server : (two_group ≫= λ g, Grp.srvs g !! 0%nat) = Some (Grp.mkServer (Some 0%nat) [1%nat] ["b00"; "b01"]%string).
Proof. vm_compute. reflexivity. Qed.
Lemma two_persister : (two_group ≫= λ g, Grp.persisters g !! 0%nat) = Some Grp.MakePersister.
Proof. vm_compute. reflexivity. Qed.
Lemma two_fresh : go_bind two_test (λ t, Ret (bool_decide (Forall (λ e, e ∉ ends (TC.net (config t))) ["c00"; "c01"]%string))) = Ret true.
Proof. vm_compute. reflexivity. Qed.
Lemma two_objects : go_bind two_test (λ t, Ret (RT.srvs (checks t), length (RT.heap (checks t)))) = Ret ([Some 0%nat; Some 1%nat], 2%nat).
Proof. vm_compute. reflexivity. Qed.

Lemma restart_resumes_witness :
  ∃ t cfg1 t2, two_test = Ret t ∧
    TC.on_group (config t) TC.GRP0 (λ g, Grp.ShutdownServer g 0) = Ret cfg1 ∧
    restart (H := RT.example_codec) (mkTest cfg1 (checks t)) 0 ["c00"; "c01"]%string [7%nat] = Ret t2 ∧
    RT.srvs (checks t2) = [Some 2; Some 1]%nat.
Proof.
  destruct (makeTest_returns (H := RT.example_codec) true false TS.two_names TS.two_starts) as (t & sg & Ht & Htok & Hg & Hn & Hl & Hs).
  { exact TS.two_square. }
  { apply (bool_decide_unpack _). vm_compute. exact I. }
  assert (two_group = Some sg) as Hsg by (unfold two_group, two_test; rewrite Ht; exact Hg).
  pose proof two_server as H1. pose proof two_persister as H2. pose proof two_fresh as H3. pose proof two_objects as H4.
  rewrite Hsg in H1, H2. unfold two_test in H3, H4. rewrite Ht in H3, H4. cbn in H1, H2, H3, H4.
  injection H3 as H3. injection H4 as H4 H5. apply bool_decide_eq_true in H3. rewrite Forall_forall in H3.
  destruct (restart_resumes (H := RT.example_codec) t sg 0 _ 0 _ ["c00"; "c01"]%string [7%nat] Htok Hg
    ltac:(by rewrite Hl, Hn) H1 eq_refl H2 ltac:(by rewrite Hn) ltac:(by apply (bool_decide_unpack _)) H3)
    as (cfg1 & E1 & Hr). cbv zeta in Hr. rewrite decide_False in Hr by (rewrite Hs; by intros [? _]).
  destruct Hr as (t2 & sg2 & obj & E2 & _ & _ & _ & _ & _ & _ & E3 & _).
  exists t, cfg1, t2. split; [exact Ht |]. split; [exact E1 |]. split; [exact E2 |]. rewrite E3, H4, H5. reflexivity.
Defined.

End RaftSetup.
