(* ===== verification/RSM.v ===== *)
(** * Replicated state machines: [kvraft1/rsm]

    The interface [StateMachine] a service implements, the counter service of
    the tester ([server.go]) as an instance, and the tester's own loops
    ([test.go]).  [Submit] is a placeholder in [rsm.go]; what uses it takes it
    as an argument. *)

From S2P Require Import Prelude KVServer Raft Labrpc Labgob TesterGroup TesterClnts Annotation TesterConfig.
#[local] Open Scope Z_scope.

Module RSM.
Import KVServer Labgob.
Module Grp := TesterGroup.

(** ** The interface *)

(** [DoOp] executes an operation; [Restore] of what [Snapshot] returned brings
    back the state, whatever the state before. *)
Class StateMachine (St Req Rep Data : Type) := {
  sm_DoOp : St → Req → GoRes (St * Rep);
  sm_Snapshot : St → Data;
  sm_Restore : St → Data → GoRes St;
  sm_restored : ∀ s s', sm_Restore s' (sm_Snapshot s) = Ret s;
}.

(** ** The counter service *)

Inductive Request : Type := Inc | Null | Dec.
Inductive Reply : Type := IncRep (n : Z) | NullRep.

#[export] Instance Request_eq_dec : EqDecision Request.
Proof. solve_decision. Defined.

(** [rsmSrv.DoOp] on [rs.counter], an [int]. *)
Definition DoOp (counter : Z) (req : Request) : GoRes (Z * Reply) :=
  match req with
  | Inc => let counter := int64 (counter + 1) in Ret (counter, IncRep counter)
  | Null => Ret (counter, NullRep)
  | Dec => Abort "DoOp should execute only Inc"
  end.

(** The data is a gob stream: the value it starts with, if any. *)
Definition Snapshot (counter : Z) : option Val := Some (VBasic "int" counter).

(** [Restore]: decoding fails at the end of the data and for a value of
    another type.  The counter and labgob's warnings. *)
Definition Restore `{Gob} (upper : string → bool) (counter : Z) (data : option Val) (st : Warnings) : GoRes (Z * Warnings) :=
  match data with
  | Some (VBasic "int" v) =>
      (let* r := Decode upper (VBasic "int" v) (VBasic "int" counter) st in
       match r with
       | (VPtr (Some (VBasic _ n)), st) => Ret (n, st)
       | _ => Abort "couldn't decode counter"
       end)%go
  | _ => Abort "couldn't decode counter"
  end.

(** A counter restored over another one is that of the snapshot; only the
    warnings tell the difference. *)
Lemma Restore_Snapshot `{Gob} upper c c' st :
  Restore upper c' (Snapshot c) st = Ret (c, if decide (c' = 0) then st else warn "int" st).
Proof. unfold Restore, Snapshot, Decode. simpl. by rewrite gob_ptr, gob_basic. Qed.

Definition restore_counter `{Gob} (upper : string → bool) (c : Z) (d : option Val) : GoRes Z :=
  (let* (c, _) := Restore upper c d (mkWarnings 0 []) in Ret c)%go.

Lemma restore_counter_snapshot `{Gob} upper c c' : restore_counter upper c' (Snapshot c) = Ret c.
Proof. unfold restore_counter. by rewrite Restore_Snapshot. Qed.

Definition rsmSrv_machine `{Gob} (upper : string → bool) : StateMachine Z Request Reply (option Val) := {|
  sm_DoOp := DoOp;
  sm_Snapshot := Snapshot;
  sm_Restore := restore_counter upper;
  sm_restored := restore_counter_snapshot upper;
|}.

(** *** Servers *)

(** [RSM]; its mutex, its channel and the state machine it calls are not part
    of the state.  [rf] is nil when another Raft is to be plugged in. *)
Record RSM := mkRSM { rsm_me : nat; rsm_maxraftstate : Z; rf : option Raft.Raft }.

(** [MakeRSM] with [npeers] ends; [raftstate] is what the persister holds, [r]
    the random number [raft.Make] draws. *)
Definition MakeRSM (useRaftStateMachine : bool) (npeers : nat) (srv : nat) (raftstate : list Z) (maxraftstate r : Z) : RSM :=
  mkRSM srv maxraftstate (if useRaftStateMachine then None else Some (Raft.Make npeers (Z.of_nat srv) raftstate r)).
Definition RSM_Raft (rsm : RSM) : option Raft.Raft := rf rsm.

(** [rs.rsm] (nil once killed) and the counter. *)
Record rsmSrv := mkRsmSrv { me : nat; rsm : option RSM; counter : Z }.
Definition makeRsmSrv (npeers srv : nat) (raftstate : list Z) (maxraftstate r : Z) : rsmSrv :=
  mkRsmSrv srv (Some (MakeRSM false npeers srv raftstate maxraftstate r)) 0.
Definition Kill (rs : rsmSrv) : rsmSrv := mkRsmSrv (me rs) None (counter rs).
Definition rsmSrv_Raft (rs : rsmSrv) : GoRes (option Raft.Raft) :=
  (let* rsm := deref (rsm rs) "nil pointer dereference" in Ret (RSM_Raft rsm))%go.

(** ** The tester *)

(** [p == nil] allows every server. *)
Fixpoint in_list (s : nat) (p : list nat) : bool :=
  match p with [] => false | i :: p => if decide (s = i) then true else in_list s p end.
Definition inPartition (s : nat) (p : option (list nat)) : bool :=
  match p with None => true | Some p => in_list s p end.

Lemma inPartition_spec s p : inPartition s p = true ↔ ∀ l, p = Some l → s ∈ l.
Proof.
  destruct p as [l|]; simpl; [| naive_solver]. trans (s ∈ l); [| naive_solver]. induction l as [|i l IH]; simpl.
  - split; [done | by intros ?%not_elem_of_nil].
  - rewrite elem_of_cons. case_decide; naive_solver.
Qed.

Section submit.
(** [Submit] of server [i], on the state [W] of the servers. *)
Context {W Req Rep : Type} (submit : nat → Req → W → W * (Err * option Rep)).
(** Whether server [i] is connected and its [rsm] is not nil. *)
Context (connected running : nat → bool) (n : nat).

(** The inner loop of [onePartition], from server [index] on, [k] times: the
    servers' state, [ts.leader] and the value returned. *)
Fixpoint try_servers (p : option (list nat)) (req : Req) (index k leader : nat) (w : W) : W * nat * option (option Rep) :=
  match k with
  | O => (w, leader, None)
  | S k =>
      let next := Nat.modulo (index + 1) n in
      if connected index then
        if running index && inPartition index p then
          let '(w, (err, rep)) := submit index req w in
          if decide (err = OK) then (w, index, Some rep) else try_servers p req next k leader w
        else try_servers p req next k leader w
      else try_servers p req next k leader w
  end.

(** [onePartition] goes round [rounds] times before the ten seconds are up. *)
Fixpoint onePartition (rounds : nat) (p : option (list nat)) (req : Req) (leader : nat) (w : W) : W * nat * option Rep :=
  match rounds with
  | O => (w, leader, None)
  | S rounds =>
      let '(w, leader, res) := try_servers p req leader n leader w in
      match res with
      | Some rep => (w, leader, rep)
      | None => onePartition rounds p req leader w
      end
  end.

(** Servers that refuse are passed over without effect, up to the one that
    answers. *)
Lemma try_servers_finds p req l w w' rep leader :
  (l < n)%nat → connected l = true → running l = true → inPartition l p = true →
  submit l req w = (w', (OK, rep)) →
  (∀ i, i ≠ l → ∃ err rep, submit i req w = (w, (err, rep)) ∧ err ≠ OK) →
  ∀ d index, (index < n)%nat → Nat.modulo (index + d) n = l → (d < n)%nat →
  ∀ k, (d < k)%nat → try_servers p req index k leader w = (w', l, Some rep).
Proof.
  intros Hl Hc Hr Hp Hs Hno. induction d as [|d IH]; intros index Hi Hd Hdn k Hk; (destruct k as [|k]; [lia |]); simpl.
  - rewrite Nat.add_0_r, Nat.mod_small in Hd by done. subst. by rewrite Hc, Hr, Hp, Hs.
  - assert (index ≠ l) as Hne.
    { intros ->. destruct (decide (l + S d < n)%nat) as [Hlt|Hge]; [rewrite Nat.mod_small in Hd by done; lia |].
      replace (l + S d)%nat with (l + S d - n + 1 * n)%nat in Hd by lia. rewrite Nat.Div0.mod_add, Nat.mod_small in Hd by lia. lia. }
    assert (try_servers p req ((index + 1) mod n) k leader w = (w', l, Some rep)) as Hrec.
    { apply IH; [apply Nat.mod_upper_bound; lia | | lia | lia].
      rewrite Nat.Div0.add_mod_idemp_l. by replace (index + 1 + d)%nat with (index + S d)%nat by lia. }
    destruct (Hno index Hne) as (err & rep' & Hsub & Herr). rewrite Hsub.
    destruct (connected index), (running index && inPartition index p); rewrite ?decide_False by done; done.
Qed.

Lemma try_servers_none p req w : (∀ i, ∃ err rep, submit i req w = (w, (err, rep)) ∧ err ≠ OK) →
  ∀ k index leader, try_servers p req index k leader w = (w, leader, None).
Proof.
  intros Hno. induction k as [|k IH]; intros index leader; simpl; [done |].
  destruct (Hno index) as (err & rep & Hs & He). rewrite Hs.
  destruct (connected index), (running index && inPartition index p); rewrite ?decide_False by done; apply IH.
Qed.

End submit.

(** [Submit] as it is in [rsm.go]. *)
Definition Submit {W Req Rep : Type} (i : nat) (req : Req) (w : W) : W * (Err * option Rep) := (w, (ErrWrongLeader, None)).

Section one.
Context {W : Type} (submit : nat → Request → W → W * (Err * option Reply)) (connected running : nat → bool) (n : nat).

(** [oneInc] and [oneNull]: no reply, or one of the type that is asked for. *)
Definition oneInc (rounds leader : nat) (w : W) : GoRes (W * nat * option Z) :=
  let '(w, leader, rep) := onePartition submit connected running n rounds None Inc leader w in
  match rep with
  | None => Ret (w, leader, None)
  | Some (IncRep v) => Ret (w, leader, Some v)
  | Some NullRep => Abort "interface conversion"
  end.
Definition oneNull (rounds leader : nat) (w : W) : GoRes (W * nat * option ()) :=
  let '(w, leader, rep) := onePartition submit connected running n rounds None Null leader w in
  match rep with
  | None => Ret (w, leader, None)
  | Some NullRep => Ret (w, leader, Some ())
  | Some (IncRep _) => Abort "interface conversion"
  end.
End one.

Definition countValue (srvs : list rsmSrv) (v : Z) : nat := length (filter (λ s, counter s = v) srvs).

(** [checkCounter]: [srvs i] are the servers as the [i]th round finds them. *)
Fixpoint checkCounter_from (srvs : nat → list rsmSrv) (v : Z) (nsrv : nat) (i iters n : nat) : GoRes () :=
  match iters with
  | O => Abort ("checkCounter: only " +:+ pretty n +:+ " srvs have " +:+ Itoa v +:+ " instead of " +:+ pretty nsrv)
  | S iters =>
      let n := countValue (srvs i) v in
      if decide (nsrv ≤ n)%nat then Ret () else checkCounter_from srvs v nsrv (S i) iters n
  end.
Definition checkCounter (srvs : nat → list rsmSrv) (v : Z) (nsrv : nat) : GoRes () :=
  checkCounter_from srvs v nsrv 0 30 0.

Lemma checkCounter_spec srvs v nsrv iters : ∀ i n,
  checkCounter_from srvs v nsrv i iters n = Ret () ↔ ∃ j, (i ≤ j < i + iters)%nat ∧ (nsrv ≤ countValue (srvs j) v)%nat.
Proof.
  induction iters as [|iters IH]; intros i n; simpl; [split; [done | intros (j & ? & _); lia] |].
  case_decide as Hd; [split; [intros _; exists i; split; [lia | done] | done] |]. rewrite IH. split; intros (j & Hj & Hn).
  - exists j. split; [lia | done].
  - exists j. split; [| done]. destruct (decide (j = i)) as [->|]; [done | lia].
Qed.

(** *** Setting up *)

Definition NSRV : nat := 3.

(** [srvs] has a nil entry for a server that was never started. *)
Record Test := mkTest { config : TesterConfig.Config; test_maxraftstate : Z; srvs : list (option rsmSrv); leader : nat }.

(** [mksrv], called when server [srv] is started or restarted: the table of
    servers and the services of the new instance, of which the tester will
    kill the Raft but not the [rsmSrv]. *)
Definition mksrv (maxraftstate : Z) (srvs : list (option rsmSrv)) (npeers srv : nat) (raftstate : list Z) (r : Z)
    : GoRes (list (option rsmSrv) * list (option Raft.Raft)) :=
  let s := makeRsmSrv npeers srv raftstate maxraftstate r in
  if decide (srv < length srvs)%nat then
    (let* raft := rsmSrv_Raft s in Ret (<[srv := Some s]> srvs, [raft]))%go
  else Abort "index out of range".

(** The calls of [mksrv] while the servers of a new group are started, with
    the random number of each. *)
Fixpoint start_all (maxraftstate : Z) (srvs : list (option rsmSrv)) (npeers i : nat) (rs : list Z) : GoRes (list (option rsmSrv)) :=
  match rs with
  | [] => Ret srvs
  | r :: rs => (let* (srvs, _) := mksrv maxraftstate srvs npeers i [] r in start_all maxraftstate srvs npeers (S i) rs)%go
  end.

(** [makeTest]; [names] and [starts] are the names of ends, [rs] the random
    numbers of the servers. *)
Definition makeTest (maxraftstate : Z) (names : list (list string)) (starts : list (list string * list nat)) (rs : list Z) : GoRes Test :=
  (let* srvs := start_all maxraftstate (replicate NSRV None) NSRV 0 rs in
   let* cfg := TesterConfig.MakeConfig true names starts in
   Ret (mkTest cfg maxraftstate srvs 0))%go.

(** Restarting a server forgets its counter; killed or not, an entry is
    never nil again, so [onePartition] always finds [s.rsm] there. *)
Lemma start_all_spec maxraftstate npeers rs : ∀ srvs i,
  (i + length rs = length srvs)%nat →
  start_all maxraftstate srvs npeers i rs =
    Ret (take i srvs ++ imap (λ j r, Some (makeRsmSrv npeers (i + j) [] maxraftstate r)) rs).
Proof.
  induction rs as [|r rs IH]; intros srvs i Hl; simpl.
  - rewrite app_nil_r, take_ge by (simpl in Hl; lia). done.
  - unfold mksrv. rewrite decide_True by (simpl in Hl; lia). simpl. rewrite IH by (rewrite length_insert; simpl in Hl; lia).
    f_equal. rewrite (take_S_r _ _ (Some (makeRsmSrv npeers i [] maxraftstate r)))
      by (apply list_lookup_insert_eq; simpl in Hl; lia).
    rewrite take_insert_ge by lia. rewrite <- app_assoc. simpl. rewrite Nat.add_0_r. do 2 f_equal.
    apply imap_ext. intros j r' _. simpl. do 2 f_equal. lia.
Qed.

(** [cleanup] *)
Definition cleanup (t1 t2 : Z) (enabled : string) (opened : bool) (order : list string) (failed : bool) (elapsed : Z)
    (ts : Test) (g : Annotation.Global) : GoRes (TesterConfig.Config * Annotation.Global * option (list Annotation.Annot)) :=
  (let* _ := TesterConfig.End_ (config ts) failed elapsed in
   let* r := TesterConfig.Cleanup t1 t2 enabled opened order failed elapsed (config ts) g in
   let* _ := TesterConfig.CheckTimeout failed elapsed in Ret r)%go.

Definition disconnectLeader (g : Grp.ServerGrp) (leader : nat) : GoRes (Grp.ServerGrp * nat) :=
  (let* g := Grp.DisconnectAll g leader in Ret (g, leader))%go.
Definition connect (g : Grp.ServerGrp) (i : nat) : GoRes Grp.ServerGrp := Grp.ConnectOne g i.

(** [Leader]: each service is a Raft that is leader or not, or [None] for
    another service. *)
Fixpoint Leader_from (i : nat) (services : list (list (option bool))) : bool * nat :=
  match services with
  | [] => (false, 0%nat)
  | ss :: services => if decide (Some true ∈ ss) then (true, i) else Leader_from (S i) services
  end.
Definition Leader (services : list (list (option bool))) : bool * nat := Leader_from 0 services.

(** ** The properties *)

(** A request of the tester is executed exactly once: when one server
    answers [OK] and the others refuse without effect, [onePartition] finds it
    from any server it starts with, returns its answer and remembers it, if
    the server is connected, running and in the partition.  With the
    [Submit] of the repository it returns nil. *)
Theorem onePartition_once {W Req Rep : Type} (submit : nat → Req → W → W * (Err * option Rep))
    (connected running : nat → bool) (n rounds leader l : nat) (p : option (list nat)) (req : Req) (w w' : W) (rep : option Rep)
    (Hl : (l < n)%nat) (Hlead : (leader < n)%nat) (Hc : connected l = true) (Hrun : running l = true) (Hp : inPartition l p = true)
    (Hs : submit l req w = (w', (OK, rep)))
    (Hno : ∀ i, i ≠ l → ∃ err rep, submit i req w = (w, (err, rep)) ∧ err ≠ OK) :
  onePartition submit connected running n (S rounds) p req leader w = (w', l, rep) ∧
  ∀ rounds, onePartition (Rep := Rep) Submit connected running n rounds p req leader w = (w, leader, None).
Proof.
  split.
  - simpl. erewrite (try_servers_finds submit connected running n p req l w w' rep leader Hl Hc Hrun Hp Hs Hno
      (if decide (leader ≤ l)%nat then l - leader else n + l - leader)%nat leader Hlead); [done | | |].
    + case_decide; [replace (leader + (l - leader))%nat with l by lia; by apply Nat.mod_small |].
      replace (leader + (n + l - leader))%nat with (l + 1 * n)%nat by lia. by rewrite Nat.Div0.mod_add, Nat.mod_small.
    + case_decide; lia.
    + case_decide; lia.
  - clear. intros rounds. induction rounds as [|r IH]; simpl; [done |].
    rewrite (try_servers_none Submit); [exact IH |]. intros i. by exists ErrWrongLeader, None.
Qed.

(** *** Witnesses *)

Lemma onePartition_once_witness :
  onePartition (λ i (req : Request) (w : Z), if decide (i = 1%nat) then (w + 1, (OK, Some (w + 1))) else (w, (ErrWrongLeader, None)))
    (λ _, true) (λ _, true) 3 2 (Some [1; 2]%nat) Inc 2 5 = (6, 1%nat, Some 6).
Proof.
  apply (onePartition_once (λ i (req : Request) (w : Z),
           if decide (i = 1%nat) then (w + 1, (OK, Some (w + 1))) else (w, (ErrWrongLeader, None)))
           (λ _, true) (λ _, true) 3 1 2 1 (Some [1; 2]%nat) Inc 5 6 (Some 6)); try lia; try reflexivity.
  intros i Hi. rewrite decide_False by exact Hi. exists ErrWrongLeader, None. split; [reflexivity | discriminate].
Defined.

End RSM.
