(* ===== verification/ShardTest.v ===== *)
(** * The tests of the sharded store: [shardkv1/test.go], [shardctrler.go]

    The tester of the sharded store makes groups of servers join and leave
    through a shard controller.  The controller of the repository is a
    placeholder ([stub_ctrler]); the tester's functions are modelled over any
    controller ([Ctrler]), and the theorems use what the comments of
    [shardctrler.go] ask of one ([CtrlerSpec]).  [kv_ctrler] is a controller
    that follows those comments: it keeps the configuration as a string in a
    key/value server.  What the tests do with controllers that run at the same
    time is in [ShardCtl], [ShardConcur] and [ShardPartition]. *)

From S2P Require Import Prelude KVServer ShardCfg Labrpc TesterGroup TesterClnts TesterConfig TesterSystem RSM.
#[local] Open Scope Z_scope.

Module ShardTest.
Import ShardCfg.
Module TC := TesterConfig.
Module TS := TesterSystem.

(** ** Controllers *)

(** The methods of [ShardCtrler], on the state [D] that controllers share:
    what they keep in the key/value server.  [Query] can return nil. *)
Class Ctrler (D : Type) := {
  InitController : D → GoRes D;
  InitConfig : D → ShardConfig → GoRes D;
  ChangeConfigTo : D → ShardConfig → GoRes D;
  Query : D → GoRes (option ShardConfig);
}.

(** The methods as they are in the repository. *)
Definition Stub_InitController {D : Type} (sck : D) : GoRes D := Ret sck.
Definition Stub_InitConfig {D : Type} (sck : D) (cfg : ShardConfig) : GoRes D := Ret sck.
Definition Stub_ChangeConfigTo {D : Type} (sck : D) (new : ShardConfig) : GoRes D := Ret sck.
Definition Stub_Query {D : Type} (sck : D) : GoRes (option ShardConfig) := Ret None.

Definition stub_ctrler (D : Type) : Ctrler D := {|
  InitController := Stub_InitController;
  InitConfig := Stub_InitConfig;
  ChangeConfigTo := Stub_ChangeConfigTo;
  Query := Stub_Query;
|}.

(** A configuration that can be written down. *)
Definition storable (c : ShardConfig) : Prop := map_Forall (λ _ srvs, Forall printable srvs) (Groups c).

(** What the tester relies on when one controller runs at a time: [InitConfig]
    supplies the first configuration, [ChangeConfigTo] moves on to the next
    one, [Query] returns the current one, recovery changes nothing. *)
Class CtrlerSpec (D : Type) `{!Ctrler D} := {
  ctl_ok : D → Prop;
  holds : D → option ShardConfig;
  Query_spec : ∀ d, ctl_ok d → Query d = Ret (holds d);
  InitController_spec : ∀ d, ctl_ok d → ∃ d', InitController d = Ret d' ∧ ctl_ok d' ∧ holds d' = holds d;
  InitConfig_spec : ∀ d c, ctl_ok d → holds d = None → storable c →
    ∃ d', InitConfig d c = Ret d' ∧ ctl_ok d' ∧ holds d' = Some c;
  ChangeConfigTo_spec : ∀ d c0 c, ctl_ok d → holds d = Some c0 → storable c → Num c = int64 (Num c0 + 1) →
    ∃ d', ChangeConfigTo d c = Ret d' ∧ ctl_ok d' ∧ holds d' = Some c;
}.

(** *** A controller on a key/value server *)

Section kv_ctrler.
Context {S : Type} `{VStore S} `{ConfigJson}.

Definition config_key : string := "config".

Definition kv_Query (s : S) : GoRes (option ShardConfig) :=
  let rep := vs_Get s (mkGetArgs config_key) GetReply_zero in
  if decide (GetReply_Err rep = OK) then
    (let* c := FromString (GetReply_Value rep) in Ret (Some c))%go
  else Ret None.

Definition kv_InitConfig (s : S) (c : ShardConfig) : GoRes S :=
  (let* b := String_ c in Ret (vs_Put s (mkPutArgs config_key b 0) PutReply_zero).1)%go.

Definition kv_ChangeConfigTo (s : S) (c : ShardConfig) : GoRes S :=
  (let* b := String_ c in
   let rep := vs_Get s (mkGetArgs config_key) GetReply_zero in
   Ret (vs_Put s (mkPutArgs config_key b (GetReply_Version rep)) PutReply_zero).1)%go.

#[local] Instance kv_ctrler : Ctrler S := {|
  InitController s := Ret s;
  InitConfig := kv_InitConfig;
  ChangeConfigTo := kv_ChangeConfigTo;
  Query := kv_Query;
|}.

Definition kv_holds (s : S) : option ShardConfig :=
  match vs_abs s !! config_key with Some (b, _) => json_Unmarshal b | None => None end.
Definition kv_ok (s : S) : Prop :=
  vs_ok s ∧ ∀ b n, vs_abs s !! config_key = Some (b, n) → is_Some (json_Unmarshal b).

(** Putting a configuration at the version the server has. *)
Lemma kv_put s c b n :
  kv_ok s → String_ c = Ret b → FromString b = Ret c → ver_of (vs_abs s) config_key = n →
  let s' := (vs_Put s (mkPutArgs config_key b n) PutReply_zero).1 in kv_ok s' ∧ kv_holds s' = Some c.
Proof.
  intros [Hok Hu] Hs Hf Hn s'. destruct (vs_Put_cases s config_key b n Hok) as (Hok' & [(_ & _ & E)|(Hne & _)]); [| done].
  apply deref_Ret_inv in Hf. unfold kv_ok, kv_holds. fold s' in E. rewrite E, lookup_insert_eq.
  split; [| done]. split; [done |]. intros b' n' [= <- _]. rewrite Hf. by eexists.
Qed.

#[local] Program Instance kv_ctrler_spec : CtrlerSpec S := {| ctl_ok := kv_ok; holds := kv_holds |}.
Next Obligation.
  intros s [Hok Hu]. unfold Query, kv_ctrler, kv_Query, kv_holds. rewrite vs_Get_spec by done. unfold KVServer.spec_get.
  destruct (vs_abs s !! config_key) as [[b n]|] eqn:E; simpl.
  - destruct (Hu b n eq_refl) as [c Hc]. unfold FromString. by rewrite Hc.
  - done.
Qed.
Next Obligation. intros s Hok. by exists s. Qed.
Next Obligation.
  intros s c Hok Hn Hp. destruct (FromString_String c Hp) as (b & Hs & Hf). simpl. unfold kv_InitConfig. rewrite Hs. simpl.
  eexists. split; [done |]. apply (kv_put s c); try done. destruct Hok as [_ Hu]. unfold kv_holds in Hn. unfold ver_of.
  destruct (vs_abs s !! config_key) as [[b' n]|] eqn:E; [| done]. destruct (Hu b' n eq_refl). congruence.
Qed.
Next Obligation.
  intros s c0 c Hok Hh Hp _. destruct (FromString_String c Hp) as (b & Hs & Hf). simpl. unfold kv_ChangeConfigTo. rewrite Hs. simpl.
  eexists. split; [done |]. apply (kv_put s c); try done. rewrite vs_Get_spec by apply Hok. unfold KVServer.spec_get, ver_of.
  by destruct (vs_abs s !! config_key) as [[b' n]|].
Qed.

End kv_ctrler.

(** ** The tester *)

Definition NSRV : nat := 3.

(** Random names for a group: of the ends its servers are made with, and of
    the ends each is started with, with the services started. *)
Definition Draw : Type := list (list string) * list (list string * list nat).
Definition drawn (nm : Draw) : list string := concat nm.1 ++ concat nm.2.*1.
Definition draw_for (n : nat) (nm : Draw) : Prop := length nm.1 = n ∧ TS.square nm.1 nm.2.

Section tester.
Context {D : Type} `{!Ctrler D}.

(** [sck] is the client of the test's controller, [ctl] what controllers
    share. *)
Record Test := mkTest {
  partition : bool; maxraftstate : Z; ngid : Z;
  sck : option nat; config : TC.Config; ctl : D
}.

Definition set_config (ts : Test) (cfg : TC.Config) : Test :=
  mkTest (partition ts) (maxraftstate ts) (ngid ts) (sck ts) cfg (ctl ts).
Definition set_ctl (ts : Test) (d : D) : Test :=
  mkTest (partition ts) (maxraftstate ts) (ngid ts) (sck ts) (config ts) d.

Definition MakeTestMaxRaft (reliable part : bool) (maxraft : Z) (nm : Draw) (d : D) : GoRes Test :=
  (let* cfg := TC.MakeConfig reliable nm.1 nm.2 in
   Ret (mkTest part maxraft (Gid1 + 1) None (TC.Begin cfg) d))%go.
Definition MakeTest (reliable : bool) : Draw → D → GoRes Test := MakeTestMaxRaft reliable false (-1).
Definition MakeTestLeases (reliable : bool) : Draw → D → GoRes Test := MakeTestMaxRaft reliable true (-1).

(** A client that may call every server; its number. *)
Definition makeShardCtrlerClnt (ts : Test) : GoRes (Test * nat) :=
  (let* cs := TC.Cl.MakeClient (TC.load_clnts (config ts)) in
   let cfg := config ts in
   Ret (set_config ts (TC.mkConfig (TC.Cl.net cs) (TC.ptr cfg) (TC.grps cfg) cs (TC.rpcs0 cfg) (TC.ops cfg)),
        length (TC.Cl.clnts (TC.clnts cfg))))%go.
Definition makeShardCtrler (ts : Test) : GoRes (Test * nat) := makeShardCtrlerClnt ts.

(** [newGid], under the lock. *)
Definition newGid (ts : Test) : Test * Z :=
  (mkTest (partition ts) (maxraftstate ts) (int64 (ngid ts + 1)) (sck ts) (config ts) (ctl ts), ngid ts).

Fixpoint groups (ts : Test) (n : nat) : Test * list Z :=
  match n with
  | O => (ts, [])
  | S n => let '(ts, gid) := newGid ts in let '(ts, grps) := groups ts n in (ts, gid :: grps)
  end.

(** [ts.Group(gid).SrvNames()] *)
Definition group_names (ts : Test) (gid : Z) : GoRes (list string) :=
  (let* sg := deref (TC.lookupGroup (config ts) gid) "nil pointer dereference" in Ret (TC.SrvNames sg))%go.

(** [setupKVService]; the result of [JoinBalance] is not looked at. *)
Definition setupKVService (ts : Test) (nm : Draw) : GoRes (Test * Z) :=
  (let* (ts, clnt) := makeShardCtrler ts in
   let ts := mkTest (partition ts) (maxraftstate ts) (ngid ts) (Some clnt) (config ts) (ctl ts) in
   let* cfg := TC.MakeGroupStart (config ts) Gid1 nm.1 nm.2 in
   let ts := set_config ts cfg in
   let* names := group_names ts Gid1 in
   let* (scfg, _) := JoinBalance MakeShardConfig [(Gid1, names)] in
   let* d := InitConfig (ctl ts) scfg in
   Ret (set_ctl ts d, Gid1))%go.

(** [cfg := sck.Query()] with a method called on the result. *)
Definition query (d : D) : GoRes ShardConfig :=
  (let* cfg := Query d in deref cfg "nil pointer dereference")%go.

Definition checkMember (d : D) (gid : Z) : GoRes bool :=
  (let* cfg := query d in Ret (IsMember cfg gid))%go.

Definition join (d : D) (gid : Z) (srvs : list string) : GoRes D :=
  (let* cfg := query d in
   let newcfg := Copy cfg in
   let* (newcfg, ok) := JoinBalance newcfg [(gid, srvs)] in
   if (ok : bool) then ChangeConfigTo d newcfg else Abort "join: group is already present")%go.

Definition leave (d : D) (gid : Z) : GoRes D :=
  (let* cfg := query d in
   let newcfg := Copy cfg in
   let* (newcfg, ok) := LeaveBalance newcfg [gid] in
   if (ok : bool) then ChangeConfigTo d newcfg else Abort "leave: group is already not present")%go.

Fixpoint joinGroups (ts : Test) (gids : list (Z * Draw)) : GoRes (Test * bool) :=
  match gids with
  | [] => Ret (ts, true)
  | (gid, nm) :: gids =>
      (let* cfg := TC.MakeGroupStart (config ts) gid nm.1 nm.2 in
       let ts := set_config ts cfg in
       let* names := group_names ts gid in
       let* d := join (ctl ts) gid names in
       let ts := set_ctl ts d in
       let* ok := checkMember (ctl ts) gid in
       if (ok : bool) then joinGroups ts gids else Ret (ts, false))%go
  end.

Fixpoint leaveGroups (ts : Test) (gids : list Z) : GoRes (Test * bool) :=
  match gids with
  | [] => Ret (ts, true)
  | gid :: gids =>
      (let* d := leave (ctl ts) gid in
       let ts := set_ctl ts d in
       let* ok := checkMember (ctl ts) gid in
       if (ok : bool) then Ret (ts, false)
       else
         let* cfg := TC.ExitGroup (config ts) gid in
         leaveGroups (set_config ts cfg) gids)%go
  end.

(** [disconnectClntFromLeader]: [services] are the group's services, see
    [RSM.Leader]. *)
Definition disconnectClntFromLeader (ts : Test) (gid : Z) (services : list (list (option bool))) : GoRes (Test * nat) :=
  let '(ok, l) := RSM.Leader services in
  if (ok : bool) then
    (let* cfg := TC.on_group (config ts) gid (λ sg, TC.Grp.ShutdownServer sg l) in Ret (set_config ts cfg, l))%go
  else Abort "Leader failed".

(** What a test does with groups: new groups join, groups leave. *)
Inductive Act : Type :=
| AJoin (nms : list Draw)
| ALeave (gids : list Z).

Definition perform (ts : Test) (a : Act) : GoRes (Test * bool) :=
  match a with
  | AJoin nms => let '(ts, gids) := groups ts (length nms) in joinGroups ts (zip gids nms)
  | ALeave gids => leaveGroups ts gids
  end.

(** A test stops when a step fails. *)
Fixpoint session (ts : Test) (acts : list Act) : GoRes (Test * bool) :=
  match acts with
  | [] => Ret (ts, true)
  | a :: acts => (let* (ts, ok) := perform ts a in if (ok : bool) then session ts acts else Ret (ts, false))%go
  end.

End tester.
Arguments Test : clear implicits.

(** ** Configurations of the tester's groups *)

Definition grp_names (gid : Z) : list string := TC.Grp.ServerName gid <$> seq 0 NSRV.

(** A configuration of exactly the groups [gids]. *)
Record good (c : ShardConfig) (gids : list Z) : Prop := {
  good_wf : wf c;
  good_nodup : NoDup gids;
  good_groups : ∀ g, Groups c !! g = if decide (g ∈ gids) then Some (grp_names g) else None;
  good_pos : ∀ g, g ∈ gids → 0 < g;
  good_none : gids = [] → ∀ g, g ∈ Shards c → g = 0;
  good_some : gids ≠ [] → assigned c ∧ balanced c;
}.

Lemma printable_app s1 s2 : printable s1 → printable s2 → printable (s1 +:+ s2).
Proof.
  unfold printable. intros H1 H2. induction s1 as [|a s1 IH]; [done |]. rewrite string_app_cons.
  apply Forall_cons in H1 as [Ha H1]. apply Forall_cons. split; [done | by apply IH].
Qed.

Lemma digits_printable s : digits s → printable s.
Proof.
  induction s as [|a s IH]; simpl; [constructor |]. intros [Ha Hs]. apply Forall_cons. split; [lia | by apply IH].
Qed.

Lemma ServerName_printable g i : 0 ≤ g → printable (TC.Grp.ServerName g i).
Proof.
  intros Hg. unfold TC.Grp.ServerName. repeat apply printable_app; try (apply digits_printable, Itoa_digits; lia);
    repeat constructor; vm_compute; done.
Qed.

Lemma good_lookup c gids g : good c gids → is_Some (Groups c !! g) ↔ g ∈ gids.
Proof. intros Hg. rewrite (good_groups _ _ Hg). case_decide; split; try done; by eexists || by intros [? ?]. Qed.

Lemma good_storable c gids : good c gids → storable c.
Proof.
  intros Hg g srvs Hs. pose proof (good_pos _ _ Hg g) as Hp. rewrite (good_groups _ _ Hg) in Hs. case_decide; [| done].
  injection Hs as <-. apply Forall_fmap, Forall_forall. intros i _. apply ServerName_printable. specialize (Hp ltac:(done)). lia.
Qed.

Lemma good_distinct c gids g : good c gids → servers_distinct (<[g := grp_names g]> (Groups c)).
Proof.
  intros Hg g1 g2 l1 l2 s H1 H2 Hs1 Hs2.
  assert (∀ h l, <[g := grp_names g]> (Groups c) !! h = Some l → l = grp_names h) as Hn.
  { intros h l. rewrite lookup_insert. case_decide as Hd; [intros [= <-]; by subst |].
    rewrite (good_groups _ _ Hg). case_decide; congruence. }
  apply Hn in H1 as ->. apply Hn in H2 as ->. apply list_elem_of_fmap in Hs1 as (i & -> & _).
  apply list_elem_of_fmap in Hs2 as (j & E & _). by apply TC.Grp.ServerName_inj in E as [-> _].
Qed.

Lemma good_size c gids : good c gids → size (Groups c) = length gids.
Proof.
  intros Hg. rewrite <- size_dom, <- (size_list_to_set (C := gset Z) gids (good_nodup _ _ Hg)). f_equal.
  apply set_eq. intros g. rewrite elem_of_dom, elem_of_list_to_set. by apply good_lookup.
Qed.

Lemma good_checks c gids : good c gids → CheckConfig c gids = Ret tt.
Proof.
  intros Hg. apply CheckConfig_ok.
  - apply Hg.
  - intros g. by apply good_lookup.
  - apply Hg.
  - intros Hne. apply (good_some _ _ Hg). intros ->. apply Hne, map_eq. intros g.
    rewrite (good_groups _ _ Hg), lookup_empty. by rewrite decide_False by apply not_elem_of_nil.
Qed.

(** A group is a member when it has joined and there are enough shards. *)
Lemma good_member c gids g :
  good c gids → (length gids ≤ NShards)%nat → 0 < g → IsMember c g = bool_decide (g ∈ gids).
Proof.
  intros Hg Hl Hp. case_bool_decide as Hin.
  - destruct (good_some _ _ Hg) as [Ha Hb]; [by intros ->; apply not_elem_of_nil in Hin |].
    apply balanced_member; [apply Hg | done | done | by rewrite (good_size _ gids) | by apply (good_lookup _ gids)].
  - apply not_true_is_false. rewrite IsMember_spec. intros Hs. destruct (decide (gids = [])) as [E|E].
    + pose proof (good_none _ _ Hg E g Hs). lia.
    + destruct (good_some _ _ Hg E) as [Ha _]. by apply Hin, (good_lookup c), Ha.
Qed.

Lemma good_rebalanced c0 c gids :
  NoDup gids → (∀ g, Groups c0 !! g = if decide (g ∈ gids) then Some (grp_names g) else None) → (∀ g, g ∈ gids → 0 < g) →
  rebalanced c0 c → good c gids.
Proof.
  intros Hnd Hl Hp (_ & Hg & Hw & H0 & H1). split; try done.
  - by rewrite Hg.
  - intros ->. apply H0, map_eq. intros g. rewrite Hl, lookup_empty. by rewrite decide_False by apply not_elem_of_nil.
  - intros Hne. apply H1. intros E. destruct gids as [|g gids]; [done |].
    specialize (Hl g). rewrite E, lookup_empty, decide_True in Hl by (by left). done.
Qed.

(** [JoinBalance] with a new group of the tester. *)
Lemma good_join c gids g :
  good c gids → g ∉ gids → 0 < g →
  ∃ c', JoinBalance c [(g, grp_names g)] = Ret (c', true) ∧ good c' (g :: gids) ∧ Num c' = int64 (Num c + 1) ∧
    (gids ≠ [] → IsMember c' g = bool_decide (length gids < NShards)%nat).
Proof.
  intros Hg Hn Hp. assert (Groups c !! g = None) as Hnone.
  { rewrite (good_groups _ _ Hg). by rewrite decide_False. }
  assert (Groups c ∪ {[g := grp_names g]} = <[g := grp_names g]> (Groups c)) as Hu.
  { rewrite map_union_comm by (by apply map_disjoint_singleton_r). by rewrite <- insert_union_singleton_l. }
  destruct (JoinBalance_ok ({[g := grp_names g]} : gmap Z (list string)) c) as (c' & Hj & Hr & Hok).
  - apply Hg.
  - apply map_non_empty_singleton.
  - by apply map_disjoint_singleton_l.
  - rewrite Hu. by eapply good_distinct.
  - rewrite Hu in Hr, Hok. exists c'. split; [apply Hj; by rewrite map_to_list_singleton |]. split; [| split].
    + eapply good_rebalanced; [| | | exact Hok].
      * apply NoDup_cons. split; [done | apply Hg].
      * intros h. simpl. rewrite lookup_insert. case_decide as Hd; [subst; by rewrite decide_True by left |].
        rewrite (good_groups _ _ Hg). repeat case_decide; set_solver.
      * intros h [->|Hh]%elem_of_cons; [done | by apply (good_pos _ _ Hg)].
    + by destruct Hok as (-> & _).
    + intros Hne. destruct (good_some _ _ Hg Hne) as [Ha Hb]. rewrite <- (good_size c gids Hg).
      eapply Rebalance_member; try done; [apply Hg |]. intros E. destruct gids as [|h gids]; [done |].
      assert (is_Some (Groups c !! h)) as [? Hx] by (apply (good_lookup _ _ _ Hg); by left). by rewrite E in Hx.
Qed.

(** [LeaveBalance] with a group of the tester. *)
Lemma good_leave c gids g :
  good c gids → g ∈ gids →
  ∃ c', LeaveBalance c [g] = Ret (c', true) ∧ good c' (filter (λ h, h ≠ g) gids) ∧ Num c' = int64 (Num c + 1).
Proof.
  intros Hg Hin. destruct (LeaveBalance_ok [g] c) as (c' & Hl & _ & Hok).
  - apply Hg.
  - done.
  - apply NoDup_singleton.
  - intros h ->%list_elem_of_singleton. by apply (good_lookup _ gids).
  - exists c'. split; [done |]. split; [| by destruct Hok as (-> & _)]. eapply good_rebalanced; [| | | exact Hok].
    + apply NoDup_filter, Hg.
    + intros h. simpl. rewrite lookup_delete. case_decide as Hd.
      * rewrite decide_False; [done |]. rewrite list_elem_of_filter. naive_solver.
      * rewrite (good_groups _ _ Hg). apply decide_ext. rewrite list_elem_of_filter. naive_solver.
    + intros h [_ Hh]%list_elem_of_filter. by apply (good_pos _ _ Hg).
Qed.

(** ** Joining and leaving with a correct controller *)

Section correct.
Context {D : Type} `{!Ctrler D, !CtrlerSpec D}.
Implicit Types ts : Test D.

(** The state between two steps: configuration [c] of the groups [gids],
    which are the tester's groups besides group 0; the network's ends have
    names from [used]. *)
Record inv ts (c : ShardConfig) (gids : list Z) (used : list string) : Prop := {
  inv_tok : TS.tok (config ts);
  inv_ctl : ctl_ok (ctl ts);
  inv_holds : holds (ctl ts) = Some c;
  inv_good : good c gids;
  inv_table : ∀ g, is_Some (TC.grps (config ts) !! g) ↔ g = TC.GRP0 ∨ g ∈ gids;
  inv_next : ∀ g, g ∈ gids → g < ngid ts;
  inv_ngid : 0 < ngid ts;
  inv_sizes : ∀ g sg, 0 < g → TC.grps (config ts) !! g = Some sg → TC.Grp.N sg = NSRV;
  inv_ends : ∀ e, e ∈ Labrpc.ends (TC.net (config ts)) → e ∈ used;
}.

Lemma inv_weaken ts c gids used used' : inv ts c gids used → (∀ e, e ∈ used → e ∈ used') → inv ts c gids used'.
Proof. intros [] Hu. split; eauto. Qed.

Lemma query_holds d c : ctl_ok d → holds d = Some c → query d = Ret c.
Proof. intros Hok Hh. unfold query. by rewrite Query_spec, Hh. Qed.

(** The first group of [joinGroups]. *)
Lemma join_step ts c gids used g nm rest :
  inv ts c gids used → g ∉ gids → 0 < g < ngid ts →
  draw_for NSRV nm → NoDup (drawn nm) → (∀ e, e ∈ drawn nm → e ∉ used) →
  ∃ ts' c', inv ts' c' (g :: gids) (drawn nm ++ used) ∧ Num c' = int64 (Num c + 1) ∧ ngid ts' = ngid ts ∧
    (gids ≠ [] → IsMember c' g = bool_decide (length gids < NShards)%nat) ∧
    joinGroups ts ((g, nm) :: rest) = if IsMember c' g then joinGroups ts' rest else Ret (ts', false).
Proof.
  intros [Ht Hc Hh Hg Htab Hnx Hng Hsz He] Hn Hp [Hl Hsq] Hnd Hf.
  destruct (TS.MakeGroupStart_returns (config ts) g nm.1 nm.2 Ht Hsq Hnd) as (cfg & sg & Hm & Ht1 & Hgr & Hsize & Hsn & Hen).
  { intros e Hin Hx. by apply (Hf e), He. }
  destruct (good_join c gids g Hg Hn ltac:(lia)) as (c' & Hj & Hg' & Hnum & Hmem).
  destruct (ChangeConfigTo_spec (ctl ts) c c' Hc Hh) as (d & Hd & Hc' & Hh'); [by eapply good_storable | done |].
  exists (set_ctl (set_config ts cfg) d), c'. split_and!; try done.
  - split; simpl; try done.
    + intros h. rewrite Hgr. rewrite lookup_insert_is_Some', Htab. set_solver.
    + intros h [->|Hin]%elem_of_cons; [lia | by apply Hnx].
    + intros h s Hh1. rewrite Hgr. intros [[<- <-]|[_ Hs]]%lookup_insert_Some; [congruence | by eapply Hsz].
    + intros e. rewrite Hen. unfold drawn. rewrite elem_of_union, elem_of_list_to_set. specialize (He e). set_solver.
  - simpl. rewrite Hm. simpl. unfold group_names, TC.lookupGroup. simpl. rewrite Hgr, lookup_insert_eq. simpl.
    unfold TC.SrvNames. rewrite Hsn, Hl. change (TC.Grp.ServerName g <$> seq 0 NSRV) with (grp_names g).
    unfold join. rewrite (query_holds _ c) by done. simpl. rewrite Copy_id, Hj. simpl. rewrite Hd. simpl.
    unfold checkMember. by rewrite (query_holds _ c').
Qed.

Lemma joins_return gnms : ∀ ts c gids used,
  inv ts c gids used → NoDup (gnms.*1) → (∀ g, g ∈ (gnms.*1) → (g ∉ gids) ∧ 0 < g < ngid ts) →
  Forall (draw_for NSRV) (gnms.*2) → NoDup (concat (drawn <$> (gnms.*2))) →
  (∀ e, e ∈ concat (drawn <$> (gnms.*2)) → e ∉ used) → (length gids + length gnms ≤ NShards)%nat →
  0 ≤ Num c → Num c + Z.of_nat (length gnms) < two63 →
  ∃ ts' c', joinGroups ts gnms = Ret (ts', true) ∧
    inv ts' c' (rev (gnms.*1) ++ gids) (concat (drawn <$> (gnms.*2)) ++ used) ∧
    Num c' = Num c + Z.of_nat (length gnms) ∧ ngid ts' = ngid ts.
Proof.
  induction gnms as [|[g nm] gnms IH]; intros ts c gids used Hi Hnd Hg Hsh Hns Hf Hl H0 Hb.
  { exists ts, c. split_and!; try done. simpl. lia. }
  simpl in Hnd, Hsh, Hns, Hf, Hl, Hb. apply NoDup_cons in Hnd as [Hng Hnd]. apply Forall_cons in Hsh as [Hs1 Hsh].
  apply NoDup_app in Hns as (Hn1 & Hd & Hn2). destruct (Hg g) as [Hgn Hgp]; [by left |].
  destruct (join_step ts c gids used g nm gnms Hi Hgn Hgp Hs1 Hn1) as (ts1 & c1 & Hi1 & Hnum & Hnx & _ & HE).
  { intros e He. apply Hf. set_solver. }
  rewrite int64_small in Hnum by (unfold two63 in *; lia).
  destruct (IH ts1 c1 (g :: gids) (drawn nm ++ used) Hi1) as (ts2 & c2 & HE2 & Hi2 & Hnum2 & Hnx2).
  - done.
  - intros h Hh. destruct (Hg h) as [Hh1 Hh2]; [by right |]. rewrite Hnx. split; [| done]. set_solver.
  - done.
  - done.
  - intros e He. rewrite elem_of_app. specialize (Hf e ltac:(set_solver)). specialize (Hd e). naive_solver.
  - simpl. lia.
  - lia.
  - lia.
  - exists ts2, c2. rewrite HE, (good_member c1 (g :: gids)), bool_decide_true; [| by left | apply Hi1 | simpl; lia | lia].
    split_and!; [done | | simpl; lia | congruence]. simpl. rewrite <- app_assoc. simpl. eapply inv_weaken; [done | set_solver].
Qed.

Lemma leaves_return l : ∀ ts c gids used,
  inv ts c gids used → NoDup l → (∀ g, g ∈ l → g ∈ gids) → (length gids ≤ NShards)%nat →
  0 ≤ Num c → Num c + Z.of_nat (length l) < two63 →
  ∃ ts' c', leaveGroups ts l = Ret (ts', true) ∧ inv ts' c' (filter (λ h, h ∉ l) gids) used ∧
    Num c' = Num c + Z.of_nat (length l) ∧ ngid ts' = ngid ts.
Proof.
  induction l as [|g l IH]; intros ts c gids used Hi Hnd Hg Hl H0 Hb.
  { exists ts, c. split_and!; [done | | simpl; lia | done].
    assert (filter (λ h, h ∉ []) gids = gids) as ->; [| done]. clear. induction gids as [|h gids IH]; [done |].
    rewrite filter_cons_True by apply not_elem_of_nil. by rewrite IH. }
  apply NoDup_cons in Hnd as [Hgl Hnd]. pose proof (Hg g ltac:(by left)) as Hin.
  destruct Hi as [Ht Hc Hh Hgd Htab Hnx Hng Hsz He].
  destruct (good_leave c gids g Hgd Hin) as (c1 & HL & Hgd1 & Hnum). simpl in Hb.
  rewrite int64_small in Hnum by (unfold two63 in *; lia).
  destruct (ChangeConfigTo_spec (ctl ts) c c1 Hc Hh) as (d & Hd & Hc1 & Hh1); [by eapply good_storable | |].
  { rewrite int64_small by (unfold two63 in *; lia). done. }
  destruct (TS.ExitGroup_returns (config ts) g Ht) as (cfg & HX & Ht1 & Hgr & _ & Hen); [apply Htab; by right |].
  assert (0 < g) as Hp by (by apply (good_pos _ _ Hgd)).
  assert (length (filter (λ h, h ≠ g) gids) ≤ NShards)%nat as Hl1 by (pose proof (length_filter (λ h, h ≠ g) gids); lia).
  destruct (IH (set_config (set_ctl ts d) cfg) c1 (filter (λ h, h ≠ g) gids) used) as (ts2 & c2 & HE & Hi2 & Hnum2 & Hnx2).
  - split; simpl; try done.
    + intros h. rewrite Hgr, lookup_delete_is_Some, Htab, list_elem_of_filter. unfold TC.GRP0.
      split; [naive_solver |]. intros [->|?]; [split; [lia | by left] | naive_solver].
    + intros h [_ Hh']%list_elem_of_filter. by apply Hnx.
    + intros h s Hh2. rewrite Hgr. intros [_ Hs]%lookup_delete_Some. by eapply Hsz.
    + rewrite Hen. done.
  - done.
  - intros h Hh'. apply list_elem_of_filter. split; [by intros -> | apply Hg; by right].
  - done.
  - lia.
  - lia.
  - exists ts2, c2. split_and!; [| | simpl; lia | done].
    + simpl. unfold leave. rewrite (query_holds _ c) by done. simpl. rewrite Copy_id, HL. simpl. rewrite Hd. simpl.
      unfold checkMember. rewrite (query_holds _ c1) by done. simpl.
      rewrite (good_member c1 _ g Hgd1 Hl1 Hp), bool_decide_false by (rewrite list_elem_of_filter; naive_solver).
      by rewrite HX.
    + rewrite list_filter_filter in Hi2.
      assert (filter (λ h, h ∉ (g :: l)) gids = filter (λ h, (h ∉ l) ∧ h ≠ g) gids) as ->; [| done].
      apply list_filter_iff. intros h. rewrite not_elem_of_cons. naive_solver.
Qed.

Lemma groups_seqZ n : ∀ ts, 0 < ngid ts → ngid ts + Z.of_nat n < two63 →
  groups ts n = (mkTest (partition ts) (maxraftstate ts) (ngid ts + Z.of_nat n) (sck ts) (config ts) (ctl ts), seqZ (ngid ts) (Z.of_nat n)).
Proof.
  induction n as [|n IH]; intros ts Hp Hb; simpl groups.
  { rewrite Z.add_0_r. by destruct ts. }
  rewrite int64_small by (unfold two63 in *; lia). rewrite IH by (simpl; lia). simpl.
  rewrite (seqZ_cons _ (Z.of_nat (S n))) by lia. f_equal; [f_equal; lia |]. do 2 f_equal; lia.
Qed.

(** *** Setting up *)

Lemma good_empty : good MakeShardConfig [].
Proof.
  split; try done.
  - constructor.
  - by intros g ?%not_elem_of_nil.
  - intros _ g Hg. apply elem_of_replicate in Hg. by destruct Hg.
Qed.

Lemma tok_empty : TS.tok TS.empty_config.
Proof. split; [apply TS.empty_config_ok | done]. Qed.

Lemma MakeConfig_returns reliable nm :
  draw_for 1 nm → NoDup (drawn nm) →
  ∃ cfg, TC.MakeConfig reliable nm.1 nm.2 = Ret cfg ∧ TS.tok (TC.Begin cfg) ∧
    (∀ g, is_Some (TC.grps cfg !! g) ↔ g = TC.GRP0) ∧ (∀ e, e ∈ Labrpc.ends (TC.net cfg) → e ∈ drawn nm) ∧
    is_Some (TC.Cl.clerks (TC.clnts cfg)).
Proof.
  intros [_ Hsq] Hnd. destruct (TS.MakeGroupStart_returns TS.empty_config TC.GRP0 nm.1 nm.2 tok_empty Hsq Hnd)
    as (cfg & sg & Hm & Ht & Hg & _ & _ & He); [set_solver |].
  assert (∃ cfg', TC.MakeConfig reliable nm.1 nm.2 = Ret cfg' ∧ TC.grps cfg' = TC.grps cfg ∧ TC.ptr cfg' = TC.ptr cfg ∧
    Labrpc.ends (TC.net cfg') = Labrpc.ends (TC.net cfg) ∧ is_Some (TC.Cl.clerks (TC.clnts cfg'))) as (cfg' & HM & Hg' & Hp' & He' & Hc').
  { unfold TC.MakeConfig. unfold TS.empty_config in Hm. rewrite Hm. simpl. eexists. split; [done |]. simpl. by split_and!. }
  exists cfg'. split_and!; try done.
  - split.
    + pose proof (TS.MakeConfig_ok _ _ _ _ Hsq HM) as Hok.
      by destruct (TS.exec_ok TS.OpBegin cfg' (TC.Begin cfg') Hok eq_refl) as [? _].
    + simpl. rewrite Hg'. intros g s Hs. destruct (TS.tok_groups _ Ht g s Hs) as [Hh Hn].
      split; [| done]. eapply TS.heap_ok_later; [exact Hh |]. simpl. lia.
  - intros g. rewrite Hg', Hg. rewrite lookup_insert_is_Some'. simpl. unfold TC.newGroups. rewrite lookup_empty.
    split; [intros [?|[? ?]]; done | by left].
  - intros e. rewrite He', He. unfold drawn. rewrite elem_of_union, elem_of_list_to_set. set_solver.
Qed.

Lemma setup_returns reliable part maxraft nm0 nm1 (d : D) :
  ctl_ok d → holds d = None → draw_for 1 nm0 → draw_for NSRV nm1 → NoDup (drawn nm0 ++ drawn nm1) →
  ∃ ts c, (let* ts := MakeTestMaxRaft reliable part maxraft nm0 d in setupKVService ts nm1)%go = Ret (ts, Gid1) ∧
    inv ts c [Gid1] (drawn nm1 ++ drawn nm0) ∧ Num c = 1 ∧ ngid ts = 2.
Proof.
  intros Hc Hh Hd0 [Hl1 Hs1] (Hn0 & Hd & Hn1)%NoDup_app.
  destruct (MakeConfig_returns reliable nm0 Hd0 Hn0) as (cfg & HM & Ht & Hgr & He & [live Hlv]).
  unfold MakeTestMaxRaft. rewrite HM. simpl. unfold setupKVService, makeShardCtrler, makeShardCtrlerClnt. simpl.
  unfold TC.Cl.MakeClient, TC.Cl.MakeClientTo, TC.load_clnts. simpl. rewrite Hlv. simpl.
  match goal with |- context [TC.MakeGroupStart ?x _ _ _] => set (cfg1 := x) end.
  assert (TS.tok cfg1) as Ht1.
  { split; [| exact (TS.tok_groups _ Ht)].
    destruct (TS.exec_ok (TS.OpClient (TC.Cl.OpMake None)) (TC.Begin cfg) cfg1 (TS.tok_cok _ Ht)) as [? _]; [| done].
    simpl. unfold TS.on_clients, TC.load_clnts. simpl. unfold TC.Cl.MakeClientTo. simpl. rewrite Hlv. done. }
  destruct (TS.MakeGroupStart_returns cfg1 Gid1 nm1.1 nm1.2 Ht1 Hs1 Hn1) as (cfg2 & sg & Hm & Ht2 & Hg2 & Hsize & Hsn & Hen).
  { intros e Hin Hx. simpl in Hx. apply (Hd e); [by apply He | done]. }
  rewrite Hm. simpl. unfold group_names, TC.lookupGroup. simpl. rewrite Hg2, lookup_insert_eq. simpl.
  unfold TC.SrvNames. rewrite Hsn, Hl1. change (TC.Grp.ServerName Gid1 <$> seq 0 NSRV) with (grp_names Gid1).
  destruct (good_join MakeShardConfig [] Gid1 good_empty) as (c & Hj & Hg & Hnum & _); [apply not_elem_of_nil | done |].
  destruct (InitConfig_spec d c Hc Hh) as (d' & Hd' & Hc' & Hh'); [by eapply good_storable |].
  rewrite Hj. simpl. rewrite Hd'. simpl. eexists _, c. split; [done |]. split_and!; [| done | done].
  split; [exact Ht2 | exact Hc' | exact Hh' | exact Hg | | | simpl; unfold Gid1; lia | |]; simpl config; simpl ngid.
  - intros g. rewrite Hg2, lookup_insert_is_Some'. change (TC.grps cfg1) with (TC.grps cfg). rewrite Hgr, list_elem_of_singleton.
    clear. naive_solver.
  - intros g ->%list_elem_of_singleton. unfold Gid1. lia.
  - intros g s Hg1. rewrite Hg2. intros [[<- <-]|[_ Hs]]%lookup_insert_Some; [congruence |].
    assert (g = TC.GRP0) as -> by (apply Hgr; by eexists). done.
  - intros e. rewrite Hen. change (TC.net cfg1) with (TC.net cfg). rewrite elem_of_union, elem_of_list_to_set.
    intros [Hx|Hx%He]; apply elem_of_app; [by left | by right].
Qed.

End correct.

(** ** Sessions *)

(** Which groups there are after a session that starts with [gids], [n] being
    the next new group, and whether it can be carried out: draws have the right
    shape, groups that leave are there, and there is a shard for each group. *)
Fixpoint plan (n : Z) (gids : list Z) (acts : list Act) : list Z :=
  match acts with
  | [] => gids
  | AJoin nms :: acts => plan (n + Z.of_nat (length nms)) (rev (seqZ n (Z.of_nat (length nms))) ++ gids) acts
  | ALeave l :: acts => plan n (filter (λ h, h ∉ l) gids) acts
  end.

Fixpoint feasible (n : Z) (gids : list Z) (acts : list Act) : Prop :=
  match acts with
  | [] => True
  | AJoin nms :: acts =>
      Forall (draw_for NSRV) nms ∧ (length gids + length nms ≤ NShards)%nat ∧
      feasible (n + Z.of_nat (length nms)) (rev (seqZ n (Z.of_nat (length nms))) ++ gids) acts
  | ALeave l :: acts => NoDup l ∧ (∀ g, g ∈ l → g ∈ gids) ∧ feasible n (filter (λ h, h ∉ l) gids) acts
  end.

Definition act_names (a : Act) : list string := match a with AJoin nms => concat (drawn <$> nms) | ALeave _ => [] end.
Definition changes (a : Act) : nat := match a with AJoin nms => length nms | ALeave l => length l end.
Fixpoint all_names (acts : list Act) : list string :=
  match acts with [] => [] | a :: acts => act_names a ++ all_names acts end.
Fixpoint all_changes (acts : list Act) : nat :=
  match acts with [] => O | a :: acts => (changes a + all_changes acts)%nat end.

Section session.
Context {D : Type} `{!Ctrler D, !CtrlerSpec D}.

Lemma session_returns acts : ∀ (ts : Test D) c gids used,
  inv ts c gids used → feasible (ngid ts) gids acts → (length gids ≤ NShards)%nat →
  NoDup (all_names acts) → (∀ e, e ∈ all_names acts → e ∉ used) →
  0 ≤ Num c → Num c + Z.of_nat (all_changes acts) < two63 → ngid ts + Z.of_nat (all_changes acts) < two63 →
  ∃ ts' c', session ts acts = Ret (ts', true) ∧ inv ts' c' (plan (ngid ts) gids acts) (all_names acts ++ used) ∧
    Num c' = Num c + Z.of_nat (all_changes acts) ∧ ngid ts' ≤ ngid ts + Z.of_nat (all_changes acts).
Proof.
  induction acts as [|a acts IH]; intros ts c gids used Hi Hfe Hl Hnd Hf H0 Hb1 Hb2.
  { exists ts, c. split_and!; try done; simpl; lia. }
  simpl in Hnd, Hf, Hb1, Hb2. apply NoDup_app in Hnd as (Hna & Hd & Hnd). destruct a as [nms|l]; simpl in *.
  - destruct Hfe as (Hsh & Hlen & Hfe). pose proof (inv_ngid _ _ _ _ Hi) as Hpos. rewrite groups_seqZ by lia.
    set (gs := seqZ (ngid ts) (Z.of_nat (length nms))) in *. assert (length gs = length nms) as Hlg by (unfold gs; rewrite length_seqZ; lia).
    match goal with |- context [joinGroups ?x _] => set (ts0 := x) end.
    assert (inv ts0 c gids used) as Hi0.
    { destruct Hi. split; simpl; try done; [| lia]. intros g Hg. specialize (inv_next0 g Hg). lia. }
    assert ((zip gs nms).*1 = gs) as E1 by (apply fst_zip; lia). assert ((zip gs nms).*2 = nms) as E2 by (apply snd_zip; lia).
    assert (length (zip gs nms) = length nms) as E3 by (rewrite length_zip_with; lia).
    destruct (joins_return (zip gs nms) ts0 c gids used Hi0) as (ts1 & c1 & HE & Hi1 & Hn1 & Hx1); rewrite ?E1, ?E2, ?E3; try done; try lia.
    { apply NoDup_seqZ. }
    { intros g Hg%elem_of_seqZ. simpl. split; [| lia]. intros Hin. pose proof (inv_next _ _ _ _ Hi g Hin). lia. }
    { intros e He. apply Hf. set_solver. }
    rewrite E1, E2, E3 in *. rewrite HE. simpl.
    destruct (IH ts1 c1 (rev gs ++ gids) (concat (drawn <$> nms) ++ used) Hi1) as (ts2 & c2 & HE2 & Hi2 & Hn2 & Hx2); simpl in *; rewrite ?Hx1.
    + done.
    + rewrite length_app, length_rev. lia.
    + done.
    + intros e He. rewrite elem_of_app. specialize (Hf e ltac:(set_solver)). specialize (Hd e). naive_solver.
    + lia.
    + lia.
    + lia.
    + exists ts2, c2. rewrite Hx1 in Hi2. split_and!; [done | | lia | lia]. eapply inv_weaken; [done | set_solver].
  - destruct Hfe as (Hndl & Hin & Hfe).
    destruct (leaves_return l ts c gids used Hi) as (ts1 & c1 & HE & Hi1 & Hn1 & Hx1); try done; try lia. rewrite HE. simpl.
    destruct (IH ts1 c1 (filter (λ h, h ∉ l) gids) used Hi1) as (ts2 & c2 & HE2 & Hi2 & Hn2 & Hx2); rewrite ?Hx1; try done; try lia.
    + pose proof (length_filter (λ h, h ∉ l) gids). lia.
    + exists ts2, c2. rewrite Hx1 in Hi2. split_and!; [done | | lia | lia]. eapply inv_weaken; [done | set_solver].
Qed.

End session.

(** ** The properties *)

(** With the controller of the repository, whose [Query] returns nil, a test
    that makes a group join ends in a nil dereference once the group has been
    started. *)
Lemma stub_join_panics {D : Type} (ts : Test D) gid nm rest cfg :
  TC.MakeGroupStart (config ts) gid nm.1 nm.2 = Ret cfg → is_Some (TC.lookupGroup cfg gid) →
  joinGroups (Ctrler0 := stub_ctrler D) ts ((gid, nm) :: rest) = Abort "nil pointer dereference".
Proof.
  intros Hm [sg Hg]. cbn [joinGroups]. rewrite Hm. cbn [go_bind]. unfold group_names. simpl. by rewrite Hg.
Qed.

(** C11: a session of a test with a correct controller succeeds.  After
    [setupKVService], let new groups join and groups leave in any order, with
    at most [NShards] groups at any time and random names that are all
    different.  Then every [joinGroups] and [leaveGroups] returns true; the
    controller has the configuration of exactly the groups there should be,
    numbered by the changes made, and [CheckConfig] accepts it; these are the
    groups the tester runs; and every key is routed to the servers of a
    group that is running. *)
Theorem shard_session {D : Type} `{!Ctrler D, !CtrlerSpec D} (reliable part : bool) (maxraft : Z) (nm0 nm1 : Draw)
    (acts : list Act) (d : D) (Hc : ctl_ok d) (Hh : holds d = None)
    (Hs0 : draw_for 1 nm0) (Hs1 : draw_for NSRV nm1) (Hnd : NoDup (drawn nm0 ++ drawn nm1 ++ all_names acts))
    (Hfe : feasible 2 [Gid1] acts) (Hb : 2 + Z.of_nat (all_changes acts) < two63) :
  ∃ ts c, (let* ts := MakeTestMaxRaft reliable part maxraft nm0 d in
           let* (ts, _) := setupKVService ts nm1 in session ts acts)%go = Ret (ts, true) ∧
    Query (ctl ts) = Ret (Some c) ∧ Num c = 1 + Z.of_nat (all_changes acts) ∧
    CheckConfig c (plan 2 [Gid1] acts) = Ret tt ∧
    (∀ g, is_Some (TC.lookupGroup (config ts) g) ↔ g = TC.GRP0 ∨ g ∈ plan 2 [Gid1] acts) ∧
    (plan 2 [Gid1] acts ≠ [] → ∀ key, ∃ gid sg,
       GidServers c (Key2Shard key) = Ret (gid, TC.SrvNames sg, true) ∧ TC.lookupGroup (config ts) gid = Some sg).
Proof.
  apply NoDup_app in Hnd as (Hn0 & Hd0 & (Hn1 & Hd1 & Hn2)%NoDup_app).
  destruct (setup_returns reliable part maxraft nm0 nm1 d Hc Hh Hs0 Hs1) as (ts0 & c0 & HS & Hi0 & Hnum0 & Hx0).
  { apply NoDup_app. split_and!; [done | | done]. intros e He. specialize (Hd0 e He). by apply not_elem_of_app in Hd0 as [? _]. }
  destruct (session_returns acts ts0 c0 [Gid1] _ Hi0) as (ts & c & HE & Hi & Hnum & _); rewrite ?Hx0, ?Hnum0; try done; try lia.
  { unfold NShards. simpl. lia. }
  { intros e He. rewrite elem_of_app. intros [Hx|Hx]; [by apply (Hd1 e) |]. specialize (Hd0 e Hx).
    by apply not_elem_of_app in Hd0 as [_ ?]. }
  rewrite Hx0, Hnum0 in *. exists ts, c. apply go_bind_Ret_inv in HS as (ts1 & -> & HS). simpl. rewrite HS. simpl.
  pose proof (inv_good _ _ _ _ Hi) as Hg. split_and!.
  - done.
  - rewrite Query_spec by apply Hi. by rewrite (inv_holds _ _ _ _ Hi).
  - done.
  - by apply good_checks.
  - apply Hi.
  - intros Hne key. destruct (GidServers_assigned c (Key2Shard key)) as (gid & srvs & HG & Hsr).
    { apply Hg. } { by apply (good_some _ _ Hg). } { apply Key2Shard_range. }
    assert (gid ∈ plan 2 [Gid1] acts) as Hin by (apply (good_lookup _ _ _ Hg); by eexists).
    destruct (proj2 (inv_table _ _ _ _ Hi gid)) as [sg Hsg]; [by right |]. exists gid, sg. split; [| done].
    rewrite (good_groups _ _ Hg), decide_True in Hsr by done. injection Hsr as <-. rewrite HG. unfold TC.SrvNames.
    destruct (TS.tok_groups _ (inv_tok _ _ _ _ Hi) gid sg Hsg) as [_ Hn]. rewrite Hn.
    rewrite (inv_sizes _ _ _ _ Hi gid sg); [done | | done]. by apply (good_pos _ _ Hg).
Qed.

(** There must be a shard for each group.  When a configuration has
    [NShards] groups or more, a group that joins is started and becomes part
    of the configuration, which [CheckConfig] accepts, but it gets no shard,
    and [joinGroups] says that it failed. *)
Theorem joinGroups_limit {D : Type} `{!Ctrler D, !CtrlerSpec D} (ts : Test D) (c : ShardConfig) (gids : list Z) (used : list string)
    (nm : Draw) (Hi : inv ts c gids used) (Hl : (NShards ≤ length gids)%nat) (Hb : ngid ts + 1 < two63)
    (Hs : draw_for NSRV nm) (Hnd : NoDup (drawn nm)) (Hf : ∀ e, e ∈ drawn nm → e ∉ used) :
  ∃ ts' c', perform ts (AJoin [nm]) = Ret (ts', false) ∧ Query (ctl ts') = Ret (Some c') ∧
    is_Some (TC.lookupGroup (config ts') (ngid ts)) ∧ Groups c' !! ngid ts = Some (grp_names (ngid ts)) ∧
    CheckConfig c' (ngid ts :: gids) = Ret tt.
Proof.
  pose proof (inv_ngid _ _ _ _ Hi) as Hpos. unfold perform. rewrite groups_seqZ by (simpl; lia). simpl length.
  change (Z.of_nat 1) with 1. rewrite seqZ_cons by lia. change (Z.pred 1) with 0. simpl seqZ. simpl zip.
  match goal with |- context [joinGroups ?x _] => set (ts0 := x) end.
  assert (inv ts0 c gids used) as Hi0.
  { destruct Hi. split; try done; simpl; [| lia]. intros g Hg. specialize (inv_next0 g Hg). lia. }
  destruct (join_step ts0 c gids used (ngid ts) nm [] Hi0) as (ts1 & c1 & Hi1 & _ & _ & Hm & HE); try done.
  { intros Hin. pose proof (inv_next _ _ _ _ Hi _ Hin). lia. }
  { simpl. lia. }
  rewrite HE, Hm, bool_decide_false by (lia || by intros ->; simpl in Hl; unfold NShards in Hl; lia).
  pose proof (inv_good _ _ _ _ Hi1) as Hg. exists ts1, c1. split_and!.
  - done.
  - rewrite Query_spec by apply Hi1. by rewrite (inv_holds _ _ _ _ Hi1).
  - apply Hi1. right. by left.
  - rewrite (good_groups _ _ Hg), decide_True by (by left). done.
  - by apply good_checks.
Qed.

(** *** Witnesses: the controller on a key/value server *)

Definition ex_draw (p : string) (n : nat) : Draw :=
  ((λ i, (λ j, p +:+ "a" +:+ pretty i +:+ pretty j) <$> seq 0 n) <$> seq 0 n,
   (λ i, ((λ j, p +:+ "b" +:+ pretty i +:+ pretty j) <$> seq 0 n, [i])) <$> seq 0 n).

#[local] Instance ex_json : ConfigJson := bits_json.
#[local] Instance ex_ctrler : Ctrler KVServer.KVServer := kv_ctrler.
#[local] Instance ex_ctrler_spec : CtrlerSpec KVServer.KVServer := kv_ctrler_spec.

Lemma ex_ok : ctl_ok KVServer.MakeKVServer ∧ holds KVServer.MakeKVServer = None.
Proof. split; [| reflexivity]. split; [apply KVServer.MakeKVServer_wf | done]. Qed.

Lemma ex_draw_for p : draw_for 1 (ex_draw p 1) ∧ draw_for NSRV (ex_draw p NSRV).
Proof. repeat split; repeat constructor. Qed.

Lemma shard_session_witness :
  let acts := [AJoin [ex_draw "x" NSRV; ex_draw "y" NSRV]; ALeave [1; 3]; AJoin [ex_draw "z" NSRV]]%string in
  ∃ (ts : Test KVServer.KVServer) c,
    (let* ts := MakeTestMaxRaft true false (-1) (ex_draw "k" 1) KVServer.MakeKVServer in
     let* (ts, _) := setupKVService ts (ex_draw "g" NSRV) in session ts acts)%go = Ret (ts, true) ∧
    Query (ctl ts) = Ret (Some c) ∧ Num c = 6 ∧ CheckConfig c [4; 2] = Ret tt.
Proof.
  intros acts.
  destruct (shard_session true false (-1) (ex_draw "k" 1) (ex_draw "g" NSRV) acts KVServer.MakeKVServer) as (ts & c & H1 & H2 & H3 & H4 & _).
  - apply ex_ok.
  - apply ex_ok.
  - apply ex_draw_for.
  - apply ex_draw_for.
  - apply (bool_decide_unpack _). vm_compute. exact I.
  - repeat split; try (repeat constructor; apply ex_draw_for || apply (bool_decide_unpack _); vm_compute; exact I);
      try (simpl; unfold NShards; lia). apply Forall_forall, (bool_decide_unpack _). vm_compute. exact I.
  - vm_compute. reflexivity.
  - exists ts, c. split; [exact H1 |]. split; [exact H2 |]. split; [exact H3 | exact H4].
Defined.

Lemma joinGroups_limit_witness :
  ∃ (ts ts' : Test KVServer.KVServer) c', perform ts (AJoin [ex_draw "z" NSRV]) = Ret (ts', false) ∧ Query (ctl ts') = Ret (Some c').
Proof.
  destruct (setup_returns true false (-1) (ex_draw "k" 1) (ex_draw "g" NSRV) KVServer.MakeKVServer) as (ts0 & c0 & _ & Hi0 & Hn0 & Hx0).
  { apply ex_ok. } { apply ex_ok. } { apply ex_draw_for. } { apply ex_draw_for. }
  { apply (bool_decide_unpack _). vm_compute. exact I. }
  destruct (session_returns [AJoin ((λ i, ex_draw ("x" +:+ pretty i) NSRV) <$> seq 0 11)] ts0 c0 [Gid1] _ Hi0) as (ts & c & _ & Hi & _ & Hx).
  { rewrite Hx0. split; [| split; [simpl; unfold NShards; lia | exact I]]. apply Forall_fmap, Forall_forall. intros i _. apply ex_draw_for. }
  { simpl. unfold NShards. lia. }
  { apply (bool_decide_unpack _). vm_compute. exact I. }
  { apply Forall_forall, (bool_decide_unpack _). vm_compute. exact I. }
  { lia. } { rewrite Hn0. reflexivity. } { rewrite Hx0. reflexivity. }
  exists ts. destruct (joinGroups_limit ts c _ _ (ex_draw "z" NSRV) Hi) as (ts' & c' & H1 & H2 & _).
  - rewrite Hx0. vm_compute. lia.
  - rewrite Hx0 in Hx. clear -Hx. simpl in Hx. unfold two63. lia.
  - apply ex_draw_for.
  - apply (bool_decide_unpack _). vm_compute. exact I.
  - apply Forall_forall, (bool_decide_unpack _). vm_compute. exact I.
  - exists ts', c'. split; [exact H1 | exact H2].
Defined.

End ShardTest.
