(* ===== verification/ShardCtl.v ===== *)
(** * Controllers that run at the same time: what their methods promise

    The methods of [ShardCtrler] are placeholders in [shardctrler.go], but the
    tests of [shardkv1/test.go] run several controllers at once and cut some
    of them off.  Here a controller is any implementation whose calls go on in
    steps, between which other controllers can act ([Stepped]); what its
    comments ask of it is [SteppedSpec].  [two_keys] is one: it keeps the
    current configuration and the one a change leads to under two keys of a
    key/value server. *)

From S2P Require Import Prelude KVServer ShardCfg ShardTest.
#[local] Open Scope Z_scope.

Import ShardCfg ShardTest.

Module ShardCtl.

(** ** The interface *)

(** [D] is what the controllers share, [C] a call under way, [F] what the
    network does to a step.  A step returns the rest of the call, [None] when
    the method has returned. *)
Class Stepped (D C F : Type) := {
  ct_Query : D → GoRes (option ShardConfig);
  ct_InitController : C;
  ct_ChangeConfigTo : ShardConfig → C;
  ct_step : F → C → D → GoRes (option C * D);
}.

(** A call by itself, while the network does [fs] to it; it stays where it is
    once it has returned. *)
Fixpoint run_call `{Stepped D C F} (fs : list F) (l : option C) (d : D) : GoRes (option C * D) :=
  match fs with
  | [] => Ret (l, d)
  | f :: fs =>
      match l with
      | None => Ret (None, d)
      | Some c => (let* (l, d) := ct_step f c d in run_call fs l d)%go
      end
  end.

Lemma run_call_app `{Stepped D C F} fs fs' l d l1 d1 :
  run_call fs l d = Ret (l1, d1) → run_call (fs ++ fs') l d = run_call fs' l1 d1.
Proof.
  revert l d. induction fs as [|f fs IH]; intros l d; simpl; [by intros [= -> ->] |]. destruct l as [c|].
  - intros ([l2 d2] & -> & Hr)%go_bind_Ret_inv. simpl. by apply IH.
  - intros [= <- <-]. by destruct fs'.
Qed.

(** What a step of a call does to the configurations: nothing; the call, which
    is to change to [o], writes down this change, if it leads from the current
    configuration to the next and no other is under way; or it finishes the
    change that is under way. *)
Definition evolves (o : option ShardConfig) (h p h' p' : option ShardConfig) : Prop :=
  (h' = h ∧ p' = p) ∨
  (∃ cur new, o = Some new ∧ h = Some cur ∧ p = None ∧ Num new = Num cur + 1 ∧ h' = h ∧ p' = Some new) ∨
  (∃ new, p = Some new ∧ h' = Some new ∧ p' = None).

(** What the comments ask for.  [ct_holds] is the current configuration, which
    [Query] returns, [ct_pending] the one that a change leads to which has
    begun and has not been finished.  [ct_call o c d]: the call [c], made to
    change to [o] or to recover, can be under way at [d].
    - [ChangeConfigTo] changes the configuration from the current one to the
      new one, unless another controller supersedes it: by itself, it has done
      so when it returns;
    - [InitController] recovers: by itself, it has finished what was under way;
    - controllers may run at the same time: steps of one keep the calls of
      others possible. *)
Class SteppedSpec (D C F : Type) `{!Stepped D C F} := {
  ct_ok : D → Prop;
  ct_holds : D → option ShardConfig;
  ct_pending : D → option ShardConfig;
  ct_call : option ShardConfig → C → D → Prop;
  ct_Query_law : ∀ d, ct_ok d → ct_Query d = Ret (ct_holds d);
  ct_init_law : ∀ d, ct_ok d → ct_call None ct_InitController d;
  ct_change_law : ∀ d new, ct_ok d → storable new → 0 < Num new < two63 → ct_call (Some new) (ct_ChangeConfigTo new) d;
  ct_step_law : ∀ d o c f, ct_ok d → ct_call o c d →
    ∃ l d', ct_step f c d = Ret (l, d') ∧ ct_ok d' ∧ (∀ c', l = Some c' → ct_call o c' d') ∧
      evolves o (ct_holds d) (ct_pending d) (ct_holds d') (ct_pending d') ∧
      ∀ o2 c2, ct_call o2 c2 d → ct_call o2 c2 d';
  ct_change_alone : ∀ fs d cur new d', ct_ok d → storable new → 0 < Num new < two63 →
    ct_holds d = Some cur → ct_pending d = None → Num new = Num cur + 1 →
    run_call fs (Some (ct_ChangeConfigTo new)) d = Ret (None, d') → ct_holds d' = Some new ∧ ct_pending d' = None;
  ct_init_alone : ∀ fs d d', ct_ok d → run_call fs (Some ct_InitController) d = Ret (None, d') →
    ct_holds d' = (match ct_pending d with Some new => Some new | None => ct_holds d end) ∧ ct_pending d' = None;
  ct_ends : ∀ d o c, ct_ok d → ct_call o c d → ∃ fs d', run_call fs (Some c) d = Ret (None, d');
}.

(** The configuration that recovery leads to. *)
Definition ct_target `{SteppedSpec D C F} (d : D) : option ShardConfig :=
  match ct_pending d with Some new => Some new | None => ct_holds d end.

(** Running a call alone. *)
Lemma run_call_ok `{SteppedSpec D C F} o fs : ∀ l d,
  ct_ok d → (∀ c, l = Some c → ct_call o c d) →
  ∃ l' d', run_call fs l d = Ret (l', d') ∧ ct_ok d' ∧ ∀ c, l' = Some c → ct_call o c d'.
Proof.
  induction fs as [|f fs IH]; intros l d Hd Hl; simpl; [by exists l, d |]. destruct l as [c|]; [| by exists None, d].
  destruct (ct_step_law d o c f Hd (Hl c eq_refl)) as (l1 & d1 & -> & Hd1 & Hl1 & _). simpl. by apply IH.
Qed.

(** ** A controller on two keys of a key/value server *)

Section two_keys.
Context {S : Type} `{VStore S} `{ConfigJson}.

Definition cfg_key : string := "config".
Definition next_key : string := "next".

(** A request and its reply get lost, or the request is performed; the
    controller never looks at the reply to a [Put], so it makes no difference
    whether that arrives. *)
Inductive Fate : Type := Dropped | Performed.

(** [ChangeConfigTo(new)]: before it reads the next configuration; with the
    one read and its version, before it reads the current one, of version
    [v]; before it writes [new] as the next one; before it looks whether it
    has; before it makes [c] the current one.  [InitController]: before it
    reads the next configuration, and the current one. *)
Inductive KCall : Type :=
| KChange (new : ShardConfig)
| KCurrent (new : ShardConfig) (nxt : option ShardConfig) (w : Z)
| KPost (new : ShardConfig) (w v : Z)
| KPosted (new : ShardConfig) (v : Z)
| KMove (c : ShardConfig) (v : Z)
| KInit
| KInit1 (nxt : option ShardConfig).

Definition kread (key : string) (s : S) : GoRes (option ShardConfig * Z) :=
  let rep := vs_Get s (mkGetArgs key) GetReply_zero in
  if decide (GetReply_Err rep = OK) then
    (let* c := FromString (GetReply_Value rep) in Ret (Some c, GetReply_Version rep))%go
  else Ret (None, 0).

Definition kwrite (key : string) (c : ShardConfig) (v : Z) (s : S) : GoRes S :=
  (let* b := String_ c in Ret (vs_Put s (mkPutArgs key b v) PutReply_zero).1)%go.

Definition kperform (l : KCall) (s : S) : GoRes (option KCall * S) :=
  (match l with
   | KChange new => let* (nxt, w) := kread next_key s in Ret (Some (KCurrent new nxt w), s)
   | KCurrent new nxt w =>
       let* (cur, v) := kread cfg_key s in
       match cur with
       | None => Ret (None, s)
       | Some cur =>
           if decide (Num new = int64 (Num cur + 1) ∧ (Num <$> nxt) ≠ Some (Num new))
           then Ret (Some (KPost new w v), s) else Ret (None, s)
       end
   | KPost new w v => let* s := kwrite next_key new w s in Ret (Some (KPosted new v), s)
   | KPosted new v =>
       let* (nxt, _) := kread next_key s in
       if decide (nxt = Some new) then Ret (Some (KMove new v), s) else Ret (None, s)
   | KMove c v => let* s := kwrite cfg_key c v s in Ret (None, s)
   | KInit => let* (nxt, _) := kread next_key s in Ret (Some (KInit1 nxt), s)
   | KInit1 nxt =>
       let* (cur, v) := kread cfg_key s in
       match nxt, cur with
       | Some n, Some cur => if decide (Num n = int64 (Num cur + 1)) then Ret (Some (KMove n v), s) else Ret (None, s)
       | _, _ => Ret (None, s)
       end
   end)%go.

#[local] Instance two_keys : Stepped S KCall Fate := {|
  ct_Query s := (let* (cur, _) := kread cfg_key s in Ret cur)%go;
  ct_InitController := KInit;
  ct_ChangeConfigTo := KChange;
  ct_step f l s := match f with Dropped => Ret (Some l, s) | Performed => kperform l s end;
|}.

(** *** Its state *)

(** A configuration under a key, at a version. *)
Definition stored (s : S) (key : string) (c : ShardConfig) (v : Z) : Prop :=
  storable c ∧ 0 < Num c < two63 ∧ ∃ b, vs_abs s !! key = Some (b, v) ∧ json_Unmarshal b = Some c.

(** The version of the current configuration is its number; the next
    configuration is the current one or the one after it, and there is none
    before the first change. *)
Definition next_ver (nxt : option ShardConfig) : Z := match nxt with Some n => Num n - 1 | None => 0 end.
Definition under_way (cur : ShardConfig) (nxt : option ShardConfig) : Prop := (Num <$> nxt) = Some (Num cur + 1).

#[local] Instance under_way_dec cur nxt : Decision (under_way cur nxt).
Proof. unfold under_way. apply _. Defined.

Record kst (s : S) (cur : ShardConfig) (nxt : option ShardConfig) : Prop := {
  ks_ok : vs_ok s;
  ks_cur : stored s cfg_key cur (Num cur);
  ks_next : match nxt with
            | Some n => stored s next_key n (Num n - 1) ∧ (n = cur ∨ Num n = Num cur + 1)
            | None => vs_abs s !! next_key = None ∧ Num cur = 1
            end;
}.

Definition decoded (s : S) (key : string) : option ShardConfig := vs_abs s !! key ≫= λ p, json_Unmarshal p.1.
Definition kholds (s : S) : option ShardConfig := decoded s cfg_key.
Definition kpending (s : S) : option ShardConfig :=
  n ← decoded s next_key; c ← decoded s cfg_key; if decide (Num n = Num c + 1) then Some n else None.

Lemma stored_decoded s key c v : stored s key c v → decoded s key = Some c.
Proof. intros (_ & _ & b & Hb & Hu). unfold decoded. by rewrite Hb. Qed.

Lemma kst_view s cur nxt : kst s cur nxt →
  kholds s = Some cur ∧ kpending s = (if decide (under_way cur nxt) then nxt else None).
Proof.
  intros [_ Hc Hn]. unfold kholds, kpending, under_way. rewrite (stored_decoded _ _ _ _ Hc). split; [done |].
  destruct nxt as [n|]; simpl.
  - destruct Hn as [Hn _]. rewrite (stored_decoded _ _ _ _ Hn). simpl. repeat case_decide; congruence.
  - destruct Hn as [Hn _]. unfold decoded. rewrite Hn. done.
Qed.

Lemma kst_det s cur nxt cur' nxt' : kst s cur nxt → kst s cur' nxt' → cur' = cur ∧ nxt' = nxt.
Proof.
  intros [_ Hc Hn] [_ Hc' Hn']. apply stored_decoded in Hc, Hc'. split; [congruence |].
  destruct nxt as [n|], nxt' as [n'|]; try done.
  - destruct Hn as [Hn _], Hn' as [Hn' _]. apply stored_decoded in Hn, Hn'. congruence.
  - destruct Hn as [(_ & _ & b & Hb & _) _], Hn' as [Hn' _]. congruence.
  - destruct Hn' as [(_ & _ & b & Hb & _) _], Hn as [Hn _]. congruence.
Qed.

Lemma read_stored s key c v : vs_ok s → stored s key c v → kread key s = Ret (Some c, v).
Proof.
  intros Hok (_ & _ & b & Hb & Hu). unfold kread. rewrite vs_Get_spec by done. unfold KVServer.spec_get. rewrite Hb. simpl.
  unfold FromString. by rewrite Hu.
Qed.

Lemma read_cur s cur nxt : kst s cur nxt → kread cfg_key s = Ret (Some cur, Num cur).
Proof. intros []. by apply read_stored. Qed.

Lemma read_next s cur nxt : kst s cur nxt → kread next_key s = Ret (nxt, next_ver nxt).
Proof.
  intros [Hok _ Hn]. destruct nxt as [n|]; [by apply read_stored; [| apply Hn] |]. destruct Hn as [Hn _]. unfold kread.
  rewrite vs_Get_spec by done. unfold KVServer.spec_get. by rewrite Hn.
Qed.

(** Writing a configuration: it takes effect at the right version. *)
Lemma write_spec s key c v : vs_ok s → storable c → 0 < Num c < two63 → 0 ≤ v < two63 →
  ∃ s', kwrite key c v s = Ret s' ∧ vs_ok s' ∧
    if decide (ver_of (vs_abs s) key = v)
    then stored s' key c (v + 1) ∧ ∀ key', key' ≠ key → vs_abs s' !! key' = vs_abs s !! key'
    else vs_abs s' = vs_abs s.
Proof.
  intros Hok Hst Hn Hv. destruct (FromString_String c Hst) as (b & Hs & Hf). apply deref_Ret_inv in Hf.
  unfold kwrite. rewrite Hs. simpl. eexists. split; [done |].
  destruct (vs_Put_cases s key b v Hok) as (Hok' & [(-> & _ & E)|(Hne & E & _)]); split; try done.
  - rewrite decide_True by done. rewrite E. split; [| intros key' Hk; by apply lookup_insert_ne].
    split; [done |]. split; [done |]. exists b. rewrite E, lookup_insert_eq, u64_small by (unfold two63, two64 in *; lia). done.
  - by rewrite decide_False.
Qed.

Lemma stored_ext s s' key c v : vs_abs s' !! key = vs_abs s !! key → stored s key c v → stored s' key c v.
Proof. intros E (H1 & H2 & b & Hb & Hu). split; [done |]. split; [done |]. exists b. by rewrite E. Qed.

Lemma kst_ext s s' cur nxt : vs_ok s' → vs_abs s' = vs_abs s → kst s cur nxt → kst s' cur nxt.
Proof.
  intros Hok E [_ Hc Hn]. split; [done | by eapply stored_ext; [rewrite E |] |].
  destruct nxt as [n|]; [| by rewrite E]. destruct Hn as [Hn ?]. split; [| done]. by eapply stored_ext; [rewrite E |].
Qed.

(** *** How it changes *)

(** Nothing, a change written down, or finished. *)
Inductive ktrans (cur : ShardConfig) (nxt : option ShardConfig) : ShardConfig → option ShardConfig → Prop :=
| kt_same : ktrans cur nxt cur nxt
| kt_post new : ¬ under_way cur nxt → Num new = Num cur + 1 → ktrans cur nxt cur (Some new)
| kt_move n : nxt = Some n → Num n = Num cur + 1 → ktrans cur nxt n (Some n).

(** Writing the next configuration at the version read while no change was
    under way. *)
Lemma write_next s cur nxt new w :
  kst s cur nxt → storable new → 0 < Num new < two63 → 0 ≤ w ≤ next_ver nxt →
  (w = next_ver nxt → ¬ under_way cur nxt ∧ Num new = Num cur + 1) →
  ∃ s', kwrite next_key new w s = Ret s' ∧
    if decide (w = next_ver nxt) then kst s' cur (Some new) else kst s' cur nxt.
Proof.
  intros Hk Hst Hn Hw Hnew. pose proof Hk as [Hok Hc Hx].
  assert (ver_of (vs_abs s) next_key = next_ver nxt) as Hver.
  { unfold ver_of. destruct nxt as [n|]; [destruct Hx as [(_ & _ & b & -> & _) _] | destruct Hx as [-> _]]; done. }
  assert (next_ver nxt = Num cur - 1 ∨ under_way cur nxt ∧ next_ver nxt < two63) as Hnv.
  { destruct nxt as [n|]; simpl; [| left; lia]. destruct Hx as [(_ & Hr & _) [->|E]]; [by left | right].
    unfold under_way. simpl. rewrite E in *. split; [done | lia]. }
  assert (0 ≤ w < two63) as Hw63 by (destruct Hc as (_ & ? & _); lia).
  destruct (write_spec s next_key new w Hok Hst Hn Hw63) as (s' & Hs' & Hok' & Hcase). exists s'. split; [done |].
  rewrite Hver in Hcase. destruct (decide (w = next_ver nxt)) as [->|Hne].
  - rewrite decide_True in Hcase by done. destruct Hcase as [Hst' Hoth]. destruct (Hnew eq_refl) as [Hnu HN].
    destruct Hnv as [E|[? _]]; [| done]. split; [done | eapply stored_ext; [by apply Hoth | done] |]. split; [| by right].
    by replace (Num new - 1) with (next_ver nxt + 1) by lia.
  - rewrite decide_False in Hcase by congruence. by eapply kst_ext.
Qed.

(** Making a configuration the current one. *)
Lemma write_cur s cur nxt c v :
  kst s cur nxt → storable c → 0 < Num c < two63 → Num c = v + 1 → v ≤ Num cur → (v = Num cur → nxt = Some c) →
  ∃ s', kwrite cfg_key c v s = Ret s' ∧ if decide (v = Num cur) then kst s' c (Some c) else kst s' cur nxt.
Proof.
  intros Hk Hst Hn Hv Hle Hx. pose proof Hk as [Hok Hc Hnx].
  assert (ver_of (vs_abs s) cfg_key = Num cur) as Hver by (unfold ver_of; by destruct Hc as (_ & _ & b & -> & _)).
  destruct (write_spec s cfg_key c v Hok Hst Hn ltac:(lia)) as (s' & Hs' & Hok' & Hcase). exists s'. split; [done |].
  rewrite Hver in Hcase. destruct (decide (v = Num cur)) as [->|Hne].
  - rewrite decide_True in Hcase by done. destruct Hcase as [Hst' Hoth]. rewrite (Hx eq_refl) in Hnx. destruct Hnx as [Hnx _].
    split; [done | by rewrite Hv |]. split; [| by left]. eapply stored_ext; [by apply Hoth | done].
  - rewrite decide_False in Hcase by congruence. by eapply kst_ext.
Qed.

(** *** Its calls *)

(** A configuration a call is about. *)
Definition valid (c : ShardConfig) : Prop := storable c ∧ 0 < Num c < two63.

Definition kcall_at (o : option ShardConfig) (l : KCall) (cur : ShardConfig) (nxt : option ShardConfig) : Prop :=
  match l with
  | KChange new => o = Some new ∧ valid new
  | KCurrent new n w => o = Some new ∧ valid new ∧ 0 ≤ w ∧ (w < next_ver nxt ∨ (w = next_ver nxt ∧ n = nxt))
  | KPost new w v =>
      o = Some new ∧ valid new ∧ 0 ≤ w ∧ Num new = v + 1 ∧ v ≤ Num cur ∧
      (w < next_ver nxt ∨ (w = next_ver nxt ∧ v = Num cur ∧ ¬ under_way cur nxt))
  | KPosted new v => o = Some new ∧ valid new ∧ Num new = v + 1 ∧ v ≤ Num cur
  | KMove c v => valid c ∧ Num c = v + 1 ∧ v ≤ Num cur ∧ (v = Num cur → nxt = Some c)
  | KInit => True
  | KInit1 n => ∀ x, n = Some x → valid x ∧ (Num x ≤ Num cur ∨ nxt = Some x)
  end.

(** The steps of any controller leave a call possible. *)
Lemma kcall_mono s o l cur nxt cur' nxt' :
  kst s cur nxt → ktrans cur nxt cur' nxt' → kcall_at o l cur nxt → kcall_at o l cur' nxt'.
Proof.
  intros [_ Hc Hx] Ht Hl. destruct Ht as [|new Hnu HN|n -> HN]; [done | |].
  - assert (next_ver nxt < next_ver (Some new)) as Hlt.
    { simpl. destruct nxt as [n|]; simpl; [| lia]. destruct Hx as [_ [->|E]]; [lia |]. destruct Hnu. unfold under_way. simpl. by rewrite E. }
    destruct l as [nw|nw n w|nw w v|nw v|c v| |n]; simpl in Hl, Hlt |- *.
    + done.
    + destruct Hl as (? & ? & ? & Hcase). split_and!; try done. left. lia.
    + destruct Hl as (? & ? & ? & ? & ? & Hcase). split_and!; try done. left. lia.
    + done.
    + destruct Hl as (Hv & E & Hle & Hcase). split_and!; try done. intros ->. exfalso. apply Hnu. rewrite Hcase by done.
      unfold under_way. simpl. by rewrite E.
    + done.
    + intros x Hxn. destruct (Hl x Hxn) as (Hv & [Hle|E]); (split; [done |]); left; [done |].
      rewrite E in Hx. destruct Hx as [_ [->|E']]; [done |]. destruct Hnu. unfold under_way. rewrite E. simpl. by rewrite E'.
  - destruct l as [nw|nw m w|nw w v|nw v|c v| |m]; simpl in Hl |- *.
    + done.
    + done.
    + destruct Hl as (? & ? & ? & ? & ? & Hcase). split_and!; try done; [lia |].
      destruct Hcase as [?|(-> & -> & Hnu)]; [by left |]. destruct Hnu. unfold under_way. simpl. by rewrite HN.
    + destruct Hl as (? & ? & ? & ?). split_and!; try done. lia.
    + destruct Hl as (? & ? & ? & _). split_and!; try done; [lia |]. intros ->. lia.
    + done.
    + intros x Hxn. destruct (Hl x Hxn) as (Hv & [Hle|E]); (split; [done |]); [left; lia | by right].
Qed.

Lemma int64_next c n : 0 < c < two63 → 0 < n → n = int64 (c + 1) → n = c + 1.
Proof.
  intros Hc Hn ->. destruct (decide (c + 1 < two63)); [apply int64_small; unfold two63 in *; lia |].
  assert (c + 1 = two63) as E by lia. rewrite E in Hn. done.
Qed.

(** One step of a call. *)
Lemma kperform_spec o l s cur nxt :
  kst s cur nxt → kcall_at o l cur nxt →
  ∃ l' s' cur' nxt', kperform l s = Ret (l', s') ∧ kst s' cur' nxt' ∧ ktrans cur nxt cur' nxt' ∧
    (∀ c, l' = Some c → kcall_at o c cur' nxt') ∧ (nxt' = nxt ∨ nxt' = o).
Proof.
  intros Hk Hl. pose proof Hk as [Hok (Hstc & Hrc & _) Hx].
  destruct l as [new|new n w|new w v|new v|c v| |n]; simpl in Hl |- *.
  - rewrite (read_next _ _ _ Hk). simpl. eexists _, s, cur, nxt. split_and!; try done; [constructor | | by left].
    intros c [= <-]. destruct Hl as [-> Hv]. simpl. split_and!; try done; [| by right].
    destruct nxt as [m|]; simpl; [| done]. destruct Hx as [(_ & Hr & _) _]. lia.
  - rewrite (read_cur _ _ _ Hk). simpl. destruct Hl as (-> & [Hst Hr] & Hw & Hcase).
    assert (∀ l', (∀ c, l' = Some c → kcall_at (Some new) c cur nxt) →
      ∃ l2 s' cur' nxt', Ret (l', s) = Ret (l2, s') ∧ kst s' cur' nxt' ∧ ktrans cur nxt cur' nxt' ∧
      (∀ c, l2 = Some c → kcall_at (Some new) c cur' nxt') ∧ (nxt' = nxt ∨ nxt' = Some new)) as Hret.
    { intros l' Hl'. eexists _, s, cur, nxt. split_and!; try done; [constructor | by left]. }
    case_decide as Hd; [| by apply Hret]. destruct Hd as [HN Hne]. apply Hret. intros c [= <-]. simpl.
    assert (Num new = Num cur + 1) as HN' by (by apply int64_next; [lia | lia |]).
    split_and!; try done; try lia. destruct Hcase as [?|[-> ->]]; [by left | right]. split_and!; try done.
    unfold under_way. congruence.
  - destruct Hl as (-> & [Hst Hr] & Hw & HN & Hle & Hcase).
    destruct (write_next s cur nxt new w Hk Hst Hr) as (s' & -> & Hs'); [lia | intros E; naive_solver lia |]. simpl.
    destruct (decide (w = next_ver nxt)) as [E|Hne].
    + eexists _, s', cur, (Some new). split_and!; try done; [| | by right].
      * destruct Hcase as [?|(_ & -> & Hnu)]; [lia |]. by constructor.
      * intros c [= <-]. done.
    + eexists _, s', cur, nxt. split_and!; try done; [constructor | | by left]. intros c [= <-]. done.
  - rewrite (read_next _ _ _ Hk). simpl. destruct Hl as (-> & [Hst Hr] & HN & Hle).
    case_decide as Hd; eexists _, s, cur, nxt; (split_and!; [done | done | constructor | | by left]); [| done].
    intros c [= <-]. done.
  - destruct Hl as ([Hst Hr] & HN & Hle & Hv). destruct (write_cur s cur nxt c v Hk Hst Hr HN Hle Hv) as (s' & -> & Hs'). simpl.
    destruct (decide (v = Num cur)) as [->|Hne].
    + eexists None, s', c, (Some c). split_and!; try done; [apply kt_move; [by apply Hv | done] | left; symmetry; by apply Hv].
    + eexists None, s', cur, nxt. split_and!; try done; [constructor | by left].
  - rewrite (read_next _ _ _ Hk). simpl. eexists _, s, cur, nxt. split_and!; try done; [constructor | | by left].
    intros c [= <-]. intros x ->. destruct Hx as [(Hs & Hr & _) _]. split; [by split | by right].
  - rewrite (read_cur _ _ _ Hk). simpl.
    assert (∀ l', (∀ c, l' = Some c → kcall_at o c cur nxt) →
      ∃ l2 s' cur' nxt', Ret (l', s) = Ret (l2, s') ∧ kst s' cur' nxt' ∧ ktrans cur nxt cur' nxt' ∧
      (∀ c, l2 = Some c → kcall_at o c cur' nxt') ∧ (nxt' = nxt ∨ nxt' = o)) as Hret.
    { intros l' Hl'. eexists _, s, cur, nxt. split_and!; try done; [constructor | by left]. }
    destruct n as [x|]; [| by apply Hret]. case_decide as Hd; [| by apply Hret]. apply Hret. intros c [= <-]. simpl.
    destruct (Hl x eq_refl) as ([Hs Hr] & Hcase).
    assert (Num x = Num cur + 1) as HN' by (by apply int64_next; [lia | lia |]).
    split_and!; try done; try lia. intros _. destruct Hcase; [lia | done].
Qed.

(** *** A change by itself *)

Definition change_at (cur new : ShardConfig) (l : KCall) (c : ShardConfig) (nxt : option ShardConfig) : Prop :=
  c = cur ∧
  match l with
  | KChange x => x = new ∧ ¬ under_way cur nxt
  | KCurrent x n w => x = new ∧ ¬ under_way cur nxt ∧ n = nxt ∧ w = next_ver nxt
  | KPost x w v => x = new ∧ ¬ under_way cur nxt ∧ w = next_ver nxt ∧ v = Num cur
  | KPosted x v | KMove x v => x = new ∧ nxt = Some new ∧ v = Num cur
  | KInit | KInit1 _ => False
  end.

Lemma change_step cur new l s c nxt :
  valid new → Num new = Num cur + 1 → kst s c nxt → change_at cur new l c nxt →
  ∃ l' s', kperform l s = Ret (l', s') ∧
    match l' with
    | Some l' => ∃ c' nxt', kst s' c' nxt' ∧ change_at cur new l' c' nxt'
    | None => kst s' new (Some new)
    end.
Proof.
  intros [Hst Hr] HN Hk [-> Hl]. pose proof Hk as [Hok (Hstc & Hrc & _) Hx].
  assert (0 ≤ next_ver nxt) as Hnv0.
  { destruct nxt as [n|]; simpl; [destruct Hx as [(_ & ? & _) _]; lia | done]. }
  destruct l as [x|x n w|x w v|x v|x v| |]; simpl in Hl |- *; try done.
  - destruct Hl as [-> Hnu]. rewrite (read_next _ _ _ Hk). simpl. eexists _, s. split; [done |]. by exists cur, nxt.
  - destruct Hl as (-> & Hnu & -> & ->). rewrite (read_cur _ _ _ Hk). simpl. rewrite decide_True.
    + eexists _, s. split; [done |]. by exists cur, nxt.
    + split; [rewrite HN; symmetry; apply int64_small; unfold two63 in *; lia |]. by rewrite HN.
  - destruct Hl as (-> & Hnu & -> & ->). destruct (write_next s cur nxt new (next_ver nxt) Hk Hst Hr) as (s' & -> & Hs'); [lia | done |].
    rewrite decide_True in Hs' by done. simpl. eexists _, s'. split; [done |]. by exists cur, (Some new).
  - destruct Hl as (-> & -> & ->). rewrite (read_next _ _ _ Hk). simpl. rewrite decide_True by done.
    eexists _, s. split; [done |]. by exists cur, (Some new).
  - destruct Hl as (-> & -> & ->). destruct (write_cur s cur (Some new) new (Num cur) Hk Hst Hr) as (s' & -> & Hs'); [lia | lia | done |].
    rewrite decide_True in Hs' by done. simpl. by eexists None, s'.
Qed.

Lemma change_run fs : ∀ cur new l s c nxt s', valid new → Num new = Num cur + 1 → kst s c nxt → change_at cur new l c nxt →
  run_call fs (Some l) s = Ret (None, s') → kst s' new (Some new).
Proof.
  induction fs as [|f fs IH]; intros cur new l s c nxt s' Hv HN Hk Hl Hrun; simpl in Hrun; [done |].
  destruct f; simpl in Hrun; [by eapply IH |].
  destruct (change_step cur new l s c nxt Hv HN Hk Hl) as (l' & s1 & E & Hcase). rewrite E in Hrun. simpl in Hrun.
  destruct l' as [l'|]; [destruct Hcase as (c1 & n1 & Hk1 & Hl1); by eapply IH |].
  destruct fs; simpl in Hrun; by injection Hrun as <-.
Qed.

(** *** Recovery by itself *)

Definition init_at (tgt : option ShardConfig) (l : KCall) (c : ShardConfig) (nxt : option ShardConfig) : Prop :=
  tgt = (if decide (under_way c nxt) then nxt else Some c) ∧
  match l with
  | KInit => True
  | KInit1 n => n = nxt
  | KMove x v => valid x ∧ nxt = Some x ∧ Num x = Num c + 1 ∧ v = Num c
  | _ => False
  end.

Lemma init_step tgt l s c nxt :
  kst s c nxt → init_at tgt l c nxt →
  ∃ l' s', kperform l s = Ret (l', s') ∧
    match l' with
    | Some l' => ∃ c' nxt', kst s' c' nxt' ∧ init_at tgt l' c' nxt'
    | None => ∃ c' nxt', kst s' c' nxt' ∧ ¬ under_way c' nxt' ∧ tgt = Some c'
    end.
Proof.
  intros Hk [Ht Hl]. pose proof Hk as [Hok (Hstc & Hrc & _) Hx].
  destruct l as [| | | |x v| |n]; simpl in Hl |- *; try done.
  - destruct Hl as ([Hst Hr] & -> & HN & ->). destruct (write_cur s c (Some x) x (Num c) Hk Hst Hr) as (s' & -> & Hs'); [lia | lia | done |].
    rewrite decide_True in Hs' by done. simpl. eexists None, s'. split; [done |]. exists x, (Some x). split; [done |].
    rewrite decide_True in Ht by (unfold under_way; simpl; by rewrite HN). split; [| done]. unfold under_way. simpl. intros [= E]. lia.
  - rewrite (read_next _ _ _ Hk). simpl. eexists _, s. split; [done |]. by exists c, nxt.
  - subst n. rewrite (read_cur _ _ _ Hk). simpl. destruct nxt as [x|].
    + destruct Hx as [(Hst & Hr & _) Hcase]. destruct (decide (Num x = int64 (Num c + 1))) as [Hd|Hd].
      * eexists _, s. split; [done |]. exists c, (Some x). split; [done |]. split; [done |]. split_and!; try done.
        apply int64_next; [lia | lia | done].
      * eexists None, s. split; [done |]. exists c, (Some x). split; [done |].
        assert (¬ under_way c (Some x)) as Hnu.
        { unfold under_way. simpl. intros [= E]. apply Hd. rewrite E. symmetry. apply int64_small. unfold two63 in *. lia. }
        by rewrite decide_False in Ht.
    + eexists None, s. split; [done |]. exists c, None. split; [done |]. by rewrite decide_False in Ht.
Qed.

Lemma init_run fs : ∀ tgt l s c nxt s', kst s c nxt → init_at tgt l c nxt →
  run_call fs (Some l) s = Ret (None, s') → ∃ c' nxt', kst s' c' nxt' ∧ ¬ under_way c' nxt' ∧ tgt = Some c'.
Proof.
  induction fs as [|f fs IH]; intros tgt l s c nxt s' Hk Hl Hrun; simpl in Hrun; [done |].
  destruct f; simpl in Hrun; [by eapply IH |].
  destruct (init_step tgt l s c nxt Hk Hl) as (l' & s1 & E & Hcase). rewrite E in Hrun. simpl in Hrun.
  destruct l' as [l'|]; [destruct Hcase as (c1 & n1 & Hk1 & Hl1); by eapply IH |].
  destruct fs; simpl in Hrun; by injection Hrun as <-.
Qed.

(** *** Every call ends *)

Definition krank (l : KCall) : nat :=
  match l with
  | KChange _ => 5 | KCurrent _ _ _ => 4 | KPost _ _ _ => 3 | KPosted _ _ => 2 | KMove _ _ => 1 | KInit => 3 | KInit1 _ => 2
  end.

Lemma kperform_rank l s l' s' : kperform l s = Ret (Some l', s') → (krank l' < krank l)%nat.
Proof.
  destruct l; simpl; intros Hs; unwrap_go; repeat (case_match || case_decide); simplify_eq/=; lia.
Qed.

Lemma call_ends o : ∀ k l s cur nxt, (krank l ≤ k)%nat → kst s cur nxt → kcall_at o l cur nxt →
  ∃ s', run_call (replicate (Datatypes.S k) Performed) (Some l) s = Ret (None, s').
Proof.
  induction k as [|k IH]; intros l s cur nxt Hk Hs Hl; [destruct l; simpl in Hk; lia |].
  destruct (kperform_spec o l s cur nxt Hs Hl) as (l1 & s1 & cur1 & nxt1 & E & Hs1 & _ & Hl1 & _).
  change (replicate (Datatypes.S (Datatypes.S k)) Performed) with (Performed :: replicate (Datatypes.S k) Performed). cbn [run_call ct_step two_keys].
  rewrite E. cbn [go_bind]. destruct l1 as [l1|].
  - apply kperform_rank in E. eapply IH; [lia | done | by apply Hl1].
  - exists s1. done.
Qed.

(** *** The laws *)

Definition kok (s : S) : Prop := ∃ cur nxt, kst s cur nxt.
Definition kcall (o : option ShardConfig) (l : KCall) (s : S) : Prop := ∀ cur nxt, kst s cur nxt → kcall_at o l cur nxt.

Lemma kcall_intro o l s cur nxt : kst s cur nxt → kcall_at o l cur nxt → kcall o l s.
Proof. intros Hk Hl c n Hk'. by destruct (kst_det _ _ _ _ _ Hk Hk') as [-> ->]. Qed.

Lemma ktrans_evolves o s cur nxt s' cur' nxt' :
  kst s cur nxt → kst s' cur' nxt' → ktrans cur nxt cur' nxt' → nxt' = nxt ∨ nxt' = o →
  evolves o (kholds s) (kpending s) (kholds s') (kpending s').
Proof.
  intros Hk Hk' Ht Ho. destruct (kst_view _ _ _ Hk) as [-> ->], (kst_view _ _ _ Hk') as [-> ->].
  destruct Ht as [|new Hnu HN|n -> HN]; unfold evolves.
  - by left.
  - right. left. rewrite (decide_False (P := under_way cur nxt)) by done.
    rewrite decide_True by (unfold under_way; simpl; by rewrite HN). exists cur, new. split_and!; try done.
    destruct Ho as [<-|<-]; [| done]. destruct Hnu. unfold under_way. simpl. by rewrite HN.
  - right. right. exists n. rewrite decide_True by (unfold under_way; simpl; by rewrite HN). split_and!; try done.
    rewrite decide_False; [done |]. unfold under_way. simpl. intros [= E]. lia.
Qed.

#[local] Program Instance two_keys_spec : SteppedSpec S KCall Fate := {|
  ct_ok := kok; ct_holds := kholds; ct_pending := kpending; ct_call := kcall
|}.
Next Obligation.
  intros s (cur & nxt & Hk). simpl. rewrite (read_cur _ _ _ Hk). simpl. by destruct (kst_view _ _ _ Hk) as [-> _].
Qed.
Next Obligation. intros s _ cur nxt _. done. Qed.
Next Obligation. intros s new _ Hst Hr cur nxt _. by split. Qed.
Next Obligation.
  intros s o l f (cur & nxt & Hk) Hl. destruct f; simpl.
  { exists (Some l), s. split; [done |]. split; [by exists cur, nxt |]. split; [by intros c [= <-] |]. split; [by left | done]. }
  destruct (kperform_spec o l s cur nxt Hk (Hl _ _ Hk)) as (l' & s' & cur' & nxt' & E & Hk' & Ht & Hl' & Ho).
  exists l', s'. split; [done |]. split; [by exists cur', nxt' |]. split; [intros c Hc; eapply kcall_intro; eauto |].
  split; [by eapply ktrans_evolves |]. intros o2 l2 Hl2. eapply kcall_intro; [done |]. eapply (kcall_mono s); [done | done | by apply Hl2].
Qed.
Next Obligation.
  intros fs s cur new s' (c & nxt & Hk) Hst Hr Hh Hp HN Hrun. destruct (kst_view _ _ _ Hk) as [E1 E2].
  rewrite E1 in Hh. injection Hh as ->. assert (¬ under_way cur nxt) as Hnu.
  { intros Hu. rewrite E2, decide_True in Hp by done. unfold under_way in Hu. by subst. }
  pose proof (change_run fs cur new (KChange new) s cur nxt s' (conj Hst Hr) HN Hk ltac:(done) Hrun) as Hk'.
  destruct (kst_view _ _ _ Hk') as [-> ->]. split; [done |]. rewrite decide_False; [done |]. unfold under_way. simpl. intros [= E]. lia.
Qed.
Next Obligation.
  intros fs s s' (c & nxt & Hk) Hrun. destruct (kst_view _ _ _ Hk) as [-> ->].
  destruct (init_run fs _ KInit s c nxt s' Hk ltac:(by split) Hrun) as (c' & nxt' & Hk' & Hnu & Ht).
  destruct (kst_view _ _ _ Hk') as [-> ->]. rewrite (decide_False (P := under_way c' nxt')) by done. split; [| done].
  rewrite <- Ht. case_decide as Hu; [| done]. unfold under_way in Hu. by destruct nxt.
Qed.
Next Obligation.
  intros s o l (cur & nxt & Hk) Hl. destruct (call_ends o (krank l) l s cur nxt ltac:(done) Hk (Hl _ _ Hk)) as [s' Hs']. eauto.
Qed.

(** The first configuration, put there at version 0. *)
Lemma kst_first s c : vs_ok s → vs_abs s !! cfg_key = None → vs_abs s !! next_key = None → storable c → Num c = 1 →
  ∃ s', kwrite cfg_key c 0 s = Ret s' ∧ kok s' ∧ kholds s' = Some c ∧ kpending s' = None.
Proof.
  intros Hok Hc Hn Hst HN. destruct (write_spec s cfg_key c 0 Hok Hst) as (s' & Hs' & Hok' & Hcase); [rewrite HN; done | done |].
  unfold ver_of in Hcase. rewrite Hc, decide_True in Hcase by done. destruct Hcase as [Hst' Hoth].
  assert (kst s' c None) as Hk.
  { split; [done | by rewrite HN | by rewrite Hoth]. }
  exists s'. split; [done |]. split; [by exists c, None |]. destruct (kst_view _ _ _ Hk) as [-> ->]. by rewrite decide_False.
Qed.

End two_keys.

End ShardCtl.
