(* ===== verification/ShardConcur.v ===== *)
(** * Controllers at the same time: [concurCtrler] of [shardkv1/test.go]

    Four goroutines that each make groups join and leave through controllers
    of their own, until they are told to stop.  The controller's methods are
    placeholders in the repository; here they are those of any controller of
    which the laws of [ShardCtl.SteppedSpec] hold, and their calls are
    interleaved step by step. *)

From S2P Require Import Prelude KVServer ShardCfg TesterGroup ShardTest ShardCtl.
#[local] Open Scope Z_scope.

Import ShardCfg ShardTest ShardCtl.

Module ShardConcur.

Section concur.
Context {D C F : Type} `{!Stepped D C F}.

(** ** The goroutines *)

(** Where [f] is: at its [select]; in [InitController], with a new number
    [gid]; with the group not yet started; in [join] before [Query], and in
    [ChangeConfigTo]; before the two calls of [checkMember]; in [leave]
    before [Query], and in [ChangeConfigTo]; before [checkMember] and
    [ExitGroup] of [leaveGroups]; returned. *)
Inductive Pc : Type :=
| PSelect
| PInit (gid : Z) (c : C)
| PStart (gid : Z)
| PJoin (gid : Z)
| PJoining (gid : Z) (cfg newcfg : ShardConfig) (c : C)
| PJoined (gid : Z)
| PCheck (gid : Z)
| PLeave (gid : Z)
| PLeaving (gid : Z) (cfg newcfg : ShardConfig) (c : C)
| PLeft (gid : Z)
| PExit (gid : Z)
| PReturned.













(** ** The invariant *)






Definition returned (p : Pc) : Prop := p = PReturned.
#[export] Instance returned_dec p : Decision (returned p).
Proof. destruct p; (by left) || (by right). Defined.


Context `{!SteppedSpec D C F}.



















(** ** Steps of the controllers *)










End concur.

(** ** The property *)


(** *** Witness: the controller on two keys of a key/value server *)

#[export] Instance ex_json : ConfigJson := bits_json.
#[export] Instance ex_stepped : Stepped KVServer.KVServer KCall Fate := two_keys.
#[export] Instance ex_spec : SteppedSpec KVServer.KVServer KCall Fate := two_keys_spec.








End ShardConcur.
