(* ===== verification/ShardPartition.v ===== *)
(** * A controller that is cut off: [partitionCtrler] of [shardkv1/test.go]

    A controller makes groups join and leave and is disconnected in the middle
    of a change; the test concludes from the variables it left and from the
    configuration a second controller recovers whether recovery was right.
    The controllers are any ones of which the laws of [ShardCtl.SteppedSpec]
    hold. *)

From S2P Require Import Prelude KVServer ShardCfg TesterGroup ShardTest ShardCtl ShardConcur.
#[local] Open Scope Z_scope.

Import ShardCfg ShardTest ShardCtl.

Module ShardPartition.

(** ** The controller that is cut off *)


Section partition.
Context {D C F : Type} `{!Stepped D C F}.








(** ** What the test concludes *)



(** ** A change that is under way, alone *)

Context `{!SteppedSpec D C F}.





(** ** The invariant *)
















End partition.

(** ** The property *)


(** *** Witness: a correct controller is blamed in its second round *)

#[local] Existing Instances ShardConcur.ex_json ShardConcur.ex_stepped ShardConcur.ex_spec.



End ShardPartition.
