(* ===== verification/ShardShutdown.v ===== *)
(** * Reading keys while a group is down: [checkShutdownSharding] of
    [shardkv1/test.go]

    One client per key calls [Get] and sends the result on an unbuffered
    channel; the test receives until two seconds pass without a result, and
    requires that not all clients have completed. *)

From S2P Require Import Prelude ShardCfg TesterGroup ShardTest.
#[local] Open Scope Z_scope.

Import ShardCfg ShardTest.

Module ShardShutdown.

(** ** Reading keys while a group is down *)

(** A client: in [Get]; with the value, before it looks at [done]; sending
    the result; returned. *)
Inductive CPc : Type :=
| CGet
| CGot (v : string)
| CSend (v : string)
| CExit.

(** [checkShutdownSharding]: in its loop; brought the group back; or failed,
    because of a wrong value or because all clients completed. *)
Inductive MPc : Type :=
| MSelect
| MPassed
| MWrong (i : nat) (v : string)
| MAll.

(** [got]: the clients whose results were received ([ndone] is their number). *)
Record State := mkState { clients : list CPc; main : MPc; flag : bool; got : list nat }.

Inductive Label : Type :=
| LGet (i : nat) (v : string)   (** the [Get] of client [i] returns [v] *)
| LLoad (i : nat)               (** client [i] loads [done] *)
| LRecv (i : nat)               (** its result is received *)
| LTimeout.                     (** two seconds without a result *)

Section check.
Context (va : list string).

Definition step (l : Label) (s : State) : option State :=
  match l with
  | LGet i v =>
      match clients s !! i with
      | Some CGet => Some (mkState (<[i := CGot v]> (clients s)) (main s) (flag s) (got s))
      | _ => None
      end
  | LLoad i =>
      match clients s !! i with
      | Some (CGot v) => Some (mkState (<[i := if flag s then CExit else CSend v]> (clients s)) (main s) (flag s) (got s))
      | _ => None
      end
  | LRecv i =>
      match main s, clients s !! i with
      | MSelect, Some (CSend v) =>
          let cs := <[i := CExit]> (clients s) in
          if decide (va !! i = Some v) then Some (mkState cs MSelect (flag s) (i :: got s))
          else Some (mkState cs (MWrong i v) (flag s) (got s))
      | _, _ => None
      end
  | LTimeout =>
      match main s with
      | MSelect =>
          Some (mkState (clients s) (if decide (length va ≤ length (got s))%nat then MAll else MPassed) true (got s))
      | _ => None
      end
  end.

Fixpoint run (ls : list Label) (s : State) : option State :=
  match ls with
  | [] => Some s
  | l :: ls => s' ← step l s; run ls s'
  end.

Definition init : State := mkState (replicate (length va) CGet) MSelect false [].

(** What the [Get]s of a run returned. *)
Definition gets (ls : list Label) : list (nat * string) :=
  omap (λ l, match l with LGet i v => Some (i, v) | _ => None end) ls.

(** Clients hold the values their [Get]s returned; the ones received are
    distinct, had the expected value and are gone. *)
Record inv (ds : list (nat * string)) (s : State) : Prop := {
  inv_len : length (clients s) = length va;
  inv_vals : ∀ i v, clients s !! i = Some (CGot v) ∨ clients s !! i = Some (CSend v) → (i, v) ∈ ds;
  inv_nodup : NoDup (got s);
  inv_got : ∀ i, i ∈ got s → clients s !! i = Some CExit ∧ ∃ v, va !! i = Some v ∧ (i, v) ∈ ds;
  inv_main : match main s with
             | MSelect => flag s = false
             | MPassed => (length (got s) < length va)%nat
             | MWrong i v => (i, v) ∈ ds ∧ va !! i ≠ Some v
             | MAll => (length va ≤ length (got s))%nat
             end;
}.

Lemma read_step_inv ds l s s' :
  inv ds s → step l s = Some s' → inv (match l with LGet i v => (i, v) :: ds | _ => ds end) s'.
Proof.
  intros [Hl Hv Hn Hg Hm] H. destruct l as [i v|i|i|]; simpl in H.
  - destruct (clients s !! i) as [[]|] eqn:Ei; try done. injection H as <-. split; simpl; try done.
    + by rewrite length_insert.
    + intros j w Hj. destruct (decide (j = i)) as [->|Hne].
      * rewrite list_lookup_insert_eq in Hj by (by eapply lookup_lt_Some). destruct Hj; simplify_eq. by left.
      * rewrite list_lookup_insert_ne in Hj by done. right. by apply Hv.
    + intros j Hj. destruct (Hg j Hj) as [He (w & Hw & Hd)]. rewrite list_lookup_insert_ne by congruence.
      split; [done |]. exists w. split; [done | by right].
    + destruct (main s); try done. destruct Hm. split; [by right | done].
  - destruct (clients s !! i) as [[| w | |]|] eqn:Ei; try done. injection H as <-. split; simpl; try done.
    + by rewrite length_insert.
    + intros j u Hj. destruct (decide (j = i)) as [->|Hne].
      * rewrite list_lookup_insert_eq in Hj by (by eapply lookup_lt_Some). destruct (flag s), Hj; simplify_eq. apply Hv. by left.
      * rewrite list_lookup_insert_ne in Hj by done. by apply Hv.
    + intros j Hj. destruct (Hg j Hj) as [He Hw]. rewrite list_lookup_insert_ne by congruence. done.
  - destruct (main s) eqn:Em; try done. destruct (clients s !! i) as [[| | w |]|] eqn:Ei; try done.
    assert ((i, w) ∈ ds) as Hd by (apply Hv; by right).
    assert (∀ j u, <[i := CExit]> (clients s) !! j = Some (CGot u) ∨ <[i := CExit]> (clients s) !! j = Some (CSend u) → (j, u) ∈ ds) as Hv'.
    { intros j u Hj. destruct (decide (j = i)) as [->|Hne].
      - rewrite list_lookup_insert_eq in Hj by (by eapply lookup_lt_Some). by destruct Hj.
      - rewrite list_lookup_insert_ne in Hj by done. by apply Hv. }
    assert (∀ j, j ∈ got s → <[i := CExit]> (clients s) !! j = Some CExit ∧ ∃ v, va !! j = Some v ∧ (j, v) ∈ ds) as Hg'.
    { intros j Hj. destruct (Hg j Hj) as [He Hw]. rewrite list_lookup_insert_ne by congruence. done. }
    case_decide as Hd'; injection H as <-; split; simpl; try done; rewrite ?length_insert; try done.
    + apply NoDup_cons. split; [| done]. intros Hin. destruct (Hg i Hin). congruence.
    + intros j [->|Hj]%elem_of_cons; [| by apply Hg']. split; [| by exists w].
      apply list_lookup_insert_eq. by eapply lookup_lt_Some.
  - destruct (main s) eqn:Em; try done. injection H as <-. split; simpl; try done. case_decide; [done | lia].
Qed.

Lemma read_run_inv ls : ∀ ds s s', inv ds s → run ls s = Some s' → ∃ ds', inv ds' s' ∧ ∀ x, x ∈ ds' → x ∈ ds ∨ x ∈ gets ls.
Proof.
  induction ls as [|l ls IH]; intros ds s s' Hi H; simpl in H; [injection H as <-; exists ds; split; [done | by left] |].
  apply bind_Some in H as (s1 & H1 & H2). destruct (IH _ _ _ (read_step_inv _ _ _ _ Hi H1) H2) as (d & Hi' & Hd).
  exists d. split; [done |]. intros x Hx. specialize (Hd x Hx).
  destruct l; simpl; [| exact Hd..]. rewrite elem_of_cons in Hd. rewrite elem_of_cons. tauto.
Qed.

Lemma read_init_inv : inv [] init.
Proof.
  split; simpl; try done.
  - apply length_replicate.
  - intros i v [[? _]%lookup_replicate|[? _]%lookup_replicate]; done.
  - constructor.
  - by intros i ?%not_elem_of_nil.
Qed.

End check.

(** ** The property *)

(** What [checkShutdownSharding] tells.  It passes only if some client has
    not come back with a value; it fails only if a [Get] returned a wrong
    value, or if all returned the right ones.  So it passes when a key is out
    of reach and the other values are right; and it ends: each round of its
    loop that is not the last takes the result of another client. *)
Theorem shutdown_check (va : list string) (ls : list Label) (s : State) (Hrun : run va ls (init va) = Some s) :
  (length (got s) ≤ length va)%nat ∧
  match main s with
  | MSelect => ∃ s', step va LTimeout s = Some s' ∧ main s' ≠ MSelect
  | MPassed => ∃ i, (i < length va)%nat ∧ i ∉ got s
  | MWrong i v => (i, v) ∈ gets ls ∧ va !! i ≠ Some v
  | MAll => ∀ i v, va !! i = Some v → (i, v) ∈ gets ls
  end.
Proof.
  destruct (read_run_inv va ls [] (init va) s (read_init_inv va) Hrun) as (ds & [Hl Hv Hn Hg Hm] & Hd).
  assert (∀ x, x ∈ ds → x ∈ gets ls) as Hd'.
  { intros x Hx. destruct (Hd x Hx) as [?%not_elem_of_nil|?]; done. }
  assert (got s ⊆+ seq 0 (length va)) as Hsub.
  { apply NoDup_submseteq; [done |]. intros i Hi. destruct (Hg i Hi) as [_ (v & Hv' & _)].
    apply elem_of_seq. apply lookup_lt_Some in Hv'. lia. }
  pose proof (submseteq_length _ _ Hsub) as Hlen. rewrite length_seq in Hlen. split; [done |].
  destruct (main s) eqn:Em.
  - eexists. split; [simpl; by rewrite Em |]. simpl. by case_decide.
  - destruct (decide (Forall (λ i, i ∈ got s) (seq 0 (length va)))) as [Ha|Ha].
    + exfalso. rewrite Forall_forall in Ha.
      assert (seq 0 (length va) ⊆+ got s) as Hs' by (apply NoDup_submseteq; [apply NoDup_seq | done]).
      apply submseteq_length in Hs'. rewrite length_seq in Hs'. lia.
    + apply not_Forall_Exists, Exists_exists in Ha as (i & Hi%elem_of_seq & Hni); [| apply _]. exists i. split; [lia | done].
  - destruct Hm. split; [by apply Hd' | done].
  - intros i v Hi. assert (i ∈ got s) as Hin.
    { assert (got s ≡ₚ seq 0 (length va)) as ->; [| apply elem_of_seq; apply lookup_lt_Some in Hi; lia].
      apply submseteq_length_Permutation; [done |]. rewrite length_seq. lia. }
    destruct (Hg i Hin) as [_ (w & Hw & Hdw)]. simplify_eq. by apply Hd'.
Qed.

Lemma shutdown_check_witness :
  ∃ s, run ["a"; "b"]%string [LGet 1 "b"%string; LLoad 1; LRecv 1; LTimeout] (init ["a"; "b"]%string) = Some s ∧ main s = MPassed ∧
    (length (got s) ≤ 2)%nat.
Proof.
  eexists. split; [reflexivity |]. split; [reflexivity |].
  exact (proj1 (shutdown_check ["a"; "b"]%string [LGet 1 "b"%string; LLoad 1; LRecv 1; LTimeout] _ eq_refl)).
Defined.

End ShardShutdown.

