(* ===== verification/KVSetup.v ===== *)
(** * Setting up the key/value tests

    [MakeTest], [Cleanup] and [ConnectClnts] of [kvtest1/kvtest.go], the tests'
    clients, and the set-up of the single server ([kvsrv1/test.go]); what a new
    configuration has running and a new client reaches. *)

From S2P Require Import Prelude KVServer KVLog Raft Labrpc TesterGroup TesterClnts Annotation TesterConfig TesterSystem RSM ShardTest.
#[local] Open Scope Z_scope.

Module KVSetup.
Module TC := TesterConfig.
Module TS := TesterSystem.
Module Cl := TesterClnts.

(** ** Clients of a configuration *)

Definition with_clients (cfg : TC.Config) (cs : Cl.Clnts) : TC.Config :=
  TC.mkConfig (Cl.net cs) (TC.ptr cfg) (TC.grps cfg) cs (TC.rpcs0 cfg) (TC.ops cfg).

(** [cfg.MakeClientTo] and [cfg.MakeClient]; the client's number. *)
Definition MakeClientTo (cfg : TC.Config) (to : option (list string)) : GoRes (TC.Config * nat) :=
  (let* cs := Cl.MakeClientTo (TC.load_clnts cfg) to in Ret (with_clients cfg cs, length (Cl.clnts (TC.clnts cfg))))%go.
Definition MakeClient (cfg : TC.Config) : GoRes (TC.Config * nat) := MakeClientTo cfg None.
Definition DeleteClient (cfg : TC.Config) (clnt : nat) : GoRes TC.Config :=
  (let* cs := Cl.DeleteClient (TC.load_clnts cfg) clnt in Ret (with_clients cfg cs))%go.

(** [kvtest.TestClerk]: a clerk and its client. *)
Record TestClerk (C : Type) := mkTestClerk { IKVClerk : C; Clnt : nat }.
Arguments mkTestClerk {C} _ _.
Arguments IKVClerk {C} _.
Arguments Clnt {C} _.

(** ** [kvtest.Test] *)

Record Test := mkTest { config : TC.Config; oplog : KVLog.OpLog; randomkeys : bool }.

Definition kvtest_MakeTest (cfg : TC.Config) (randomkeys : bool) : Test := mkTest cfg [] randomkeys.

(** [Cleanup] prints the statistics and cleans up the configuration. *)
Definition Test_Cleanup (t1 t2 : Z) (enabled : string) (opened : bool) (order : list string) (failed : bool) (elapsed : Z)
    (ts : Test) (g : Annotation.Global) : GoRes (TC.Config * Annotation.Global * option (list Annotation.Annot)) :=
  (let* _ := TC.End_ (config ts) failed elapsed in TC.Cleanup t1 t2 enabled opened order failed elapsed (config ts) g)%go.

Fixpoint ConnectClnts (cs : Cl.Clnts) (clnts : list nat) : GoRes Cl.Clnts :=
  match clnts with
  | [] => Ret cs
  | i :: clnts =>
      (let* c := deref (Cl.clnts cs !! i) "nil pointer dereference" in
       let '(rn, c) := Cl.ConnectAll (Cl.net cs) c in
       ConnectClnts (Cl.mkClnts rn (<[i := c]> (Cl.clnts cs)) (Cl.clerks cs)) clnts)%go
  end.

(** ** The single server: [kvsrv1/test.go] *)

Record kvsrv_Clerk := mkClerk { clnt : nat; server : string }.

Record TestKV := mkTestKV { kv_Test : Test; reliable : bool }.

Definition MakeTestKV (reliable : bool) (nm : ShardTest.Draw) : GoRes TestKV :=
  (let* cfg := TC.MakeConfig reliable nm.1 nm.2 in Ret (mkTestKV (kvtest_MakeTest cfg false) reliable))%go.

Definition set_cfg (ts : Test) (cfg : TC.Config) : Test := mkTest cfg (oplog ts) (randomkeys ts).

Definition TestKV_MakeClerk (ts : Test) : GoRes (Test * TestClerk kvsrv_Clerk) :=
  (let* (cfg, clnt) := MakeClient (config ts) in
   Ret (set_cfg ts cfg, mkTestClerk (mkClerk clnt (TC.Grp.ServerName TC.GRP0 0)) clnt))%go.

(** [DeleteClerk] is the same in all labs. *)
Definition DeleteClerk {C : Type} (ts : Test) (tck : TestClerk C) : GoRes Test :=
  (let* cfg := DeleteClient (config ts) (Clnt tck) in Ret (set_cfg ts cfg))%go.

(** ** What clerks reach *)

(** A new client, which has called nobody yet. *)
Lemma client_made cfg to live :
  Cl.clerks (TC.clnts cfg) = Some live →
  ∃ cfg', MakeClientTo cfg to = Ret (cfg', length (Cl.clnts (TC.clnts cfg))) ∧
    TC.net cfg' = TC.net cfg ∧ TC.grps cfg' = TC.grps cfg ∧
    (∀ sv, Cl.reach (TC.load_clnts cfg') (length (Cl.clnts (TC.clnts cfg))) sv = Cl.allowed_by to sv) ∧
    (∀ j sv, (j < length (Cl.clnts (TC.clnts cfg)))%nat → Cl.reach (TC.load_clnts cfg') j sv = Cl.reach (TC.load_clnts cfg) j sv) ∧
    ∃ cfg'', DeleteClient cfg' (length (Cl.clnts (TC.clnts cfg))) = Ret cfg'' ∧ TC.net cfg'' = TC.net cfg ∧ TC.grps cfg'' = TC.grps cfg.
Proof.
  intros Hl. unfold MakeClientTo, Cl.MakeClientTo, TC.load_clnts. simpl. rewrite Hl. simpl. eexists. split; [done |].
  assert ((Cl.clnts (TC.clnts cfg) ++ [Cl.makeClntTo to]) !! length (Cl.clnts (TC.clnts cfg)) = Some (Cl.makeClntTo to)) as Hat.
  { by rewrite lookup_app_r, Nat.sub_diag by lia. }
  split; [done |]. split; [done |]. split; [| split].
  - intros sv. unfold Cl.reach. simpl. rewrite Hat. simpl. by destruct to.
  - intros j sv Hj. unfold Cl.reach. simpl. by rewrite lookup_app_l.
  - unfold DeleteClient, Cl.DeleteClient, TC.load_clnts. simpl. rewrite decide_True by set_solver. simpl. rewrite Hat. simpl.
    eexists. split; [reflexivity |]. done.
Qed.

(** A new configuration has one group, all of whose servers run. *)
Lemma config_made reliable nm :
  TS.square nm.1 nm.2 → NoDup (ShardTest.drawn nm) →
  ∃ cfg sg, TC.MakeConfig reliable nm.1 nm.2 = Ret cfg ∧ TC.lookupGroup cfg TC.GRP0 = Some sg ∧
    TC.SrvNames sg = TC.Grp.ServerName TC.GRP0 <$> seq 0 (length nm.1) ∧
    (∀ j, (j < length nm.1)%nat → is_Some (Labrpc.server_at (TC.net cfg) (TC.Grp.ServerName TC.GRP0 j))) ∧
    Cl.clerks (TC.clnts cfg) = Some ∅ ∧ Cl.clnts (TC.clnts cfg) = [].
Proof.
  intros Hsq Hnd. destruct (TS.group_starts_in TS.empty_config nm.1 nm.2 TC.GRP0 Hsq Hnd)
    as (cfg & sg & Hm & Hg & Hnet & _ & _ & _ & _ & _ & _ & Hsn & _ & Hat & _); [set_solver |].
  unfold TC.MakeConfig. unfold TS.empty_config in Hm. rewrite Hm. simpl. eexists _, sg. split; [done |].
  unfold TC.lookupGroup. simpl. rewrite Hg, lookup_insert_eq. split_and!; try done.
  intros j Hj. specialize (Hat j Hj). rewrite <- Hnet in Hat. exact Hat.
Qed.

Lemma SrvNamesTo_spec sg gid n to :
  TC.Grp.servernames sg = TC.Grp.ServerName gid <$> seq 0 n → (∀ i, i ∈ to → (i < n)%nat) →
  TC.Grp.SrvNamesTo sg to = Ret (TC.Grp.ServerName gid <$> to).
Proof.
  intros Hs. unfold TC.Grp.SrvNamesTo. induction to as [|i to IH]; intros Hto; [done |]. cbn [foldr].
  rewrite IH by (intros j Hj; apply Hto; by right). unfold TC.Grp.SrvName. rewrite Hs, list_lookup_fmap.
  rewrite (lookup_seq_lt 0 n i) by (apply Hto; by left). done.
Qed.

End KVSetup.
