(* ===== verification/KVRaft.v ===== *)
(** * The replicated key/value server: [kvraft1/]

    The server ([server.go]) and the clerk ([client.go]) are placeholders in the
    repository and are here as they are; the set-up of the tests ([test.go])
    makes their configuration and clerks. *)

From S2P Require Import Prelude KVServer Raft Labrpc TesterGroup TesterClnts Annotation TesterConfig TesterSystem RSM ShardTest KVSetup.
#[local] Open Scope Z_scope.

Module KVRaft.
Import KVSetup.

(** [server.go]: the methods are placeholders. *)
Record KVServer := mkKVServer { me : nat; dead : Z; rsm : RSM.RSM }.

Definition DoOp {Req Rep : Type} (kv : KVServer) (req : Req) : option Rep := None.
Definition Snapshot (kv : KVServer) : list Z := [].
Definition Restore (kv : KVServer) (data : list Z) : KVServer := kv.
Definition Get (kv : KVServer) (args : GetArgs) (reply : GetReply) : GetReply := reply.
Definition Put (kv : KVServer) (args : PutArgs) (reply : PutReply) : PutReply := reply.
Definition Kill (kv : KVServer) : KVServer := mkKVServer (me kv) 1 (rsm kv).
Definition killed (kv : KVServer) : bool := bool_decide (dead kv = 1).

(** [StartKVServer]: the two services it returns.  Registering types with
    [labgob] prepares the encoder, which is a parameter elsewhere. *)
Definition StartKVServer (npeers srv : nat) (raftstate : list Z) (maxraftstate r : Z) : KVServer * option Raft.Raft :=
  let kv := mkKVServer srv 0 (RSM.MakeRSM false npeers srv raftstate maxraftstate r) in
  (kv, RSM.RSM_Raft (rsm kv)).

(** [client.go] *)
Record Clerk := mkClerk { clnt : nat; servers : list string }.
Definition MakeClerk (clnt : nat) (servers : list string) : Clerk := mkClerk clnt servers.
Definition Clerk_Get (ck : Clerk) (key : string) : string * Tversion * Err := ("", 0, ErrNone).
Definition Clerk_Put (ck : Clerk) (key value : string) (version : Tversion) : Err := ErrNone.

(** [test.go] *)
Definition Gid : Z := TC.GRP0.

Record Options := mkOptions {
  part : string; nclients : Z; nservers : nat; crash : bool; partitions : bool;
  maxraftstate : Z; opt_randomkeys : bool
}.

Definition makeTitle (o : Options) : string :=
  let title := "Test: "%string in
  let title := if crash o then title +:+ "restarts, " else title in
  let title := if partitions o then title +:+ "partitions, " else title in
  let title := if decide (maxraftstate o ≠ -1) then title +:+ "snapshots, " else title in
  let title := if opt_randomkeys o then title +:+ "random keys, " else title in
  let title := if decide (nclients o > 1) then title +:+ "many clients" else title +:+ "one client" in
  title +:+ " (" +:+ part o +:+ ")".

(** [MakeTest]; [nm] has the names for [nservers] servers.  [Begin] prints the
    title. *)
Definition MakeTest (reliable : bool) (o : Options) (nm : ShardTest.Draw) : GoRes (Test * string) :=
  (let* cfg := TC.MakeConfig reliable nm.1 nm.2 in
   let ts := kvtest_MakeTest cfg (opt_randomkeys o) in
   Ret (set_cfg ts (TC.Begin (config ts)), makeTitle o))%go.

(** [ts.Group(Gid)] *)
Definition group (ts : Test) : GoRes TC.Grp.ServerGrp := deref (TC.lookupGroup (config ts) Gid) "nil pointer dereference".

Definition Test_MakeClerk (ts : Test) : GoRes (Test * TestClerk Clerk) :=
  (let* (cfg, clnt) := MakeClient (config ts) in
   let ts := set_cfg ts cfg in
   let* g := group ts in
   Ret (ts, mkTestClerk (MakeClerk clnt (TC.SrvNames g)) clnt))%go.

Definition MakeClerkTo (ts : Test) (to : list nat) : GoRes (Test * TestClerk Clerk) :=
  (let* g := group ts in
   let* ns := TC.Grp.SrvNamesTo g to in
   let* (cfg, clnt) := MakeClientTo (config ts) (Some ns) in
   let ts := set_cfg ts cfg in
   let* g := group ts in
   Ret (ts, mkTestClerk (MakeClerk clnt (TC.SrvNames g)) clnt))%go.

(** ** The property *)

(** Clerks are set up right.  In a new test of the replicated server with
    [nservers] servers, all of which run, a clerk knows all servers; the client of
    [MakeClerk] reaches all of them, that of [MakeClerkTo] exactly the ones it
    was made for.  Deleting the clerk, which has not called anybody, leaves the
    network as it was. *)
Theorem clerks_reach_servers (reliable : bool) (o : Options) (nm : ShardTest.Draw)
    (Hn : length nm.1 = nservers o) (Hsq : TS.square nm.1 nm.2) (Hnd : NoDup (ShardTest.drawn nm)) :
  ∃ ts, MakeTest reliable o nm = Ret (ts, makeTitle o) ∧
    ∀ to : option (list nat), (∀ l i, to = Some l → i ∈ l → (i < nservers o)%nat) →
    ∃ ts' tck ts'',
      match to with Some l => MakeClerkTo ts l | None => Test_MakeClerk ts end = Ret (ts', tck) ∧
      servers (IKVClerk tck) = TC.Grp.ServerName Gid <$> seq 0 (nservers o) ∧
      (∀ i, (i < nservers o)%nat →
         is_Some (Labrpc.server_at (TC.net (config ts')) (TC.Grp.ServerName Gid i)) ∧
         (Cl.reach (TC.load_clnts (config ts')) (Clnt tck) (TC.Grp.ServerName Gid i) = true ↔
            match to with Some l => i ∈ l | None => True end)) ∧
      DeleteClerk ts' tck = Ret ts'' ∧ TC.net (config ts'') = TC.net (config ts).
Proof.
  rewrite <- Hn in *.
  destruct (config_made reliable nm Hsq Hnd) as (cfg & sg & HM & Hg & Hsn & Hat & Hlv & _).
  eexists. unfold MakeTest. rewrite HM. simpl. split; [reflexivity |]. intros to Hto.
  set (names := match to with Some l => Some (TC.Grp.ServerName Gid <$> l) | None => None end).
  destruct (client_made (TC.Begin cfg) names ∅ Hlv) as (cfg' & Hc & Hnet & Hgr & Hre & _ & cfg'' & Hdel & Hnet' & _).
  assert (∀ ts : Test, config ts = cfg' → group ts = Ret sg) as Hgroup.
  { intros ts E. unfold group, TC.lookupGroup. rewrite E, Hgr. change (deref (TC.lookupGroup cfg TC.GRP0) "nil pointer dereference" = Ret sg). by rewrite Hg. }
  exists (mkTest cfg' [] (opt_randomkeys o)).
  exists (mkTestClerk (MakeClerk (length (Cl.clnts (TC.clnts cfg))) (TC.SrvNames sg)) (length (Cl.clnts (TC.clnts cfg)))).
  exists (mkTest cfg'' [] (opt_randomkeys o)). split_and!.
  - destruct to as [l|].
    + assert (group (set_cfg (kvtest_MakeTest cfg (opt_randomkeys o)) (TC.Begin cfg)) = Ret sg) as Hg0.
      { change (deref (TC.lookupGroup cfg TC.GRP0) "nil pointer dereference" = Ret sg). by rewrite Hg. }
      unfold MakeClerkTo. rewrite Hg0. simpl.
      rewrite (SrvNamesTo_spec sg TC.GRP0 (length nm.1) l Hsn) by (intros i Hi; by eapply Hto). simpl.
      change (Some (TC.Grp.ServerName TC.GRP0 <$> l)) with names. rewrite Hc. simpl. by rewrite Hgroup.
    + unfold Test_MakeClerk, MakeClient. change (@None (list string)) with names. simpl. rewrite Hc. simpl. by rewrite Hgroup.
  - exact Hsn.
  - intros i Hi. simpl. split; [rewrite Hnet; by apply Hat |]. simpl in Hre. rewrite Hre. subst names. destruct to as [l|]; simpl; [| done].
    rewrite bool_decide_eq_true, list_elem_of_fmap. split.
    + intros (j & E & Hj). by apply TC.Grp.ServerName_inj in E as [_ ->].
    + intros Hi'. by exists i.
  - unfold DeleteClerk. simpl. simpl in Hdel. rewrite Hdel. done.
  - exact Hnet'.
Qed.

Lemma clerks_reach_servers_witness :
  ∃ ts ts' tck, MakeTest true (mkOptions "4B" 1 3 false true (-1) false) (ShardTest.ex_draw "k" 3) =
      Ret (ts, "Test: partitions, one client (4B)"%string) ∧
    MakeClerkTo ts [0; 2]%nat = Ret (ts', tck) ∧
    servers (IKVClerk tck) = ["server-0-0"; "server-0-1"; "server-0-2"]%string.
Proof.
  destruct (clerks_reach_servers true (mkOptions "4B" 1 3 false true (-1) false) (ShardTest.ex_draw "k" 3)) as (ts & Hts & Hck).
  - reflexivity.
  - repeat split; repeat constructor.
  - apply (bool_decide_unpack _). vm_compute. exact I.
  - exists ts. destruct (Hck (Some [0; 2]%nat)) as (ts' & tck & _ & H1 & H2 & _).
    { intros l i [= <-] Hi. simpl. rewrite !elem_of_cons, elem_of_nil in Hi. lia. }
    exists ts', tck. split; [exact Hts |]. split; [exact H1 | exact H2].
Defined.

End KVRaft.
