(* ===== verification/ShardKV.v ===== *)
(** * The sharded store: [shardkv1/]

    The shard groups' server and clerk ([shardgrp/]) and the clerk of the store
    ([client.go]) are placeholders in the repository and are here as they are,
    with the arguments and replies of the groups' RPCs and the way the tests
    make clerks ([test.go]). *)

From S2P Require Import Prelude KVServer Raft Labrpc TesterGroup TesterClnts Annotation TesterConfig TesterSystem RSM ShardTest KVSetup.
#[local] Open Scope Z_scope.

Module ShardKV.
Import KVSetup.

(** [shardgrp/shardrpc/shardrpc.go] *)
Record FreezeShardArgs := mkFreezeShardArgs { FA_Shard : Z; FA_Num : Z }.
Record FreezeShardReply := mkFreezeShardReply { FR_State : list Z; FR_Num : Z; FR_Err : Err }.
Record InstallShardArgs := mkInstallShardArgs { IA_Shard : Z; IA_State : list Z; IA_Num : Z }.
Record InstallShardReply := mkInstallShardReply { IR_Err : Err }.
Record DeleteShardArgs := mkDeleteShardArgs { DA_Shard : Z; DA_Num : Z }.
Record DeleteShardReply := mkDeleteShardReply { DR_Err : Err }.

(** [shardgrp/server.go] *)
Record KVServer := mkKVServer { me : nat; dead : Z; rsm : RSM.RSM; gid : Z }.

Definition DoOp {Req Rep : Type} (kv : KVServer) (req : Req) : option Rep := None.
Definition Snapshot (kv : KVServer) : list Z := [].
Definition Restore (kv : KVServer) (data : list Z) : KVServer := kv.
Definition Get (kv : KVServer) (args : GetArgs) (reply : GetReply) : GetReply := reply.
Definition Put (kv : KVServer) (args : PutArgs) (reply : PutReply) : PutReply := reply.
Definition FreezeShard (kv : KVServer) (args : FreezeShardArgs) (reply : FreezeShardReply) : FreezeShardReply := reply.
Definition InstallShard (kv : KVServer) (args : InstallShardArgs) (reply : InstallShardReply) : InstallShardReply := reply.
Definition DeleteShard (kv : KVServer) (args : DeleteShardArgs) (reply : DeleteShardReply) : DeleteShardReply := reply.
Definition Kill (kv : KVServer) : KVServer := mkKVServer (me kv) 1 (rsm kv) (gid kv).
Definition killed (kv : KVServer) : bool := bool_decide (dead kv = 1).

Definition StartServerShardGrp (npeers : nat) (gid : Z) (srv : nat) (raftstate : list Z) (maxraftstate r : Z)
    : KVServer * option Raft.Raft :=
  let kv := mkKVServer srv 0 (RSM.MakeRSM false npeers srv raftstate maxraftstate r) gid in
  (kv, RSM.RSM_Raft (rsm kv)).

(** [shardgrp/client.go] *)
Record GrpClerk := mkGrpClerk { grp_clnt : nat; grp_servers : list string }.
Definition MakeGrpClerk (clnt : nat) (servers : list string) : GrpClerk := mkGrpClerk clnt servers.
Definition Grp_Get (ck : GrpClerk) (key : string) : string * Tversion * Err := ("", 0, ErrNone).
Definition Grp_Put (ck : GrpClerk) (key value : string) (version : Tversion) : Err := ErrNone.
Definition Grp_FreezeShard (ck : GrpClerk) (s num : Z) : list Z * Err := ([], ErrNone).
Definition Grp_InstallShard (ck : GrpClerk) (s : Z) (state : list Z) (num : Z) : Err := ErrNone.
Definition Grp_DeleteShard (ck : GrpClerk) (s num : Z) : Err := ErrNone.

(** [client.go]; [ctrler] is the client of the controller it is given. *)
Record Clerk := mkClerk { clnt : nat; ctrler : nat }.
Definition MakeClerk (clnt ctrler : nat) : Clerk := mkClerk clnt ctrler.
Definition Clerk_Get (ck : Clerk) (key : string) : string * Tversion * Err := ("", 0, ErrNone).
Definition Clerk_Put (ck : Clerk) (key value : string) (version : Tversion) : Err := ErrNone.

(** [test.go]: a clerk with a controller of its own, and a clerk of the
    controller's key/value server. *)
Definition Test_MakeClerk (ts : Test) : GoRes (Test * TestClerk Clerk) :=
  (let* (cfg, clnt) := MakeClient (config ts) in
   let* (cfg, sck) := MakeClient cfg in
   Ret (set_cfg ts cfg, mkTestClerk (MakeClerk clnt sck) clnt))%go.
Definition makeKVClerk (ts : Test) : GoRes (Test * kvsrv_Clerk) :=
  (let* (cfg, clnt) := MakeClient (config ts) in
   Ret (set_cfg ts cfg, KVSetup.mkClerk clnt (TC.Grp.ServerName TC.GRP0 0)))%go.

End ShardKV.
