(* ===== verification/Programs.v ===== *)
(** * Command lines: [main/diskvd.go], [main/lockc.go], [main/lockd.go],
      [main/pbc.go], [main/pbd.go], [main/viewd.go]

    What these programs do with their arguments: what they print, which calls
    they make of their services, and how they end.  The services ([diskv],
    [lockservice], [pbservice], [viewservice]) are not in the repository: a
    call of one is a step of the program, and what it returns is the
    environment's.  Shown: the options of [diskvd] are read back as they were
    written; whatever its arguments, it starts a server only with options in
    range, and otherwise stops with status 1 having called nothing; and a
    number it cannot read counts as 0. *)

From S2P Require Import Prelude.
#[local] Open Scope string_scope.
#[local] Open Scope list_scope.
#[local] Open Scope Z_scope.

Module Programs.

(** ** [strconv] *)

Inductive NumErr : Type := ErrSyntax | ErrRange.

Definition maxUint64 : Z := two64 - 1.
(** The smallest number for which [n * 10 > maxUint64]. *)
Definition cutoff : Z := maxUint64 `div` 10 + 1.

(** [ParseUint] also knows letters as digits, which are too large for base 10. *)
Fixpoint ParseUint_loop (s : string) (n : Z) : Z * option NumErr :=
  match s with
  | EmptyString => (n, None)
  | String c s =>
      match digit c with
      | None => (0, Some ErrSyntax)
      | Some d =>
          if cutoff <=? n then (maxUint64, Some ErrRange)
          else let n := u64 (n * 10) in
               let n1 := u64 (n + d) in
               if (n1 <? n) || (maxUint64 <? n1) then (maxUint64, Some ErrRange) else ParseUint_loop s n1
      end
  end.

(** [ParseUint(s, 10, 64)] *)
Definition ParseUint (s : string) : Z * option NumErr :=
  match s with EmptyString => (0, Some ErrSyntax) | _ => ParseUint_loop s 0 end.

Definition sign (s : string) : bool * string :=
  match s with
  | String c s' =>
      if bool_decide (Ascii.nat_of_ascii c = 43%nat) then (false, s') else if bool_decide (Ascii.nat_of_ascii c = 45%nat) then (true, s') else (false, s)
  | EmptyString => (false, s)
  end.

(** [ParseInt(s, 10, 64)]; [Atoi] gives the same on a 64-bit machine. *)
Definition ParseInt (s : string) : Z * option NumErr :=
  match s with
  | EmptyString => (0, Some ErrSyntax)
  | _ =>
      let '(neg, s) := sign s in
      let '(un, err) := ParseUint s in
      match err with
      | Some ErrSyntax => (0, Some ErrSyntax)
      | _ =>
          if negb neg && (two63 <=? un) then (two63 - 1, Some ErrRange)
          else if neg && (two63 <? un) then (- two63, Some ErrRange)
          else (if neg then int64 (- un) else un, None)
      end
  end.
Definition Atoi (s : string) : Z * option NumErr := ParseInt s.

Definition ParseBool (s : string) : bool * option NumErr :=
  if bool_decide (s ∈ ["1"; "t"; "T"; "true"; "TRUE"; "True"]) then (true, None)
  else if bool_decide (s ∈ ["0"; "f"; "F"; "false"; "FALSE"; "False"]) then (false, None)
  else (false, Some ErrSyntax).

(** ** Programs *)

(** A value passed to, or returned by, a service. *)
Inductive Value : Type :=
| VStr (s : string)
| VBool (b : bool)
| VInt (z : Z)
| VStrs (l : list string)
| VUnit.

Inductive Prog : Type :=
| Printf (out : string) (k : Prog)
| Call (method : string) (args : list Value) (k : Value → Prog)
| Sleep (seconds : Z) (k : Prog)
| SleepForever                       (** [for { time.Sleep(100 * time.Second) }] *)
| Exit (status : Z)                  (** [os.Exit] *)
| Kill                               (** the process kills itself *)
| Return.

(** What happens when a program runs, with the environment [env] deciding what
    calls return: the calls made, the text printed, and how it ended. *)
Inductive Ending : Type := Exited (status : Z) | Killed | Runs.

Fixpoint run (env : string → list Value → Value) (p : Prog) : list (string * list Value) * string * Ending :=
  match p with
  | Printf out k => let '(c, o, e) := run env k in (c, out +:+ o, e)
  | Call m args k => let '(c, o, e) := run env (k (env m args)) in ((m, args) :: c, o, e)
  | Sleep _ k => run env k
  | SleepForever => ([], "", Runs)
  | Exit n => ([], "", Exited n)
  | Kill => ([], "", Killed)
  | Return => ([], "", Exited 0)
  end.

Definition newline : string := String (Ascii.ascii_of_nat 10) "".
Definition ln (s : string) : string := s +:+ newline.

(** [fmt.Printf] of a value with [%v]; only strings and booleans occur. *)
Definition show (v : Value) : string :=
  match v with VStr s => s | VBool b => if b then "true" else "false" | VInt z => Itoa z | _ => "" end.

(** *** The lock service: [lockc] and [lockd] *)

Definition lockc_usage : Prog := Printf (ln "Usage: lockc -l|-u primaryport backupport lockname") (Exit 1).
Definition lockc_main (args : list string) : Prog :=
  match args with
  | [_; op; primary; backup; name] =>
      Call "lockservice.MakeClerk" [VStr primary; VStr backup] (λ _,
        if bool_decide (op = "-l") then Call "Lock" [VStr name] (λ ok, Printf (ln ("reply: " +:+ show ok)) Return)
        else if bool_decide (op = "-u") then Call "Unlock" [VStr name] (λ ok, Printf (ln ("reply: " +:+ show ok)) Return)
        else lockc_usage)
  | _ => lockc_usage
  end.

Definition lockd_main (args : list string) : Prog :=
  match args with
  | [_; op; primary; backup] =>
      if bool_decide (op = "-p") then
        Call "lockservice.StartServer" [VStr primary; VStr backup; VBool true] (λ _, SleepForever)
      else if bool_decide (op = "-b") then
        Call "lockservice.StartServer" [VStr primary; VStr backup; VBool false] (λ _, SleepForever)
      else Printf (ln "Usage: lockd -p|-b primaryport backupport") (Exit 1)
  | _ => Printf (ln "Usage: lockd -p|-b primaryport backupport") (Exit 1)
  end.

(** *** Primary/backup: [pbc], [pbd] and [viewd] *)

Definition pbc_usage : Prog :=
  Printf (ln "Usage: pbc viewport key") (Printf (ln "       pbc viewport key value") (Exit 1)).
Definition pbc_main (args : list string) : Prog :=
  match args with
  | [_; vport; key] =>
      Call "pbservice.MakeClerk" [VStr vport; VStr ""] (λ _,
        Call "Get" [VStr key] (λ v, Printf (ln (show v)) Return))
  | [_; vport; key; value] =>
      Call "pbservice.MakeClerk" [VStr vport; VStr ""] (λ _, Call "Put" [VStr key; VStr value] (λ _, Return))
  | _ => pbc_usage
  end.

Definition pbd_main (args : list string) : Prog :=
  match args with
  | [_; vport; port] => Call "pbservice.StartServer" [VStr vport; VStr port] (λ _, SleepForever)
  | _ => Printf (ln "Usage: pbd viewport myport") (Exit 1)
  end.

Definition viewd_main (args : list string) : Prog :=
  match args with
  | [_; port] => Call "viewservice.StartServer" [VStr port] (λ _, SleepForever)
  | _ => Printf (ln "Usage: viewd port") (Exit 1)
  end.

(** *** [diskvd]

    [runtime.GOMAXPROCS] has no effect on what the program does. *)

Record Options := mkOptions {
  gid : Z;
  masters : list string;
  replicas : list string;
  me : Z;
  unreliable : bool;
  dir : string;
  restart : bool
}.

Definition no_options : Options := mkOptions (-1) [] [] (-1) false "" false.

Definition diskvd_usage : Prog :=
  Printf (ln "Usage: diskvd -g gid -m master... -s server... -i my-index -d dir") (Exit 1).

(** One pair of arguments; the errors of [strconv] are dropped. *)
Definition option_step (o : Options) (a0 a1 : string) : option Options :=
  if bool_decide (a0 = "-g") then
    Some (mkOptions (ParseInt a1).1 (masters o) (replicas o) (me o) (unreliable o) (dir o) (restart o))
  else if bool_decide (a0 = "-m") then
    Some (mkOptions (gid o) (masters o ++ [a1]) (replicas o) (me o) (unreliable o) (dir o) (restart o))
  else if bool_decide (a0 = "-s") then
    Some (mkOptions (gid o) (masters o) (replicas o ++ [a1]) (me o) (unreliable o) (dir o) (restart o))
  else if bool_decide (a0 = "-i") then
    Some (mkOptions (gid o) (masters o) (replicas o) (Atoi a1).1 (unreliable o) (dir o) (restart o))
  else if bool_decide (a0 = "-u") then
    Some (mkOptions (gid o) (masters o) (replicas o) (me o) (ParseBool a1).1 (dir o) (restart o))
  else if bool_decide (a0 = "-d") then
    Some (mkOptions (gid o) (masters o) (replicas o) (me o) (unreliable o) a1 (restart o))
  else if bool_decide (a0 = "-r") then
    Some (mkOptions (gid o) (masters o) (replicas o) (me o) (unreliable o) (dir o) (ParseBool a1).1)
  else None.

(** The loop over [os.Args[1:]]; a last argument without a partner is not
    looked at.  [None] when [usage] is called. *)
Fixpoint parse_options (o : Options) (args : list string) : option Options :=
  match args with
  | a0 :: a1 :: args => o ← option_step o a0 a1; parse_options o args
  | _ => Some o
  end.

(** The condition under which [main] goes on. *)
Definition options_ok (o : Options) : bool :=
  negb ((gid o <? 0) || (me o <? 0) || (Z.of_nat (length (masters o)) <? 1) ||
        (Z.of_nat (length (replicas o)) <=? me o) || bool_decide (dir o = "")).

Definition diskvd_main (args : list string) : Prog :=
  match parse_options no_options (tail args) with
  | None => diskvd_usage
  | Some o =>
      if options_ok o then
        Call "diskv.StartServer"
          [VInt (gid o); VStrs (masters o); VStrs (replicas o); VInt (me o); VStr (dir o); VBool (restart o)]
          (λ _, Call "Setunreliable" [VBool (unreliable o)] (λ _, Sleep (10 * 60) Kill))
      else diskvd_usage
  end.

(** ** Numbers *)

Lemma digit_range c d : digit c = Some d → 0 ≤ d ≤ 9.
Proof. unfold digit. case_decide; [| done]. intros [= <-]. lia. Qed.

(** One digit of a number that fits. *)
Lemma ParseUint_digit c s n d :
  digit c = Some d → 0 ≤ n → n * 10 + d < two64 → ParseUint_loop (String c s) n = ParseUint_loop s (n * 10 + d).
Proof.
  intros Hd Hn Hlt. pose proof (digit_range _ _ Hd). cbn [ParseUint_loop]. rewrite Hd. unfold cutoff, maxUint64, two64 in *.
  rewrite (proj2 (Z.leb_gt _ _)) by (change ((18446744073709551616 - 1) `div` 10 + 1) with 1844674407370955162; lia).
  rewrite (u64_small (n * 10)) by (unfold two64; lia). cbv zeta. rewrite u64_small by (unfold two64; lia).
  rewrite (proj2 (Z.ltb_ge _ _)), (proj2 (Z.ltb_ge _ _)) by lia. reflexivity.
Qed.

Lemma ParseUint_pretty x s : Z.of_N x < two64 → ParseUint_loop (pretty_N_go x s) 0 = ParseUint_loop s (Z.of_N x).
Proof.
  revert s. induction (N.lt_wf_0 x) as [x _ IH]; intros s Hx.
  destruct (decide (x = 0)%N) as [->|Hne]; [by rewrite pretty_N_go_0 |].
  pose proof (N.div_mod x 10 ltac:(lia)) as Hdm. pose proof (N.mod_lt x 10 ltac:(lia)) as Hlt.
  rewrite pretty_N_go_step by lia. pose proof (N.div_lt x 10 ltac:(lia) ltac:(lia)). rewrite IH by (done || lia).
  rewrite (ParseUint_digit _ _ _ _ (digit_pretty _ Hlt)) by lia. f_equal. lia.
Qed.

Lemma ParseUint_Itoa z : 0 ≤ z < two64 → ParseUint (Itoa z) = (z, None).
Proof.
  intros Hz. destruct z as [|p|p]; [reflexivity | | lia]. unfold Itoa.
  change (pretty (Z.pos p)) with (pretty (N.pos p)). unfold pretty, pretty_N. rewrite decide_False by done.
  pose proof (ParseUint_pretty (N.pos p) "" ltac:(lia)) as E. unfold ParseUint. rewrite E.
  destruct (pretty_N_go (N.pos p) "") eqn:Es; [| reflexivity]. by vm_compute in E.
Qed.

(** The first character of a decimal number is no sign. *)
Lemma sign_digits s : digits s → sign s = (false, s).
Proof.
  destruct s as [|c s]; [done |]. intros [Hc _]. unfold sign. by rewrite !bool_decide_false by lia.
Qed.

Lemma ParseInt_Itoa z : - two63 ≤ z < two63 → ParseInt (Itoa z) = (z, None).
Proof.
  intros Hz. assert (two64 = 2 * two63) by reflexivity. destruct (decide (0 ≤ z)) as [Hp|Hn].
  - pose proof (sign_digits _ (Itoa_digits z Hp)) as Es. pose proof (ParseUint_Itoa z ltac:(lia)) as Ep.
    unfold ParseInt. destruct (Itoa z) eqn:E; [done |]. rewrite Es, Ep. simpl.
    by rewrite (proj2 (Z.leb_gt _ _)) by lia.
  - destruct z as [|p|p]; [lia | lia |].
    change (Itoa (Z.neg p)) with (String (Ascii.ascii_of_nat 45) (Itoa (Z.pos p))).
    unfold ParseInt. change (sign (String (Ascii.ascii_of_nat 45) (Itoa (Z.pos p)))) with (true, Itoa (Z.pos p)).
    cbv iota beta. rewrite ParseUint_Itoa by lia. cbn [negb andb].
    rewrite (proj2 (Z.ltb_ge _ _)) by lia. by rewrite int64_small by lia.
Qed.

(** What [ParseUint] returns with a range error or none is a 64-bit number. *)
Lemma ParseUint_loop_range s n : 0 ≤ n < two64 → 0 ≤ (ParseUint_loop s n).1 < two64.
Proof.
  revert n. induction s as [|c s IH]; intros n Hn; cbn [ParseUint_loop]; [done |].
  destruct (digit c); [| done]. destruct (cutoff <=? n); [done |]. cbv zeta.
  destruct (_ || _); [done |]. apply IH, u64_range.
Qed.

Lemma ParseInt_range s : - two63 ≤ (ParseInt s).1 < two63.
Proof.
  unfold ParseInt. destruct s as [|c s]; [done |]. destruct (sign (String c s)) as [neg s'].
  destruct (ParseUint s') as [un err] eqn:E.
  assert (0 ≤ un < two64) as Hu.
  { unfold ParseUint in E. destruct s'; [by injection E as <- <- |].
    pose proof (ParseUint_loop_range (String a s') 0 ltac:(done)) as Hr. by rewrite E in Hr. }
  destruct err as [[]|], neg; cbn [negb andb fst]; try done;
    repeat case_match; cbn [fst]; try done; try apply int64_range; rewrite ?Z.leb_gt in *; split; try done; lia.
Qed.

Lemma ParseBool_show b : (ParseBool (show (VBool b))).1 = b.
Proof. by destruct b. Qed.

(** ** [diskvd] *)

(** The command line that gives the options [o]. *)
Definition render (o : Options) : list string :=
  ["-g"; Itoa (gid o)] ++ flat_map (λ m, ["-m"; m]) (masters o) ++ flat_map (λ r, ["-s"; r]) (replicas o) ++
  ["-i"; Itoa (me o); "-u"; show (VBool (unreliable o)); "-d"; dir o; "-r"; show (VBool (restart o))].

Lemma parse_masters ms o rest :
  parse_options o (flat_map (λ m, ["-m"; m]) ms ++ rest) =
  parse_options (mkOptions (gid o) (masters o ++ ms) (replicas o) (me o) (unreliable o) (dir o) (restart o)) rest.
Proof.
  revert o. induction ms as [|m ms IH]; intros o; simpl; [by rewrite app_nil_r; destruct o |].
  rewrite IH. simpl. by rewrite <- app_assoc.
Qed.

Lemma parse_replicas rs o rest :
  parse_options o (flat_map (λ r, ["-s"; r]) rs ++ rest) =
  parse_options (mkOptions (gid o) (masters o) (replicas o ++ rs) (me o) (unreliable o) (dir o) (restart o)) rest.
Proof.
  revert o. induction rs as [|r rs IH]; intros o; simpl; [by rewrite app_nil_r; destruct o |].
  rewrite IH. simpl. by rewrite <- app_assoc.
Qed.

(** Options written on the command line are read back, whatever came before. *)
Lemma parse_render o :
  - two63 ≤ gid o < two63 → - two63 ≤ me o < two63 → parse_options no_options (render o) = Some o.
Proof.
  intros Hg Hm. unfold render. cbn [app]. cbn [parse_options].
  change (option_step no_options "-g" (Itoa (gid o))) with (Some (mkOptions (ParseInt (Itoa (gid o))).1 [] [] (-1) false "" false)).
  cbn [mbind option_bind]. rewrite ParseInt_Itoa by done. rewrite parse_masters, parse_replicas. cbn [parse_options].
  unfold option_step, Atoi. cbn -[ParseBool ParseInt Itoa show]. rewrite ParseInt_Itoa, !ParseBool_show by done. by destruct o.
Qed.

Lemma options_ok_spec o :
  options_ok o = true ↔ 0 ≤ gid o ∧ 0 ≤ me o < Z.of_nat (length (replicas o)) ∧ masters o ≠ [] ∧ dir o ≠ "".
Proof.
  unfold options_ok. rewrite negb_true_iff, !orb_false_iff, !Z.ltb_ge, Z.leb_gt, bool_decide_eq_false.
  destruct (masters o); simpl; intuition (done || lia).
Qed.

(** [diskvd] starts the server that its command line describes and stops after
    ten minutes. *)
Theorem diskvd_starts (env : string → list Value → Value) (name : string) (o : Options)
    (Hok : options_ok o = true) (Hg : gid o < two63) (Hm : me o < two63) :
  run env (diskvd_main (name :: render o)) =
    ([("diskv.StartServer",
       [VInt (gid o); VStrs (masters o); VStrs (replicas o); VInt (me o); VStr (dir o); VBool (restart o)]);
      ("Setunreliable", [VBool (unreliable o)])], "", Killed).
Proof.
  pose proof (proj1 (options_ok_spec o) Hok) as (? & ? & _). assert (- two63 < 0) by done.
  unfold diskvd_main. simpl tail. rewrite parse_render by lia. by rewrite Hok.
Qed.

(** Whatever the arguments: either the server started is one of the replicas
    named, in a group, with a master and a directory, or nothing is started. *)
Theorem diskvd_in_range (env : string → list Value → Value) (args : list string) :
  run env (diskvd_main args) =
    ([], ln "Usage: diskvd -g gid -m master... -s server... -i my-index -d dir", Exited 1) ∨
  ∃ o, 0 ≤ gid o ∧ 0 ≤ me o < Z.of_nat (length (replicas o)) ∧ masters o ≠ [] ∧ dir o ≠ "" ∧
    run env (diskvd_main args) =
      ([("diskv.StartServer",
         [VInt (gid o); VStrs (masters o); VStrs (replicas o); VInt (me o); VStr (dir o); VBool (restart o)]);
        ("Setunreliable", [VBool (unreliable o)])], "", Killed).
Proof.
  unfold diskvd_main. destruct (parse_options _ _) as [o|]; [| by left].
  destruct (options_ok o) eqn:E; [| by left]. right. exists o. apply options_ok_spec in E. naive_solver.
Qed.

(** The errors of [strconv] are dropped: a group or an index that is no number
    counts as 0, and the server starts as replica 0 of group 0. *)
Theorem diskvd_bad_numbers :
  parse_options no_options ["-g"; "one"; "-m"; "m"; "-s"; "s"; "-i"; "first"; "-d"; "d"] =
    Some (mkOptions 0 ["m"] ["s"] 0 false "d" false) ∧
  options_ok (mkOptions 0 ["m"] ["s"] 0 false "d" false) = true.
Proof. split; vm_compute; reflexivity. Qed.

(** ** The other programs *)

(** They keep running once they have started a server, and stop with status 1
    exactly when the arguments are not those of the usage message. *)
Theorem daemons_start (env : string → list Value → Value) (name : string) (args : list string) :
  ((run env (lockd_main (name :: args))).2 = Runs ↔ ∃ a b, args = ["-p"; a; b] ∨ args = ["-b"; a; b]) ∧
  ((run env (pbd_main (name :: args))).2 = Runs ↔ ∃ a b, args = [a; b]) ∧
  ((run env (viewd_main (name :: args))).2 = Runs ↔ ∃ a, args = [a]).
Proof.
  split_and!.
  - destruct args as [|op [|a [|b [|]]]]; simpl; try naive_solver.
    case_bool_decide; [simpl; naive_solver |]. case_bool_decide; simpl; naive_solver.
  - destruct args as [|a [|b [|]]]; simpl; naive_solver.
  - destruct args as [|a [|]]; simpl; naive_solver.
Qed.

(** [lockc] makes a clerk before it looks at the operation; what it prints is
    the service's answer. *)
Theorem lockc_calls (env : string → list Value → Value) (name op p b l : string) :
  run env (lockc_main [name; op; p; b; l]) =
    (("lockservice.MakeClerk", [VStr p; VStr b]) ::
       (if bool_decide (op = "-l") then [("Lock", [VStr l])]
        else if bool_decide (op = "-u") then [("Unlock", [VStr l])] else []),
     if bool_decide (op = "-l") then ln ("reply: " +:+ show (env "Lock" [VStr l]))
     else if bool_decide (op = "-u") then ln ("reply: " +:+ show (env "Unlock" [VStr l]))
     else ln "Usage: lockc -l|-u primaryport backupport lockname",
     Exited (if bool_decide (op = "-l" ∨ op = "-u") then 0 else 1)).
Proof.
  simpl. case_bool_decide as H1; [rewrite (bool_decide_true (_ ∨ _)) by auto; simpl; by rewrite string_app_nil_r |].
  case_bool_decide as H2; [rewrite (bool_decide_true (_ ∨ _)) by auto; simpl; by rewrite string_app_nil_r |].
  rewrite (bool_decide_false (_ ∨ _)) by naive_solver. simpl. by rewrite string_app_nil_r.
Qed.

(** [pbc] with a key prints what the service has for it. *)
Theorem pbc_get (env : string → list Value → Value) (name vport key : string) :
  run env (pbc_main [name; vport; key]) =
    ([("pbservice.MakeClerk", [VStr vport; VStr ""]); ("Get", [VStr key])], ln (show (env "Get" [VStr key])), Exited 0).
Proof. simpl. by rewrite string_app_nil_r. Qed.

End Programs.
